(* ===== verification/_CoqProject ===== *)
-Q . S2P
Prelude.v
Bits.v
Regex.v
EthAddr.v
Ipv4Addr.v
IPv6Addr.v
Oxm.v
FluidOxm.v
FieldSet.v
Packet.v
Policy.v
Valuation.v
Fdd.v
FddCompiler.v
FddCorrect.v
FddTranslator.v
FddOrder.v
Tracer.v
TraceTree.v
LeafTraces.v
TraverseFdd.v
PacketIn.v
OFDriver.v
Retic.v
FullFieldSet.v
MapleTree.v
MapleRuntime.v
MapleCorrect.v
MapleTable.v
MapleRun.v
MapleUpdate.v
Decision.v
MapleFlow.v
MapleBackend.v
MapleApp.v
PacketSim.v
PacketParser.v
Topology.v
Forest.v
Stp.v
StpFlood.v
LearningSwitch.v
LinkDiscovery.v
Loader.v
SwitchManager.v
HostManager.v
RestEvents.v
Controller.v
FlowManager.v
RestJson.v
Json11.v
RestFlowMod.v
RestMultipart.v
StaticFlowPusher.v
Stats.v
WebUIManager.v
MapleHandlers.v
CommandLine.v
RestObjects.v
