(* ===== verification/Prelude.v ===== *)
(** * dRunos: a verification library for the controller's packet policies

    dRunos (src/src) is an OpenFlow 1.3 controller.  Its core decides what
    switches do with packets, in two ways.  Retic compiles a policy, written in
    a language of filters, modifications, compositions and functions of the
    packet, to a decision diagram, and the diagram to prioritised rules.
    Maple runs handlers on packets that miss, records what they looked at in a
    trace tree, and compiles the tree to rules.  Both are built on bit
    sequences, OpenFlow extensible-match (OXM) types, fields and field sets,
    and on an abstract packet whose proxies trace accesses.  The library models
    these parts as they are written and proves what makes them correct, and
    states on concrete runs where they are not.

    ** Files, and the code they model (paths under src/src)

    Foundations.
    - [Prelude]: exceptions ([exn]), code that may throw ([res], with its
      monad), computations that may also run out of fuel ([comp],
      [converges]), bit arithmetic on N, the hint databases [runos] and
      [quiet], shared tactics.
    - [Bits]: types/bits.hh.  [Regex]: the part of std::regex the address
      parsers use.  [EthAddr], [Ipv4Addr], [IPv6Addr]: the addresses of types/.
    - [Oxm]: oxm/type.hh, oxm/field.hh, oxm/openflow_basic.hh.  [FluidOxm]:
      FluidOXMAdapter, fields on the wire.  [FieldSet] and
      [FullFieldSet]: oxm/field_set.hh.
    - [Packet]: api/Packet.hh; the virtual interface is a class of operations
      and a class of laws, and everything that handles packets is written
      against them.  [Valuation]: the packets that bind every type.
      [PacketSim]: packets that behave alike.  [PacketParser]: PacketParser and
      types/packet_headers.hh, packets in a memory of bytes.
    Retic.
    - [Policy]: retic/policies; [eval] is the meaning of a policy, the
      specification of all that follows.  [Fdd], [FddCompiler]: retic/fdd.hh,
      retic/fdd_compiler.  [FddTranslator]: retic/fdd_translator.
    - [Tracer]: retic/tracer, maple/Tracer.hh, maple/TraceablePacketImpl.
      [TraceTree]: retic/trace_tree, retic/traverse_trace_tree,
      retic/trace_tree_translator.  [LeafTraces], [TraverseFdd], [PacketIn]:
      retic/leaf_applier, retic/traverse_fdd and their composition.
    - [OFDriver], [Retic]: the OpenFlow driver, the backend and the application
      (OFDriver, Retic).
    - [FddCorrect], [FddOrder]: the proofs about the compiler.
    Maple.
    - [MapleTree], [MapleRuntime], [MapleUpdate]: maple/TraceTree,
      maple/Runtime.hh, maple/Backend.hh.  [MapleCorrect], [MapleTable],
      [MapleRun]: the proofs about them.
    - [Decision]: Decision.  [MapleFlow], [MapleBackend], [MapleApp]: FlowImpl,
      MapleBackend and MapleImpl of Maple.cc, and Flow.
    Applications.
    - [Topology]: Topology.  [Forest]: walks in graphs without cycles.  [Stp],
      [StpFlood]: STP, and broadcasts followed from switch to switch.
      [LearningSwitch]: LearningSwitch.  [LinkDiscovery]: LinkDiscovery, LLDP.hh.
    The controller.
    - [Loader]: Loader, Application.  [SwitchManager]: Switch.  [HostManager]:
      HostManager.  [RestEvents]: Event, RestListener, Rest.hh.
    - [Controller]: Controller, SwitchConnection, OFMsgUnion, OFTransaction, and
      how its signals get to the switch manager and to the clients of the
      REST interface.  [FlowManager]: FlowManager.
    - [RestJson]: RestStringProcessing.  [Json11]: json11.cpp, the text of
      JSON.  [RestFlowMod]: RestFlowMod.  [RestMultipart]: RestMultipart.
      [StaticFlowPusher]: StaticFlowPusher and the reading of Config.hh.
      [Stats]: Stats.  [WebUIManager]: WebUIManager.  [RestObjects]: the JSON
      of events, rules, links and hosts.
    - [CommandLine]: CommandLine, SwitchCli.
    - [MapleHandlers]: SimpleLearningSwitch, CBench, DropAll, NoMapleRules.

    ** How state and operations correspond

    A C++ object is a record, a mutating method a function to the new record,
    what it sends the list of messages, an exception a [Throw].  A variant is
    an inductive type.  Widths are kept: a field's bits are a number below
    [2 ^ width], a switch's timeouts and priorities are cut to 16 bits, cookies
    wrap at 64, the priorities of [MapleUpdate] are computed in binary64.
    Shared pointers that matter are locations of a heap (of retic's
    trees, the forest of maple's).  A handler that applications supply is a
    tree of its accesses to the packet ([handler]), so that one may trace it.

    ** What the theorems show

    - Retic from end to end: [policy_table_correct] (function-free policies to
      the table), [compile_correct] (policies to diagrams), [translator_correct]
      (diagrams to rules), [packet_in_correct] (policies with functions, at run
      time, after any packets), [trace_tree_correct], [trace_faithful],
      [trace_replay], [merge_trace_exact], [parallel_composition_correct],
      [compile_strictly_ordered].
    - Maple: [maple_table_correct] (in every reachable tree the committed table
      and the lookup agree with the history), [augment_correct],
      [update_keeps_lookups]; the application: [app_invariant], [handle_safe];
      its backend and flows: [backend_install_exact], [released_once],
      [timeouts_honoured]; [decisions_narrow].
    - The driver: [rules_owned_and_removed], [installed_rule_outputs].
    - Packets: [parser_refines] (functions and traces on parsed packets are
      those on the values of their fields, which carries the theorems about
      tracing to real packets), [constructed_ok], [modify_in_place].
    - Applications: [computeRoute_correct] (routes lead to their targets),
      [broadcastPolicy_correct], [flood_no_loop] and [flood_reaches] (with the
      spanning tree a broadcast gets to every switch once),
      [discovered_link_wired], [forwarding_delivers] (packets between known
      hosts arrive), [forwarding_floods], [link_discovery_tracks],
      [topology_in_sync] (the topology holds the links that are discovered),
      [lldp_roundtrip].
    - The controller: [loader_order], [loader_loads] and [loader_terminates]
      (applications are initialised after what they depend on, all of them,
      in the end); [ports_heard] (listeners know the ports the manager has),
      [down_switch_unlinked] (its links are gone when a switch is),
      [ports_are_switches], [host_lookups], [polls_in_sync] (clients that poll
      for events know the objects there are), [path_sanitised];
      [controller_serves_manager] and [clients_know_switches] (from connections
      through the switch manager to the clients), [setup_pipeline],
      [transactions_answered]; [flow_manager_in_sync] (rules are what switches
      last replied, and clients know them), [same_flows_quiet],
      [delete_by_number].
    - The REST interface: [cast_roundtrip] and [statistics_read_back] (numbers
      are read as they were printed), [reported_match_reinstalls] (matches
      too), [match_prerequisites], [adds_below_last_table],
      [clear_restores_pipeline], [answers_are_replies]; [static_flows_sent] and
      [static_match_needs] (flows of the configuration), [stats_latest] and
      [polled_are_known] (statistics of the switches there are),
      [web_switches] and [web_put_get] (objects of the web interface).
    - JSON: [json_roundtrip] (what is printed is read back), [parse_total] (any
      text ends the parser), [body_carries_values]; [texts_carry_events]
      (clients that read texts know what the events say), [links_read],
      [hosts_read], [rule_read].
    - The command line: [split_words], [command_called], [first_registered],
      [all_switches_shown].
    - Maple's applications: [simple_switch_forwards] (to where an address was
      last seen), [no_maple_rules_holds], [cbench_port].
    - The wire: [oxm_wire_roundtrip], [wire_matches], [make_of_match_classes].
    - Data: [field_set_invariant], [load_after_modify], [operators_never_throw],
      [fields_describe_the_set], [policy_equality_is_semantic], and the round
      trips of addresses and buffers.
    - Where the code does not do what it means to: [parallel_diverges],
      [nested_parallel_wrong_rule], [priority_band_exhausted],
      [update_without_commit], [merge_partial_test_wrong],
      [test_on_leaf_undetected], [post_actions_lost], [drop_rule_does_not_stay],
      [timeouts_lost], [no_backend_no_handling], [fifteen_tests_exceed],
      [truncated_ipv6_throws], [vlan_modify_clears_priority],
      [short_header_overlaps], [parallel_link_lost], [loopback_link_broken],
      [moved_host_dropped],
      [broadcast_source_fails], [moved_cable_dangles],
      [expired_without_asserts], [ipv6_print_wrong], [missing_dependency_fatal],
      [started_not_found], [switch_macs_stay], [deleted_not_added],
      [same_number_confused], [rules_outlive_backend],
      [reconnect_lost], [fatal_messages], [destroyed_out_of_bounds],
      [split_reply_lost], [no_number_is_zero], [json_number_is_junk],
      [number_table_unchecked], [masks_lost], [ipv6_match_conflicts],
      [stale_response_text], [idle_timeout_cut], [delete_in_any_table],
      [reported_set_field_refused], [clear_without_barriers],
      [clear_unknown_switch], [second_part_answers_next], [no_reply_blocks],
      [vlan_id_without_present], [free_priority_wraps], [phantom_port],
      [web_put_unknown], [moved_source_unseen], [out_of_range_misreported],
      [unknown_switch_ends].  The hypotheses of the positive
      theorems are the conditions under which these do not happen: for policies
      exact filters, at most two values per type, functions last and over whole
      fields, at most 14 nested tests; for links fixed cables, one between two
      switches, and asserts that are evaluated or no link that expires; for
      clients objects with numbers of their own; for matches no masks and no
      IPv6; for additions a table given as text; for the backend a deletion
      that reaches its table.

    ** Fuel

    [par] may call itself with its arguments swapped, [traverse_fdd] goes on
    into diagrams it has just made, maple's walks follow pointers into a
    forest, the loader follows dependencies and the parser of JSON calls itself
    for the values in a value; these take fuel, the bound on the depth of calls.
    [converges] says that all fuel from some point on gives the one result;
    every theorem about such a function states that it converges, on the depth
    of the diagrams, trees or registrations involved, or that it does not
    ([parallel_diverges]).  [Json11.parse] has fuel for any text
    ([parse_total]).

    ** Not modelled

    - The switch, libfluid's message classes and the transport: a message is
      what its setters were given, and a table is what OpenFlow says it is.
      What libfluid leaves in fields that are not set is a parameter: the table
      of a flow-mod ([UnsetTable]), the numbers of actions ([fresh]).
    - What uninitialised variables hold: each read of a number from a request
      finds a value of its own, which is a parameter ([junk], [reading]).
    - Logging and printing of packets, fields, policies and diagrams;
      hashes, where only equality matters ([MapleBackend] takes the hash of a
      printed match as a parameter).
    - vload nodes of maple's tree are modelled ([MapleTree]) but the theorems
      about trees are for policies without them.
    - In [MapleApp] the trace tree is behind an interface ([RuntimeOps]).  A
      call of the backend that throws half way leaves its flow as it was before
      the call.
    - The algorithms of the Boost graph library are parameters, with what its
      documentation says of their results ([ShortestPaths], [SpanningForest]).
    - Threads and locks, the HTTP server and the terminal, the third-party
      OpenFlow headers; of JSON the numbers that are no integers. *)

From Stdlib Require Export NArith ZArith Lia.
From Stdlib Require Ascii.
From stdpp Require Export base list gmap numbers.

#[global] Set Default Goal Selector "!".

(** ** Errors: the C++ exceptions the modelled code raises *)

Inductive exn : Type :=
| BadBitLength            (** oxm::bad_bit_length *)
| BadMask                 (** oxm::bad_mask *)
| BadOperands             (** oxm::bad_operands *)
| BadCast                 (** oxm::bad_cast and std::bad_cast *)
| BadRepresentation       (** ethaddr/ipv4addr/IPv6Addr::bad_representation *)
| OverflowError           (** std::overflow_error of bitset::to_ullong *)
| OutOfRange              (** out_of_range *)
| StdOutOfRange           (** std::out_of_range of .at() *)
| InvalidArgument         (** invalid_argument *)
| NullptrDereference      (** nullptr_dereference of checked_ptr *)
| InconsistentTrace       (** inconsistent_trace *)
| PriorityExceeded        (** maple::priority_exceeded *)
| DecisionConflict        (** decision_conflict *)
| LogicError              (** std::logic_error *)
| RuntimeError            (** std::runtime_error *)
| BadVariantAccess        (** boost::bad_get *)
| BadFunctionCall         (** std::bad_function_call *)
| StringThrown (text : list Ascii.ascii)   (** a std::string that is thrown *)
| CharsThrown (text : list Ascii.ascii)    (** a string literal or a what() that is thrown *)
| BadLexicalCast          (** boost::bad_lexical_cast *)
| OFMsgParseError         (** OFMsgParseError *)
| OFMsgUnhandledType      (** OFMsgUnhandledType *)
| AssertionFailure        (** BOOST_ASSERT, routed to an exception *)
| Terminate.              (** the process ends: an exception leaves a noexcept function, or a null
                              pointer is followed *)

#[local] Instance ascii_eq : EqDecision Ascii.ascii := Ascii.ascii_dec.
#[global] Instance exn_eq_dec : EqDecision exn.
Proof. solve_decision. Defined.

(** The outcome of code that may throw. *)
Inductive res (A : Type) : Type :=
| Ok (a : A)
| Throw (e : exn).
Arguments Ok {A} a.
Arguments Throw {A} e.

#[global] Instance res_ret : MRet res := @Ok.
#[global] Instance res_bind : MBind res := λ A B f m,
  match m with Ok a => f a | Throw e => Throw e end.
#[global] Instance res_fmap : FMap res := λ A B f m,
  match m with Ok a => Ok (f a) | Throw e => Throw e end.
#[global] Instance res_eq_dec {A} `{EqDecision A} : EqDecision (res A).
Proof. solve_decision. Defined.

Declare Scope runos_scope.
Delimit Scope runos_scope with runos.
Open Scope runos_scope.

(** [require b e] throws [e] unless [b]. *)
Definition require (b : bool) (e : exn) : res unit :=
  if b then Ok tt else Throw e.

(** A [noexcept] function: an exception that leaves it calls std::terminate. *)
Definition noexcept {A} (m : res A) : res A :=
  match m with Ok a => Ok a | Throw _ => Throw Terminate end.

Lemma res_bind_Ok {A B} (m : res A) (f : A → res B) b :
  m ≫= f = Ok b ↔ ∃ a, m = Ok a ∧ f a = Ok b.
Proof. destruct m; cbn; naive_solver. Qed.

Lemma res_fmap_Ok {A B} (m : res A) (f : A → B) b :
  f <$> m = Ok b ↔ ∃ a, m = Ok a ∧ b = f a.
Proof. destruct m; cbn; naive_solver. Qed.

Lemma require_Ok b e u : require b e = Ok u ↔ b = true.
Proof. destruct b, u; cbn; naive_solver. Qed.

(** [inv_res] breaks hypotheses that say a chain of throwing steps succeeded. *)
Ltac inv_res :=
  repeat match goal with
  | H : Ok _ = Ok _ |- _ => injection H as H; subst
  | H : Throw _ = Ok _ |- _ => discriminate H
  | H : Ok _ = Throw _ |- _ => discriminate H
  | H : mret _ = Ok _ |- _ => unfold mret, res_ret in H
  | H : (_ ≫= _) = Ok _ |- _ => apply res_bind_Ok in H as (? & ? & ?)
  | H : (_ <$> _) = Ok _ |- _ => apply res_fmap_Ok in H as (? & ? & ?)
  | H : require _ _ = Ok _ |- _ => apply require_Ok in H
  end.

(** [quiet m]: whatever [m] throws, it is neither a failed assertion nor the
    call of an empty function. *)
Definition quiet {A} (m : res A) : Prop :=
  ∀ e, m = Throw e → e ≠ AssertionFailure ∧ e ≠ BadFunctionCall.

Lemma quiet_Ok {A} (a : A) : quiet (Ok a).
Proof. done. Qed.
Lemma quiet_bind {A B} (m : res A) (f : A → res B) : quiet m → (∀ a, m = Ok a → quiet (f a)) → quiet (m ≫= f).
Proof. intros Hm Hf e. destruct m as [a | e']; cbn; [by apply Hf | intros [= <-]; by apply Hm]. Qed.
Lemma quiet_fmap {A B} (m : res A) (f : A → B) : quiet m → quiet (f <$> m).
Proof. intros Hm e. destruct m as [a | e']; cbn; [done | intros [= <-]; by apply Hm]. Qed.
Lemma quiet_Throw {A} e : e ≠ AssertionFailure → e ≠ BadFunctionCall → quiet (@Throw A e).
Proof. by intros ? ? e' [= <-]. Qed.
Lemma quiet_require b e : e ≠ AssertionFailure → e ≠ BadFunctionCall → quiet (require b e).
Proof. intros. destruct b; [done | by apply quiet_Throw]. Qed.

(** ** Bit arithmetic on [N] *)

(** [Nbits] proves an equality of bitwise expressions bit by bit. *)
Ltac Nbits_norm :=
  rewrite ?N.land_spec, ?N.lor_spec, ?N.ldiff_spec, ?N.lxor_spec, ?N.bits_0.
Ltac Nbits_case :=
  repeat match goal with
  | |- context [N.testbit ?a ?i] => destruct (N.testbit a i) eqn:?
  end; cbn; try reflexivity; try congruence.
Ltac Nbits :=
  apply N.bits_inj; intros ?i; repeat progress Nbits_norm; Nbits_case.

(** [a ⊑ b]: every bit of [a] is a bit of [b]. *)
Definition bits_sub (a b : N) : Prop := N.land a b = a.
Infix "⊑b" := bits_sub (at level 70) : runos_scope.

Lemma bits_sub_spec a b :
  a ⊑b b ↔ ∀ i, N.testbit a i = true → N.testbit b i = true.
Proof.
  unfold bits_sub. split.
  - intros H i Ha. rewrite <- H in Ha. rewrite N.land_spec in Ha.
    by apply andb_true_iff in Ha as [_ ?].
  - intros H. apply N.bits_inj. intros i. rewrite N.land_spec.
    destruct (N.testbit a i) eqn:Ha; [by rewrite (H i Ha) | done].
Qed.

(** [Nsub] is [Nbits] that first turns [⊑b] hypotheses into facts about the
    bit at hand. *)
Ltac Nsub_use i :=
  repeat match goal with
  | H : _ ⊑b _ |- _ => rewrite bits_sub_spec in H; specialize (H i)
  | H : @eq N ?a ?b |- _ =>
      apply (f_equal (λ n, N.testbit n i)) in H;
      cbn beta in H; rewrite ?N.land_spec, ?N.lor_spec, ?N.ldiff_spec,
        ?N.lxor_spec, ?N.bits_0 in H
  end.
Ltac Nsub_close :=
  repeat match goal with
  | H : context [N.testbit ?a ?i] |- _ =>
      is_var a; let E := fresh in destruct (N.testbit a i) eqn:E; cbn in *;
      clear E
  | |- context [N.testbit ?a ?i] =>
      let E := fresh in destruct (N.testbit a i) eqn:E; cbn in *; clear E
  end; try reflexivity; try congruence; try (intuition congruence).

Lemma ones_spec_iff w i : N.testbit (N.ones w) i = (i <? w)%N.
Proof.
  destruct (i <? w)%N eqn:E.
  - apply N.ltb_lt in E. by apply N.ones_spec_low.
  - apply N.ltb_ge in E. by apply N.ones_spec_high.
Qed.

Lemma sub_ones_lt w n : n ⊑b N.ones w ↔ (n < 2 ^ w)%N.
Proof.
  unfold bits_sub. rewrite N.land_ones. split.
  - intros <-. apply N.mod_lt. by apply N.pow_nonzero.
  - apply N.mod_small.
Qed.

(** Appending [k] low bits. *)
Lemma lor_shiftl_add a b k :
  (b < 2 ^ k)%N → N.lor (N.shiftl a k) b = (a * 2 ^ k + b)%N.
Proof.
  intros Hb. assert (E : N.land (N.shiftl a k) b = 0%N).
  { apply sub_ones_lt in Hb. apply N.bits_inj. intros i.
    rewrite N.land_spec, N.bits_0. destruct (N.ltb_spec i k) as [Hi | Hi].
    - by rewrite N.shiftl_spec_low by done.
    - destruct (N.testbit b i) eqn:Eb; [| by rewrite andb_false_r].
      apply bits_sub_spec with (i := i) in Hb; [| done].
      rewrite ones_spec_iff in Hb. apply N.ltb_lt in Hb. lia. }
  rewrite <- N.lxor_lor, <- N.add_nocarry_lxor by done.
  by rewrite N.shiftl_mul_pow2.
Qed.

Lemma bits_sub_refl a : a ⊑b a.
Proof. apply N.land_diag. Qed.
Lemma bits_sub_0 a : 0%N ⊑b a.
Proof. done. Qed.
Lemma bits_sub_trans a b c : a ⊑b b → b ⊑b c → a ⊑b c.
Proof. rewrite !bits_sub_spec. naive_solver. Qed.
Lemma bits_sub_antisym a b : a ⊑b b → b ⊑b a → a = b.
Proof. unfold bits_sub. rewrite N.land_comm. congruence. Qed.
Lemma land_sub_l a b : N.land a b ⊑b a.
Proof. unfold bits_sub. Nbits. Qed.
Lemma land_sub_r a b : N.land a b ⊑b b.
Proof. unfold bits_sub. Nbits. Qed.
Lemma ldiff_sub a b : N.ldiff a b ⊑b a.
Proof. unfold bits_sub. Nbits. Qed.
Lemma lor_sub a b c : a ⊑b c → b ⊑b c → N.lor a b ⊑b c.
Proof.
  rewrite !bits_sub_spec. intros Ha Hb i. rewrite N.lor_spec, orb_true_iff.
  naive_solver.
Qed.
Lemma lor_sub_l a b : a ⊑b N.lor a b.
Proof. unfold bits_sub. Nbits. Qed.
Lemma lor_sub_r a b : b ⊑b N.lor a b.
Proof. unfold bits_sub. Nbits. Qed.
Lemma land_sub_mono a b c : a ⊑b c → N.land a b ⊑b c.
Proof. intros H. eapply bits_sub_trans; [apply land_sub_l | done]. Qed.
Lemma ldiff_sub_mono a b c : a ⊑b c → N.ldiff a b ⊑b c.
Proof. intros H. eapply bits_sub_trans; [apply ldiff_sub | done]. Qed.
Lemma land_mono_both a b m : a ⊑b b → N.land a m ⊑b N.land b m.
Proof.
  rewrite !bits_sub_spec. intros H i. rewrite !N.land_spec, !andb_true_iff.
  naive_solver.
Qed.

Lemma Forall_elem {A} (P : A → Prop) l : Forall P l ↔ ∀ x, x ∈ l → P x.
Proof. apply stdpp.list_relations.list.Forall_forall. Qed.

(** [inv_Forall] splits [Forall] facts about explicit lists. *)
Ltac inv_Forall :=
  repeat match goal with
  | H : Forall _ (_ :: _) |- _ => apply Forall_cons_1 in H as [? H]
  | H : Forall _ [] |- _ => clear H
  end.

(** [quiet] walks through a chain of throwing steps. *)
Create HintDb quiet.
#[export] Hint Resolve quiet_Ok : quiet.
#[export] Hint Extern 1 (quiet (Throw _)) => apply quiet_Throw; discriminate : quiet.
#[export] Hint Extern 1 (quiet (require _ _)) => apply quiet_require; discriminate : quiet.
Ltac quiet :=
  repeat first [ solve [auto with quiet] | apply quiet_bind; [| intros ? ?] | apply quiet_fmap | case_match ].

Create HintDb runos.
#[export] Hint Resolve bits_sub_refl bits_sub_0 land_sub_l land_sub_r ldiff_sub
  lor_sub land_sub_mono ldiff_sub_mono : runos.

(** ** Computations that may also fail to terminate

    [NoFuel] is the outcome of a recursion whose fuel ran out. *)

Inductive comp (A : Type) : Type :=
| Ret (a : A)
| Raise (e : exn)
| NoFuel.
Arguments Ret {A} a.
Arguments Raise {A} e.
Arguments NoFuel {A}.

#[global] Instance comp_ret : MRet comp := @Ret.
#[global] Instance comp_bind : MBind comp := λ A B f m,
  match m with Ret a => f a | Raise e => Raise e | NoFuel => NoFuel end.

Definition lift {A} (m : res A) : comp A :=
  match m with Ok a => Ret a | Throw e => Raise e end.

Lemma comp_bind_Ret {A B} (m : comp A) (f : A → comp B) b :
  m ≫= f = Ret b ↔ ∃ a, m = Ret a ∧ f a = Ret b.
Proof. destruct m; cbn; naive_solver. Qed.

(** [converges f a]: every large enough fuel gives [a]. *)
Definition converges {A} (f : nat → comp A) (a : A) : Prop :=
  ∃ N : nat, ∀ n : nat, (N ≤ n)%nat → f n = Ret a.

Lemma converges_const {A} (a : A) : converges (λ _, Ret a) a.
Proof. by exists 0%nat. Qed.

Lemma converges_bind {A B} (f : nat → comp A) (g : nat → A → comp B) a b :
  converges f a → converges (λ n, g n a) b → converges (λ n, x ← f n; g n x) b.
Proof.
  intros [N Hf] [M Hg]. exists (N + M)%nat. intros n Hn.
  rewrite Hf by lia. cbn. apply Hg. lia.
Qed.

Lemma converges_inj {A} (f : nat → comp A) a b : converges f a → converges f b → a = b.
Proof.
  intros [N Ha] [M Hb]. specialize (Ha (N + M)%nat). specialize (Hb (N + M)%nat).
  rewrite Ha in Hb by lia. specialize (Hb ltac:(lia)). congruence.
Qed.

(** ** Multisets of results

    Two runs agree when both succeed with permuted lists or both throw. *)

Definition res_perm {A} (x y : res (list A)) : Prop :=
  match x, y with
  | Ok l, Ok l' => l ≡ₚ l'
  | Throw _, Throw _ => True
  | _, _ => False
  end.
Infix "≈ₚ" := res_perm (at level 70) : runos_scope.

#[global] Instance res_perm_equiv {A} : Equivalence (@res_perm A).
Proof.
  split.
  - intros [l|]; cbn; done.
  - intros [l|] [l'|]; cbn; try done.
  - intros [l|] [l'|] [l''|]; cbn; try done. intros H1 H2. by rewrite H1.
Qed.

(** Running both and joining the results. *)
Definition res_app {A} (x y : res (list A)) : res (list A) :=
  a ← x; b ← y; Ok (a ++ b).

#[global] Instance res_app_proper {A} :
  Proper (res_perm ==> res_perm ==> res_perm) (@res_app A).
Proof.
  intros [a|] [a'|] Ha [b|] [b'|] Hb; cbn in *; try done. by rewrite Ha, Hb.
Qed.

Lemma res_app_comm {A} (x y : res (list A)) : res_app x y ≈ₚ res_app y x.
Proof. destruct x, y; cbn; try done. apply Permutation_app_comm. Qed.

Lemma res_app_assoc {A} (x y z : res (list A)) :
  res_app x (res_app y z) ≈ₚ res_app (res_app x y) z.
Proof. destruct x, y, z; cbn; try done. by rewrite app_assoc. Qed.

Lemma res_app_nil_r {A} (x : res (list A)) : res_app x (Ok []) ≈ₚ x.
Proof. destruct x; cbn; [by rewrite app_nil_r | done]. Qed.

Lemma res_app_nil_l {A} (x : res (list A)) : res_app (Ok []) x = x.
Proof. by destruct x. Qed.

Lemma res_app_interchange {A} (a b c d : res (list A)) :
  res_app (res_app a b) (res_app c d) ≈ₚ res_app (res_app a c) (res_app b d).
Proof.
  destruct a, b, c, d; cbn; try done.
  rewrite <- !(assoc_L (++)). f_equiv. rewrite !(assoc_L (++)). f_equiv.
  apply Permutation_app_comm.
Qed.

Fixpoint concat_res {A} (l : list (res (list A))) : res (list A) :=
  match l with
  | [] => Ok []
  | x :: l => res_app x (concat_res l)
  end.

Lemma concat_res_app {A} (l1 l2 : list (res (list A))) :
  concat_res (l1 ++ l2) = res_app (concat_res l1) (concat_res l2).
Proof.
  induction l1 as [|[a|] l1 IH]; cbn.
  - by destruct (concat_res l2).
  - rewrite IH. destruct (concat_res l1); [cbn | done].
    destruct (concat_res l2); [cbn | done]. by rewrite app_assoc.
  - done.
Qed.

#[global] Instance concat_res_proper {A} :
  Proper (Permutation ==> res_perm) (@concat_res A).
Proof.
  intros l1 l2 Hp. induction Hp as [| x l1 l2 _ IH | x y l | l1 l2 l3 _ IH1 _ IH2]; cbn.
  - done.
  - by rewrite IH.
  - destruct x, y, (concat_res l); cbn; try done.
    rewrite !(assoc_L (++)). f_equiv. apply Permutation_app_comm.
  - by etrans.
Qed.

Lemma concat_res_map_perm {A B} (f g : A → res (list B)) (l : list A) :
  (∀ a, a ∈ l → f a ≈ₚ g a) → concat_res (map f l) ≈ₚ concat_res (map g l).
Proof.
  induction l as [|a l IH]; cbn; [done |]. intros H.
  rewrite (H a) by by left. rewrite IH; [done |]. intros b Hb. apply H. by right.
Qed.

(** Running [f] on every result of [x]. *)
Definition res_each {A B} (x : res (list A)) (f : A → res (list B)) : res (list B) :=
  l ← x; concat_res (map f l).

Lemma res_each_perm {A B} (x y : res (list A)) (f g : A → res (list B)) :
  x ≈ₚ y → (∀ a, f a ≈ₚ g a) → res_each x f ≈ₚ res_each y g.
Proof.
  destruct x as [l|], y as [l'|]; cbn; try done. intros Hp Hfg.
  rewrite (concat_res_map_perm f g) by auto. by rewrite Hp.
Qed.

#[global] Instance res_each_proper {A B} :
  Proper (res_perm ==> pointwise_relation A res_perm ==> res_perm) (@res_each A B).
Proof. intros x y Hxy f g Hfg. by apply res_each_perm. Qed.

Lemma res_each_app {A B} (x y : res (list A)) (f : A → res (list B)) :
  res_each (res_app x y) f ≈ₚ res_app (res_each x f) (res_each y f).
Proof.
  destruct x as [l|], y as [l'|]; cbn; try done.
  - by rewrite map_app, concat_res_app.
  - destruct (concat_res (map f l)); cbn; done.
Qed.

Lemma res_each_assoc {A B C} (x : res (list A)) (f : A → res (list B)) (g : B → res (list C)) :
  res_each (res_each x f) g ≈ₚ res_each x (λ a, res_each (f a) g).
Proof.
  destruct x as [l|]; cbn; [| done].
  change (res_each (concat_res (map f l)) g ≈ₚ concat_res (map (λ a, res_each (f a) g) l)).
  induction l as [|a l IH]; cbn [map concat_res]; [done |].
  by rewrite res_each_app, IH.
Qed.

Lemma res_each_ret {A B} (a : A) (f : A → res (list B)) : res_each (Ok [a]) f ≈ₚ f a.
Proof. cbn. apply res_app_nil_r. Qed.

Lemma res_each_app_fun {A B} (x : res (list A)) (f g : A → res (list B)) :
  res_each x (λ a, res_app (f a) (g a)) ≈ₚ res_app (res_each x f) (res_each x g).
Proof.
  destruct x as [l|]; [| done].
  change (concat_res (map (λ a, res_app (f a) (g a)) l)
          ≈ₚ res_app (concat_res (map f l)) (concat_res (map g l))).
  induction l as [|a l IH]; cbn [map concat_res]; [done |].
  rewrite IH. apply res_app_interchange.
Qed.
