(* ===== verification/Bits.v ===== *)
(** * Bits: the bit sequences of types/bits.hh

    [bits<N>] (a std::bitset) and [bits<>] (a boost::dynamic_bitset<uint8_t>)
    are both a width together with a number below [2 ^ width]; a static bitset
    of [N] bits is a value whose [bsize] is [N].  Conversions between the two
    go through the binary string, as in the code; serialisation to and from a
    byte buffer is big-endian. *)

From S2P Require Import Prelude.

Record bits : Type := Bits { bsize : N; bval : N }.

#[global] Instance bits_eq_dec : EqDecision bits.
Proof. solve_decision. Defined.

Definition bits_wf (b : bits) : Prop := bval b ⊑b N.ones (bsize b).

(** ** Constructors *)

(** [bits(unsigned long long)]: the value is cut to the width. *)
Definition bits_of_ull (n v : N) : bits := Bits n (N.land v (N.ones n)).

(** [bits<>(num_bits)]: all zero. *)
Definition bits_zero (n : N) : bits := Bits n 0.

(** [bits<>(num_bits, val)]. *)
Definition bits_of_ulong (n v : N) : bits := Bits n (N.land v (N.ones n)).

(** ** Binary strings, most significant bit first *)

Fixpoint string_of_val (n : nat) (v : N) : list bool :=
  match n with
  | O => []
  | S n => N.testbit v (N.of_nat n) :: string_of_val n v
  end.

Definition to_string (b : bits) : list bool :=
  string_of_val (N.to_nat (bsize b)) (bval b).

Definition val_of_string (s : list bool) : N :=
  fold_left (λ acc (c : bool), N.lor (N.shiftl acc 1) (if c then 1 else 0))%N s 0%N.

Definition of_string (s : list bool) : bits :=
  Bits (N.of_nat (length s)) (val_of_string s).

(** [bits<N>::operator bits<>()]. *)
Definition to_dynamic (b : bits) : bits := of_string (to_string b).

(** [bits<>::operator bits<N>()]: std::bad_cast unless the sizes agree. *)
Definition to_static (n : N) (b : bits) : res bits :=
  if (bsize b =? n)%N then Ok (of_string (to_string b)) else Throw BadCast.

(** ** Queries and bit operations *)

Definition all (b : bits) : bool := (bval b =? N.ones (bsize b))%N.
Definition none (b : bits) : bool := (bval b =? 0)%N.
Definition test_bit (b : bits) (i : N) : bool := N.testbit (bval b) i.
Definition set_all (b : bits) : bits := Bits (bsize b) (N.ones (bsize b)).
Definition flip (b : bits) : bits :=
  Bits (bsize b) (N.ldiff (N.ones (bsize b)) (bval b)).
Definition band (a b : bits) : bits := Bits (bsize a) (N.land (bval a) (bval b)).
Definition bor (a b : bits) : bits := Bits (bsize a) (N.lor (bval a) (bval b)).
Definition bxor (a b : bits) : bits := Bits (bsize a) (N.lxor (bval a) (bval b)).
Definition bshl (a : bits) (k : N) : bits :=
  Bits (bsize a) (N.land (N.shiftl (bval a) k) (N.ones (bsize a))).
Definition bshr (a : bits) (k : N) : bits :=
  Bits (bsize a) (N.shiftr (bval a) k).

(** [==] of two bitsets of the same kind; for dynamic ones sizes count. *)
Definition bits_eqb (a b : bits) : bool :=
  ((bsize a =? bsize b) && (bval a =? bval b))%N.

(** [operator<] on dynamic bitsets of one size: lexicographic from the top,
    that is, the numeric order. *)
Definition bits_ltb (a b : bits) : bool := (bval a <? bval b)%N.

(** Mixed operators: the dynamic operand is first converted, and may throw. *)
Definition eq_mixed (lhs rhs : bits) : res bool :=
  if (bsize lhs =? bsize rhs)%N
  then bits_eqb lhs <$> to_static (bsize lhs) rhs
  else Ok false.
Definition ne_mixed (lhs rhs : bits) : res bool :=
  if (bsize lhs =? bsize rhs)%N
  then (λ r, negb (bits_eqb lhs r)) <$> to_static (bsize lhs) rhs
  else Ok true.
Definition and_mixed (lhs rhs : bits) : res bits :=
  band lhs <$> to_static (bsize lhs) rhs.
Definition or_mixed (lhs rhs : bits) : res bits :=
  bor lhs <$> to_static (bsize lhs) rhs.
Definition xor_mixed (lhs rhs : bits) : res bits :=
  bxor lhs <$> to_static (bsize lhs) rhs.

(** ** Conversions to machine integers *)

(** [to_ulong]/[to_ullong] (64 bits here): overflow_error above. *)
Definition to_ullong (b : bits) : res N :=
  if (bval b <? 2 ^ 64)%N then Ok (bval b) else Throw OverflowError.

Definition wrap (w n : N) : N := N.land n (N.ones w).

(** [bit_cast<bits<w>>(uintw_t)] and back. *)
Definition bits_of_uint (w n : N) : bits := bits_of_ull w n.
Definition uint_of_bits (w : N) (b : bits) : res N := wrap w <$> to_ullong b.
(** [bit_cast<uint64_t>(bits<>)]: through [bits<64>]. *)
Definition u64_of_dynamic (b : bits) : res N := to_static 64 b ≫= to_ullong.

(** ** Big-endian serialisation *)

Definition num_blocks (n : N) : N := (n / 8 + (if n mod 8 =? 0 then 0 else 1))%N.

(** A memory: a byte at every address. *)
Abbreviation memory := (Z → N).

(** The addresses the constructor's reverse iterators dereference, in order:
    from the last byte of the field down, stopping at [buffer - 1] included. *)
Definition read_range (n : N) (p : Z) : list Z :=
  (λ k, p + Z.of_N (num_blocks n) - 1 - Z.of_nat k)%Z <$>
    seq 0 (S (N.to_nat (num_blocks n))).

(** The value of blocks given from the least significant one. *)
Fixpoint blocks_val (l : list N) : N :=
  match l with
  | [] => 0
  | b :: l => N.lor b (N.shiftl (blocks_val l) 8)
  end.

(** [bits<>(num_bits, buffer)]: read the blocks, then [resize(num_bits)]. *)
Definition from_buffer (n : N) (mem : memory) (p : Z) : bits :=
  Bits n (N.land (blocks_val (mem <$> read_range n p)) (N.ones n)).

Fixpoint to_blocks (k : nat) (v : N) : list N :=
  match k with
  | O => []
  | S k => N.land v 255 :: to_blocks k (N.shiftr v 8)
  end.

(** [to_buffer]: the bytes it stores, in address order. *)
Definition to_buffer (b : bits) : list N :=
  rev (to_blocks (N.to_nat (num_blocks (bsize b))) (bval b)).

(** Storing a list of bytes at an address. *)
Definition mem_write (mem : memory) (p : Z) (l : list N) : memory := λ a,
  if ((p <=? a) && (a <? p + Z.of_nat (length l)))%Z
  then nth (Z.to_nat (a - p)) l 0%N else mem a.

(** ** Lemmas *)

Lemma wrap_lt w n : (wrap w n < 2 ^ w)%N.
Proof. unfold wrap. apply sub_ones_lt. apply land_sub_r. Qed.

Lemma wrap_id w n : (n < 2 ^ w)%N → wrap w n = n.
Proof. intros ?. by apply sub_ones_lt. Qed.

Lemma wrap_mod w n : wrap w n = (n mod 2 ^ w)%N.
Proof. apply N.land_ones. Qed.

Lemma bits_of_ull_lt n v : (v < 2 ^ n)%N → bits_of_ull n v = Bits n v.
Proof. intros H. unfold bits_of_ull. by rewrite (proj2 (sub_ones_lt _ _) H). Qed.

Lemma bits_of_ull_wf b : bits_wf b → bits_of_ull (bsize b) (bval b) = b.
Proof. destruct b. intros H. apply bits_of_ull_lt. by apply sub_ones_lt. Qed.

(** Dividing by a byte, and the step of the address parsers' loop. *)
Lemma div256 n : ∃ q r,
  n = (q * 256 + r)%N ∧ (r < 256)%N ∧ (n / 256 = q)%N ∧ (n mod 256 = r)%N.
Proof.
  exists (n / 256)%N, (n mod 256)%N. repeat split.
  - rewrite N.mul_comm. by apply N.div_mod.
  - by apply N.mod_lt.
Qed.

Lemma octet_step r o :
  (r < 1099511627776)%N → (o < 256)%N →
  N.lor (wrap 64 (N.shiftl r 8)) (wrap 8 o) = (r * 256 + o)%N.
Proof.
  intros Hr Ho. rewrite (wrap_id 8) by done. rewrite wrap_id.
  - change 256%N with (2 ^ 8)%N. by apply lor_shiftl_add.
  - rewrite N.shiftl_mul_pow2. change (2 ^ 64)%N with 18446744073709551616%N.
    change (2 ^ 8)%N with 256%N. lia.
Qed.

Lemma length_string_of_val n v : length (string_of_val n v) = n.
Proof. induction n as [|n IH]; cbn; [done | by rewrite IH]. Qed.

Lemma fold_string_of_val n v acc :
  fold_left (λ acc (c : bool), N.lor (N.shiftl acc 1) (if c then 1 else 0))%N
    (string_of_val n v) acc
  = N.lor (N.shiftl acc (N.of_nat n)) (N.land v (N.ones (N.of_nat n))).
Proof.
  revert acc. induction n as [|n IH]; intros acc.
  { cbn -[N.of_nat N.shiftl]. rewrite N.shiftl_0_r.
    rewrite N.land_0_r, N.lor_0_r. done. }
  cbn [string_of_val fold_left]. rewrite IH. apply N.bits_inj. intros i.
  rewrite !N.lor_spec, !N.land_spec, !ones_spec_iff, Nat2N.inj_succ.
  destruct (N.ltb_spec i (N.of_nat n)) as [Hi | Hi].
  { rewrite !N.shiftl_spec_low by lia.
    rewrite (proj2 (N.ltb_lt i (N.succ (N.of_nat n)))) by lia. done. }
  rewrite !N.shiftl_spec_high' by lia. rewrite N.lor_spec, andb_false_r, orb_false_r.
  destruct (decide (i = N.of_nat n)) as [-> | Hne].
  - rewrite N.sub_diag, (proj2 (N.ltb_lt _ _)) by lia.
    rewrite !N.shiftl_spec_low by lia.
    destruct (N.testbit v (N.of_nat n)); done.
  - rewrite (proj2 (N.ltb_ge i (N.succ (N.of_nat n)))) by lia.
    rewrite andb_false_r, orb_false_r.
    rewrite !(N.shiftl_spec_high' acc) by lia.
    replace (i - N.succ (N.of_nat n))%N with (i - N.of_nat n - 1)%N by lia.
    destruct (N.testbit v (N.of_nat n)).
    + replace (N.testbit 1 (i - N.of_nat n)) with false;
        [by rewrite orb_false_r |].
      symmetry. apply (N.bits_above_log2 1). cbn. lia.
    + by rewrite N.bits_0, orb_false_r.
Qed.

Lemma of_to_string b : bits_wf b → of_string (to_string b) = b.
Proof.
  destruct b as [n v]. unfold of_string, to_string, val_of_string, bits_wf. cbn.
  intros Hwf. rewrite length_string_of_val, fold_string_of_val, N2Nat.id.
  rewrite N.shiftl_0_l, N.lor_0_l. unfold bits_sub in Hwf. by rewrite Hwf.
Qed.

Lemma to_static_ok n b : bits_wf b → bsize b = n → to_static n b = Ok b.
Proof.
  intros Hwf <-. unfold to_static. rewrite N.eqb_refl. by rewrite of_to_string.
Qed.

Lemma bits_eqb_eq a b : bits_eqb a b = true ↔ a = b.
Proof.
  destruct a, b. unfold bits_eqb. cbn.
  rewrite andb_true_iff, !N.eqb_eq. naive_solver.
Qed.

Lemma length_to_blocks k v : length (to_blocks k v) = k.
Proof. revert v. induction k; intros; cbn; auto. Qed.

Lemma blocks_val_app l1 l2 :
  Forall (λ x, x ⊑b 255)%N l1 →
  blocks_val (l1 ++ l2) =
    N.lor (blocks_val l1) (N.shiftl (blocks_val l2) (8 * N.of_nat (length l1))).
Proof.
  induction 1 as [|x l1 Hx Hl IH]; cbn -[N.mul N.shiftl].
  { by rewrite N.mul_0_r, N.shiftl_0_r. }
  rewrite IH, N.shiftl_lor, N.shiftl_shiftl, N.lor_assoc.
  do 2 f_equal. lia.
Qed.

Lemma blocks_val_to_blocks k v :
  blocks_val (to_blocks k v) = N.land v (N.ones (8 * N.of_nat k)).
Proof.
  revert v. induction k as [|k IH]; intros v.
  { cbn. by rewrite N.land_0_r. }
  cbn [to_blocks blocks_val]. rewrite IH. apply N.bits_inj. intros i.
  rewrite N.lor_spec, !N.land_spec. change 255%N with (N.ones 8).
  rewrite !ones_spec_iff.
  destruct (N.ltb_spec i 8) as [Hi | Hi].
  - rewrite N.shiftl_spec_low by lia.
    rewrite (proj2 (N.ltb_lt i _)) by lia. by rewrite orb_false_r, andb_true_r.
  - rewrite N.shiftl_spec_high' by lia. rewrite N.land_spec, ones_spec_iff.
    rewrite N.shiftr_spec', andb_false_r, orb_false_l.
    replace (i - 8 + 8)%N with i by lia. f_equal.
    destruct (N.ltb_spec (i - 8) (8 * N.of_nat k)), (N.ltb_spec i (8 * N.of_nat (S k)));
      try done; lia.
Qed.

Lemma blocks_val_sub l :
  Forall (λ x, x ⊑b 255)%N l → blocks_val l ⊑b N.ones (8 * N.of_nat (length l)).
Proof.
  induction 1 as [|x l Hx Hl IH]; [done |]. apply bits_sub_spec. intros i.
  cbn [blocks_val length]. rewrite N.lor_spec, orb_true_iff, ones_spec_iff.
  rewrite bits_sub_spec in Hx. rewrite bits_sub_spec in IH. intros [H | H].
  - specialize (Hx _ H). change 255%N with (N.ones 8) in Hx.
    rewrite ones_spec_iff in Hx. apply N.ltb_lt in Hx. apply N.ltb_lt. lia.
  - destruct (N.ltb_spec i 8).
    + by rewrite N.shiftl_spec_low in H by lia.
    + rewrite N.shiftl_spec_high' in H by lia. specialize (IH _ H).
      rewrite ones_spec_iff in IH. apply N.ltb_lt in IH. apply N.ltb_lt. lia.
Qed.

Lemma num_blocks_enough n : (n <= 8 * num_blocks n)%N.
Proof.
  unfold num_blocks. pose proof (N.div_mod n 8 ltac:(lia)).
  pose proof (N.mod_lt n 8 ltac:(lia)).
  destruct (N.eqb_spec (n mod 8) 0); lia.
Qed.

Lemma num_blocks_exact n : (n mod 8 = 0)%N → (8 * num_blocks n = n)%N.
Proof.
  intros E. unfold num_blocks. pose proof (N.div_mod n 8 ltac:(lia)).
  rewrite E. cbn -[N.mul N.div]. lia.
Qed.

Lemma length_to_buffer b : length (to_buffer b) = N.to_nat (num_blocks (bsize b)).
Proof. unfold to_buffer. by rewrite length_rev, length_to_blocks. Qed.

(** The bytes of the field itself, as the iterators visit them. *)
Lemma read_range_split n p :
  read_range n p =
    ((λ k, p + Z.of_N (num_blocks n) - 1 - Z.of_nat k)%Z <$>
       seq 0 (N.to_nat (num_blocks n))) ++ [(p - 1)%Z].
Proof.
  unfold read_range. rewrite seq_S, fmap_app. cbn. do 2 f_equal. lia.
Qed.

Lemma mem_write_range mem p l :
  (λ k, mem_write mem p l (p + Z.of_nat (length l) - 1 - Z.of_nat k)%Z) <$>
    seq 0 (length l) = rev l.
Proof.
  apply list_eq_same_length with (n := length l);
    [by rewrite length_rev | by rewrite length_fmap, length_seq |].
  intros i x y Hi Hx Hy. rewrite list_lookup_fmap, lookup_seq_lt in Hx by done.
  cbn in Hx. injection Hx as <-. rewrite rev_alt in Hy. change (rev_append l []) with (reverse l) in Hy.
  rewrite reverse_lookup in Hy by done. unfold mem_write.
  rewrite (proj2 (Z.leb_le _ _)) by lia.
  rewrite (proj2 (Z.ltb_lt _ _)) by lia. cbn [andb].
  apply nth_lookup_Some with (d := 0%N) in Hy. rewrite <- Hy. f_equal. lia.
Qed.

Lemma from_buffer_body n mem p :
  (∀ a, mem a ⊑b 255%N) →
  from_buffer n mem p =
    Bits n (N.land (blocks_val
      ((λ k, mem (p + Z.of_N (num_blocks n) - 1 - Z.of_nat k)%Z) <$>
         seq 0 (N.to_nat (num_blocks n)))) (N.ones n)).
Proof.
  intros Hbyte. unfold from_buffer. f_equal. rewrite read_range_split, fmap_app.
  rewrite <- list_fmap_compose. rewrite blocks_val_app;
    [| apply Forall_fmap, Forall_elem; intros; apply Hbyte].
  rewrite length_fmap, length_seq, N2Nat.id. cbn -[N.mul num_blocks N.shiftl].
  rewrite N.lor_0_r. apply N.bits_inj. intros i.
  rewrite !N.land_spec, N.lor_spec, ones_spec_iff. pose proof (num_blocks_enough n).
  destruct (N.ltb_spec i n); [| by rewrite !andb_false_r].
  rewrite N.shiftl_spec_low by lia. by rewrite orb_false_r.
Qed.

Lemma mem_write_bytes mem p l a :
  (∀ a, mem a ⊑b 255%N) → Forall (λ x, x ⊑b 255%N) l →
  mem_write mem p l a ⊑b 255%N.
Proof.
  intros Hm Hl. unfold mem_write. destruct (_ && _); [| done].
  destruct (nth_in_or_default (Z.to_nat (a - p)) l 0%N) as [Hin | ->];
    [| apply bits_sub_0].
  eapply Forall_elem in Hl; [exact Hl |]. by apply list_elem_of_In.
Qed.

Lemma to_buffer_bytes b : Forall (λ x, x ⊑b 255%N) (to_buffer b).
Proof.
  unfold to_buffer. apply Forall_rev.
  generalize (N.to_nat (num_blocks (bsize b))), (bval b).
  intros k. induction k; intros v; cbn; constructor; auto using land_sub_r.
Qed.

Lemma to_blocks_blocks_val l :
  Forall (λ x, x ⊑b 255)%N l → to_blocks (length l) (blocks_val l) = l.
Proof.
  induction 1 as [|x l Hx Hl IH]; [done |]. cbn [length to_blocks blocks_val]. f_equal.
  - transitivity (N.land x 255); [| exact Hx]. apply N.bits_inj. intros i. change 255%N with (N.ones 8).
    rewrite !N.land_spec, N.lor_spec, ones_spec_iff.
    destruct (N.ltb_spec i 8); [| by rewrite !andb_false_r].
    rewrite N.shiftl_spec_low by lia. by rewrite orb_false_r.
  - transitivity (to_blocks (length l) (blocks_val l)); [| exact IH]. f_equal.
    apply N.bits_inj. intros i. rewrite N.shiftr_spec', N.lor_spec, N.shiftl_spec_high' by lia.
    replace (i + 8 - 8)%N with i by lia.
    replace (N.testbit x (i + 8)) with false; [done |]. symmetry.
    destruct (N.testbit x (i + 8)) eqn:E; [| done].
    rewrite bits_sub_spec in Hx. apply Hx in E. change 255%N with (N.ones 8) in E.
    rewrite ones_spec_iff in E. apply N.ltb_lt in E. lia.
Qed.

(** A memory of bytes with [l] stored at [p]: reading back. *)
Lemma from_buffer_write n mem p l :
  (∀ a, mem a ⊑b 255%N) → Forall (λ x, x ⊑b 255%N) l →
  length l = N.to_nat (num_blocks n) →
  from_buffer n (mem_write mem p l) p =
    Bits n (N.land (blocks_val (rev l)) (N.ones n)).
Proof.
  intros Hm Hl Hlen. rewrite from_buffer_body by auto using mem_write_bytes.
  do 3 f_equal. rewrite <- (mem_write_range mem p l), Hlen.
  apply list_fmap_ext. intros i x Hx. do 2 f_equal. lia.
Qed.

(** Reading back what was stored. *)
Lemma from_to_buffer b mem p :
  bits_wf b → (∀ a, mem a ⊑b 255%N) →
  from_buffer (bsize b) (mem_write mem p (to_buffer b)) p = b.
Proof.
  intros Hwf Hm.
  rewrite from_buffer_write by auto using to_buffer_bytes, length_to_buffer.
  unfold to_buffer. rewrite rev_involutive, blocks_val_to_blocks.
  destruct b as [n v]. unfold bits_wf in Hwf. cbn in *. f_equal.
  rewrite N2Nat.id. pose proof (num_blocks_enough n).
  rewrite <- N.land_assoc. replace (N.land (N.ones _) (N.ones n)) with (N.ones n).
  { apply Hwf. }
  apply N.bits_inj. intros i. rewrite N.land_spec, !ones_spec_iff.
  destruct (N.ltb_spec i n), (N.ltb_spec i (8 * num_blocks n)); done || lia.
Qed.

(** ** Properties *)

(** serialising a bit sequence to a buffer and reading it back at the same
    address gives the same bit sequence, for every width (also widths that
    are not a multiple of 8, such as the 12-bit VLAN id). *)
Theorem buffer_roundtrip b mem p :
  bits_wf b → (∀ a, mem a ⊑b 255%N) →
  from_buffer (bsize b) (mem_write mem p (to_buffer b)) p = b.
Proof. apply from_to_buffer. Qed.

Lemma buffer_roundtrip_witness :
  from_buffer 12 (mem_write (λ _, 255%N) 100 (to_buffer (Bits 12 0xabc))) 100
  = Bits 12 0xabc.
Proof.
  apply (buffer_roundtrip (Bits 12 0xabc) (λ _, 255%N) 100);
    [vm_compute; reflexivity | intros a; vm_compute; reflexivity].
Defined.

(** the other direction on whole-byte widths: the bytes of the buffer are
    what the value read from it serialises to. *)
Theorem buffer_roundtrip_bytes n mem p l :
  (n mod 8 = 0)%N → (∀ a, mem a ⊑b 255%N) → Forall (λ x, x ⊑b 255%N) l →
  length l = N.to_nat (num_blocks n) →
  to_buffer (from_buffer n (mem_write mem p l) p) = l.
Proof.
  intros Hn Hm Hl Hlen. rewrite from_buffer_write by done.
  unfold to_buffer. cbn [bsize bval].
  assert (Hrl : Forall (λ x, x ⊑b 255%N) (rev l)) by by apply Forall_rev.
  pose proof (blocks_val_sub _ Hrl) as Hsub. rewrite length_rev, Hlen, N2Nat.id in Hsub.
  rewrite num_blocks_exact in Hsub by done. rewrite Hsub.
  rewrite <- Hlen, <- (length_rev l), to_blocks_blocks_val by done.
  apply rev_involutive.
Qed.

Lemma buffer_roundtrip_bytes_witness :
  to_buffer (from_buffer 16 (mem_write (λ _, 0%N) 7 [8; 6]%N) 7) = [8; 6]%N.
Proof.
  apply buffer_roundtrip_bytes;
    [vm_compute; reflexivity | intros a; vm_compute; reflexivity
    | repeat constructor | reflexivity].
Defined.

(** the buffer constructor dereferences the byte before the buffer
    (its end iterator is one too far), and the value it builds does not
    depend on that byte. *)
Theorem from_buffer_reads_one_before n mem p x :
  (∀ a, mem a ⊑b 255%N) → x ⊑b 255%N →
  (p - 1)%Z ∈ read_range n p ∧
  from_buffer n (λ a, if (a =? p - 1)%Z then x else mem a) p = from_buffer n mem p.
Proof.
  intros Hm Hx. split.
  { rewrite read_range_split. set_solver. }
  rewrite !from_buffer_body; [| done | intros a; by destruct (_ =? _)%Z].
  do 3 f_equal. apply list_fmap_ext. intros i k Hk.
  apply list_elem_of_lookup_2, elem_of_seq in Hk. cbn in Hk.
  destruct (Z.eqb_spec (p + Z.of_N (num_blocks n) - 1 - Z.of_nat k) (p - 1)); [lia | done].
Qed.

Lemma from_buffer_reads_one_before_witness :
  (-1)%Z ∈ read_range 16 0 ∧
  from_buffer 16 (λ a, if (a =? 0 - 1)%Z then 77%N else 1%N) 0 =
  from_buffer 16 (λ _, 1%N) 0.
Proof.
  apply (from_buffer_reads_one_before 16 (λ _, 1%N) 0 77);
    [intros a; vm_compute; reflexivity | vm_compute; reflexivity].
Defined.
