(* ===== verification/Regex.v ===== *)
(** * Regex: the fragment of ECMAScript regular expressions the address
    parsers use, with std::regex_match's backtracking semantics

    A pattern is matched by continuation passing: alternatives are tried left
    to right, a bounded repetition is greedy, and the last iteration of a
    group leaves its substring in the captures ([std::smatch]). *)

From S2P Require Import Prelude.
From Stdlib Require Export Ascii.
From Stdlib Require String.
Export String.StringSyntax.

Abbreviation str := (list ascii).

Definition lit (s : String.string) : str := String.list_ascii_of_string s.
Arguments lit s%_string_scope.

Definition code (c : ascii) : N := N_of_ascii c.

Definition in_range (lo hi : N) (c : ascii) : bool := ((lo <=? code c) && (code c <=? hi))%N.

(** POSIX classes [[:digit:]] and [[:xdigit:]]. *)
Definition is_digit (c : ascii) : bool := in_range 48 57 c.
Definition is_xdigit (c : ascii) : bool :=
  is_digit c || in_range 65 70 c || in_range 97 102 c.

Inductive regex : Type :=
| RClass (p : ascii → bool)            (** one character of a class *)
| RDot                                 (** [.]: anything but a line terminator *)
| RSeq (r1 r2 : regex)
| RAlt (r1 r2 : regex)
| RRep (lo hi : nat) (r : regex)       (** [r{lo,hi}], greedy *)
| RGroup (n : nat) (r : regex).        (** capture group number [n] *)

Definition RChar (c : ascii) : regex := RClass (λ d, if ascii_dec c d then true else false).

Abbreviation captures := (gmap nat str).

(** What was consumed between two suffixes of the input. *)
Definition consumed (s s' : str) : str := take (length s - length s') s.

Fixpoint run {A} (r : regex) (s : str) (c : captures)
    (k : str → captures → option A) : option A :=
  match r with
  | RClass p => match s with x :: s' => if p x then k s' c else None | [] => None end
  | RDot =>
      match s with
      | x :: s' => if (code x =? 10)%N || (code x =? 13)%N then None else k s' c
      | [] => None
      end
  | RSeq r1 r2 => run r1 s c (λ s' c', run r2 s' c' k)
  | RAlt r1 r2 =>
      match run r1 s c k with Some a => Some a | None => run r2 s c k end
  | RRep lo hi r =>
      let fix more (n : nat) (s : str) (c : captures) : option A :=
        match n with
        | O => k s c
        | S n =>
            match run r s c (more n) with Some a => Some a | None => k s c end
        end in
      let fix least (n : nat) (s : str) (c : captures) : option A :=
        match n with
        | O => more (hi - lo)%nat s c
        | S n => run r s c (least n)
        end in
      least lo s c
  | RGroup n r => run r s c (λ s' c', k s' (<[n := consumed s s']> c'))
  end.

(** [std::regex_match]: the whole string must match. *)
Definition regex_match (r : regex) (s : str) : option captures :=
  run r s ∅ (λ s' c, match s' with [] => Some c | _ => None end).

(** A [sub_match] of a group that did not take part has length 0. *)
Definition sub_match (c : captures) (n : nat) : str := default [] (c !! n).

(** A list of patterns in sequence. *)
Fixpoint rseq (r : regex) (l : list regex) : regex :=
  match l with [] => r | r' :: l => RSeq r (rseq r' l) end.

(** ** [std::stoi] on a string of digits *)

Definition digit_val (c : ascii) : N :=
  let n := code c in
  (if n <=? 57 then n - 48 else if n <=? 70 then n - 55 else n - 87)%N.

Definition stoi (base : N) (s : str) : N :=
  fold_left (λ acc c, acc * base + digit_val c)%N s 0%N.

(** ** Printing digits *)

(** The character of a hexadecimal digit, lower case. *)
Definition hexc (n : N) : ascii :=
  ascii_of_N (if n <? 10 then 48 + n else 87 + n)%N.

(** ["%02x"] of a byte. *)
Definition hex2 (n : N) : str := [hexc (n / 16); hexc (n mod 16)]%N.

(** ["%u"] of a number below 1000. *)
Definition dec3 (n : N) : str :=
  (if n <? 10 then [hexc n]
   else if n <? 100 then [hexc (n / 10); hexc (n mod 10)]
   else [hexc (n / 100); hexc (n / 10 mod 10); hexc (n mod 10)])%N.

(** ** Lemmas *)

(** Facts about the digits below 16, checked on all of them. *)
Definition below (k : N) : list N := N.of_nat <$> seq 0 (N.to_nat k).

Lemma below_spec k n : (n < k)%N → n ∈ below k.
Proof.
  intros H. apply list_elem_of_fmap. exists (N.to_nat n). split; [lia |].
  apply elem_of_seq. lia.
Qed.

Lemma forall_below (P : N → bool) k :
  forallb P (below k) = true → ∀ n, (n < k)%N → P n = true.
Proof.
  intros H n Hn. rewrite forallb_forall in H. apply H.
  by apply list_elem_of_In, below_spec.
Qed.

Lemma hexc_xdigit n : (n < 16)%N → is_xdigit (hexc n) = true.
Proof. by apply (forall_below (λ n, is_xdigit (hexc n))). Qed.

Lemma hexc_digit n : (n < 10)%N → is_digit (hexc n) = true.
Proof. by apply (forall_below (λ n, is_digit (hexc n))). Qed.

Lemma hexc_val n : (n < 16)%N → digit_val (hexc n) = n.
Proof.
  intros H. apply N.eqb_eq.
  by apply (forall_below (λ n, (digit_val (hexc n) =? n)%N) 16).
Qed.

Lemma stoi_hex2 n : (n < 256)%N → stoi 16 (hex2 n) = n.
Proof.
  intros H. apply N.eqb_eq.
  apply (forall_below (λ n, (stoi 16 (hex2 n) =? n)%N) 256); [vm_compute; reflexivity | done].
Qed.

Lemma stoi_dec3 n : (n < 256)%N → stoi 10 (dec3 n) = n.
Proof.
  intros H. apply N.eqb_eq.
  apply (forall_below (λ n, (stoi 10 (dec3 n) =? n)%N) 256); [vm_compute; reflexivity | done].
Qed.

Lemma dec3_digits n : (n < 256)%N →
  (length (dec3 n) = 1 ∨ length (dec3 n) = 2 ∨ length (dec3 n) = 3) ∧
  forallb is_digit (dec3 n) = true.
Proof.
  intros H.
  assert (E : (forallb is_digit (dec3 n) && existsb (Nat.eqb (length (dec3 n))) [1;2;3]) = true).
  { apply (forall_below (λ n, forallb is_digit (dec3 n) && existsb (Nat.eqb (length (dec3 n))) [1;2;3]) 256);
      [vm_compute; reflexivity | done]. }
  apply andb_true_iff in E as [E1 E2]. split; [| done].
  cbn in E2. rewrite !orb_true_iff, !Nat.eqb_eq in E2. naive_solver.
Qed.

(** The greedy run of [{1,3}] over one to three digits and a non-digit. *)
Lemma run_digits13 {A} (ds : str) x rest c (k : str → captures → option A) a :
  (length ds = 1 ∨ length ds = 2 ∨ length ds = 3) →
  forallb is_digit ds = true → is_digit x = false →
  k (x :: rest) c = Some a →
  run (RRep 1 3 (RClass is_digit)) (ds ++ x :: rest) c k = Some a.
Proof.
  intros Hl Hd Hx Hk.
  destruct ds as [|d1 [|d2 [|d3 [|]]]]; cbn in Hl; try lia;
    cbn -[is_digit] in Hd; rewrite ?andb_true_r, ?andb_true_iff in Hd; destruct_and?;
    cbn -[is_digit]; repeat case_match; congruence.
Qed.

Lemma run_digits13_end {A} (ds : str) c (k : str → captures → option A) a :
  (length ds = 1 ∨ length ds = 2 ∨ length ds = 3) →
  forallb is_digit ds = true → k [] c = Some a →
  run (RRep 1 3 (RClass is_digit)) ds c k = Some a.
Proof.
  intros Hl Hd Hk.
  destruct ds as [|d1 [|d2 [|d3 [|]]]]; cbn in Hl; try lia;
    cbn -[is_digit] in Hd; rewrite ?andb_true_r, ?andb_true_iff in Hd; destruct_and?;
    cbn -[is_digit]; repeat case_match; congruence.
Qed.

Lemma consumed_app (a b : str) : consumed (a ++ b) b = a.
Proof.
  unfold consumed. rewrite length_app.
  replace (length a + length b - length b) with (length a) by lia.
  apply take_app_length.
Qed.
