(* ===== verification/EthAddr.v ===== *)
(** * EthAddr: MAC addresses, types/ethaddr.hh and types/ethaddr.cc

    An [ethaddr] holds [bits<48>]; its string forms are parsed by a regular
    expression with three alternatives and printed with ["%02x"] octets. *)

From S2P Require Import Prelude Bits Regex.

Definition nbits : N := 48.

(** [bits_type data_] *)
Definition ethaddr := bits.

Definition eth_wf (a : ethaddr) : Prop := bsize a = nbits ∧ bits_wf a.

(** ** Parsing *)

Definition xd2 (n : nat) : regex := RGroup n (RRep 2 2 (RClass is_xdigit)).

Definition sep6 (g : nat) (sep : regex) : regex :=
  rseq (xd2 g) [sep; xd2 (g+1); sep; xd2 (g+2); sep; xd2 (g+3); sep; xd2 (g+4); sep; xd2 (g+5)].

Definition mac_pattern_colon : regex := sep6 1 (RChar ":").
Definition mac_pattern_dash : regex := sep6 7 (RChar "-").
Definition mac_pattern_dots : regex :=
  rseq (xd2 13) [xd2 14; RDot; xd2 15; xd2 16; RDot; xd2 17; xd2 18].
Definition mac_pattern : regex :=
  RAlt (RAlt mac_pattern_colon mac_pattern_dash) mac_pattern_dots.

Definition parseMAC (s : str) : res N :=
  match regex_match mac_pattern s with
  | None => Throw BadRepresentation
  | Some m =>
      let base := if (0 <? length (sub_match m 1))%nat then 0%nat
                  else if (0 <? length (sub_match m 7))%nat then 6%nat else 12%nat in
      Ok (fold_left (λ r oct,
            N.lor (wrap 64 (N.shiftl r 8)) (wrap 8 (stoi 16 (sub_match m (base + oct)))))
          [1;2;3;4;5;6]%nat 0%N)
  end.

(** ** Constructors *)

(** [ethaddr(const std::string&)] *)
Definition ethaddr_of_string (s : str) : res ethaddr := bits_of_ull nbits <$> parseMAC s.

(** [ethaddr(uint64_t)] *)
Definition ethaddr_of_number (num : N) : res ethaddr :=
  if (N.land num 0xffff000000000000 =? 0)%N
  then Ok (bits_of_ull nbits num) else Throw BadRepresentation.

(** [ethaddr(const bytes_type&)] *)
Definition ethaddr_of_octets (o0 o1 o2 o3 o4 o5 : N) : ethaddr :=
  bits_of_ull nbits
    (N.lor (N.lor (N.lor (N.lor (N.lor (N.shiftl o0 40) (N.shiftl o1 32))
      (N.shiftl o2 24)) (N.shiftl o3 16)) (N.shiftl o4 8)) o5).

(** ** Accessors *)

Definition to_number (a : ethaddr) : res N := noexcept (to_ullong a).

Definition octets_of (num : N) : list N :=
  [ wrap 8 (N.shiftr (N.land num 0xff0000000000) 40);
    wrap 8 (N.shiftr (N.land num 0xff00000000) 32);
    wrap 8 (N.shiftr (N.land num 0xff000000) 24);
    wrap 8 (N.shiftr (N.land num 0xff0000) 16);
    wrap 8 (N.shiftr (N.land num 0xff00) 8);
    wrap 8 (N.shiftr (N.land num 0xff) 0) ].

Definition to_octets (a : ethaddr) : res (list N) := octets_of <$> to_number a.

(** [is_broadcast], [is_multicast], [is_unicast], [is_locally_administered] *)
Definition is_broadcast (a : ethaddr) : bool := all a.
Definition is_multicast (a : ethaddr) : bool := test_bit a (48 - 8).
Definition is_unicast (a : ethaddr) : bool := negb (test_bit a (48 - 8)).
Definition is_locally_administered (a : ethaddr) : bool := test_bit a (48 - 7).

(** [operator<<] *)
Definition print_mac (o0 o1 o2 o3 o4 o5 : N) : str :=
  hex2 o0 ++ lit ":" ++ hex2 o1 ++ lit ":" ++ hex2 o2 ++ lit ":" ++
  hex2 o3 ++ lit ":" ++ hex2 o4 ++ lit ":" ++ hex2 o5.

Definition print (a : ethaddr) : res str :=
  (λ o, match o with
        | [o0; o1; o2; o3; o4; o5] => print_mac o0 o1 o2 o3 o4 o5
        | _ => []
        end) <$> to_octets a.

(** ** Lemmas *)

Lemma eth_to_number a : eth_wf a → to_number a = Ok (bval a).
Proof.
  intros [Hs Hwf]. unfold to_number, to_ullong.
  apply sub_ones_lt in Hwf. rewrite Hs in Hwf.
  rewrite (proj2 (N.ltb_lt _ _)); [done |].
  eapply N.lt_trans; [exact Hwf |]. reflexivity.
Qed.

Lemma octet_wrap num k :
  wrap 8 (N.shiftr (N.land num (N.shiftl 255 k)) k) = (num / 2 ^ k mod 256)%N.
Proof.
  unfold wrap. rewrite <- N.shiftr_div_pow2. change 256%N with (2 ^ 8)%N.
  rewrite <- N.land_ones. apply N.bits_inj. intros i.
  rewrite !N.land_spec, !N.shiftr_spec', N.land_spec, ones_spec_iff.
  rewrite N.shiftl_spec_high' by lia. replace (i + k - k)%N with i by lia.
  change 255%N with (N.ones 8). rewrite ones_spec_iff.
  destruct (i <? 8)%N; by rewrite ?andb_true_r, ?andb_false_r.
Qed.

Lemma eth_octets_of_div num :
  octets_of num = [num / 2 ^ 40 mod 256; num / 2 ^ 32 mod 256; num / 2 ^ 24 mod 256;
                   num / 2 ^ 16 mod 256; num / 2 ^ 8 mod 256; num mod 256]%N.
Proof.
  unfold octets_of.
  change 0xff0000000000%N with (N.shiftl 255 40). change 0xff00000000%N with (N.shiftl 255 32).
  change 0xff000000%N with (N.shiftl 255 24). change 0xff0000%N with (N.shiftl 255 16).
  change 0xff00%N with (N.shiftl 255 8). change 0xff%N with (N.shiftl 255 0).
  rewrite !octet_wrap. by rewrite N.pow_0_r, N.div_1_r.
Qed.

Lemma eth_octets_of_bytes num : Forall (λ o, o < 256)%N (octets_of num).
Proof. repeat constructor; apply (wrap_lt 8). Qed.

(** The number six octets spell, most significant first. *)
Definition join6 (l : list N) : N := fold_left (λ r o, r * 256 + o)%N l 0%N.

Lemma join6_octets num : (num < 2 ^ 48)%N → join6 (octets_of num) = num.
Proof.
  intros Hn. rewrite eth_octets_of_div. cbn [join6 fold_left].
  change (2 ^ 40)%N with (256 * 256 * 256 * 256 * 256)%N.
  change (2 ^ 32)%N with (256 * 256 * 256 * 256)%N. change (2 ^ 24)%N with (256 * 256 * 256)%N.
  change (2 ^ 16)%N with (256 * 256)%N. change (2 ^ 8)%N with 256%N.
  change (2 ^ 48)%N with 281474976710656%N in Hn.
  rewrite <- !N.Div0.div_div.
  do 5 match goal with
  | |- context [(?n mod 256)%N] =>
      lazymatch n with
      | context [N.div] => fail
      | _ => let q := fresh "q" in let r := fresh "r" in
             destruct (div256 n) as (q & r & ? & ? & -> & ->)
      end
  end.
  rewrite N.mod_small by lia. lia.
Qed.

Lemma parse_fold o0 o1 o2 o3 o4 o5 :
  Forall (λ o, o < 256)%N [o0;o1;o2;o3;o4;o5] →
  fold_left (λ r o, N.lor (wrap 64 (N.shiftl r 8)) (wrap 8 o)) [o0;o1;o2;o3;o4;o5] 0%N
  = join6 [o0;o1;o2;o3;o4;o5].
Proof.
  intros H. inv_Forall. cbn [fold_left join6].
  repeat match goal with
  | |- context [N.lor (wrap 64 (N.shiftl ?r 8)) (wrap 8 ?o)] =>
      lazymatch r with
      | context [wrap] => fail
      | _ => rewrite (octet_step r o) by lia
      end
  end. done.
Qed.

Lemma hex2_match (g : nat) o rest c {A} (k : str → captures → option A) :
  (o < 256)%N →
  run (xd2 g) (hex2 o ++ rest) c k = k rest (<[g := hex2 o]> c).
Proof.
  intros Ho. unfold xd2, hex2. cbn -[is_xdigit consumed].
  rewrite !hexc_xdigit; [| apply N.mod_lt; lia | apply N.Div0.div_lt_upper_bound; lia].
  f_equal. f_equal.
  exact (consumed_app [hexc (o / 16); hexc (o mod 16)] rest).
Qed.

Lemma hex2_match_end (g : nat) o c {A} (k : str → captures → option A) :
  (o < 256)%N → run (xd2 g) (hex2 o) c k = k [] (<[g := hex2 o]> c).
Proof.
  intros Ho. pose proof (hex2_match g o [] c k Ho) as E. by rewrite app_nil_r in E.
Qed.

Lemma colon_match rest c {A} (k : str → captures → option A) :
  run (RChar ":") (lit ":" ++ rest) c k = k rest c.
Proof. done. Qed.

Lemma run_seq {A} r1 r2 s c (k : str → captures → option A) :
  run (RSeq r1 r2) s c k = run r1 s c (λ s' c', run r2 s' c' k).
Proof. done. Qed.

Definition mac_captures (o0 o1 o2 o3 o4 o5 : N) : captures :=
  <[6%nat := hex2 o5]> (<[5%nat := hex2 o4]> (<[4%nat := hex2 o3]>
    (<[3%nat := hex2 o2]> (<[2%nat := hex2 o1]> (<[1%nat := hex2 o0]> ∅))))).

Lemma match_mac o0 o1 o2 o3 o4 o5 :
  Forall (λ o, o < 256)%N [o0;o1;o2;o3;o4;o5] →
  regex_match mac_pattern (print_mac o0 o1 o2 o3 o4 o5) = Some (mac_captures o0 o1 o2 o3 o4 o5).
Proof.
  intros H. inv_Forall.
  assert (E : run mac_pattern_colon (print_mac o0 o1 o2 o3 o4 o5) ∅
    (λ s' c, match s' with [] => Some c | _ => None end) = Some (mac_captures o0 o1 o2 o3 o4 o5)).
  { unfold mac_pattern_colon, sep6, print_mac. cbn [rseq Nat.add].
    repeat rewrite ?run_seq, ?hex2_match, ?colon_match by done.
    by rewrite hex2_match_end. }
  unfold regex_match, mac_pattern. cbn [run]. by rewrite E.
Qed.

Lemma mac_captures_1 o0 o1 o2 o3 o4 o5 :
  sub_match (mac_captures o0 o1 o2 o3 o4 o5) 1 = hex2 o0.
Proof. unfold sub_match, mac_captures. by simplify_map_eq. Qed.

Lemma parse_print_mac o0 o1 o2 o3 o4 o5 :
  Forall (λ o, o < 256)%N [o0;o1;o2;o3;o4;o5] →
  parseMAC (print_mac o0 o1 o2 o3 o4 o5) = Ok (join6 [o0;o1;o2;o3;o4;o5]).
Proof.
  intros H. unfold parseMAC. rewrite match_mac by done.
  rewrite <- parse_fold by done. inv_Forall.
  rewrite mac_captures_1. cbn [hex2 length Nat.ltb Nat.leb].
  unfold fold_left, Nat.add, sub_match, mac_captures. simplify_map_eq.
  by rewrite !stoi_hex2.
Qed.

Lemma lor_step a b k :
  N.lor (N.shiftl a (k + 8)) (N.shiftl b k) = N.shiftl (N.lor (N.shiftl a 8) b) k.
Proof. rewrite N.shiftl_lor, N.shiftl_shiftl. do 2 f_equal. lia. Qed.

Lemma lor_octets o0 o1 o2 o3 o4 o5 :
  Forall (λ o, o < 256)%N [o0;o1;o2;o3;o4;o5] →
  N.lor (N.lor (N.lor (N.lor (N.lor (N.shiftl o0 40) (N.shiftl o1 32))
    (N.shiftl o2 24)) (N.shiftl o3 16)) (N.shiftl o4 8)) o5
  = join6 [o0;o1;o2;o3;o4;o5].
Proof.
  intros H. inv_Forall. change 40%N with (32 + 8)%N. rewrite lor_step.
  change 32%N with (24 + 8)%N. rewrite lor_step. change 24%N with (16 + 8)%N.
  rewrite lor_step. change 16%N with (8 + 8)%N. rewrite lor_step.
  rewrite !(lor_shiftl_add _ _ 8) by (change (2 ^ 8)%N with 256%N; lia).
  cbn [join6 fold_left]. change (2 ^ 8)%N with 256%N. lia.
Qed.

Lemma high_bits_zero num : (num < 2 ^ 48)%N → N.land num 0xffff000000000000 = 0%N.
Proof.
  intros H. apply sub_ones_lt in H. rewrite <- H.
  rewrite <- N.land_assoc. change (N.land (N.ones 48) 0xffff000000000000) with 0%N.
  apply N.land_0_r.
Qed.

Lemma high_bits_nonzero num :
  (num < 2 ^ 64)%N → (2 ^ 48 <= num)%N →
  (N.land num 0xffff000000000000 =? 0)%N = false.
Proof.
  intros H64 H48. apply N.eqb_neq. intros E.
  assert (num < 2 ^ 48)%N; [| lia]. apply sub_ones_lt in H64. apply sub_ones_lt.
  apply bits_sub_spec. intros i Hi. pose proof (proj1 (bits_sub_spec _ _) H64 i Hi) as Hi64.
  rewrite !ones_spec_iff in *. destruct (N.ltb_spec i 48) as [| Hge]; [done |].
  apply N.ltb_lt in Hi64.
  assert (N.testbit (N.land num 0xffff000000000000) i = true) as F.
  { rewrite N.land_spec, Hi. change 0xffff000000000000%N with (N.shiftl (N.ones 16) 48).
    rewrite N.shiftl_spec_high', ones_spec_iff by done. apply N.ltb_lt. lia. }
  by rewrite E, N.bits_0 in F.
Qed.

(** ** Properties *)

(** printing a MAC address and parsing the text gives the address back. *)
Theorem ethaddr_print_parse a :
  eth_wf a → print a ≫= ethaddr_of_string = Ok a.
Proof.
  intros Ha. destruct (Ha) as [Hs Hwf]. unfold print, to_octets, ethaddr_of_string.
  rewrite eth_to_number by done. cbn -[parseMAC print_mac wrap N.shiftr N.land].
  change [wrap 8 _; _; _; _; _; _] with (octets_of (bval a)).
  assert (Ho := eth_octets_of_bytes (bval a)).
  pose proof (parse_print_mac _ _ _ _ _ _ Ho) as E. cbn [octets_of] in E.
  rewrite E. cbn [fmap res_fmap].
  change [wrap 8 _; _; _; _; _; _] with (octets_of (bval a)). rewrite join6_octets.
  - f_equal. rewrite <- Hs. by apply bits_of_ull_wf.
  - apply sub_ones_lt in Hwf. by rewrite Hs in Hwf.
Qed.

Lemma ethaddr_print_parse_witness :
  print (Bits 48 0x0180c200000e) ≫= ethaddr_of_string = Ok (Bits 48 0x0180c200000e).
Proof. apply ethaddr_print_parse. split; [reflexivity | vm_compute; reflexivity]. Defined.

(** [ethaddr(uint64_t)] accepts exactly the numbers below 2^48, keeps
    them unchanged, and rebuilding the address from its octets gives it back;
    every other 64-bit number is refused with [bad_representation]. *)
Theorem ethaddr_number_octets num :
  (num < 2 ^ 64)%N →
  if (num <? 2 ^ 48)%N then
    ∃ a o0 o1 o2 o3 o4 o5, ethaddr_of_number num = Ok a ∧ to_number a = Ok num ∧
      to_octets a = Ok [o0;o1;o2;o3;o4;o5] ∧
      ethaddr_of_octets o0 o1 o2 o3 o4 o5 = a
  else ethaddr_of_number num = Throw BadRepresentation.
Proof.
  intros H64. destruct (N.ltb_spec num (2 ^ 48)) as [Hlt | Hge].
  - assert (Hwf : eth_wf (Bits 48 num)).
    { split; [done |]. by apply sub_ones_lt. }
    assert (Hb : bits_of_ull nbits num = Bits 48 num).
    { by apply bits_of_ull_lt. }
    eexists (Bits 48 num), _, _, _, _, _, _. split.
    { unfold ethaddr_of_number. rewrite high_bits_zero by done. by rewrite Hb. }
    split; [by apply eth_to_number |]. split.
    { unfold to_octets. rewrite eth_to_number by done. reflexivity. }
    cbn [bval]. unfold ethaddr_of_octets. rewrite <- Hb. unfold bits_of_ull. f_equal.
    f_equal. rewrite lor_octets by apply eth_octets_of_bytes. by apply join6_octets.
  - unfold ethaddr_of_number. rewrite high_bits_nonzero by done. done.
Qed.

Lemma ethaddr_number_octets_witness :
  ethaddr_of_number 0x1000000000000 = Throw BadRepresentation.
Proof. apply (ethaddr_number_octets 0x1000000000000). reflexivity. Defined.

(** the class predicates agree with the address's first octet: broadcast
    addresses are multicast, and every address is either multicast or unicast. *)
Theorem ethaddr_classes a :
  eth_wf a →
  is_multicast a = negb (is_unicast a) ∧
  (is_broadcast a = true → is_multicast a = true ∧ is_locally_administered a = true) ∧
  (∀ o0 o1 o2 o3 o4 o5, to_octets a = Ok [o0;o1;o2;o3;o4;o5] →
     is_multicast a = N.odd o0 ∧ is_locally_administered a = N.testbit o0 1).
Proof.
  intros Ha. destruct (Ha) as [Hs Hwf]. split; [| split].
  - unfold is_multicast, is_unicast. by rewrite negb_involutive.
  - unfold is_broadcast, all. intros E. apply N.eqb_eq in E.
    unfold is_multicast, is_locally_administered, test_bit. rewrite E, Hs. done.
  - intros o0 o1 o2 o3 o4 o5. unfold to_octets. rewrite eth_to_number by done.
    cbn [fmap res_fmap]. unfold octets_of. intros E. injection E as <- _ _ _ _ _.
    change 0xff0000000000%N with (N.shiftl 255 40). rewrite octet_wrap.
    rewrite <- N.bit0_odd. change 256%N with (2 ^ 8)%N.
    rewrite !N.mod_pow2_bits_low, !N.div_pow2_bits by done. done.
Qed.

Lemma ethaddr_classes_witness :
  is_multicast (Bits 48 0xffffffffffff) = true ∧
  is_locally_administered (Bits 48 0xffffffffffff) = true.
Proof.
  apply (ethaddr_classes (Bits 48 0xffffffffffff)); [| reflexivity].
  split; [reflexivity | vm_compute; reflexivity].
Defined.

(** the dot of the third pattern is not escaped, so fourteen hexadecimal
    digits are taken as a MAC address: the third and the eighth (the
    separators' places) are dropped. *)
Theorem parseMAC_accepts_bare_digits :
  parseMAC (lit "11220334405566") = Ok 0x112233445566%N ∧
  parseMAC (lit "1122.3344.5566") = Ok 0x112233445566%N ∧
  parseMAC (lit "1122x3344y5566") = Ok 0x112233445566%N ∧
  parseMAC (lit "112233445566") = Throw BadRepresentation.
Proof. vm_compute. repeat split. Qed.
