(* ===== verification/Ipv4Addr.v ===== *)
(** * Ipv4Addr: IPv4 addresses, types/ipv4addr.hh and types/ipv4addr.cc *)

From S2P Require Import Prelude Bits Regex.

(** [bits_type data_], a [bits<32>] *)
Definition ipv4addr := bits.

Definition ipv4_wf (a : ipv4addr) : Prop := bsize a = 32%N ∧ bits_wf a.

(** ** Parsing *)

Definition dgroup (n : nat) : regex := RGroup n (RRep 1 3 (RClass is_digit)).

Definition ipv4_pattern : regex :=
  rseq (dgroup 1) [RDot; dgroup 2; RDot; dgroup 3; RDot; dgroup 4].

Definition parseipv4address (s : str) : res N :=
  match regex_match ipv4_pattern s with
  | None => Throw BadRepresentation
  | Some m =>
      Ok (fold_left (λ r oct,
            N.lor (wrap 64 (N.shiftl r 8)) (wrap 8 (stoi 10 (sub_match m oct))))
          [1;2;3;4]%nat 0%N)
  end.

(** [ipv4addr(const std::string&)], [ipv4addr(uint32_t)], [ipv4addr(octets)] *)
Definition ipv4addr_of_string (s : str) : res ipv4addr := bits_of_ull 32 <$> parseipv4address s.
Definition ipv4addr_of_number (num : N) : ipv4addr := bits_of_ull 32 num.
Definition ipv4addr_of_octets (o0 o1 o2 o3 : N) : ipv4addr :=
  bits_of_ull 32 (N.lor (N.lor (N.lor (N.shiftl o0 24) (N.shiftl o1 16)) (N.shiftl o2 8)) o3).

(** ** Accessors *)

Definition to_number (a : ipv4addr) : res N := noexcept (wrap 32 <$> to_ullong a).

Definition octets_of (num : N) : list N :=
  [ wrap 8 (N.shiftr (N.land num 0xff000000) 24);
    wrap 8 (N.shiftr (N.land num 0xff0000) 16);
    wrap 8 (N.shiftr (N.land num 0xff00) 8);
    wrap 8 (N.land num 0xff) ].

Definition to_octets (a : ipv4addr) : res (list N) := octets_of <$> to_number a.

(** [operator<<] *)
Definition print_ipv4 (o0 o1 o2 o3 : N) : str :=
  dec3 o0 ++ lit "." ++ dec3 o1 ++ lit "." ++ dec3 o2 ++ lit "." ++ dec3 o3.

Definition print (a : ipv4addr) : res str :=
  (λ o, match o with
        | [o0; o1; o2; o3] => print_ipv4 o0 o1 o2 o3
        | _ => []
        end) <$> to_octets a.

(** ** Address classes *)

Definition compare_prefix (pattern : str) (value : bits) (subnet : N) : res bool :=
  p ← parseipv4address pattern;
  let bit_pattern := bits_of_ull 32 p in
  let shift := wrap 8 (32 - subnet) in
  Ok (bits_eqb (bshr bit_pattern shift) (bshr value shift)).

(** C++ [||]: the right operand runs only when the left one is false. *)
Definition or_else (m k : res bool) : res bool :=
  b ← m; if (b : bool) then Ok true else k.

Definition is_private (a : ipv4addr) : res bool :=
  noexcept (or_else (compare_prefix (lit "10.0.0.0") a 8)
           (or_else (compare_prefix (lit "172.16.0.0") a 12)
                    (compare_prefix (lit "192.168.0.0.") a 16))).

Definition is_loopback (a : ipv4addr) : res bool :=
  noexcept (compare_prefix (lit "127.0.0.0") a 8).

Definition is_multicast (a : ipv4addr) : res bool :=
  noexcept (compare_prefix (lit "224.0.0.0") a 4).

Definition is_broadcast (a : ipv4addr) : bool := all a.

(** ** Lemmas *)

Lemma dgroup_match (g : nat) o rest c {A} (k : str → captures → option A) a :
  (o < 256)%N →
  run RDot (lit "." ++ rest) (<[g := dec3 o]> c) k = Some a →
  run (RSeq (dgroup g) RDot) (dec3 o ++ lit "." ++ rest) c k = Some a.
Proof.
  intros Ho Hk. destruct (dec3_digits o Ho) as [Hl Hd]. cbn [run dgroup].
  apply (run_digits13 (dec3 o) "."%char rest c); [done.. |].
  cbn beta. change ("."%char :: rest) with (lit "." ++ rest). by rewrite consumed_app.
Qed.

Lemma dot_match rest c {A} (k : str → captures → option A) :
  run RDot (lit "." ++ rest) c k = k rest c.
Proof. done. Qed.

Lemma run_seq_assoc {A} r1 r2 r3 s c (k : str → captures → option A) :
  run (RSeq r1 (RSeq r2 r3)) s c k = run (RSeq r1 r2) s c (λ s' c', run r3 s' c' k).
Proof. done. Qed.

Definition ipv4_captures (o0 o1 o2 o3 : N) : captures :=
  <[4%nat := dec3 o3]> (<[3%nat := dec3 o2]> (<[2%nat := dec3 o1]> (<[1%nat := dec3 o0]> ∅))).

Lemma match_ipv4 o0 o1 o2 o3 :
  Forall (λ o, o < 256)%N [o0;o1;o2;o3] →
  regex_match ipv4_pattern (print_ipv4 o0 o1 o2 o3) = Some (ipv4_captures o0 o1 o2 o3).
Proof.
  intros H. inv_Forall. unfold regex_match, ipv4_pattern, print_ipv4. cbn [rseq].
  do 3 (rewrite run_seq_assoc; apply dgroup_match; [done |]; rewrite dot_match).
  destruct (dec3_digits o3) as [Hl Hd]; [done |].
  cbn [run dgroup]. apply run_digits13_end; [done.. |]. cbn beta.
  unfold ipv4_captures. do 2 f_equal.
  pose proof (consumed_app (dec3 o3) []) as E. by rewrite app_nil_r in E.
Qed.

Lemma ipv4_octets_of_div num :
  octets_of num = [num / 2 ^ 24 mod 256; num / 2 ^ 16 mod 256; num / 2 ^ 8 mod 256;
                   num mod 256]%N.
Proof.
  unfold octets_of, wrap. rewrite <- !N.shiftr_div_pow2. change 256%N with (2 ^ 8)%N.
  rewrite <- !N.land_ones. change 0xff000000%N with (N.shiftl (N.ones 8) 24).
  change 0xff0000%N with (N.shiftl (N.ones 8) 16). change 0xff00%N with (N.shiftl (N.ones 8) 8).
  change 0xff%N with (N.ones 8).
  rewrite !N.shiftr_land, !N.shiftr_shiftl_l by done.
  rewrite !N.sub_diag, !N.shiftl_0_r, <- !N.land_assoc, !N.land_diag. done.
Qed.

Lemma ipv4_octets_of_bytes num : Forall (λ o, o < 256)%N (octets_of num).
Proof. repeat constructor; apply (wrap_lt 8). Qed.

(** The number four octets spell, most significant first. *)
Definition join4 (l : list N) : N := fold_left (λ r o, r * 256 + o)%N l 0%N.

Lemma join4_octets num : (num < 2 ^ 32)%N → join4 (octets_of num) = num.
Proof.
  intros Hn. rewrite ipv4_octets_of_div. cbn [join4 fold_left].
  change (2 ^ 24)%N with (256 * 256 * 256)%N.
  change (2 ^ 16)%N with (256 * 256)%N. change (2 ^ 8)%N with 256%N.
  change (2 ^ 32)%N with 4294967296%N in Hn. rewrite <- !N.Div0.div_div.
  destruct (div256 num) as (q1 & r1 & ? & ? & -> & ->).
  destruct (div256 q1) as (q2 & r2 & ? & ? & -> & ->).
  destruct (div256 q2) as (q3 & r3 & ? & ? & -> & ->).
  rewrite N.mod_small by lia. lia.
Qed.

Lemma parse_print_ipv4 o0 o1 o2 o3 :
  Forall (λ o, o < 256)%N [o0;o1;o2;o3] →
  parseipv4address (print_ipv4 o0 o1 o2 o3) = Ok (join4 [o0;o1;o2;o3]).
Proof.
  intros H. unfold parseipv4address. rewrite match_ipv4 by done. inv_Forall.
  unfold sub_match, ipv4_captures, join4, fold_left. simplify_map_eq. cbn [default from_option].
  rewrite !stoi_dec3 by done. f_equal.
  repeat match goal with
  | |- context [N.lor (wrap 64 (N.shiftl ?r 8)) (wrap 8 ?o)] =>
      lazymatch r with
      | context [wrap] => fail
      | _ => rewrite (octet_step r o) by lia
      end
  end. done.
Qed.

Lemma ipv4_to_number a : ipv4_wf a → to_number a = Ok (bval a).
Proof.
  intros [Hs Hwf]. unfold to_number, to_ullong.
  apply sub_ones_lt in Hwf. rewrite Hs in Hwf.
  rewrite (proj2 (N.ltb_lt _ _)).
  - cbn [fmap res_fmap noexcept]. by rewrite wrap_id.
  - eapply N.lt_trans; [exact Hwf |]. reflexivity.
Qed.

(** ** Properties *)

(** printing an IPv4 address and parsing the text gives the address back. *)
Theorem ipv4addr_print_parse a :
  ipv4_wf a → print a ≫= ipv4addr_of_string = Ok a.
Proof.
  intros Ha. destruct (Ha) as [Hs Hwf]. unfold print, to_octets, ipv4addr_of_string.
  rewrite ipv4_to_number by done. cbn -[parseipv4address print_ipv4 wrap N.shiftr N.land].
  pose proof (parse_print_ipv4 _ _ _ _ (ipv4_octets_of_bytes (bval a))) as E.
  cbn [octets_of] in E. rewrite E. cbn [fmap res_fmap].
  change [wrap 8 _; _; _; _] with (octets_of (bval a)). rewrite join4_octets.
  - f_equal. rewrite <- Hs. by apply bits_of_ull_wf.
  - apply sub_ones_lt in Hwf. by rewrite Hs in Hwf.
Qed.

Lemma ipv4addr_print_parse_witness :
  print (Bits 32 0xc0a80001) ≫= ipv4addr_of_string = Ok (Bits 32 0xc0a80001).
Proof. apply ipv4addr_print_parse. split; [reflexivity | vm_compute; reflexivity]. Defined.

(** [is_private] answers only inside 10.0.0.0/8 and 172.16.0.0/12.  Its
    third pattern, [192.168.0.0.], has a trailing dot and never parses, and
    the function is [noexcept]: for every other address, the private
    192.168.0.0/16 and every public one included, the program terminates. *)
Theorem is_private_terminates a :
  ipv4_wf a →
  is_private a =
    if ((bval a / 2 ^ 24 =? 10) || (bval a / 2 ^ 20 =? 0xac1))%N
    then Ok true else Throw Terminate.
Proof.
  intros [Hs Hwf]. unfold is_private, compare_prefix.
  change (parseipv4address (lit "10.0.0.0")) with (@Ok N 0x0a000000%N).
  change (parseipv4address (lit "172.16.0.0")) with (@Ok N 0xac100000%N).
  change (parseipv4address (lit "192.168.0.0.")) with (@Throw N BadRepresentation).
  cbn [mbind res_bind or_else]. unfold bits_eqb, bshr. cbn [bsize bval bits_of_ull].
  rewrite Hs, !N.shiftr_div_pow2.
  change (wrap 8 (32 - 8)) with 24%N. change (wrap 8 (32 - 12)) with 20%N.
  change (N.land 0x0a000000 (N.ones 32) / 2 ^ 24)%N with 10%N.
  change (N.land 0xac100000 (N.ones 32) / 2 ^ 20)%N with 0xac1%N.
  rewrite (N.eqb_sym 10), (N.eqb_sym 0xac1). cbn [N.eqb Pos.eqb andb].
  destruct (_ =? 10)%N, (_ =? 0xac1)%N; done.
Qed.

Lemma is_private_terminates_witness :
  is_private (Bits 32 0xc0a80001) = Throw Terminate ∧ is_private (Bits 32 0x0a000001) = Ok true.
Proof.
  split; [apply (is_private_terminates (Bits 32 0xc0a80001))
         |apply (is_private_terminates (Bits 32 0x0a000001))];
    (split; [reflexivity | vm_compute; reflexivity]).
Defined.

(** [is_loopback] and [is_multicast] never throw and decide membership of
    127.0.0.0/8 and of 224.0.0.0/4. *)
Theorem ipv4_prefix_classes a :
  ipv4_wf a →
  is_loopback a = Ok (bval a / 2 ^ 24 =? 127)%N ∧
  is_multicast a = Ok (bval a / 2 ^ 28 =? 14)%N.
Proof.
  intros [Hs Hwf]. unfold is_loopback, is_multicast, compare_prefix.
  change (parseipv4address (lit "127.0.0.0")) with (@Ok N 0x7f000000%N).
  change (parseipv4address (lit "224.0.0.0")) with (@Ok N 0xe0000000%N).
  cbn [mbind res_bind noexcept]. unfold bits_eqb, bshr. cbn [bsize bval bits_of_ull].
  rewrite Hs, !N.shiftr_div_pow2.
  change (wrap 8 (32 - 8)) with 24%N. change (wrap 8 (32 - 4)) with 28%N.
  change (N.land 0x7f000000 (N.ones 32) / 2 ^ 24)%N with 127%N.
  change (N.land 0xe0000000 (N.ones 32) / 2 ^ 28)%N with 14%N.
  by rewrite (N.eqb_sym 127), (N.eqb_sym 14).
Qed.

Lemma ipv4_prefix_classes_witness :
  is_loopback (Bits 32 0x7f000001) = Ok true ∧ is_multicast (Bits 32 0x7f000001) = Ok false.
Proof.
  apply (ipv4_prefix_classes (Bits 32 0x7f000001)).
  split; [reflexivity | vm_compute; reflexivity].
Defined.

(** the pattern's dots are not escaped and octets are cut to 8 bits: a
    run of seven digits and octets above 255 are accepted as addresses. *)
Theorem parseipv4_accepts_malformed :
  parseipv4address (lit "1234567") = Ok 0x01030507%N ∧
  parseipv4address (lit "300.1.1.1") = Ok 0x2c010101%N ∧
  parseipv4address (lit "192.168.0.0.") = Throw BadRepresentation.
Proof. vm_compute. repeat split. Qed.
