(* ===== verification/IPv6Addr.v ===== *)
(** * IPv6Addr: IPv6 addresses, types/IPv6Addr.hh and types/IPv6Addr.cc

    The parser checks the text against one pattern, puts colons in for "::"
    and reads eight groups; it reads what eight groups spell
    ([ipv6_parse_groups]).  The accessors take the halves of the address the
    wrong way round, and end the process where the upper one is not zero. *)

From S2P Require Import Prelude Bits Regex.

(** [bits_type data_], a [bits<128>] *)
Definition ipv6addr := bits.

(** ** Parsing *)

Definition colon : regex := RChar ":"%char.
(** [[[:xdigit:]]{1,4}] *)
Definition xd : regex := RRep 1 4 (RClass is_xdigit).
(** [([[:xdigit:]]{1,4}:)] and [(:[[:xdigit:]]{1,4})]; nothing asks for these groups. *)
Definition xdc : regex := RSeq xd colon.
Definition cxd : regex := RSeq colon xd.

Definition validation : regex :=
  RAlt (RSeq (RRep 7 7 xdc) xd)
  (RAlt (RSeq (RRep 1 7 xdc) colon)
  (RAlt (RSeq (RRep 1 6 xdc) (RSeq colon xd))
  (RAlt (RSeq (RRep 1 5 xdc) (RRep 1 2 cxd))
  (RAlt (RSeq (RRep 1 4 xdc) (RRep 1 3 cxd))
  (RAlt (RSeq (RRep 1 3 xdc) (RRep 1 4 cxd))
  (RAlt (RSeq (RRep 1 2 xdc) (RRep 1 5 cxd))
  (RAlt (RSeq xd (RSeq colon (RRep 1 6 cxd)))
        (RSeq colon (RAlt (RRep 1 7 cxd) colon))))))))).

Definition hgroup (n : nat) : regex := RGroup n (RRep 0 4 (RClass is_xdigit)).

Definition pattern : regex :=
  rseq (hgroup 1) [colon; hgroup 2; colon; hgroup 3; colon; hgroup 4; colon;
                   hgroup 5; colon; hgroup 6; colon; hgroup 7; colon; hgroup 8].

Definition count_colons (s : str) : nat := length (List.filter (λ c, if ascii_dec c ":"%char then true else false) s).

(** [find("::")] *)
Fixpoint find_double (s : str) : nat :=
  match s with
  | c :: (d :: _) as s' => if ascii_dec c ":"%char then if ascii_dec d ":"%char then 0%nat else S (find_double s')
                           else S (find_double s')
  | _ => 0%nat
  end.

Definition insert_colons (s : str) (pos k : nat) : str := take pos s ++ replicate k ":"%char ++ drop pos s.

(** Four groups as 64 bits. *)
Definition half (m : captures) (groups : list nat) : N :=
  fold_left (λ r oct,
    let r' := wrap 64 (N.shiftl r 16) in
    if (0 <? length (sub_match m oct))%nat then N.lor r' (wrap 16 (stoi 16 (sub_match m oct))) else r') groups 0%N.

Definition parseIPv6 (s : str) : res (N * N) :=
  match regex_match validation s with
  | None => Throw BadRepresentation
  | Some _ =>
      let n := count_colons s in
      let s' := if (n <? 7)%nat then insert_colons s (find_double s) (7 - n) else s in
      match regex_match pattern s' with
      | None => Throw BadRepresentation
      | Some m => Ok (half m [1;2;3;4]%nat, half m [5;6;7;8]%nat)
      end
  end.

(** [IPv6Addr(std::pair<uint64_t, uint64_t>)], [IPv6Addr(const std::string&)] *)
Definition ipv6addr_of_number (num : N * N) : ipv6addr :=
  bor (bshl (bits_of_ull 128 (fst num)) 64) (bits_of_ull 128 (snd num)).
Definition ipv6addr_of_string (s : str) : res ipv6addr := ipv6addr_of_number <$> parseIPv6 s.

(** ** Accessors *)

(** The lower half comes first. *)
Definition to_number (a : ipv6addr) : res (N * N) :=
  noexcept (one ← to_ullong a; two ← to_ullong (bshr a 64); Ok (one, two)).

Definition hextets_of (num : N) : list N :=
  [ wrap 16 (N.shiftr (N.land num 0xffff000000000000) 48);
    wrap 16 (N.shiftr (N.land num 0xffff00000000) 32);
    wrap 16 (N.shiftr (N.land num 0xffff0000) 16);
    wrap 16 (N.shiftr (N.land num 0xffff) 0) ].

Definition to_hextets (a : ipv6addr) : res (list N) :=
  '(one, two) ← to_number a; Ok (hextets_of one ++ hextets_of two).

(** The first byte of each half is shifted by 54. *)
Definition octets_of (num : N) : list N :=
  [ wrap 8 (N.shiftr (N.land num 0xff00000000000000) 54);
    wrap 8 (N.shiftr (N.land num 0xff000000000000) 48);
    wrap 8 (N.shiftr (N.land num 0xff0000000000) 40);
    wrap 8 (N.shiftr (N.land num 0xff00000000) 32);
    wrap 8 (N.shiftr (N.land num 0xff000000) 24);
    wrap 8 (N.shiftr (N.land num 0xff0000) 16);
    wrap 8 (N.shiftr (N.land num 0xff00) 8);
    wrap 8 (N.shiftr (N.land num 0xff) 0) ].

Definition to_octets (a : ipv6addr) : res (list N) :=
  '(one, two) ← to_number a; Ok (octets_of one ++ octets_of two).

(** ["%x"] of 16 bits *)
Definition hex4 (n : N) : str :=
  (if n <? 16 then [hexc n]
   else if n <? 256 then [hexc (n / 16); hexc (n mod 16)]
   else if n <? 4096 then [hexc (n / 256); hexc (n / 16 mod 16); hexc (n mod 16)]
   else [hexc (n / 4096); hexc (n / 256 mod 16); hexc (n / 16 mod 16); hexc (n mod 16)])%N.

Fixpoint join_colons (l : list str) : str :=
  match l with [] => [] | [s] => s | s :: l => s ++ ":"%char :: join_colons l end.

(** [operator<<] *)
Definition print_ipv6 (l : list N) : str := join_colons (map hex4 l).
Definition print (a : ipv6addr) : res str := print_ipv6 <$> to_hextets a.

Example parse_one : ipv6addr_of_string (lit "::1") = Ok (Bits 128 1).
Proof. by vm_compute. Qed.
Example parse_middle : ipv6addr_of_string (lit "fe80::a:b") = Ok (Bits 128 0xfe8000000000000000000000000a000b).
Proof. by vm_compute. Qed.
Example parse_seven_left : ipv6addr_of_string (lit "1:2:3:4:5:6:7::") = Throw BadRepresentation.
Proof. by vm_compute. Qed.

(** ** Lemmas *)

(** A number and its hexadecimal digits. *)
Lemma div16 n : ∃ q r, n = (q * 16 + r)%N ∧ (r < 16)%N ∧ (n / 16 = q)%N ∧ (n mod 16 = r)%N.
Proof.
  exists (n / 16)%N, (n mod 16)%N. repeat split; [rewrite N.mul_comm; by apply N.div_mod | by apply N.mod_lt].
Qed.

Definition digits_ok (l : list N) (n : N) : Prop :=
  forallb is_xdigit (map hexc l) = true ∧ stoi 16 (map hexc l) = n.

Lemma digits_ok_spec l : Forall (λ d, d < 16)%N l → digits_ok l (fold_left (λ r d, r * 16 + d)%N l 0%N).
Proof.
  intros H. unfold digits_ok, stoi. split.
  - induction H as [|d l Hd _ IH]; [done |]. cbn -[is_xdigit hexc]. by rewrite hexc_xdigit.
  - assert (E : ∀ l, Forall (λ d, d < 16)%N l → ∀ r,
              fold_left (λ acc c, acc * 16 + digit_val c)%N (map hexc l) r = fold_left (λ r d, r * 16 + d)%N l r); [| by apply E].
    induction 1 as [|d l' Hd _ IH]; intros r; [done |]. cbn [map fold_left]. by rewrite hexc_val, IH.
Qed.

Lemma hex4_ok n : (n < 65536)%N →
  ((length (hex4 n) = 1 ∨ length (hex4 n) = 2 ∨ length (hex4 n) = 3 ∨ length (hex4 n) = 4) ∧
   forallb is_xdigit (hex4 n) = true) ∧ stoi 16 (hex4 n) = n.
Proof.
  intros H.
  assert (D : ∃ l, hex4 n = map hexc l ∧ Forall (λ d, d < 16)%N l ∧ fold_left (λ r d, r * 16 + d)%N l 0%N = n ∧
            (length l = 1 ∨ length l = 2 ∨ length l = 3 ∨ length l = 4)).
  { unfold hex4. change 4096%N with (16 * 16 * 16)%N. change 256%N with (16 * 16)%N. rewrite <- !N.Div0.div_div.
    destruct (div16 n) as (q1 & r1 & E1 & L1 & -> & ->), (div16 q1) as (q2 & r2 & E2 & L2 & -> & ->).
    destruct (div16 q2) as (q3 & r3 & E3 & L3 & -> & ->).
    destruct (N.ltb_spec n 16); [exists [n] | destruct (N.ltb_spec n (16 * 16)); [exists [q1; r1] |
      destruct (N.ltb_spec n (16 * 16 * 16)); [exists [q2; r2; r1] | exists [q3; r3; r2; r1]]]];
      (split_and!; [done | repeat apply Forall_cons_2; try apply Forall_nil_2; lia | cbn; lia | cbn; lia]). }
  destruct D as (l & E & Hl & Hn & Hlen). rewrite E. destruct (digits_ok_spec l Hl) as [D1 D2]. rewrite length_map, D2, Hn. done.
Qed.

(** One to four digits, in a greedy repetition. *)
Definition group_text (ds : str) : Prop :=
  (length ds = 1 ∨ length ds = 2 ∨ length ds = 3 ∨ length ds = 4) ∧ forallb is_xdigit ds = true.

Lemma run_xdigits {A} lo ds (s : str) c (k : str → captures → option A) a :
  (lo = 0 ∨ lo = 1) → group_text ds → match s with x :: _ => is_xdigit x = false | [] => True end →
  k s c = Some a → run (RRep lo 4 (RClass is_xdigit)) (ds ++ s) c k = Some a.
Proof.
  intros Hlo [Hl Hd] Hs Hk.
  destruct Hlo as [-> | ->], s as [|x s], ds as [|d1 [|d2 [|d3 [|d4 [|]]]]]; cbn in Hl; try lia;
    cbn -[is_xdigit] in Hd; rewrite ?andb_true_r, ?andb_true_iff in Hd; destruct_and?;
    cbn -[is_xdigit]; repeat case_match; congruence.
Qed.

Lemma run_rep_succ {A} lo hi r s c (k : str → captures → option A) :
  run (RRep (S lo) (S hi) r) s c k = run r s c (λ s c, run (RRep lo hi r) s c k).
Proof. done. Qed.

Lemma run_xdc {A} ds s c (k : str → captures → option A) a :
  group_text ds → k s c = Some a → run xdc (ds ++ ":"%char :: s) c k = Some a.
Proof. intros Hd Hk. unfold xdc. cbn [run]. by apply run_xdigits; [right | | |]. Qed.

Lemma run_hgroup {A} g ds s c (k : str → captures → option A) a :
  group_text ds → match s with x :: _ => is_xdigit x = false | [] => True end →
  k s (<[g := ds]> c) = Some a → run (hgroup g) (ds ++ s) c k = Some a.
Proof. 
  intros Hd Hs Hk.
  change (run (RRep 0 4 (RClass is_xdigit)) (ds ++ s) c (λ s' c', k s' (<[g := consumed (ds ++ s) s']> c')) = Some a).
  apply run_xdigits; [by left | done | done |]. by rewrite consumed_app.
Qed.

Lemma run_alt_left {A} r1 r2 s c (k : str → captures → option A) a : run r1 s c k = Some a → run (RAlt r1 r2) s c k = Some a.
Proof. intros E. cbn [run]. by rewrite E. Qed.

Lemma run_rseq {A} r1 r2 s c (k : str → captures → option A) : run (RSeq r1 r2) s c k = run r1 s c (λ s' c', run r2 s' c' k).
Proof. done. Qed.

Lemma run_colon {A} s c (k : str → captures → option A) a : k s c = Some a → run colon (":"%char :: s) c k = Some a.
Proof. done. Qed.

Lemma colons_of_text ds s : group_text ds → count_colons (ds ++ s) = count_colons s.
Proof.
  intros [_ H]. unfold count_colons. induction ds as [|d ds IH]; [done |]. cbn -[is_xdigit] in H |- *.
  apply andb_true_iff in H as [H1 H2]. destruct (ascii_dec d ":"%char) as [-> |]; [done | by apply IH].
Qed.

Definition eight (d1 d2 d3 d4 d5 d6 d7 d8 : str) : captures :=
  <[8%nat := d8]> (<[7%nat := d7]> (<[6%nat := d6]> (<[5%nat := d5]>
    (<[4%nat := d4]> (<[3%nat := d3]> (<[2%nat := d2]> (<[1%nat := d1]> ∅))))))).

Section Eight.
Context (d1 d2 d3 d4 d5 d6 d7 d8 : str).
Hypothesis H : Forall group_text [d1; d2; d3; d4; d5; d6; d7; d8].

Lemma match_validation : ∃ m, regex_match validation (join_colons [d1; d2; d3; d4; d5; d6; d7; d8]) = Some m.
Proof.
  inv_Forall. exists ∅. unfold regex_match, validation. apply run_alt_left. cbn [join_colons]. rewrite run_rseq.
  do 7 (rewrite run_rep_succ; apply run_xdc; [done |]; cbv beta).
  change (run xd d8 ∅ (λ s' c, match s' with [] => Some c | _ => None end) = Some ∅).
  rewrite <- (app_nil_r d8). by apply run_xdigits; [right | | |].
Qed.

Lemma match_pattern :
  regex_match pattern (join_colons [d1; d2; d3; d4; d5; d6; d7; d8]) = Some (eight d1 d2 d3 d4 d5 d6 d7 d8).
Proof.
  inv_Forall. unfold regex_match, pattern. cbn [join_colons rseq].
  do 7 (rewrite run_rseq; apply run_hgroup; [done | done |]; rewrite run_rseq; apply run_colon).
  rewrite <- (app_nil_r d8) at 1. by apply run_hgroup.
Qed.

Lemma eight_colons : count_colons (join_colons [d1; d2; d3; d4; d5; d6; d7; d8]) = 7%nat.
Proof.
  inv_Forall. cbn [join_colons]. rewrite <- (app_nil_r d8).
  assert (C : ∀ s, count_colons (":"%char :: s) = S (count_colons s)) by done.
  do 7 (rewrite colons_of_text, C by done). by rewrite colons_of_text.
Qed.
End Eight.

(** The number that groups spell, most significant first. *)
Definition join (l : list N) : N := fold_left (λ r h, r * 65536 + h)%N l 0%N.

Lemma hextet_step r h :
  (r < 281474976710656)%N → (h < 65536)%N → N.lor (wrap 64 (N.shiftl r 16)) (wrap 16 h) = (r * 65536 + h)%N.
Proof.
  intros Hr Hh. rewrite (wrap_id 16) by done. rewrite wrap_id.
  - change 65536%N with (2 ^ 16)%N. by apply lor_shiftl_add.
  - rewrite N.shiftl_mul_pow2. change (2 ^ 64)%N with 18446744073709551616%N. change (2 ^ 16)%N with 65536%N. lia.
Qed.

Lemma half_groups m g1 g2 g3 g4 h1 h2 h3 h4 :
  Forall (λ h, h < 65536)%N [h1; h2; h3; h4] →
  m !! g1 = Some (hex4 h1) → m !! g2 = Some (hex4 h2) → m !! g3 = Some (hex4 h3) → m !! g4 = Some (hex4 h4) →
  half m [g1; g2; g3; g4] = join [h1; h2; h3; h4].
Proof.
  intros H E1 E2 E3 E4. inv_Forall. unfold half, join. cbn [fold_left].
  assert (L : ∀ g h, (h < 65536)%N → m !! g = Some (hex4 h) →
            (0 <? length (sub_match m g))%nat = true ∧ stoi 16 (sub_match m g) = h).
  { intros g h Hh E. unfold sub_match. rewrite E. change (default [] (Some (hex4 h))) with (hex4 h).
    destruct (hex4_ok h Hh) as [[Hl _] Hv]. split; [| done]. apply Nat.ltb_lt. lia. }
  destruct (L g1 h1) as [-> ->]; [done | done |]. destruct (L g2 h2) as [-> ->]; [done | done |].
  destruct (L g3 h3) as [-> ->]; [done | done |]. destruct (L g4 h4) as [-> ->]; [done | done |].
  rewrite (hextet_step 0 h1) by lia. rewrite (hextet_step _ h2) by lia. rewrite (hextet_step _ h3) by lia.
  by rewrite (hextet_step _ h4) by lia.
Qed.

Lemma parse_groups h1 h2 h3 h4 h5 h6 h7 h8 :
  Forall (λ h, h < 65536)%N [h1; h2; h3; h4; h5; h6; h7; h8] →
  parseIPv6 (print_ipv6 [h1; h2; h3; h4; h5; h6; h7; h8]) = Ok (join [h1; h2; h3; h4], join [h5; h6; h7; h8]).
Proof.
  intros H. unfold parseIPv6, print_ipv6. cbn [map].
  assert (G : Forall group_text [hex4 h1; hex4 h2; hex4 h3; hex4 h4; hex4 h5; hex4 h6; hex4 h7; hex4 h8]).
  { inv_Forall. repeat (apply Forall_cons_2; [by apply hex4_ok |]). by apply Forall_nil_2. }
  destruct (match_validation _ _ _ _ _ _ _ _ G) as [m ->]. rewrite eight_colons by done. cbn [Nat.ltb Nat.leb].
  rewrite match_pattern by done. inv_Forall.
  rewrite (half_groups _ _ _ _ _ h1 h2 h3 h4), (half_groups _ _ _ _ _ h5 h6 h7 h8); [done | ..];
    try (repeat apply Forall_cons_2; try apply Forall_nil_2; done); unfold eight; by simplify_map_eq.
Qed.

Lemma join4_lt h1 h2 h3 h4 : Forall (λ h, h < 65536)%N [h1; h2; h3; h4] → (join [h1; h2; h3; h4] < 2 ^ 64)%N.
Proof. intros H. inv_Forall. cbn [join fold_left]. change (2 ^ 64)%N with 18446744073709551616%N. unfold join. cbn [fold_left]. lia. Qed.

Lemma of_number_ok a b : (a < 2 ^ 64)%N → (b < 2 ^ 64)%N → ipv6addr_of_number (a, b) = Bits 128 (a * 2 ^ 64 + b).
Proof.
  intros Ha Hb. unfold ipv6addr_of_number, bor, bshl. cbn [fst snd]. rewrite !bits_of_ull_lt by (eapply N.lt_trans; [eassumption | done]).
  cbn [bsize bval]. f_equal. rewrite <- lor_shiftl_add by done. f_equal. apply sub_ones_lt.
  rewrite N.shiftl_mul_pow2. change (2 ^ 64)%N with 18446744073709551616%N in *.
  change (2 ^ 128)%N with 340282366920938463463374607431768211456%N. lia.
Qed.

Lemma hextets_of_bytes num : Forall (λ h, h < 65536)%N (hextets_of num).
Proof. repeat constructor; apply (wrap_lt 16). Qed.

Lemma join_hextets num : (num < 2 ^ 64)%N → join (hextets_of num) = num.
Proof.
  intros Hn. assert (E : hextets_of num = [num / 2 ^ 48 mod 65536; num / 2 ^ 32 mod 65536; num / 2 ^ 16 mod 65536; num mod 65536]%N).
  { unfold hextets_of, wrap. rewrite <- !N.shiftr_div_pow2. change 65536%N with (2 ^ 16)%N. rewrite <- !N.land_ones.
    change 0xffff000000000000%N with (N.shiftl (N.ones 16) 48). change 0xffff00000000%N with (N.shiftl (N.ones 16) 32).
    change 0xffff0000%N with (N.shiftl (N.ones 16) 16). change 0xffff%N with (N.ones 16).
    rewrite !N.shiftr_land, !N.shiftr_shiftl_l by done.
    by rewrite !N.sub_diag, !N.shiftl_0_r, N.shiftr_0_r, <- !N.land_assoc, !N.land_diag. }
  rewrite E. unfold join. cbn [fold_left]. change (2 ^ 48)%N with (65536 * 65536 * 65536)%N. change (2 ^ 32)%N with (65536 * 65536)%N.
  change (2 ^ 16)%N with 65536%N. rewrite <- !N.Div0.div_div.
  assert (D : ∀ n, ∃ q r, n = (q * 65536 + r)%N ∧ (r < 65536)%N ∧ (n / 65536 = q)%N ∧ (n mod 65536 = r)%N).
  { intros n. exists (n / 65536)%N, (n mod 65536)%N. repeat split; [rewrite N.mul_comm; by apply N.div_mod | by apply N.mod_lt]. }
  destruct (D num) as (q1 & r1 & ? & ? & -> & ->), (D q1) as (q2 & r2 & ? & ? & -> & ->), (D q2) as (q3 & r3 & ? & ? & -> & ->).
  change (2 ^ 64)%N with 18446744073709551616%N in Hn. rewrite N.mod_small by lia. lia.
Qed.

(** ** Properties *)

(** the parser.  Eight groups of digits, each the number of a group in
    hexadecimal, are parsed to the address they spell. *)
Theorem ipv6_parse_groups (h1 h2 h3 h4 h5 h6 h7 h8 : N) :
  Forall (λ h, h < 65536)%N [h1; h2; h3; h4; h5; h6; h7; h8] →
  ipv6addr_of_string (print_ipv6 [h1; h2; h3; h4; h5; h6; h7; h8]) = Ok (Bits 128 (join [h1; h2; h3; h4; h5; h6; h7; h8])).
Proof.
  intros H. unfold ipv6addr_of_string. rewrite parse_groups by done. inv_Forall. cbn [fmap res_fmap].
  rewrite of_number_ok by (apply join4_lt; repeat apply Forall_cons_2; try apply Forall_nil_2; done).
  do 2 f_equal. unfold join. cbn [fold_left]. change (2 ^ 64)%N with 18446744073709551616%N. lia.
Qed.

Lemma ipv6_parse_groups_witness :
  ipv6addr_of_string (lit "fe80:0:0:0:1:22:333:4444") = Ok (Bits 128 0xfe800000000000000001002203334444).
Proof. apply (ipv6_parse_groups 0xfe80 0 0 0 1 0x22 0x333 0x4444). repeat (apply Forall_cons_2; [done |]). by apply Forall_nil_2. Defined.

(** printing.  What is printed of an address below [2 ^ 64] is the address
    shifted to the upper half, as parsing it shows; printing any other address
    ends the process. *)
Theorem ipv6_print_wrong (a : ipv6addr) :
  bsize a = 128%N → bits_wf a →
  if (bval a <? 2 ^ 64)%N then print a ≫= ipv6addr_of_string = Ok (Bits 128 (bval a * 2 ^ 64))
  else print a = Throw Terminate.
Proof.
  intros Hs Hwf. unfold print, to_hextets, to_number, to_ullong, bshr. cbn [bval].
  destruct (bval a <? 2 ^ 64)%N eqn:E; [| done]. apply N.ltb_lt in E. rewrite N.shiftr_div_pow2, N.div_small by done.
  change (0 <? 2 ^ 64)%N with true. cbn [mbind res_bind noexcept fmap res_fmap]. change (hextets_of 0) with [0; 0; 0; 0]%N.
  pose proof (hextets_of_bytes (bval a)) as Hb. pose proof (join_hextets (bval a) E) as Hj. unfold hextets_of in *. cbn [app].
  unfold ipv6addr_of_string. rewrite parse_groups.
  - cbn [fmap res_fmap]. rewrite Hj, of_number_ok; [| done | done]. change (join [0; 0; 0; 0]%N) with 0%N. by rewrite N.add_0_r.
  - inv_Forall. repeat (apply Forall_cons_2; [done |]). by apply Forall_nil_2.
Qed.

Lemma ipv6_print_wrong_witness :
  print (Bits 128 1) ≫= ipv6addr_of_string = Ok (Bits 128 (2 ^ 64)) ∧
  print (Bits 128 0xfe800000000000000000000000000001) = Throw Terminate.
Proof.
  split; [apply (ipv6_print_wrong (Bits 128 1)) | apply (ipv6_print_wrong (Bits 128 0xfe800000000000000000000000000001))];
    done || by vm_compute.
Defined.
