(* ===== verification/Oxm.v ===== *)
(** * Oxm: OpenFlow match fields, oxm/type.hh, oxm/field.hh, oxm/openflow_basic.hh

    A [value], [mask] or [field] carries its runtime type and bits of the
    type's width.  The holders' constructors check the width and that an
    unmaskable type is only masked entirely or not at all; the operators
    check that both operands have one type.  The second half of the file
    gives, for each operator, the total function it computes on well-formed
    operands of one type, and proves that no check can fire there. *)

From S2P Require Import Prelude Bits.

(** ** Types (oxm/type.hh) *)

Record otype : Type := OType {
  ns : N;
  id : N;
  maskable : bool;
  nbits : N
}.

#[global] Instance otype_eq_dec : EqDecision otype.
Proof. solve_decision. Defined.

Definition nbytes (t : otype) : N :=
  (nbits t / 8 + (if nbits t mod 8 =? 0 then 0 else 1))%N.

(** [operator==]: namespace and id only. *)
Definition type_eqb (lhs rhs : otype) : bool :=
  ((ns lhs =? ns rhs) && (id lhs =? id rhs))%N.

(** What types are compared and hashed by. *)
Definition key : Type := N * N.
Definition tkey (t : otype) : key := (ns t, id t).

(** ** The types of oxm/openflow_basic.hh *)

Definition NON_OPENFLOW : N := 0x7406.
Definition OPENFLOW_BASIC : N := 0x8000.

Definition switch_id : otype := OType NON_OPENFLOW 1 false 64.
Definition out_port : otype := OType NON_OPENFLOW 2 false 32.
Definition in_port : otype := OType OPENFLOW_BASIC 0 false 32.
Definition eth_type : otype := OType OPENFLOW_BASIC 5 false 16.
Definition eth_src : otype := OType OPENFLOW_BASIC 4 true 48.
Definition eth_dst : otype := OType OPENFLOW_BASIC 3 true 48.
Definition ip_proto : otype := OType OPENFLOW_BASIC 10 false 8.
Definition ipv4_src : otype := OType OPENFLOW_BASIC 11 true 32.
Definition ipv4_dst : otype := OType OPENFLOW_BASIC 12 true 32.
Definition tcp_src : otype := OType OPENFLOW_BASIC 13 false 16.
Definition tcp_dst : otype := OType OPENFLOW_BASIC 14 false 16.
Definition udp_src : otype := OType OPENFLOW_BASIC 15 false 16.
Definition udp_dst : otype := OType OPENFLOW_BASIC 16 false 16.
Definition arp_spa : otype := OType OPENFLOW_BASIC 22 true 32.
Definition arp_tpa : otype := OType OPENFLOW_BASIC 23 true 32.
Definition arp_sha : otype := OType OPENFLOW_BASIC 24 true 48.
Definition arp_tha : otype := OType OPENFLOW_BASIC 25 true 48.
Definition arp_op : otype := OType OPENFLOW_BASIC 21 false 16.
Definition vlan_vid : otype := OType OPENFLOW_BASIC 6 false 12.
Definition ipv6_src : otype := OType OPENFLOW_BASIC 26 true 128.
Definition ipv6_dst : otype := OType OPENFLOW_BASIC 27 true 128.
Definition icmp_type : otype := OType OPENFLOW_BASIC 19 false 8.
Definition icmp_code : otype := OType OPENFLOW_BASIC 20 false 8.

(** Every type the program defines. *)
Definition registry : list otype :=
  [ switch_id; out_port; in_port; eth_type; eth_src; eth_dst; ip_proto;
    ipv4_src; ipv4_dst; tcp_src; tcp_dst; udp_src; udp_dst; arp_spa; arp_tpa;
    arp_sha; arp_tha; arp_op; vlan_vid; ipv6_src; ipv6_dst; icmp_type; icmp_code ].

Definition registered (t : otype) : bool := bool_decide (t ∈ registry).

(** ** Values, masks and fields (oxm/field.hh) *)

(** The holders keep bits of exactly the type's width, so the width is not
    stored again: [value_bits] and [mask_bits] put it back. *)
Record value : Type := Value { v_type : otype; v_val : N }.
Record mask : Type := Mask { m_type : otype; m_val : N }.
Record field : Type := Field { f_type : otype; f_val : N; f_msk : N }.

#[global] Instance value_eq_dec : EqDecision value.
Proof. solve_decision. Defined.
#[global] Instance mask_eq_dec : EqDecision mask.
Proof. solve_decision. Defined.
#[global] Instance field_eq_dec : EqDecision field.
Proof. solve_decision. Defined.

Definition value_bits (v : value) : bits := Bits (nbits (v_type v)) (v_val v).
Definition mask_bits (m : mask) : bits := Bits (nbits (m_type m)) (m_val m).
Definition fvalue_bits (f : field) : bits := Bits (nbits (f_type f)) (f_val f).
Definition fmask_bits (f : field) : bits := Bits (nbits (f_type f)) (f_msk f).

(** [value_holder] and [mask_holder] constructors. *)
Definition value_holder (t : otype) (b : bits) : res N :=
  if (bsize b =? nbits t)%N then Ok (bval b) else Throw BadBitLength.

Definition mask_holder (t : otype) (b : bits) : res N :=
  if negb (bsize b =? nbits t)%N then Throw BadBitLength
  else if negb (maskable t) && negb (all b || none b) then Throw BadMask
  else Ok (bval b).

Definition mk_value (t : otype) (b : bits) : res value := Value t <$> value_holder t b.
Definition mk_mask (t : otype) (b : bits) : res mask := Mask t <$> mask_holder t b.

(** The main [field] constructor: [m_value &= m_mask]. *)
Definition mk_field (t : otype) (v m : bits) : res field :=
  v' ← value_holder t v;
  m' ← mask_holder t m;
  Ok (Field t (N.land v' m') m').

(** Wildcard and exact-match constructors. *)
Definition field_wildcard (t : otype) : res field :=
  mk_field t (bits_zero (nbits t)) (bits_zero (nbits t)).
Definition field_exact (t : otype) (v : bits) : res field :=
  mk_field t v (set_all (bits_zero (nbits t))).
Definition mask_exact (t : otype) : res mask :=
  mk_mask t (set_all (bits_zero (nbits t))).
Definition field_of_value (v : value) : res field :=
  field_exact (v_type v) (value_bits v).

(** [value(field)], [mask(field)] *)
Definition value_of (f : field) : value := Value (f_type f) (f_val f).
Definition mask_of (f : field) : mask := Mask (f_type f) (f_msk f).

(** [exact], [wildcard], [fuzzy] *)
Definition exact (b : bits) : bool := all b.
Definition wildcard (b : bits) : bool := none b.
Definition fuzzy (b : bits) : bool := negb (exact b || wildcard b).

Definition f_exact (f : field) : bool := exact (fmask_bits f).
Definition f_wildcard (f : field) : bool := wildcard (fmask_bits f).

(** ** Operators *)

(** [binop_type_func<type, type>] *)
Definition binop_type (lhs rhs : otype) : res otype :=
  if type_eqb lhs rhs then Ok lhs else Throw BadOperands.

(** comparison *)
Definition mask_eqb (lhs rhs : mask) : bool :=
  type_eqb (m_type lhs) (m_type rhs) && bits_eqb (mask_bits lhs) (mask_bits rhs).
Definition value_eqb (lhs rhs : value) : bool :=
  type_eqb (v_type lhs) (v_type rhs) && bits_eqb (value_bits lhs) (value_bits rhs).
Definition field_eqb (lhs rhs : field) : bool :=
  type_eqb (f_type lhs) (f_type rhs)
  && bits_eqb (fvalue_bits lhs) (fvalue_bits rhs)
  && bits_eqb (fmask_bits lhs) (fmask_bits rhs).

(** bit operations on masks *)
Definition mask_not (rhs : mask) : res mask := mk_mask (m_type rhs) (flip (mask_bits rhs)).
Definition mask_or (lhs rhs : mask) : res mask :=
  t ← binop_type (m_type lhs) (m_type rhs); mk_mask t (bor (mask_bits lhs) (mask_bits rhs)).
Definition mask_xor (lhs rhs : mask) : res mask :=
  t ← binop_type (m_type lhs) (m_type rhs); mk_mask t (bxor (mask_bits lhs) (mask_bits rhs)).
Definition mask_and (lhs rhs : mask) : res mask :=
  t ← binop_type (m_type lhs) (m_type rhs); mk_mask t (band (mask_bits lhs) (mask_bits rhs)).

(** construct: [value & mask] *)
Definition value_and_mask (lhs : value) (rhs : mask) : res field :=
  t ← binop_type (v_type lhs) (m_type rhs); mk_field t (value_bits lhs) (mask_bits rhs).

(** widen: [field & mask] *)
Definition field_and_mask (lhs : field) (rhs : mask) : res field :=
  t ← binop_type (f_type lhs) (m_type rhs);
  mk_field t (fvalue_bits lhs) (band (fmask_bits lhs) (mask_bits rhs)).

(** match *)
Definition value_match_value (lhs rhs : value) : res bool :=
  _ ← binop_type (v_type lhs) (v_type rhs); Ok (value_eqb lhs rhs).

Definition field_match_value (lhs : field) (rhs : value) : res bool :=
  _ ← binop_type (f_type lhs) (v_type rhs);
  f ← value_and_mask rhs (mask_of lhs);
  Ok (field_eqb lhs f).

Definition field_match_field (lhs rhs : field) : res bool :=
  m ← mask_and (mask_of lhs) (mask_of rhs);
  l ← value_and_mask (value_of lhs) m;
  r ← value_and_mask (value_of rhs) m;
  Ok (field_eqb l r).

(** rewrite *)
Definition field_rewrite_value (lhs : field) (rhs : value) : res value :=
  _ ← binop_type (f_type lhs) (v_type rhs); Ok rhs.

Definition value_rewrite_field (lhs : value) (rhs : field) : res value :=
  t ← binop_type (v_type lhs) (f_type rhs);
  mk_value t (bor (band (value_bits lhs) (flip (fmask_bits rhs))) (fvalue_bits rhs)).

Definition value_rewrite_value (lhs rhs : value) : res value :=
  _ ← binop_type (v_type lhs) (v_type rhs); Ok rhs.

Definition field_rewrite_field (lhs rhs : field) : res field :=
  v ← value_rewrite_field (value_of lhs) rhs;
  m ← mask_or (mask_of lhs) (mask_of rhs);
  value_and_mask v m.

(** Downcasts to [field<T>], [mask<T>] and [value<T>]. *)
Definition field_cast (t : otype) (f : field) : res field :=
  if negb (type_eqb (f_type f) t) then Throw BadCast
  else v ← to_static (nbits t) (fvalue_bits f);
       m ← to_static (nbits t) (fmask_bits f);
       mk_field t v m.
Definition mask_cast (t : otype) (m : mask) : res mask :=
  if negb (type_eqb (m_type m) t) then Throw BadCast
  else b ← to_static (nbits t) (mask_bits m); mk_mask t b.
Definition value_cast (t : otype) (v : value) : res value :=
  if negb (type_eqb (v_type v) t) then Throw BadCast
  else b ← to_static (nbits t) (value_bits v); mk_value t b.

(** [type & mask_val], [type == val], [mask == val] *)
Definition type_and_mask (t : otype) (m : bits) : res mask := mk_mask t m.
Definition type_eq_value (t : otype) (v : bits) : res value := mk_value t v.
Definition mask_eq_value (m : mask) (v : bits) : res field :=
  mk_field (m_type m) v (mask_bits m).

(** ** Well-formedness *)

Definition msk_ok (t : otype) (m : N) : Prop :=
  m ⊑b N.ones (nbits t) ∧
  (maskable t = true ∨ m = 0%N ∨ m = N.ones (nbits t)).

Definition value_wf (v : value) : Prop := v_val v ⊑b N.ones (nbits (v_type v)).
Definition mask_wf (m : mask) : Prop := msk_ok (m_type m) (m_val m).
Definition field_wf (f : field) : Prop := msk_ok (f_type f) (f_msk f) ∧ f_val f ⊑b f_msk f.

(** [v] is a value of the whole type that the field matches. *)
Definition sat (v : N) (f : field) : Prop := N.land v (f_msk f) = f_val f.

(** ** What the operators compute on operands of one type *)

Definition mnot (m : mask) : mask :=
  Mask (m_type m) (N.ldiff (N.ones (nbits (m_type m))) (m_val m)).
Definition mor (a b : mask) : mask := Mask (m_type a) (N.lor (m_val a) (m_val b)).
Definition mand (a b : mask) : mask := Mask (m_type a) (N.land (m_val a) (m_val b)).
Definition fwiden (f : field) (m : mask) : field :=
  Field (f_type f) (N.land (f_val f) (m_val m)) (N.land (f_msk f) (m_val m)).
Definition fpatch (f g : field) : field :=
  Field (f_type f) (N.lor (N.ldiff (f_val f) (f_msk g)) (f_val g)) (N.lor (f_msk f) (f_msk g)).
Definition fmatch (f g : field) : bool :=
  (N.land (f_val f) (f_msk g) =? N.land (f_val g) (f_msk f))%N.

(** ** The registry *)

Lemma registered_spec t : registered t = true ↔ t ∈ registry.
Proof. unfold registered. apply bool_decide_eq_true. Qed.

Lemma registry_keys_inj a b :
  registered a = true → registered b = true → type_eqb a b = true → a = b.
Proof.
  rewrite !registered_spec. intros Ha Hb.
  assert (H : forallb (λ a, forallb (λ b, implb (type_eqb a b) (bool_decide (a = b)))
    registry) registry = true) by (vm_compute; reflexivity).
  rewrite forallb_forall in H. apply list_elem_of_In in Ha, Hb.
  specialize (H _ Ha). rewrite forallb_forall in H. specialize (H _ Hb).
  intros E. rewrite E in H. by apply bool_decide_eq_true in H.
Qed.

Lemma ones_registered t : registered t = true → N.ones (nbits t) ≠ 0%N.
Proof.
  intros Hr. apply registered_spec in Hr.
  assert (H : forallb (λ t, negb (N.ones (nbits t) =? 0)%N) registry = true) by by vm_compute.
  rewrite forallb_forall in H. apply list_elem_of_In in Hr. specialize (H _ Hr).
  by apply negb_true_iff, N.eqb_neq in H.
Qed.

Lemma type_eqb_refl t : type_eqb t t = true.
Proof. unfold type_eqb. by rewrite !N.eqb_refl. Qed.

Lemma type_eqb_key a b : type_eqb a b = true ↔ tkey a = tkey b.
Proof.
  unfold type_eqb, tkey. rewrite andb_true_iff, !N.eqb_eq.
  split; [by intros [-> ->] | by intros [= -> ->]].
Qed.

Lemma type_eqb_sym a b : type_eqb a b = type_eqb b a.
Proof. unfold type_eqb. by rewrite (N.eqb_sym (ns a)), (N.eqb_sym (id a)). Qed.

#[export] Hint Resolve type_eqb_refl : runos.

(** ** The checks pass on well-formed operands *)

Lemma msk_ok_0 t : msk_ok t 0.
Proof. split; auto with runos. Qed.
Lemma msk_ok_ones t : msk_ok t (N.ones (nbits t)).
Proof. split; auto with runos. Qed.
Lemma msk_ok_and t a b : msk_ok t a → msk_ok t b → msk_ok t (N.land a b).
Proof.
  intros [Ha Ca] [Hb Cb]. split; [auto with runos |].
  destruct Ca as [? | [-> | ->]]; [by left | right; left; by apply N.land_0_l |].
  destruct Cb as [? | [-> | ->]]; [by left | right; left; by apply N.land_0_r |].
  right; right. apply N.land_diag.
Qed.
Lemma msk_ok_or t a b : msk_ok t a → msk_ok t b → msk_ok t (N.lor a b).
Proof.
  intros [Ha Ca] [Hb Cb]. split; [auto with runos |].
  destruct Ca as [? | [-> | ->]]; [by left | by rewrite N.lor_0_l |].
  destruct Cb as [? | [-> | ->]];
    [by left | right; right; by rewrite N.lor_0_r | right; right; apply N.lor_diag].
Qed.
Lemma msk_ok_not t a : msk_ok t a → msk_ok t (N.ldiff (N.ones (nbits t)) a).
Proof.
  intros [Ha Ca]. split; [auto with runos |].
  destruct Ca as [? | [-> | ->]]; [by left | right; right; apply N.ldiff_0_r |].
  right; left. apply N.ldiff_diag.
Qed.
#[export] Hint Resolve msk_ok_0 msk_ok_ones msk_ok_and msk_ok_or msk_ok_not : runos.

Lemma value_holder_ok t n : value_holder t (Bits (nbits t) n) = Ok n.
Proof. unfold value_holder. cbn. by rewrite N.eqb_refl. Qed.

Lemma mask_holder_ok t n : msk_ok t n → mask_holder t (Bits (nbits t) n) = Ok n.
Proof.
  intros [_ C]. unfold mask_holder, all, none. cbn. rewrite N.eqb_refl. cbn.
  destruct C as [-> | [-> | ->]]; [done | |];
    rewrite ?N.eqb_refl, ?orb_true_r, ?andb_false_r; done.
Qed.

Lemma mk_field_ok t v m :
  msk_ok t m → mk_field t (Bits (nbits t) v) (Bits (nbits t) m) = Ok (Field t (N.land v m) m).
Proof.
  intros H. unfold mk_field. rewrite value_holder_ok. cbn. by rewrite mask_holder_ok.
Qed.

Lemma mk_mask_ok t m : msk_ok t m → mk_mask t (Bits (nbits t) m) = Ok (Mask t m).
Proof. intros H. unfold mk_mask. by rewrite mask_holder_ok. Qed.

Lemma mk_field_wf t v m f :
  mk_field t v m = Ok f → bits_wf m → field_wf f ∧ f_type f = t.
Proof.
  unfold mk_field, value_holder, mask_holder, all, none. intros H Hm.
  repeat case_match; inv_res; try discriminate. cbn. split; [| done].
  split; [split; cbn | cbn; auto with runos].
  - rewrite negb_false_iff, N.eqb_eq in *. match goal with H : bsize m = _ |- _ => rewrite <- H end.
    exact Hm.
  - destruct (maskable t); [by left |]. cbn in *. rewrite negb_false_iff in *.
    rewrite orb_true_iff, !N.eqb_eq in *. right.
    match goal with H : bsize m = _ |- _ => rewrite <- H end. tauto.
Qed.

Lemma field_wildcard_ok t : field_wildcard t = Ok (Field t 0 0).
Proof. unfold field_wildcard, bits_zero. by rewrite mk_field_ok by auto with runos. Qed.

Lemma field_exact_ok t v :
  v ⊑b N.ones (nbits t) →
  field_exact t (Bits (nbits t) v) = Ok (Field t v (N.ones (nbits t))).
Proof.
  intros H. unfold field_exact, set_all, bits_zero. cbn [bsize].
  rewrite mk_field_ok by auto with runos. by rewrite H.
Qed.

Lemma binop_type_refl t : binop_type t t = Ok t.
Proof. unfold binop_type. by rewrite type_eqb_refl. Qed.

Lemma mask_not_ok m : mask_wf m → mask_not m = Ok (mnot m).
Proof. intros H. unfold mask_not, flip. cbn. by rewrite mk_mask_ok by auto with runos. Qed.

Lemma mask_or_ok a b :
  mask_wf a → mask_wf b → m_type a = m_type b → mask_or a b = Ok (mor a b).
Proof.
  intros Ha Hb E. unfold mask_or. rewrite E, binop_type_refl. cbn.
  unfold bor. cbn. rewrite E, mk_mask_ok.
  - unfold mor. by rewrite E.
  - unfold mask_wf in *. rewrite E in Ha. auto with runos.
Qed.

Lemma mask_and_ok a b :
  mask_wf a → mask_wf b → m_type a = m_type b → mask_and a b = Ok (mand a b).
Proof.
  intros Ha Hb E. unfold mask_and. rewrite E, binop_type_refl. cbn.
  unfold band. cbn. rewrite E, mk_mask_ok.
  - unfold mand. by rewrite E.
  - unfold mask_wf in *. rewrite E in Ha. auto with runos.
Qed.

Lemma value_and_mask_ok v m :
  mask_wf m → v_type v = m_type m →
  value_and_mask v m = Ok (Field (v_type v) (N.land (v_val v) (m_val m)) (m_val m)).
Proof.
  intros Hm E. unfold value_and_mask. rewrite E, binop_type_refl. cbn.
  unfold value_bits, mask_bits. rewrite E, mk_field_ok by done. done.
Qed.

Lemma field_and_mask_ok f m :
  field_wf f → mask_wf m → f_type f = m_type m →
  field_and_mask f m = Ok (fwiden f m) ∧ field_wf (fwiden f m).
Proof.
  intros [Hf Hv] Hm E. unfold mask_wf in Hm. rewrite <- E in Hm. split.
  - unfold field_and_mask. rewrite E, binop_type_refl. cbn.
    unfold fvalue_bits, fmask_bits, band. cbn. rewrite <- E, mk_field_ok by auto with runos.
    unfold fwiden. f_equal. f_equal. rewrite N.land_assoc. by rewrite Hv.
  - split; cbn; [auto with runos |]. by apply land_mono_both.
Qed.

Lemma fpatch_val_sub o vf mf vg mg :
  vf ⊑b mf → mf ⊑b o → vg ⊑b mg →
  N.land (N.lor (N.land vf (N.ldiff o mg)) vg) (N.lor mf mg) = N.lor (N.ldiff vf mg) vg.
Proof.
  intros Hf Ho Hg. apply N.bits_inj. intros i.
  rewrite bits_sub_spec in Hf. rewrite bits_sub_spec in Hg. rewrite bits_sub_spec in Ho.
  specialize (Hf i). specialize (Hg i). specialize (Ho i).
  rewrite ?N.land_spec, ?N.lor_spec, ?N.land_spec, ?N.ldiff_spec, ?N.land_spec, ?N.ldiff_spec.
  destruct (N.testbit vf i), (N.testbit mf i), (N.testbit vg i),
    (N.testbit mg i), (N.testbit o i); cbn; intuition congruence.
Qed.

Lemma field_rewrite_ok f g :
  field_wf f → field_wf g → f_type f = f_type g →
  field_rewrite_field f g = Ok (fpatch f g) ∧ field_wf (fpatch f g).
Proof.
  destruct f as [t vf mf], g as [t' vg mg]. intros [Hf Hfv] [Hg Hgv] E. cbn in *. subst t'.
  split.
  - unfold field_rewrite_field, value_rewrite_field, mk_value, flip, bor, band. cbn.
    rewrite binop_type_refl. cbn. rewrite value_holder_ok. cbn.
    rewrite mask_or_ok by done. cbn.
    rewrite value_and_mask_ok; [| by apply msk_ok_or | done].
    unfold fpatch. cbn. f_equal. f_equal. apply fpatch_val_sub; [done | apply Hf | done].
  - split; cbn; [by apply msk_ok_or |]. apply lor_sub.
    + apply ldiff_sub_mono. eapply bits_sub_trans; [exact Hfv | apply lor_sub_l].
    + eapply bits_sub_trans; [exact Hgv | apply lor_sub_r].
Qed.

Lemma fmatch_code f g :
  f_val f ⊑b f_msk f → f_val g ⊑b f_msk g →
  (N.land (f_val f) (N.land (f_msk f) (f_msk g)) =? N.land (f_val g) (N.land (f_msk f) (f_msk g)))%N
  = fmatch f g.
Proof.
  intros Hf Hg. unfold fmatch. f_equal.
  - by rewrite N.land_assoc, Hf.
  - rewrite (N.land_comm (f_msk f)), N.land_assoc. by rewrite Hg.
Qed.

Lemma field_match_ok f g :
  field_wf f → field_wf g → f_type f = f_type g →
  field_match_field f g = Ok (fmatch f g).
Proof.
  intros [Hf Hfv] [Hg Hgv] E. unfold field_match_field.
  assert (Hmf : mask_wf (mask_of f)) by done. assert (Hmg : mask_wf (mask_of g)) by done.
  rewrite mask_and_ok by done. cbn.
  assert (Hm : mask_wf (mand (mask_of f) (mask_of g))).
  { unfold mask_wf, mand in *. cbn in *. rewrite E in *. auto with runos. }
  rewrite !value_and_mask_ok by done. cbn. unfold field_eqb, bits_eqb. cbn.
  rewrite E, type_eqb_refl, !N.eqb_refl. cbn. rewrite andb_true_r.
  f_equal. by apply fmatch_code.
Qed.

Lemma field_eqb_eq f g :
  registered (f_type f) = true → registered (f_type g) = true →
  field_eqb f g = true ↔ f = g.
Proof.
  intros Hf Hg. destruct f as [t v m], g as [t' v' m']. unfold field_eqb. cbn in *.
  rewrite !andb_true_iff. split.
  - intros [[Ht Hv] Hm]. pose proof (registry_keys_inj _ _ Hf Hg Ht) as ->.
    apply bits_eqb_eq in Hv, Hm. unfold fvalue_bits, fmask_bits in *. cbn in *.
    by simplify_eq.
  - intros [= -> -> ->]. rewrite type_eqb_refl, !(proj2 (bits_eqb_eq _ _)); done.
Qed.

Lemma mask_eqb_eq a b :
  registered (m_type a) = true → registered (m_type b) = true →
  mask_eqb a b = true ↔ a = b.
Proof.
  intros Ha Hb. destruct a as [t m], b as [t' m']. unfold mask_eqb. cbn in *.
  rewrite andb_true_iff. split.
  - intros [Ht Hm]. pose proof (registry_keys_inj _ _ Ha Hb Ht) as ->.
    apply bits_eqb_eq in Hm. unfold mask_bits in *. cbn in *. by simplify_eq.
  - intros [= -> ->]. rewrite type_eqb_refl, (proj2 (bits_eqb_eq _ _)); done.
Qed.

(** ** Bit-level laws of widening, patching and matching *)

Lemma sat_fpatch v f g :
  f_val f ⊑b f_msk f → f_val g ⊑b f_msk g →
  sat v f → sat v g → sat v (fpatch f g).
Proof.
  unfold sat. cbn. intros Hf Hg <- <-. rewrite N.land_lor_distr_r. Nbits.
Qed.

Lemma sat_fwiden v f m : sat v f → sat v (fwiden f m).
Proof. unfold sat. cbn. intros <-. by rewrite N.land_assoc. Qed.

Lemma fmatch_sym f g : fmatch f g = fmatch g f.
Proof. unfold fmatch. apply N.eqb_sym. Qed.

Lemma sat_fmatch v f g : sat v f → sat v g → fmatch f g = true.
Proof. unfold sat, fmatch. intros <- <-. apply N.eqb_eq. Nbits. Qed.

(** An exact field: every bit is known. *)
Definition fexact (f : field) : Prop := f_msk f = N.ones (nbits (f_type f)).

Lemma f_exact_spec f : f_exact f = true ↔ fexact f.
Proof. unfold f_exact, exact, all, fexact. cbn. apply N.eqb_eq. Qed.

(** ** Properties *)

(** on well-formed operands of one type no operator throws, and each
    returns a well-formed result: masks of unmaskable types stay all-ones or
    all-zero, values stay inside their masks. *)
Theorem operators_never_throw f g m :
  field_wf f → field_wf g → mask_wf m → f_type f = f_type g → f_type f = m_type m →
  (∃ w, field_and_mask f m = Ok w ∧ field_wf w) ∧
  (∃ w, field_rewrite_field f g = Ok w ∧ field_wf w) ∧
  (∃ b, field_match_field f g = Ok b) ∧
  (∃ n, mask_not m = Ok n ∧ mask_wf n) ∧
  (∃ n, mask_or (mask_of f) m = Ok n ∧ mask_wf n) ∧
  (∃ n, mask_and (mask_of f) m = Ok n ∧ mask_wf n) ∧
  (∃ w, value_and_mask (value_of f) m = Ok w ∧ field_wf w).
Proof.
  intros Hf Hg Hm Efg Efm. pose proof Hf as [Hf1 Hf2].
  assert (Hmf : mask_wf (mask_of f)) by done.
  split_and!.
  - eexists. by apply field_and_mask_ok.
  - eexists. by apply field_rewrite_ok.
  - eexists. by apply field_match_ok.
  - eexists. split; [by apply mask_not_ok |]. by apply msk_ok_not.
  - eexists. split; [by apply mask_or_ok |].
    unfold mask_wf, mor in *. cbn in *. rewrite Efm in *. auto with runos.
  - eexists. split; [by apply mask_and_ok |].
    unfold mask_wf, mand in *. cbn in *. rewrite Efm in *. auto with runos.
  - eexists. split; [by apply value_and_mask_ok |].
    unfold mask_wf in Hm. rewrite <- Efm in Hm. split; cbn; auto with runos.
Qed.

Lemma operators_never_throw_witness :
  ∃ b, field_match_field (Field ipv4_src 0x0a000000 0xff000000)
                         (Field ipv4_src 0x0a000001 0xffffffff) = Ok b.
Proof.
  eapply (operators_never_throw _ _ (Mask ipv4_src 0));
    try reflexivity; repeat split; try (by vm_compute); by left.
Defined.

(** two fields match exactly when some value of the type satisfies both. *)
Theorem match_iff_common_value f g b :
  field_wf f → field_wf g → f_type f = f_type g →
  field_match_field f g = Ok b →
  (b = true ↔ ∃ v, v ⊑b N.ones (nbits (f_type f)) ∧ sat v f ∧ sat v g).
Proof.
  intros Hf Hg E Hb. rewrite field_match_ok in Hb by done. injection Hb as <-.
  destruct Hf as [[Hf _] Hfv], Hg as [[Hg _] Hgv]. rewrite <- E in Hg. split.
  - intros Hm. exists (N.lor (f_val f) (f_val g)). split_and!.
    + apply lor_sub; eapply bits_sub_trans; eauto.
    + unfold sat, fmatch in *. apply N.eqb_eq in Hm.
      rewrite N.land_lor_distr_l, <- Hm, Hfv. Nbits.
    + unfold sat, fmatch in *. apply N.eqb_eq in Hm.
      rewrite N.land_lor_distr_l, Hm, Hgv. Nbits.
  - intros (v & _ & H1 & H2). by eapply sat_fmatch.
Qed.

Lemma match_iff_common_value_witness :
  true = true ↔ ∃ v, v ⊑b N.ones 32 ∧
    sat v (Field ipv4_src 0x0a000000 0xff000000) ∧ sat v (Field ipv4_src 0x0a000001 0xffffffff).
Proof.
  apply (match_iff_common_value (Field ipv4_src 0x0a000000 0xff000000)
    (Field ipv4_src 0x0a000001 0xffffffff) true);
    try reflexivity; repeat split; try (by vm_compute); by left.
Defined.

(** rewriting is associative, the patch's bits win, the other bits are
    kept, and a field rewritten by a patch matches the patch. *)
Theorem rewrite_laws f g h fg :
  field_wf f → field_wf g → field_wf h → f_type f = f_type g → f_type g = f_type h →
  field_rewrite_field f g = Ok fg →
  (field_rewrite_field fg h = (r ← field_rewrite_field g h; field_rewrite_field f r)) ∧
  fwiden fg (mask_of g) = g ∧
  fwiden fg (mnot (mask_of g)) = fwiden f (mnot (mask_of g)) ∧
  field_match_field fg g = Ok true.
Proof.
  intros Hf Hg Hh E1 E2 Hfg.
  destruct (field_rewrite_ok f g) as [E Hw]; [done.. |]. rewrite E in Hfg. injection Hfg as <-.
  destruct (field_rewrite_ok g h) as [E' Hw']; [done.. |].
  destruct (field_rewrite_ok (fpatch f g) h) as [E3 _]; [done | done | cbn; congruence |].
  destruct (field_rewrite_ok f (fpatch g h)) as [E4 _]; [done | done | done |].
  rewrite E3, E', field_match_ok; [| done | done | done]. cbn [mbind res_bind]. rewrite E4.
  destruct Hf as [[Hfo _] Hfv], Hg as [_ Hgv], Hh as [_ Hhv].
  destruct f as [t vf mf], g as [t2 vg mg], h as [t3 vh mh]. cbn in *. subst t2 t3.
  unfold fpatch, fwiden, fmatch, mask_of, mnot. cbn.
  split_and!.
  - do 2 f_equal; Nbits.
  - f_equal.
    + rewrite N.land_lor_distr_l, Hgv. Nbits.
    + Nbits.
  - f_equal.
    + rewrite N.land_lor_distr_l. unfold bits_sub in Hgv. rewrite <- Hgv. Nbits.
    + rewrite N.land_lor_distr_l. Nbits.
  - f_equal. apply N.eqb_eq. unfold bits_sub in Hgv. rewrite <- Hgv. Nbits.
Qed.

Lemma rewrite_laws_witness :
  fwiden (Field eth_src 0xaabb00000001 0xffffffffffff) (mask_of (Field eth_src 0xaabb00000000 0xffff00000000))
  = Field eth_src 0xaabb00000000 0xffff00000000.
Proof.
  eapply (rewrite_laws (Field eth_src 0x112200000001 0xffffffffffff)
    (Field eth_src 0xaabb00000000 0xffff00000000) (Field eth_src 0 0));
    try reflexivity; repeat split; try (by vm_compute); by left.
Defined.
