(* ===== verification/FluidOxm.v ===== *)
(** * FluidOxm: fields on the wire, FluidOXMAdapter.hh and .cc

    An adapter is a field with the header that libfluid keeps for it; the four
    bytes of a header, and how libfluid reads them back, are a class with its
    laws, of which the format of OpenFlow is an instance.  Buffers are places
    in a memory of bytes.

    What is packed is unpacked ([oxm_wire_roundtrip]), and a switch that
    compares bytes under the mask it gets matches what the field matches
    ([wire_matches]).  VLAN ids go out without the bit that OpenFlow has for
    tagged packets ([vlan_id_without_present]). *)

From S2P Require Import Prelude Bits Oxm.

Definition NXM_0 : N := 0.
Definition NXM_1 : N := 1.
Definition EXPERIMENTER : N := 0xffff.

Definition OFP_OXM_HEADER_LEN : Z := 4.

(** What OXMTLV keeps. *)
Record tlv : Type := Tlv { class_ : N; field_id : N; has_mask_ : bool; length_ : N }.

Definition tlv_ok (t : tlv) : Prop := (class_ t < 2 ^ 16 ∧ field_id t < 2 ^ 7 ∧ length_ t < 2 ^ 8)%N.

(** [OXMTLV::pack] and [unpack]. *)
Class Wire : Type := {
  pack_header : tlv → list N;
  unpack_header : memory → Z → tlv
}.

Class WireLaws `{W : Wire} : Prop := {
  header_length t : length (pack_header t) = 4%nat;
  header_bytes t : Forall (λ x, x ⊑b 255%N) (pack_header t);
  header_read t mem p : tlv_ok t → unpack_header (mem_write mem p (pack_header t)) p = t;
  header_local mem mem' p : (∀ a, p ≤ a < p + 4 → mem a = mem' a)%Z → unpack_header mem p = unpack_header mem' p
}.

Record adapter : Type := Adapter { header : tlv; field_ : field }.

Section Adapter.
Context `{W : Wire}.

(** The constructor. *)
Definition FluidOXMAdapter (f : field) : res adapter :=
  let t := f_type f in
  let tl := Tlv (wrap 16 (ns t)) (wrap 8 (id t)) (negb (f_exact f)) (wrap 8 (nbytes t * (if f_exact f then 1 else 2))) in
  _ ← require (bool_decide (ns t ∈ [NXM_0; NXM_1; OPENFLOW_BASIC; EXPERIMENTER])) RuntimeError;
  Ok (Adapter tl f).

Definition equals (a b : adapter) : bool := field_eqb (field_ a) (field_ b).

Definition value_at (p : Z) : Z := (p + OFP_OXM_HEADER_LEN)%Z.
Definition mask_at (t : otype) (p : Z) : Z := (p + OFP_OXM_HEADER_LEN + Z.of_N (nbytes t))%Z.

Definition pack (a : adapter) (mem : memory) (p : Z) : memory :=
  let f := field_ a in
  let mem := mem_write mem p (pack_header (header a)) in
  let mem := mem_write mem (value_at p) (to_buffer (fvalue_bits f)) in
  if negb (f_exact f) then mem_write mem (mask_at (f_type f) p) (to_buffer (fmask_bits f)) else mem.

(** Of the type the adapter has; nothing is left of its old value. *)
Definition unpack (a : adapter) (mem : memory) (p : Z) : res adapter :=
  let t := f_type (field_ a) in
  let tl := unpack_header mem p in
  let value_bits := from_buffer (nbits t) mem (value_at p) in
  f ← (if has_mask_ tl then mk_field t value_bits (from_buffer (nbits t) mem (mask_at t p)) else field_exact t value_bits);
  Ok (Adapter tl f).

Fixpoint make_of_match (fs : list field) : res (list adapter) :=
  match fs with
  | [] => Ok []
  | f :: fs => a ← FluidOXMAdapter f; l ← make_of_match fs; Ok (a :: l)
  end.

(** ** Reading what was written *)

Lemma write_far mem p l a : (a < p ∨ p + Z.of_nat (length l) ≤ a)%Z → mem_write mem p l a = mem a.
Proof.
  intros H. unfold mem_write. destruct (_ && _) eqn:E; [| done]. apply andb_true_iff in E as [H1%Z.leb_le H2%Z.ltb_lt]. lia.
Qed.

Lemma blocks_bytes t : num_blocks (nbits t) = nbytes t.
Proof. done. Qed.

Lemma length_value t v : Z.of_nat (length (to_buffer (Bits (nbits t) v))) = Z.of_N (nbytes t).
Proof. rewrite length_to_buffer. cbn [bsize]. rewrite blocks_bytes. lia. Qed.

(** A field only reads its own bytes, and the one before, which does not matter. *)
Lemma from_buffer_local n mem mem' p : (∀ a, mem a ⊑b 255%N) → (∀ a, mem' a ⊑b 255%N) →
  (∀ a, p ≤ a < p + Z.of_N (num_blocks n) → mem a = mem' a)%Z → from_buffer n mem p = from_buffer n mem' p.
Proof.
  intros Hm Hm' H. rewrite !from_buffer_body by done. do 3 f_equal. apply list_fmap_ext. intros i x Hx.
  apply lookup_seq in Hx as [-> Hi]. apply H. lia.
Qed.

Definition type_ok (t : otype) : Prop := (id t < 2 ^ 7 ∧ ns t < 2 ^ 16 ∧ nbytes t < 2 ^ 7)%N.

Lemma adapter_of f a : FluidOXMAdapter f = Ok a → type_ok (f_type f) →
  field_ a = f ∧ has_mask_ (header a) = negb (f_exact f) ∧ tlv_ok (header a) ∧ ns (f_type f) ≠ NON_OPENFLOW.
Proof.
  unfold FluidOXMAdapter. intros H (H1 & H2 & H3). inv_res. apply bool_decide_eq_true in H.
  split_and!; [done | done | | by intros E; rewrite E in H; revert H; apply (bool_decide_unpack _); vm_compute].
  split_and!; cbn; rewrite wrap_id; destruct (f_exact f); cbn -[N.pow N.mul] in *;
    change (2 ^ 8)%N with 256%N; change (2 ^ 7)%N with 128%N in *; lia.
Qed.

Context `{WL : !WireLaws}.

Lemma written_value mem p t v q l : (∀ a, mem a ⊑b 255%N) → v ⊑b N.ones (nbits t) →
  Forall (λ x, x ⊑b 255%N) l → (p + Z.of_N (nbytes t) ≤ q)%Z →
  from_buffer (nbits t) (mem_write (mem_write mem p (to_buffer (Bits (nbits t) v))) q l) p = Bits (nbits t) v.
Proof.
  intros Hm Hv Hl Hq. pose proof (to_buffer_bytes (Bits (nbits t) v)) as Hb.
  rewrite <- (from_to_buffer (Bits (nbits t) v) mem p Hv Hm) at 2. apply from_buffer_local.
  - intros a. apply mem_write_bytes; [intros b; by apply mem_write_bytes | done].
  - intros a. by apply mem_write_bytes.
  - cbn [bsize]. intros a Ha. rewrite blocks_bytes in Ha. apply write_far. lia.
Qed.

Lemma field_exact_all t v : v ⊑b N.ones (nbits t) → field_exact t (Bits (nbits t) v) = Ok (Field t v (N.ones (nbits t))).
Proof.
  intros Hv. unfold field_exact. change (set_all (bits_zero (nbits t))) with (Bits (nbits t) (N.ones (nbits t))).
  rewrite mk_field_ok by apply msk_ok_ones. by rewrite (Hv : N.land v _ = v).
Qed.

(** An adapter of the same type gets the header and the field. *)
Lemma unpack_pack a b mem p : type_ok (f_type (field_ a)) → field_wf (field_ a) → tlv_ok (header a) →
  has_mask_ (header a) = negb (f_exact (field_ a)) → (∀ x, mem x ⊑b 255%N) →
  f_type (field_ b) = f_type (field_ a) → unpack b (pack a mem p) p = Ok a.
Proof.
  destruct a as [h [t v m]]. cbn [field_ header f_type]. intros Ht [Hk Hv] Htl Hmask Hm Eb. cbn [f_type f_val f_msk] in *.
  assert (Hv' : v ⊑b N.ones (nbits t)) by (eapply bits_sub_trans; [exact Hv | apply Hk]).
  set (mem1 := mem_write mem p (pack_header h)).
  assert (Hm1 : ∀ x, mem1 x ⊑b 255%N) by (intros x; apply mem_write_bytes; [done | apply header_bytes]).
  assert (Hh : ∀ mem2, (∀ x, p ≤ x < p + 4 → mem2 x = mem1 x)%Z → unpack_header mem2 p = h).
  { intros mem2 H2. rewrite (header_local mem2 mem1 p H2). by apply header_read. }
  set (mem2 := mem_write mem1 (value_at p) (to_buffer (Bits (nbits t) v))).
  assert (Hm2 : ∀ x, mem2 x ⊑b 255%N) by (intros x; apply mem_write_bytes; [done | apply to_buffer_bytes]).
  unfold unpack, pack. cbn [field_ header f_type]. rewrite Eb. fold mem1.
  change (fvalue_bits (Field t v m)) with (Bits (nbits t) v). change (fmask_bits (Field t v m)) with (Bits (nbits t) m). fold mem2.
  unfold value_at, mask_at, OFP_OXM_HEADER_LEN in *. change (f_exact (Field t v m)) with (m =? N.ones (nbits t))%N in *.
  destruct (N.eqb_spec m (N.ones (nbits t))) as [-> | Hne]; cbn [negb] in *.
  - rewrite Hh by (intros x Hx; apply write_far; lia). rewrite Hmask. unfold mem2.
    rewrite (from_to_buffer (Bits (nbits t) v) mem1 (p + 4)%Z Hv' Hm1 : from_buffer (nbits t) _ _ = _).
    by rewrite field_exact_all.
  - rewrite Hh by (intros x Hx; rewrite write_far by lia; apply write_far; lia). rewrite Hmask.
    unfold mem2 at 1. rewrite written_value by (done || apply to_buffer_bytes || lia).
    rewrite (from_to_buffer (Bits (nbits t) m) mem2 _ (proj1 Hk) Hm2 : from_buffer (nbits t) _ _ = _).
    rewrite mk_field_ok by done. by rewrite (Hv : N.land v m = v).
Qed.

(** ** Bytes under a mask *)

(** What a switch does with a value of the packet, given as bytes. *)
Definition wire_match (value : list N) (mask : option (list N)) (packet : list N) : bool :=
  bool_decide (match mask with Some mask => zip_with N.land packet mask | None => packet end = value).

(** The value and the mask that [pack] writes. *)
Definition packed_value (f : field) : list N := to_buffer (fvalue_bits f).
Definition packed_mask (f : field) : option (list N) := if f_exact f then None else Some (to_buffer (fmask_bits f)).

Lemma to_blocks_land k : ∀ a b, zip_with N.land (to_blocks k a) (to_blocks k b) = to_blocks k (N.land a b).
Proof.
  induction k as [|k IH]; intros a b; [done |]. cbn [to_blocks zip_with]. rewrite IH, N.shiftr_land. f_equal. Nbits.
Qed.

Lemma zip_with_rev {A B C} (f : A → B → C) l : ∀ k, length l = length k → zip_with f (rev l) (rev k) = rev (zip_with f l k).
Proof.
  induction l as [|x l IH]; intros [|y k] E; try done. cbn [rev zip_with]. injection E as E.
  rewrite zip_with_app by (by rewrite !length_rev). by rewrite IH.
Qed.

Lemma to_buffer_land n a b : zip_with N.land (to_buffer (Bits n a)) (to_buffer (Bits n b)) = to_buffer (Bits n (N.land a b)).
Proof. unfold to_buffer. rewrite zip_with_rev by (by rewrite !length_to_blocks). by rewrite to_blocks_land. Qed.

Lemma to_buffer_inj n a b : bits_wf (Bits n a) → bits_wf (Bits n b) → to_buffer (Bits n a) = to_buffer (Bits n b) → a = b.
Proof.
  intros Ha Hb E. pose proof (from_to_buffer (Bits n a) (λ _, 0%N) 0 Ha ltac:(intros; apply bits_sub_0)) as H.
  rewrite E in H. pose proof (from_to_buffer (Bits n b) (λ _, 0%N) 0 Hb ltac:(intros; apply bits_sub_0)) as H'. cbn [bsize] in *. congruence.
Qed.

(** ** Properties *)

(** C13: fields on the wire.  A field whose type has a class of OpenFlow is
    packed, and an adapter of the same type that unpacks it gets the same
    field, with or without a mask, whatever was in the buffer. *)
Theorem oxm_wire_roundtrip (f g : field) (mem : memory) (p : Z) :
  ns (f_type f) ∈ [NXM_0; NXM_1; OPENFLOW_BASIC; EXPERIMENTER] → type_ok (f_type f) → field_wf f → f_type g = f_type f →
  (∀ x, mem x ⊑b 255%N) →
  ∃ a b, FluidOXMAdapter f = Ok a ∧ FluidOXMAdapter g = Ok b ∧ field_ a = f ∧ unpack b (pack a mem p) p = Ok a.
Proof.
  intros Hns Ht Hf Eg Hm. assert (E : ∀ h, f_type h = f_type f → ∃ a, FluidOXMAdapter h = Ok a).
  { intros h Eh. unfold FluidOXMAdapter. rewrite Eh, bool_decide_eq_true_2 by done. by eexists. }
  destruct (E f eq_refl) as [a Ea], (E g Eg) as [b Eb]. exists a, b.
  destruct (adapter_of f a Ea Ht) as (Fa & Ma & La & _). destruct (adapter_of g b Eb) as (Fb & _); [by rewrite Eg |].
  split_and!; [done | done | done |]. apply unpack_pack; rewrite ?Fa, ?Fb; done.
Qed.

(** C14: matching bytes.  A switch that compares the bytes of a packet's value
    with the packed value, under the packed mask where there is one, matches
    exactly the values that satisfy the field. *)
Theorem wire_matches (f : field) (v : N) :
  field_wf f → v ⊑b N.ones (nbits (f_type f)) →
  wire_match (packed_value f) (packed_mask f) (to_buffer (Bits (nbits (f_type f)) v)) = true ↔ sat v f.
Proof.
  intros [[Hm _] Hv] Hw. assert (Hf : f_val f ⊑b N.ones (nbits (f_type f))) by (eapply bits_sub_trans; [exact Hv | exact Hm]).
  unfold wire_match, packed_value, packed_mask, sat, fvalue_bits, fmask_bits, f_exact, exact, all. cbn [fmask_bits bval bsize].
  rewrite bool_decide_eq_true. destruct (N.eqb_spec (f_msk f) (N.ones (nbits (f_type f)))) as [E | E].
  - rewrite E, (Hw : N.land v _ = v). split; [by apply to_buffer_inj | by intros ->].
  - rewrite to_buffer_land. split; [| by intros ->]. apply to_buffer_inj; [| done]. by apply land_sub_mono.
Qed.

(** a match for a switch.  It can be made of fields with classes of OpenFlow
    only: a match on the switch or on the output port throws. *)
Theorem make_of_match_classes (fs : list field) :
  (∃ l, make_of_match fs = Ok l ∧ map field_ l = fs) ∧ Forall (λ f, ns (f_type f) ∈ [NXM_0; NXM_1; OPENFLOW_BASIC; EXPERIMENTER]) fs ∨
  make_of_match fs = Throw RuntimeError ∧ Exists (λ f, ns (f_type f) ∉ [NXM_0; NXM_1; OPENFLOW_BASIC; EXPERIMENTER]) fs.
Proof.
  induction fs as [|f fs IH]; [left; split; [by exists [] | constructor] |]. cbn [make_of_match].
  unfold FluidOXMAdapter. case_bool_decide as Hf; cbn [require mbind res_bind].
  - destruct IH as [[(l & -> & El) Hfs] | [-> Hfs]]; [left | right]; cbn.
    + split; [eexists; split; [reflexivity |]; cbn; by rewrite El | by constructor].
    + split; [done | by right].
  - right. split; [done | by left].
Qed.

(** VLAN ids.  OpenFlow has 13 bits for them, of which the highest,
    OFPVID_PRESENT, is set for packets with a tag: the first byte of what is
    packed never has it. *)
Theorem vlan_id_without_present (f : field) :
  f_type f = vlan_vid → field_wf f → ∃ b0 b1, packed_value f = [b0; b1] ∧ N.testbit (b0 * 256 + b1) 12 = false.
Proof.
  intros Et [[Hm _] Hv]. rewrite Et in Hm. assert (Hf : f_val f ⊑b N.ones 12) by (eapply bits_sub_trans; [exact Hv | exact Hm]).
  unfold packed_value, fvalue_bits. rewrite Et. unfold to_buffer. cbn [bsize bval nbits vlan_vid].
  change (N.to_nat (num_blocks 12)) with 2%nat. cbn [to_blocks rev app]. do 2 eexists. split; [reflexivity |].
  apply sub_ones_lt in Hf. set (v := f_val f) in *.
  assert (E : (N.land (N.shiftr v 8) 255 * 256 + N.land v 255)%N = v).
  { change 255%N with (N.ones 8). rewrite !N.land_ones, N.shiftr_div_pow2. change (2 ^ 8)%N with 256%N.
    rewrite (N.mod_small (v / 256)) by (apply N.Div0.div_lt_upper_bound; change (2 ^ 12)%N with 4096%N in Hf; lia).
    pose proof (N.div_mod v 256 ltac:(lia)). lia. }
  rewrite E. apply sub_ones_lt in Hf. destruct (N.testbit v 12) eqn:Eb; [| done].
  rewrite bits_sub_spec in Hf. apply Hf in Eb. discriminate Eb.
Qed.
End Adapter.

(** ** The header of OpenFlow *)

#[export] Instance openflow_header : Wire := {|
  pack_header t := [N.shiftr (wrap 16 (class_ t)) 8; N.land (class_ t) 255;
                    N.lor (N.shiftl (wrap 7 (field_id t)) 1) (if has_mask_ t then 1 else 0); wrap 8 (length_ t)]%N;
  unpack_header mem p :=
    Tlv (N.lor (N.shiftl (mem p) 8) (mem (p + 1)%Z)) (N.shiftr (mem (p + 2)%Z) 1) (N.testbit (mem (p + 2)%Z) 0) (mem (p + 3)%Z)
|}.

Lemma split_byte n k : N.lor (N.shiftl (N.shiftr n k) k) (N.land n (N.ones k)) = n.
Proof.
  apply N.bits_inj. intros i. rewrite N.lor_spec, N.land_spec, ones_spec_iff. destruct (N.ltb_spec i k).
  - rewrite N.shiftl_spec_low by done. by rewrite andb_true_r.
  - rewrite N.shiftl_spec_high', N.shiftr_spec' by done. replace (i - k + k)%N with i by lia. by rewrite andb_false_r, orb_false_r.
Qed.

Lemma small_byte n : (n < 256)%N → n ⊑b 255%N.
Proof. intros H. change 255%N with (N.ones 8). by apply sub_ones_lt. Qed.

Lemma flag_byte n (b : bool) : let x := N.lor (N.shiftl n 1) (if b then 1 else 0)%N in N.shiftr x 1 = n ∧ N.testbit x 0 = b.
Proof.
  intros x. unfold x. rewrite N.shiftr_lor, N.shiftr_shiftl_l by done. split; [destruct b; by rewrite N.lor_0_r, N.shiftl_0_r |].
  rewrite N.lor_spec, N.shiftl_spec_low by done. by destruct b.
Qed.

#[export] Instance openflow_header_laws : WireLaws.
Proof.
  split.
  - done.
  - intros t. cbn [pack_header openflow_header]. repeat constructor; apply small_byte.
    + pose proof (wrap_lt 16 (class_ t)) as H. rewrite N.shiftr_div_pow2. apply N.Div0.div_lt_upper_bound. exact H.
    + change 255%N with (N.ones 8). rewrite N.land_ones. by apply N.mod_lt.
    + pose proof (wrap_lt 7 (field_id t)) as H. change (2 ^ 7)%N with 128%N in H.
      rewrite lor_shiftl_add by (by destruct (has_mask_ t)). destruct (has_mask_ t); change (2 ^ 1)%N with 2%N; lia.
    + apply (wrap_lt 8).
  - intros [c i m l] mem p (Hc & Hi & Hl). cbn [class_ field_id length_] in *.
    unfold unpack_header, openflow_header. cbn [pack_header class_ field_id length_ has_mask_]. rewrite !wrap_id by done.
    set (l4 := [_; _; _; _]). assert (Hw : ∀ k, (k < 4)%nat → mem_write mem p l4 (p + Z.of_nat k)%Z = nth k l4 0%N).
    { intros k Hk. unfold mem_write. rewrite (proj2 (Z.leb_le _ _)), (proj2 (Z.ltb_lt _ _)) by (cbn; lia). cbn [andb]. f_equal. lia. }
    pose proof (Hw 0%nat ltac:(lia)) as W0. rewrite Z.add_0_r in W0.
    rewrite W0, (Hw 1%nat ltac:(lia) : mem_write mem p l4 (p + 1)%Z = _), (Hw 2%nat ltac:(lia) : mem_write mem p l4 (p + 2)%Z = _),
      (Hw 3%nat ltac:(lia) : mem_write mem p l4 (p + 3)%Z = _). unfold l4. cbn [nth].
    destruct (flag_byte i m) as [-> ->]. change 255%N with (N.ones 8). by rewrite split_byte.
  - intros mem mem' p H. unfold unpack_header, openflow_header. rewrite !H by lia. done.
Qed.

(** ** A masked address *)

Definition sample_oxm : field := Field ipv4_dst 0x0a000000 0xff000000.

Lemma oxm_wire_roundtrip_witness :
  ∃ a b, FluidOXMAdapter sample_oxm = Ok a ∧ FluidOXMAdapter (Field ipv4_dst 0 0) = Ok b ∧ field_ a = sample_oxm ∧
    unpack b (pack a (λ _, 7%N) 100) 100 = Ok a.
Proof.
  apply oxm_wire_roundtrip.
  - apply (bool_decide_unpack _). vm_compute. exact I.
  - split; [| split]; vm_compute; reflexivity.
  - split; [split; [vm_compute; reflexivity | by left] | vm_compute; reflexivity].
  - reflexivity.
  - intros x. vm_compute. reflexivity.
Defined.

Lemma wire_matches_witness : wire_match (packed_value sample_oxm) (packed_mask sample_oxm) [10; 1; 2; 3]%N = true ∧
  wire_match (packed_value sample_oxm) (packed_mask sample_oxm) [11; 1; 2; 3]%N = false.
Proof.
  split.
  - apply (wire_matches sample_oxm 0x0a010203);
      [split; [split; [vm_compute; reflexivity | by left] | vm_compute; reflexivity] | vm_compute; reflexivity | vm_compute; reflexivity].
  - vm_compute. reflexivity.
Defined.

Lemma vlan_id_without_present_witness :
  ∃ b0 b1, packed_value (Field vlan_vid 5 0xfff) = [b0; b1] ∧ N.testbit (b0 * 256 + b1) 12 = false.
Proof.
  apply vlan_id_without_present; [reflexivity |].
  split; [split; [vm_compute; reflexivity | right; right; vm_compute; reflexivity] | vm_compute; reflexivity].
Defined.
