(* ===== verification/FieldSet.v ===== *)
(** * FieldSet: sets of fields with at most one field per type, oxm/field_set.hh

    The unordered_set hashed and compared by type is a finite map from type
    keys to fields: [find_equal] says that a key finds the field that
    EqualByType takes for equal, [elements_distinct] that there is one at most.
    Iteration order is the map's; no result below depends on it. *)

From S2P Require Import Prelude Bits Oxm.

Abbreviation field_set := (gmap key field).

(** How the container hashes and compares fields. *)
Definition HashByType (f : field) : key := tkey (f_type f).
Definition EqualByType (lhs rhs : field) : bool := type_eqb (f_type lhs) (f_type rhs).

(** [find(type)] *)
Definition find (fs : field_set) (t : otype) : option field := fs !! tkey t.

(** [load(mask)] *)
Definition load (fs : field_set) (m : mask) : res field :=
  let t := m_type m in
  match find fs t with
  | None => w ← field_wildcard t; field_and_mask w m
  | Some f => field_and_mask f m
  end.

(** [modify(patch)] *)
Definition modify (fs : field_set) (patch : field) : res field_set :=
  let t := f_type patch in
  let it := default patch (find fs t) in
  f ← field_rewrite_field it patch;
  Ok (<[tkey t := f]> fs).

(** [erase(mask)] *)
Definition erase (fs : field_set) (m : mask) : res field_set :=
  let t := m_type m in
  match find fs t with
  | None => Ok fs
  | Some f =>
      nm ← mask_not m;
      f' ← field_and_mask f nm;
      Ok (if f_wildcard f' then delete (tkey t) fs else <[tkey t := f']> fs)
  end.

Definition clear (fs : field_set) : field_set := ∅.

Definition is_empty (fs : field_set) : bool := bool_decide (fs = ∅).

(** The fields in iteration order. *)
Definition elements (fs : field_set) : list field := (map_to_list fs).*2.

(** The initializer-list constructor: a type that is already there is kept. *)
Definition of_list (content : list field) : field_set :=
  fold_left (λ fs f, match find fs (f_type f) with
                     | Some _ => fs
                     | None => <[tkey (f_type f) := f]> fs
                     end) content ∅.

(** Modifying by a list of fields in turn. *)
Fixpoint modify_all (fs : field_set) (l : list field) : res field_set :=
  match l with
  | [] => Ok fs
  | f :: l => fs' ← modify fs f; modify_all fs' l
  end.

(** [clone()] *)
Definition clone (fs : field_set) : res field_set := modify_all ∅ (elements fs).

(** [operator==]: the same types, with equal fields. *)
Definition fs_eqb (lhs rhs : field_set) : bool :=
  bool_decide (dom lhs = dom rhs) &&
  forallb (λ f, match find rhs (f_type f) with
                | Some g => field_eqb f g
                | None => false
                end) (elements lhs).

(** ** The same operations on well-formed sets, where nothing throws *)

Definition entry (fs : field_set) (t : otype) : field := default (Field t 0 0) (find fs t).

Definition pload (fs : field_set) (m : mask) : field := fwiden (entry fs (m_type m)) m.

Definition pmodify (fs : field_set) (patch : field) : field_set :=
  <[tkey (f_type patch) := match find fs (f_type patch) with
                           | None => patch
                           | Some f => fpatch f patch
                           end]> fs.

Definition perase (fs : field_set) (m : mask) : field_set :=
  match find fs (m_type m) with
  | None => fs
  | Some f =>
      let f' := fwiden f (mnot m) in
      if f_wildcard f' then delete (tkey (m_type m)) fs else <[tkey (m_type m) := f']> fs
  end.

#[global] Arguments find : simpl never.
#[global] Arguments entry : simpl never.
#[global] Arguments pmodify : simpl never.
#[global] Arguments perase : simpl never.

Definition rfield_wf (f : field) : Prop := registered (f_type f) = true ∧ field_wf f.
Definition rmask_wf (m : mask) : Prop := registered (m_type m) = true ∧ mask_wf m.

Definition fs_wf (fs : field_set) : Prop :=
  map_Forall (λ k f, k = tkey (f_type f) ∧ rfield_wf f) fs.

(** ** Lemmas *)

Lemma fs_wf_empty : fs_wf ∅.
Proof. apply map_Forall_empty. Qed.

Lemma fs_wf_lookup fs t f :
  fs_wf fs → registered t = true → find fs t = Some f → f_type f = t ∧ rfield_wf f.
Proof.
  intros Hwf Ht Hf. destruct (map_Forall_lookup_1 _ _ _ _ Hwf Hf) as [Hk [Hr Hw]].
  split; [| done]. apply registry_keys_inj; [done | done |]. by apply type_eqb_key.
Qed.

Lemma fs_wf_insert fs f :
  fs_wf fs → rfield_wf f → fs_wf (<[tkey (f_type f) := f]> fs).
Proof. intros Hfs Hf. by apply map_Forall_insert_2. Qed.

Lemma mask_of_wf f : rfield_wf f → rmask_wf (mask_of f).
Proof. intros [Hr [Hm _]]. done. Qed.

Lemma mnot_wf m : rmask_wf m → rmask_wf (mnot m).
Proof. intros [Hr Hm]. split; [done |]. by apply msk_ok_not. Qed.

Lemma wildcard_wf t : registered t = true → rfield_wf (Field t 0 0).
Proof. intros H. split; [done |]. split; cbn; auto with runos. Qed.

Lemma fwiden_wf f m : rfield_wf f → rmask_wf m → f_type f = m_type m → rfield_wf (fwiden f m).
Proof.
  intros [Hr Hw] [_ Hm] E. split; [done |]. by apply field_and_mask_ok.
Qed.

Lemma fpatch_wf f g : rfield_wf f → rfield_wf g → f_type f = f_type g → rfield_wf (fpatch f g).
Proof. intros [Hr Hw] [_ Hg] E. split; [done |]. by apply field_rewrite_ok. Qed.

#[export] Hint Resolve fs_wf_empty mask_of_wf mnot_wf wildcard_wf : runos.

Lemma entry_wf fs t : fs_wf fs → registered t = true → f_type (entry fs t) = t ∧ rfield_wf (entry fs t).
Proof.
  intros Hfs Ht. unfold entry. destruct (find fs t) as [f|] eqn:E; cbn.
  - by eapply fs_wf_lookup.
  - auto with runos.
Qed.

(** ** The container *)

Lemma EqualByType_hash f g : EqualByType f g = true ↔ HashByType f = HashByType g.
Proof. apply type_eqb_key. Qed.

Lemma elements_keyed fs f : fs_wf fs → f ∈ elements fs ↔ fs !! HashByType f = Some f.
Proof.
  intros Hwf. unfold elements. rewrite list_elem_of_fmap. split.
  - intros ([k g] & -> & Hg%elem_of_map_to_list). by destruct (map_Forall_lookup_1 _ _ _ _ Hwf Hg) as [-> _].
  - intros Hf. exists (HashByType f, f). split; [done |]. by apply elem_of_map_to_list.
Qed.

(** A search of the container, in whatever order, is a lookup of the key. *)
Lemma find_equal fs f g : fs_wf fs → find fs (f_type g) = Some f ↔ f ∈ elements fs ∧ EqualByType f g = true.
Proof.
  intros Hwf. rewrite elements_keyed, EqualByType_hash by done. unfold find. split.
  - intros Hf. destruct (map_Forall_lookup_1 _ _ _ _ Hwf Hf) as [Hk _]. unfold HashByType. by rewrite <- Hk.
  - intros [Hf E]. by rewrite <- Hf, E.
Qed.

Lemma elements_distinct fs f g : fs_wf fs → f ∈ elements fs → g ∈ elements fs → EqualByType f g = true → f = g.
Proof. intros Hwf. rewrite !elements_keyed, EqualByType_hash by done. congruence. Qed.

Lemma fpatch_idem f : field_wf f → fpatch f f = f.
Proof.
  intros [_ Hv]. destruct f as [t v m]. unfold fpatch. cbn in *. f_equal.
  - unfold bits_sub in Hv. rewrite <- Hv. Nbits.
  - apply N.lor_diag.
Qed.

Lemma fpatch_wild t f : field_wf f → f_type f = t → fpatch (Field t 0 0) f = f.
Proof. destruct f as [t' v m]. intros Hw E. cbn in E. subst t'. unfold fpatch. cbn. f_equal. Qed.

Lemma pmodify_entry fs p :
  rfield_wf p →
  pmodify fs p = <[tkey (f_type p) := fpatch (entry fs (f_type p)) p]> fs.
Proof.
  intros [Hr Hw]. unfold pmodify, entry. destruct (find fs (f_type p)); cbn; [done |].
  by rewrite fpatch_wild.
Qed.

Lemma load_ok fs m : fs_wf fs → rmask_wf m → load fs m = Ok (pload fs m).
Proof.
  intros Hfs [Hr Hm]. unfold load, pload, entry.
  destruct (find fs (m_type m)) as [f|] eqn:E; cbn.
  - destruct (fs_wf_lookup _ _ _ Hfs Hr E) as [Et [_ Hw]].
    by apply field_and_mask_ok.
  - rewrite field_wildcard_ok. cbn. apply field_and_mask_ok; [| done | done].
    split; cbn; auto with runos.
Qed.

Lemma pload_wf fs m : fs_wf fs → rmask_wf m → rfield_wf (pload fs m).
Proof.
  intros Hfs Hm. destruct (entry_wf fs (m_type m)) as [E Hw]; [done | apply Hm |].
  unfold pload. by apply fwiden_wf.
Qed.

Lemma modify_ok fs p : fs_wf fs → rfield_wf p → modify fs p = Ok (pmodify fs p).
Proof.
  intros Hfs [Hr Hw]. unfold modify, pmodify.
  destruct (find fs (f_type p)) as [f|] eqn:E; cbn.
  - destruct (fs_wf_lookup _ _ _ Hfs Hr E) as [Et [_ Hf]].
    destruct (field_rewrite_ok f p) as [-> _]; done.
  - destruct (field_rewrite_ok p p) as [-> _]; [done.. |]. cbn. by rewrite fpatch_idem.
Qed.

Lemma pmodify_wf fs p : fs_wf fs → rfield_wf p → fs_wf (pmodify fs p).
Proof.
  intros Hfs Hp. rewrite pmodify_entry by done.
  destruct (entry_wf fs (f_type p)) as [E Hw]; [done | apply Hp |].
  rewrite <- E at 1. change (f_type (entry fs (f_type p))) with
    (f_type (fpatch (entry fs (f_type p)) p)) at 1.
  apply fs_wf_insert; [done |]. by apply fpatch_wf.
Qed.

Lemma erase_ok fs m : fs_wf fs → rmask_wf m → erase fs m = Ok (perase fs m).
Proof.
  intros Hfs [Hr Hm]. unfold erase, perase.
  destruct (find fs (m_type m)) as [f|] eqn:E; [| done].
  destruct (fs_wf_lookup _ _ _ Hfs Hr E) as [Et [_ Hf]].
  rewrite mask_not_ok by done. cbn.
  destruct (field_and_mask_ok f (mnot m)) as [-> _]; [done | | done | done].
  by apply msk_ok_not.
Qed.

Lemma perase_wf fs m : fs_wf fs → rmask_wf m → fs_wf (perase fs m).
Proof.
  intros Hfs Hm. unfold perase. destruct (find fs (m_type m)) as [f|] eqn:E; [| done].
  destruct (fs_wf_lookup _ _ _ Hfs (proj1 Hm) E) as [Et Hf].
  case_match; [by apply map_Forall_delete |].
  rewrite <- Et at 1. change (f_type f) with (f_type (fwiden f (mnot m))).
  apply fs_wf_insert; [done |]. apply fwiden_wf; [done | by apply mnot_wf | done].
Qed.

Lemma find_pmodify_ne fs p t : tkey t ≠ tkey (f_type p) → find (pmodify fs p) t = find fs t.
Proof. intros H. unfold find, pmodify. by rewrite lookup_insert_ne. Qed.

Lemma find_pmodify_eq fs p :
  rfield_wf p → find (pmodify fs p) (f_type p) = Some (fpatch (entry fs (f_type p)) p).
Proof. intros Hp. unfold find. rewrite pmodify_entry by done. apply lookup_insert_eq. Qed.

Lemma entry_pmodify_ne fs p t : tkey t ≠ tkey (f_type p) → entry (pmodify fs p) t = entry fs t.
Proof. intros H. unfold entry. by rewrite find_pmodify_ne. Qed.

Lemma entry_pmodify_eq fs p :
  rfield_wf p → entry (pmodify fs p) (f_type p) = fpatch (entry fs (f_type p)) p.
Proof. intros H. pose proof (find_pmodify_eq fs p H) as E. unfold entry in *. by rewrite E. Qed.

Lemma perase_pmodify_fresh fs p :
  rfield_wf p → find fs (f_type p) = None → f_msk p ≠ 0%N →
  perase (pmodify fs p) (mask_of p) = fs.
Proof.
  intros Hp Hf Hm. unfold perase. cbn [mask_of m_type].
  rewrite find_pmodify_eq by done.
  unfold entry. rewrite Hf. cbn [default]. rewrite fpatch_wild by (by destruct Hp).
  unfold f_wildcard, wildcard, none. cbn.
  replace (N.land (f_msk p) _) with 0%N by Nbits. rewrite N.eqb_refl.
  unfold pmodify. rewrite delete_insert_eq. by apply delete_id.
Qed.

(** ** Properties *)

(** on a well-formed set and registered operands [load], [modify] and
    [erase] never throw and keep the set well-formed: one well-formed field
    per type, filed under its own type. *)
Theorem field_set_invariant fs p m :
  fs_wf fs → rfield_wf p → rmask_wf m →
  (∃ f, load fs m = Ok f ∧ rfield_wf f) ∧
  (∃ fs', modify fs p = Ok fs' ∧ fs_wf fs') ∧
  (∃ fs', erase fs m = Ok fs' ∧ fs_wf fs').
Proof.
  intros Hfs Hp Hm. split_and!.
  - exists (pload fs m). split; [by apply load_ok | by apply pload_wf].
  - exists (pmodify fs p). split; [by apply modify_ok | by apply pmodify_wf].
  - exists (perase fs m). split; [by apply erase_ok | by apply perase_wf].
Qed.

Lemma field_set_invariant_witness :
  ∃ fs', modify ∅ (Field in_port 5 0xffffffff) = Ok fs' ∧ fs_wf fs'.
Proof.
  apply (field_set_invariant ∅ (Field in_port 5 0xffffffff) (Mask in_port 0));
    [apply fs_wf_empty | |]; repeat split; try (by vm_compute); right; (by left) || by right.
Defined.

(** what is read after a modification: the patch itself under its own
    mask, the old bits outside it, and nothing changes for other types. *)
Theorem load_after_modify fs p m fs' :
  fs_wf fs → rfield_wf p → rmask_wf m → modify fs p = Ok fs' →
  load fs' (mask_of p) = Ok p ∧
  (m_type m = f_type p → load fs' (mand m (mnot (mask_of p))) = load fs (mand m (mnot (mask_of p)))) ∧
  (tkey (m_type m) ≠ tkey (f_type p) → load fs' m = load fs m).
Proof.
  intros Hfs Hp Hm E. rewrite modify_ok in E by done. injection E as <-.
  assert (Hfs' : fs_wf (pmodify fs p)) by by apply pmodify_wf.
  assert (Hmp := mask_of_wf _ Hp).
  destruct (entry_wf fs (f_type p)) as [Et [_ Hw]]; [done | apply Hp |].
  split_and!.
  - rewrite load_ok by done. f_equal. unfold pload. cbn. rewrite entry_pmodify_eq by done.
    destruct Hp as [_ [_ Hv]]. destruct p as [t v k].
    unfold fwiden, fpatch, mask_of. cbn in *. rewrite Et. f_equal.
    + rewrite N.land_lor_distr_l, Hv. Nbits.
    + Nbits.
  - intros Emt. assert (Hmm : rmask_wf (mand m (mnot (mask_of p)))).
    { split; [apply Hm |]. unfold mask_wf, mand, mnot. cbn. apply msk_ok_and; [apply Hm |].
      rewrite Emt. apply msk_ok_not. apply Hmp. }
    rewrite !load_ok by done. f_equal. unfold pload. cbn. rewrite Emt.
    rewrite entry_pmodify_eq by done. unfold fwiden, fpatch. cbn. rewrite !Et. f_equal.
    + destruct Hp as [_ [_ Hv]]. rewrite N.land_lor_distr_l. unfold bits_sub in Hv.
      rewrite <- Hv. Nbits.
    + rewrite N.land_lor_distr_l. Nbits.
  - intros Hne. rewrite !load_ok by done. f_equal. unfold pload.
    by rewrite entry_pmodify_ne.
Qed.

Lemma load_after_modify_witness :
  load {[ tkey eth_type := Field eth_type 0x0800 0xffff ]} (mask_of (Field eth_type 0x0800 0xffff))
  = Ok (Field eth_type 0x0800 0xffff).
Proof.
  apply (load_after_modify ∅ (Field eth_type 0x0800 0xffff) (Mask eth_type 0));
    [apply fs_wf_empty | | | by vm_compute];
    repeat split; try (by vm_compute); right; (by left) || by right.
Defined.

(** [erase] forgets exactly the given bits; if nothing is left the type is
    dropped, and erasing what was just added to a fresh type restores the
    set (the way the rule translators use it). *)
Theorem erase_spec fs m p :
  fs_wf fs → rmask_wf m → rfield_wf p →
  (∃ fs', erase fs m = Ok fs' ∧
     load fs' m = Ok (Field (m_type m) 0 0) ∧
     (∀ g, find fs' (m_type m) = Some g → f_msk g ≠ 0%N) ∧
     (∀ t, tkey t ≠ tkey (m_type m) → find fs' t = find fs t)) ∧
  (find fs (f_type p) = None → f_msk p ≠ 0%N →
     (fs1 ← modify fs p; erase fs1 (mask_of p)) = Ok fs).
Proof.
  intros Hfs Hm Hp. split.
  - exists (perase fs m). split; [by apply erase_ok |].
    assert (Hfs' : fs_wf (perase fs m)) by by apply perase_wf.
    split_and!.
    + rewrite load_ok by done. f_equal. unfold pload, entry, perase.
      destruct (find fs (m_type m)) as [f|] eqn:E.
      * destruct (fs_wf_lookup _ _ _ Hfs (proj1 Hm) E) as [Et _].
        unfold find. case_match.
        -- by rewrite lookup_delete_eq.
        -- rewrite lookup_insert_eq. cbn. unfold fwiden. cbn. rewrite Et. f_equal; Nbits.
      * by rewrite E.
    + unfold perase. destruct (find fs (m_type m)) as [f|] eqn:E.
      * unfold find. case_match eqn:Ew.
        -- by rewrite lookup_delete_eq.
        -- rewrite lookup_insert_eq. intros g [= <-].
           unfold f_wildcard, wildcard, none in Ew. by apply N.eqb_neq in Ew.
      * rewrite E. done.
    + intros t Ht. unfold perase, find. repeat case_match;
        rewrite ?lookup_delete_ne, ?lookup_insert_ne; done.
  - intros Hnone Hmsk. rewrite modify_ok by done. cbn.
    rewrite erase_ok by (auto using pmodify_wf with runos). f_equal.
    by apply perase_pmodify_fresh.
Qed.

Lemma erase_spec_witness :
  (fs1 ← modify ∅ (Field in_port 7 0xffffffff); erase fs1 (Mask in_port 0xffffffff)) = Ok (∅ : field_set).
Proof.
  apply (erase_spec ∅ (Mask in_port 0) (Field in_port 7 0xffffffff));
    [apply fs_wf_empty | | | done | done];
    repeat split; try (by vm_compute); right; (by left) || by right.
Defined.

(** the comment says a field set stores only non-wildcarded fields;
    [modify] with a wildcard patch stores a wildcard entry, and the set is
    then neither empty nor equal to the empty set. *)
Theorem modify_stores_wildcard :
  ∃ fs, modify ∅ (Field eth_src 0 0) = Ok fs ∧
    find fs eth_src = Some (Field eth_src 0 0) ∧ is_empty fs = false ∧ fs_eqb fs ∅ = false.
Proof. eexists. split; [reflexivity |]. by vm_compute. Qed.
