(* ===== verification/Packet.v ===== *)
(** * Packet: the packet interface, api/Packet.hh

    [PacketOps] is the virtual interface: reading is [const] in the code but
    the tracing proxy has mutable parts, so every operation returns the packet
    it leaves.  [PacketLaws] is what a concrete packet promises: some types
    are bound to values, loading reads the masked value, testing compares it,
    modifying overwrites the patched bits of one type; an unbound type throws
    out_of_range.  The proxies and the policy semantics are written against
    the operations and proved against the laws. *)

From S2P Require Import Prelude Bits Oxm FieldSet.

Class PacketOps (P : Type) : Type := {
  pkt_load : P → mask → res (field * P);
  pkt_test : P → field → res (bool * P);
  pkt_modify : P → field → res P
}.

(** [Packet::test]: [load(mask(need)) & need], from a [load]. *)
Definition test_by_load {P} (load : P → mask → res (field * P)) (p : P) (need : field)
  : res (bool * P) :=
  '(f, p') ← load p (mask_of need);
  b ← field_match_field f need;
  Ok (b, p').

(** The bits of [v] with those of a patch over them. *)
Definition patchv (v : N) (f : field) : N := N.lor (N.ldiff v (f_msk f)) (f_val f).

(** What [load] reads of a value. *)
Definition loadv (v : N) (m : mask) : field := Field (m_type m) (N.land v (m_val m)) (m_val m).

Definition satb (v : N) (f : field) : bool := (N.land v (f_msk f) =? f_val f)%N.

Class PacketLaws (P : Type) `{PacketOps P} : Type := {
  pview : P → otype → N;
  pbound : P → otype → bool;
  load_law : ∀ p m, rmask_wf m →
    pkt_load p m = if pbound p (m_type m)
                   then Ok (loadv (pview p (m_type m)) m, p) else Throw OutOfRange;
  test_law : ∀ p f, rfield_wf f →
    pkt_test p f = if pbound p (f_type f)
                   then Ok (satb (pview p (f_type f)) f, p) else Throw OutOfRange;
  modify_unbound : ∀ p f, rfield_wf f →
    pbound p (f_type f) = false → pkt_modify p f = Throw OutOfRange;
  modify_bound : ∀ p f, rfield_wf f → pbound p (f_type f) = true →
    ∃ p', pkt_modify p f = Ok p' ∧
      (∀ t, registered t = true → pbound p' t = pbound p t) ∧
      (∀ t, registered t = true →
        pview p' t = if type_eqb t (f_type f) then patchv (pview p t) f else pview p t)
}.

(** ** Bit-level facts *)

Lemma satb_sat v f : satb v f = true ↔ sat v f.
Proof. apply N.eqb_eq. Qed.

Lemma loadv_wf v m : rmask_wf m → rfield_wf (loadv v m).
Proof.
  intros [Hr Hm]. split; [done |]. split; [done |]. cbn. unfold bits_sub. Nbits.
Qed.

Lemma field_match_ok' f g :
  rfield_wf f → rfield_wf g → f_type f = f_type g → field_match_field f g = Ok (fmatch f g).
Proof. intros [_ Hf] [_ Hg]. by apply field_match_ok. Qed.

Lemma fmatch_loadv v f : f_val f ⊑b f_msk f → fmatch (loadv v (mask_of f)) f = satb v f.
Proof.
  intros Hf. unfold fmatch, satb. cbn. rewrite Hf.
  by replace (N.land (N.land v (f_msk f)) (f_msk f)) with (N.land v (f_msk f)) by Nbits.
Qed.

(** [Packet::test] of a lawful load tests the value. *)
Lemma test_by_load_law {P} (load : P → mask → res (field * P)) p f v :
  rfield_wf f → load p (mask_of f) = Ok (loadv v (mask_of f), p) →
  test_by_load load p f = Ok (satb v f, p).
Proof.
  intros Hf E. unfold test_by_load. rewrite E. cbn [mbind res_bind].
  rewrite field_match_ok'; [| apply loadv_wf; auto with runos | done | done].
  cbn [mbind res_bind]. rewrite fmatch_loadv; [done | apply Hf].
Qed.

(** ** A packet that is a finite map from types to values *)

Abbreviation vpacket := (gmap key N).

Definition vload (p : vpacket) (m : mask) : res (field * vpacket) :=
  match p !! tkey (m_type m) with
  | Some v => f ← mk_field (m_type m) (Bits (nbits (m_type m)) v) (mask_bits m); Ok (f, p)
  | None => Throw OutOfRange
  end.

Definition vmodify (p : vpacket) (f : field) : res vpacket :=
  match p !! tkey (f_type f) with
  | Some v => Ok (<[tkey (f_type f) := patchv v f]> p)
  | None => Throw OutOfRange
  end.

#[export] Instance vpacket_ops : PacketOps vpacket :=
  {| pkt_load := vload; pkt_test := test_by_load vload; pkt_modify := vmodify |}.

Definition vview (p : vpacket) (t : otype) : N := default 0%N (p !! tkey t).
Definition vbound (p : vpacket) (t : otype) : bool := bool_decide (is_Some (p !! tkey t)).

Lemma vload_law p m :
  rmask_wf m →
  vload p m = if vbound p (m_type m) then Ok (loadv (vview p (m_type m)) m, p)
              else Throw OutOfRange.
Proof.
  intros [_ Hm]. unfold vload, vbound, vview.
  destruct (p !! tkey (m_type m)) as [v|]; cbn; [| done].
  unfold mask_bits. by rewrite mk_field_ok.
Qed.

#[export] Program Instance vpacket_laws : PacketLaws vpacket :=
  {| pview := vview; pbound := vbound |}.
Next Obligation. exact vload_law. Qed.
Next Obligation.
  intros p f Hf. cbn. assert (Hm := vload_law p (mask_of f) (mask_of_wf _ Hf)). cbn in Hm.
  destruct (vbound p (f_type f)).
  - by apply test_by_load_law.
  - unfold test_by_load. by rewrite Hm.
Qed.
Next Obligation.
  intros p f _. cbn. unfold vbound, vmodify. by destruct (p !! _).
Qed.
Next Obligation.
  intros p f [Hr _] Hb. cbn. unfold vbound, vmodify, vview in *.
  destruct (p !! tkey (f_type f)) as [v|] eqn:E; [| done].
  eexists. split_and!; [done | |]; intros t Ht;
    destruct (type_eqb t (f_type f)) eqn:Et.
  - apply type_eqb_key in Et. by rewrite Et, lookup_insert_eq, E.
  - rewrite lookup_insert_ne; [done |]. intros Hk. symmetry in Hk.
    apply type_eqb_key in Hk. congruence.
  - apply type_eqb_key in Et. by rewrite Et, lookup_insert_eq, E.
  - rewrite lookup_insert_ne; [done |]. intros Hk. symmetry in Hk.
    apply type_eqb_key in Hk. congruence.
Qed.

(** ** A packet proxy that remembers the modifications

    [ModTrackingPacket] of retic/tracer.cc and Maple.cc. *)

Record mod_tracking (P : Type) : Type := ModTracking { mt_pkt : P; mt_mods : field_set }.
Arguments ModTracking {P} mt_pkt mt_mods.
Arguments mt_pkt {P} m.
Arguments mt_mods {P} m.

Section ModTracking.
Context {P : Type} `{PacketOps P}.

Definition mt_load (p : mod_tracking P) (m : mask) : res (field * mod_tracking P) :=
  '(f, q) ← pkt_load (mt_pkt p) m; Ok (f, ModTracking q (mt_mods p)).

Definition mt_test (p : mod_tracking P) (f : field) : res (bool * mod_tracking P) :=
  '(b, q) ← pkt_test (mt_pkt p) f; Ok (b, ModTracking q (mt_mods p)).

Definition mt_modify (p : mod_tracking P) (patch : field) : res (mod_tracking P) :=
  q ← pkt_modify (mt_pkt p) patch;
  mods ← modify (mt_mods p) patch;
  Ok (ModTracking q mods).

#[export] Instance mod_tracking_ops : PacketOps (mod_tracking P) :=
  {| pkt_load := mt_load; pkt_test := mt_test; pkt_modify := mt_modify |}.
End ModTracking.

(** Modifying a packet by fields in turn. *)
Fixpoint pkt_modify_all {P} `{PacketOps P} (p : P) (l : list field) : res P :=
  match l with
  | [] => Ok p
  | f :: l => p' ← pkt_modify p f; pkt_modify_all p' l
  end.
