(* ===== verification/Policy.v ===== *)
(** * Policy: the retic policy language, retic/policies.hh and policies.cc

    A policy is a variant over nine alternatives.  A [PacketFunction] holds
    code that the program does not fix; it is modelled as a tree of the calls
    it makes on the packet: it returns a policy, loads a mask, tests a field
    or modifies the packet, and goes on with what it read.  [eval] is the
    meaning of a policy: the packets it sends on, written against the packet
    interface. *)

From S2P Require Import Prelude Bits Oxm FieldSet Packet.

(** ** Flow settings; durations are 32-bit seconds *)

Definition duration_max : N := 0xffffffff.

Record FlowSettings : Type := Settings { idle_timeout : N; hard_timeout : N }.

#[global] Instance FlowSettings_eq_dec : EqDecision FlowSettings.
Proof. solve_decision. Defined.

Definition default_settings : FlowSettings := Settings duration_max duration_max.

(** [operator&] *)
Definition settings_and (lhs rhs : FlowSettings) : FlowSettings :=
  let idle := N.min (idle_timeout lhs) (idle_timeout rhs) in
  let hard := N.min (hard_timeout lhs) (hard_timeout rhs) in
  Settings (N.min idle hard) hard.

Definition settings_eqb (lhs rhs : FlowSettings) : bool :=
  ((idle_timeout lhs =? idle_timeout rhs) && (hard_timeout lhs =? hard_timeout rhs))%N.

(** ** Policies and the functions inside them *)

Inductive policy : Type :=
| Stop
| Id
| Filter (f : field)
| Modify (f : field)
| Flow (s : FlowSettings)
| Negation (p : policy)
| PacketFunction (id : N) (function : handler)
| Sequential (one two : policy)
| Parallel (one two : policy)
with handler : Type :=
| HReturn (p : policy)
| HLoad (m : mask) (k : field → handler)
| HTest (f : field) (k : bool → handler)
| HModify (f : field) (k : handler).

Scheme policy_mut := Induction for policy Sort Prop
with handler_mut := Induction for handler Sort Prop.
Combined Scheme policy_handler_ind from policy_mut, handler_mut.

(** [boost::get<Stop>(&p) != nullptr] and its like. *)
Definition is_stop (p : policy) : bool := match p with Stop => true | _ => false end.

(** The constructors of the language. *)
Module Lang.
Definition fwd (port : N) : res policy :=
  f ← field_exact out_port (Bits 32 port); Ok (Modify f).
Definition stop : policy := Stop.
Definition id : policy := Id.
Definition filter (f : field) : policy := Filter f.
Definition filter_not (f : field) : policy := Negation (Filter f).
(** [handler(function)] numbers the functions from a static counter. *)
Definition new_handler (id_gen : N) (function : handler) : policy * N :=
  (PacketFunction id_gen function, ((id_gen + 1) mod 2 ^ 64)%N).
Definition idle_timeout_of (time : N) : policy := Flow (Settings time duration_max).
Definition hard_timeout_of (time : N) : policy := Flow (Settings time time).
Definition seq (lhs rhs : policy) : policy := Sequential lhs rhs.
Definition negate (p : policy) : policy := Negation p.
End Lang.

(** [operator+] ignores a stop on either side. *)
Definition plus (lhs rhs : policy) : policy :=
  if is_stop lhs then rhs
  else if is_stop rhs then lhs
  else Parallel lhs rhs.

(** [operator==] of the variant: the same alternative with equal contents;
    functions are equal when their numbers are, parallels also crosswise. *)
Fixpoint policy_eqb (lhs rhs : policy) {struct lhs} : bool :=
  match lhs, rhs with
  | Stop, Stop => true
  | Id, Id => true
  | Filter f, Filter g => field_eqb f g
  | Modify f, Modify g => field_eqb f g
  | Flow s, Flow t => settings_eqb s t
  | Negation p, Negation q => policy_eqb p q
  | PacketFunction i _, PacketFunction j _ => (i =? j)%N
  | Sequential a b, Sequential c d => policy_eqb a c && policy_eqb b d
  | Parallel a b, Parallel c d =>
      (policy_eqb a c && policy_eqb b d) || (policy_eqb a d && policy_eqb b c)
  | _, _ => false
  end.

(** ** Well-formedness: registered, well-formed fields and masks *)

Fixpoint policy_wf (p : policy) : Prop :=
  match p with
  | Stop | Id | Flow _ => True
  | Filter f | Modify f => rfield_wf f
  | Negation p => policy_wf p
  | PacketFunction _ h => handler_wf h
  | Sequential a b | Parallel a b => policy_wf a ∧ policy_wf b
  end
with handler_wf (h : handler) : Prop :=
  match h with
  | HReturn p => policy_wf p
  | HLoad m k => rmask_wf m ∧ ∀ f, rfield_wf f → mask_of f = m → handler_wf (k f)
  | HTest f k => rfield_wf f ∧ ∀ b, handler_wf (k b)
  | HModify f k => rfield_wf f ∧ handler_wf k
  end.

(** No functions inside. *)
Fixpoint function_free (p : policy) : bool :=
  match p with
  | Stop | Id | Flow _ | Filter _ | Modify _ => true
  | PacketFunction _ _ => false
  | Negation p => function_free p
  | Sequential a b | Parallel a b => function_free a && function_free b
  end.

(** ** Running a function on a packet *)

Section Run.
Context {P : Type} `{PacketOps P}.

Fixpoint run (h : handler) (p : P) : res (policy * P) :=
  match h with
  | HReturn pol => Ok (pol, p)
  | HLoad m k => '(f, p') ← pkt_load p m; run (k f) p'
  | HTest f k => '(b, p') ← pkt_test p f; run (k b) p'
  | HModify f k => p' ← pkt_modify p f; run k p'
  end.

(** The packets a policy sends on. *)
Fixpoint eval (pol : policy) (p : P) : res (list P) :=
  match pol with
  | Stop => Ok []
  | Id | Flow _ => Ok [p]
  | Filter f => '(b, p') ← pkt_test p f; Ok (if b : bool then [p'] else [])
  | Modify f => p' ← pkt_modify p f; Ok [p']
  | Negation q => l ← eval q p; Ok (match l with [] => [p] | _ => [] end)
  | PacketFunction _ h => heval h p
  | Sequential a b => res_each (eval a p) (eval b)
  | Parallel a b => res_app (eval a p) (eval b p)
  end
with heval (h : handler) (p : P) : res (list P) :=
  match h with
  | HReturn pol => eval pol p
  | HLoad m k => '(f, p') ← pkt_load p m; heval (k f) p'
  | HTest f k => '(b, p') ← pkt_test p f; heval (k b) p'
  | HModify f k => p' ← pkt_modify p f; heval k p'
  end.

Lemma heval_run h p : heval h p = ('(pol, q) ← run h p; eval pol q).
Proof.
  revert p. induction h as [pol | m k IH | f k IH | f k IH]; intros p;
    cbn [heval run]; [done | | |].
  - destruct (pkt_load p m) as [[f q]|]; [apply IH | done].
  - destruct (pkt_test p f) as [[b q]|]; [apply IH | done].
  - destruct (pkt_modify p f) as [q|]; [apply IH | done].
Qed.

End Run.

Lemma settings_eqb_eq s t : settings_eqb s t = true ↔ s = t.
Proof.
  destruct s, t. unfold settings_eqb. cbn. rewrite andb_true_iff, !N.eqb_eq. naive_solver.
Qed.

Lemma perm_nil_match {A B} (l l' : list A) (a b : B) :
  l ≡ₚ l' → match l with [] => a | _ => b end = match l' with [] => a | _ => b end.
Proof.
  intros H. destruct l, l'; try done.
  - by apply Permutation_nil_l in H.
  - symmetry in H. by apply Permutation_nil_l in H.
Qed.

Lemma negation_perm {A} (x y : res (list A)) (l1 l2 : list A) :
  x ≈ₚ y →
  (l ← x; Ok (match l with [] => l1 | _ => l2 end)) ≈ₚ (l ← y; Ok (match l with [] => l1 | _ => l2 end)).
Proof.
  destruct x as [l|], y as [l'|]; cbn; try done. intros H.
  by rewrite (perm_nil_match l l').
Qed.

Lemma policy_eqb_eval {P} `{PacketOps P} p q (x : P) :
  function_free p = true → policy_wf p → policy_wf q →
  policy_eqb p q = true → eval p x ≈ₚ eval q x.
Proof.
  revert q x. induction p as [| | f | f | s | p IH | i h | a IHa b IHb | a IHa b IHb];
    intros q x Hfree Hp Hq E; destruct q; cbn in E, Hfree, Hp, Hq; try discriminate;
    try reflexivity.
  - apply field_eqb_eq in E; [| apply Hp | apply Hq]. by subst.
  - apply field_eqb_eq in E; [| apply Hp | apply Hq]. by subst.
  - cbn [eval]. apply negation_perm. by apply IH.
  - apply andb_true_iff in Hfree as [? ?], E as [? ?]. destruct Hp, Hq.
    cbn [eval]. apply res_each_perm; auto.
  - apply andb_true_iff in Hfree as [? ?]. destruct Hp, Hq. cbn [eval].
    apply orb_true_iff in E as [E | E]; apply andb_true_iff in E as [? ?].
    + by rewrite (IHa q1), (IHb q2).
    + rewrite (IHa q2), (IHb q1) by done. apply res_app_comm.
Qed.

Lemma eval_plus {P} `{PacketOps P} p q (x : P) :
  eval (plus p q) x = res_app (eval p x) (eval q x).
Proof.
  unfold plus. destruct (is_stop p) eqn:Ep; [| destruct (is_stop q) eqn:Eq].
  - destruct p; try discriminate. cbn. by destruct (eval q x).
  - destruct q; try discriminate. cbn [eval].
    destruct (eval p x); cbn; [by rewrite app_nil_r | done].
  - done.
Qed.

(** ** Properties *)

(** [operator&] on flow settings is commutative and associative, never
    exceeds either side, and always yields an idle timeout at most the hard
    timeout, whatever its operands. *)
Theorem settings_and_laws a b c :
  settings_and a b = settings_and b a ∧
  settings_and (settings_and a b) c = settings_and a (settings_and b c) ∧
  (hard_timeout (settings_and a b) ≤ hard_timeout a)%N ∧
  (idle_timeout (settings_and a b) ≤ idle_timeout a)%N ∧
  (idle_timeout (settings_and a b) ≤ hard_timeout (settings_and a b))%N.
Proof.
  destruct a as [ia ha], b as [ib hb], c as [ic hc]. unfold settings_and. cbn.
  split_and!; [f_equal; lia | f_equal; lia | lia | lia | lia].
Qed.

(** [operator==] on function-free policies is semantic: equal policies
    send on the same multiset of packets (or both throw), on every packet of
    any implementation of the packet interface. *)
Theorem policy_equality_is_semantic {P} `{PacketOps P} p q (x : P) :
  function_free p = true → policy_wf p → policy_wf q → policy_eqb p q = true →
  eval p x ≈ₚ eval q x.
Proof. apply policy_eqb_eval. Qed.

Lemma policy_equality_is_semantic_witness :
  eval (Parallel Id (Filter (Field in_port 1 0xffffffff))) ({[ tkey in_port := 1%N ]} : vpacket)
  ≈ₚ eval (Parallel (Filter (Field in_port 1 0xffffffff)) Id) {[ tkey in_port := 1%N ]}.
Proof.
  apply policy_equality_is_semantic;
    try (by vm_compute); repeat split; try (by vm_compute); right; (by left) || by right.
Defined.

(** [operator+] is parallel composition up to the stops it drops: the
    outputs of [p + q] are those of [p] followed by those of [q]. *)
Theorem plus_eval {P} `{PacketOps P} p q (x : P) :
  eval (plus p q) x = res_app (eval p x) (eval q x).
Proof. apply eval_plus. Qed.
