(* ===== verification/Valuation.v ===== *)
(** * Valuation: packets where every registered type is bound

    The specifications of compiled diagrams and of switch tables speak of
    packets that are finite maps binding every type of
    oxm/openflow_basic.hh.  On such a packet nothing throws; a set of fields
    acts on it by one overlay per type ([vapply]), and two sets one after the
    other act as their union ([vapply_funion]). *)

From S2P Require Import Prelude Bits Oxm FieldSet Packet Policy.

Definition full (v : vpacket) : Prop := ∀ t, registered t = true → is_Some (v !! tkey t).

(** Every registered type bound to zero, updated by the given values. *)
Definition zero_packet : vpacket := list_to_map (map (λ t, (tkey t, 0%N)) registry).

Definition with_values (l : list (otype * N)) : vpacket :=
  fold_right (λ '(t, n) v, <[tkey t := n]> v) zero_packet l.

Lemma full_zero : full zero_packet.
Proof.
  intros t Ht. apply registered_spec in Ht.
  assert (H : forallb (λ t, bool_decide (is_Some (zero_packet !! tkey t))) registry = true)
    by by vm_compute.
  rewrite forallb_forall in H. apply list_elem_of_In in Ht. specialize (H _ Ht).
  by apply bool_decide_eq_true in H.
Qed.

Lemma full_insert v k n : full v → full (<[k := n]> v).
Proof.
  intros H t Ht. destruct (decide (k = tkey t)) as [-> | Hne].
  - rewrite lookup_insert_eq. eauto.
  - rewrite lookup_insert_ne by done. auto.
Qed.

Lemma full_with_values l : full (with_values l).
Proof. induction l as [|[t n] l IH]; cbn; [apply full_zero | by apply full_insert]. Qed.
#[export] Hint Resolve full_zero full_insert full_with_values : runos.

Lemma vtest v f :
  full v → rfield_wf f → pkt_test v f = Ok (satb (vview v (f_type f)) f, v).
Proof.
  intros Hv Hf. rewrite test_law by done. cbn. unfold vbound.
  destruct (Hv (f_type f)) as [x Hx]; [apply Hf |]. by rewrite Hx.
Qed.

Lemma vload_full v m :
  full v → rmask_wf m → pkt_load v m = Ok (loadv (vview v (m_type m)) m, v).
Proof.
  intros Hv Hm. rewrite load_law by done. cbn. unfold vbound.
  destruct (Hv (m_type m)) as [x Hx]; [apply Hm |]. by rewrite Hx.
Qed.

Lemma vmodify_full v f :
  full v → rfield_wf f →
  pkt_modify v f = Ok (<[tkey (f_type f) := patchv (vview v (f_type f)) f]> v).
Proof.
  intros Hv Hf. cbn. unfold vmodify, vview.
  destruct (Hv (f_type f)) as [x Hx]; [apply Hf |]. by rewrite Hx.
Qed.

Lemma full_same_bound v w :
  full v → full w → ∀ t, registered t = true → pbound v t = pbound w t.
Proof.
  intros Hv Hw t Ht. cbn. unfold vbound.
  by rewrite !bool_decide_eq_true_2 by (apply Hv || apply Hw; done).
Qed.

(** ** Field sets as overlays *)

Definition overlay (x : option N) (f : option field) : option N :=
  match x, f with
  | Some n, Some f => Some (patchv n f)
  | _, _ => x
  end.
Definition vapply (fs : field_set) (v : vpacket) : vpacket := merge overlay v fs.

Lemma lookup_vapply fs v k : vapply fs v !! k = overlay (v !! k) (fs !! k).
Proof. unfold vapply. rewrite lookup_merge. by destruct (v !! k), (fs !! k). Qed.

Lemma vapply_empty v : vapply ∅ v = v.
Proof. apply map_eq. intros k. rewrite lookup_vapply, lookup_empty. by destruct (v !! k). Qed.

Lemma full_vapply fs v : full v → full (vapply fs v).
Proof.
  intros H t Ht. rewrite lookup_vapply. destruct (H t Ht) as [x ->]. cbn.
  destruct (fs !! tkey t); eauto.
Qed.
#[export] Hint Resolve full_vapply : runos.

Definition keyed (kl : list (key * field)) : Prop :=
  NoDup kl.*1 ∧ Forall (λ kf, kf.1 = tkey (f_type kf.2) ∧ rfield_wf kf.2) kl.

Lemma keyed_cons k f kl :
  keyed ((k, f) :: kl) →
  k = tkey (f_type f) ∧ rfield_wf f ∧ keyed kl ∧ (list_to_map kl : field_set) !! k = None.
Proof.
  intros [Hd Hf]. inversion Hd as [|? ? Hni Hd' E]; subst.
  inv_Forall. repeat match goal with H : _ ∧ _ |- _ => destruct H end. cbn in *.
  split_and!; [done | done | by split |]. by apply not_elem_of_list_to_map_1.
Qed.

Lemma keyed_map_to_list fs : fs_wf fs → keyed (map_to_list fs).
Proof.
  intros H. split; [apply NoDup_fst_map_to_list |]. apply map_Forall_to_list in H.
  eapply Forall_impl; [| exact H]. by intros [k f].
Qed.

Lemma modify_all_vapply_list kl v :
  keyed kl → full v → pkt_modify_all v kl.*2 = Ok (vapply (list_to_map kl) v).
Proof.
  revert v. induction kl as [|[k f] kl IH]; intros v Hk Hv; cbn -[pkt_modify].
  - by rewrite vapply_empty.
  - destruct (keyed_cons _ _ _ Hk) as (-> & Hf & Hk' & Hn).
    rewrite vmodify_full by done. cbn [mbind res_bind]. rewrite IH by auto with runos.
    f_equal. apply map_eq. intros k. rewrite !lookup_vapply.
    destruct (Hv (f_type f)) as [x Hx]; [apply Hf |].
    unfold vview. rewrite Hx. cbn [default].
    destruct (decide (k = tkey (f_type f))) as [-> | Hne].
    + by rewrite !lookup_insert_eq, Hn, Hx.
    + by rewrite !lookup_insert_ne by done.
Qed.

Lemma modify_all_vapply fs v :
  fs_wf fs → full v → pkt_modify_all v (elements fs) = Ok (vapply fs v).
Proof.
  intros Hfs Hv. unfold elements. rewrite modify_all_vapply_list; [| | done].
  - by rewrite list_to_map_to_list.
  - by apply keyed_map_to_list.
Qed.

(** ** Modifying one set by another *)

Definition patch_entry (x y : option field) : option field :=
  match x, y with
  | Some f, Some g => Some (fpatch f g)
  | None, Some g => Some g
  | _, None => x
  end.
Definition funion (lhs rhs : field_set) : field_set := merge patch_entry lhs rhs.

Lemma lookup_funion lhs rhs k : funion lhs rhs !! k = patch_entry (lhs !! k) (rhs !! k).
Proof. unfold funion. rewrite lookup_merge. by destruct (lhs !! k), (rhs !! k). Qed.

Lemma modify_all_funion_list kl fs :
  keyed kl → fs_wf fs → modify_all fs kl.*2 = Ok (funion fs (list_to_map kl)) ∧
    fs_wf (funion fs (list_to_map kl)).
Proof.
  revert fs. induction kl as [|[k f] kl IH]; intros fs Hk Hfs; cbn.
  - assert (E : funion fs ∅ = fs); [| by rewrite E].
    apply map_eq. intros k. rewrite lookup_funion, lookup_empty. by destruct (fs !! k).
  - destruct (keyed_cons _ _ _ Hk) as (-> & Hf & Hk' & Hn).
    rewrite modify_ok by done. cbn [mbind res_bind].
    destruct (IH (pmodify fs f)) as [-> Hw]; [done | by apply pmodify_wf |].
    assert (E : funion (pmodify fs f) (list_to_map kl)
                = funion fs (<[tkey (f_type f) := f]> (list_to_map kl))); [| by rewrite <- E].
    apply map_eq. intros k. rewrite !lookup_funion. unfold pmodify, find.
    destruct (decide (k = tkey (f_type f))) as [-> | Hne].
    + rewrite !lookup_insert_eq, Hn. by destruct (fs !! _).
    + by rewrite !lookup_insert_ne by done.
Qed.

Lemma modify_all_funion lhs rhs :
  fs_wf lhs → fs_wf rhs →
  modify_all lhs (elements rhs) = Ok (funion lhs rhs) ∧ fs_wf (funion lhs rhs).
Proof.
  intros Hl Hr. unfold elements.
  destruct (modify_all_funion_list (map_to_list rhs) lhs) as [E Hw];
    [by apply keyed_map_to_list | done |].
  rewrite list_to_map_to_list in E, Hw. done.
Qed.

Lemma patchv_fpatch n f g :
  f_val f ⊑b f_msk f → f_val g ⊑b f_msk g → patchv (patchv n f) g = patchv n (fpatch f g).
Proof. intros Hf Hg. unfold patchv, fpatch. cbn. Nbits. Qed.

Lemma vapply_funion lhs rhs v :
  fs_wf lhs → fs_wf rhs → vapply (funion lhs rhs) v = vapply rhs (vapply lhs v).
Proof.
  intros Hl Hr. apply map_eq. intros k. rewrite !lookup_vapply, lookup_funion.
  destruct (v !! k) as [n|], (lhs !! k) as [f|] eqn:Ef, (rhs !! k) as [g|] eqn:Eg; try done.
  cbn. f_equal. symmetry. apply patchv_fpatch.
  - by destruct (Hl _ _ Ef) as (_ & _ & _ & ?).
  - by destruct (Hr _ _ Eg) as (_ & _ & _ & ?).
Qed.

(** ** Nothing throws on a full packet *)

Definition ok_full (x : res (list vpacket)) : Prop := ∃ l, x = Ok l ∧ Forall full l.

Lemma ok_full_nil : ok_full (Ok []).
Proof. by exists []. Qed.
Lemma ok_full_one v : full v → ok_full (Ok [v]).
Proof. exists [v]. auto. Qed.
Lemma ok_full_app x y : ok_full x → ok_full y → ok_full (res_app x y).
Proof. intros (l & -> & Hl) (l' & -> & Hl'). exists (l ++ l'). split; [done |]. by apply Forall_app. Qed.
Lemma ok_full_concat l : Forall ok_full l → ok_full (concat_res l).
Proof.
  induction 1 as [|x l Hx Hl IH]; cbn; [apply ok_full_nil | by apply ok_full_app].
Qed.
Lemma ok_full_each (x : res (list vpacket)) (f : vpacket → res (list vpacket)) : ok_full x → (∀ v, full v → ok_full (f v)) → ok_full (res_each x f).
Proof.
  intros (l & -> & Hl) Hf. apply ok_full_concat. apply Forall_map.
  eapply Forall_impl; [| exact Hl]. done.
Qed.
#[export] Hint Resolve ok_full_nil ok_full_one ok_full_app ok_full_each : runos.

Lemma res_each_full {B : Type} (x y : res (list vpacket)) (f g : vpacket → res (list B)) :
  ok_full x → x ≈ₚ y → (∀ v, full v → f v ≈ₚ g v) → res_each x f ≈ₚ res_each y g.
Proof.
  intros (l & -> & Hl) Hxy Hfg. destruct y as [l'|]; [| done]. cbn in *.
  rewrite (concat_res_map_perm f g).
  - by rewrite Hxy.
  - intros a Ha. apply Hfg. by eapply (Forall_elem full).
Qed.

Lemma eval_handler_full :
  (∀ p, policy_wf p → ∀ v : vpacket, full v → ok_full (eval p v)) ∧
  (∀ h, handler_wf h → ∀ v : vpacket, full v → ok_full (heval h v)).
Proof.
  apply policy_handler_ind; cbn [policy_wf handler_wf eval heval]; auto with runos.
  - intros f Hf v Hv. rewrite vtest by done. cbn. destruct (satb _ _); auto with runos.
  - intros f Hf v Hv. rewrite vmodify_full by done. cbn. auto with runos.
  - intros p IH Hp v Hv. destruct (IH Hp v Hv) as (l & -> & _). cbn.
    destruct l; auto with runos.
  - intros a IHa b IHb [Ha Hb] v Hv. apply ok_full_each; auto.
  - intros a IHa b IHb [Ha Hb] v Hv. apply ok_full_app; auto.
  - intros m k IH [Hm Hk] v Hv. rewrite vload_full by done. cbn.
    apply IH; [| done]. apply Hk; [by apply loadv_wf | by destruct m].
  - intros f k IH [Hf Hk] v Hv. rewrite vtest by done. cbn. by apply IH.
  - intros f k IH [Hf Hk] v Hv. rewrite vmodify_full by done. cbn. apply IH; auto with runos.
Qed.

Lemma eval_full p v : policy_wf p → full v → ok_full (eval p v).
Proof. intros. by apply eval_handler_full. Qed.
Lemma heval_full h v : handler_wf h → full v → ok_full (heval h v).
Proof. intros. by apply eval_handler_full. Qed.
#[export] Hint Resolve eval_full heval_full : runos.
