(* ===== verification/Fdd.v ===== *)
(** * Fdd: forwarding decision diagrams, retic/fdd.hh, and the data of
    retic/trace_tree.hh

    A diagram tests fields down to a leaf; a leaf holds action units and, for
    the units that call a function, a trace tree.  A trace tree's leaf points
    to the diagram compiled from what the function returned; the pointers are
    shared, so they are locations of a heap of diagrams.
    The priorities a leaf remembers are written by the translator and absent
    before. *)

From S2P Require Import Prelude Bits Oxm FieldSet Packet Policy.

(** ** Trace trees (retic/trace_tree.hh) *)

Abbreviation loc := positive.

Inductive tnode : Type :=
| Unexplored
| LeafNode (p : policy) (kat_diagram : option loc)
| TestNode (need : field) (positive negative : tnode)
| LoadNode (m : mask) (cases : list (N * tnode)).

(** ** Diagrams (retic/fdd.hh) *)

Inductive action_unit : Type :=
| ActionUnit (pred_actions : field_set) (body : option (N * handler))
             (post_actions : option action_unit).

Definition action_unit_ind' (P : action_unit → Prop)
  (Hnone : ∀ acts b, P (ActionUnit acts b None))
  (Hsome : ∀ acts b a, P a → P (ActionUnit acts b (Some a))) : ∀ a, P a :=
  fix go a := match a with
              | ActionUnit acts b None => Hnone acts b
              | ActionUnit acts b (Some a) => Hsome acts b a (go a)
              end.

Definition pred_actions (a : action_unit) : field_set := let '(ActionUnit p _ _) := a in p.
Definition body (a : action_unit) : option (N * handler) := let '(ActionUnit _ b _) := a in b.
Definition post_actions (a : action_unit) : option action_unit :=
  let '(ActionUnit _ _ p) := a in p.

(** [action_unit{}] and [action_unit(acts)] *)
Definition empty_unit : action_unit := ActionUnit ∅ None None.
Definition unit_of (acts : field_set) : action_unit := ActionUnit acts None None.

Record leaf : Type := MkLeaf {
  sets : list action_unit;
  flow_settings : FlowSettings;
  maple_tree : tnode;
  prio_down : option N;
  prio_up : option N
}.

(** [leaf{sets, settings}] *)
Definition new_leaf (s : list action_unit) (fs : FlowSettings) : leaf :=
  MkLeaf s fs Unexplored None None.

(** [leaf{}] *)
Definition empty_leaf : leaf := new_leaf [] default_settings.

Inductive diagram : Type :=
| Leaf (l : leaf)
| Node (f : field) (positive negative : diagram).

(** ** Comparison *)

Definition body_eqb (lhs rhs : option (N * handler)) : bool :=
  match lhs, rhs with
  | None, None => true
  | Some (i, _), Some (j, _) => (i =? j)%N
  | _, _ => false
  end.

Fixpoint action_unit_eqb (lhs rhs : action_unit) {struct lhs} : bool :=
  let 'ActionUnit lp lb lq := lhs in
  let 'ActionUnit rp rb rq := rhs in
  match lq, rq with
  | Some l, Some r => fs_eqb lp rp && body_eqb lb rb && action_unit_eqb l r
  | None, None => fs_eqb lp rp && body_eqb lb rb
  | _, _ => false
  end.

Definition leaf_eqb (lhs rhs : leaf) : bool :=
  forallb (λ f, existsb (action_unit_eqb f) (sets rhs)) (sets lhs) &&
  forallb (λ f, existsb (action_unit_eqb f) (sets lhs)) (sets rhs) &&
  settings_eqb (flow_settings lhs) (flow_settings rhs).

Fixpoint diagram_eqb (lhs rhs : diagram) : bool :=
  match lhs, rhs with
  | Leaf l, Leaf r => leaf_eqb l r
  | Node f p q, Node g p' q' => field_eqb f g && diagram_eqb p p' && diagram_eqb q q'
  | _, _ => false
  end.

(** ** Evaluation: [PlainTraverser] of traverse_fdd.cc *)

Section Traverse.
Context {P : Type} `{PacketOps P}.

Fixpoint plain_traverse (d : diagram) (p : P) : res (leaf * P) :=
  match d with
  | Leaf l => Ok (l, p)
  | Node f pos neg =>
      '(b, p') ← pkt_test p f;
      if b : bool then plain_traverse pos p' else plain_traverse neg p'
  end.

(** What an action unit does to a packet: its fields, then its function, then
    its post actions on what the function sent on. *)
Fixpoint unit_eval (a : action_unit) (p : P) {struct a} : res (list P) :=
  let 'ActionUnit acts b post := a in
  p' ← pkt_modify_all p (elements acts);
  res_each
    (match b with None => Ok [p'] | Some (_, h) => heval h p' end)
    (λ q, match post with None => Ok [q] | Some a' => unit_eval a' q end).

Definition leaf_eval (l : leaf) (p : P) : res (list P) :=
  concat_res (map (λ a, unit_eval a p) (sets l)).

(** What a diagram sends on. *)
Fixpoint outs (d : diagram) (p : P) : res (list P) :=
  match d with
  | Leaf l => leaf_eval l p
  | Node f pos neg =>
      '(b, p') ← pkt_test p f;
      if b : bool then outs pos p' else outs neg p'
  end.

Lemma outs_plain_traverse d p : outs d p = ('(l, p') ← plain_traverse d p; leaf_eval l p').
Proof.
  revert p. induction d as [l | f pos IHp neg IHn]; intros p; cbn [outs plain_traverse]; [done |].
  destruct (pkt_test p f) as [[[] q]|]; cbn; [apply IHp | apply IHn | done].
Qed.
End Traverse.

(** [leaf_is_temporary] *)
Definition leaf_is_temporary {P} `{PacketOps P} (p : P) (d : diagram) : res bool :=
  '(l, _) ← plain_traverse d p; Ok (hard_timeout (flow_settings l) =? 0)%N.

(** The number of nodes. *)
Fixpoint dsize (d : diagram) : nat :=
  match d with Leaf _ => 0 | Node _ p q => S (dsize p + dsize q) end.
