(* ===== verification/FddCompiler.v ===== *)
(** * FddCompiler: policies to diagrams, retic/fdd_compiler.cc

    Parallel composition of two nodes may call itself with the arguments
    swapped, so it runs on fuel; everything built on it carries the fuel.
    The fuel is a bound on the depth of calls: [parallel_composition_correct] of
    FddCorrect gives one that is enough when every test is exact, and
    [parallel_diverges] shows that two
    filters of one type with equal values and different masks exhaust any. *)

From S2P Require Import Prelude Bits Oxm FieldSet Packet Policy Valuation Fdd.

(** [compare_types]: the shift is done in [int], the difference in
    [uint64_t], and the result is cut to [int]. *)
Definition to_i32 (z : Z) : Z := (let r := z mod 2 ^ 32 in if r <? 2 ^ 31 then r else r - 2 ^ 32)%Z.

Definition type_id (t : otype) : Z :=
  (to_i32 (Z.lor (Z.shiftl (Z.of_N (ns t)) 16) (Z.of_N (id t))) mod 2 ^ 64)%Z.

Definition compare_types (lhs_type rhs_type : otype) : Z :=
  to_i32 ((type_id rhs_type - type_id lhs_type) mod 2 ^ 64).

(** [value_bits() < value_bits()] of two fields of one width *)
Definition value_ltb (f g : field) : bool := (f_val f <? f_val g)%N.

(** ** Parallel composition *)

Definition par_leaf (lhs rhs : leaf) : leaf :=
  new_leaf (sets lhs ++ sets rhs) (settings_and (flow_settings lhs) (flow_settings rhs)).

Fixpoint par (fuel : nat) (lhs rhs : diagram) : comp diagram :=
  match fuel with
  | O => NoFuel
  | S n =>
      match lhs, rhs with
      | Leaf l, Leaf r => Ret (Leaf (par_leaf l r))
      | Node f lp ln, Leaf _ =>
          positive ← par n lp rhs;
          negative ← par n ln rhs;
          Ret (Node f positive negative)
      | Leaf _, Node _ _ _ => par n rhs lhs
      | Node f lp ln, Node g rp rn =>
          if field_eqb f g then
            positive ← par n lp rp;
            negative ← par n ln rn;
            Ret (Node f positive negative)
          else if type_eqb (f_type f) (f_type g) then
            if value_ltb f g then
              positive ← par n lp rn;
              negative ← par n ln rhs;
              Ret (Node f positive negative)
            else par n rhs lhs
          else if (compare_types (f_type f) (f_type g) >? 0)%Z then
            positive ← par n lp rhs;
            negative ← par n ln rhs;
            Ret (Node f positive negative)
          else par n rhs lhs
      end
  end.

(** ** Sequential composition *)

Definition field_set_union (lhs rhs : field_set) : res field_set :=
  modify_all lhs (elements rhs).

Fixpoint seq_actions (one two : action_unit) {struct one} : res action_unit :=
  let 'ActionUnit acts b post := one in
  match b with
  | Some f =>
      passed ← match post with
               | None => u ← field_set_union ∅ (pred_actions two);
                         Ok (ActionUnit u (body two) (post_actions two))
               | Some p => seq_actions p two
               end;
      Ok (ActionUnit acts (Some f) (Some passed))
  | None =>
      u ← field_set_union acts (pred_actions two);
      Ok (ActionUnit u (body two) (post_actions two))
  end.

Fixpoint mapM_res {A B} (f : A → res B) (l : list A) : res (list B) :=
  match l with
  | [] => Ok []
  | a :: l => b ← f a; bs ← mapM_res f l; Ok (b :: bs)
  end.

(** [left_action_applier] *)
Fixpoint left_action_applier (action : action_unit) (d : diagram) : res diagram :=
  match d with
  | Leaf l =>
      s ← mapM_res (seq_actions action) (sets l);
      Ok (Leaf (new_leaf s (flow_settings l)))
  | Node f p n =>
      match find (pred_actions action) (f_type f) with
      | None =>
          positive ← left_action_applier action p;
          negative ← left_action_applier action n;
          Ok (Node f positive negative)
      | Some g =>
          if field_eqb g f then left_action_applier action p
          else left_action_applier action n
      end
  end.

Fixpoint seq_units (fuel : nat) (l : list action_unit) (rhs result : diagram) : comp diagram :=
  match l with
  | [] => Ret result
  | action :: l =>
      current ← lift (left_action_applier action rhs);
      result' ← par fuel result current;
      seq_units fuel l rhs result'
  end.

Definition seq_leaf (fuel : nat) (lhs : leaf) (rhs : diagram) : comp diagram :=
  match sets lhs with
  | [] => Ret (Leaf empty_leaf)
  | _ => seq_units fuel (sets lhs) rhs (Leaf (new_leaf [] (flow_settings lhs)))
  end.

(** ** Restriction *)

Fixpoint applier_true (f : field) (d : diagram) : diagram :=
  match d with
  | Leaf l => Node f (Leaf l) (Leaf empty_leaf)
  | Node g p n =>
      if field_eqb g f then Node f p (Leaf empty_leaf)
      else if type_eqb (f_type g) (f_type f) then applier_true f n
      else if (compare_types (f_type f) (f_type g) >? 0)%Z then Node f d (Leaf empty_leaf)
      else Node g (applier_true f p) (applier_true f n)
  end.

Fixpoint applier_false (f : field) (d : diagram) : diagram :=
  match d with
  | Leaf l => Node f (Leaf empty_leaf) (Leaf l)
  | Node g p n =>
      if field_eqb g f then Node f (Leaf empty_leaf) n
      else if type_eqb (f_type g) (f_type f) then
        if value_ltb g f then Node g p (applier_false f n)
        else Node f (Leaf empty_leaf) d
      else if (compare_types (f_type f) (f_type g) >? 0)%Z then Node f (Leaf empty_leaf) d
      else Node g (applier_false f p) (applier_false f n)
  end.

Definition restriction (f : field) (d : diagram) (test : bool) : diagram :=
  if test then applier_true f d else applier_false f d.

Fixpoint seqd (fuel : nat) (lhs rhs : diagram) : comp diagram :=
  match lhs with
  | Leaf l => seq_leaf fuel l rhs
  | Node f p n =>
      one ← seqd fuel p rhs;
      two ← seqd fuel n rhs;
      par fuel (restriction f one true) (restriction f two false)
  end.

(** ** Negation *)

Definition neg_leaf (l : leaf) : leaf :=
  match sets l with
  | [] => new_leaf [unit_of ∅] (flow_settings l)
  | _ => new_leaf [] (flow_settings l)
  end.

Fixpoint negd (d : diagram) : diagram :=
  match d with
  | Leaf l => Leaf (neg_leaf l)
  | Node f p n => Node f (negd p) (negd n)
  end.

(** ** The compiler *)

Definition leaf_of (u : action_unit) : diagram := Leaf (new_leaf [u] default_settings).

Fixpoint compile (fuel : nat) (p : policy) : comp diagram :=
  match p with
  | Stop => Ret (Leaf empty_leaf)
  | Id => Ret (leaf_of (unit_of ∅))
  | Filter f => Ret (Node f (leaf_of (unit_of ∅)) (Leaf empty_leaf))
  | Modify f => Ret (leaf_of (unit_of (of_list [f])))
  | Flow s => Ret (Leaf (new_leaf [unit_of ∅] s))
  | Negation q => d ← compile fuel q; Ret (negd d)
  | PacketFunction i h => Ret (leaf_of (ActionUnit ∅ (Some (i, h)) None))
  | Sequential a b =>
      d1 ← compile fuel a;
      d2 ← compile fuel b;
      seqd fuel d1 d2
  | Parallel a b =>
      d1 ← compile fuel a;
      d2 ← compile fuel b;
      par fuel d1 d2
  end.

(** ** Properties *)

(** the compiler does not terminate on two parallel filters of one type
    with equal values under different masks: each call swaps the arguments,
    whatever the fuel. *)
Theorem parallel_diverges f g :
  rfield_wf f → rfield_wf g → f_type f = f_type g → f_val f = f_val g → f_msk f ≠ f_msk g →
  ∀ n, compile n (Parallel (Filter f) (Filter g)) = NoFuel.
Proof.
  intros Hf Hg Et Ev Hm n. cbn [compile mbind comp_bind].
  assert (H : ∀ n a b p q p' q', field_eqb a b = false → field_eqb b a = false →
    f_type a = f_type b → f_val a = f_val b → par n (Node a p q) (Node b p' q') = NoFuel).
  { clear. induction n as [|n IH]; intros a b p q p' q' H1 H2 Et Ev; [done |].
    cbn [par]. rewrite H1, Et, type_eqb_refl. unfold value_ltb. rewrite Ev, N.ltb_irrefl.
    by apply IH. }
  apply H; try done; apply not_true_iff_false;
    rewrite field_eqb_eq by (apply Hf || apply Hg); intros ->; by apply Hm.
Qed.

Lemma parallel_diverges_witness :
  compile 1000 (Parallel (Filter (Field ipv4_src 0x0a000000 0xff000000))
                         (Filter (Field ipv4_src 0x0a000000 0xffff0000))) = NoFuel.
Proof.
  apply (parallel_diverges (Field ipv4_src 0x0a000000 0xff000000) (Field ipv4_src 0x0a000000 0xffff0000));
    try done; repeat split; try (by vm_compute); by left.
Defined.

(** the exactness hypothesis of [compile_correct] is needed: a masked
    modification followed by an exact filter on the same type is resolved to
    the negative branch, and the packet the policy sends on is dropped. *)
Theorem masked_modify_miscompiled :
  let p := Sequential (Modify (Field eth_dst 0x000001 0xffffff))
                      (Filter (Field eth_dst 0xaabbcc000001 0xffffffffffff)) in
  let v := with_values [(eth_dst, 0xaabbcc000005%N)] in
  ∃ d, (∀ n, (8 ≤ n)%nat → compile n p = Ret d) ∧ outs d v = Ok [] ∧ (length <$> eval p v) = Ok 1%nat.
Proof.
  intros p v. eexists. split_and!.
  - intros n Hn. replace n with (8 + (n - 8))%nat by lia. reflexivity.
  - vm_compute. reflexivity.
  - vm_compute. reflexivity.
Qed.

(** the ordering hypothesis of [compile_correct] is needed: a filter after
    a function is tested on the packet before the function ran, so the change
    the function makes is not seen. *)
Theorem filter_after_function_miscompiled :
  let h := HModify (Field eth_type 0x0800 0xffff) (HReturn Id) in
  let p := Sequential (PacketFunction 0 h) (Filter (Field eth_type 0x0800 0xffff)) in
  let v := with_values [(eth_type, 0x0806%N)] in
  ∃ d, (∀ n, (8 ≤ n)%nat → compile n p = Ret d) ∧ outs d v = Ok [] ∧ (length <$> eval p v) = Ok 1%nat.
Proof.
  intros h p v. eexists. split_and!.
  - intros n Hn. replace n with (8 + (n - 8))%nat by lia. reflexivity.
  - vm_compute. reflexivity.
  - vm_compute. reflexivity.
Qed.
