(* ===== verification/FddCorrect.v ===== *)
(** * FddCorrect: what the compiled diagram means

    A diagram whose tests are exact ([dok]) sends on, on every full packet,
    exactly the packets the policy semantics [eval] says; parallel
    composition converges on such diagrams.  The conditions are those the
    compiler needs: exact filters and modifications, negation of function-free
    policies only, and no test after a function. *)

From S2P Require Import Prelude Bits Oxm FieldSet Packet Policy Valuation Fdd FddCompiler.

(** ** Well-formed diagrams *)

Definition rfield_exact (f : field) : Prop := rfield_wf f ∧ fexact f.

(** A test of the same, for concrete fields. *)
Lemma rfield_exact_test f :
  registered (f_type f) && (f_msk f =? N.ones (nbits (f_type f)))%N
  && (N.land (f_val f) (f_msk f) =? f_val f)%N = true → rfield_exact f.
Proof.
  rewrite !andb_true_iff, !N.eqb_eq. intros [[Hr Hm] Hv].
  split; [split; [done |] | done]. split; [| done].
  rewrite Hm. apply msk_ok_ones.
Qed.

Definition fs_exact (fs : field_set) : Prop := fs_wf fs ∧ map_Forall (λ _ f, fexact f) fs.

Fixpoint unit_ok (a : action_unit) : Prop :=
  let 'ActionUnit acts b post := a in
  fs_exact acts ∧
  match b with
  | None => post = None
  | Some (_, h) => handler_wf h
  end ∧
  match post with None => True | Some a' => unit_ok a' end.

Definition leaf_ok (l : leaf) : Prop := Forall unit_ok (sets l).

Fixpoint dok (d : diagram) : Prop :=
  match d with
  | Leaf l => leaf_ok l
  | Node f p n => rfield_exact f ∧ dok p ∧ dok n
  end.

Definition is_leaf (d : diagram) : Prop := match d with Leaf _ => True | _ => False end.

(** No functions in the leaves. *)
Fixpoint dpure (d : diagram) : Prop :=
  match d with
  | Leaf l => Forall (λ a, body a = None) (sets l)
  | Node _ p n => dpure p ∧ dpure n
  end.

(** ** Exact fields of one type *)

Lemma satb_exact v f g :
  rfield_exact f → rfield_exact g → type_eqb (f_type f) (f_type g) = true →
  satb v f = true → satb v g = true → f = g.
Proof.
  intros [[Hf _] Ef] [[Hg _] Eg] Ht Hsf Hsg.
  pose proof (registry_keys_inj _ _ Hf Hg Ht) as E.
  apply N.eqb_eq in Hsf, Hsg. destruct f as [t vf mf], g as [t' vg mg]. unfold fexact in *.
  cbn in *. subst. done.
Qed.

Lemma field_eqb_rfield f g : rfield_exact f → rfield_exact g → field_eqb f g = true ↔ f = g.
Proof. intros [[Hf _] _] [[Hg _] _]. by apply field_eqb_eq. Qed.

Lemma field_eqb_false f g : rfield_exact f → rfield_exact g → field_eqb f g = false ↔ f ≠ g.
Proof.
  intros Hf Hg. rewrite <- not_true_iff_false. by rewrite field_eqb_rfield.
Qed.

(** Patching with an exact field leaves exactly its value. *)
Lemma satb_patchv_exact n f g :
  rfield_exact f → rfield_exact g → f_type f = f_type g →
  satb (patchv n g) f = field_eqb g f.
Proof.
  intros Hf Hg E. apply eq_true_iff_eq. rewrite field_eqb_rfield by done.
  destruct Hf as [[Hrf [_ Hvf]] Ef], Hg as [[Hrg [_ Hvg]] Eg].
  destruct f as [t vf mf], g as [t' vg mg]. unfold fexact in *. cbn in *. subst.
  unfold satb, patchv. cbn. rewrite N.eqb_eq.
  replace (N.land (N.lor (N.ldiff n (N.ones (nbits t'))) vg) (N.ones (nbits t'))) with vg.
  - naive_solver.
  - rewrite <- Hvg. Nbits.
Qed.

(** ** Evaluation on full packets *)

Lemma outs_node f p n v :
  full v → rfield_wf f →
  outs (Node f p n) v = if satb (vview v (f_type f)) f then outs p v else outs n v.
Proof. intros Hv Hf. cbn [outs]. by rewrite vtest. Qed.

Lemma unit_eval_eq acts b post v :
  fs_wf acts → full v →
  unit_eval (ActionUnit acts b post) v =
  res_each (match b with None => Ok [vapply acts v] | Some (_, h) => heval h (vapply acts v) end)
           (λ q, match post with None => Ok [q] | Some a' => unit_eval a' q end).
Proof. intros Ha Hv. cbn [unit_eval]. by rewrite modify_all_vapply. Qed.

Lemma unit_eval_full a v : unit_ok a → full v → ok_full (unit_eval a v).
Proof.
  revert v. induction a as [acts b | acts b a IH] using action_unit_ind';
    intros v (Ha & Hb & Hp) Hv; (rewrite unit_eval_eq by (done || apply Ha)); apply ok_full_each;
    auto with runos; destruct b as [[i h]|]; auto with runos.
Qed.

Lemma unit_eval_pure acts v :
  fs_wf acts → full v → unit_eval (unit_of acts) v ≈ₚ Ok [vapply acts v].
Proof. intros Ha Hv. unfold unit_of. by rewrite unit_eval_eq. Qed.

Lemma outs_full d v : dok d → full v → ok_full (outs d v).
Proof.
  induction d as [l | f p IHp n IHn]; intros Hd Hv.
  - cbn. unfold leaf_eval. apply ok_full_concat. apply Forall_map.
    eapply Forall_impl; [| exact Hd]. intros a Ha. by apply unit_eval_full.
  - destruct Hd as (Hf & Hp & Hn). rewrite outs_node by (done || apply Hf).
    destruct (satb _ f); auto.
Qed.
#[export] Hint Resolve unit_eval_full outs_full : runos.

(** ** Field sets and units in sequence *)

Lemma fexact_fpatch f g : fexact f → f_type f = f_type g → f_val g ⊑b f_msk g → fexact g → fexact (fpatch f g).
Proof.
  unfold fexact. cbn. intros -> -> _ ->. apply N.lor_diag.
Qed.

Lemma fs_exact_empty : fs_exact ∅.
Proof. split; [apply fs_wf_empty | apply map_Forall_empty]. Qed.

Lemma fs_exact_union lhs rhs :
  fs_exact lhs → fs_exact rhs →
  field_set_union lhs rhs = Ok (funion lhs rhs) ∧ fs_exact (funion lhs rhs).
Proof.
  intros [Hl El] [Hr Er]. destruct (modify_all_funion lhs rhs Hl Hr) as [E Hw].
  split; [exact E |]. split; [done |]. intros k f. rewrite lookup_funion.
  destruct (lhs !! k) as [a|] eqn:Ea, (rhs !! k) as [b|] eqn:Eb; cbn; intros [= <-].
  - pose proof (Hl _ _ Ea) as (Ka & Ra & _). pose proof (Hr _ _ Eb) as (Kb & Rb & _ & Hb).
    apply fexact_fpatch; [by eapply El | | done | by eapply Er].
    apply registry_keys_inj; [done | done |]. apply type_eqb_key. congruence.
  - by eapply El.
  - by eapply Er.
Qed.

Lemma seq_actions_ok one two :
  unit_ok one → unit_ok two →
  ∃ u, seq_actions one two = Ok u ∧ unit_ok u ∧
    (body one = None → body u = body two) ∧
    ∀ v, full v → unit_eval u v ≈ₚ res_each (unit_eval one v) (unit_eval two).
Proof.
  intros H1 H2. destruct two as [acts2 b2 post2]. pose proof H2 as (Ha2 & Hb2 & Hp2).
  assert (Hpure : ∀ acts, fs_exact acts → ∃ u,
    (u' ← field_set_union acts acts2; Ok (ActionUnit u' b2 post2)) = Ok u ∧ unit_ok u ∧
    body u = b2 ∧
    ∀ v, full v → unit_eval u v ≈ₚ unit_eval (ActionUnit acts2 b2 post2) (vapply acts v)).
  { intros acts0 H0. destruct (fs_exact_union _ _ H0 Ha2) as [-> Hu]. cbn [mbind res_bind].
    eexists. split; [done |]. split; [by split_and! |]. split; [done |]. intros v Hv.
    rewrite !unit_eval_eq by (apply Hu || apply Ha2 || auto with runos).
    by rewrite vapply_funion by (apply H0 || apply Ha2). }
  assert (Hbody : ∀ acts i h post p u, fs_exact acts → handler_wf h → unit_ok u →
    (∀ v, full v → unit_eval u v ≈ₚ res_each (match post with None => Ok [v] | Some a' => unit_eval a' v end) p) →
    unit_ok (ActionUnit acts (Some (i, h)) (Some u)) ∧
    ∀ v, full v → unit_eval (ActionUnit acts (Some (i, h)) (Some u)) v
      ≈ₚ res_each (unit_eval (ActionUnit acts (Some (i, h)) post) v) p).
  { intros acts0 i h post p u H0 Hh Hu Hev. split; [by split_and! |]. intros v Hv.
    rewrite !unit_eval_eq by (apply H0 || done).
    rewrite res_each_assoc. apply res_each_full; [auto with runos | done | exact Hev]. }
  induction one as [acts b | acts b p IH] using action_unit_ind';
    destruct H1 as (Ha & Hb & Hp); (destruct b as [[i h]|]; cbn [seq_actions pred_actions body post_actions];
    [| cbn in Hb; try discriminate Hb]).
  - destruct (Hpure ∅ fs_exact_empty) as (u & -> & Hu & _ & Hev). cbn [mbind res_bind].
    edestruct (Hbody acts i h None) as [Hok Hev']; [done | done | exact Hu | |].
    2: { eexists. split; [done |]. split; [exact Hok |]. split; [done | exact Hev']. }
    intros v Hv. rewrite Hev, vapply_empty by done. by rewrite res_each_ret.
  - destruct (Hpure acts Ha) as (u & -> & Hu & Hbu & Hev).
    eexists. split; [done |]. split; [done |]. split; [done |].
    intros v Hv. rewrite Hev by done.
    rewrite (unit_eval_eq acts) by (apply Ha || done).
    rewrite res_each_assoc. by rewrite !res_each_ret.
  - destruct (IH Hp) as (u & -> & Hu & _ & Hev). cbn [mbind res_bind].
    destruct (Hbody acts i h (Some p) (unit_eval (ActionUnit acts2 b2 post2)) u) as [Hok Hev'];
      [done.. |].
    eexists. split; [done |]. split; [exact Hok |]. split; [done | exact Hev'].
Qed.

Lemma mapM_seq_actions a l :
  unit_ok a → Forall unit_ok l →
  ∃ s, mapM_res (seq_actions a) l = Ok s ∧ Forall unit_ok s ∧
    (body a = None → Forall (λ a, body a = None) l → Forall (λ a, body a = None) s) ∧
    ∀ v, full v →
      concat_res (map (λ u, unit_eval u v) s)
      ≈ₚ res_each (unit_eval a v) (λ w, concat_res (map (λ u, unit_eval u w) l)).
Proof.
  intros Ha. induction 1 as [| u l Hu Hl (s & E & Hs & Hb & Hev)]; cbn [mapM_res map concat_res].
  - exists []. split_and!; try done. intros v Hv.
    destruct (unit_eval_full a v Ha Hv) as (r & -> & _). clear.
    change (Ok ([] : list vpacket) ≈ₚ concat_res (map (λ _ : vpacket, Ok ([] : list vpacket)) r)).
    induction r as [|x r IH]; cbn [map concat_res]; [done |]. by rewrite res_app_nil_l.
  - destruct (seq_actions_ok a u Ha Hu) as (w & Ew & Hw & Hbw & Hevw). rewrite Ew, E.
    eexists. split; [done |]. split; [by constructor |]. split.
    + intros H1 H2. inv_Forall. constructor; [by rewrite Hbw | auto].
    + intros v Hv. cbn [map concat_res]. rewrite Hevw, Hev by done.
      by rewrite res_each_app_fun.
Qed.

(** ** The left action applier *)

Lemma vview_vapply fs v t :
  full v → registered t = true →
  vview (vapply fs v) t = match find fs t with
                          | Some g => patchv (vview v t) g
                          | None => vview v t
                          end.
Proof.
  intros Hv Ht. unfold vview, find. rewrite lookup_vapply. destruct (Hv t Ht) as [x ->].
  by destruct (fs !! tkey t).
Qed.

Lemma left_action_applier_ok a d :
  unit_ok a → dok d → (body a = None ∨ is_leaf d) →
  ∃ d', left_action_applier a d = Ok d' ∧ dok d' ∧ (is_leaf d → is_leaf d') ∧
    (body a = None → dpure d → dpure d') ∧
    ∀ v, full v → outs d' v ≈ₚ res_each (unit_eval a v) (outs d).
Proof.
  intros Ha. induction d as [l | f p IHp n IHn]; intros Hd Hc.
  - cbn [left_action_applier]. destruct (mapM_seq_actions a (sets l) Ha Hd) as (s & E & Hs & Hb & Hev).
    rewrite E. eexists. split_and!; [done | done | done | apply Hb | apply Hev].
  - destruct Hc as [Hc | []]. destruct Hd as (Hf & Hp & Hn).
    destruct (IHp Hp) as (p' & Ep & Hp' & _ & Pp & Hevp); [by left |].
    destruct (IHn Hn) as (n' & En & Hn' & _ & Pn & Hevn); [by left |].
    destruct a as [acts b post]. cbn in Hc. subst b. destruct Ha as (Ha & -> & _).
    assert (Hu : ∀ v d, full v → res_each (unit_eval (ActionUnit acts None None) v) (outs d)
                            ≈ₚ outs d (vapply acts v)).
    { intros v d Hv. rewrite unit_eval_eq by (apply Ha || done).
      rewrite res_each_assoc. by rewrite !res_each_ret. }
    assert (Hview := λ v Hv, vview_vapply acts v (f_type f) Hv (proj1 (proj1 Hf))).
    cbn [left_action_applier pred_actions]. destruct (find acts (f_type f)) as [g|] eqn:Eg.
    + destruct (fs_wf_lookup _ _ _ (proj1 Ha) (proj1 (proj1 Hf)) Eg) as [Et Hg].
      assert (Hge : rfield_exact g) by (split; [done | by eapply (proj2 Ha)]).
      assert (Hsat : ∀ v, full v → satb (vview (vapply acts v) (f_type f)) f = field_eqb g f).
      { intros v Hv. rewrite Hview by done. apply satb_patchv_exact; done. }
      destruct (field_eqb g f).
      * exists p'. split_and!; [done | done | done | by intros ? [? ?]; auto |].
        intros v Hv. rewrite Hevp, !Hu by done.
        rewrite outs_node by (apply Hf || auto with runos). by rewrite Hsat.
      * exists n'. split_and!; [done | done | done | by intros ? [? ?]; auto |].
        intros v Hv. rewrite Hevn, !Hu by done.
        rewrite outs_node by (apply Hf || auto with runos). by rewrite Hsat.
    + rewrite Ep, En. eexists.
      split_and!; [done | by split_and! | done | intros ? [? ?]; split; auto |].
      intros v Hv. rewrite Hu by done. rewrite !outs_node by (apply Hf || auto with runos).
      rewrite Hview by done. destruct (satb _ f); [rewrite Hevp | rewrite Hevn]; by rewrite ?Hu.
Qed.

(** ** Parallel composition *)

(** The order [par] descends by. *)
Definition goes_left (f g : field) : bool :=
  field_eqb f g ||
  (if type_eqb (f_type f) (f_type g) then value_ltb f g
   else (compare_types (f_type f) (f_type g) >? 0)%Z).

Lemma compare_types_total a b :
  registered a = true → registered b = true → type_eqb a b = false →
  (compare_types a b >? 0)%Z = negb (compare_types b a >? 0)%Z.
Proof.
  rewrite !registered_spec. intros Ha Hb Hab.
  assert (H : forallb (λ a, forallb (λ b, type_eqb a b ||
    eqb (compare_types a b >? 0)%Z (negb (compare_types b a >? 0)%Z)) registry) registry = true)
    by (vm_compute; reflexivity).
  apply list_elem_of_In in Ha, Hb. rewrite forallb_forall in H. specialize (H _ Ha).
  rewrite forallb_forall in H. specialize (H _ Hb). rewrite Hab in H. cbn in H.
  by apply eqb_true_iff.
Qed.

Lemma value_eq_exact f g :
  rfield_exact f → rfield_exact g → type_eqb (f_type f) (f_type g) = true →
  f_val f = f_val g → f = g.
Proof.
  intros Hf Hg Ht E. pose proof (registry_keys_inj _ _ (proj1 (proj1 Hf)) (proj1 (proj1 Hg)) Ht) as Et.
  destruct Hf as [_ Hf], Hg as [_ Hg], f as [t v m], g as [t' v' m']. unfold fexact in *. cbn in *.
  congruence.
Qed.

Lemma goes_left_total f g :
  rfield_exact f → rfield_exact g → goes_left f g = false → goes_left g f = true.
Proof.
  intros Hf Hg. unfold goes_left. rewrite !orb_false_iff, !orb_true_iff.
  intros [Hne H]. apply field_eqb_false in Hne; [| done | done].
  right. rewrite (type_eqb_sym (f_type g)). destruct (type_eqb (f_type f) (f_type g)) eqn:Et.
  - unfold value_ltb in *. apply N.ltb_ge in H. apply N.ltb_lt.
    destruct (N.eq_dec (f_val f) (f_val g)) as [E | E]; [| lia].
    exfalso. by apply Hne, value_eq_exact.
  - rewrite compare_types_total; [by rewrite H | apply Hg | apply Hf | by rewrite type_eqb_sym].
Qed.

(** What composing [l] and [r] to [d] must establish. *)
Definition par_spec (l r d : diagram) : Prop :=
  dok d ∧ (is_leaf l → is_leaf r → is_leaf d) ∧ (dpure l → dpure r → dpure d) ∧
  ∀ v, full v → outs d v ≈ₚ res_app (outs l v) (outs r v).

Lemma par_spec_sym l r d : par_spec l r d → par_spec r l d.
Proof.
  intros (H1 & H2 & H3 & H4). split_and!; auto. intros v Hv. rewrite H4 by done.
  apply res_app_comm.
Qed.

(** Branching on [f] in both diagrams and composing the branches. *)
Lemma par_spec_node f l r lp ln rp rn dp dn :
  rfield_exact f → ¬ (is_leaf l ∧ is_leaf r) →
  (dpure l → dpure lp ∧ dpure ln) → (dpure r → dpure rp ∧ dpure rn) →
  (∀ v, full v → satb (vview v (f_type f)) f = true → outs l v = outs lp v ∧ outs r v = outs rp v) →
  (∀ v, full v → satb (vview v (f_type f)) f = false → outs l v = outs ln v ∧ outs r v = outs rn v) →
  par_spec lp rp dp → par_spec ln rn dn → par_spec l r (Node f dp dn).
Proof.
  intros Hf Hl Pl Pr Hp Hn (Op & _ & Pp & Ep) (On & _ & Pn & En).
  split_and!; [by split_and! | by intros; tauto | |].
  - intros H1 H2. destruct (Pl H1), (Pr H2). split; auto.
  - intros v Hv. rewrite outs_node by (done || apply Hf).
    destruct (satb (vview v (f_type f)) f) eqn:E.
    + destruct (Hp v Hv E) as [-> ->]. auto.
    + destruct (Hn v Hv E) as [-> ->]. auto.
Qed.

Definition pconv (n : nat) (l r : diagram) : Prop :=
  ∃ d, (∀ m, (n ≤ m)%nat → par m l r = Ret d) ∧ par_spec l r d.

Lemma pconv_swap n l r :
  pconv n r l → (∀ m, par (S m) l r = par m r l) → pconv (S n) l r.
Proof.
  intros (d & E & H) Hs. exists d. split; [| by apply par_spec_sym].
  intros m Hm. destruct m as [|m]; [lia |]. rewrite Hs. apply E. lia.
Qed.

Lemma pconv_node n f l r lp ln rp rn :
  rfield_exact f → ¬ (is_leaf l ∧ is_leaf r) →
  (dpure l → dpure lp ∧ dpure ln) → (dpure r → dpure rp ∧ dpure rn) →
  (∀ v, full v → satb (vview v (f_type f)) f = true → outs l v = outs lp v ∧ outs r v = outs rp v) →
  (∀ v, full v → satb (vview v (f_type f)) f = false → outs l v = outs ln v ∧ outs r v = outs rn v) →
  (∀ m, par (S m) l r = (p ← par m lp rp; q ← par m ln rn; Ret (Node f p q))) →
  pconv n lp rp → pconv n ln rn → pconv (S n) l r.
Proof.
  intros Hf Hl Pl Pr Hp Hn Hs (dp & Ep & Sp) (dn & En & Sn). exists (Node f dp dn). split.
  - intros m Hm. destruct m as [|m]; [lia |]. rewrite Hs, Ep, En by lia. done.
  - by apply (par_spec_node f l r lp ln rp rn).
Qed.

Lemma pconv_mono n m l r : (n ≤ m)%nat → pconv n l r → pconv m l r.
Proof. intros Hn (d & E & H). exists d. split; [intros k Hk; apply E; lia | done]. Qed.

Lemma par_oriented k f lp ln g rp rn :
  dok (Node f lp ln) → dok (Node g rp rn) → goes_left f g = true →
  (∀ l r, dok l → dok r → (dsize l + dsize r < k)%nat → pconv (2 * (dsize l + dsize r) + 2) l r) →
  (dsize (Node f lp ln) + dsize (Node g rp rn) = k)%nat →
  pconv (2 * k + 1) (Node f lp ln) (Node g rp rn).
Proof.
  intros (Hf & Hlp & Hln) (Hg & Hrp & Hrn) Hgo IH Hk. cbn [dsize] in Hk.
  replace (2 * k + 1)%nat with (S (2 * k)) by lia. unfold goes_left in Hgo.
  assert (IH' : ∀ l r, dok l → dok r → (dsize l + dsize r < k)%nat → pconv (2 * k) l r).
  { intros l r Hl Hr Hs. eapply pconv_mono; [| by apply IH]. lia. }
  assert (Hnode : ∀ p n v b, full v → satb (vview v (f_type f)) f = b →
    outs (Node f p n) v = if b then outs p v else outs n v).
  { intros p n v b Hv <-. apply outs_node; [done | apply Hf]. }
  destruct (field_eqb f g) eqn:Efg.
  - apply field_eqb_rfield in Efg as Heq; [| done | done]. subst g.
    apply (pconv_node _ f _ _ lp ln rp rn); try done; [by intros [[] _] | | | | |].
    + intros v Hv E. by rewrite !(Hnode _ _ _ _ Hv E).
    + intros v Hv E. by rewrite !(Hnode _ _ _ _ Hv E).
    + intros m. cbn [par]. by rewrite Efg.
    + apply IH'; [done | done | lia].
    + apply IH'; [done | done | lia].
  - cbn in Hgo. destruct (type_eqb (f_type f) (f_type g)) eqn:Et.
    + apply (pconv_node _ f _ _ lp ln rn (Node g rp rn)); try done; [by intros [[] _] | | | | | |].
      * intros [? ?]. split; [done | by split].
      * intros v Hv E. rewrite (Hnode _ _ _ _ Hv E). split; [done |].
        rewrite outs_node by (done || apply Hg). destruct (satb _ g) eqn:Eg; [| done].
        assert (f = g); [| subst; by apply field_eqb_false in Efg].
        apply (satb_exact (vview v (f_type f))); try done.
        by rewrite (registry_keys_inj _ _ (proj1 (proj1 Hf)) (proj1 (proj1 Hg)) Et).
      * intros v Hv E. by rewrite (Hnode _ _ _ _ Hv E).
      * intros m. cbn [par]. by rewrite Efg, Et, Hgo.
      * apply IH'; [done | done | lia].
      * apply IH'; [done | done | cbn [dsize]; lia].
    + apply (pconv_node _ f _ _ lp ln (Node g rp rn) (Node g rp rn));
        try done; [by intros [[] _] | | | | |].
      * intros v Hv E. by rewrite (Hnode _ _ _ _ Hv E).
      * intros v Hv E. by rewrite (Hnode _ _ _ _ Hv E).
      * intros m. cbn [par]. by rewrite Efg, Et, Hgo.
      * apply IH'; [done | done | cbn [dsize]; lia].
      * apply IH'; [done | done | cbn [dsize]; lia].
Qed.

Lemma par_pconv l r : dok l → dok r → pconv (2 * (dsize l + dsize r) + 2) l r.
Proof.
  remember (dsize l + dsize r)%nat as k eqn:Ek. revert l r Ek.
  induction k as [k IHk] using lt_wf_ind. intros l r -> Hl Hr.
  assert (IH : ∀ l' r', dok l' → dok r' → (dsize l' + dsize r' < dsize l + dsize r)%nat →
    pconv (2 * (dsize l' + dsize r') + 2) l' r').
  { intros l' r' Hl' Hr' Hlt. by apply (IHk (dsize l' + dsize r')%nat Hlt). }
  assert (Hlr : ∀ f p n x, dok (Node f p n) → dok (Leaf x) →
    (∀ d, dok d → (dsize d < dsize (Node f p n))%nat → pconv (2 * dsize d + 2) d (Leaf x)) →
    pconv (2 * dsize (Node f p n) + 1) (Node f p n) (Leaf x)).
  { intros f p n x (Hf & Hp & Hn) Hx IHd. cbn [dsize] in *.
    replace (2 * S (dsize p + dsize n) + 1)%nat with (S (2 * S (dsize p + dsize n)))%nat by lia.
    apply (pconv_node _ f _ _ p n (Leaf x) (Leaf x)); try done; [by intros [[] _] | | | |].
    - intros v Hv E. rewrite outs_node by (done || apply Hf). by rewrite E.
    - intros v Hv E. rewrite outs_node by (done || apply Hf). by rewrite E.
    - eapply pconv_mono; [| apply IHd; [done | lia]]. lia.
    - eapply pconv_mono; [| apply IHd; [done | lia]]. lia. }
  destruct l as [l | f lp ln], r as [r | g rp rn].
  - exists (Leaf (par_leaf l r)). split; [intros [|m] Hm; [lia | done] |].
    split_and!; [by apply Forall_app | done | by intros; apply Forall_app |].
    intros v Hv. cbn [outs]. unfold leaf_eval, par_leaf. cbn [sets new_leaf].
    by rewrite map_app, concat_res_app.
  - replace (2 * _ + 2)%nat with (S (2 * (dsize (Node g rp rn)) + 1)) by (cbn [dsize]; lia).
    apply pconv_swap; [| done]. apply Hlr; [done | done |].
    intros d Hd Hlt. eapply pconv_mono; [| apply IH; [done | done |]]; cbn [dsize] in *; lia.
  - eapply pconv_mono; [| apply Hlr; [done | done |]]; [cbn [dsize]; lia |].
    intros d Hd Hlt. eapply pconv_mono; [| apply IH; [done | done |]]; cbn [dsize] in *; lia.
  - destruct (goes_left f g) eqn:Hgo.
    + eapply pconv_mono; [| by eapply par_oriented]. lia.
    + replace (2 * (dsize (Node f lp ln) + dsize (Node g rp rn)) + 2)%nat
        with (S (2 * (dsize (Node f lp ln) + dsize (Node g rp rn)) + 1)) by lia.
      apply pconv_swap.
      * apply par_oriented; [done | done | | | lia].
        -- apply goes_left_total; [apply Hl | apply Hr | done].
        -- intros l' r' H1 H2 H3. apply IH; done.
      * intros m. cbn [par]. unfold goes_left in Hgo. apply orb_false_iff in Hgo as [-> Hgo].
        destruct (type_eqb _ _); by rewrite Hgo.
Qed.

(** ** Restriction *)

Lemma dok_leaf0 : dok (Leaf empty_leaf).
Proof. constructor. Qed.
#[export] Hint Resolve dok_leaf0 : runos.

(** A test of the type of [f], other than [f], fails where [f] holds. *)
Lemma satb_other v f g :
  rfield_exact f → rfield_exact g → field_eqb g f = false → type_eqb (f_type g) (f_type f) = true →
  satb (vview v (f_type f)) f = true → satb (vview v (f_type g)) g = false.
Proof.
  intros Hf Hg Hne Ht Hs. destruct (satb _ g) eqn:Eg; [| done].
  apply field_eqb_false in Hne; [| done | done]. exfalso. apply Hne.
  apply (satb_exact (vview v (f_type g))); try done.
  by rewrite (registry_keys_inj _ _ (proj1 (proj1 Hg)) (proj1 (proj1 Hf)) Ht).
Qed.

(** Only where the test of [f] gives [b] does [d] count. *)
Definition restricted (f : field) (b : bool) (d d' : diagram) : Prop :=
  dok d' ∧ (dpure d → dpure d') ∧
  ∀ v, full v → outs d' v = if eqb (satb (vview v (f_type f)) f) b then outs d v else Ok [].

Lemma applier_true_ok f d : rfield_exact f → dok d → restricted f true d (applier_true f d).
Proof.
  intros Hf. induction d as [l | g p IHp n IHn]; intros Hd; cbn [applier_true].
  - split_and!; [by split_and!; auto with runos | by intros; split; [| constructor] |].
    intros v Hv. rewrite outs_node by (done || apply Hf). by destruct (satb _ f).
  - destruct Hd as (Hg & Hp & Hn). destruct (IHp Hp) as (Dp & Pp & Ep).
    destruct (IHn Hn) as (Dn & Pn & En).
    destruct (field_eqb g f) eqn:Egf; [| destruct (type_eqb (f_type g) (f_type f)) eqn:Et].
    + apply field_eqb_rfield in Egf; [| done | done]. subst g.
      split_and!; [by split_and!; auto with runos | by intros []; split; [| constructor] |].
      intros v Hv. rewrite !outs_node by (done || apply Hf). by destruct (satb _ f).
    + split_and!; [done | intros []; auto |]. intros v Hv. rewrite En by done.
      destruct (satb (vview v (f_type f)) f) eqn:Es; [| done]. cbn [eqb].
      rewrite outs_node by (done || apply Hg). by rewrite (satb_other v f g).
    + destruct (_ >? 0)%Z.
      * split_and!; [by split_and!; auto with runos | by intros []; split; [| constructor] |].
        intros v Hv. rewrite outs_node by (done || apply Hf). by destruct (satb _ f).
      * split_and!; [by split_and! | intros []; split; auto |]. intros v Hv.
        rewrite !outs_node, Ep, En by (done || apply Hg). by destruct (satb _ g), (eqb _ _).
Qed.

Lemma applier_false_ok f d : rfield_exact f → dok d → restricted f false d (applier_false f d).
Proof.
  intros Hf. induction d as [l | g p IHp n IHn]; intros Hd; cbn [applier_false].
  - split_and!; [by split_and!; auto with runos | by intros; split; [constructor |] |].
    intros v Hv. rewrite outs_node by (done || apply Hf). by destruct (satb _ f).
  - destruct Hd as (Hg & Hp & Hn). destruct (IHp Hp) as (Dp & Pp & Ep).
    destruct (IHn Hn) as (Dn & Pn & En).
    assert (Hroot : restricted f false (Node g p n) (Node f (Leaf empty_leaf) (Node g p n))).
    { split_and!; [by split_and!; auto with runos | by intros; split; [constructor |] |].
      intros v Hv. rewrite (outs_node f) by (done || apply Hf). by destruct (satb _ f). }
    destruct (field_eqb g f) eqn:Egf; [| destruct (type_eqb (f_type g) (f_type f)) eqn:Et].
    + apply field_eqb_rfield in Egf; [| done | done]. subst g.
      split_and!; [by split_and!; auto with runos | by intros []; split; [constructor |] |].
      intros v Hv. rewrite !outs_node by (done || apply Hf). by destruct (satb _ f).
    + destruct (value_ltb g f); [| done].
      split_and!; [by split_and! | intros []; split; auto |]. intros v Hv.
      rewrite !outs_node, En by (done || apply Hg).
      destruct (satb (vview v (f_type f)) f) eqn:Es; cbn [eqb]; [| done].
      by rewrite (satb_other v f g).
    + destruct (_ >? 0)%Z; [done |].
      split_and!; [by split_and! | intros []; split; auto |]. intros v Hv.
      rewrite !outs_node, Ep, En by (done || apply Hg). by destruct (satb _ g), (eqb _ _).
Qed.

Lemma restriction_ok f d b : rfield_exact f → dok d → restricted f b d (restriction f d b).
Proof. destruct b; [apply applier_true_ok | apply applier_false_ok]. Qed.

(** ** Sequential composition *)

(** The result of composing [l] before [r]; [r] may test only after units
    without functions. *)
Definition seq_spec (l r d : diagram) : Prop :=
  dok d ∧ (is_leaf l → is_leaf r → is_leaf d) ∧ (dpure l → dpure r → dpure d) ∧
  ∀ v, full v → outs d v ≈ₚ res_each (outs l v) (outs r).

Lemma seq_units_ok r l acc :
  dok r → Forall unit_ok l → (Forall (λ a, body a = None) l ∨ is_leaf r) → dok acc →
  ∃ d, converges (λ n, seq_units n l r acc) d ∧ dok d ∧
    (is_leaf r → is_leaf acc → is_leaf d) ∧
    (Forall (λ a, body a = None) l → dpure r → dpure acc → dpure d) ∧
    ∀ v, full v → outs d v ≈ₚ
      res_app (outs acc v) (res_each (concat_res (map (λ a, unit_eval a v) l)) (outs r)).
Proof.
  intros Hr Hl. revert acc. induction Hl as [|a l Ha Hl IH]; intros acc Hc Hacc.
  - exists acc. split_and!; try done; [apply converges_const |].
    intros v Hv. cbn. by rewrite res_app_nil_r.
  - destruct (left_action_applier_ok a r) as (c & Ec & Hc' & Lc & Pc & Hev); [done | done | |].
    { destruct Hc as [Hc | Hc]; [| by right]. inv_Forall. by left. }
    destruct (par_pconv acc c Hacc Hc') as (acc' & Epar & Hacc' & Lacc & Pacc & Evacc).
    destruct (IH acc') as (d & Ed & Hd & Ld & Pd & Evd); [| done |].
    { destruct Hc as [Hc | Hc]; [| by right]. inv_Forall. by left. }
    exists d. split_and!; [| done | auto | |].
    + cbn [seq_units]. rewrite Ec. cbn [lift]. eapply converges_bind; [apply converges_const |].
      eapply converges_bind; [eexists; exact Epar | exact Ed].
    + intros Hp. inv_Forall. auto.
    + intros v Hv. cbn [map concat_res]. rewrite Evd, Evacc, Hev by done.
      by rewrite res_each_app, res_app_assoc.
Qed.

Lemma seq_leaf_ok l r :
  leaf_ok l → dok r → (Forall (λ a, body a = None) (sets l) ∨ is_leaf r) →
  ∃ d, converges (λ n, seq_leaf n l r) d ∧ seq_spec (Leaf l) r d.
Proof.
  intros Hl Hr Hc. unfold seq_leaf. destruct (sets l) as [|a s] eqn:Es.
  - exists (Leaf empty_leaf). split; [apply converges_const |].
    split_and!; [auto with runos | done | by constructor |].
    intros v Hv. cbn [outs]. unfold leaf_eval. by rewrite Es.
  - rewrite <- Es in Hc |- *.
    destruct (seq_units_ok r (sets l) (Leaf (new_leaf [] (flow_settings l))))
      as (d & Ed & Hd & Ld & Pd & Ev); [done | done | done | constructor |].
    exists d. split; [exact Ed |]. split_and!; [done | intros; by apply Ld | |].
    + intros H1 H2. apply Pd; [done | done | constructor].
    + intros v Hv. rewrite Ev by done. cbn [outs]. unfold leaf_eval at 1. cbn [sets new_leaf map concat_res].
      by rewrite res_app_nil_l.
Qed.

Lemma seqd_ok l r :
  dok l → dok r → (dpure l ∨ is_leaf r) →
  ∃ d, converges (λ n, seqd n l r) d ∧ seq_spec l r d.
Proof.
  intros Hl Hr. revert Hl. induction l as [l | f p IHp n IHn]; intros Hl Hc.
  - cbn [seqd]. by apply seq_leaf_ok.
  - destruct Hl as (Hf & Hp & Hn).
    destruct IHp as (one & Eone & D1 & _ & P1 & V1); [done | naive_solver |].
    destruct IHn as (two & Etwo & D2 & _ & P2 & V2); [done | naive_solver |].
    destruct (restriction_ok f one true Hf D1) as (R1 & RP1 & RV1).
    destruct (restriction_ok f two false Hf D2) as (R2 & RP2 & RV2).
    destruct (par_pconv _ _ R1 R2) as (d & Ed & Dd & _ & Pd & Vd).
    exists d. split.
    + cbn [seqd]. eapply converges_bind; [exact Eone |]. eapply converges_bind; [exact Etwo |].
      eexists. exact Ed.
    + split_and!; [done | done | intros []; auto |]. intros v Hv.
      rewrite Vd, RV1, RV2 by done. rewrite outs_node by (done || apply Hf).
      destruct (satb _ f); cbn [eqb].
      * rewrite res_app_nil_r. auto.
      * rewrite res_app_nil_l. auto.
Qed.

(** ** Negation *)

Lemma leaf_eval_pure l v :
  leaf_ok l → Forall (λ a, body a = None) (sets l) → full v →
  leaf_eval l v ≈ₚ Ok (map (λ a, vapply (pred_actions a) v) (sets l)).
Proof.
  intros Hl Hb Hv. unfold leaf_eval. unfold leaf_ok in Hl. induction (sets l) as [|a s IH]; [done |].
  inv_Forall. cbn [map concat_res]. rewrite IH by done.
  destruct a as [acts b post]. cbn in * |-. subst b.
  match goal with H : fs_exact acts ∧ _ |- _ => destruct H as (Ha & -> & _) end.
  rewrite (unit_eval_pure acts) by (apply Ha || done). done.
Qed.

Lemma negd_ok d :
  dok d → dpure d →
  dok (negd d) ∧ dpure (negd d) ∧ (is_leaf d → is_leaf (negd d)) ∧
  ∀ v, full v → outs (negd d) v ≈ₚ (l ← outs d v; Ok (match l with [] => [v] | _ => [] end)).
Proof.
  induction d as [l | f p IHp n IHn]; intros Hd Hp; cbn [negd].
  - assert (Hu : unit_ok (unit_of ∅)) by (split_and!; auto using fs_exact_empty).
    split_and!.
    + unfold neg_leaf. cbn. destruct (sets l); by repeat constructor.
    + unfold neg_leaf. cbn. destruct (sets l); by repeat constructor.
    + done.
    + intros v Hv. cbn [outs].
      transitivity (l0 ← Ok (map (λ a, vapply (pred_actions a) v) (sets l));
                    Ok (match l0 with [] => [v] | _ => [] end)).
      * unfold neg_leaf, leaf_eval. destruct (sets l); cbn [map sets new_leaf concat_res]; [| done].
        rewrite unit_eval_pure by (done || apply fs_wf_empty).
        by rewrite vapply_empty, res_app_nil_r.
      * apply negation_perm. symmetry. by apply leaf_eval_pure.
  - destruct Hd as (Hf & Dp & Dn), Hp as [Pp Pn].
    destruct (IHp Dp Pp) as (D1 & P1 & _ & V1). destruct (IHn Dn Pn) as (D2 & P2 & _ & V2).
    split_and!; try done. intros v Hv. rewrite !outs_node by (done || apply Hf).
    destruct (satb _ f); auto.
Qed.

(** ** The compiler *)

Lemma dok_leaf_of u s : unit_ok u → dok (Leaf (new_leaf [u] s)).
Proof. intros H. by repeat constructor. Qed.

Lemma dpure_leaf_of u s : body u = None → dpure (Leaf (new_leaf [u] s)).
Proof. intros H. by repeat constructor. Qed.

Fixpoint test_free (p : policy) : bool :=
  match p with
  | Filter _ => false
  | Negation q => test_free q
  | Sequential a b | Parallel a b => test_free a && test_free b
  | _ => true
  end.

Fixpoint compilable (p : policy) : Prop :=
  match p with
  | Stop | Id | Flow _ => True
  | Filter f | Modify f => rfield_exact f
  | Negation q => compilable q ∧ function_free q = true
  | PacketFunction _ h => handler_wf h
  | Sequential a b =>
      compilable a ∧ compilable b ∧ (function_free a = true ∨ test_free b = true)
  | Parallel a b => compilable a ∧ compilable b
  end.

Definition compile_spec (p : policy) (d : diagram) : Prop :=
  dok d ∧ (test_free p = true → is_leaf d) ∧ (function_free p = true → dpure d) ∧
  ∀ v, full v → outs d v ≈ₚ eval p v.

Lemma compilable_wf p : compilable p → policy_wf p.
Proof.
  induction p; cbn; intros H; try done; try (by apply H); naive_solver.
Qed.

Lemma unit_ok_empty : unit_ok (unit_of ∅).
Proof. split_and!; auto using fs_exact_empty. Qed.

Lemma outs_leaf_of u v : unit_ok u → full v → outs (leaf_of u) v ≈ₚ unit_eval u v.
Proof. intros Hu Hv. cbn. unfold leaf_eval. cbn. apply res_app_nil_r. Qed.

Lemma outs_id v : full v → outs (leaf_of (unit_of ∅)) v ≈ₚ Ok [v].
Proof.
  intros Hv. rewrite outs_leaf_of by (done || apply unit_ok_empty).
  rewrite unit_eval_pure by (done || apply fs_wf_empty). by rewrite vapply_empty.
Qed.

Lemma fs_exact_single f : rfield_exact f → fs_exact (of_list [f]).
Proof.
  intros [Hf He]. unfold of_list. cbn. unfold find. rewrite lookup_empty. split.
  - by apply fs_wf_insert; auto with runos.
  - apply map_Forall_insert_2; [done | apply map_Forall_empty].
Qed.

Lemma vapply_single f v :
  full v → rfield_wf f →
  vapply (of_list [f]) v = <[tkey (f_type f) := patchv (vview v (f_type f)) f]> v.
Proof.
  intros Hv Hf. apply map_eq. intros k. rewrite lookup_vapply.
  unfold of_list. cbn. unfold find. rewrite lookup_empty. unfold vview.
  destruct (Hv (f_type f)) as [x Hx]; [apply Hf |]. rewrite Hx.
  destruct (decide (k = tkey (f_type f))) as [-> | Hne].
  - by rewrite !lookup_insert_eq, Hx.
  - rewrite !lookup_insert_ne by done. rewrite lookup_empty. by destruct (v !! k).
Qed.

Lemma compile_ok p : compilable p → ∃ d, converges (λ n, compile n p) d ∧ compile_spec p d.
Proof.
  induction p as [| | f | f | s | q IH | i h | a IHa b IHb | a IHa b IHb]; cbn [compilable compile].
  - eexists. split; [apply converges_const |]. split_and!; [by apply Forall_nil | done | intros; by apply Forall_nil | done].
  - eexists. split; [apply converges_const |].
    split_and!; [apply dok_leaf_of, unit_ok_empty | done | intros; by apply dpure_leaf_of |].
    intros v Hv. by apply outs_id.
  - intros Hf. eexists. split; [apply converges_const |].
    split; [| split; [done | split]].
    + split; [done |]. split; [apply dok_leaf_of, unit_ok_empty | apply dok_leaf0].
    + intros _. split; [by apply dpure_leaf_of | by apply Forall_nil].
    + intros v Hv. rewrite outs_node by (done || apply Hf). cbn [eval].
      rewrite vtest by (done || apply Hf). cbn [mbind res_bind].
      destruct (satb _ f); [by apply outs_id | done].
  - intros Hf. eexists. split; [apply converges_const |].
    assert (Hu : unit_ok (unit_of (of_list [f]))) by (split_and!; auto using fs_exact_single).
    split_and!; [by apply dok_leaf_of | done | intros; by apply dpure_leaf_of |].
    intros v Hv. rewrite outs_leaf_of by done.
    rewrite unit_eval_pure by (done || by apply fs_exact_single).
    cbn [eval]. rewrite vmodify_full by (done || apply Hf). cbn [mbind res_bind].
    by rewrite vapply_single by (done || apply Hf).
  - eexists. split; [apply converges_const |].
    split_and!; [apply dok_leaf_of, unit_ok_empty | done | intros; by apply dpure_leaf_of |].
    intros v Hv. by apply (outs_id v).
  - intros [Hq Hfree]. destruct (IH Hq) as (d & Ed & Hd & Ld & Pd & Vd).
    destruct (negd_ok d Hd (Pd Hfree)) as (D & P & L & V).
    exists (negd d). split; [eapply converges_bind; [exact Ed | apply converges_const] |].
    split_and!; [done | cbn; auto | done |]. intros v Hv. rewrite V by done.
    cbn [eval]. apply negation_perm. auto.
  - intros Hh. eexists. split; [apply converges_const |].
    assert (Hu : unit_ok (ActionUnit ∅ (Some (i, h)) None)).
    { split_and!; auto using fs_exact_empty. }
    split_and!; [by apply dok_leaf_of | done | done |]. intros v Hv.
    rewrite outs_leaf_of by done. rewrite unit_eval_eq by (done || apply fs_wf_empty).
    rewrite vapply_empty. change (res_each (heval h v) (λ q, Ok [q]) ≈ₚ heval h v).
    destruct (heval h v) as [l|]; [| done].
    clear. change (concat_res (map (λ q, Ok [q]) l) ≈ₚ Ok l).
    induction l as [|x l IH]; cbn [map concat_res]; [done |]. by rewrite IH.
  - intros (Ha & Hb & Hc). destruct (IHa Ha) as (d1 & E1 & D1 & L1 & P1 & V1).
    destruct (IHb Hb) as (d2 & E2 & D2 & L2 & P2 & V2).
    destruct (seqd_ok d1 d2) as (d & Ed & D & L & P & V); [done | done | tauto |].
    exists d. split; [do 2 (eapply converges_bind; [eassumption |]); exact Ed |].
    split_and!; [done | | |]; cbn [test_free function_free].
    + rewrite andb_true_iff. intros []. auto.
    + rewrite andb_true_iff. intros []. auto.
    + intros v Hv. rewrite V by done. cbn [eval]. apply res_each_full; auto with runos.
  - intros (Ha & Hb). destruct (IHa Ha) as (d1 & E1 & D1 & L1 & P1 & V1).
    destruct (IHb Hb) as (d2 & E2 & D2 & L2 & P2 & V2).
    destruct (par_pconv d1 d2) as (d & Ed & D & L & P & V); [done | done |].
    exists d. split; [do 2 (eapply converges_bind; [eassumption |]); by eexists |].
    split_and!; [done | | |]; cbn [test_free function_free].
    + rewrite andb_true_iff. intros []. auto.
    + rewrite andb_true_iff. intros []. auto.
    + intros v Hv. rewrite V by done. cbn [eval]. by rewrite V1, V2.
Qed.

(** ** Properties *)

(** C2: compiler correctness.  Every policy with exact filters and
    modifications, negating only function-free policies and not testing after
    a function, compiles (every large enough fuel gives one and the same
    diagram), and on every full packet the diagram sends on exactly the
    multiset of packets that the policy does, functions included. *)
Theorem compile_correct p :
  compilable p →
  ∃ d, converges (λ n, compile n p) d ∧ ∀ v, full v → outs d v ≈ₚ eval p v.
Proof. intros H. destruct (compile_ok p H) as (d & E & _ & _ & _ & V). by exists d. Qed.

Lemma compile_correct_witness :
  let p := Sequential (Parallel (Filter (Field in_port 1 0xffffffff)) (Modify (Field eth_src 7 0xffffffffffff)))
                      (Parallel (Filter (Field eth_src 7 0xffffffffffff))
                                (Negation (Filter (Field in_port 2 0xffffffff)))) in
  ∃ d, converges (λ n, compile n p) d ∧ ∀ v, full v → outs d v ≈ₚ eval p v.
Proof.
  intros p. apply (compile_correct p).
  repeat match goal with |- _ ∧ _ => split | |- compilable _ => split end;
    try (by apply rfield_exact_test); try done. by left.
Defined.

(** parallel composition of diagrams with exact tests terminates within
    twice the number of their nodes plus two calls, returns the same diagram
    for every larger fuel, keeps the diagram's tests exact, and sends on what
    both sides do. *)
Theorem parallel_composition_correct l r :
  dok l → dok r →
  ∃ d, (∀ n, (2 * (dsize l + dsize r) + 2 ≤ n)%nat → par n l r = Ret d) ∧ dok d ∧
    ∀ v, full v → outs d v ≈ₚ res_app (outs l v) (outs r v).
Proof.
  intros Hl Hr. destruct (par_pconv l r Hl Hr) as (d & E & Hd & _ & _ & V). by exists d.
Qed.

Lemma parallel_composition_correct_witness :
  let t f := Node f (leaf_of (unit_of ∅)) (Leaf empty_leaf) in
  let l := t (Field in_port 2 0xffffffff) in let r := t (Field eth_type 0x800 0xffff) in
  ∃ d, (∀ n, (6 ≤ n)%nat → par n l r = Ret d) ∧ dok d ∧
    ∀ v, full v → outs d v ≈ₚ res_app (outs l v) (outs r v).
Proof.
  intros t l r. apply (parallel_composition_correct l r);
    (split; [by apply rfield_exact_test | split; [apply dok_leaf_of, unit_ok_empty | apply dok_leaf0]]).
Defined.
