(* ===== verification/FddTranslator.v ===== *)
(** * FddTranslator: diagrams to prioritised rules, retic/fdd_translator.hh and .cc

    [translate] is the visitor with its members as an explicit state: the
    match collected so far and the priority band.  It returns the state it
    leaves, the diagram with the priorities the leaves remember, and the
    rules handed to the backend in order.  [ptrans] is the rule list it
    computes on well-formed diagrams, and the theorems say that the highest
    rule that matches a packet is the one of the leaf the packet reaches.
    A band of width [3 * 2^k - 2] holds [k] nested splits ([gap]); the
    visitor's default band 1..65535 holds 14. *)

From S2P Require Import Prelude Bits Oxm FieldSet Packet Policy Valuation Fdd FddCompiler FddCorrect.

(** ** Rules: the calls of the backend interface (retic/backend.hh) *)

Inductive rule_action : Type :=
| Install (actions : list field_set) (settings : FlowSettings)
| Barrier.

Record rule : Type := Rule {
  rule_match : field_set;
  rule_prio : N;
  rule_do : rule_action
}.

(** ** The visitor *)

Definition u16 (n : N) : N := (n mod 2 ^ 16)%N.

Record translator : Type := Translator {
  tr_match : field_set;
  tr_down : N;
  tr_up : N;
  tr_middle : N;
  previous_mask : option mask
}.

(** The two constructors. *)
Definition translator_init : translator := Translator ∅ 1 65535 0 None.
Definition translator_at (pre_match : field_set) (down up : N) : translator :=
  Translator pre_match down up 0 None.

Definition half_sum (a b : N) : N := u16 (a / 2 + b / 2).

Definition leaf_action (l : leaf) : rule_action :=
  if existsb (λ s, match body s with Some _ => true | None => false end) (sets l)
  then Barrier else Install (map pred_actions (sets l)) (flow_settings l).

Definition translate_leaf (st : translator) (l : leaf) : leaf * rule :=
  let local_prio_up := match previous_mask st with Some _ => tr_middle st | None => tr_up st end in
  let prio := half_sum (tr_down st) local_prio_up in
  (MkLeaf (sets l) (flow_settings l) (maple_tree l) (Some (tr_down st)) (Some local_prio_up),
   Rule (tr_match st) prio (leaf_action l)).

(** The state in which a node's negative branch is visited. *)
Definition enter_node (st : translator) (f : field) : translator :=
  match previous_mask st with
  | Some m =>
      if mask_eqb m (mask_of f) then st
      else let up := tr_middle st in
           Translator (tr_match st) (tr_down st) up (half_sum up (tr_down st)) (Some (mask_of f))
  | None =>
      Translator (tr_match st) (tr_down st) (tr_up st)
                 (half_sum (tr_up st) (tr_down st)) (Some (mask_of f))
  end.

Fixpoint translate (d : diagram) (st : translator) : res (translator * diagram * list rule) :=
  match d with
  | Leaf l => let '(l', r) := translate_leaf st l in Ok (st, Leaf l', [r])
  | Node f p n =>
      '(st2, n', rules_n) ← translate n (enter_node st f);
      m ← modify (tr_match st2) f;
      '(st4, p', rules_p) ←
        translate p (Translator m (tr_middle st2) (tr_up st2) (tr_middle st2) None);
      m' ← erase (tr_match st4) (mask_of f);
      Ok (Translator m' (tr_down st) (tr_up st) (tr_middle st) (previous_mask st),
          Node f p' n', rules_n ++ rules_p)
  end.

(** The rules for a whole diagram. *)
Definition rules_of (d : diagram) : res (list rule) :=
  '(_, _, rules) ← translate d translator_init; Ok rules.

(** ** What a table of rules does with a packet *)

Definition fs_satb (fs : field_set) (v : vpacket) : bool :=
  forallb (λ f, satb (vview v (f_type f)) f) (elements fs).

Definition rule_matches (r : rule) (v : vpacket) : bool := fs_satb (rule_match r) v.

(** [r] is the only rule of the highest matching priority. *)
Definition wins (rules : list rule) (v : vpacket) (r : rule) : Prop :=
  r ∈ rules ∧ rule_matches r v = true ∧
  ∀ r', r' ∈ rules → rule_matches r' v = true → r' = r ∨ (rule_prio r' < rule_prio r)%N.

(** The matching rules of the highest priority: a switch may use any of them. *)
Definition best_prio (rules : list rule) (v : vpacket) : N :=
  fold_right (λ r b, if rule_matches r v then N.max (rule_prio r) b else b) 0%N rules.
Definition top_rules (rules : list rule) (v : vpacket) : list rule :=
  List.filter (λ r, rule_matches r v && (rule_prio r =? best_prio rules v)%N) rules.

(** The packets an installed rule sends on. *)
Definition action_outs (a : rule_action) (v : vpacket) : list vpacket :=
  match a with
  | Install acts _ => map (λ fs, vapply fs v) acts
  | Barrier => []
  end.

(** ** The diagrams the visitor is right on *)

(** No test of a type under the positive branch of a test of that type, and
    no test repeated in a chain of negative branches over one type. *)
Fixpoint path_ok (used : gset key) (chain : list field) (d : diagram) : Prop :=
  match d with
  | Leaf _ => True
  | Node f p n =>
      (tkey (f_type f) ∉ used) ∧ (f ∉ chain) ∧
      path_ok ({[ tkey (f_type f) ]} ∪ used) [] p ∧
      path_ok used (match chain with
                    | g :: _ => if type_eqb (f_type g) (f_type f) then f :: chain else [f]
                    | [] => [f]
                    end) n
  end.

(** How many times the band is split on the deepest path. *)
Fixpoint bands (chain : option otype) (d : diagram) : nat :=
  match d with
  | Leaf _ => 0
  | Node f p n =>
      let same := match chain with Some t => type_eqb t (f_type f) | None => false end in
      let below := Nat.max (bands None p) (bands (Some (f_type f)) n) in
      if same then below else S below
  end.

Definition gap (k : nat) : N := (3 * 2 ^ N.of_nat k - 2)%N.

(** The leaf a full packet reaches. *)
Fixpoint leaf_at (d : diagram) (v : vpacket) : leaf :=
  match d with
  | Leaf l => l
  | Node f p n => if satb (vview v (f_type f)) f then leaf_at p v else leaf_at n v
  end.

(** ** The rules, without the state *)

Fixpoint ptrans (m : field_set) (down up middle : N) (prev : option mask) (d : diagram) : list rule :=
  match d with
  | Leaf l =>
      [Rule m (half_sum down (match prev with Some _ => middle | None => up end)) (leaf_action l)]
  | Node f p n =>
      let st := enter_node (Translator m down up middle prev) f in
      ptrans m (tr_down st) (tr_up st) (tr_middle st) (previous_mask st) n
      ++ ptrans (pmodify m f) (tr_middle st) (tr_up st) (tr_middle st) None p
  end.

Lemma enter_node_match st f : tr_match (enter_node st f) = tr_match st.
Proof. unfold enter_node. destruct (previous_mask st) as [m|]; [destruct (mask_eqb _ _) |]; done. Qed.

Lemma pmodify_dom m f : dom (pmodify m f) = {[ tkey (f_type f) ]} ∪ dom m.
Proof. unfold pmodify. by rewrite dom_insert_L. Qed.

Lemma not_in_dom m t : tkey t ∉ dom m → find m t = None.
Proof. intros H. by apply not_elem_of_dom in H. Qed.

Lemma translate_ptrans d m down up middle prev chain :
  fs_wf m → dok d → path_ok (dom m) chain d →
  (∀ f, registered (f_type f) = true → f_msk f = N.ones (nbits (f_type f)) → f_msk f ≠ 0%N) →
  ∃ d', translate d (Translator m down up middle prev)
    = Ok (Translator m down up middle prev, d', ptrans m down up middle prev d).
Proof.
  intros Hm Hd Hp Hnz. revert m down up middle prev chain Hm Hp.
  induction d as [l | f p IHp n IHn]; intros m down up middle prev chain Hm Hp.
  - destruct prev; by eexists.
  - destruct Hd as (Hf & Hdp & Hdn). destruct Hp as (Hu & Hc & Hpp & Hpn).
    set (st := enter_node (Translator m down up middle prev) f).
    assert (Est : st = Translator m (tr_down st) (tr_up st) (tr_middle st) (previous_mask st)).
    { pose proof (enter_node_match (Translator m down up middle prev) f) as E. cbn in E.
      subst st. by destruct (enter_node _ f); cbn in *; subst. }
    destruct (IHn Hdn m (tr_down st) (tr_up st) (tr_middle st) (previous_mask st) _ Hm Hpn) as [n' En].
    assert (Hm' : fs_wf (pmodify m f)) by (apply pmodify_wf; [done | apply Hf]).
    destruct (IHp Hdp (pmodify m f) (tr_middle st) (tr_up st) (tr_middle st) None [] Hm') as [p' Ep].
    { by rewrite pmodify_dom. }
    exists (Node f p' n'). cbn [translate ptrans]. fold st. rewrite Est at 1.
    rewrite En. cbn [mbind res_bind tr_match tr_middle tr_up].
    rewrite modify_ok by (done || apply Hf). cbn [mbind res_bind].
    rewrite Ep. cbn [mbind res_bind tr_match].
    rewrite erase_ok by (done || apply mask_of_wf, Hf). cbn [mbind res_bind].
    rewrite perase_pmodify_fresh; [done | apply Hf | by apply not_in_dom |].
    apply Hnz; apply Hf.
Qed.

Lemma registered_nonzero f :
  registered (f_type f) = true → f_msk f = N.ones (nbits (f_type f)) → f_msk f ≠ 0%N.
Proof. intros Hr ->. by apply ones_registered. Qed.

(** ** Matching *)

Lemma fs_satb_spec fs v :
  fs_satb fs v = true ↔ ∀ k f, fs !! k = Some f → satb (vview v (f_type f)) f = true.
Proof.
  unfold fs_satb, elements. rewrite forallb_forall. split.
  - intros H k f Hk. apply H. apply list_elem_of_In, list_elem_of_fmap.
    exists (k, f). split; [done |]. by apply elem_of_map_to_list.
  - intros H f Hf. apply list_elem_of_In, list_elem_of_fmap in Hf as ([k g] & -> & Hg).
    apply elem_of_map_to_list in Hg. by eapply H.
Qed.

Lemma fs_satb_pmodify m f v :
  find m (f_type f) = None →
  fs_satb (pmodify m f) v = fs_satb m v && satb (vview v (f_type f)) f.
Proof.
  intros Hn. apply eq_true_iff_eq. rewrite andb_true_iff, !fs_satb_spec.
  unfold pmodify. rewrite Hn. unfold find in Hn. split.
  - intros H. split.
    + intros k g Hg. apply (H k). rewrite lookup_insert_ne; [done |]. congruence.
    + eapply H. apply lookup_insert_eq.
  - intros [H1 H2] k g. rewrite lookup_insert_Some. intros [[_ <-] | [_ Hg]]; [done | by eapply H1].
Qed.

Lemma fs_satb_empty v : fs_satb ∅ v = true.
Proof. by apply fs_satb_spec. Qed.

(** ** Band arithmetic *)

Lemma half_bounds n : (2 * (n / 2) ≤ n ≤ 2 * (n / 2) + 1)%N.
Proof.
  pose proof (N.div_mod n 2 ltac:(done)) as E. pose proof (N.mod_lt n 2 ltac:(done)) as H.
  revert E H. generalize (n / 2)%N (n mod 2)%N. lia.
Qed.

Lemma half_sum_eq a b : (a < 2 ^ 16)%N → (b < 2 ^ 16)%N → half_sum a b = (a / 2 + b / 2)%N.
Proof.
  intros Ha Hb. unfold half_sum, u16. apply N.mod_small.
  pose proof (half_bounds a). pose proof (half_bounds b). change (2 ^ 16)%N with 65536%N in *. lia.
Qed.

Lemma half_sum_comm a b : half_sum a b = half_sum b a.
Proof. unfold half_sum. by rewrite N.add_comm. Qed.

Lemma gap_S k : gap (S k) = (2 * gap k + 2)%N.
Proof.
  unfold gap. rewrite Nat2N.inj_succ, N.pow_succ_r'.
  pose proof (N.pow_nonzero 2 (N.of_nat k) ltac:(done)) as H.
  generalize dependent (2 ^ N.of_nat k)%N. intros x H. lia.
Qed.

Lemma gap_pos k : (1 ≤ gap k)%N.
Proof. induction k as [|k IH]; [done |]. rewrite gap_S. lia. Qed.

Lemma gap_mono k j : (k ≤ j)%nat → (gap k ≤ gap j)%N.
Proof. induction 1 as [|j _ IH]; [done |]. rewrite gap_S. lia. Qed.

Lemma half_sum_leaf down up :
  (down < up)%N → (up < 2 ^ 16)%N → (down ≤ half_sum down up < up)%N.
Proof.
  intros H1 H2. rewrite half_sum_eq by lia.
  pose proof (half_bounds down). pose proof (half_bounds up). lia.
Qed.

Lemma half_sum_gap k down up :
  (down + gap (S k) ≤ up)%N → (up < 2 ^ 16)%N →
  (down + gap k ≤ half_sum up down)%N ∧ (half_sum up down + gap k ≤ up)%N.
Proof.
  rewrite gap_S. intros H1 H2. pose proof (gap_pos k). rewrite half_sum_eq by lia.
  pose proof (half_bounds down). pose proof (half_bounds up). lia.
Qed.

(** ** Winning rules *)

Definition refines (rules : list rule) (m : field_set) : Prop :=
  ∀ r v, r ∈ rules → rule_matches r v = true → fs_satb m v = true.

Definition in_band (rules : list rule) (down up : N) : Prop :=
  ∀ r, r ∈ rules → (down ≤ rule_prio r < up)%N.

(** Every packet of the match has a winner, that of the leaf it reaches. *)
Definition winning (rules : list rule) (m : field_set) (d : diagram) : Prop :=
  ∀ v, full v → fs_satb m v = true →
    ∃ r, wins rules v r ∧ rule_do r = leaf_action (leaf_at d v).

(** Rules of the negative branches: below the middle, or for packets that
    satisfy another field of the chain's type. *)
Definition neg_band (rules : list rule) (down middle up : N) (chain : list field) : Prop :=
  ∀ r, r ∈ rules → (down ≤ rule_prio r < middle)%N ∨
    ((middle ≤ rule_prio r < up)%N ∧
     ∃ g c, c ∈ chain ∧ rfield_exact g ∧ f_type g = f_type c ∧ (g ∉ chain) ∧
       ∀ v, rule_matches r v = true → satb (vview v (f_type g)) g = true).

Lemma wins_app_l rs1 rs2 v r :
  wins rs1 v r → (∀ r', r' ∈ rs2 → rule_matches r' v = true → (rule_prio r' < rule_prio r)%N) →
  wins (rs1 ++ rs2) v r.
Proof.
  intros (Hr & Hm & Hw) H. split_and!; [set_solver | done |].
  intros r' [Hr' | Hr']%elem_of_app Hm'; [by apply Hw | right; by apply H].
Qed.

Lemma wins_app_r rs1 rs2 v r :
  wins rs2 v r → (∀ r', r' ∈ rs1 → rule_matches r' v = true → (rule_prio r' < rule_prio r)%N) →
  wins (rs1 ++ rs2) v r.
Proof.
  intros (Hr & Hm & Hw) H. split_and!; [set_solver | done |].
  intros r' [Hr' | Hr']%elem_of_app Hm'; [right; by apply H | by apply Hw].
Qed.

Lemma refines_app rs1 rs2 m : refines rs1 m → refines rs2 m → refines (rs1 ++ rs2) m.
Proof. intros H1 H2 r v [Hr | Hr]%elem_of_app; eauto. Qed.

(** One branching: the negative rules [rn], the positive rules [rp] above the
    middle. *)
Section Branch.
Context (m : field_set) (f : field) (p n : diagram) (rn rp : list rule).
Context (down middle up : N) (chain : list field).
Hypothesis Hf : rfield_exact f.
Hypothesis Hfresh : find m (f_type f) = None.
Hypothesis Hchain : ∀ c, c ∈ chain → f_type c = f_type f.
Hypothesis Hrefn : refines rn m.
Hypothesis Hrefp : refines rp (pmodify m f).
Hypothesis Hbn : neg_band rn down middle up (f :: chain).
Hypothesis Hbp : in_band rp middle up.
Hypothesis Hwn : ∀ v, full v → fs_satb m v = true → satb (vview v (f_type f)) f = false →
  (∀ c, c ∈ chain → satb (vview v (f_type c)) c = false) →
  ∃ r, wins rn v r ∧ rule_do r = leaf_action (leaf_at n v).
Hypothesis Hwp : winning rp (pmodify m f) p.

Lemma branch_refines : refines (rn ++ rp) m.
Proof.
  apply refines_app; [done |]. intros r v Hr Hm. pose proof (Hrefp _ _ Hr Hm) as H.
  rewrite fs_satb_pmodify in H by done. by apply andb_true_iff in H as [? _].
Qed.

Lemma branch_wins v :
  full v → fs_satb m v = true → (∀ c, c ∈ chain → satb (vview v (f_type c)) c = false) →
  ∃ r, wins (rn ++ rp) v r ∧ rule_do r = leaf_action (leaf_at (Node f p n) v).
Proof.
  intros Hv Hm Hc. cbn [leaf_at]. destruct (satb (vview v (f_type f)) f) eqn:Es.
  - destruct (Hwp v Hv) as (r & Hr & Hdo); [by rewrite fs_satb_pmodify, Hm, Es |].
    exists r. split; [| done]. apply wins_app_r; [done |]. intros r' Hr' Hm'.
    pose proof (Hbp r (proj1 Hr)) as Hpr.
    destruct (Hbn r' Hr') as [Hlow | (_ & g & c & Hc' & Hg & Et & Hni & Hsat)]; [lia |].
    exfalso. apply Hni. specialize (Hsat v Hm').
    assert (Etf : f_type g = f_type f) by (apply elem_of_cons in Hc' as [-> | Hc']; rewrite Et; auto).
    rewrite <- (satb_exact (vview v (f_type f)) f g); [left | done | done | | done |].
    + rewrite Etf. auto with runos.
    + by rewrite <- Etf.
  - destruct (Hwn v Hv Hm Es Hc) as (r & Hr & Hdo). exists r. split; [| done].
    apply wins_app_l; [done |]. intros r' Hr' Hm'. exfalso.
    pose proof (Hrefp _ _ Hr' Hm') as H. rewrite fs_satb_pmodify, Es, andb_false_r in H by done.
    done.
Qed.

Lemma branch_in_band : (down ≤ middle)%N → (middle ≤ up)%N → in_band (rn ++ rp) down up.
Proof.
  intros H1 H2 r [Hr | Hr]%elem_of_app.
  - destruct (Hbn r Hr) as [H | [H _]]; lia.
  - specialize (Hbp r Hr). lia.
Qed.

Lemma branch_neg_band :
  chain ≠ [] → f ∉ chain → neg_band (rn ++ rp) down middle up chain.
Proof.
  intros Hne Hni r [Hr | Hr]%elem_of_app.
  - destruct (Hbn r Hr) as [H | (H & g & c & Hc & Hg & Et & Hgni & Hsat)]; [by left |].
    right. split; [done |]. destruct chain as [|c0 cs]; [done |].
    exists g, c0. split_and!; [left | done | | set_solver | done].
    rewrite (Hchain c0) by left. rewrite Et. apply elem_of_cons in Hc as [-> | Hc]; [done |].
    by apply Hchain.
  - right. split; [by apply Hbp |]. destruct chain as [|c0 cs]; [done |].
    exists f, c0. split_and!; [left | done | symmetry; apply Hchain; left | done |].
    intros v Hm. pose proof (Hrefp _ _ Hr Hm) as H.
    rewrite fs_satb_pmodify in H by done. by apply andb_true_iff in H as [_ ?].
Qed.
End Branch.

Lemma mask_eqb_exact f g :
  rfield_exact f → rfield_exact g → mask_eqb (mask_of f) (mask_of g) = type_eqb (f_type f) (f_type g).
Proof.
  intros Hf Hg. destruct (type_eqb (f_type f) (f_type g)) eqn:E.
  - apply mask_eqb_eq; [apply Hf | apply Hg |].
    pose proof (registry_keys_inj _ _ (proj1 (proj1 Hf)) (proj1 (proj1 Hg)) E) as Et.
    destruct Hf as [_ Ef], Hg as [_ Eg], f as [t v k], g as [t' v' k']. unfold fexact, mask_of in *.
    cbn in *. congruence.
  - unfold mask_eqb. cbn. by rewrite E.
Qed.

Lemma wins_single r v : rule_matches r v = true → wins [r] v r.
Proof. intros H. split_and!; [left | done |]. intros r' Hr' _. left. set_solver. Qed.

(** The two states the visitor can be in at a diagram. *)
Definition plain_ok (m : field_set) (d : diagram) : Prop :=
  ∀ down up middle, (down + gap (bands None d) ≤ up)%N → (up < 2 ^ 16)%N →
    let rs := ptrans m down up middle None d in
    refines rs m ∧ in_band rs down up ∧ winning rs m d.

Definition chain_ok (m : field_set) (c : field) (chain : list field) (d : diagram) : Prop :=
  ∀ down up middle,
    (down + gap (bands (Some (f_type c)) d) ≤ middle)%N →
    (middle + gap (bands (Some (f_type c)) d) ≤ up)%N → (up < 2 ^ 16)%N →
    let rs := ptrans m down up middle (Some (mask_of c)) d in
    refines rs m ∧ neg_band rs down middle up (c :: chain) ∧
    ∀ v, full v → fs_satb m v = true → (∀ c', c' ∈ c :: chain → satb (vview v (f_type c')) c' = false) →
      ∃ r, wins rs v r ∧ rule_do r = leaf_action (leaf_at d v).

Lemma plain_ok_leaf m l : plain_ok m (Leaf l).
Proof.
  intros down up middle Hg Hu. pose proof (half_sum_leaf down up) as Hb. cbn in Hg.
  unfold gap in Hg. cbn in Hg.
  cbn. split_and!.
  - intros r v Hr Hm. apply list_elem_of_singleton in Hr as ->. done.
  - intros r Hr. apply list_elem_of_singleton in Hr as ->. apply Hb; lia.
  - intros v Hv Hm. eexists. split; [apply wins_single; exact Hm | done].
Qed.

Lemma chain_ok_leaf m c chain l : chain_ok m c chain (Leaf l).
Proof.
  intros down up middle Hg Hg' Hu. pose proof (half_sum_leaf down middle) as Hb. cbn in Hg, Hg'.
  unfold gap in Hg, Hg'. cbn in Hg, Hg'. cbn. split_and!.
  - intros r v Hr Hm. apply list_elem_of_singleton in Hr as ->. done.
  - intros r Hr. apply list_elem_of_singleton in Hr as ->. left. apply Hb; lia.
  - intros v Hv Hm _. eexists. split; [apply wins_single; exact Hm | done].
Qed.

Lemma plain_ok_node m f p n :
  rfield_exact f → find m (f_type f) = None →
  plain_ok (pmodify m f) p → chain_ok m f [] n → plain_ok m (Node f p n).
Proof.
  intros Hf Hfresh Hp Hn down up middle Hg Hu. cbn [ptrans enter_node previous_mask tr_match tr_up tr_down tr_middle].
  cbn [bands] in Hg.
  destruct (half_sum_gap (Nat.max (bands None p) (bands (Some (f_type f)) n)) down up) as [H1 H2]; [done | done |].
  set (mid := half_sum up down) in *.
  pose proof (gap_mono (bands None p) (Nat.max (bands None p) (bands (Some (f_type f)) n)) ltac:(lia)).
  pose proof (gap_mono (bands (Some (f_type f)) n) (Nat.max (bands None p) (bands (Some (f_type f)) n)) ltac:(lia)).
  destruct (Hp mid up mid) as (Rp & Bp & Wp); [lia | done |].
  destruct (Hn down up mid) as (Rn & Bn & Wn); [lia | lia | done |].
  assert (Wn' : ∀ v, full v → fs_satb m v = true → satb (vview v (f_type f)) f = false →
    (∀ c, c ∈ [] → satb (vview v (f_type c)) c = false) →
    ∃ r, wins (ptrans m down up mid (Some (mask_of f)) n) v r ∧ rule_do r = leaf_action (leaf_at n v)).
  { intros v Hv Hm Hs _. apply Wn; [done | done |]. intros c Hc.
    by apply list_elem_of_singleton in Hc as ->. }
  split_and!.
  - by eapply branch_refines.
  - eapply branch_in_band; [exact Bn | exact Bp | lia | lia].
  - intros v Hv Hm. eapply (branch_wins m f p n _ _ down mid up []);
      try done; intros c Hc; by apply elem_of_nil in Hc.
Qed.

Lemma chain_ok_other m c chain f p n :
  rfield_exact c → rfield_exact f → type_eqb (f_type c) (f_type f) = false →
  plain_ok m (Node f p n) → chain_ok m c chain (Node f p n).
Proof.
  intros Hc Hf Ht H down up middle Hg Hg' Hu.
  assert (Eb : bands (Some (f_type c)) (Node f p n) = bands None (Node f p n)) by (cbn; by rewrite Ht).
  assert (Er : ptrans m down up middle (Some (mask_of c)) (Node f p n)
               = ptrans m down middle middle None (Node f p n)).
  { cbn [ptrans]. unfold enter_node. cbn [previous_mask]. by rewrite mask_eqb_exact, Ht by done. }
  rewrite Eb in Hg. cbv zeta. rewrite Er.
  destruct (H down middle middle) as (R & B & W); [done | lia |].
  split_and!; [done | | intros v Hv Hm _; by apply W]. intros r Hr. left. by apply B.
Qed.

Lemma chain_ok_same m c chain f p n :
  rfield_exact c → rfield_exact f → type_eqb (f_type c) (f_type f) = true →
  find m (f_type f) = None → f ∉ c :: chain → (∀ c', c' ∈ c :: chain → f_type c' = f_type f) →
  plain_ok (pmodify m f) p → chain_ok m f (c :: chain) n → chain_ok m c chain (Node f p n).
Proof.
  intros Hc Hf Ht Hfresh Hni Hch Hp Hn down up middle Hg Hg' Hu.
  cbn [ptrans]. unfold enter_node. cbn [previous_mask].
  rewrite mask_eqb_exact, Ht by done. cbn [tr_down tr_up tr_middle previous_mask].
  cbn [bands] in Hg, Hg'. rewrite Ht in Hg, Hg'.
  set (k := Nat.max (bands None p) (bands (Some (f_type f)) n)) in *.
  pose proof (gap_mono (bands None p) k ltac:(lia)).
  pose proof (gap_mono (bands (Some (f_type f)) n) k ltac:(lia)). pose proof (gap_pos k).
  destruct (Hp middle up middle) as (Rp & Bp & Wp); [lia | done |].
  assert (Em : mask_of c = mask_of f).
  { apply mask_eqb_eq; [apply Hc | apply Hf |]. by rewrite mask_eqb_exact. }
  rewrite Em. destruct (Hn down up middle) as (Rn & Bn & Wn); [lia | lia | done |].
  assert (Wn' : ∀ v, full v → fs_satb m v = true → satb (vview v (f_type f)) f = false →
    (∀ c', c' ∈ c :: chain → satb (vview v (f_type c')) c' = false) →
    ∃ r, wins (ptrans m down up middle (Some (mask_of f)) n) v r ∧ rule_do r = leaf_action (leaf_at n v)).
  { intros v Hv Hm Hs Hcs. apply Wn; [done | done |].
    intros c' [-> | Hc']%elem_of_cons; auto. }
  split_and!.
  - by eapply branch_refines.
  - by apply (branch_neg_band m f p n).
  - intros v Hv Hm Hcs. eapply (branch_wins m f p n _ _ down middle up (c :: chain)); try done.
Qed.

Lemma ptrans_ok d :
  dok d → ∀ m, fs_wf m →
  (path_ok (dom m) [] d → plain_ok m d) ∧
  (∀ c chain, Forall rfield_exact (c :: chain) →
     (∀ c', c' ∈ c :: chain → f_type c' = f_type c) → path_ok (dom m) (c :: chain) d →
     chain_ok m c chain d).
Proof.
  induction d as [l | f p IHp n IHn]; intros Hd m Hm.
  - split; intros; [apply plain_ok_leaf | apply chain_ok_leaf].
  - destruct Hd as (Hf & Hdp & Hdn).
    assert (Hm' : fs_wf (pmodify m f)) by (apply pmodify_wf; [done | apply Hf]).
    destruct (IHp Hdp _ Hm') as [IHp' _]. rewrite pmodify_dom in IHp'.
    destruct (IHn Hdn _ Hm) as [_ IHn'].
    assert (Hplain : path_ok (dom m) [] (Node f p n) → plain_ok m (Node f p n)).
    { intros (Hu & _ & Hp & Hn). apply plain_ok_node; [done | by apply not_in_dom | auto |].
      apply IHn'; [constructor; [done | apply Forall_nil; done] | | done].
      intros c Hc. by apply list_elem_of_singleton in Hc as ->. }
    split; [done |]. intros c chain Hex Hty (Hu & Hni & Hp & Hn).
    assert (Hc : rfield_exact c) by by inversion Hex.
    destruct (type_eqb (f_type c) (f_type f)) eqn:Et.
    + assert (Ecf : f_type c = f_type f) by
        (apply registry_keys_inj; [apply Hc | apply Hf | done]).
      apply chain_ok_same; try done; [by apply not_in_dom | | auto |].
      * intros c' Hc'. by rewrite <- Ecf, Hty.
      * apply IHn'; [by constructor | | done].
        intros c' [-> | Hc']%elem_of_cons; [done |]. by rewrite <- Ecf, Hty.
    + apply chain_ok_other; [done | done | done |]. apply Hplain. split_and!; try done; set_solver.
Qed.

Lemma best_prio_ge rules v r :
  r ∈ rules → rule_matches r v = true → (rule_prio r ≤ best_prio rules v)%N.
Proof.
  intros Hr Hm. induction rules as [|x rules IH]; [by apply elem_of_nil in Hr |].
  cbn. apply elem_of_cons in Hr as [-> | Hr].
  - rewrite Hm. apply N.le_max_l.
  - specialize (IH Hr). destruct (rule_matches x v); [| done].
    etrans; [exact IH | apply N.le_max_r].
Qed.

(** A winner is the one rule a switch can use. *)
Lemma wins_top rules v r r' : wins rules v r → r' ∈ top_rules rules v → r' = r.
Proof.
  intros (Hr & Hm & Hw) Hr'. apply list_elem_of_In, filter_In in Hr' as [Hr' H].
  apply andb_true_iff in H as [Hm' Hp]. apply N.eqb_eq in Hp.
  apply list_elem_of_In in Hr'. destruct (Hw r' Hr' Hm') as [-> | Hlt]; [done |].
  pose proof (best_prio_ge _ _ _ Hr Hm). lia.
Qed.

Lemma plain_traverse_leaf_at d v : dok d → full v → plain_traverse d v = Ok (leaf_at d v, v).
Proof.
  intros Hd Hv. induction d as [l | f p IHp n IHn]; [done |].
  destruct Hd as (Hf & Hp & Hn). cbn [plain_traverse leaf_at].
  rewrite vtest by (done || apply Hf). cbn [mbind res_bind].
  destruct (satb _ f); auto.
Qed.

(** ** Properties *)

(** C4: translator correctness.  From any start (match, band) with exact,
    path-consistent tests and a band wide enough for the splits of the
    diagram, translation never throws and leaves its state as it found it;
    every rule stays in the band and refines the start match; and on every
    full packet of the match the rule of the leaf that the packet reaches is
    the only rule of the highest matching priority. *)
Theorem translator_correct d m down up :
  dok d → fs_wf m → path_ok (dom m) [] d → (down + gap (bands None d) ≤ up)%N → (up < 2 ^ 16)%N →
  ∃ d' rules,
    translate d (translator_at m down up) = Ok (translator_at m down up, d', rules) ∧
    (∀ r, r ∈ rules → (down ≤ rule_prio r < up)%N) ∧
    (∀ r v, r ∈ rules → rule_matches r v = true → fs_satb m v = true) ∧
    ∀ v, full v → fs_satb m v = true → ∃ r l,
      wins rules v r ∧ plain_traverse d v = Ok (l, v) ∧ rule_do r = leaf_action l.
Proof.
  intros Hd Hm Hp Hg Hu.
  destruct (translate_ptrans d m down up 0 None [] Hm Hd Hp registered_nonzero) as [d' E].
  destruct (ptrans_ok d Hd m Hm) as [H _]. destruct (H Hp down up 0%N Hg Hu) as (R & B & W).
  exists d', (ptrans m down up 0 None d). split_and!; [exact E | exact B | exact R |].
  intros v Hv Hmv. destruct (W v Hv Hmv) as (r & Hr & Hdo).
  exists r, (leaf_at d v). split_and!; [done | by apply plain_traverse_leaf_at | done].
Qed.

Lemma translator_correct_witness :
  let d := Node (Field in_port 1 0xffffffff) (leaf_of (unit_of ∅)) (Leaf empty_leaf) in
  ∃ d' rules, translate d (translator_at ∅ 1 65535) = Ok (translator_at ∅ 1 65535, d', rules) ∧
    (∀ r, r ∈ rules → (1 ≤ rule_prio r < 65535)%N) ∧
    (∀ r v, r ∈ rules → rule_matches r v = true → fs_satb ∅ v = true) ∧
    ∀ v, full v → fs_satb ∅ v = true → ∃ r l,
      wins rules v r ∧ plain_traverse d v = Ok (l, v) ∧ rule_do r = leaf_action l.
Proof.
  intros d. apply (translator_correct d ∅ 1 65535).
  - split; [by apply rfield_exact_test | split; [apply dok_leaf_of, unit_ok_empty | apply dok_leaf0]].
  - apply fs_wf_empty.
  - split_and!; [done | apply not_elem_of_nil | done | done].
  - by vm_compute.
  - done.
Defined.

(** A branch of a forwarding policy: packets of an input port go to a port. *)
Definition branch (i o : N) : policy :=
  Sequential (Filter (Field in_port i 0xffffffff)) (Modify (Field out_port o 0xffffffff)).

(** C40: path consistency is needed, and the compiler does not always give it:
    of [filter 1 + (filter 2 + filter 3)] on one type, the compiled diagram
    tests 3 again under the positive branch of 1, the translator overwrites
    the match, and packets of port 3 are also sent where those of port 1
    should go. *)
Theorem nested_parallel_wrong_rule :
  let p := Parallel (branch 1 11) (Parallel (branch 2 12) (branch 3 13)) in
  let v := with_values [(in_port, 3%N)] in
  ∃ d rules, compile 20 p = Ret d ∧ rules_of d = Ok rules ∧
    (l ← eval p v; Ok (map (λ w, vview w out_port) l)) = Ok [13%N] ∧
    map (λ r, map (λ w, vview w out_port) (action_outs (rule_do r) v)) (top_rules rules v)
      = [[13%N; 11%N]].
Proof.
  intros p v.
  assert (H : match compile 20 p with
              | Ret d => match rules_of d with
                         | Ok rules =>
                             (l ← eval p v; Ok (map (λ w, vview w out_port) l)) = Ok [13%N] ∧
                             map (λ r, map (λ w, vview w out_port) (action_outs (rule_do r) v))
                               (top_rules rules v) = [[13%N; 11%N]]
                         | _ => False
                         end
              | _ => False
              end) by (vm_compute; done).
  destruct (compile 20 p) as [d | |]; [| done | done].
  destruct (rules_of d) as [rules |] eqn:E; [| done]. by exists d, rules.
Qed.

(** Filters of distinct types nested in one another, each level forwarding. *)
Fixpoint nested (l : list otype) (i : N) : policy :=
  let out := Modify (Field out_port i 0xffffffff) in
  match l with
  | [] => out
  | t :: l => Parallel out (Sequential (Filter (Field t 1 (N.ones (nbits t)))) (nested l (i + 1)))
  end.

(** the 16-bit priority band is exhausted by 17 nested tests, more than
    the 14 that [translator_correct] allows by default: two rules with
    different actions tie for a packet that passes all but the last test. *)
Theorem priority_band_exhausted :
  let ts := [eth_type; vlan_vid; ip_proto; ipv4_src; ipv4_dst; tcp_src; tcp_dst; udp_src; udp_dst;
             icmp_type; icmp_code; arp_op; arp_spa; arp_tpa; arp_sha; arp_tha; ipv6_src] in
  let v := with_values (map (λ t, (t, 1%N)) (take 16 ts)) in
  ∃ d rules, compile 300 (nested ts 0) = Ret d ∧ rules_of d = Ok rules ∧
    map (λ r, (rule_prio r, length (action_outs (rule_do r) v))) (top_rules rules v)
      = [(65532, 16%nat); (65532, 17%nat)]%N.
Proof.
  intros ts v.
  assert (H : match compile 300 (nested ts 0) with
              | Ret d => match rules_of d with
                         | Ok rules => map (λ r, (rule_prio r, length (action_outs (rule_do r) v))) (top_rules rules v)
                                       = [(65532, 16%nat); (65532, 17%nat)]%N
                         | _ => False
                         end
              | _ => False
              end) by (vm_compute; done).
  destruct (compile 300 (nested ts 0)) as [d | |]; [| done | done].
  destruct (rules_of d) as [rules |] eqn:E; [| done]. by exists d, rules.
Qed.
