(* ===== verification/FddOrder.v ===== *)
(** * FddOrder: from a policy to the switch table

    The compiler keeps diagrams strictly ordered (a positive branch tests
    later types only, a negative branch larger values of the same type or
    later types) as long as no type is filtered by three different values;
    a strictly ordered diagram is path-consistent and splits the band once per
    type.  Together with the compiler's and the translator's correctness this
    gives the end-to-end theorem: the installed table does what the policy
    says. *)

From S2P Require Import Prelude Bits Oxm FieldSet Packet Policy Valuation Fdd FddCompiler.
From S2P Require Import FddCorrect FddTranslator.

(** ** The order of tests *)

Definition type_above (f g : field) : Prop :=
  type_eqb (f_type f) (f_type g) = false ∧ (compare_types (f_type f) (f_type g) >? 0)%Z = true.

Definition above (f g : field) : Prop :=
  type_above f g ∨ (f_type f = f_type g ∧ (f_val f < f_val g)%N).

Fixpoint tests (d : diagram) : list field :=
  match d with
  | Leaf _ => []
  | Node f p n => f :: tests p ++ tests n
  end.

Fixpoint strict (d : diagram) : Prop :=
  match d with
  | Leaf _ => True
  | Node f p n =>
      (∀ g, g ∈ tests p → type_above f g) ∧ (∀ g, g ∈ tests n → above f g) ∧ strict p ∧ strict n
  end.

(** The fields a policy filters on. *)
Fixpoint filters (p : policy) : list field :=
  match p with
  | Filter f => [f]
  | Negation q => filters q
  | Sequential a b | Parallel a b => filters a ++ filters b
  | _ => []
  end.

(** Exact fields, at most two of one type. *)
Definition few (U : list field) : Prop :=
  Forall rfield_exact U ∧
  ∀ a b c, a ∈ U → b ∈ U → c ∈ U → f_type a = f_type b → f_type b = f_type c →
    a = b ∨ b = c ∨ a = c.

Lemma few_exact U f : few U → f ∈ U → rfield_exact f.
Proof. intros [H _] Hf. by eapply (Forall_elem rfield_exact). Qed.

Lemma type_above_trans a b c :
  rfield_exact a → rfield_exact b → rfield_exact c →
  type_above a b → type_above b c → type_above a c.
Proof.
  intros Ha Hb Hc. unfold type_above.
  assert (H : forallb (λ a, forallb (λ b, forallb (λ c,
    implb (negb (type_eqb a b) && (compare_types a b >? 0)%Z && negb (type_eqb b c) && (compare_types b c >? 0)%Z)
          (negb (type_eqb a c) && (compare_types a c >? 0)%Z)) registry) registry) registry = true)
    by (vm_compute; reflexivity).
  assert (R : ∀ f, rfield_exact f → In (f_type f) registry).
  { intros f [[Hf _] _]. apply list_elem_of_In. by apply registered_spec. }
  rewrite forallb_forall in H. specialize (H _ (R _ Ha)).
  rewrite forallb_forall in H. specialize (H _ (R _ Hb)).
  rewrite forallb_forall in H. specialize (H _ (R _ Hc)).
  intros [E1 E2] [E3 E4]. rewrite E1, E2, E3, E4 in H. cbn in H.
  apply andb_true_iff in H as [H1 H2]. by apply negb_true_iff in H1.
Qed.

Lemma type_above_flip f g :
  rfield_exact f → rfield_exact g → type_eqb (f_type f) (f_type g) = false →
  (compare_types (f_type f) (f_type g) >? 0)%Z = false → type_above g f.
Proof.
  intros Hf Hg Et E. split; [by rewrite type_eqb_sym |].
  rewrite compare_types_total; [by rewrite E | apply Hg | apply Hf | by rewrite type_eqb_sym].
Qed.

Lemma type_above_eq f g h : f_type f = f_type g → type_above f h ↔ type_above g h.
Proof. unfold type_above. by intros ->. Qed.

Lemma type_eq_exact f g :
  rfield_exact f → rfield_exact g → type_eqb (f_type f) (f_type g) = true → f_type f = f_type g.
Proof. intros [[Hf _] _] [[Hg _] _]. by apply registry_keys_inj. Qed.

Lemma above_trans a b c :
  rfield_exact a → rfield_exact b → rfield_exact c → above a b → above b c → above a c.
Proof.
  intros Ha Hb Hc [Hab | [Eab Vab]] [Hbc | [Ebc Vbc]].
  - left. by apply (type_above_trans a b c).
  - left. unfold type_above in *. by rewrite <- Ebc.
  - left. by apply (type_above_eq a b).
  - right. split; [congruence | lia].
Qed.

Lemma type_above_above a b c :
  rfield_exact a → rfield_exact b → rfield_exact c → type_above a b → above b c → type_above a c.
Proof.
  intros Ha Hb Hc Hab [Hbc | [Ebc _]]; [by apply (type_above_trans a b c) |].
  unfold type_above in *. by rewrite <- Ebc.
Qed.

Lemma above_type_above a b c :
  rfield_exact a → rfield_exact b → rfield_exact c → above a b → type_above b c → type_above a c.
Proof.
  intros Ha Hb Hc [Hab | [Eab _]] Hbc; [by apply (type_above_trans a b c) |]. by eapply type_above_eq.
Qed.

Lemma goes_left_above f g :
  rfield_exact f → rfield_exact g → field_eqb f g = false → goes_left f g = true → above f g.
Proof.
  intros Hf Hg Hne. unfold goes_left. rewrite Hne. cbn.
  destruct (type_eqb (f_type f) (f_type g)) eqn:Et.
  - intros H. right. split; [by apply type_eq_exact |]. by apply N.ltb_lt.
  - intros H. by left.
Qed.

(** ** Diagrams over a universe of tests *)

Definition ordered (U : list field) (d : diagram) : Prop := strict d ∧ tests d ⊆ U.

Lemma ordered_node U f p n :
  ordered U (Node f p n) ↔
  f ∈ U ∧ ordered U p ∧ ordered U n ∧
  (∀ g, g ∈ tests p → type_above f g) ∧ (∀ g, g ∈ tests n → above f g).
Proof.
  unfold ordered. cbn [strict tests]. split.
  - intros ((H1 & H2 & H3 & H4) & Hs). split_and!; try done; set_solver.
  - intros (Hf & [Hp1 Hp2] & [Hn1 Hn2] & H1 & H2). split_and!; try done. set_solver.
Qed.

Lemma ordered_leaf U l : ordered U (Leaf l).
Proof. split; [done | set_solver]. Qed.
#[export] Hint Resolve ordered_leaf : runos.

Lemma ordered_below U f p n g :
  few U → ordered U (Node f p n) → g ∈ tests (Node f p n) → g = f ∨ above f g.
Proof.
  intros HU (_ & _ & _ & Hp & Hn)%ordered_node Hg. cbn in Hg.
  apply elem_of_cons in Hg as [-> | Hg]; [by left |]. right.
  apply elem_of_app in Hg as [Hg | Hg]; [left |]; auto.
Qed.

(** Below [f] of one type there is at most one other value. *)
Lemma few_third U f g h :
  few U → f ∈ U → g ∈ U → h ∈ U → f_type f = f_type g → f ≠ g → (f_val f < f_val g)%N →
  above g h → type_above f h.
Proof.
  intros [Hex HU] Hf Hg Hh E Hne Hlt [Hgh | [Egh Vgh]]; [by apply (type_above_eq f g) |].
  exfalso. destruct (HU f g h) as [-> | [-> | ->]]; try done; lia.
Qed.

(** ** The operations keep the order *)

(** Inclusion of concatenated lists of tests. *)
Ltac tests_sub :=
  cbn [tests]; match goal with |- _ ⊆ _ => intros ?x | _ => idtac end;
  repeat rewrite ?elem_of_app, ?elem_of_cons, ?elem_of_nil; tauto.

Definition par_order (U : list field) (l r d : diagram) : Prop :=
  ordered U d ∧ tests d ⊆ tests l ++ tests r.

Lemma par_order_sym U l r d : par_order U r l d → par_order U l r d.
Proof. intros [H1 H2]. split; [done |]. set_solver. Qed.

Lemma par_order_node U f lp ln rp rn l r dp dn :
  few U → f ∈ U → par_order U lp rp dp → par_order U ln rn dn →
  f ∈ tests l ++ tests r →
  tests lp ++ tests rp ⊆ tests l ++ tests r → tests ln ++ tests rn ⊆ tests l ++ tests r →
  (∀ g, g ∈ tests lp ++ tests rp → type_above f g) →
  (∀ g, g ∈ tests ln ++ tests rn → above f g) → par_order U l r (Node f dp dn).
Proof.
  intros HU Hf [Op Sp] [On Sn] Hfl Slp Sln Hp Hn. split.
  - apply ordered_node. split_and!; [done | done | done | |]; intros g Hg; [apply Hp | apply Hn]; set_solver.
  - cbn [tests]. set_solver.
Qed.

Lemma par_ordered U n l r d :
  few U → ordered U l → ordered U r → par n l r = Ret d → par_order U l r d.
Proof.
  intros HU. revert l r d. induction n as [|n IH]; intros l r d Hl Hr E; [done |].
  destruct l as [l | f lp ln], r as [r | g rp rn]; cbn [par] in E.
  - injection E as <-. split; [auto with runos | set_solver].
  - apply par_order_sym. by apply IH.
  - destruct (par n lp (Leaf r)) as [dp | |] eqn:Ep; cbn in E; try discriminate.
    destruct (par n ln (Leaf r)) as [dn | |] eqn:En; cbn in E; try discriminate.
    injection E as <-. apply ordered_node in Hl as (Hf & Hlp & Hln & Hp & Hn).
    apply IH in Ep, En; try done. eapply (par_order_node U f); try done; cbn [tests]; set_solver.
  - pose proof Hl as Hl'. pose proof Hr as Hr'.
    apply ordered_node in Hl' as (Hf & Hlp & Hln & Hp & Hn).
    apply ordered_node in Hr' as (Hg & Hrp & Hrn & Hp' & Hn').
    pose proof (few_exact _ _ HU Hf) as Ef. pose proof (few_exact _ _ HU Hg) as Eg.
    assert (HX : ∀ h d', ordered U d' → h ∈ tests d' → rfield_exact h).
    { intros h d' [_ Hs] Hh. eapply few_exact; [done |]. by apply Hs. }
    destruct (field_eqb f g) eqn:Efg.
    + destruct (par n lp rp) as [dp | |] eqn:Ep; cbn in E; try discriminate.
      destruct (par n ln rn) as [dn | |] eqn:En; cbn in E; try discriminate.
      injection E as <-. apply IH in Ep, En; try done.
      apply field_eqb_rfield in Efg; [| done | done]. subst g.
      eapply (par_order_node U f); try done; cbn [tests]; set_solver.
    + destruct (type_eqb (f_type f) (f_type g)) eqn:Et.
      * destruct (value_ltb f g) eqn:Ev; [| by apply par_order_sym, IH].
        destruct (par n lp rn) as [dp | |] eqn:Ep; cbn in E; try discriminate.
        destruct (par n ln (Node g rp rn)) as [dn | |] eqn:En; cbn in E; try discriminate.
        injection E as <-. apply IH in Ep, En; try done.
        apply type_eq_exact in Et; [| done | done]. apply N.ltb_lt in Ev.
        assert (Hfg : f ≠ g) by (intros ->; lia).
        apply (par_order_node U f lp ln rn (Node g rp rn)); try done; try tests_sub.
        -- intros h [Hh | Hh]%elem_of_app; [auto |].
           apply (few_third U f g h); auto. by apply Hrn.
        -- intros h [Hh | Hh]%elem_of_app; [auto |].
           apply (ordered_below U g rp rn h HU Hr) in Hh as Hgh.
           assert (above f g) by by right.
           destruct Hgh as [-> | Hgh]; [done |].
           eapply (above_trans f g h); try done. by eapply (HX h (Node g rp rn)).
      * destruct (compare_types (f_type f) (f_type g) >? 0)%Z eqn:Ec; [| by apply par_order_sym, IH].
        destruct (par n lp (Node g rp rn)) as [dp | |] eqn:Ep; cbn in E; try discriminate.
        destruct (par n ln (Node g rp rn)) as [dn | |] eqn:En; cbn in E; try discriminate.
        injection E as <-. apply IH in Ep, En; try done.
        assert (Hfg : type_above f g) by done.
        assert (Hall : ∀ h, h ∈ tests (Node g rp rn) → type_above f h).
        { intros h Hh. apply (ordered_below U g rp rn h HU Hr) in Hh as Hgh.
          destruct Hgh as [-> | Hgh]; [done |].
          eapply (type_above_above f g h); try done. by eapply (HX h (Node g rp rn)). }
        apply (par_order_node U f lp ln (Node g rp rn) (Node g rp rn)); try done; try tests_sub.
        -- intros h [Hh | Hh]%elem_of_app; auto.
        -- intros h [Hh | Hh]%elem_of_app; [auto | left; auto].
Qed.

(** A root above everything in [d]. *)
Lemma ordered_root_pos U f d l :
  f ∈ U → ordered U d → (∀ g, g ∈ tests d → type_above f g) → ordered U (Node f d (Leaf l)).
Proof.
  intros Hf Hd H. apply ordered_node. split_and!; auto with runos.
  intros g Hg. by apply elem_of_nil in Hg.
Qed.

Lemma ordered_root_neg U f d l :
  f ∈ U → ordered U d → (∀ g, g ∈ tests d → above f g) → ordered U (Node f (Leaf l) d).
Proof.
  intros Hf Hd H. apply ordered_node. split_and!; auto with runos.
  intros g Hg. by apply elem_of_nil in Hg.
Qed.

Lemma ordered_tests_above U f g p n :
  few U → f ∈ U → ordered U (Node g p n) → above f g →
  ∀ h, h ∈ tests (Node g p n) → above f h.
Proof.
  intros HU Hf Hd Hfg h Hh. destruct (ordered_below U g p n h HU Hd Hh) as [-> | Hgh]; [done |].
  destruct Hd as [_ Hs]. assert (Hg : g ∈ U) by (apply Hs; left).
  eapply (above_trans f g h); try done; eapply few_exact; try done. by apply Hs.
Qed.

Lemma ordered_tests_type_above U f g p n :
  few U → f ∈ U → ordered U (Node g p n) → type_above f g →
  ∀ h, h ∈ tests (Node g p n) → type_above f h.
Proof.
  intros HU Hf Hd Hfg h Hh. destruct (ordered_below U g p n h HU Hd Hh) as [-> | Hgh]; [done |].
  destruct Hd as [_ Hs]. assert (Hg : g ∈ U) by (apply Hs; left).
  eapply (type_above_above f g h); try done; eapply few_exact; try done. by apply Hs.
Qed.

Definition restr_order (U : list field) (f : field) (d d' : diagram) : Prop :=
  ordered U d' ∧ tests d' ⊆ f :: tests d.

Lemma applier_true_ordered U f d :
  few U → f ∈ U → ordered U d → restr_order U f d (applier_true f d).
Proof.
  intros HU Hf. induction d as [l | g p IHp n IHn]; intros Hd; cbn [applier_true].
  - split; [apply ordered_root_pos; auto with runos | tests_sub].
    intros h Hh. by apply elem_of_nil in Hh.
  - pose proof Hd as Hd'. apply ordered_node in Hd' as (Hg & Hp & Hn & Hap & Han).
    pose proof (few_exact _ _ HU Hf) as Ef. pose proof (few_exact _ _ HU Hg) as Eg.
    destruct (IHp Hp) as [Op Sp], (IHn Hn) as [On Sn].
    destruct (field_eqb g f) eqn:Egf; [| destruct (type_eqb (f_type g) (f_type f)) eqn:Et].
    + apply field_eqb_rfield in Egf; [| done | done]. subst g.
      split; [by apply ordered_root_pos | tests_sub].
    + split; [done |]. intros h Hh. apply Sn in Hh. revert Hh. tests_sub.
    + rewrite type_eqb_sym in Et. destruct (compare_types _ _ >? 0)%Z eqn:Ec.
      * split; [apply ordered_root_pos; try done | tests_sub].
        by eapply ordered_tests_type_above.
      * assert (Hgf : type_above g f) by by apply type_above_flip.
        split.
        -- apply ordered_node. split_and!; try done; intros h Hh.
           ++ apply Sp, elem_of_cons in Hh as [-> | Hh]; auto.
           ++ apply Sn, elem_of_cons in Hh as [-> | Hh]; [by left | auto].
        -- cbn [tests]. intros h. rewrite elem_of_cons, elem_of_app.
           intros [-> | [Hh | Hh]]; [tests_sub | apply Sp in Hh | apply Sn in Hh];
             revert Hh; tests_sub.
Qed.

Lemma applier_false_ordered U f d :
  few U → f ∈ U → ordered U d → restr_order U f d (applier_false f d).
Proof.
  intros HU Hf. induction d as [l | g p IHp n IHn]; intros Hd; cbn [applier_false].
  - split; [apply ordered_root_neg; auto with runos | tests_sub].
    intros h Hh. by apply elem_of_nil in Hh.
  - pose proof Hd as Hd'. apply ordered_node in Hd' as (Hg & Hp & Hn & Hap & Han).
    pose proof (few_exact _ _ HU Hf) as Ef. pose proof (few_exact _ _ HU Hg) as Eg.
    destruct (IHp Hp) as [Op Sp], (IHn Hn) as [On Sn].
    assert (Hroot : above f g → restr_order U f (Node g p n) (Node f (Leaf empty_leaf) (Node g p n))).
    { intros Hfg. split; [apply ordered_root_neg; try done | tests_sub].
      by eapply ordered_tests_above. }
    destruct (field_eqb g f) eqn:Egf; [| destruct (type_eqb (f_type g) (f_type f)) eqn:Et].
    + apply field_eqb_rfield in Egf; [| done | done]. subst g.
      split; [by apply ordered_root_neg | tests_sub].
    + pose proof Et as Et'. apply type_eq_exact in Et; [| done | done].
      destruct (value_ltb g f) eqn:Ev.
      * apply N.ltb_lt in Ev. split.
        -- apply ordered_node. split_and!; try done. intros h Hh.
           apply Sn, elem_of_cons in Hh as [-> | Hh]; [by right | auto].
        -- cbn [tests]. intros h. rewrite elem_of_cons, elem_of_app.
           intros [-> | [Hh | Hh]]; [tests_sub | | apply Sn in Hh]; revert Hh; tests_sub.
      * apply Hroot. right. split; [done |]. apply N.ltb_ge in Ev.
        apply field_eqb_false in Egf; [| done | done].
        destruct (N.eq_dec (f_val f) (f_val g)) as [E | E]; [| lia].
        exfalso. apply Egf. by apply value_eq_exact.
    + rewrite type_eqb_sym in Et. destruct (compare_types _ _ >? 0)%Z eqn:Ec.
      * apply Hroot. by left.
      * assert (Hgf : type_above g f) by by apply type_above_flip.
        split.
        -- apply ordered_node. split_and!; try done; intros h Hh.
           ++ apply Sp, elem_of_cons in Hh as [-> | Hh]; auto.
           ++ apply Sn, elem_of_cons in Hh as [-> | Hh]; [by left | auto].
        -- cbn [tests]. intros h. rewrite elem_of_cons, elem_of_app.
           intros [-> | [Hh | Hh]]; [tests_sub | apply Sp in Hh | apply Sn in Hh];
             revert Hh; tests_sub.
Qed.

Lemma restriction_ordered U f d b :
  few U → f ∈ U → ordered U d → ordered U (restriction f d b).
Proof.
  intros HU Hf Hd. destruct b; [by apply applier_true_ordered | by apply applier_false_ordered].
Qed.

Lemma left_action_applier_ordered U a d d' :
  ordered U d → left_action_applier a d = Ok d' → ordered U d' ∧ tests d' ⊆ tests d.
Proof.
  revert d'. induction d as [l | f p IHp n IHn]; intros d' Hd E; cbn [left_action_applier] in E.
  - inv_res. split; [apply ordered_leaf | done].
  - apply ordered_node in Hd as (Hf & Hp & Hn & Hap & Han).
    destruct (find _ _) as [g|].
    + destruct (field_eqb g f).
      * destruct (IHp _ Hp E) as [O S]. split; [done |]. intros h Hh. apply S in Hh. revert Hh. tests_sub.
      * destruct (IHn _ Hn E) as [O S]. split; [done |]. intros h Hh. apply S in Hh. revert Hh. tests_sub.
    + destruct (left_action_applier a p) as [p'|]; [| done]. cbn in E.
      destruct (left_action_applier a n) as [n'|]; [| done]. cbn in E. inv_res.
      destruct (IHp _ Hp eq_refl) as [Op Sp], (IHn _ Hn eq_refl) as [On Sn]. split.
      * apply ordered_node. split_and!; auto.
      * cbn [tests]. intros h. rewrite !elem_of_cons, !elem_of_app. naive_solver.
Qed.

Lemma seq_units_ordered U n l r acc d :
  few U → ordered U r → ordered U acc → seq_units n l r acc = Ret d → ordered U d.
Proof.
  intros HU Hr. revert acc. induction l as [|a l IH]; intros acc Hacc E; cbn [seq_units] in E.
  - by injection E as <-.
  - destruct (left_action_applier a r) as [c|] eqn:Ec; [| done]. cbn in E.
    destruct (par n acc c) as [acc' | |] eqn:Ep; cbn in E; try discriminate.
    apply (left_action_applier_ordered U) in Ec as [Hc _]; [| done].
    eapply IH; [| exact E]. eapply par_ordered; [exact HU | exact Hacc | exact Hc | exact Ep].
Qed.

Lemma seqd_ordered U n l r d :
  few U → ordered U l → ordered U r → seqd n l r = Ret d → ordered U d.
Proof.
  intros HU Hl Hr. revert d Hl. induction l as [l | f p IHp q IHq]; intros d Hl E; cbn [seqd] in E.
  - unfold seq_leaf in E. destruct (sets l); [injection E as <-; apply ordered_leaf |].
    eapply seq_units_ordered; [exact HU | exact Hr | apply ordered_leaf | exact E].
  - apply ordered_node in Hl as (Hf & Hp & Hq & _ & _).
    destruct (seqd n p r) as [one | |] eqn:E1; cbn in E; try discriminate.
    destruct (seqd n q r) as [two | |] eqn:E2; cbn in E; try discriminate.
    eapply par_ordered; [exact HU | apply (restriction_ordered U f one true)
      | apply (restriction_ordered U f two false) | exact E]; auto.
Qed.

Lemma negd_tests d : tests (negd d) = tests d.
Proof. induction d as [l | f p IHp n IHn]; cbn; [done |]. by rewrite IHp, IHn. Qed.

Lemma negd_ordered U d : ordered U d → ordered U (negd d).
Proof.
  induction d as [l | f p IHp n IHn]; intros Hd; [apply ordered_leaf |].
  apply ordered_node in Hd as (Hf & Hp & Hn & Hap & Han). cbn [negd]. apply ordered_node.
  rewrite !negd_tests. split_and!; auto.
Qed.

Lemma compile_ordered U n p d :
  few U → filters p ⊆ U → compile n p = Ret d → ordered U d.
Proof.
  intros HU. revert d. induction p as [| | f | f | s | q IH | i h | a IHa b IHb | a IHa b IHb];
    intros d Hs E; cbn [compile filters] in *; try (injection E as <-; apply ordered_leaf).
  - injection E as <-. apply ordered_root_pos; [apply Hs; left | apply ordered_leaf |].
    intros g Hg. by apply elem_of_nil in Hg.
  - destruct (compile n q) as [d' | |]; cbn in E; try discriminate. injection E as <-.
    apply negd_ordered; auto.
  - destruct (compile n a) as [d1 | |]; cbn in E; try discriminate.
    destruct (compile n b) as [d2 | |]; cbn in E; try discriminate.
    eapply seqd_ordered; [done | | | exact E]; [apply IHa | apply IHb]; try done; set_solver.
  - destruct (compile n a) as [d1 | |]; cbn in E; try discriminate.
    destruct (compile n b) as [d2 | |]; cbn in E; try discriminate.
    eapply par_ordered; [done | | | exact E]; [apply IHa | apply IHb]; try done; set_solver.
Qed.

(** ** Ordered diagrams are path-consistent *)

Lemma type_above_key f g : type_above f g → tkey (f_type f) ≠ tkey (f_type g).
Proof. intros [H _] E. apply type_eqb_key in E. congruence. Qed.

Lemma above_ne f g : above f g → f ≠ g.
Proof.
  intros [[H _] | [_ H]] ->; [by rewrite type_eqb_refl in H | lia].
Qed.

Lemma ordered_path_ok U d used chain :
  few U → ordered U d →
  (∀ g, g ∈ tests d → tkey (f_type g) ∉ used) → (∀ c g, c ∈ chain → g ∈ tests d → c ≠ g) →
  path_ok used chain d.
Proof.
  intros HU. revert used chain. induction d as [l | f p IHp n IHn]; intros used chain Hd Hu Hc; [done |].
  pose proof Hd as (Hf & Hp & Hn & Hap & Han)%ordered_node. cbn [path_ok]. split_and!.
  - apply Hu. left.
  - intros Hin. eapply Hc; [exact Hin | left | done].
  - apply IHp; [done | | intros c g Hin; by apply elem_of_nil in Hin].
    intros g Hg. apply not_elem_of_union. split.
    + apply not_elem_of_singleton. intros E. symmetry in E. revert E. by apply type_above_key, Hap.
    + apply Hu. tests_sub.
  - apply IHn; [done | |].
    + intros g Hg. apply Hu. tests_sub.
    + assert (H1 : ∀ c g, c ∈ [f] → g ∈ tests n → c ≠ g).
      { intros c g ->%list_elem_of_singleton Hg. by apply above_ne, Han. }
      destruct chain as [|c0 cs]; [done |]. destruct (type_eqb _ _); [| done].
      intros c g [-> | Hin]%elem_of_cons Hg; [by apply above_ne, Han |].
      apply Hc; [done |]. tests_sub.
Qed.

(** ** and split the band once per type *)

Definition keys_of (l : list field) : gset key := list_to_set (map (λ f, tkey (f_type f)) l).

Lemma elem_of_keys_of k l : k ∈ keys_of l ↔ ∃ f, f ∈ l ∧ k = tkey (f_type f).
Proof.
  unfold keys_of. rewrite elem_of_list_to_set, list_elem_of_fmap. naive_solver.
Qed.

Lemma keys_of_mono l l' : l ⊆ l' → keys_of l ⊆ keys_of l'.
Proof. intros H k. rewrite !elem_of_keys_of. naive_solver. Qed.

Lemma difference_not_in (K : gset key) k : k ∉ K → K ∖ {[ k ]} = K.
Proof. set_solver. Qed.

Lemma size_difference_in (K : gset key) k : k ∈ K → size K = S (size (K ∖ {[ k ]})).
Proof.
  intros H. rewrite size_difference by set_solver. rewrite size_singleton.
  assert (size K ≠ 0)%nat by (intros E; apply size_empty_inv in E; set_solver). lia.
Qed.

Lemma bands_types U d :
  few U → ordered U d →
  (bands None d ≤ size (keys_of (tests d)))%nat ∧
  (∀ c, rfield_exact c → (∀ g, g ∈ tests d → above c g) →
    (bands (Some (f_type c)) d ≤ size (keys_of (tests d) ∖ {[ tkey (f_type c) ]}))%nat).
Proof.
  intros HU. induction d as [l | f p IHp n IHn]; intros Hd; [split; intros; cbn; lia |].
  pose proof Hd as (Hf & Hp & Hn & Hap & Han)%ordered_node.
  destruct (IHp Hp) as [Bp _]. destruct (IHn Hn) as [_ Bn].
  specialize (Bn f (few_exact _ _ HU Hf) Han).
  set (kf := tkey (f_type f)) in *. set (K := keys_of (tests (Node f p n))) in *.
  assert (Hkf : kf ∈ K) by (apply elem_of_keys_of; exists f; split; [left | done]).
  assert (HKp : keys_of (tests p) ⊆ K ∖ {[ kf ]}).
  { intros k Hk. apply elem_of_keys_of in Hk as (g & Hg & ->). apply elem_of_difference. split.
    - apply elem_of_keys_of. exists g. split; [tests_sub | done].
    - apply not_elem_of_singleton. intros E. symmetry in E. revert E. by apply type_above_key, Hap. }
  assert (HKn : keys_of (tests n) ∖ {[ kf ]} ⊆ K ∖ {[ kf ]}).
  { apply difference_mono_r, keys_of_mono. tests_sub. }
  apply subseteq_size in HKp, HKn.
  pose proof (size_difference_in K kf Hkf) as Hsz.
  split.
  - cbn [bands]. lia.
  - intros c Hc Hab. cbn [bands].
    assert (Hcf : above c f) by (apply Hab; left).
    destruct (type_eqb (f_type c) (f_type f)) eqn:Et.
    + apply type_eqb_key in Et. rewrite Et. fold kf. lia.
    + assert (Hnot : tkey (f_type c) ∉ K).
      { intros (g & Hg & E)%elem_of_keys_of.
        assert (Hcf' : type_above c f).
        { destruct Hcf as [? | [E' _]]; [done |]. rewrite E', type_eqb_refl in Et. done. }
        revert E. apply type_above_key. destruct (ordered_below U f p n g HU Hd Hg) as [-> | Hfg]; [done |].
        eapply (type_above_above c f g); try done; [by eapply few_exact |].
        eapply few_exact; [done |]. by apply Hd. }
      rewrite (difference_not_in K) by done. lia.
Qed.

(** ** The table of a pure diagram sends on what the diagram does *)

Lemma leaf_at_ok d v : dok d → leaf_ok (leaf_at d v).
Proof.
  induction d as [l | f p IHp n IHn]; intros Hd; [done |].
  destruct Hd as (_ & Hp & Hn). cbn. destruct (satb _ f); auto.
Qed.

Lemma leaf_at_pure d v : dpure d → Forall (λ a, body a = None) (sets (leaf_at d v)).
Proof.
  induction d as [l | f p IHp n IHn]; intros Hd; [done |].
  destruct Hd as [Hp Hn]. cbn. destruct (satb _ f); auto.
Qed.

Lemma outs_leaf_at d v : dok d → full v → outs d v = leaf_eval (leaf_at d v) v.
Proof.
  intros Hd Hv. rewrite outs_plain_traverse, plain_traverse_leaf_at by done. done.
Qed.

Lemma leaf_action_outs l v :
  leaf_ok l → Forall (λ a, body a = None) (sets l) → full v →
  leaf_eval l v ≈ₚ Ok (action_outs (leaf_action l) v).
Proof.
  intros Hl Hb Hv. rewrite leaf_eval_pure by done. unfold leaf_action.
  assert (E : existsb (λ s, match body s with Some _ => true | None => false end) (sets l) = false).
  { apply not_true_iff_false. intros (a & Ha & H)%existsb_exists.
    apply list_elem_of_In in Ha. rewrite (proj1 (Forall_elem _ _) Hb a Ha) in H. done. }
  rewrite E. cbn. by rewrite map_map.
Qed.

(** ** Properties *)

(** the compiler keeps tests strictly ordered.  When the policy filters
    on at most two values of each type, every diagram it compiles to tests,
    under a positive branch, only types later in the order and, under a
    negative branch, larger values or later types; so no path tests a type
    positively twice, and the priority band is split at most once per type. *)
Theorem compile_strictly_ordered n p d :
  few (filters p) → compile n p = Ret d →
  strict d ∧ tests d ⊆ filters p ∧ path_ok ∅ [] d ∧
  (bands None d ≤ size (keys_of (filters p)))%nat.
Proof.
  intros HU E. pose proof (compile_ordered (filters p) n p d HU ltac:(done) E) as Hd.
  split_and!; [apply Hd | apply Hd | |].
  - apply (ordered_path_ok (filters p)); [done | done | |].
    + intros g _. apply not_elem_of_empty.
    + intros c g Hc. by apply elem_of_nil in Hc.
  - destruct (bands_types (filters p) d HU Hd) as [Hb _].
    etrans; [exact Hb |]. apply subseteq_size, keys_of_mono. apply Hd.
Qed.

(** Two filters of a type, and a test that needs no order. *)
Lemma few_pair f g : rfield_exact f → rfield_exact g → few [f; g].
Proof.
  intros Hf Hg. split; [repeat (constructor; [done |]); by apply Forall_nil |].
  intros a b c Ha Hb Hc _ _.
  repeat match goal with
  | H : _ ∈ [f; g] |- _ => apply elem_of_cons in H as [-> | H%list_elem_of_singleton]; subst
  end; auto.
Qed.

Lemma compile_strictly_ordered_witness :
  let p := Parallel (branch 2 12) (branch 1 11) in
  ∃ d, compile 20 p = Ret d ∧ path_ok ∅ [] d.
Proof.
  intros p. destruct (compile 20 p) as [d | |] eqn:E; [| by vm_compute in E | by vm_compute in E].
  exists d. split; [done |]. apply (compile_strictly_ordered 20 p d); [| exact E].
  apply (few_pair (Field in_port 2 0xffffffff) (Field in_port 1 0xffffffff)); by apply rfield_exact_test.
Defined.


