(* ===== verification/Tracer.v ===== *)
(** * Tracer: recording what a packet function looked at,
    maple/TraceablePacketImpl.hh and .cc, maple/Tracer.hh, retic/tracer.hh and .cc

    The traceable proxy reads through to the packet, remembers in a cache
    which bits it has seen or written, and reports to a tracer only the bits
    it had not.  A tracer is anything that takes the reports ([TracerOps]);
    retic's records them in a list.  The theorems: the proxy is transparent
    ([trace_faithful]), its trace determines the run ([trace_replay]),
    and two traces of one function ask the same questions as long as the
    answers agree ([traces_compatible]). *)

From S2P Require Import Prelude Bits Oxm FieldSet Packet Policy Valuation.

(** ** Traces *)

Inductive trace_node : Type :=
| TLoad (f : field)
| TTest (f : field) (result : bool).

#[export] Instance trace_node_eq_dec : EqDecision trace_node.
Proof. solve_decision. Defined.

Record trace : Type := Trace { tr_result : policy; tr_values : list trace_node }.

(** A fresh trace: the variant's first alternative and no nodes. *)
Definition empty_trace : trace := Trace Stop [].

(** ** The tracer interface (maple/Tracer.hh) *)

Class TracerOps (T : Type) : Type := {
  tracer_load : T → field → res T;
  tracer_test : T → field → bool → res T;
  tracer_vload : T → field → field → res T
}.

(** [retic::tracer::Trace]: reports are appended; [vload] is not supported. *)
Definition trace_load (t : trace) (unexplored : field) : res trace :=
  Ok (Trace (tr_result t) (tr_values t ++ [TLoad unexplored])).
Definition trace_test (t : trace) (pred : field) (ret : bool) : res trace :=
  Ok (Trace (tr_result t) (tr_values t ++ [TTest pred ret])).
Definition trace_vload (t : trace) (by_ what : field) : res trace := Throw RuntimeError.
Definition set_result (t : trace) (result : policy) : trace := Trace result (tr_values t).

#[export] Instance trace_ops : TracerOps trace :=
  {| tracer_load := trace_load; tracer_test := trace_test; tracer_vload := trace_vload |}.

(** ** The traceable proxy *)

Record traceable (P T : Type) : Type := Traceable {
  tp_pkt : P;
  tp_tracer : T;
  tp_cache : field_set
}.
Arguments Traceable {P T} tp_pkt tp_tracer tp_cache.
Arguments tp_pkt {P T} t.
Arguments tp_tracer {P T} t.
Arguments tp_cache {P T} t.

Section Traceable.
Context {P T : Type} `{PacketOps P} `{TracerOps T}.

(** The bits of a read that the cache does not know. *)
Definition unexplored_of (read explored : field) : res field :=
  m ← mask_not (mask_of explored); field_and_mask read m.

Definition tp_load (p : traceable P T) (m : mask) : res (field * traceable P T) :=
  '(read, q) ← pkt_load (tp_pkt p) m;
  explored ← load (tp_cache p) m;
  unexplored ← unexplored_of read explored;
  if f_wildcard unexplored then Ok (read, Traceable q (tp_tracer p) (tp_cache p))
  else
    t ← tracer_load (tp_tracer p) unexplored;
    cache ← modify (tp_cache p) unexplored;
    Ok (read, Traceable q t cache).

Definition tp_test (p : traceable P T) (need : field) : res (bool * traceable P T) :=
  '(read, q) ← pkt_load (tp_pkt p) (mask_of need);
  explored ← load (tp_cache p) (mask_of need);
  unexplored ← unexplored_of read explored;
  known ← field_match_field explored need;
  if negb known then Ok (false, Traceable q (tp_tracer p) (tp_cache p))
  else if f_wildcard unexplored then Ok (true, Traceable q (tp_tracer p) (tp_cache p))
  else
    ret ← field_match_field unexplored need;
    asked ← field_and_mask need (mask_of unexplored);
    t ← tracer_test (tp_tracer p) asked ret;
    if ret : bool then
      cache ← modify (tp_cache p) unexplored;
      Ok (true, Traceable q t cache)
    else Ok (false, Traceable q t (tp_cache p)).

Definition tp_modify (p : traceable P T) (patch : field) : res (traceable P T) :=
  q ← pkt_modify (tp_pkt p) patch;
  cache ← modify (tp_cache p) patch;
  Ok (Traceable q (tp_tracer p) cache).

(** [watch] reads without recording. *)
Definition tp_watch (p : traceable P T) (m : mask) : res (field * traceable P T) :=
  '(read, q) ← pkt_load (tp_pkt p) m; Ok (read, Traceable q (tp_tracer p) (tp_cache p)).

(** [vload]: two reads reported together when both have something new. *)
Definition tp_vload (p : traceable P T) (by_ what : mask) : res (field * field * traceable P T) :=
  '(by_read, q) ← pkt_load (tp_pkt p) by_;
  by_explored ← load (tp_cache p) by_;
  by_unexplored ← unexplored_of by_read by_explored;
  let p1 := Traceable q (tp_tracer p) (tp_cache p) in
  if f_wildcard by_unexplored then
    '(what_read, p2) ← tp_load p1 what; Ok (by_read, what_read, p2)
  else
    '(what_read, q2) ← pkt_load q what;
    what_explored ← load (tp_cache p) what;
    what_unexplored ← unexplored_of what_read what_explored;
    let p2 := Traceable q2 (tp_tracer p) (tp_cache p) in
    if f_wildcard what_unexplored then
      '(by_read', p3) ← tp_load p2 by_; Ok (by_read', what_read, p3)
    else
      t ← tracer_vload (tp_tracer p) by_unexplored what_unexplored;
      Ok (by_read, what_read, Traceable q2 t (tp_cache p)).

#[export] Instance traceable_ops : PacketOps (traceable P T) :=
  {| pkt_load := tp_load; pkt_test := tp_test; pkt_modify := tp_modify |}.
End Traceable.

(** ** [Tracer::trace] *)

(** [p = modify(mod) >> p] for every recorded modification. *)
Definition prepend_mods (mods : list field) (p : policy) : policy :=
  fold_left (λ p mod_, Sequential (Modify mod_) p) mods p.

Section Trace.
Context {P : Type} `{PacketOps P}.

Definition traced_start (pkt : P) : mod_tracking (traceable P trace) :=
  ModTracking (Traceable pkt empty_trace ∅) ∅.

Definition run_tracer (h : handler) (pkt : P) : res trace :=
  '(p, s) ← run h (traced_start pkt);
  Ok (set_result (tp_tracer (mt_pkt s)) (prepend_mods (elements (mt_mods s)) p)).
End Trace.

(** ** [mergeTrace] *)

(** The [Handler] visitor on one node: cache and merged trace. *)
Definition merge_node (cache : field_set) (t : trace) (n : trace_node) : res (field_set * trace) :=
  match n with
  | TLoad f =>
      explored ← load cache (mask_of f);
      unexplored ← unexplored_of f explored;
      if f_wildcard unexplored then Ok (cache, t)
      else
        t' ← trace_load t unexplored;
        cache' ← modify cache unexplored;
        Ok (cache', t')
  | TTest f result =>
      explored ← load cache (mask_of f);
      unexplored ← unexplored_of f explored;
      if f_wildcard unexplored then Ok (cache, t)
      else
        t' ← trace_test t unexplored result;
        if result : bool then cache' ← modify cache unexplored; Ok (cache', t')
        else Ok (cache, t')
  end.

Fixpoint merge_nodes (cache : field_set) (t : trace) (l : list trace_node) : res (field_set * trace) :=
  match l with
  | [] => Ok (cache, t)
  | n :: l => '(cache', t') ← merge_node cache t n; merge_nodes cache' t' l
  end.

Definition merge_trace (traces : list trace) (cache : field_set) : res trace :=
  '(_, t) ← merge_nodes cache empty_trace (concat (map tr_values traces));
  match traces with
  | [] => Throw LogicError
  | first :: rest =>
      Ok (set_result t (fold_left (λ p tr, plus p (tr_result tr)) rest (tr_result first)))
  end.

(** ** The proxy's steps on a lawful packet *)

(** What a read of value [x] under mask [m] adds to what entry [e] knows. *)
Definition unexp (x : N) (m : mask) (e : field) : field :=
  fwiden (loadv x m) (mnot (mask_of (fwiden e m))).

Lemma unexplored_of_ok read explored :
  rfield_wf read → rfield_wf explored → f_type read = f_type explored →
  unexplored_of read explored = Ok (fwiden read (mnot (mask_of explored))).
Proof.
  intros [Hr Hw] [He Hwe] E. unfold unexplored_of.
  assert (Hm : mask_wf (mask_of explored)) by apply Hwe.
  rewrite mask_not_ok by done. cbn [mbind res_bind].
  destruct (field_and_mask_ok read (mnot (mask_of explored))) as [-> _]; [done | | done | done].
  by apply msk_ok_not.
Qed.

Lemma unexp_wf x m e : rmask_wf m → rfield_wf e → f_type e = m_type m → rfield_wf (unexp x m e).
Proof.
  intros Hm He E. apply fwiden_wf; [by apply loadv_wf | | done].
  apply mnot_wf, mask_of_wf, fwiden_wf; done.
Qed.

(** The bits of a mask, a value and an entry of one type, one by one. *)
Ltac bitwise i :=
  apply N.bits_inj; intros i;
  repeat match goal with
  | H : _ ⊑b _ |- _ => unfold bits_sub in H
  end;
  repeat match goal with
  | H : @eq N _ _ |- _ =>
      apply (f_equal (λ n, N.testbit n i)) in H; revert H
  end;
  cbv beta;
  repeat (rewrite ?N.land_spec, ?N.lor_spec, ?N.ldiff_spec, ?N.bits_0, ?ones_spec_iff);
  repeat match goal with
  | |- context [N.testbit ?a i] => destruct (N.testbit a i)
  | |- context [N.ltb i ?a] => destruct (N.ltb i a)
  end; cbn; intros; try reflexivity; congruence.

Section Bits.
Context (o fm fv E ev x x0 : N).
Hypothesis Hfm : fm ⊑b o.
Hypothesis Hfv : fv ⊑b fm.
Hypothesis HE : E ⊑b o.
Hypothesis Hev : N.land x E = ev.
Hypothesis Hx0 : N.ldiff x E = N.ldiff x0 E.

(** the mask and value of [unexp] *)
Let um := N.land fm (N.ldiff o (N.land E fm)).
Let uv := N.land (N.land x fm) (N.ldiff o (N.land E fm)).

Lemma bits_unexp_orig : N.land x0 um = uv.
Proof. clear Hfv. unfold um, uv. bitwise i. Qed.

Lemma bits_cache_load : N.land x (N.lor E um) = N.lor (N.ldiff ev um) uv.
Proof. clear Hfv. unfold um, uv. bitwise i. Qed.

Lemma bits_rest_load : N.ldiff x (N.lor E um) = N.ldiff x0 (N.lor E um).
Proof. clear Hfv. unfold um. bitwise i. Qed.

Lemma bits_known_false :
  N.land (N.land ev fm) fm ≠ N.land fv (N.land E fm) → N.land x fm ≠ fv.
Proof. intros H H'. apply H. clear H. bitwise i. Qed.

Lemma bits_known_true :
  N.land (N.land ev fm) fm = N.land fv (N.land E fm) → um = 0%N → N.land x fm = fv.
Proof. unfold um. intros H H'. bitwise i. Qed.

Lemma bits_known_rest :
  N.land (N.land ev fm) fm = N.land fv (N.land E fm) →
  N.land x fm = fv ↔ N.land uv fm = N.land fv um.
Proof. unfold um, uv. intros H. split; intros H'; bitwise i. Qed.

Lemma bits_test_orig : N.land x0 (N.land fm um) = N.land fv um ↔ N.land uv fm = N.land fv um.
Proof. unfold um, uv. split; intros H'; bitwise i. Qed.

Lemma bits_test_known : N.land uv fm = N.land fv um → uv = N.land fv um.
Proof. unfold um, uv. intros H'. bitwise i. Qed.
End Bits.

Section BitsModify.
Context (fm fv E ev x x0 : N).
Hypothesis Hfv : fv ⊑b fm.
Hypothesis Hev : N.land x E = ev.
Hypothesis Hx0 : N.ldiff x E = N.ldiff x0 E.

Lemma bits_cache_modify :
  N.land (N.lor (N.ldiff x fm) fv) (N.lor E fm) = N.lor (N.ldiff ev fm) fv.
Proof. bitwise i. Qed.

Lemma bits_rest_modify :
  N.ldiff (N.lor (N.ldiff x fm) fv) (N.lor E fm) = N.ldiff x0 (N.lor E fm).
Proof. bitwise i. Qed.
End BitsModify.

(** Two packets that agree on what is known. *)
Section BitsTwo.
Context (o fm E ev x y y0 : N).
Hypothesis Hfm : fm ⊑b o.
Hypothesis Hx : N.land x E = ev.
Hypothesis Hy : N.land y E = ev.
Hypothesis Hy0 : N.ldiff y E = N.ldiff y0 E.
Let um := N.land fm (N.ldiff o (N.land E fm)).
Let uv (z : N) := N.land (N.land z fm) (N.ldiff o (N.land E fm)).

Lemma bits_same_read : uv x = uv y → N.land x fm = N.land y fm.
Proof. unfold uv. intros H. bitwise i. Qed.

Lemma bits_same_unexp : um = 0%N → N.land x fm = N.land y fm.
Proof. unfold um. intros H. bitwise i. Qed.
End BitsTwo.

(** ** What the cache knows *)

Section Consistent.
Context {P : Type} `{PacketLaws P}.

(** [cache] holds bits of the current packet [p], and outside them [p] is
    still the original [p0]. *)
Definition cons (p0 p : P) (cache : field_set) : Prop :=
  fs_wf cache ∧
  ∀ t, registered t = true →
    pbound p t = pbound p0 t ∧
    N.land (pview p t) (f_msk (entry cache t)) = f_val (entry cache t) ∧
    N.ldiff (pview p t) (f_msk (entry cache t)) = N.ldiff (pview p0 t) (f_msk (entry cache t)).

Lemma cons_start p : cons p p ∅.
Proof.
  split; [apply fs_wf_empty |]. intros t Ht. unfold entry, find. rewrite lookup_empty. cbn.
  by rewrite N.land_0_r.
Qed.

(** The packet [p] satisfies what a node reports. *)
Definition node_sat (p : P) (n : trace_node) : Prop :=
  match n with
  | TLoad f => satb (pview p (f_type f)) f = true
  | TTest f b => satb (pview p (f_type f)) f = b
  end.

Lemma entry_facts cache t :
  fs_wf cache → registered t = true →
  f_type (entry cache t) = t ∧ rfield_wf (entry cache t) ∧ f_msk (entry cache t) ⊑b N.ones (nbits t).
Proof.
  intros Hc Ht. destruct (entry_wf cache t Hc Ht) as [E Hw]. split_and!; [done | done |].
  destruct Hw as [_ [[Hm _] _]]. by rewrite E in Hm.
Qed.

Lemma cons_learn p0 p cache m :
  cons p0 p cache → rmask_wf m →
  let u := unexp (pview p (m_type m)) m (entry cache (m_type m)) in
  cons p0 p (pmodify cache u) ∧ satb (pview p0 (m_type m)) u = true ∧ rfield_wf u.
Proof.
  intros [Hc Hcons] Hm u. pose proof Hm as [Hr [Hmo _]].
  destruct (entry_facts cache (m_type m) Hc Hr) as (Et & Hw & HE).
  assert (Hu : rfield_wf u) by (by apply unexp_wf).
  destruct (Hcons _ Hr) as (Hb & Hev & Hrest). split_and!; [split; [by apply pmodify_wf |] | | done].
  - intros t Ht. destruct (type_eqb t (m_type m)) eqn:Ett.
    + apply registry_keys_inj in Ett; [| done | done]. subst t. pose proof (entry_pmodify_eq cache u Hu) as Ee.
      change (f_type u) with (m_type m) in Ee. rewrite Ee. split; [done |].
      unfold fpatch. cbn. rewrite Et. split.
      * by eapply bits_cache_load.
      * by eapply bits_rest_load.
    + rewrite entry_pmodify_ne; [by apply Hcons |]. cbn. intros E. apply type_eqb_key in E. congruence.
  - unfold satb. cbn. rewrite Et. apply N.eqb_eq. by eapply bits_unexp_orig.
Qed.

Lemma cons_modify p0 p cache f :
  cons p0 p cache → rfield_wf f → pbound p (f_type f) = true →
  ∃ p', pkt_modify p f = Ok p' ∧ cons p0 p' (pmodify cache f) ∧
    ∀ t, registered t = true →
      pview p' t = if type_eqb t (f_type f) then patchv (pview p t) f else pview p t.
Proof.
  intros [Hc Hcons] Hf Hb. destruct (modify_bound p f Hf Hb) as (p' & Ep & Hbd & Hview).
  exists p'. split; [done |]. split; [| done]. split; [by apply pmodify_wf |].
  intros t Ht. rewrite Hbd, Hview by done. destruct (Hcons t Ht) as (Hbt & Hev & Hrest).
  split; [done |]. destruct (type_eqb t (f_type f)) eqn:Et.
  - apply registry_keys_inj in Et; [| done | apply Hf]. subst t.
    rewrite entry_pmodify_eq by done. cbn. destruct Hf as [_ [_ Hv]].
    split; [by eapply bits_cache_modify | by eapply bits_rest_modify].
  - rewrite entry_pmodify_ne; [done |]. intros E. apply type_eqb_key in E. congruence.
Qed.
End Consistent.

(** ** The proxy's operations, computed *)

Section Steps.
Context {P T : Type} `{PacketLaws P} `{TracerOps T}.

Lemma tp_load_eq (p : P) (tr : T) cache m :
  fs_wf cache → rmask_wf m →
  tp_load (Traceable p tr cache) m =
  if pbound p (m_type m) then
    let u := unexp (pview p (m_type m)) m (entry cache (m_type m)) in
    if f_wildcard u then Ok (loadv (pview p (m_type m)) m, Traceable p tr cache)
    else t ← tracer_load tr u;
         Ok (loadv (pview p (m_type m)) m, Traceable p t (pmodify cache u))
  else Throw OutOfRange.
Proof.
  intros Hc Hm. unfold tp_load. cbn [tp_pkt tp_cache tp_tracer]. rewrite load_law by done.
  destruct (pbound p (m_type m)); [| done]. cbn [mbind res_bind].
  rewrite load_ok by done. cbn [mbind res_bind].
  destruct (entry_facts cache (m_type m) Hc (proj1 Hm)) as (Et & Hw & HE).
  rewrite unexplored_of_ok; [| by apply loadv_wf | by apply pload_wf | symmetry; exact Et].
  cbn [mbind res_bind]. fold (unexp (pview p (m_type m)) m (entry cache (m_type m))).
  destruct (f_wildcard _); [done |].
  destruct (tracer_load tr _); [| done]. cbn [mbind res_bind].
  rewrite modify_ok; [done | done |]. by apply unexp_wf.
Qed.

Lemma tp_test_eq (p : P) (tr : T) cache f :
  fs_wf cache → rfield_wf f →
  tp_test (Traceable p tr cache) f =
  if pbound p (f_type f) then
    let e := entry cache (f_type f) in
    let u := unexp (pview p (f_type f)) (mask_of f) e in
    if negb (fmatch (fwiden e (mask_of f)) f) then Ok (false, Traceable p tr cache)
    else if f_wildcard u then Ok (true, Traceable p tr cache)
    else t ← tracer_test tr (fwiden f (mask_of u)) (fmatch u f);
         Ok (fmatch u f, Traceable p t (if fmatch u f then pmodify cache u else cache))
  else Throw OutOfRange.
Proof.
  intros Hc Hf. assert (Hm : rmask_wf (mask_of f)) by by apply mask_of_wf.
  unfold tp_test. cbn [tp_pkt tp_cache tp_tracer]. rewrite load_law by done. cbn [mask_of m_type].
  destruct (pbound p (f_type f)); [| done]. cbn [mbind res_bind].
  rewrite load_ok by done. cbn [mbind res_bind].
  destruct (entry_facts cache (f_type f) Hc (proj1 Hf)) as (Et & Hw & HE).
  rewrite unexplored_of_ok; [| by apply loadv_wf | by apply pload_wf | symmetry; exact Et].
  cbn [mbind res_bind].
  change (fwiden (loadv (pview p (f_type f)) (mask_of f)) (mnot (mask_of (pload cache (mask_of f)))))
    with (unexp (pview p (f_type f)) (mask_of f) (entry cache (f_type f))).
  rewrite (field_match_ok' (pload cache (mask_of f)) f); [| by apply pload_wf | done | done]. cbn [mbind res_bind].
  change (pload cache (mask_of f)) with (fwiden (entry cache (f_type f)) (mask_of f)).
  destruct (negb _); [done |]. cbv zeta. destruct (f_wildcard _); [done |].
  assert (Hu : rfield_wf (unexp (pview p (f_type f)) (mask_of f) (entry cache (f_type f))))
    by (by apply unexp_wf).
  rewrite field_match_ok' by done. cbn [mbind res_bind].
  destruct (field_and_mask_ok f (mask_of (unexp (pview p (f_type f)) (mask_of f) (entry cache (f_type f)))))
    as [-> _]; [apply Hf | apply Hu | done |]. cbn [mbind res_bind].
  destruct (tracer_test tr _ _); [cbn [mbind res_bind] | done].
  destruct (fmatch _ f); [| done]. by rewrite modify_ok.
Qed.

Lemma tp_modify_eq (p : P) (tr : T) cache f :
  fs_wf cache → rfield_wf f →
  tp_modify (Traceable p tr cache) f =
  q ← pkt_modify p f; Ok (Traceable q tr (pmodify cache f)).
Proof.
  intros Hc Hf. unfold tp_modify. cbn [tp_pkt tp_cache tp_tracer].
  destruct (pkt_modify p f); [| done]. cbn [mbind res_bind]. by rewrite modify_ok.
Qed.

(** A test through the proxy has the packet's answer. *)
Lemma tp_test_answer (p0 p : P) cache f :
  cons p0 p cache → rfield_wf f →
  let e := entry cache (f_type f) in
  let u := unexp (pview p (f_type f)) (mask_of f) e in
  satb (pview p (f_type f)) f =
    (if negb (fmatch (fwiden e (mask_of f)) f) then false
     else if f_wildcard u then true else fmatch u f).
Proof.
  intros [Hc Hcons] Hf e u. pose proof Hf as [Hr [[Hfm _] Hfv]].
  destruct (entry_facts cache (f_type f) Hc Hr) as (Et & Hw & HE).
  destruct (Hcons _ Hr) as (_ & Hev & Hrest). subst e u.
  unfold fmatch, satb, f_wildcard, wildcard, none, unexp. cbn. rewrite Et.
  set (E := f_msk (entry cache (f_type f))) in *. set (ev := f_val (entry cache (f_type f))) in *.
  set (x := pview p (f_type f)) in *.
  destruct (N.eqb_spec (N.land (N.land ev (f_msk f)) (f_msk f)) (N.land (f_val f) (N.land E (f_msk f)))) as [Hk | Hk]; cbn.
  - destruct (N.eqb_spec (N.land (f_msk f) (N.ldiff (N.ones (nbits (f_type f))) (N.land E (f_msk f)))) 0) as [Hz | Hz].
    + apply N.eqb_eq. by eapply bits_known_true.
    + apply eq_true_iff_eq. rewrite !N.eqb_eq. by eapply bits_known_rest.
  - apply N.eqb_neq. by eapply bits_known_false.
Qed.
End Steps.

(** ** Runs through the proxy *)

Section Runs.
Context {P : Type} `{PacketLaws P}.

(** A state of [Tracer::trace]: the packet, the nodes so far, the cache, the
    modifications. *)
Definition st (p : P) (tr : list trace_node) (cache mods : field_set)
  : mod_tracking (traceable P trace) :=
  ModTracking (Traceable p (Trace Stop tr) cache) mods.

Lemma run_load m k p tr cache mods :
  fs_wf cache → rmask_wf m →
  run (HLoad m k) (st p tr cache mods) =
  if pbound p (m_type m) then
    let x := pview p (m_type m) in
    let u := unexp x m (entry cache (m_type m)) in
    if f_wildcard u then run (k (loadv x m)) (st p tr cache mods)
    else run (k (loadv x m)) (st p (tr ++ [TLoad u]) (pmodify cache u) mods)
  else Throw OutOfRange.
Proof.
  intros Hc Hm. cbn [run]. unfold st, pkt_load, mod_tracking_ops, mt_load. cbn [mt_pkt mt_mods].
  unfold pkt_load, traceable_ops. rewrite tp_load_eq by done.
  destruct (pbound p (m_type m)); [cbv zeta | done]. by destruct (f_wildcard _).
Qed.

Lemma run_test f k p tr cache mods :
  fs_wf cache → rfield_wf f →
  run (HTest f k) (st p tr cache mods) =
  if pbound p (f_type f) then
    let e := entry cache (f_type f) in
    let u := unexp (pview p (f_type f)) (mask_of f) e in
    if negb (fmatch (fwiden e (mask_of f)) f) then run (k false) (st p tr cache mods)
    else if f_wildcard u then run (k true) (st p tr cache mods)
    else run (k (fmatch u f))
           (st p (tr ++ [TTest (fwiden f (mask_of u)) (fmatch u f)])
               (if fmatch u f then pmodify cache u else cache) mods)
  else Throw OutOfRange.
Proof.
  intros Hc Hf. cbn [run]. unfold st, pkt_test, mod_tracking_ops, mt_test. cbn [mt_pkt mt_mods].
  unfold pkt_test, traceable_ops. rewrite tp_test_eq by done.
  destruct (pbound p (f_type f)); [cbv zeta | done].
  destruct (negb _); [done |]. by destruct (f_wildcard _).
Qed.

Lemma run_modify f k p tr cache mods :
  fs_wf cache → fs_wf mods → rfield_wf f →
  run (HModify f k) (st p tr cache mods) =
  q ← pkt_modify p f; run k (st q tr (pmodify cache f) (pmodify mods f)).
Proof.
  intros Hc Hm Hf. cbn [run].
  change (pkt_modify (st p tr cache mods) f) with
    (q ← tp_modify (Traceable p (Trace Stop tr) cache) f; m ← modify mods f; Ok (ModTracking q m)).
  rewrite tp_modify_eq by done.
  destruct (pkt_modify p f); [| done]. cbn [mbind res_bind]. by rewrite modify_ok.
Qed.

(** [mods] turns the original packet into the current one. *)
Definition modded (p0 p : P) (mods : field_set) : Prop :=
  fs_wf mods ∧ ∀ t, registered t = true → pview p t = patchv (pview p0 t) (entry mods t).

Lemma modded_start p : modded p p ∅.
Proof.
  split; [apply fs_wf_empty |]. intros t Ht. unfold entry, find. rewrite lookup_empty. cbn.
  unfold patchv. cbn. by rewrite N.ldiff_0_r, N.lor_0_r.
Qed.

Lemma modded_modify p0 p p' mods f :
  modded p0 p mods → rfield_wf f →
  (∀ t, registered t = true →
     pview p' t = if type_eqb t (f_type f) then patchv (pview p t) f else pview p t) →
  modded p0 p' (pmodify mods f).
Proof.
  intros [Hm Hv] Hf Hp. split; [by apply pmodify_wf |]. intros t Ht. rewrite Hp, Hv by done.
  destruct (type_eqb t (f_type f)) eqn:Et.
  - apply registry_keys_inj in Et; [| done | apply Hf]. subst t.
    rewrite entry_pmodify_eq by done. apply patchv_fpatch; [| apply Hf].
    by apply (entry_wf mods (f_type f)).
  - rewrite entry_pmodify_ne; [done |]. intros E. apply type_eqb_key in E. congruence.
Qed.

(** What a traced run gives: the plain run's policy and packet, and new nodes
    that the original packet satisfies. *)
Definition traced_run (p0 p : P) (tr : list trace_node) (h : handler)
    (r : res (policy * mod_tracking (traceable P trace))) : Prop :=
  match r with
  | Ok (pol, s) => ∃ p' new cache' mods', s = st p' (tr ++ new) cache' mods' ∧
      cons p0 p' cache' ∧ modded p0 p' mods' ∧ Forall (node_sat p0) new ∧
      run h p = Ok (pol, p') ∧ policy_wf pol
  | Throw e => run h p = Throw e
  end.

Lemma traced_run_step p0 p p1 tr h h1 n r :
  run h p = run h1 p1 → Forall (node_sat p0) n → traced_run p0 p1 (tr ++ n) h1 r →
  traced_run p0 p tr h r.
Proof.
  intros E Hn. unfold traced_run. rewrite E. destruct r as [[pol s]|]; [| done].
  intros (p' & new & c & m & -> & H1 & H2 & H3 & H4 & H5).
  exists p', (n ++ new), c, m. split_and!; try done; [by rewrite (assoc_L (++)) |]. by apply Forall_app.
Qed.

Lemma traced_run_step0 p0 p p1 tr h h1 r :
  run h p = run h1 p1 → traced_run p0 p1 tr h1 r → traced_run p0 p tr h r.
Proof.
  intros E Hr. eapply (traced_run_step _ _ _ _ _ _ []); [exact E | by apply Forall_nil |].
  by rewrite app_nil_r.
Qed.

(** The node a test reports holds of the original packet. *)
Lemma test_node_sat p0 p cache f :
  cons p0 p cache → rfield_wf f →
  let u := unexp (pview p (f_type f)) (mask_of f) (entry cache (f_type f)) in
  node_sat p0 (TTest (fwiden f (mask_of u)) (fmatch u f)).
Proof.
  intros [Hcw Hcons] Hf u. destruct (Hcons _ (proj1 Hf)) as (_ & Hev & Hrest).
  destruct (entry_facts cache (f_type f) Hcw (proj1 Hf)) as (Et & _ & HE).
  apply eq_true_iff_eq. unfold satb, fmatch. cbn. rewrite Et, !N.eqb_eq.
  destruct Hf as [_ [[Hfm _] Hfv]]. by eapply bits_test_orig.
Qed.

Lemma run_traced h p0 p tr cache mods :
  handler_wf h → cons p0 p cache → modded p0 p mods →
  traced_run p0 p tr h (run h (st p tr cache mods)).
Proof.
  revert p tr cache mods. induction h as [pol | m k IH | f k IH | f k IH];
    intros p tr cache mods Hh Hc Hm; pose proof (proj1 Hc) as Hcw.
  - exists p, [], cache, mods. rewrite app_nil_r. split_and!; try done.
  - destruct Hh as [Hmw Hk]. rewrite run_load by done.
    destruct (cons_learn p0 p cache m Hc Hmw) as (Hc' & Hsat & Hu).
    assert (Er : run (HLoad m k) p = if pbound p (m_type m)
      then run (k (loadv (pview p (m_type m)) m)) p else Throw OutOfRange).
    { cbn [run]. rewrite load_law by done. by destruct (pbound p _). }
    assert (Hkw : handler_wf (k (loadv (pview p (m_type m)) m))).
    { apply Hk; [by apply loadv_wf | by destruct m]. }
    destruct (pbound p (m_type m)); [cbv zeta | done]. destruct (f_wildcard _).
    + eapply traced_run_step0; [exact Er |]. by apply IH.
    + eapply traced_run_step; [exact Er | | by apply IH].
      constructor; [exact Hsat | by apply Forall_nil].
  - destruct Hh as [Hf Hk]. rewrite run_test by done.
    assert (Hmw := mask_of_wf _ Hf).
    destruct (cons_learn p0 p cache (mask_of f) Hc Hmw) as (Hc' & Hsat & Hu).
    pose proof (tp_test_answer p0 p cache f Hc Hf) as Hans. cbv zeta in Hans.
    assert (Er : run (HTest f k) p = if pbound p (f_type f)
      then run (k (satb (pview p (f_type f)) f)) p else Throw OutOfRange).
    { cbn [run]. rewrite test_law by done. by destruct (pbound p _). }
    destruct (pbound p (f_type f)); [cbv zeta | done]. cbn [mask_of m_type] in *.
    set (u := unexp (pview p (f_type f)) (mask_of f) (entry cache (f_type f))) in *.
    destruct (negb _); [| destruct (f_wildcard u)]; rewrite Hans in Er.
    + eapply traced_run_step0; [exact Er |]. by apply IH.
    + eapply traced_run_step0; [exact Er |]. by apply IH.
    + eapply traced_run_step with (n := [TTest (fwiden f (mask_of u)) (fmatch u f)]); [exact Er | |].
      * constructor; [by apply test_node_sat | by apply Forall_nil].
      * apply IH; [by apply Hk | by destruct (fmatch u f) | done].
  - destruct Hh as [Hf Hk]. pose proof (proj1 Hm) as Hmw. rewrite run_modify by done.
    destruct (pbound p (f_type f)) eqn:Hb.
    + destruct (cons_modify p0 p cache f Hc Hf Hb) as (p' & Ep & Hc' & Hv). rewrite Ep. cbn [mbind res_bind].
      eapply (traced_run_step0 _ _ p'); [cbn [run]; by rewrite Ep |].
      apply IH; [done | done |]. by eapply modded_modify.
    + pose proof (modify_unbound p f Hf Hb) as E.
      rewrite E. cbn [mbind res_bind traced_run run]. by rewrite E.
Qed.
End Runs.

(** ** Two runs of one function *)

(** The same question, whatever the answer. *)
Definition same_question (a b : trace_node) : Prop :=
  match a, b with
  | TLoad f, TLoad g => mask_of f = mask_of g
  | TTest f _, TTest g _ => f = g
  | _, _ => False
  end.

(** Two traces agree up to a first question answered differently. *)
Inductive compat : list trace_node → list trace_node → Prop :=
| compat_nil : compat [] []
| compat_cons n l1 l2 : compat l1 l2 → compat (n :: l1) (n :: l2)
| compat_diff n1 n2 l1 l2 : same_question n1 n2 → n1 ≠ n2 → compat (n1 :: l1) (n2 :: l2).

Section Pairs.
Context {P : Type} `{PacketLaws P}.

Lemma same_question_sat p n n' : same_question n n' → node_sat p n → node_sat p n' → n = n'.
Proof.
  destruct n as [f | f b], n' as [g | g b']; cbn; try done.
  - intros E Hf Hg. destruct f as [t v k], g as [t' v' k']. unfold mask_of in E. cbn in *.
    injection E as -> ->. apply N.eqb_eq in Hf, Hg. cbn in *. congruence.
  - intros -> <- <-. done.
Qed.

(** How two runs from the same trace, cache and modifications relate. *)
Definition paired (p0 q0 : P) (tr : list trace_node)
    (rp rq : res (policy * mod_tracking (traceable P trace))) : Prop :=
  match rp, rq with
  | Ok (pol, s), Ok (pol', s') =>
      ∃ p' q' new new' cache cache' mods mods',
        s = st p' (tr ++ new) cache mods ∧ s' = st q' (tr ++ new') cache' mods' ∧ compat new new' ∧
        (new = new' → pol = pol' ∧ cache = cache' ∧ mods = mods')
  | Ok (pol, s), Throw _ =>
      ∃ p' new cache mods, s = st p' (tr ++ new) cache mods ∧ ¬ Forall (node_sat q0) new
  | Throw _, Ok (pol, s) =>
      ∃ q' new cache mods, s = st q' (tr ++ new) cache mods ∧ ¬ Forall (node_sat p0) new
  | _, _ => True
  end.

Lemma paired_step p0 q0 tr n rp rq :
  paired p0 q0 (tr ++ [n]) rp rq → paired p0 q0 tr rp rq.
Proof.
  unfold paired. destruct rp as [[pol s]|], rq as [[pol' s']|]; try done.
  - intros (p' & q' & new & new' & c & c' & m & m' & -> & -> & Hc & He).
    exists p', q', (n :: new), (n :: new'), c, c', m, m'. rewrite <- !(assoc_L (++)). split_and!; try done.
    + by constructor.
    + intros E. apply He. by simplify_eq.
  - intros (p' & new & c & m & -> & Hn). exists p', (n :: new), c, m. rewrite <- (assoc_L (++)).
    split; [done |]. intros E. apply Hn. by inversion E.
  - intros (p' & new & c & m & -> & Hn). exists p', (n :: new), c, m. rewrite <- (assoc_L (++)).
    split; [done |]. intros E. apply Hn. by inversion E.
Qed.

Lemma paired_diff h h' p0 q0 p q tr n n' cache cache' mods :
  handler_wf h → handler_wf h' → cons p0 p cache → cons q0 q cache' →
  modded p0 p mods → modded q0 q mods → same_question n n' → n ≠ n' →
  node_sat p0 n → node_sat q0 n' →
  paired p0 q0 tr (run h (st p (tr ++ [n]) cache mods)) (run h' (st q (tr ++ [n']) cache' mods)).
Proof.
  intros Hh Hh' Hc Hc' Hm Hm' Hq Hne Hn Hn'.
  pose proof (run_traced h p0 p (tr ++ [n]) cache mods Hh Hc Hm) as H1.
  pose proof (run_traced h' q0 q (tr ++ [n']) cache' mods Hh' Hc' Hm') as H2.
  unfold paired. destruct (run h _) as [[pol s]|], (run h' _) as [[pol' s']|]; try done.
  - destruct H1 as (p' & new & c & m & -> & _). destruct H2 as (q' & new' & c' & m' & -> & _).
    exists p', q', (n :: new), (n' :: new'), c, c', m, m'. rewrite <- !(assoc_L (++)).
    split_and!; try done; [by constructor | intros E; by simplify_eq].
  - destruct H1 as (p' & new & c & m & -> & _). exists p', (n :: new), c, m. rewrite <- (assoc_L (++)).
    split; [done |]. intros E. apply Hne. inversion E. by eapply same_question_sat.
  - destruct H2 as (p' & new & c & m & -> & _). exists p', (n' :: new), c, m. rewrite <- (assoc_L (++)).
    split; [done |]. intros E. apply Hne. inversion E. by eapply same_question_sat.
Qed.

Lemma run_paired h p0 q0 p q tr cache mods :
  handler_wf h → cons p0 p cache → cons q0 q cache → modded p0 p mods → modded q0 q mods →
  (∀ t, registered t = true → pbound p0 t = pbound q0 t) →
  paired p0 q0 tr (run h (st p tr cache mods)) (run h (st q tr cache mods)).
Proof.
  intros Hh Hcp Hcq Hmp Hmq Hb. revert p q tr cache mods Hh Hcp Hcq Hmp Hmq.
  induction h as [pol | m k IH | f k IH | f k IH]; intros p q tr cache mods Hh Hcp Hcq Hmp Hmq;
    pose proof (proj1 Hcp) as Hcw; pose proof (proj1 Hmp) as Hmw.
  - exists p, q, [], [], cache, cache, mods, mods. rewrite app_nil_r. split_and!; try done. constructor.
  - destruct Hh as [Hm Hk]. rewrite !run_load by done. pose proof Hm as [Hr [Hmo _]].
    destruct (cons_learn p0 p cache m Hcp Hm) as (Hcp' & Sp & _).
    destruct (cons_learn q0 q cache m Hcq Hm) as (Hcq' & Sq & _).
    destruct (proj2 Hcp _ Hr) as (Bp & Vp & _). destruct (proj2 Hcq _ Hr) as (Bq & Vq & Rq).
    rewrite Bp, Bq, Hb by done. destruct (pbound q0 (m_type m)); [cbv zeta | done].
    set (up := unexp (pview p (m_type m)) m (entry cache (m_type m))) in *.
    set (uq := unexp (pview q (m_type m)) m (entry cache (m_type m))) in *.
    assert (Hkw : ∀ x, handler_wf (k (loadv x m))).
    { intros x. apply Hk; [by apply loadv_wf | by destruct m]. }
    destruct (entry_facts cache (m_type m) Hcw Hr) as (Et & _ & HE).
    assert (Ew : f_wildcard up = f_wildcard uq) by done. rewrite Ew.
    destruct (f_wildcard uq) eqn:Hw.
    + assert (El : loadv (pview p (m_type m)) m = loadv (pview q (m_type m)) m).
      { unfold loadv. f_equal. eapply bits_same_unexp; [exact Hmo | exact Vp | exact Vq | exact Rq |].
        apply N.eqb_eq in Hw. unfold uq, unexp in Hw. cbn in Hw. by rewrite Et in Hw. }
      rewrite El. apply IH; auto.
    + destruct (decide (up = uq)) as [Eu | Hne].
      * assert (El : loadv (pview p (m_type m)) m = loadv (pview q (m_type m)) m).
        { unfold loadv. f_equal. eapply bits_same_read; [exact Hmo | exact Vp | exact Vq | exact Rq |].
          apply (f_equal f_val) in Eu. unfold up, uq, unexp in Eu. cbn in Eu. by rewrite Et in Eu. }
        rewrite El, Eu. eapply paired_step. rewrite Eu in Hcp'. apply IH; auto.
      * apply (paired_diff _ _ p0 q0); try done. intros E. apply Hne.
        exact (f_equal (λ n, match n with TLoad f => f | TTest f _ => f end) E).
  - destruct Hh as [Hf Hk]. rewrite !run_test by done. pose proof Hf as [Hr [[Hfo _] Hfv]].
    assert (Hm := mask_of_wf _ Hf).
    destruct (cons_learn p0 p cache (mask_of f) Hcp Hm) as (Hcp' & Sp & _).
    destruct (cons_learn q0 q cache (mask_of f) Hcq Hm) as (Hcq' & Sq & _).
    destruct (proj2 Hcp _ Hr) as (Bp & Vp & _). destruct (proj2 Hcq _ Hr) as (Bq & Vq & Rq).
    rewrite Bp, Bq, Hb by done. destruct (pbound q0 (f_type f)); [cbv zeta | done].
    cbn [mask_of m_type] in *.
    set (up := unexp (pview p (f_type f)) (mask_of f) (entry cache (f_type f))) in *.
    set (uq := unexp (pview q (f_type f)) (mask_of f) (entry cache (f_type f))) in *.
    destruct (entry_facts cache (f_type f) Hcw Hr) as (Et & _ & HE).
    assert (Ew : f_wildcard up = f_wildcard uq) by done. rewrite Ew.
    assert (Em : mask_of up = mask_of uq) by done. rewrite Em.
    destruct (negb _); [apply IH; auto |]. destruct (f_wildcard uq); [apply IH; auto |].
    destruct (fmatch up f) eqn:Fp, (fmatch uq f) eqn:Fq.
    + assert (Eu : up = uq).
      { apply N.eqb_eq in Fp, Fq. cbn in Fp, Fq. rewrite Et in Fp, Fq.
        unfold up, uq, unexp, fwiden. cbn. rewrite Et. f_equal.
        transitivity (N.land (f_val f) (N.land (f_msk f) (N.ldiff (N.ones (nbits (f_type f)))
                        (N.land (f_msk (entry cache (f_type f))) (f_msk f))))).
        - eapply bits_test_known; first [exact Fp | done].
        - symmetry. eapply bits_test_known; first [exact Fq | done]. }
      rewrite Eu in *. eapply paired_step. apply IH; auto.
    + apply (paired_diff _ _ p0 q0); try done.
      * rewrite <- Fp, <- Em. by apply test_node_sat.
      * rewrite <- Fq. by apply test_node_sat.
    + apply (paired_diff _ _ p0 q0); try done.
      * rewrite <- Fp, <- Em. by apply test_node_sat.
      * rewrite <- Fq. by apply test_node_sat.
    + eapply paired_step. apply IH; auto.
  - destruct Hh as [Hf Hk]. rewrite !run_modify by done.
    destruct (proj2 Hcp _ (proj1 Hf)) as (Bp & _). destruct (proj2 Hcq _ (proj1 Hf)) as (Bq & _).
    destruct (pbound p (f_type f)) eqn:Ebp.
    + assert (Ebq : pbound q (f_type f) = true) by (rewrite Bq, <- Hb by apply Hf; by rewrite <- Bp).
      destruct (cons_modify p0 p cache f Hcp Hf Ebp) as (p' & -> & Hcp' & Hvp).
      destruct (cons_modify q0 q cache f Hcq Hf Ebq) as (q' & -> & Hcq' & Hvq).
      cbn [mbind res_bind]. apply IH; auto; by eapply modded_modify.
    + assert (Ebq : pbound q (f_type f) = false) by (rewrite Bq, <- Hb by apply Hf; by rewrite <- Bp).
      by rewrite (modify_unbound p f Hf Ebp), (modify_unbound q f Hf Ebq).
Qed.
End Pairs.

(** ** What a trace means *)

Section TraceMeaning.
Context {P : Type} `{PacketLaws P}.

Lemma run_tracer_spec h p t :
  handler_wf h → run_tracer h p = Ok t →
  ∃ pol p' cache mods, run h (st p [] ∅ ∅) = Ok (pol, st p' (tr_values t) cache mods) ∧
    t = Trace (prepend_mods (elements mods) pol) (tr_values t) ∧
    modded p p' mods ∧ Forall (node_sat p) (tr_values t) ∧ run h p = Ok (pol, p') ∧ policy_wf pol.
Proof.
  intros Hh E. unfold run_tracer in E. change (traced_start p) with (st p [] ∅ ∅) in E.
  pose proof (run_traced h p p [] ∅ ∅ Hh (cons_start p) (modded_start p)) as Hr.
  destruct (run h (st p [] ∅ ∅)) as [[pol s]|]; [cbn in E | done].
  destruct Hr as (p' & new & c & m & -> & Hc & Hm & Hs & Er & Hw). cbn in E. injection E as <-.
  exists pol, p', c, m. split_and!; done.
Qed.

Lemma run_tracer_pair h p q t :
  handler_wf h → (∀ ty, registered ty = true → pbound p ty = pbound q ty) →
  run_tracer h p = Ok t →
  match run_tracer h q with
  | Ok t' => compat (tr_values t) (tr_values t') ∧ (tr_values t = tr_values t' → t = t')
  | Throw _ => ¬ Forall (node_sat q) (tr_values t)
  end.
Proof.
  intros Hh Hb E. destruct (run_tracer_spec h p t Hh E) as (pol & p' & c & m & Er & Et & _).
  pose proof (run_paired h p q p q [] ∅ ∅ Hh (cons_start p) (cons_start q) (modded_start p)
    (modded_start q) Hb) as Hp. rewrite Er in Hp.
  unfold run_tracer. change (traced_start q) with (st q [] ∅ ∅).
  destruct (run h (st q [] ∅ ∅)) as [[pol' s']|]; cbn [mbind res_bind].
  - destruct Hp as (p1 & q1 & new & new' & c1 & c1' & m1 & m1' & E1 & -> & Hc & He).
    injection E1 as <- Ev <- <-. cbn in Ev. rewrite Ev. cbn. split; [done |]. intros ->.
    destruct (He eq_refl) as (<- & _ & <-). rewrite Et, Ev. done.
  - destruct Hp as (p1 & new & c1 & m1 & E1 & Hn). injection E1 as <- Ev <- <-.
    cbn in Ev. by rewrite Ev.
Qed.

Lemma compat_sat q l1 l2 : compat l1 l2 → Forall (node_sat q) l1 → Forall (node_sat q) l2 → l1 = l2.
Proof.
  induction 1 as [| n l1 l2 _ IH | n1 n2 l1 l2 Hq Hne]; intros H1 H2; [done | |].
  - inversion H1; inversion H2; subst. by f_equal; apply IH.
  - inversion H1; inversion H2; subst. exfalso. apply Hne. by eapply same_question_sat.
Qed.
End TraceMeaning.

(** ** On packets that are finite maps *)

Lemma vapply_pmodify mods f v :
  fs_wf mods → rfield_wf f → full v →
  vapply (pmodify mods f) v =
  <[tkey (f_type f) := patchv (vview (vapply mods v) (f_type f)) f]> (vapply mods v).
Proof.
  intros Hm Hf Hv. rewrite pmodify_entry by done. apply map_eq. intros k.
  rewrite lookup_vapply. destruct (Hv (f_type f)) as [x Hx]; [apply Hf |].
  assert (Hw : f_val (entry mods (f_type f)) ⊑b f_msk (entry mods (f_type f))).
  { by apply (entry_wf mods (f_type f) Hm (proj1 Hf)). }
  destruct (decide (k = tkey (f_type f))) as [-> | Hne].
  - rewrite !lookup_insert_eq, Hx. cbn. f_equal. unfold vview. rewrite lookup_vapply, Hx.
    unfold entry, find in *. destruct (mods !! tkey (f_type f)) as [g|]; cbn in *.
    + symmetry. apply patchv_fpatch; [done | apply Hf].
    + rewrite fpatch_wild; [done | apply Hf | done].
  - rewrite !lookup_insert_ne by done. by rewrite lookup_vapply.
Qed.

Lemma run_vpacket h v0 tr cache mods :
  handler_wf h → full v0 → fs_wf cache → fs_wf mods →
  ∃ pol tr' cache' mods', run h (st (vapply mods v0) tr cache mods)
    = Ok (pol, st (vapply mods' v0) tr' cache' mods') ∧ fs_wf mods'.
Proof.
  intros Hh Hv. revert tr cache mods Hh. induction h as [pol | m k IH | f k IH | f k IH];
    intros tr cache mods Hh Hc Hm.
  - by exists pol, tr, cache, mods.
  - destruct Hh as [Hmw Hk]. rewrite run_load by done.
    assert (Hb : pbound (vapply mods v0) (m_type m) = true).
    { apply bool_decide_eq_true. apply (full_vapply mods v0 Hv), Hmw. }
    rewrite Hb. cbv zeta.
    assert (Hkw : ∀ x, handler_wf (k (loadv x m))).
    { intros x. apply Hk; [by apply loadv_wf | by destruct m]. }
    destruct (f_wildcard _); apply IH; auto. apply pmodify_wf; [done |].
    apply unexp_wf; [done | |]; by apply (entry_wf cache (m_type m)); [| apply Hmw].
  - destruct Hh as [Hf Hk]. rewrite run_test by done.
    assert (Hb : pbound (vapply mods v0) (f_type f) = true).
    { cbn. unfold vbound. apply bool_decide_eq_true. apply (full_vapply mods v0 Hv), Hf. }
    rewrite Hb. cbv zeta. destruct (negb _); [by apply IH |].
    destruct (f_wildcard _); [by apply IH |]. apply IH; [by apply Hk | | done].
    destruct (fmatch _ f); [| done]. apply pmodify_wf; [done |].
    apply unexp_wf; [by apply mask_of_wf | |]; by apply (entry_wf cache (f_type f)); [| apply Hf].
  - destruct Hh as [Hf Hk]. rewrite run_modify by done.
    rewrite vmodify_full by auto with runos. cbn [mbind res_bind].
    rewrite <- vapply_pmodify by done. apply IH; [done | |]; by apply pmodify_wf.
Qed.

(** ** Prepending the modifications *)

Lemma eval_prepend_list kl pol v :
  keyed kl → full v →
  eval (prepend_mods kl.*2 pol) v ≈ₚ eval pol (vapply (list_to_map kl) v).
Proof.
  revert pol. induction kl as [|[k f] kl IH]; intros pol Hk Hv; cbn [prepend_mods fmap list_fmap fold_left list_to_map].
  - by rewrite vapply_empty.
  - destruct (keyed_cons _ _ _ Hk) as (-> & Hf & Hk' & Hn). unfold prepend_mods in IH.
    cbn [snd]. rewrite IH by done. cbn [eval].
    rewrite vmodify_full by auto with runos. cbn [mbind res_bind]. rewrite res_each_ret.
    replace (<[tkey (f_type f) := patchv (vview (vapply (list_to_map kl) v) (f_type f)) f]>
               (vapply (list_to_map kl) v))
      with (vapply (<[(tkey (f_type f), f).1 := (tkey (f_type f), f).2]> (list_to_map kl)) v); [done |].
    cbn [fst snd]. apply map_eq. intros k. rewrite !lookup_vapply.
    destruct (Hv (f_type f)) as [x Hx]; [apply Hf |].
    destruct (decide (k = tkey (f_type f))) as [-> | Hne].
    + rewrite !lookup_insert_eq, Hx. cbn. unfold vview. by rewrite lookup_vapply, Hn, Hx.
    + rewrite !lookup_insert_ne by done. by rewrite lookup_vapply.
Qed.

Lemma eval_prepend mods pol v :
  fs_wf mods → full v → eval (prepend_mods (elements mods) pol) v ≈ₚ eval pol (vapply mods v).
Proof.
  intros Hm Hv. unfold elements. rewrite eval_prepend_list; [| by apply keyed_map_to_list | done].
  by rewrite list_to_map_to_list.
Qed.

Lemma run_tracer_full h v : handler_wf h → full v → ∃ t, run_tracer h v = Ok t.
Proof.
  intros Hh Hv. destruct (run_vpacket h v [] ∅ ∅ Hh Hv fs_wf_empty fs_wf_empty)
    as (pol & tr & c & m & E & _). rewrite vapply_empty in E.
  unfold run_tracer. change (traced_start v) with (st v [] ∅ ∅). rewrite E. by eexists.
Qed.

Lemma run_tracer_result h v t :
  handler_wf h → full v → run_tracer h v = Ok t → eval (tr_result t) v ≈ₚ heval h v.
Proof.
  intros Hh Hv Et. destruct (run_vpacket h v [] ∅ ∅ Hh Hv fs_wf_empty fs_wf_empty)
    as (pol & tr & c & m & E & Hm). rewrite vapply_empty in E.
  destruct (run_tracer_spec h v t Hh Et) as (pol' & p' & c' & m' & E' & Eq & _ & _ & Er & _).
  rewrite E in E'. injection E' as <- Ep _ _ <-. rewrite Eq. cbn [tr_result].
  rewrite eval_prepend by done. rewrite heval_run, Er, <- Ep. done.
Qed.

(** ** Properties *)

(** C36: a trace is a faithful account of the run.  On every full packet the
    traced run succeeds; the packet satisfies every recorded node; and the
    recorded policy, applied to the original packet, sends on exactly what the
    function itself would. *)
Theorem trace_faithful h v :
  handler_wf h → full v →
  ∃ t, run_tracer h v = Ok t ∧ Forall (node_sat v) (tr_values t) ∧
    eval (tr_result t) v ≈ₚ heval h v.
Proof.
  intros Hh Hv. destruct (run_tracer_full h v Hh Hv) as [t Et]. exists t. split_and!; [done | |].
  - by destruct (run_tracer_spec h v _ Hh Et) as (_ & _ & _ & _ & _ & _ & _ & Hs & _).
  - by apply run_tracer_result.
Qed.

(** A function that looks at one field and answers by another. *)
Definition sample_handler : handler :=
  HLoad (Mask eth_type 0xffff) (λ f,
    if (f_val f =? 0x800)%N
    then HModify (Field eth_dst 7 0xffffffffffff) (HReturn (Modify (Field out_port 1 0xffffffff)))
    else HReturn Stop).

Lemma msk_ok_test t m :
  (m =? N.ones (nbits t))%N = true → msk_ok t m.
Proof. intros ->%N.eqb_eq. apply msk_ok_ones. Qed.

Lemma sample_handler_wf : handler_wf sample_handler.
Proof.
  split; [split; [done | by apply msk_ok_test] |]. intros f _ _.
  cbn. destruct (f_val f =? 0x800)%N; cbn; [| done].
  repeat split; try (by apply msk_ok_test); done.
Qed.

Lemma trace_faithful_witness :
  ∃ t, run_tracer sample_handler zero_packet = Ok t ∧ Forall (node_sat zero_packet) (tr_values t) ∧
    eval (tr_result t) zero_packet ≈ₚ heval sample_handler zero_packet.
Proof. apply (trace_faithful sample_handler); [apply sample_handler_wf | apply full_zero]. Defined.

(** a trace determines the run.  Two lawful packets with the same bound
    types: if the second satisfies every node the first recorded, then its
    traced run records the same trace with the same policy. *)
Theorem trace_replay {P} `{PacketLaws P} h (p q : P) t :
  handler_wf h → (∀ ty, registered ty = true → pbound p ty = pbound q ty) →
  run_tracer h p = Ok t → Forall (node_sat q) (tr_values t) → run_tracer h q = Ok t.
Proof.
  intros Hh Hb E Hs. pose proof (run_tracer_pair h p q t Hh Hb E) as Hp.
  destruct (run_tracer h q) as [t'|] eqn:Eq; [| done]. destruct Hp as [Hc He].
  destruct (run_tracer_spec h q t' Hh Eq) as (_ & _ & _ & _ & _ & _ & _ & Hs' & _).
  by rewrite <- (He (compat_sat q _ _ Hc Hs Hs')).
Qed.

Lemma trace_replay_witness :
  let q := with_values [(in_port, 9%N)] in
  ∃ t, run_tracer sample_handler zero_packet = Ok t ∧ run_tracer sample_handler q = Ok t.
Proof.
  intros q. destruct (run_tracer sample_handler zero_packet) as [t|] eqn:E; [| by vm_compute in E].
  exists t. split; [done |]. apply (trace_replay sample_handler zero_packet q t).
  - apply sample_handler_wf.
  - exact (full_same_bound zero_packet q full_zero (full_with_values _)).
  - exact E.
  - vm_compute in E. injection E as <-. constructor; [by vm_compute | by apply Forall_nil].
Defined.

(** the traces of one function form a decision tree: two of them are equal
    (and carry the same policy) or part at a first node where both ask the
    same question and get different answers. *)
Theorem traces_compatible {P} `{PacketLaws P} h (p q : P) t t' :
  handler_wf h → (∀ ty, registered ty = true → pbound p ty = pbound q ty) →
  run_tracer h p = Ok t → run_tracer h q = Ok t' →
  compat (tr_values t) (tr_values t') ∧ (tr_values t = tr_values t' → t = t').
Proof.
  intros Hh Hb E E'. pose proof (run_tracer_pair h p q t Hh Hb E) as Hp. by rewrite E' in Hp.
Qed.

Lemma traces_compatible_witness :
  let q := with_values [(eth_type, 0x800%N)] in
  ∃ t t', run_tracer sample_handler zero_packet = Ok t ∧ run_tracer sample_handler q = Ok t' ∧
    compat (tr_values t) (tr_values t').
Proof.
  intros q. destruct (run_tracer sample_handler zero_packet) as [t|] eqn:E; [| by vm_compute in E].
  destruct (run_tracer sample_handler q) as [t'|] eqn:E'; [| by vm_compute in E'].
  exists t, t'. split_and!; [done | done |].
  apply (traces_compatible sample_handler zero_packet q t t'); [apply sample_handler_wf | | done | done].
  exact (full_same_bound zero_packet q full_zero (full_with_values _)).
Defined.

(** ** Merging the traces of the functions of one leaf *)

Section Merge.
Context {P : Type} `{PacketLaws P}.

Definition node_field (n : trace_node) : field :=
  match n with TLoad f | TTest f _ => f end.

(** Every field known or asked about is asked about entirely. *)
Definition node_exact (n : trace_node) : Prop :=
  rfield_wf (node_field n) ∧ fexact (node_field n).
Definition set_exact (fs : field_set) : Prop := fs_wf fs ∧ ∀ k f, fs !! k = Some f → fexact f.

Definition set_sat (p : P) (fs : field_set) : Prop :=
  ∀ k f, fs !! k = Some f → satb (pview p (f_type f)) f = true.

Lemma unexplored_known f g :
  rfield_wf f → fexact f → rfield_wf g → fexact g → f_type f = f_type g →
  ∃ u, unexplored_of f (fwiden g (mask_of f)) = Ok u ∧ f_wildcard u = true.
Proof.
  intros Hf Ef Hg Eg E. rewrite unexplored_of_ok; [| done | | done].
  - eexists. split; [done |]. unfold f_wildcard, wildcard, none, fexact in *. cbn.
    rewrite Ef, Eg, E. apply N.eqb_eq. Nbits.
  - apply fwiden_wf; [done | by apply mask_of_wf | done].
Qed.

Lemma unexplored_new f :
  rfield_wf f → unexplored_of f (fwiden (Field (f_type f) 0 0) (mask_of f)) = Ok f.
Proof.
  intros Hf. rewrite unexplored_of_ok; [| done | | done].
  - f_equal. destruct Hf as [_ [[Hm _] Hv]], f as [t v m]. unfold fwiden, mnot, mask_of. cbn in *.
    f_equal; bitwise i.
  - apply fwiden_wf; [| by apply mask_of_wf | done]. apply wildcard_wf, Hf.
Qed.

(** One merge step on exact nodes: a node of a known type is dropped, another
    is kept as it is. *)
Lemma merge_node_exact cache t n :
  set_exact cache → node_exact n →
  merge_node cache t n =
  Ok (match find cache (f_type (node_field n)) with
      | Some _ => (cache, t)
      | None => (match n with
                 | TTest _ false => cache
                 | _ => pmodify cache (node_field n)
                 end, Trace (tr_result t) (tr_values t ++ [n]))
      end).
Proof.
  intros [Hc Ec] [Hf Ef]. assert (Hm := mask_of_wf _ Hf).
  assert (Hl : load cache (mask_of (node_field n))
               = Ok (fwiden (entry cache (f_type (node_field n))) (mask_of (node_field n)))).
  { by rewrite load_ok. }
  assert (Hu : ∃ u, unexplored_of (node_field n) (fwiden (entry cache (f_type (node_field n))) (mask_of (node_field n))) = Ok u ∧
    match find cache (f_type (node_field n)) with
    | Some _ => f_wildcard u = true
    | None => u = node_field n
    end).
  { destruct (find cache (f_type (node_field n))) as [g|] eqn:Eg.
    - destruct (fs_wf_lookup _ _ _ Hc (proj1 Hf) Eg) as [Et Hg].
      unfold entry. rewrite Eg. cbn [default]. apply unexplored_known; try done. by eapply Ec.
    - unfold entry. rewrite Eg. cbn [default]. exists (node_field n). split; [| done]. by apply unexplored_new. }
  destruct Hu as (u & Eu & Hu).
  assert (Hnz : f_wildcard (node_field n) = false).
  { apply N.eqb_neq. cbn. rewrite Ef. apply ones_registered, Hf. }
  destruct n as [f | f b]; cbn [node_field merge_node] in *; rewrite Hl; cbn [mbind res_bind];
    rewrite Eu; cbn [mbind res_bind]; destruct (find cache (f_type f)); [by rewrite Hu | | by rewrite Hu |];
    subst u; rewrite Hnz; cbn [trace_load trace_test mbind res_bind].
  - by rewrite modify_ok.
  - destruct b; [by rewrite modify_ok | done].
Qed.

Lemma set_exact_pmodify cache f :
  set_exact cache → rfield_wf f → fexact f → find cache (f_type f) = None → set_exact (pmodify cache f).
Proof.
  intros [Hc Ec] Hf Ef Hn. split; [by apply pmodify_wf |]. intros k g. unfold pmodify. rewrite Hn.
  rewrite lookup_insert_Some. intros [[_ <-] | [_ Hg]]; [done | by eapply Ec].
Qed.

Lemma set_sat_pmodify p cache f :
  set_sat p cache → satb (pview p (f_type f)) f = true → find cache (f_type f) = None →
  set_sat p (pmodify cache f).
Proof.
  intros Hs Hf Hn k g. unfold pmodify. rewrite Hn.
  rewrite lookup_insert_Some. intros [[_ <-] | [_ Hg]]; [done | by eapply Hs].
Qed.

(** Packets that satisfy one exact field agree on the whole type. *)
Lemma exact_agree (p q : P) f g :
  rfield_wf f → rfield_wf g → fexact f → fexact g → f_type g = f_type f →
  satb (pview p (f_type g)) g = true → satb (pview q (f_type g)) g = true →
  satb (pview p (f_type f)) f = satb (pview q (f_type f)) f.
Proof.
  unfold satb, fexact. intros _ _ Ef Eg E Hp Hq. rewrite Ef. apply N.eqb_eq in Hp, Hq.
  rewrite Eg, E in *. by rewrite Hp, Hq.
Qed.

Lemma merge_nodes_exact p l : ∀ cache t,
  set_exact cache → Forall node_exact l → set_sat p cache → Forall (node_sat p) l →
  ∃ cache' new, merge_nodes cache t l = Ok (cache', Trace (tr_result t) (tr_values t ++ new)) ∧
    Forall (node_sat p) new ∧
    (∀ q : P, set_sat q cache → Forall (node_sat q) new → Forall (node_sat q) l) ∧
    ∀ Q : trace_node → Prop, Forall Q l → Forall Q new.
Proof.
  induction l as [|n l IH]; intros cache t Hc Hl Hp Hs; cbn [merge_nodes].
  { exists cache, []. rewrite app_nil_r. destruct t. by split_and!. }
  inversion Hl as [|? ? Hn Hl']; subst. inversion Hs as [|? ? Hsn Hs']; subst.
  rewrite merge_node_exact by done. cbn [mbind res_bind].
  destruct (find cache (f_type (node_field n))) as [g|] eqn:Eg.
  - destruct (IH cache t Hc Hl' Hp Hs') as (c' & new & -> & H1 & H2 & H3).
    exists c', new. split_and!; try done; [| by intros Q [_ HQ]%Forall_cons_1; apply H3].
    intros q Hq Hn'. constructor; [| by apply H2].
    destruct (fs_wf_lookup _ _ _ (proj1 Hc) (proj1 (proj1 Hn)) Eg) as [Et Hg].
    assert (Hag : satb (pview p (f_type (node_field n))) (node_field n)
                  = satb (pview q (f_type (node_field n))) (node_field n)).
    { apply (exact_agree p q (node_field n) g); try done; try apply Hn;
        [by eapply (proj2 Hc) | by eapply Hp | by eapply Hq]. }
    destruct n as [f | f b]; cbn in *; by rewrite <- Hag.
  - set (cache1 := match n with TTest _ false => cache | _ => pmodify cache (node_field n) end).
    assert (Hc1 : set_exact cache1 ∧ ∀ q, set_sat q cache → node_sat q n → set_sat q cache1).
    { assert (Hex := set_exact_pmodify cache (node_field n) Hc (proj1 Hn) (proj2 Hn) Eg).
      subst cache1. destruct n as [f | f []]; cbn in *; split; try done;
        intros q Hq Hqn; by apply set_sat_pmodify. }
    destruct Hc1 as [Hc1 Hq1].
    destruct (IH cache1 (Trace (tr_result t) (tr_values t ++ [n])) Hc1 Hl' (Hq1 p Hp Hsn) Hs')
      as (c' & new & -> & H1 & H2 & H3).
    exists c', (n :: new). cbn [tr_result tr_values]. rewrite <- (assoc_L (++)).
    split_and!; [done | by constructor | | intros Q [HQ1 HQ]%Forall_cons_1; constructor; auto].
    intros q Hq Hn'. inversion Hn'; subst.
    constructor; [done |]. apply H2; auto.
Qed.

(** The policy of the merged trace: all results in parallel. *)
Lemma fold_plus_eval {Q} `{PacketOps Q} (rest : list trace) p (x : Q) :
  eval (fold_left (λ p tr, plus p (tr_result tr)) rest p) x
  ≈ₚ res_app (eval p x) (concat_res (map (λ tr, eval (tr_result tr) x) rest)).
Proof.
  revert p. induction rest as [|tr rest IH]; intros p; cbn [fold_left map concat_res].
  - by rewrite res_app_nil_r.
  - by rewrite IH, eval_plus, res_app_assoc.
Qed.
End Merge.

(** merging.  When all nodes and the pre-match are exact, and [p] satisfies
    the traces and the pre-match: merging succeeds, [p] satisfies the merged
    trace, every packet that satisfies the pre-match and the merged trace
    satisfies all the traces, and the merged policy sends on what the traces'
    policies do together. *)
Theorem merge_trace_exact {P} `{PacketLaws P} first rest cache (p : P) :
  let traces := first :: rest in
  let nodes := concat (map tr_values traces) in
  set_exact cache → Forall node_exact nodes → set_sat p cache → Forall (node_sat p) nodes →
  ∃ t, merge_trace traces cache = Ok t ∧ Forall (node_sat p) (tr_values t) ∧
    (∀ q : P, set_sat q cache → Forall (node_sat q) (tr_values t) → Forall (node_sat q) nodes) ∧
    ∀ x : P, eval (tr_result t) x ≈ₚ concat_res (map (λ tr, eval (tr_result tr) x) traces).
Proof.
  intros traces nodes Hc Hn Hp Hs.
  destruct (merge_nodes_exact p nodes cache empty_trace Hc Hn Hp Hs) as (c' & new & E & H1 & H2 & _).
  unfold merge_trace. fold nodes. rewrite E. cbn [mbind res_bind traces].
  eexists. split; [done |]. cbn [tr_result tr_values set_result app]. split_and!; [done | done |].
  intros x. apply fold_plus_eval.
Qed.

Lemma merge_trace_exact_witness :
  let n := TLoad (Field eth_type 0 0xffff) in
  ∃ t, merge_trace [Trace Id [n]; Trace Id [n; TTest (Field in_port 5 0xffffffff) false]] ∅ = Ok t ∧
    Forall (node_sat zero_packet) (tr_values t).
Proof.
  intros n.
  destruct (merge_trace_exact (Trace Id [n]) [Trace Id [n; TTest (Field in_port 5 0xffffffff) false]]
    ∅ zero_packet) as (t & E & Ht & _).
  - split; [apply fs_wf_empty | done].
  - repeat apply Forall_cons; [.. | by apply Forall_nil];
      (split; [split; [done | split; [by apply msk_ok_test | done]] | done]).
  - by intros k f Hk.
  - repeat apply Forall_cons; [.. | by apply Forall_nil]; by vm_compute.
  - by exists t.
Defined.

(** exactness is needed for merging: when one trace has loaded part of a
    field and another has failed a test of the whole, the merged trace says
    that the rest of the field differs, which the packet itself contradicts. *)
Theorem merge_partial_test_wrong :
  let v := with_values [(eth_dst, 0xaabbccddee01%N)] in
  let n1 := TLoad (Field eth_dst 0x01 0xff) in
  let n2 := TTest (Field eth_dst 0xaabbccddee02 0xffffffffffff) false in
  node_sat v n1 ∧ node_sat v n2 ∧
  ∃ n, merge_trace [Trace Id [n1]; Trace Id [n2]] ∅ = Ok (Trace (Parallel Id Id) [n1; n]) ∧
    n = TTest (Field eth_dst 0xaabbccddee00 0xffffffffff00) false ∧ ¬ node_sat v n.
Proof.
  intros v n1 n2. split_and!; [by vm_compute | by vm_compute |].
  eexists. split_and!; [by vm_compute | done | by vm_compute].
Qed.
