(* ===== verification/TraceTree.v ===== *)
(** * TraceTree: retic's trace trees, retic/trace_tree.hh and .cc,
    retic/traverse_trace_tree.cc, retic/trace_tree_translator.cc

    [Augmention] walks a pointer down the tree, one step per trace node, and
    installs a barrier rule where it creates a test; here the walk is the
    recursion along the trace and rebuilds the path.  [finish] compiles the
    policy at the leaf, translates it into the band that is left, and puts the
    diagram on the heap, which is what the shared pointers of the leaves point
    into.  Exceptions lose the partly rebuilt path, where the code keeps it. *)

From S2P Require Import Prelude Bits Oxm FieldSet Packet Policy Valuation Fdd FddCompiler.
From S2P Require Import FddCorrect FddTranslator Tracer.

(** ** The heap of diagrams *)

Record heap : Type := Heap { h_next : loc; h_store : gmap loc diagram }.
Definition empty_heap : heap := Heap 1 ∅.

(** [std::make_shared<diagram_holder>()] with its value. *)
Definition alloc (h : heap) (d : diagram) : loc * heap :=
  (h_next h, Heap (Pos.succ (h_next h)) (<[h_next h := d]> (h_store h))).

(** ** Augmentation *)

Record augmention : Type := Augmention {
  a_match : field_set;
  a_down : N;
  a_up : N;
  a_heap : heap;
  a_rules : list rule
}.

(** [cases.find(bits)] and [cases[bits] = node] *)
Fixpoint find_case (cases : list (N * tnode)) (v : N) : option tnode :=
  match cases with
  | [] => None
  | (w, n) :: cases => if (w =? v)%N then Some n else find_case cases v
  end.

Fixpoint set_case (cases : list (N * tnode)) (v : N) (n : tnode) : list (N * tnode) :=
  match cases with
  | [] => [(v, n)]
  | (w, m) :: cases => if (w =? v)%N then (w, n) :: cases else (w, m) :: set_case cases v n
  end.

Definition with_match (s : augmention) (m : field_set) : augmention :=
  Augmention m (a_down s) (a_up s) (a_heap s) (a_rules s).
Definition with_band (s : augmention) (down up : N) : augmention :=
  Augmention (a_match s) down up (a_heap s) (a_rules s).
Definition emit (s : augmention) (rs : list rule) : augmention :=
  Augmention (a_match s) (a_down s) (a_up s) (a_heap s) (a_rules s ++ rs).

Definition test_middle (s : augmention) : N := u16 ((a_up s + a_down s) / 2).

(** What a test does to the match and the band. *)
Definition after_test (s : augmention) (f : field) (result : bool) : res augmention :=
  let middle := test_middle s in
  if result then m ← modify (a_match s) f; Ok (with_band (with_match s m) (u16 (middle + 1)) (a_up s))
  else Ok (with_band s (a_down s) (u16 (middle + 2 ^ 16 - 1))).

(** [installBarrier] where a test is created. *)
Definition test_barrier (backend : bool) (s : augmention) (f : field) : res augmention :=
  if backend then m ← modify (a_match s) f; Ok (emit s [Rule m (test_middle s) Barrier]) else Ok s.

(** [finish] *)
Definition finish (fuel : nat) (backend : bool) (cur : tnode) (p : policy) (s : augmention)
  : comp (tnode * loc * augmention) :=
  match cur with
  | Unexplored | LeafNode _ _ =>
      d ← compile fuel p;
      '(d', rs) ←
        (if backend then
           '(_, d', rs) ← lift (translate d (translator_at (a_match s) (a_down s) (a_up s)));
           Ret (d', rs)
         else Ret (d, []));
      let '(l, h) := alloc (a_heap s) d' in
      Ret (LeafNode p (Some l), l,
           Augmention (a_match s) (a_down s) (a_up s) h (a_rules s ++ rs))
  | _ => Raise InconsistentTrace
  end.

Fixpoint augment (fuel : nat) (backend : bool) (trace : list trace_node) (p : policy) (cur : tnode)
    (s : augmention) : comp (tnode * loc * augmention) :=
  match trace with
  | [] => finish fuel backend cur p s
  | TLoad f :: rest =>
      match cur with
      | Unexplored =>
          m ← lift (modify (a_match s) f);
          '(sub, l, s') ← augment fuel backend rest p Unexplored (with_match s m);
          Ret (LoadNode (mask_of f) [(f_val f, sub)], l, s')
      | LoadNode msk cases =>
          if mask_eqb msk (mask_of f) then
            m ← lift (modify (a_match s) f);
            '(sub, l, s') ← augment fuel backend rest p (default Unexplored (find_case cases (f_val f)))
                              (with_match s m);
            Ret (LoadNode msk (set_case cases (f_val f) sub), l, s')
          else Raise InconsistentTrace
      | _ => Raise InconsistentTrace
      end
  | TTest f result :: rest =>
      match cur with
      | Unexplored =>
          s1 ← lift (test_barrier backend s f);
          s2 ← lift (after_test s1 f result);
          '(sub, l, s') ← augment fuel backend rest p Unexplored s2;
          Ret (if result : bool then TestNode f sub Unexplored else TestNode f Unexplored sub, l, s')
      | TestNode need pos neg =>
          if field_eqb need f then
            s2 ← lift (after_test s f result);
            '(sub, l, s') ← augment fuel backend rest p (if result : bool then pos else neg) s2;
            Ret (if result : bool then TestNode need sub neg else TestNode need pos sub, l, s')
          else Raise InconsistentTrace
      | _ =>
          (* no case of the code applies and the pointer does not move *)
          s2 ← lift (after_test s f result);
          augment fuel backend rest p cur s2
      end
  end.

(** ** Traversal (traverse_trace_tree.cc) *)

Section Traverser.
Context {P : Type} `{PacketOps P}.

Fixpoint traverse_tree (n : tnode) (m : field_set) (p : P) {struct n} : res (option loc * field_set * P) :=
  match n with
  | Unexplored => Ok (None, m, p)
  | LeafNode _ l => Ok (l, m, p)
  | TestNode need pos neg =>
      '(b, p') ← pkt_test p need;
      if b : bool then m' ← modify m need; traverse_tree pos m' p'
      else traverse_tree neg m p'
  | LoadNode msk cases =>
      '(f, p') ← pkt_load p msk;
      (fix go (cases : list (N * tnode)) : res (option loc * field_set * P) :=
         match cases with
         | [] => Ok (None, m, p')
         | (v, sub) :: cases =>
             if (v =? f_val f)%N then
               val ← type_eq_value (m_type msk) (Bits (nbits (m_type msk)) v);
               g ← value_and_mask val msk;
               m' ← modify m g;
               traverse_tree sub m' p'
             else go cases
         end) cases
  end.
End Traverser.

(** ** Rules of a whole tree (trace_tree_translator.cc) *)

Record tree_translator : Type := TreeTranslator {
  tt_match : field_set;
  tt_up : N;
  tt_down : N
}.

Definition tree_translator_init : tree_translator := TreeTranslator ∅ 65535 1.

Fixpoint tree_translate (n : tnode) (s : tree_translator) {struct n}
  : res (tree_translator * list rule) :=
  match n with
  | Unexplored => Ok (s, [])
  | LeafNode _ _ => Throw RuntimeError
  | TestNode need pos neg =>
      let middle := u16 ((tt_up s + tt_down s) / 2) in
      '(s1, r1) ← tree_translate neg (TreeTranslator (tt_match s) (u16 (middle + 2 ^ 16 - 1)) (tt_down s));
      m ← modify (tt_match s1) need;
      '(s2, r2) ← tree_translate pos (TreeTranslator m (tt_up s) (u16 (middle + 1)));
      m' ← erase (tt_match s2) (mask_of need);
      Ok (TreeTranslator m' (tt_up s2) (tt_down s2), r1 ++ Rule m middle Barrier :: r2)
  | LoadNode msk cases =>
      (fix go (cases : list (N * tnode)) (s : tree_translator) : res (tree_translator * list rule) :=
         match cases with
         | [] => Ok (s, [])
         | (v, sub) :: cases =>
             val ← type_eq_value (m_type msk) (Bits (nbits (m_type msk)) v);
             g ← value_and_mask val msk;
             m ← modify (tt_match s) g;
             '(s1, r1) ← tree_translate sub (TreeTranslator m (tt_up s) (tt_down s));
             m' ← erase (tt_match s1) msk;
             '(s2, r2) ← go cases (TreeTranslator m' (tt_up s1) (tt_down s1));
             Ok (s2, r1 ++ r2)
         end) cases s
  end.

(** ** Comparison *)

Fixpoint tnode_eqb (lhs rhs : tnode) {struct lhs} : bool :=
  match lhs, rhs with
  | Unexplored, Unexplored => true
  | LeafNode p _, LeafNode q _ => policy_eqb p q
  | TestNode f a b, TestNode g c d => field_eqb f g && tnode_eqb a c && tnode_eqb b d
  | LoadNode m cs, LoadNode m' cs' =>
      mask_eqb m m' &&
      (fix go (cs : list (N * tnode)) : bool :=
         match cs with
         | [] => true
         | (v, n) :: cs =>
             match find_case cs' v with Some n' => tnode_eqb n n' | None => false end && go cs
         end) cs &&
      forallb (λ c, match find_case cs c.1 with Some _ => true | None => false end) cs'
  | _, _ => false
  end.

(** ** Trees as dictionaries from traces to diagrams *)

(** The diagram a trace leads to. *)
Fixpoint lookup_tree (n : tnode) (l : list trace_node) : option loc :=
  match l, n with
  | [], LeafNode _ d => d
  | TLoad f :: l, LoadNode m cases =>
      if mask_eqb m (mask_of f)
      then n ← find_case cases (f_val f); lookup_tree n l
      else None
  | TTest f b :: l, TestNode need pos neg =>
      if field_eqb need f then lookup_tree (if b : bool then pos else neg) l else None
  | _, _ => None
  end.

(** The tree asks what the trace asks, as far as it is explored. *)
Fixpoint fits (n : tnode) (l : list trace_node) : Prop :=
  n = Unexplored ∨
  match l with
  | [] => ∃ p d, n = LeafNode p d
  | TLoad f :: l =>
      ∃ cases, n = LoadNode (mask_of f) cases ∧
        ∀ sub, find_case cases (f_val f) = Some sub → fits sub l
  | TTest f b :: l =>
      ∃ pos neg, n = TestNode f pos neg ∧ fits (if b : bool then pos else neg) l
  end.

Definition node_wf (n : trace_node) : Prop := rfield_wf (node_field n).

Lemma fits_unexplored l : fits Unexplored l.
Proof. destruct l as [|[]]; by left. Qed.

Lemma lookup_unexplored l : lookup_tree Unexplored l = None.
Proof. by destruct l as [|[]]. Qed.

Lemma find_set_case cases v n w :
  find_case (set_case cases v n) w = if (v =? w)%N then Some n else find_case cases w.
Proof.
  induction cases as [|[u m] cases IH]; cbn; [done |].
  destruct (u =? v)%N eqn:E; cbn.
  - apply N.eqb_eq in E as ->. by destruct (v =? w)%N.
  - rewrite IH. destruct (u =? w)%N eqn:E'; [| done].
    apply N.eqb_eq in E' as ->. rewrite N.eqb_sym in E. by rewrite E.
Qed.

Lemma mask_eqb_refl m : mask_eqb m m = true.
Proof. unfold mask_eqb. by rewrite type_eqb_refl, (proj2 (bits_eqb_eq _ _)). Qed.

Lemma field_eqb_refl f : field_eqb f f = true.
Proof. unfold field_eqb. by rewrite type_eqb_refl, !(proj2 (bits_eqb_eq _ _)). Qed.

(** ** The translator relabels a compiled diagram and never throws *)

(** Two diagrams but for what the translator writes into the leaves. *)
Fixpoint relabelled (d d' : diagram) : Prop :=
  match d, d' with
  | Leaf l, Leaf l' =>
      sets l' = sets l ∧ flow_settings l' = flow_settings l ∧ maple_tree l' = maple_tree l
  | Node f p n, Node g p' n' => f = g ∧ relabelled p p' ∧ relabelled n n'
  | _, _ => False
  end.

Lemma relabelled_refl d : relabelled d d.
Proof. by induction d. Qed.

Lemma relabelled_same d : ∀ d', relabelled d d' →
  (dok d → dok d') ∧ (dpure d → dpure d') ∧ ∀ v : vpacket, outs d' v = outs d v.
Proof.
  induction d as [l | f p IHp n IHn]; intros [l' | g p' n'] H; try done.
  - destruct H as (E & _). cbn. unfold leaf_ok, leaf_eval. by rewrite E.
  - destruct H as (<- & Hp & Hn). destruct (IHp _ Hp) as (Kp & Pp & Op), (IHn _ Hn) as (Kn & Pn & On).
    cbn. split_and!; [naive_solver | naive_solver |]. intros v.
    destruct (test_by_load vload v f) as [[[] v']|]; cbn [mbind res_bind]; auto.
Qed.

Lemma translate_ok d : ∀ st, dok d → fs_wf (tr_match st) →
  ∃ st' d' rs, translate d st = Ok (st', d', rs) ∧ fs_wf (tr_match st') ∧
    relabelled d d'.
Proof.
  induction d as [l | f p IHp n IHn]; intros s Hd Hs; cbn [translate].
  - by eexists _, _, _.
  - destruct Hd as (Hf & Hp & Hn).
    destruct (IHn (enter_node s f) Hn) as (s2 & n' & rn & -> & Hs2 & En).
    { unfold enter_node. repeat case_match; done. }
    cbn [mbind res_bind]. rewrite modify_ok by (done || apply Hf). cbn [mbind res_bind].
    destruct (IHp (Translator (pmodify (tr_match s2) f) (tr_middle s2) (tr_up s2) (tr_middle s2) None) Hp)
      as (s4 & p' & rp & -> & Hs4 & Ep); [by apply pmodify_wf; [| apply Hf] |].
    cbn [mbind res_bind]. rewrite erase_ok by (done || apply mask_of_wf, Hf). cbn [mbind res_bind].
    eexists _, _, _. split_and!; [done | by apply perase_wf; [| apply mask_of_wf, Hf] |].
    done.
Qed.

(** ** Augmentation *)

Lemma after_test_ok s f b :
  fs_wf (a_match s) → rfield_wf f →
  ∃ s', after_test s f b = Ok s' ∧ fs_wf (a_match s') ∧ a_heap s' = a_heap s.
Proof.
  intros Hs Hf. unfold after_test. destruct b; [| by eexists].
  rewrite modify_ok by done. cbn [mbind res_bind]. eexists. split; [done |]. split; [| done].
  by apply pmodify_wf.
Qed.

Lemma test_barrier_ok backend s f :
  fs_wf (a_match s) → rfield_wf f →
  ∃ s', test_barrier backend s f = Ok s' ∧ a_match s' = a_match s ∧ a_heap s' = a_heap s.
Proof.
  intros Hs Hf. unfold test_barrier. destruct backend; [| by eexists].
  rewrite modify_ok by done. cbn [mbind res_bind]. by eexists.
Qed.

Section Augment.
Context (backend : bool) (p : policy) (d : diagram).
Hypothesis Hd : dok d.
Hypothesis Hcompile : converges (λ n, compile n p) d.

(** What an augmentation by the trace [l] does to the tree and the heap. *)
Definition augmented (t : tnode) (l : list trace_node) (s : augmention)
    (t' : tnode) (s' : augmention) : Prop :=
  (fs_wf (a_match s') ∧ ∃ d', a_heap s' = (alloc (a_heap s) d').2 ∧ relabelled d d') ∧
  lookup_tree t' l = Some (h_next (a_heap s)) ∧ fits t' l ∧
  ∀ l', compat l l' → fits t l' → fits t' l' ∧ (l' ≠ l → lookup_tree t' l' = lookup_tree t l').

Lemma finish_ok t s :
  fits t [] → fs_wf (a_match s) →
  ∃ t' s', converges (λ n, finish n backend t p s) (t', h_next (a_heap s), s') ∧ augmented t [] s t' s'.
Proof.
  intros Ht Hs.
  assert (∃ d' rs, (if backend then
           '(_, d', rs) ← lift (translate d (translator_at (a_match s) (a_down s) (a_up s)));
           Ret (d', rs)
         else Ret (d, [])) = Ret (d', rs) ∧ relabelled d d') as (d' & rs & Ed & Eo).
  { destruct backend; [| eexists _, _; split; [done | apply relabelled_refl]].
    destruct (translate_ok d (translator_at (a_match s) (a_down s) (a_up s)) Hd Hs)
      as (st' & d' & rs & -> & _ & Ho). by eexists _, _. }
  exists (LeafNode p (Some (h_next (a_heap s)))),
    (Augmention (a_match s) (a_down s) (a_up s) (alloc (a_heap s) d').2 (a_rules s ++ rs)).
  split.
  - destruct Hcompile as [N HN]. exists N. intros n Hn.
    assert (∃ q, t = Unexplored ∨ t = LeafNode q.1 q.2) as [q [-> | ->]].
    { destruct Ht as [-> | (q & k & ->)]; [by exists (p, None); left | by exists (q, k); right]. }
    all: unfold finish; rewrite HN by done; cbn [mbind comp_bind]; by rewrite Ed.
  - split_and!; [done | by exists d' | done | right; eauto |].
    intros l' Hc _. inversion Hc; subst. split; [right; eauto | done].
Qed.

Lemma augmented_step t l s s1 t' s' :
  a_heap s1 = a_heap s → augmented t l s1 t' s' → augmented t l s t' s'.
Proof. unfold augmented. by intros ->. Qed.

Lemma fits_load t f cases l :
  t = Unexplored ∧ cases = [] ∨ t = LoadNode (mask_of f) cases →
  fits t (TLoad f :: l) ↔ fits (default Unexplored (find_case cases (f_val f))) l.
Proof.
  intros [[-> ->] | ->]; cbn.
  - split; [intros _; apply fits_unexplored | by left].
  - split.
    + intros [? | (c & [= <-] & H)]; [done |].
      destruct (find_case cases (f_val f)) eqn:E; cbn; [by apply H | apply fits_unexplored].
    + intros H. right. exists cases. split; [done |]. intros sub E. by rewrite E in H.
Qed.

Lemma lookup_load t f cases l :
  t = Unexplored ∧ cases = [] ∨ t = LoadNode (mask_of f) cases →
  lookup_tree t (TLoad f :: l) = lookup_tree (default Unexplored (find_case cases (f_val f))) l.
Proof.
  intros [[-> ->] | ->]; cbn; [by rewrite lookup_unexplored |].
  rewrite mask_eqb_refl. destruct (find_case _ _); cbn; [done |]. by rewrite lookup_unexplored.
Qed.

Lemma augmented_load t f cases l s sub s' :
  t = Unexplored ∧ cases = [] ∨ t = LoadNode (mask_of f) cases →
  augmented (default Unexplored (find_case cases (f_val f))) l s sub s' →
  augmented t (TLoad f :: l) s (LoadNode (mask_of f) (set_case cases (f_val f) sub)) s'.
Proof.
  intros Et (Hh & Hlk & Hfit & Hoth).
  assert (Enew : ∀ g l', mask_of g = mask_of f →
    lookup_tree (LoadNode (mask_of f) (set_case cases (f_val f) sub)) (TLoad g :: l')
    = lookup_tree (default Unexplored (find_case (set_case cases (f_val f) sub) (f_val g))) l').
  { intros g l' <-. by apply lookup_load; right. }
  assert (Fnew : ∀ g l', mask_of g = mask_of f →
    fits (LoadNode (mask_of f) (set_case cases (f_val f) sub)) (TLoad g :: l')
    ↔ fits (default Unexplored (find_case (set_case cases (f_val f) sub) (f_val g))) l').
  { intros g l' <-. by apply fits_load; right. }
  split_and!; [apply Hh | apply Hh | | |].
  - rewrite Enew by done. by rewrite find_set_case, N.eqb_refl.
  - rewrite Fnew by done. by rewrite find_set_case, N.eqb_refl.
  - intros l' Hc Hf'. inversion Hc as [| ? ? l2 Hc2 | ? [g | g c] ? l2 Hq Hne]; subst; [| | done].
    + rewrite Fnew, Enew, (lookup_load t f cases) by done.
      rewrite (fits_load t f cases) in Hf' by done. rewrite find_set_case, N.eqb_refl. cbn [default].
      destruct (Hoth l2 Hc2 Hf') as [H1 H2]. split; [done |]. intros Hne. apply H2. congruence.
    + cbn in Hq. symmetry in Hq.
      assert (Et' : t = Unexplored ∧ cases = [] ∨ t = LoadNode (mask_of g) cases) by by rewrite Hq.
      rewrite Fnew, Enew, (lookup_load t g cases) by done. rewrite (fits_load t g cases) in Hf' by done.
      rewrite find_set_case. destruct (f_val f =? f_val g)%N eqn:E; [| by split].
      exfalso. apply Hne. apply N.eqb_eq in E. destruct f, g. unfold mask_of in Hq. cbn in *. congruence.
Qed.

Lemma fits_test t f pos neg (b : bool) l :
  t = Unexplored ∧ pos = Unexplored ∧ neg = Unexplored ∨ t = TestNode f pos neg →
  fits t (TTest f b :: l) ↔ fits (if b then pos else neg) l.
Proof.
  intros [(-> & -> & ->) | ->]; cbn.
  - split; [intros _; destruct b; apply fits_unexplored | by left].
  - split; [by intros [? | (p0 & n0 & [= <- <-] & H)] |]. intros H. right. by exists pos, neg.
Qed.

Lemma lookup_test t f pos neg (b : bool) l :
  t = Unexplored ∧ pos = Unexplored ∧ neg = Unexplored ∨ t = TestNode f pos neg →
  lookup_tree t (TTest f b :: l) = lookup_tree (if b then pos else neg) l.
Proof.
  intros [(-> & -> & ->) | ->]; cbn; [by destruct b; rewrite lookup_unexplored |].
  by rewrite field_eqb_refl.
Qed.

Lemma augmented_test t f pos neg (b : bool) l s sub s' :
  t = Unexplored ∧ pos = Unexplored ∧ neg = Unexplored ∨ t = TestNode f pos neg →
  augmented (if b then pos else neg) l s sub s' →
  augmented t (TTest f b :: l) s (if b then TestNode f sub neg else TestNode f pos sub) s'.
Proof.
  intros Et (Hh & Hlk & Hfit & Hoth).
  set (t' := if b then TestNode f sub neg else TestNode f pos sub) in *.
  assert (Et' : t' = TestNode f (if b then sub else pos) (if b then neg else sub)) by (subst t'; by destruct b).
  assert (Enew : ∀ (c : bool) l', lookup_tree t' (TTest f c :: l')
    = lookup_tree (if c then (if b then sub else pos) else (if b then neg else sub)) l').
  { intros c l'. apply lookup_test. by right. }
  assert (Fnew : ∀ (c : bool) l', fits t' (TTest f c :: l')
    ↔ fits (if c then (if b then sub else pos) else (if b then neg else sub)) l').
  { intros c l'. apply fits_test. by right. }
  split_and!; [apply Hh | apply Hh | | |].
  - rewrite Enew. by destruct b.
  - rewrite Fnew. by destruct b.
  - intros l' Hc Hf'. inversion Hc as [| ? ? l2 Hc2 | ? [g | g c] ? l2 Hq Hne]; subst l'; [| done |].
    + rewrite Fnew, Enew, (lookup_test t f pos neg) by done.
      rewrite (fits_test t f pos neg) in Hf' by done.
      destruct (Hoth l2 Hc2 Hf') as [H1 H2]. destruct b; (split; [done |]; intros Hne; apply H2; congruence).
    + cbn in Hq. subst g. rewrite Fnew, Enew, (lookup_test t f pos neg) by done.
      rewrite (fits_test t f pos neg) in Hf' by done. destruct b, c; try done; by split.
Qed.

Lemma augment_ok l : ∀ t s, fits t l → Forall node_wf l → fs_wf (a_match s) →
  ∃ t' s', converges (λ n, augment n backend l p t s) (t', h_next (a_heap s), s') ∧ augmented t l s t' s'.
Proof.
  induction l as [|[f | f b] l IH]; intros t s Ht Hl Hs; cbn [augment].
  - by apply finish_ok.
  - apply Forall_cons_1 in Hl as [Hf Hl]. change (rfield_wf f) in Hf.
    assert (Hm : fs_wf (a_match (with_match s (pmodify (a_match s) f)))) by by apply pmodify_wf.
    assert (∃ cases, (t = Unexplored ∧ cases = [] ∨ t = LoadNode (mask_of f) cases) ∧
      fits (default Unexplored (find_case cases (f_val f))) l) as (cases & Et & Hsub).
    { destruct Ht as [-> | (cases & -> & Hsub)].
      - exists []. split; [by left | apply fits_unexplored].
      - exists cases. split; [by right |]. destruct (find_case cases (f_val f)) as [sub|] eqn:E; cbn.
        + by apply Hsub.
        + apply fits_unexplored. }
    destruct (IH _ _ Hsub Hl Hm) as (sub & s' & [N HN] & Ha).
    exists (LoadNode (mask_of f) (set_case cases (f_val f) sub)), s'. split.
    + exists N. intros n Hn. destruct Et as [[-> ->] | ->]; rewrite ?mask_eqb_refl, modify_ok by done;
        cbn [lift mbind comp_bind]; [change Unexplored with (default Unexplored (find_case [] (f_val f))) |];
        by rewrite HN.
    + apply augmented_load; [done |]. by eapply augmented_step.
  - apply Forall_cons_1 in Hl as [Hf Hl]. change (rfield_wf f) in Hf.
    assert (∃ pos neg, (t = Unexplored ∧ pos = Unexplored ∧ neg = Unexplored ∨ t = TestNode f pos neg) ∧
      fits (if b then pos else neg) l) as (pos & neg & Et & Hsub).
    { destruct Ht as [-> | (pos & neg & -> & Hsub)].
      - exists Unexplored, Unexplored. split; [by left |]. destruct b; apply fits_unexplored.
      - exists pos, neg. split; [by right | done]. }
    assert (∃ s2, (match t with
                   | Unexplored => s1 ← lift (test_barrier backend s f); lift (after_test s1 f b)
                   | _ => lift (after_test s f b)
                   end = Ret s2) ∧ fs_wf (a_match s2) ∧ a_heap s2 = a_heap s) as (s2 & E2 & Hs2 & Eh).
    { destruct (test_barrier_ok backend s f Hs Hf) as (s1 & E1 & Em & Eh).
      destruct Et as [(-> & _) | ->].
      - rewrite E1. cbn [lift mbind comp_bind].
        destruct (after_test_ok s1 f b) as (s2 & -> & H2 & Eh2); [by rewrite Em | done |].
        exists s2. split_and!; [done | done | congruence].
      - destruct (after_test_ok s f b Hs Hf) as (s2 & -> & H2 & Eh2). by exists s2. }
    destruct (IH _ _ Hsub Hl Hs2) as (sub & s' & [N HN] & Ha). rewrite Eh in HN.
    exists (if b then TestNode f sub neg else TestNode f pos sub), s'. split.
    + exists N. intros n Hn. specialize (HN n Hn). destruct Et as [(-> & -> & ->) | ->].
      * destruct (test_barrier backend s f) as [s1|]; [| done]. cbn [lift mbind comp_bind] in *.
        destruct (after_test s1 f b) as [s3|]; [| done]. injection E2 as ->. cbn [lift mbind comp_bind].
        replace (if b then Unexplored else Unexplored) with Unexplored in HN by by destruct b.
        by rewrite HN.
      * rewrite field_eqb_refl. destruct (after_test s f b) as [s3|]; [| done]. injection E2 as ->.
        cbn [lift mbind comp_bind]. by rewrite HN.
    + apply augmented_test; [done |]. by eapply augmented_step.
Qed.
End Augment.

(** ** Recorded nodes are well-formed *)

Section Nodes.
Context {P : Type} `{PacketLaws P}.

Lemma run_nodes_wf h : ∀ (p : P) tr cache mods pol s',
  handler_wf h → fs_wf cache → fs_wf mods → Forall node_wf tr →
  run h (st p tr cache mods) = Ok (pol, s') → Forall node_wf (tr_values (tp_tracer (mt_pkt s'))).
Proof.
  induction h as [pol | m k IH | f k IH | f k IH]; intros p tr cache mods pol' s' Hh Hc Hm Htr E.
  - cbn in E. by injection E as <- <-.
  - destruct Hh as [Hmk Hk]. rewrite run_load in E by done. destruct (pbound p (m_type m)); [| done].
    cbv zeta in E. destruct (entry_facts cache (m_type m) Hc (proj1 Hmk)) as (Et & Hw & _).
    assert (Hu := unexp_wf (pview p (m_type m)) m (entry cache (m_type m)) Hmk Hw Et).
    assert (Hkw : handler_wf (k (loadv (pview p (m_type m)) m))).
    { apply Hk; [by apply loadv_wf | by destruct m]. }
    destruct (f_wildcard _); eapply IH in E; try done; [by apply pmodify_wf |].
    apply Forall_app. split; [done |]. by apply Forall_cons_2; [| apply Forall_nil].
  - destruct Hh as [Hf Hk]. rewrite run_test in E by done. destruct (pbound p (f_type f)); [| done].
    cbv zeta in E. destruct (entry_facts cache (f_type f) Hc (proj1 Hf)) as (Et & Hw & _).
    assert (Hm' := mask_of_wf _ Hf).
    assert (Hu := unexp_wf (pview p (f_type f)) (mask_of f) (entry cache (f_type f)) Hm' Hw Et).
    destruct (negb _); [by eapply IH in E |]. destruct (f_wildcard _); [by eapply IH in E |].
    eapply IH in E; try done.
    + destruct (fmatch _ f); [by apply pmodify_wf | done].
    + apply Forall_app. split; [done |]. apply Forall_cons_2; [| by apply Forall_nil].
      apply fwiden_wf; [done | by apply mask_of_wf | done].
  - destruct Hh as [Hf Hk]. rewrite run_modify in E by done.
    destruct (pkt_modify p f) as [q|]; [| done]. cbn [mbind res_bind] in E.
    eapply IH in E; try done; by apply pmodify_wf.
Qed.

Lemma run_tracer_nodes_wf h (p : P) t :
  handler_wf h → run_tracer h p = Ok t → Forall node_wf (tr_values t).
Proof.
  intros Hh E. destruct (run_tracer_spec h p t Hh E) as (pol & p' & c & m & Er & _).
  apply run_nodes_wf in Er; auto using fs_wf_empty.
Qed.
End Nodes.

(** ** Traversal follows the packet's own trace *)

Lemma fs_satb_modify m f v :
  fs_wf m → rfield_wf f → fs_satb m v = true → satb (vview v (f_type f)) f = true →
  fs_satb (pmodify m f) v = true.
Proof.
  intros Hw Hf Hm Hs. destruct (find m (f_type f)) as [g|] eqn:E.
  - destruct (fs_wf_lookup _ _ _ Hw (proj1 Hf) E) as [Et _].
    apply fs_satb_spec. intros k g'. unfold pmodify. rewrite E, lookup_insert_Some.
    rewrite fs_satb_spec in Hm. intros [[_ <-] | [_ Hg]]; [| by eapply Hm].
    pose proof (Hm _ _ E) as Hg. unfold satb in *. cbn. rewrite Et in *.
    apply N.eqb_eq in Hg, Hs. apply N.eqb_eq. revert Hg Hs.
    generalize (vview v (f_type f)) (f_msk g) (f_val g) (f_msk f) (f_val f). intros x gm gv fm fv Hg Hs.
    bitwise i.
  - rewrite fs_satb_pmodify by done. by rewrite Hm, Hs.
Qed.

(** What a traversal that arrives at [d] returns. *)
Definition traversed (v : vpacket) (m : field_set) (d : option loc)
    (r : res (option loc * field_set * vpacket)) : Prop :=
  ∃ m', r = Ok (d, m', v) ∧ fs_wf m' ∧ (fs_satb m v = true → fs_satb m' v = true).

Lemma traversed_step v m f d r :
  fs_wf m → rfield_wf f → satb (vview v (f_type f)) f = true →
  traversed v (pmodify m f) d r → traversed v m d r.
Proof.
  intros Hm Hf Hs (m' & -> & Hw & H). exists m'. split_and!; [done | done |].
  intros Hsat. apply H. by apply fs_satb_modify.
Qed.

Lemma traverse_tree_ok v l : full v → Forall (node_sat v) l → Forall node_wf l →
  ∀ t m, fits t l → fs_wf m → traversed v m (lookup_tree t l) (traverse_tree t m v).
Proof.
  intros Hv. induction l as [|[f | f b] l IH]; intros Hs Hw t m Ht Hm.
  - destruct Ht as [-> | (p & d & ->)]; by exists m.
  - apply Forall_cons_1 in Hs as [Hsf Hs]. apply Forall_cons_1 in Hw as [Hf Hw].
    change (rfield_wf f) in Hf. change (satb (vview v (f_type f)) f = true) in Hsf.
    destruct Ht as [-> | (cases & -> & Hsub)]; [by exists m |].
    cbn [traverse_tree lookup_tree]. rewrite mask_eqb_refl, vload_full by (done || by apply mask_of_wf).
    cbn [mbind res_bind]. pose proof Hsf as Ev. apply N.eqb_eq in Ev. cbn [f_val loadv mask_of m_val m_type].
    rewrite Ev. induction cases as [|[w sub] cases IHc]; cbn [find_case].
    { by exists m. }
    destruct (w =? f_val f)%N eqn:E.
    + apply N.eqb_eq in E as ->. assert (Hmf := mask_of_wf _ Hf).
      unfold type_eq_value, mk_value. cbn [mask_of m_type]. rewrite value_holder_ok.
      cbn [fmap res_fmap mbind res_bind]. rewrite value_and_mask_ok by (done || apply Hmf).
      cbn [mbind res_bind v_type v_val m_val mask_of].
      replace (Field (f_type f) (N.land (f_val f) (f_msk f)) (f_msk f)) with f.
      2: { destruct f, Hf as [_ [_ Hv']]. cbn in *. by rewrite Hv'. }
      rewrite modify_ok by done. cbn [mbind res_bind]. eapply traversed_step; try done.
      apply IH; try done; [| by apply pmodify_wf]. apply Hsub. cbn [find_case]. by rewrite N.eqb_refl.
    + apply IHc. intros sub' E'. apply Hsub. cbn. by rewrite E.
  - apply Forall_cons_1 in Hs as [Hsf Hs]. apply Forall_cons_1 in Hw as [Hf Hw].
    change (rfield_wf f) in Hf. change (satb (vview v (f_type f)) f = b) in Hsf.
    destruct Ht as [-> | (pos & neg & -> & Hsub)]; [by exists m |].
    cbn [traverse_tree lookup_tree]. rewrite field_eqb_refl, vtest by done. cbn [mbind res_bind].
    rewrite Hsf. destruct b.
    + rewrite modify_ok by done. cbn [mbind res_bind]. eapply traversed_step; try done.
      apply IH; try done. by apply pmodify_wf.
    + by apply IH.
Qed.

(** ** Learning: augmenting one tree by the runs of one function *)

(** One packet-in: trace the function on the packet and augment by the trace. *)
Definition learn_packet (n : nat) (h : handler) (tree : tnode) (hp : heap) (v : vpacket)
  : comp (tnode * heap) :=
  t ← lift (run_tracer h v);
  '(tree', _, s') ← augment n false (tr_values t) (tr_result t) tree (Augmention ∅ 1 65535 hp []);
  Ret (tree', a_heap s').

Fixpoint learn (n : nat) (h : handler) (tree : tnode) (hp : heap) (vs : list vpacket)
  : comp (tnode * heap) :=
  match vs with
  | [] => Ret (tree, hp)
  | v :: vs => '(tree', hp') ← learn_packet n h tree hp v; learn n h tree' hp' vs
  end.

(** Functions whose policies compile: exact modifications, compilable results. *)
Fixpoint handler_exact (h : handler) : Prop :=
  match h with
  | HReturn p => compilable p
  | HLoad _ k => ∀ f, handler_exact (k f)
  | HTest _ k => ∀ b, handler_exact (k b)
  | HModify f k => rfield_exact f ∧ handler_exact k
  end.

Lemma fs_exact_pmodify m f : fs_exact m → rfield_exact f → fs_exact (pmodify m f).
Proof.
  intros [Hw He] [Hf Hx]. split; [by apply pmodify_wf |].
  unfold pmodify. apply map_Forall_insert_2; [| done].
  destruct (find m (f_type f)) as [g|] eqn:E; [| done].
  destruct (fs_wf_lookup _ _ _ Hw (proj1 Hf) E) as [Et _].
  unfold fexact in *. pose proof (He _ _ E) as Hg. cbn in Hg. unfold fexact in Hg. cbn.
  rewrite Hx, Hg, Et. apply N.lor_diag.
Qed.

Lemma run_handler_exact {P} `{PacketOps P} h : ∀ (s : mod_tracking P) pol s',
  handler_exact h → fs_exact (mt_mods s) → run h s = Ok (pol, s') →
  compilable pol ∧ fs_exact (mt_mods s').
Proof.
  induction h as [pol | m k IH | f k IH | f k IH]; intros s pol' s' Hh Hm E; cbn [run] in E.
  - by injection E as <- <-.
  - cbn [pkt_load mod_tracking_ops] in E. unfold mt_load in E.
    destruct (pkt_load (mt_pkt s) m) as [[g q']|]; [| done]. cbn [mbind res_bind] in E.
    by eapply IH in E.
  - cbn [pkt_test mod_tracking_ops] in E. unfold mt_test in E.
    destruct (pkt_test (mt_pkt s) f) as [[g q']|]; [| done]. cbn [mbind res_bind] in E.
    by eapply IH in E.
  - destruct Hh as [Hf Hh]. cbn [pkt_modify mod_tracking_ops] in E. unfold mt_modify in E.
    destruct (pkt_modify (mt_pkt s) f) as [q|]; [| done]. cbn [mbind res_bind] in E.
    rewrite modify_ok in E by (apply Hm || apply Hf). cbn [mbind res_bind] in E.
    eapply IH in E; [done | done |]. by apply fs_exact_pmodify.
Qed.

Lemma compilable_prepend l p : Forall rfield_exact l → compilable p → compilable (prepend_mods l p).
Proof.
  unfold prepend_mods. revert p. induction l as [|f l IH]; intros p Hl Hp; cbn [fold_left]; [done |].
  apply Forall_cons_1 in Hl as [Hf Hl]. apply IH; [done |]. cbn. auto.
Qed.

Lemma elements_exact m : fs_exact m → Forall rfield_exact (elements m).
Proof.
  intros [Hw He]. apply Forall_elem. unfold elements. intros f ([k g] & -> & Hg)%list_elem_of_fmap.
  apply elem_of_map_to_list in Hg. destruct (Hw _ _ Hg) as [_ Hr]. by split; [| eapply He].
Qed.

Lemma run_tracer_compilable (h : handler) (v : vpacket) (t : trace) :
  handler_exact h → run_tracer h v = Ok t → compilable (tr_result t).
Proof.
  unfold run_tracer. intros Hh E. inv_res. destruct x as [pol s]. inv_res. cbn [tr_result set_result].
  eapply run_handler_exact in H as [Hp Hm]; [| done | by split; [apply fs_wf_empty | apply map_Forall_empty]].
  by apply compilable_prepend; [apply elements_exact |].
Qed.

Definition heap_wf (hp : heap) : Prop :=
  ∀ l d, h_store hp !! l = Some d → (l < h_next hp)%positive.

(** The tree after augmentation by the packets [vs]. *)
Definition learned (h : handler) (vs : list vpacket) (tree : tnode) (hp : heap) : Prop :=
  heap_wf hp ∧
  ∀ v t, full v → run_tracer h v = Ok t →
    fits tree (tr_values t) ∧
    match lookup_tree tree (tr_values t) with
    | None => v ∉ vs
    | Some l => ∃ d, h_store hp !! l = Some d ∧ ∀ x : vpacket, full x → outs d x ≈ₚ eval (tr_result t) x
    end.

Lemma learned_start h : learned h [] Unexplored empty_heap.
Proof.
  split; [by intros l d; cbn; rewrite lookup_empty |]. intros v t _ _.
  split; [apply fits_unexplored |]. rewrite lookup_unexplored. apply not_elem_of_nil.
Qed.

Lemma traces_paired (h : handler) (v w : vpacket) (t t' : trace) :
  handler_wf h → full v → full w → run_tracer h v = Ok t → run_tracer h w = Ok t' →
  compat (tr_values t) (tr_values t') ∧ (tr_values t = tr_values t' → t = t').
Proof.
  intros Hh Hv Hw E E'. pose proof (run_tracer_pair h v w t Hh (full_same_bound v w Hv Hw) E) as Hp.
  by rewrite E' in Hp.
Qed.

Lemma learned_packet h vs tree hp v :
  handler_wf h → handler_exact h → full v → learned h vs tree hp →
  ∃ tree' hp', converges (λ n, learn_packet n h tree hp v) (tree', hp') ∧
    learned h (v :: vs) tree' hp'.
Proof.
  intros Hh He Hv [Hhp Hl]. destruct (run_tracer_full h v Hh Hv) as [t Et].
  destruct (compile_ok (tr_result t)) as (d & Hd & Hdok & _ & _ & Hout).
  { by eapply run_tracer_compilable. }
  destruct (augment_ok false (tr_result t) d Hdok Hd (tr_values t) tree
              (Augmention ∅ 1 65535 hp [])) as (tree' & s' & Hconv & Ha).
  { by apply (Hl v t). } { by eapply run_tracer_nodes_wf. } { apply fs_wf_empty. }
  destruct Ha as ((_ & d' & Eh & Ed) & Hlk & Hfit & Hoth). cbn [a_heap] in *.
  exists tree', (a_heap s'). split.
  { destruct Hconv as [N HN]. exists N. intros n Hn. unfold learn_packet. rewrite Et. cbn [lift mbind comp_bind].
    by rewrite HN. }
  rewrite Eh. split.
  - intros l0 d0. cbn. rewrite lookup_insert_Some. intros [[<- _] | [_ H]]; [lia |].
    apply Hhp in H. lia.
  - intros w t' Hw Et'. destruct (Hl w t' Hw Et') as [Hfw Hlw].
    destruct (traces_paired h v w t t' Hh Hv Hw Et Et') as [Hc Heq].
    destruct (Hoth _ Hc Hfw) as [Hf' Hsame]. split; [done |].
    destruct (decide (tr_values t' = tr_values t)) as [E | Hne].
    + rewrite E, Hlk. assert (t = t') as <- by by apply Heq. exists d'. cbn.
      split; [by rewrite lookup_insert_eq |]. intros x Hx.
      destruct (relabelled_same d d' Ed) as (_ & _ & ->). by apply Hout.
    + rewrite Hsame by done. destruct (lookup_tree tree (tr_values t')) as [l|].
      * destruct Hlw as (d0 & Hd0 & Ho). exists d0. split; [| done]. cbn.
        rewrite lookup_insert_ne; [done |]. intros <-. apply Hhp in Hd0. lia.
      * apply not_elem_of_cons. split; [| done]. intros ->. congruence.
Qed.

Lemma learned_all h vs' : ∀ vs tree hp,
  handler_wf h → handler_exact h → Forall full vs' → learned h vs tree hp →
  ∃ tree' hp', converges (λ n, learn n h tree hp vs') (tree', hp') ∧
    learned h (rev vs' ++ vs) tree' hp'.
Proof.
  induction vs' as [|v vs' IH]; intros vs tree hp Hh He Hf Hl; cbn [learn rev].
  - exists tree, hp. split; [apply converges_const | done].
  - apply Forall_cons_1 in Hf as [Hv Hf].
    destruct (learned_packet h vs tree hp v Hh He Hv Hl) as (t1 & h1 & Hc1 & Hl1).
    destruct (IH _ _ _ Hh He Hf Hl1) as (t2 & h2 & Hc2 & Hl2).
    exists t2, h2. split; [| by rewrite <- (assoc_L (++))].
    exact (converges_bind _ (λ n '(t, hp), learn n h t hp vs') _ _ Hc1 Hc2).
Qed.

(** ** Properties *)


Lemma sample_handler_exact : handler_exact sample_handler.
Proof.
  intros f. destruct (f_val f =? 0x800)%N; cbn; [| done].
  split; (split; [split; [done | split; [by apply msk_ok_test | done]] | done]).
Qed.


(** a trace that asks otherwise than the tree: at a load or at the end of
    the trace [inconsistent_trace] is thrown, but a test that meets a leaf is
    skipped, and the leaf of another run is overwritten. *)
Theorem test_on_leaf_undetected p q f b l s :
  fs_wf (a_match s) → rfield_wf f → compilable p →
  (∀ n, augment n false [TLoad f] p (LeafNode q l) s = Raise InconsistentTrace) ∧
  (∀ n pos neg, augment n false [] p (TestNode f pos neg) s = Raise InconsistentTrace) ∧
  ∃ p' s', converges (λ n, augment n false [TTest f b] p (LeafNode q l) s)
                     (LeafNode p p', h_next (a_heap s), s') ∧ p' = Some (h_next (a_heap s)).
Proof.
  intros Hs Hf Hp. split_and!; [done | done |].
  destruct (compile_ok p Hp) as (d & Hd & Hdok & _).
  destruct (after_test_ok s f b Hs Hf) as (s1 & E1 & Hs1 & Eh).
  destruct Hd as [N HN]. eexists _, _. split; [| done]. exists N. intros n Hn.
  cbn [augment]. rewrite E1. cbn [lift mbind comp_bind finish]. rewrite HN by done.
  cbn [mbind comp_bind]. by rewrite Eh.
Qed.

Lemma test_on_leaf_undetected_witness :
  ∃ p' s', converges (λ n, augment n false [TTest (Field in_port 1 0xffffffff) true] Id
                       (LeafNode Stop None) (Augmention ∅ 1 65535 empty_heap []))
                     (LeafNode Id p', 1%positive, s').
Proof.
  destruct (test_on_leaf_undetected Id Stop (Field in_port 1 0xffffffff) true None
    (Augmention ∅ 1 65535 empty_heap [])) as (_ & _ & p' & s' & H & _); [apply fs_wf_empty | | done |].
  - split; [done | split; [by apply msk_ok_test | done]].
  - by exists p', s'.
Defined.
