(* ===== verification/LeafTraces.v ===== *)
(** * LeafTraces: the traces of a leaf's functions, retic/leaf_applier.hh and .cc

    A leaf of a diagram holds several units, each with its fields and maybe a
    function.  [getTraces] traces them all on one packet, and the tracer's
    [mergeTrace] makes one trace of them.  On functions that look at whole
    fields ([handler_whole]) the merged traces of two packets form a decision
    tree again ([merged_pair]), which is what the trace tree of the leaf
    needs. *)

From S2P Require Import Prelude Bits Oxm FieldSet Packet Policy Valuation Fdd FddCompiler.
From S2P Require Import FddCorrect FddTranslator Tracer TraceTree.

(** ** [getTraces] *)

(** The lambda around a unit's function: its fields first. *)
Definition wrapped_handler (u : action_unit) : handler :=
  fold_right HModify (match body u with Some (_, h) => h | None => HReturn Id end)
             (elements (pred_actions u)).

(** Every unit runs on its own clone of the packet. *)
Fixpoint traces_of {P} `{PacketOps P} (us : list action_unit) (orig_pkt : P) : res (list trace) :=
  match us with
  | [] => Ok []
  | u :: us =>
      t ← run_tracer (wrapped_handler u) orig_pkt;
      ts ← traces_of us orig_pkt;
      Ok (t :: ts)
  end.

Definition get_traces {P} `{PacketOps P} (l : leaf) (orig_pkt : P) : res (list trace) :=
  traces_of (sets l) orig_pkt.

(** The trace a leaf makes of a packet under the match [m] of its path. *)
Definition merged {P} `{PacketOps P} (l : leaf) (m : field_set) (pkt : P) : res trace :=
  traces ← get_traces l pkt; merge_trace traces m.

(** ** Functions that look at whole fields *)

(** Loads, tests and modifications of whole fields; the policies returned are
    without functions of their own. *)
Fixpoint handler_whole (h : handler) : Prop :=
  match h with
  | HReturn p => compilable p ∧ function_free p = true
  | HLoad m k => registered (m_type m) = true ∧ m_val m = N.ones (nbits (m_type m)) ∧
                 ∀ f, handler_whole (k f)
  | HTest f k => rfield_exact f ∧ ∀ b, handler_whole (k b)
  | HModify f k => rfield_exact f ∧ handler_whole k
  end.

(** The units [Traverser] is right on: nothing after the function. *)
Definition unit_whole (u : action_unit) : Prop :=
  unit_ok u ∧ post_actions u = None ∧
  match body u with None => True | Some (_, h) => handler_whole h end.

Lemma whole_mask m :
  registered (m_type m) = true → m_val m = N.ones (nbits (m_type m)) → rmask_wf m.
Proof. intros Hr Hm. split; [done |]. unfold mask_wf. rewrite Hm. apply msk_ok_ones. Qed.

Lemma whole_wf h : handler_whole h → handler_wf h.
Proof.
  induction h as [p | m k IH | f k IH | f k IH]; cbn.
  - intros [Hp _]. by apply compilable_wf.
  - intros (Hr & Hm & Hk). split; [by apply whole_mask | auto].
  - intros ([Hf _] & Hk). auto.
  - intros ([Hf _] & Hk). auto.
Qed.

Lemma whole_exact h : handler_whole h → handler_exact h.
Proof. induction h; cbn; naive_solver. Qed.

Lemma wrapped_whole u : unit_whole u → handler_whole (wrapped_handler u).
Proof.
  intros (Hu & _ & Hb). unfold wrapped_handler.
  assert (He : Forall rfield_exact (elements (pred_actions u))).
  { destruct u. by apply elements_exact, Hu. }
  induction He as [|f l Hf _ IH]; cbn [fold_right]; [| by split].
  destruct (body u) as [[i h]|]; [done | by split].
Qed.

Section Wrapped.
Context {P : Type} `{PacketOps P}.

Lemma heval_modifies h l (p : P) :
  heval (fold_right HModify h l) p = (p' ← pkt_modify_all p l; heval h p').
Proof.
  revert p. induction l as [|f l IH]; intros p; cbn [fold_right heval pkt_modify_all]; [done |].
  destruct (pkt_modify p f) as [p'|]; [apply IH | done].
Qed.

Lemma res_each_id (x : res (list P)) : res_each x (λ q, Ok [q]) ≈ₚ x.
Proof.
  destruct x as [l|]; [| done]. change (concat_res (map (λ q, Ok [q]) l) ≈ₚ Ok l).
  induction l as [|q l IH]; cbn [map concat_res]; [done |]. by rewrite IH.
Qed.

Lemma heval_wrapped u (p : P) : unit_whole u → heval (wrapped_handler u) p ≈ₚ unit_eval u p.
Proof.
  destruct u as [acts b post]. intros (_ & Hp & _). cbn in Hp. subst post.
  unfold wrapped_handler. cbn [body pred_actions]. rewrite heval_modifies. cbn [unit_eval].
  destruct (pkt_modify_all p (elements acts)) as [p'|]; [| done]. cbn [mbind res_bind].
  rewrite res_each_id. by destruct b as [[i h]|].
Qed.
End Wrapped.

(** ** Recorded nodes are whole fields *)

Section Exact.
Context {P : Type} `{PacketLaws P}.

(** What is not known of a whole field is all of it. *)
Lemma unexp_exact x m cache :
  set_exact cache → registered (m_type m) = true → m_val m = N.ones (nbits (m_type m)) →
  f_wildcard (unexp x m (entry cache (m_type m))) = false →
  find cache (m_type m) = None ∧ f_msk (unexp x m (entry cache (m_type m))) = N.ones (nbits (m_type m)).
Proof.
  intros [Hc He] Hr Hm Hw. unfold entry in *. destruct (find cache (m_type m)) as [g|] eqn:Eg; cbn [default] in *.
  - exfalso. destruct (fs_wf_lookup _ _ _ Hc Hr Eg) as [Et _]. pose proof (He _ _ Eg) as Hx.
    unfold fexact in Hx. apply N.eqb_neq in Hw. apply Hw. cbn. rewrite Hm, Hx, Et. cbn. Nbits.
  - split; [done |]. cbn. rewrite Hm. Nbits.
Qed.

Lemma run_nodes_exact h : ∀ (p : P) tr cache mods pol s',
  handler_whole h → set_exact cache → fs_wf mods → Forall node_exact tr →
  run h (st p tr cache mods) = Ok (pol, s') → Forall node_exact (tr_values (tp_tracer (mt_pkt s'))).
Proof.
  induction h as [pol | m k IH | f k IH | f k IH]; intros p tr cache mods pol' s' Hh Hc Hm Htr E.
  - cbn in E. by injection E as <- <-.
  - destruct Hh as (Hr & Hmo & Hk). assert (Hmk := whole_mask m Hr Hmo).
    rewrite run_load in E by (done || apply Hc). destruct (pbound p (m_type m)); [| done].
    cbv zeta in E. destruct (entry_facts cache (m_type m) (proj1 Hc) Hr) as (Et & Hw & _).
    assert (Hu := unexp_wf (pview p (m_type m)) m (entry cache (m_type m)) Hmk Hw Et).
    destruct (f_wildcard _) eqn:Ew; [by eapply IH in E |].
    destruct (unexp_exact _ _ _ Hc Hr Hmo Ew) as [Hn Hx].
    eapply IH in E; try done; [by apply set_exact_pmodify |].
    apply Forall_app. split; [done |]. by apply Forall_cons_2; [| apply Forall_nil].
  - destruct Hh as [[Hf Hfx] Hk]. rewrite run_test in E by (done || apply Hc).
    destruct (pbound p (f_type f)); [| done].
    cbv zeta in E. destruct (entry_facts cache (f_type f) (proj1 Hc) (proj1 Hf)) as (Et & Hw & _).
    assert (Hm' := mask_of_wf _ Hf).
    assert (Hu := unexp_wf (pview p (f_type f)) (mask_of f) (entry cache (f_type f)) Hm' Hw Et).
    destruct (negb _); [by eapply IH in E |]. destruct (f_wildcard _) eqn:Ew; [by eapply IH in E |].
    destruct (unexp_exact _ (mask_of f) _ Hc (proj1 Hf) Hfx Ew) as [Hn Hx].
    eapply IH in E; try done.
    + destruct (fmatch _ f); [by apply set_exact_pmodify | done].
    + apply Forall_app. split; [done |]. apply Forall_cons_2; [| by apply Forall_nil]. split.
      * apply fwiden_wf; [done | by apply mask_of_wf | done].
      * unfold fexact in *. cbn [node_field fwiden f_msk f_type mask_of m_val] in *.
        rewrite Hfx. etrans; [| apply N.land_diag]. f_equal. exact Hx.
  - destruct Hh as [Hf Hk]. rewrite run_modify in E by (done || apply Hc || apply Hf).
    destruct (pkt_modify p f) as [q|]; [| done]. cbn [mbind res_bind] in E.
    eapply IH in E; try done; [by apply fs_exact_pmodify |]. by apply pmodify_wf; [| apply Hf].
Qed.

Lemma run_tracer_exact h (p : P) t :
  handler_whole h → run_tracer h p = Ok t → Forall node_exact (tr_values t).
Proof.
  intros Hh E. destruct (run_tracer_spec h p t (whole_wf h Hh) E) as (pol & p' & c & m & Er & _).
  apply run_nodes_exact in Er; auto using fs_wf_empty. by split; [apply fs_wf_empty | intros k f Hk].
Qed.
End Exact.

(** ** Merging two packets' traces *)

Lemma compat_app l1 l1' l2 l2' : compat l1 l1' → compat l2 l2' → compat (l1 ++ l2) (l1' ++ l2').
Proof. intros H H2. induction H; cbn; [done | by constructor | by constructor]. Qed.

Lemma compat_length l l' : compat l l' → l = [] → l' = [].
Proof. by intros []. Qed.

Section MergeTwo.
Context {P : Type} `{PacketLaws P}.

Lemma same_question_type n n' :
  same_question n n' → f_type (node_field n) = f_type (node_field n').
Proof.
  destruct n as [f | f b], n' as [g | g b']; cbn; try done; [| by intros ->].
  intros E. exact (f_equal m_type E).
Qed.

Lemma set_sat_node (p : P) cache n :
  set_exact cache → node_exact n → set_sat p cache → node_sat p n →
  find cache (f_type (node_field n)) = None →
  let cache' := match n with TTest _ false => cache | _ => pmodify cache (node_field n) end in
  set_exact cache' ∧ set_sat p cache'.
Proof.
  intros Hc [Hf Hx] Hp Hn Hnone. destruct n as [f | f []]; cbn in *; try done;
    (split; [by apply set_exact_pmodify | by apply set_sat_pmodify]).
Qed.

(** One step on nodes that ask the same of two packets that satisfy the cache:
    a question already answered has one answer. *)
Lemma merge_nodes_compat (p q : P) L L' : compat L L' → ∀ cache t,
  set_exact cache → set_sat p cache → set_sat q cache →
  Forall node_exact L → Forall node_exact L' → Forall (node_sat p) L → Forall (node_sat q) L' →
  ∃ c c' new new',
    merge_nodes cache t L = Ok (c, Trace (tr_result t) (tr_values t ++ new)) ∧
    merge_nodes cache t L' = Ok (c', Trace (tr_result t) (tr_values t ++ new')) ∧
    compat new new'.
Proof.
  induction 1 as [| n L L' _ IH | n n' L L' Hq Hne]; intros cache t Hc Hp Hq' Hx Hx' Hs Hs'.
  - exists cache, cache, [], []. cbn. rewrite app_nil_r. destruct t. split_and!; try done. constructor.
  - apply Forall_cons_1 in Hx as [Hxn Hx], Hx' as [_ Hx'], Hs as [Hsn Hs], Hs' as [Hsn' Hs'].
    cbn [merge_nodes]. rewrite merge_node_exact by done. cbn [mbind res_bind].
    destruct (find cache (f_type (node_field n))) as [g|] eqn:Eg; [by apply IH |].
    destruct (set_sat_node p cache n) as [Hc1 Hp1]; try done.
    destruct (set_sat_node q cache n) as [_ Hq1]; try done.
    destruct (IH _ (Trace (tr_result t) (tr_values t ++ [n])) Hc1 Hp1 Hq1 Hx Hx' Hs Hs')
      as (c & c' & new & new' & -> & -> & Hco).
    exists c, c', (n :: new), (n :: new'). cbn [tr_result tr_values]. rewrite <- !(assoc_L (++)).
    split_and!; try done. by constructor.
  - apply Forall_cons_1 in Hx as [Hxn Hx], Hx' as [Hxn' Hx'], Hs as [Hsn Hs], Hs' as [Hsn' Hs'].
    cbn [merge_nodes]. rewrite !merge_node_exact by done. cbn [mbind res_bind].
    assert (Et := same_question_type _ _ Hq). rewrite <- Et.
    destruct (find cache (f_type (node_field n))) as [g|] eqn:Eg.
    + exfalso. apply Hne. apply (same_question_sat q); [done | | done].
      destruct (fs_wf_lookup _ _ _ (proj1 Hc) (proj1 (proj1 Hxn)) Eg) as [Etg Hg].
      assert (Hag : satb (pview p (f_type (node_field n))) (node_field n)
                    = satb (pview q (f_type (node_field n))) (node_field n)).
      { apply (exact_agree p q (node_field n) g); try done; try apply Hxn;
          [by eapply (proj2 Hc) | by eapply Hp | by eapply Hq']. }
      destruct n as [f | f b]; cbn in *; by rewrite <- Hag.
    + destruct (set_sat_node p cache n) as [Hc1 Hp1]; try done.
      destruct (set_sat_node q cache n') as [Hc1' Hq1]; try done; [by rewrite <- Et |].
      destruct (merge_nodes_exact p L _ (Trace (tr_result t) (tr_values t ++ [n])) Hc1 Hx Hp1 Hs)
        as (c & new & E & _).
      destruct (merge_nodes_exact q L' _ (Trace (tr_result t) (tr_values t ++ [n'])) Hc1' Hx' Hq1 Hs')
        as (c' & new' & E' & _).
      rewrite E, E'. exists c, c', (n :: new), (n' :: new'). cbn [tr_result tr_values].
      rewrite <- !(assoc_L (++)). split_and!; try done. by constructor.
Qed.
End MergeTwo.

(** ** The merged trace of a leaf *)

Section Merged.
Context (l : leaf) (m : field_set).
Hypothesis Hl : Forall unit_whole (sets l).
Hypothesis Hm : set_exact m.

Definition traced (us : list action_unit) (v : vpacket) (ts : list trace) : Prop :=
  Forall2 (λ u t, run_tracer (wrapped_handler u) v = Ok t) us ts.

Lemma traces_of_full us v :
  Forall unit_whole us → full v → ∃ ts, traces_of us v = Ok ts ∧ traced us v ts.
Proof.
  intros Hu Hv. induction Hu as [|u us Hu _ (ts & E & IH)]; cbn [traces_of]; [by exists []; split; [| constructor] |].
  destruct (run_tracer_full (wrapped_handler u) v) as [t Et]; [by apply whole_wf, wrapped_whole | done |].
  rewrite Et, E. exists (t :: ts). split; [done |]. by constructor.
Qed.

Lemma traced_nodes us v ts :
  Forall unit_whole us → traced us v ts →
  Forall node_exact (concat (map tr_values ts)) ∧ Forall (node_sat v) (concat (map tr_values ts)).
Proof.
  intros Hu. induction 1 as [|u t us ts Et _ IH]; cbn [map concat]; [by split; apply Forall_nil |].
  apply Forall_cons_1 in Hu as [Hu Hus]. destruct (IH Hus) as [IH1 IH2].
  assert (Hw := wrapped_whole u Hu). split; apply Forall_app; split; try done.
  - by eapply run_tracer_exact.
  - by destruct (run_tracer_spec _ _ _ (whole_wf _ Hw) Et) as (_ & _ & _ & _ & _ & _ & _ & Hs & _).
Qed.

Lemma traced_compat us v w ts ts' :
  Forall unit_whole us → full v → full w → traced us v ts → traced us w ts' →
  compat (concat (map tr_values ts)) (concat (map tr_values ts')) ∧
  (concat (map tr_values ts) = concat (map tr_values ts') → ts = ts').
Proof.
  intros Hu Hv Hw H. revert ts'. induction H as [|u t us ts Et Hts IH]; intros ts' H'.
  - inversion H'; subst. split; [constructor | done].
  - inversion H' as [|? t' ? ts2 Et' Hts']; subst. apply Forall_cons_1 in Hu as [Hu Hus].
    destruct (IH Hus ts2 Hts') as [IH1 IH2]. cbn [map concat].
    assert (Hwh := whole_wf _ (wrapped_whole u Hu)).
    destruct (traces_paired _ v w t t' Hwh Hv Hw Et Et') as [Hc He].
    split; [by apply compat_app |]. intros E.
    assert (Ev : tr_values t = tr_values t').
    { apply (compat_sat w); [done | |];
        destruct (run_tracer_spec _ _ _ Hwh Et') as (_ & _ & _ & _ & _ & _ & _ & Hs & _); [| done].
      destruct (traced_nodes (u :: us) w (t' :: ts2)) as [_ Hs2]; [by constructor | by constructor |].
      cbn [map concat] in Hs2. rewrite <- E in Hs2. by apply Forall_app in Hs2 as [? _]. }
    rewrite Ev in E. apply app_inv_head in E. f_equal; auto.
Qed.

Lemma traced_eval us v ts :
  Forall unit_whole us → full v → traced us v ts →
  concat_res (map (λ t, eval (tr_result t) v) ts) ≈ₚ concat_res (map (λ u, unit_eval u v) us).
Proof.
  intros Hu Hv. induction 1 as [|u t us ts Et _ IH]; cbn [map concat_res]; [done |].
  apply Forall_cons_1 in Hu as [Hu Hus]. rewrite (IH Hus).
  rewrite (run_tracer_result _ v t) by (done || by apply whole_wf, wrapped_whole).
  by rewrite heval_wrapped.
Qed.

(** All results in parallel. *)
Definition joined (ts : list trace) : policy :=
  match ts with
  | [] => Stop
  | first :: rest => fold_left (λ p tr, plus p (tr_result tr)) rest (tr_result first)
  end.

(** What is known of the merged trace of a packet that matches the path. *)
Definition merged_as (v : vpacket) (ts : list trace) (new : list trace_node) : Prop :=
  traced (sets l) v ts ∧
  (∃ c, merge_nodes m empty_trace (concat (map tr_values ts)) = Ok (c, Trace Stop new)) ∧
  merged l m v = Ok (Trace (joined ts) new) ∧
  Forall node_exact new ∧ Forall (node_sat v) new ∧
  ∀ w : vpacket, set_sat w m → Forall (node_sat w) new →
    Forall (node_sat w) (concat (map tr_values ts)).

Lemma merged_full v :
  sets l ≠ [] → full v → set_sat v m → ∃ ts new, merged_as v ts new.
Proof.
  intros Hne Hv Hs. destruct (traces_of_full (sets l) v Hl Hv) as (ts & E & Ht).
  destruct (traced_nodes (sets l) v ts Hl Ht) as [Hx Hsat].
  destruct (merge_nodes_exact v (concat (map tr_values ts)) m empty_trace Hm Hx Hs Hsat)
    as (c & new & Em & H1 & H2 & H3).
  exists ts, new. split_and!; [done | by exists c | | by apply H3 | done | done].
  unfold merged, get_traces. rewrite E. cbn [mbind res_bind]. unfold merge_trace. rewrite Em.
  cbn [mbind res_bind]. destruct ts; [| done]. inversion Ht. congruence.
Qed.

(** Two packets' merged traces: a decision tree, again. *)
Lemma merged_pair v w ts ts' new new' :
  full v → full w → set_sat v m → set_sat w m → merged_as v ts new → merged_as w ts' new' →
  compat new new' ∧ (new = new' → ts = ts').
Proof.
  intros Hv Hw Sv Sw (Ht & (c & E) & _ & _ & _ & H3) (Ht' & (c' & E') & _ & _ & Hs' & _).
  destruct (traced_nodes (sets l) v ts Hl Ht) as [Hx Hsat].
  destruct (traced_nodes (sets l) w ts' Hl Ht') as [Hx' Hsat'].
  destruct (traced_compat (sets l) v w ts ts' Hl Hv Hw Ht Ht') as [Hc He].
  destruct (merge_nodes_compat v w _ _ Hc m empty_trace Hm Sv Sw Hx Hx' Hsat Hsat')
    as (c1 & c1' & n1 & n1' & E1 & E1' & Hcn).
  rewrite E in E1. rewrite E' in E1'. injection E1 as _ ->. injection E1' as _ ->.
  split; [done |]. intros ->. apply He. apply (compat_sat w); [done | by apply H3 | done].
Qed.

Lemma merged_eval v ts new :
  full v → merged_as v ts new → eval (joined ts) v ≈ₚ leaf_eval l v.
Proof.
  intros Hv (Ht & _). unfold leaf_eval. rewrite <- (traced_eval (sets l) v ts Hl Hv Ht).
  destruct ts as [|first rest]; cbn [joined map concat_res]; [done |]. apply fold_plus_eval.
Qed.

Lemma plus_closed (Q : policy → Prop) a b : Q a → Q b → Q (Parallel a b) → Q (plus a b).
Proof. unfold plus. by destruct (is_stop a), (is_stop b). Qed.

Lemma run_handler_plain {P} `{PacketOps P} h : ∀ (s : P) pol s',
  handler_whole h → run h s = Ok (pol, s') → function_free pol = true.
Proof.
  induction h as [pol | mk k IH | f k IH | f k IH]; intros s pol' s' Hh E; cbn [run] in E.
  - injection E as <- _. apply Hh.
  - destruct (pkt_load s mk) as [[g q]|]; [| done]. eapply IH in E; [done | apply Hh].
  - destruct (pkt_test s f) as [[g q]|]; [| done]. eapply IH in E; [done | apply Hh].
  - destruct (pkt_modify s f) as [q|]; [| done]. eapply IH in E; [done | apply Hh].
Qed.

Lemma run_tracer_plain (h : handler) (v : vpacket) (t : trace) :
  handler_whole h → run_tracer h v = Ok t → function_free (tr_result t) = true.
Proof.
  unfold run_tracer. intros Hh E. apply res_bind_Ok in E as ([pol s] & E & E').
  apply run_handler_plain in E; [| done]. injection E' as <-. cbn [tr_result set_result].
  unfold prepend_mods. revert pol E. induction (elements (mt_mods s)) as [|f fs IH]; intros pol E;
    cbn [fold_left]; [done |]. by apply IH.
Qed.

Lemma merged_result v ts new :
  merged_as v ts new → compilable (joined ts) ∧ function_free (joined ts) = true.
Proof.
  intros (Ht & _).
  assert (Hts : Forall (λ t, compilable (tr_result t) ∧ function_free (tr_result t) = true) ts).
  { revert Hl Ht. generalize (sets l). intros us Hu. induction 1 as [|u t us ts' Et _ IH]; [by apply Forall_nil |].
    apply Forall_cons_1 in Hu as [Hu Hus]. apply Forall_cons_2; [| by apply IH].
    assert (Hw := wrapped_whole u Hu). split.
    - eapply run_tracer_compilable; [by apply whole_exact | done].
    - by eapply run_tracer_plain. }
  clear Ht. destruct ts as [|first rest]; cbn [joined]; [done |]. apply Forall_cons_1 in Hts as [Hf Hr].
  revert Hf. generalize (tr_result first). induction Hr as [|t rest Ht1 _ IH]; intros p Hp; cbn [fold_left]; [done |].
  apply IH. apply (plus_closed (λ p, compilable p ∧ function_free p = true)); [done | done |].
  cbn. destruct Hp as [? ->], Ht1 as [? ->]. done.
Qed.
End Merged.
