(* ===== verification/TraverseFdd.v ===== *)
(** * TraverseFdd: a packet-in at the diagram, retic/traverse_fdd.hh and .cc

    [Traverser] walks the diagram with the packet.  At a leaf with functions
    it asks the leaf's trace tree for the next diagram, and where there is
    none, or one made for a single packet, it traces the functions, merges
    their traces and augments the tree.  The leaf is changed in place, so the
    walk returns the diagram it leaves; the next diagram lies on the heap and
    is written back.  The recursion into it is by fuel. *)

From S2P Require Import Prelude Bits Oxm FieldSet Packet Policy Valuation Fdd FddCompiler.
From S2P Require Import FddCorrect FddTranslator Tracer TraceTree LeafTraces.

(** ** The walk *)

Section Traverse.
Context {P : Type} `{PacketOps P}.

Definition has_body (u : action_unit) : bool := match body u with Some _ => true | None => false end.

Definition with_tree (l : leaf) (t : tnode) : leaf :=
  MkLeaf (sets l) (flow_settings l) t (prio_down l) (prio_up l).

(** What a walk leaves: the leaf reached, the packet, the match collected, the
    diagram, the heap and the rules sent. *)
Record walk : Type := Walk {
  w_leaf : leaf;
  w_pkt : P;
  w_match : field_set;
  w_diagram : diagram;
  w_heap : heap;
  w_rules : list rule
}.

(** The diagram behind a location. *)
Definition deref (hp : heap) (l : loc) : res diagram :=
  match h_store hp !! l with Some d => Ok d | None => Throw Terminate end.

Definition write (hp : heap) (l : loc) (d : diagram) : heap :=
  Heap (h_next hp) (<[l := d]> (h_store hp)).

(** The trace tree has nothing for this packet, or a diagram of its own. *)
Definition needs_augment (pkt : P) (hp : heap) (next : option loc) : res bool :=
  match next with
  | None => Ok true
  | Some l => d ← deref hp l; leaf_is_temporary pkt d
  end.

(** A leaf's priorities are written by the translator; without a backend they
    are not used. *)
Definition augment_leaf (n : nat) (backend : bool) (l : leaf) (m : field_set) (hp : heap) (pkt : P)
  : comp (tnode * loc * augmention) :=
  t ← lift (merged l m pkt);
  augment n backend (tr_values t) (tr_result t) (maple_tree l)
          (Augmention m (default 0%N (prio_down l)) (default 0%N (prio_up l)) hp []).

(** The next diagram of a leaf with functions: found or made. *)
Definition next_diagram (n : nat) (backend : bool) (l : leaf) (m : field_set) (hp : heap)
    (rules : list rule) (pkt : P)
  : comp (tnode * loc * field_set * heap * list rule * P) :=
  '(found, maple_match, p1) ← lift (traverse_tree (maple_tree l) ∅ pkt);
  need ← lift (needs_augment p1 hp found);
  '(tree, next, m1, hp1, rules1) ←
    (match found, need with
     | Some next, false => Ret (maple_tree l, next, m, hp, rules)
     | _, _ =>
         '(tree, next, s) ← augment_leaf n backend l m hp p1;
         Ret (tree, next, a_match s, a_heap s, rules ++ a_rules s)
     end);
  m2 ← lift (modify_all m1 (elements maple_match));
  Ret (tree, next, m2, hp1, rules1, p1).

Fixpoint traverse_fdd (n : nat) (backend : bool) (d : diagram) (m : field_set) (hp : heap)
    (rules : list rule) (pkt : P) {struct n} : comp walk :=
  match n with
  | O => NoFuel
  | S n' =>
      match d with
      | Leaf l =>
          if existsb has_body (sets l) then
            '(tree, next, m1, hp1, rules1, p1) ← next_diagram n' backend l m hp rules pkt;
            next_fdd ← lift (deref hp1 next);
            w ← traverse_fdd n' backend next_fdd m1 hp1 rules1 p1;
            Ret (Walk (w_leaf w) (w_pkt w) (w_match w) (Leaf (with_tree l tree))
                      (write (w_heap w) next (w_diagram w)) (w_rules w))
          else Ret (Walk l pkt m d hp rules)
      | Node f p q =>
          '(b, pkt') ← lift (pkt_test pkt f);
          if b : bool then
            m' ← lift (modify m f);
            w ← traverse_fdd n' backend p m' hp rules pkt';
            Ret (Walk (w_leaf w) (w_pkt w) (w_match w) (Node f (w_diagram w) q) (w_heap w) (w_rules w))
          else
            w ← traverse_fdd n' backend q m hp rules pkt';
            Ret (Walk (w_leaf w) (w_pkt w) (w_match w) (Node f p (w_diagram w)) (w_heap w) (w_rules w))
      end
  end.
End Traverse.

(** ** The invariant of a diagram between packet-ins *)

Definition hext (hp hp' : heap) : Prop :=
  ∀ l d, h_store hp !! l = Some d → h_store hp' !! l = Some d.

(** The tree of a leaf reached by the packets of [R] under the match [m], after
    the packet-ins [vs]: it fits every packet's merged trace; a diagram it
    leads to does what the traces' policies do; it leads to one for every
    packet seen. *)
Definition leaf_learned (R : vpacket → Prop) (m : field_set) (l : leaf) (vs : list vpacket) (hp : heap)
  : Prop :=
  ∀ v ts new, full v → R v → merged_as l m v ts new →
    fits (maple_tree l) new ∧
    match lookup_tree (maple_tree l) new with
    | None => v ∉ vs
    | Some loc => ∃ d, h_store hp !! loc = Some d ∧ dok d ∧ dpure d ∧
        ∀ x : vpacket, full x → outs d x ≈ₚ eval (joined ts) x
    end.

Fixpoint dinv (R : vpacket → Prop) (m : field_set) (d : diagram) (vs : list vpacket) (hp : heap) : Prop :=
  match d with
  | Leaf l => Forall unit_whole (sets l) ∧
              (existsb has_body (sets l) = true → leaf_learned R m l vs hp)
  | Node f p q =>
      rfield_exact f ∧
      dinv (λ v, R v ∧ satb (vview v (f_type f)) f = true) (pmodify m f) p vs hp ∧
      dinv (λ v, R v ∧ satb (vview v (f_type f)) f = false) m q vs hp
  end.

(** The match of a path. *)
Definition path_inv (R : vpacket → Prop) (m : field_set) : Prop :=
  set_exact m ∧ ∀ v, R v → set_sat v m.

Lemma path_inv_start : path_inv (λ _, True) ∅.
Proof. split; [by split; [apply fs_wf_empty | intros k f Hk] | by intros v _ k f Hk]. Qed.

Lemma set_sat_fs_satb (v : vpacket) fs : set_sat v fs ↔ fs_satb fs v = true.
Proof. by rewrite fs_satb_spec. Qed.

Lemma path_inv_positive R m f :
  path_inv R m → rfield_exact f →
  path_inv (λ v, R v ∧ satb (vview v (f_type f)) f = true) (pmodify m f).
Proof.
  intros [Hm Hs] Hf. split; [by apply fs_exact_pmodify |]. intros v [Hv Hsat].
  apply set_sat_fs_satb, fs_satb_modify; [apply Hm | apply Hf | by apply set_sat_fs_satb, Hs | done].
Qed.

Lemma path_inv_negative R m f :
  path_inv R m → path_inv (λ v, R v ∧ satb (vview v (f_type f)) f = false) m.
Proof. intros [Hm Hs]. split; [done |]. intros v [Hv _]. by apply Hs. Qed.

Lemma dinv_mono d : ∀ R m vs hp hp', hext hp hp' → dinv R m d vs hp → dinv R m d vs hp'.
Proof.
  induction d as [l | f p IHp q IHq]; intros R m vs hp hp' Hx; cbn [dinv].
  - intros [Hl Hi]. split; [done |]. intros Hb v ts new Hv HR Hts.
    destruct (Hi Hb v ts new Hv HR Hts) as [Hf Hlk]. split; [done |].
    destruct (lookup_tree _ _); [| done]. destruct Hlk as (d & Hd & H). exists d. split; [by apply Hx | done].
  - intros (Hf & Hp & Hq). split_and!; [done | by eapply IHp | by eapply IHq].
Qed.

(** A packet that does not come this way changes nothing here. *)
Lemma dinv_other d : ∀ R m vs hp w, ¬ R w → dinv R m d vs hp → dinv R m d (w :: vs) hp.
Proof.
  induction d as [l | f p IHp q IHq]; intros R m vs hp w Hw; cbn [dinv].
  - intros [Hl Hi]. split; [done |]. intros Hb v ts new Hv HR Hts.
    destruct (Hi Hb v ts new Hv HR Hts) as [Hf Hlk]. split; [done |].
    destruct (lookup_tree _ _); [done |]. apply not_elem_of_cons. split; [| done]. intros ->. by apply Hw.
  - intros (Hf & Hp & Hq). split_and!; [done | apply IHp; naive_solver | apply IHq; naive_solver].
Qed.

(** ** Walking a diagram without functions *)

Lemma dpure_no_body l : Forall (λ a, body a = None) l → existsb has_body l = false.
Proof. induction 1 as [|a l Ha _ IH]; cbn; [done |]. unfold has_body at 1. by rewrite Ha. Qed.

Lemma traverse_pure backend d : ∀ m hp rules v,
  dok d → dpure d → full v → fs_wf m →
  ∃ m', converges (λ n, traverse_fdd n backend d m hp rules v) (Walk (leaf_at d v) v m' d hp rules) ∧
    fs_wf m' ∧ (fs_satb m v = true → fs_satb m' v = true).
Proof.
  induction d as [l | f p IHp q IHq]; intros m hp rules v Hd Hp Hv Hm.
  - exists m. split; [| done]. exists 1. intros [|n] Hn; [lia |]. cbn [traverse_fdd].
    by rewrite dpure_no_body.
  - destruct Hd as (Hf & Hdp & Hdq), Hp as (Pp & Pq). cbn [leaf_at].
    destruct (satb (vview v (f_type f)) f) eqn:Es.
    + destruct (IHp (pmodify m f) hp rules v Hdp Pp Hv) as (m' & [N HN] & Hw & Hs);
        [by apply pmodify_wf; [| apply Hf] |].
      exists m'. split_and!; [| done |].
      * exists (S N). intros [|n] Hn; [lia |]. cbn [traverse_fdd].
        rewrite vtest by (done || apply Hf). cbn [lift mbind comp_bind]. rewrite Es.
        rewrite modify_ok by (done || apply Hf). cbn [lift mbind comp_bind]. rewrite HN by lia. done.
      * intros H. apply Hs, fs_satb_modify; [done | apply Hf | done | done].
    + destruct (IHq m hp rules v Hdq Pq Hv Hm) as (m' & [N HN] & Hw & Hs).
      exists m'. split_and!; [| done | done]. exists (S N). intros [|n] Hn; [lia |]. cbn [traverse_fdd].
      rewrite vtest by (done || apply Hf). cbn [lift mbind comp_bind]. rewrite Es, HN by lia. done.
Qed.

(** ** One packet-in at a leaf with functions *)

Lemma modify_all_wf l : ∀ m, fs_wf m → Forall rfield_wf l → ∃ m', modify_all m l = Ok m' ∧ fs_wf m'.
Proof.
  induction l as [|f l IH]; intros m Hm Hl; cbn [modify_all]; [by exists m |].
  apply Forall_cons_1 in Hl as [Hf Hl]. rewrite modify_ok by done. cbn [mbind res_bind].
  apply IH; [by apply pmodify_wf | done].
Qed.

Lemma elements_wf m : fs_wf m → Forall rfield_wf (elements m).
Proof.
  intros Hw. apply Forall_elem. unfold elements. intros f ([k g] & -> & Hg)%list_elem_of_fmap.
  apply elem_of_map_to_list in Hg. by destruct (Hw _ _ Hg).
Qed.

(** The leaf's tree has the diagram [next] for the packet. *)
Definition tree_has (tree : tnode) (v : vpacket) (next : loc) : Prop :=
  ∃ mm, traverse_tree tree ∅ v = Ok (Some next, mm, v) ∧ fs_wf mm.

Section LeafStep.
Context (backend : bool) (R : vpacket → Prop) (m : field_set) (l : leaf) (vs : list vpacket) (hp : heap).
Context (v : vpacket).
Hypothesis Hl : Forall unit_whole (sets l).
Hypothesis Hb : existsb has_body (sets l) = true.
Hypothesis Hpath : path_inv R m.
Hypothesis Hlearn : leaf_learned R m l vs hp.
Hypothesis Hhp : heap_wf hp.
Hypothesis Hv : full v.
Hypothesis HR : R v.

Lemma leaf_nonempty : sets l ≠ [].
Proof. intros E. by rewrite E in Hb. Qed.

Lemma tree_traversed tree ts new :
  fits tree new → merged_as l m v ts new →
  ∃ mm, traverse_tree tree ∅ v = Ok (lookup_tree tree new, mm, v) ∧ fs_wf mm.
Proof.
  intros Hf (_ & _ & _ & Hx & Hs & _).
  destruct (traverse_tree_ok v new Hv Hs) with (t := tree) (m := (∅ : field_set)) as (mm & E & Hw & _).
  - eapply Forall_impl; [| exact Hx]. by intros n [Hn _].
  - done.
  - apply fs_wf_empty.
  - by exists mm.
Qed.

(** What is true after the tree was asked or augmented. *)
Definition leaf_done (tree : tnode) (next : loc) (m1 : field_set) (hp1 : heap) : Prop :=
  fs_wf m1 ∧ heap_wf hp1 ∧ hext hp hp1 ∧ leaf_learned R m (with_tree l tree) (v :: vs) hp1 ∧
  tree_has tree v next ∧
  ∃ d1, h_store hp1 !! next = Some d1 ∧ dok d1 ∧ dpure d1 ∧ outs d1 v ≈ₚ leaf_eval l v.

Lemma augment_leaf_ok :
  ∃ tree next s, converges (λ n, augment_leaf n backend l m hp v) (tree, next, s) ∧
    leaf_done tree next (a_match s) (a_heap s).
Proof.
  destruct (merged_full l m Hl (proj1 Hpath) v leaf_nonempty Hv (proj2 Hpath v HR)) as (ts & new & Hmg).
  pose proof Hmg as (_ & _ & Em & Hx & _).
  destruct (merged_result l m Hl v ts new Hmg) as [Hc Hff].
  destruct (compile_ok (joined ts) Hc) as (d & Hd & Hdok & _ & Hdp & Hout).
  destruct (Hlearn v ts new Hv HR Hmg) as [Hfit _].
  destruct (augment_ok backend (joined ts) d Hdok Hd new (maple_tree l)
    (Augmention m (default 0%N (prio_down l)) (default 0%N (prio_up l)) hp []))
    as (tree & s & [N HN] & (Hmw & d1 & Eh & Hd1) & Hlk & Hfit' & Hoth); [done | | apply (proj1 Hpath) |].
  { eapply Forall_impl; [| exact Hx]. by intros n [Hn _]. }
  cbn [a_heap] in *. destruct (relabelled_same d d1 Hd1) as (K1 & P1 & O1).
  exists tree, (h_next hp), s. split.
  { exists N. intros n Hn. unfold augment_leaf. rewrite Em. cbn [lift mbind comp_bind tr_values tr_result].
    by apply HN. }
  assert (Hdiag : h_store (a_heap s) !! h_next hp = Some d1) by (rewrite Eh; cbn; by rewrite lookup_insert_eq).
  assert (Hext : hext hp (a_heap s)).
  { intros k e He. rewrite Eh. cbn. rewrite lookup_insert_ne; [done |]. intros <-. apply Hhp in He. lia. }
  split_and!; [done | | done | | |].
  - rewrite Eh. intros k e. cbn. rewrite lookup_insert_Some. intros [[<- _] | [_ He]]; [lia |].
    apply Hhp in He. lia.
  - intros w ts' new' Hw HRw Hmg'. change (merged_as l m w ts' new') in Hmg'.
    cbn [maple_tree with_tree]. destruct (Hlearn w ts' new' Hw HRw Hmg') as [Hfw Hlw].
    destruct (merged_pair l m Hl (proj1 Hpath) v w ts ts' new new' Hv Hw (proj2 Hpath v HR)
      (proj2 Hpath w HRw) Hmg Hmg') as [Hco Heq].
    destruct (Hoth new' Hco Hfw) as [Hf' Hsame]. split; [done |].
    destruct (decide (new' = new)) as [-> | Hne].
    + rewrite Hlk. rewrite <- (Heq eq_refl). exists d1. split_and!; [done | auto | auto |].
      intros x Hx'. rewrite O1. by apply Hout.
    + rewrite Hsame by done. destruct (lookup_tree (maple_tree l) new') as [k|].
      * destruct Hlw as (e & He & Hrest). exists e. split; [by apply Hext | done].
      * apply not_elem_of_cons. split; [| done]. intros ->.
        destruct Hmg as (_ & _ & Em1 & _), Hmg' as (_ & _ & Em2 & _). rewrite Em1 in Em2. congruence.
  - destruct (tree_traversed tree ts new Hfit' Hmg) as (mm & E & Hw). exists mm. by rewrite E, Hlk.
  - exists d1. split_and!; [done | auto | auto |].
    rewrite O1, Hout by done. by eapply merged_eval.
Qed.

(** A diagram that is there and not for one packet only is kept. *)
Lemma leaf_found found :
  traverse_tree (maple_tree l) ∅ v = Ok found → ∀ next mm, found = (Some next, mm, v) → fs_wf mm →
  leaf_done (maple_tree l) next m hp.
Proof.
  intros E next mm -> Hmm.
  destruct (merged_full l m Hl (proj1 Hpath) v leaf_nonempty Hv (proj2 Hpath v HR)) as (ts & new & Hmg).
  destruct (Hlearn v ts new Hv HR Hmg) as [Hfit Hlk].
  destruct (tree_traversed (maple_tree l) ts new Hfit Hmg) as (mm' & E' & _).
  rewrite E in E'. injection E' as En _. rewrite <- En in Hlk.
  destruct Hlk as (d1 & Hd1 & Hk & Hp & Ho).
  split_and!; [apply (proj1 Hpath) | done | by intros ? | | by exists mm |].
  - intros w ts' new' Hw HRw Hmg'. change (merged_as l m w ts' new') in Hmg'.
    cbn [maple_tree with_tree]. destruct (Hlearn w ts' new' Hw HRw Hmg') as [Hfw Hlw].
    split; [done |]. destruct (lookup_tree (maple_tree l) new') as [k|] eqn:Ek; [done |].
    apply not_elem_of_cons. split; [| done]. intros ->.
    destruct Hmg as (_ & _ & Em1 & _), Hmg' as (_ & _ & Em2 & _). rewrite Em1 in Em2. congruence.
  - exists d1. split_and!; [done.. |]. rewrite Ho by done. by eapply merged_eval.
Qed.

Lemma next_diagram_ok rules :
  ∃ tree next m1 hp1 rules1,
    converges (λ n, next_diagram n backend l m hp rules v) (tree, next, m1, hp1, rules1, v) ∧
    leaf_done tree next m1 hp1.
Proof.
  destruct (merged_full l m Hl (proj1 Hpath) v leaf_nonempty Hv (proj2 Hpath v HR)) as (ts & new & Hmg).
  destruct (Hlearn v ts new Hv HR Hmg) as [Hfit Hlk].
  destruct (tree_traversed (maple_tree l) ts new Hfit Hmg) as (mm & E & Hmm).
  assert (Hall : ∀ m1, fs_wf m1 → ∃ m2, modify_all m1 (elements mm) = Ok m2 ∧ fs_wf m2).
  { intros m1 H1. apply modify_all_wf; [done | by apply elements_wf]. }
  assert (∃ need, needs_augment v hp (lookup_tree (maple_tree l) new) = Ok need ∧
    (need = false → is_Some (lookup_tree (maple_tree l) new))) as (need & En & Hneed).
  { destruct (lookup_tree (maple_tree l) new) as [k|]; [| by exists true].
    destruct Hlk as (d & Hd & Hk & _). unfold needs_augment, deref. rewrite Hd. cbn [mbind res_bind].
    unfold leaf_is_temporary. rewrite plain_traverse_leaf_at by done. cbn [mbind res_bind].
    eexists. split; [done |]. by eexists. }
  assert (Hmain : ∃ tree next m1 hp1 rules1,
    converges (λ n, match lookup_tree (maple_tree l) new, need with
     | Some next, false => Ret (maple_tree l, next, m, hp, rules)
     | _, _ =>
         '(tree, next, s) ← augment_leaf n backend l m hp v;
         Ret (tree, next, a_match s, a_heap s, rules ++ a_rules s)
     end) (tree, next, m1, hp1, rules1) ∧ leaf_done tree next m1 hp1).
  { destruct augment_leaf_ok as (tree & next & s & [N HN] & Hdone).
    destruct (lookup_tree (maple_tree l) new) as [k|] eqn:Ek; [destruct need |].
    2: { exists (maple_tree l), k, m, hp, rules. split; [apply converges_const |]. by eapply leaf_found. }
    all: exists tree, next, (a_match s), (a_heap s), (rules ++ a_rules s); split; [| done];
      exists N; intros n Hn; by rewrite HN. }
  destruct Hmain as (tree & next & m1 & hp1 & rules1 & [N HN] & Hdone).
  destruct (Hall m1) as (m2 & E2 & Hm2); [apply Hdone |].
  exists tree, next, m2, hp1, rules1. split; [| by destruct Hdone as (_ & ?)].
  exists N. intros n Hn. unfold next_diagram. rewrite E. cbn [lift mbind comp_bind].
  rewrite En. cbn [lift mbind comp_bind]. rewrite HN by done. cbn [mbind comp_bind]. by rewrite E2.
Qed.
End LeafStep.

(** ** One packet-in at a diagram *)

(** The packet's way through the diagram, and from its leaf through the tree,
    is there already and ends in [lf]. *)
Fixpoint settled (d : diagram) (hp : heap) (v : vpacket) (lf : leaf) : Prop :=
  match d with
  | Leaf l =>
      if existsb has_body (sets l) then
        ∃ next d1, tree_has (maple_tree l) v next ∧ h_store hp !! next = Some d1 ∧
          dok d1 ∧ dpure d1 ∧ lf = leaf_at d1 v
      else lf = l
  | Node f p q =>
      rfield_exact f ∧
      if satb (vview v (f_type f)) f then settled p hp v lf else settled q hp v lf
  end.

Lemma write_same hp next d : h_store hp !! next = Some d → write hp next d = hp.
Proof. intros E. unfold write. rewrite insert_id by done. by destruct hp. Qed.

Lemma with_same_tree l : with_tree l (maple_tree l) = l.
Proof. by destruct l. Qed.

Lemma leaf_at_no_body d v : dpure d → existsb has_body (sets (leaf_at d v)) = false.
Proof.
  induction d as [l | f p IHp q IHq]; cbn [leaf_at dpure]; [by apply dpure_no_body |].
  intros [Hp Hq]. destruct (satb _ f); auto.
Qed.

Lemma leaf_at_outs d v : dok d → full v → leaf_eval (leaf_at d v) v = outs d v.
Proof.
  intros Hd Hv. rewrite outs_plain_traverse, plain_traverse_leaf_at by done. done.
Qed.

(** What one packet-in leaves. *)
Definition stepped (R : vpacket → Prop) (m : field_set) (d : diagram) (vs : list vpacket) (hp : heap)
    (v : vpacket) (w : walk (P := vpacket)) : Prop :=
  w_pkt w = v ∧ hext hp (w_heap w) ∧ heap_wf (w_heap w) ∧
  dinv R m (w_diagram w) (v :: vs) (w_heap w) ∧
  existsb has_body (sets (w_leaf w)) = false ∧
  leaf_eval (w_leaf w) v ≈ₚ outs d v ∧
  (∀ x : vpacket, outs (w_diagram w) x = outs d x) ∧
  settled (w_diagram w) (w_heap w) v (w_leaf w).

Lemma traverse_leaf_step backend R m l vs hp rules v :
  path_inv R m → dinv R m (Leaf l) vs hp → heap_wf hp → full v → R v →
  ∃ w, converges (λ n, traverse_fdd n backend (Leaf l) m hp rules v) w ∧ stepped R m (Leaf l) vs hp v w.
Proof.
  intros Hpath [Hl Hlearn] Hhp Hv HR. destruct (existsb has_body (sets l)) eqn:Eb.
  - destruct (next_diagram_ok backend R m l vs hp v Hl Eb Hpath (Hlearn eq_refl) Hhp Hv HR rules)
      as (tree & next & m1 & hp1 & rules1 & [N HN] & Hm1 & Hhp1 & Hx & Hll & Hth & d1 & Hd1 & Hk & Hp & Ho).
    destruct (traverse_pure backend d1 m1 hp1 rules1 v Hk Hp Hv Hm1) as (m' & [M HM] & _).
    exists (Walk (leaf_at d1 v) v m' (Leaf (with_tree l tree)) hp1 rules1). split.
    + exists (S (N + M)). intros [|n] Hn; [lia |]. cbn [traverse_fdd]. rewrite Eb, HN by lia.
      cbn [mbind comp_bind lift]. unfold deref. rewrite Hd1. cbn [mbind comp_bind lift].
      rewrite HM by lia. cbn [mbind comp_bind w_leaf w_pkt w_match w_diagram w_heap w_rules].
      by rewrite write_same.
    + split_and!; cbn [w_pkt w_heap w_leaf w_diagram dinv settled sets with_tree maple_tree];
        [done | done | done | by split | by apply leaf_at_no_body | | done | rewrite Eb; eauto 10].
      rewrite leaf_at_outs by done. apply Ho.
  - exists (Walk l v m (Leaf l) hp rules). split.
    + exists 1. intros [|n] Hn; [lia |]. cbn [traverse_fdd]. by rewrite Eb.
    + split_and!; cbn [w_pkt w_heap w_leaf w_diagram dinv settled];
        [done | by intros ? | done | | done | done | done | by rewrite Eb].
      split; [done |]. congruence.
Qed.

Lemma traverse_step backend d : ∀ R m vs hp rules v,
  path_inv R m → dinv R m d vs hp → heap_wf hp → full v → R v →
  ∃ w, converges (λ n, traverse_fdd n backend d m hp rules v) w ∧ stepped R m d vs hp v w.
Proof.
  induction d as [l | f p IHp q IHq]; intros R m vs hp rules v Hpath Hd Hhp Hv HR.
  { by apply traverse_leaf_step. }
  destruct Hd as (Hf & Hdp & Hdq). pose proof (proj1 (proj1 Hpath)) as Hmw.
  assert (Hout : ∀ (d : diagram) (x : vpacket), outs (Node f p q) x =
    ('(b, x') ← pkt_test x f; if b : bool then outs p x' else outs q x')) by done.
  destruct (satb (vview v (f_type f)) f) eqn:Es.
  - destruct (IHp _ _ vs hp rules v (path_inv_positive R m f Hpath Hf) Hdp Hhp Hv (conj HR Es))
      as (w & [N HN] & Hw & Hx & Hwf & Hi & Hb & Hev & Ho & Hs).
    exists (Walk (w_leaf w) (w_pkt w) (w_match w) (Node f (w_diagram w) q) (w_heap w) (w_rules w)). split.
    + exists (S N). intros [|n] Hn; [lia |]. cbn [traverse_fdd].
      rewrite vtest by (done || apply Hf). cbn [lift mbind comp_bind]. rewrite Es, modify_ok by (done || apply Hf).
      cbn [lift mbind comp_bind]. by rewrite HN by lia.
    + split_and!; cbn [w_pkt w_heap w_leaf w_diagram dinv settled]; try done.
      * split_and!; [done | done |]. apply dinv_other; [by rewrite Es; intros [_ ?] |]. by eapply dinv_mono.
      * rewrite Hev, outs_node by (done || apply Hf). by rewrite Es.
      * intros x. cbn [outs]. destruct (pkt_test x f) as [[[] x']|]; cbn [mbind res_bind]; auto.
      * by rewrite Es.
  - destruct (IHq _ _ vs hp rules v (path_inv_negative R m f Hpath) Hdq Hhp Hv (conj HR Es))
      as (w & [N HN] & Hw & Hx & Hwf & Hi & Hb & Hev & Ho & Hs).
    exists (Walk (w_leaf w) (w_pkt w) (w_match w) (Node f p (w_diagram w)) (w_heap w) (w_rules w)). split.
    + exists (S N). intros [|n] Hn; [lia |]. cbn [traverse_fdd].
      rewrite vtest by (done || apply Hf). cbn [lift mbind comp_bind]. rewrite Es. by rewrite HN by lia.
    + split_and!; cbn [w_pkt w_heap w_leaf w_diagram dinv settled]; try done.
      * split_and!; [done | | done]. apply dinv_other; [by rewrite Es; intros [_ ?] |]. by eapply dinv_mono.
      * rewrite Hev, outs_node by (done || apply Hf). by rewrite Es.
      * intros x. cbn [outs]. destruct (pkt_test x f) as [[[] x']|]; cbn [mbind res_bind]; auto.
      * by rewrite Es.
Qed.

Lemma traverse_settled backend d : ∀ m hp rules v lf,
  settled d hp v lf → full v → fs_wf m → hard_timeout (flow_settings lf) ≠ 0%N →
  ∃ m', converges (λ n, traverse_fdd n backend d m hp rules v) (Walk lf v m' d hp rules).
Proof.
  induction d as [l | f p IHp q IHq]; intros m hp rules v lf Hs Hv Hm Ht; cbn [settled] in Hs.
  - destruct (existsb has_body (sets l)) eqn:Eb.
    + destruct Hs as (next & d1 & (mm & E & Hmm) & Hd1 & Hk & Hp & ->).
      destruct (modify_all_wf (elements mm) m Hm (elements_wf mm Hmm)) as (m2 & E2 & Hm2).
      destruct (traverse_pure backend d1 m2 hp rules v Hk Hp Hv Hm2) as (m' & [M HM] & _).
      exists m', (S M). intros [|n] Hn; [lia |]. cbn [traverse_fdd]. rewrite Eb.
      unfold next_diagram. rewrite E. cbn [lift mbind comp_bind]. unfold needs_augment, deref. rewrite Hd1.
      cbn [mbind res_bind]. unfold leaf_is_temporary. rewrite plain_traverse_leaf_at by done.
      cbn [mbind res_bind lift comp_bind]. rewrite (proj2 (N.eqb_neq _ _) Ht).
      cbn [mbind comp_bind]. rewrite E2. cbn [lift mbind comp_bind]. rewrite Hd1. cbn [lift mbind comp_bind].
      rewrite HM by lia. cbn [mbind comp_bind w_leaf w_pkt w_match w_diagram w_heap w_rules].
      by rewrite write_same, with_same_tree.
    + subst lf. exists m, 1. intros [|n] Hn; [lia |]. cbn [traverse_fdd]. by rewrite Eb.
  - destruct Hs as [Hf Hs]. destruct (satb (vview v (f_type f)) f) eqn:Es.
    + destruct (IHp (pmodify m f) hp rules v lf Hs Hv) as (m' & [N HN]);
        [by apply pmodify_wf; [| apply Hf] | done |].
      exists m', (S N). intros [|n] Hn; [lia |]. cbn [traverse_fdd].
      rewrite vtest by (done || apply Hf). cbn [lift mbind comp_bind]. rewrite Es, modify_ok by (done || apply Hf).
      cbn [lift mbind comp_bind]. by rewrite HN by lia.
    + destruct (IHq m hp rules v lf Hs Hv Hm Ht) as (m' & [N HN]).
      exists m', (S N). intros [|n] Hn; [lia |]. cbn [traverse_fdd].
      rewrite vtest by (done || apply Hf). cbn [lift mbind comp_bind]. rewrite Es. by rewrite HN by lia.
Qed.
