(* ===== verification/PacketIn.v ===== *)
(** * PacketIn: the compiled policy under packet-ins

    What the parts of retic do together: compile a policy, maybe translate the
    diagram, and walk it for every packet-in.  On policies whose functions
    come last and look at whole fields ([runnable]) the walk of every packet,
    whatever packets came before, ends in a leaf that sends on what the policy
    does ([packet_in_correct]), and the second walk of a packet finds
    everything in place.  Where a policy does something after a function the
    run time loses it ([post_actions_lost]). *)

From S2P Require Import Prelude Bits Oxm FieldSet Packet Policy Valuation Fdd FddCompiler.
From S2P Require Import FddCorrect FddTranslator Tracer TraceTree LeafTraces TraverseFdd.

(** ** The policies *)

Fixpoint runnable (p : policy) : Prop :=
  match p with
  | Stop | Id | Flow _ => True
  | Filter f | Modify f => rfield_exact f
  | Negation q => compilable q ∧ function_free q = true
  | PacketFunction _ h => handler_whole h
  | Sequential a b => runnable a ∧ runnable b ∧ function_free a = true
  | Parallel a b => runnable a ∧ runnable b
  end.

Lemma runnable_compilable p : runnable p → compilable p.
Proof. induction p; cbn; try tauto. apply whole_wf. Qed.

Lemma free_runnable p : compilable p → function_free p = true → runnable p.
Proof.
  induction p; cbn; try done; intros Hc Hf.
  - destruct Hc as (Ha & Hb & _). apply andb_true_iff in Hf as [Fa Fb]. auto.
  - destruct Hc as (Ha & Hb). apply andb_true_iff in Hf as [Fa Fb]. auto.
Qed.

(** ** The diagrams *)

Definition unit_last (u : action_unit) : Prop :=
  post_actions u = None ∧ match body u with None => True | Some (_, h) => handler_whole h end.

Definition unit_pure (u : action_unit) : Prop := body u = None.

(** Fresh trace trees, and units of one kind. *)
Fixpoint fresh (Q : action_unit → Prop) (d : diagram) : Prop :=
  match d with
  | Leaf l => maple_tree l = Unexplored ∧ Forall Q (sets l)
  | Node _ p n => fresh Q p ∧ fresh Q n
  end.

Ltac inv_comp :=
  repeat match goal with
  | H : (_ ≫= _) = Ret _ |- _ => apply comp_bind_Ret in H as (? & ? & H)
  | H : Ret _ = Ret _ |- _ => injection H as <-
  end.

Section Fresh.
Context (Q : action_unit → Prop).
Hypothesis Qunit : ∀ acts, Q (unit_of acts).
Hypothesis Qacts : ∀ acts u, Q u → Q (ActionUnit acts (body u) (post_actions u)).

Lemma par_fresh n : ∀ l r d, par n l r = Ret d → fresh Q l → fresh Q r → fresh Q d.
Proof.
  induction n as [|n IH]; intros l r d E Hl Hr; [done |]. cbn [par] in E.
  destruct l as [l | f lp ln], r as [r | g rp rn].
  - injection E as <-. split; [done |]. cbn. destruct Hl, Hr. by apply Forall_app.
  - by eapply IH.
  - inv_comp. destruct Hl. split; eauto.
  - pose proof Hl as [Hlp Hln]. pose proof Hr as [Hrp Hrn].
    destruct (field_eqb f g); [inv_comp; split; eauto |].
    destruct (type_eqb _ _); [destruct (value_ltb f g) | destruct (compare_types _ _ >? 0)%Z];
      solve [by eapply IH | inv_comp; split; eauto].
Qed.

Lemma applier_fresh a d : ∀ d',
  left_action_applier a d = Ok d' → body a = None → fresh Q d → fresh Q d'.
Proof.
  intros d' E Ha. revert d' E. induction d as [l | f p IHp n IHn]; intros d' E Hd; cbn [left_action_applier] in E.
  - apply res_bind_Ok in E as (s & E & [= <-]). destruct Hd as [_ Hd]. split; [done |]. cbn.
    revert s E. induction Hd as [|u us Hu _ IH]; intros s E; cbn [mapM_res] in E.
    + injection E as <-. by apply Forall_nil.
    + apply res_bind_Ok in E as (b & Eb & E). apply res_bind_Ok in E as (bs & Ebs & [= <-]).
      apply Forall_cons_2; [| by apply IH]. destruct a as [acts bd post]. cbn in Ha. subst bd.
      cbn [seq_actions] in Eb. apply res_bind_Ok in Eb as (x & _ & [= <-]). by apply Qacts.
  - destruct Hd as [Hp Hn]. destruct (find _ _) as [g|].
    + destruct (field_eqb g f); eauto.
    + apply res_bind_Ok in E as (p' & Ep & E). apply res_bind_Ok in E as (n' & En & [= <-]).
      split; eauto.
Qed.

Lemma empty_fresh s : fresh Q (Leaf (new_leaf [] s)).
Proof. split; [done | by apply Forall_nil]. Qed.

Lemma restriction_fresh f d b : fresh Q d → fresh Q (restriction f d b).
Proof.
  assert (He : fresh Q (Leaf empty_leaf)) by apply empty_fresh.
  unfold restriction. destruct b; induction d as [l | g p IHp n IHn]; intros Hd;
    cbn [applier_true applier_false]; try done; destruct Hd as [Hp Hn];
    repeat case_match; cbn in *; auto.
Qed.

Lemma seqd_fresh n l : ∀ r d,
  seqd n l r = Ret d → fresh unit_pure l → fresh Q r → fresh Q d.
Proof.
  induction l as [l | f lp IHp ln IHn]; intros r d E Hl Hr; cbn [seqd] in E.
  - unfold seq_leaf in E. destruct (sets l) as [|u us] eqn:Es.
    { injection E as <-. apply empty_fresh. }
    rewrite <- Es in E. destruct Hl as [_ Hp]. revert E.
    assert (Hacc := empty_fresh (flow_settings l)).
    revert Hacc Hp. clear Es. generalize (Leaf (new_leaf [] (flow_settings l))). generalize (sets l).
    intros us'. induction us' as [|u' us' IH]; intros acc Hacc Hp E; cbn [seq_units] in E.
    + by injection E as <-.
    + apply Forall_cons_1 in Hp as [Hu Hp]. inv_comp.
      destruct (left_action_applier u' r) as [c|] eqn:Ec; [cbn [lift] in H; injection H as <- | done].
      eapply IH; [| done | done]. eapply par_fresh; [done | done |]. by eapply applier_fresh.
  - destruct Hl. inv_comp. eapply par_fresh; [done | |]; apply restriction_fresh; eauto.
Qed.

Lemma negd_fresh d : fresh unit_pure d → fresh Q (negd d).
Proof.
  induction d as [l | f p IHp n IHn]; cbn; [| naive_solver]. intros _. unfold neg_leaf.
  destruct (sets l); cbn; (split; [done |]); [by apply Forall_cons_2; [| apply Forall_nil] | by apply Forall_nil].
Qed.

Lemma leaf_of_fresh u : Q u → fresh Q (leaf_of u).
Proof. intros H. split; [done |]. by apply Forall_cons_2; [| apply Forall_nil]. Qed.
End Fresh.

Lemma compile_free p : ∀ n d, compile n p = Ret d → function_free p = true → fresh unit_pure d.
Proof.
  assert (Hu : ∀ acts, unit_pure (unit_of acts)) by done.
  assert (Ha : ∀ acts u, unit_pure u → unit_pure (ActionUnit acts (body u) (post_actions u))) by done.
  induction p as [| | f | f | s | q IH | i h | a IHa b IHb | a IHa b IHb]; intros n d E Hf;
    cbn [compile] in E; cbn in Hf; try done; inv_comp.
  - apply empty_fresh.
  - by apply leaf_of_fresh.
  - split; [by apply leaf_of_fresh | apply empty_fresh].
  - by apply leaf_of_fresh.
  - split; [done |]. by apply Forall_cons_2; [| apply Forall_nil].
  - apply negd_fresh; eauto.
  - apply andb_true_iff in Hf as [Fa Fb]. eapply seqd_fresh; eauto.
  - apply andb_true_iff in Hf as [Fa Fb]. eapply par_fresh; eauto.
Qed.

Lemma compile_fresh p : ∀ n d, compile n p = Ret d → runnable p → fresh unit_last d.
Proof.
  assert (Hu : ∀ acts, unit_last (unit_of acts)) by by intros.
  assert (Ha : ∀ acts u, unit_last u → unit_last (ActionUnit acts (body u) (post_actions u)))
    by (by intros acts [? ? ?]).
  induction p as [| | f | f | s | q IH | i h | a IHa b IHb | a IHa b IHb]; intros n d E Hr;
    cbn [compile] in E; cbn in Hr; inv_comp.
  - apply empty_fresh.
  - by apply leaf_of_fresh.
  - split; [by apply leaf_of_fresh | apply empty_fresh].
  - by apply leaf_of_fresh.
  - split; [done |]. by apply Forall_cons_2; [| apply Forall_nil].
  - apply negd_fresh; [done |]. eapply compile_free; [done | apply Hr].
  - by apply leaf_of_fresh.
  - destruct Hr as (Ra & Rb & Fa). eapply seqd_fresh; eauto using compile_free.
  - destruct Hr as (Ra & Rb). eapply par_fresh; eauto.
Qed.

Lemma fresh_relabelled Q d : ∀ d', relabelled d d' → fresh Q d → fresh Q d'.
Proof.
  induction d as [l | f p IHp n IHn]; intros [l' | g p' n'] H; try done; cbn in *.
  - destruct H as (E & _ & Em). by rewrite E, Em.
  - destruct H as (_ & Hp & Hn). intros [Fp Fn]. auto.
Qed.

Lemma fresh_dinv d : ∀ R m hp, dok d → fresh unit_last d → dinv R m d [] hp.
Proof.
  induction d as [l | f p IHp n IHn]; intros R m hp Hd Hf; cbn in *.
  - destruct Hf as [Em Hf]. split.
    + apply Forall_elem. intros u Hu. unfold leaf_ok in Hd. rewrite Forall_elem in Hd, Hf.
      by destruct (Hf u Hu); split_and!; [apply Hd | |].
    + intros _ v ts new _ _ _. rewrite Em. split; [apply fits_unexplored |].
      rewrite lookup_unexplored. apply not_elem_of_nil.
  - destruct Hd as (He & Hp & Hn), Hf. auto.
Qed.

(** ** Packet-ins in sequence *)

(** Each packet-in starts at the root with an empty match. *)
Definition packet_in (n : nat) (backend : bool) (d : diagram) (hp : heap) (v : vpacket)
  : comp (walk (P := vpacket)) := traverse_fdd n backend d ∅ hp [] v.

Fixpoint packet_ins (n : nat) (backend : bool) (d : diagram) (hp : heap) (vs : list vpacket)
  : comp (diagram * heap) :=
  match vs with
  | [] => Ret (d, hp)
  | v :: vs => w ← packet_in n backend d hp v; packet_ins n backend (w_diagram w) (w_heap w) vs
  end.

Lemma packet_ins_ok backend vs : ∀ seen d hp,
  dinv (λ _, True) ∅ d seen hp → heap_wf hp → Forall full vs →
  ∃ d' hp', converges (λ n, packet_ins n backend d hp vs) (d', hp') ∧
    dinv (λ _, True) ∅ d' (rev vs ++ seen) hp' ∧ heap_wf hp' ∧ ∀ v : vpacket, outs d' v = outs d v.
Proof.
  induction vs as [|v vs IH]; intros seen d hp Hd Hhp Hvs; cbn [packet_ins rev].
  - exists d, hp. by split; [apply converges_const |].
  - apply Forall_cons_1 in Hvs as [Hv Hvs].
    destruct (traverse_step backend d _ ∅ seen hp [] v path_inv_start Hd Hhp Hv I)
      as (w & [N HN] & _ & _ & Hw & Hi & _ & _ & Ho & _).
    destruct (IH _ _ _ Hi Hw Hvs) as (d' & hp' & [M HM] & Hi' & Hhp' & Ho').
    exists d', hp'. split.
    + exists (N + M). intros n Hn. unfold packet_in. rewrite HN by lia. cbn [mbind comp_bind]. by apply HM; lia.
    + rewrite <- (assoc_L (++)). split_and!; [done | done |]. intros x. by rewrite Ho', Ho.
Qed.

(** ** Properties *)

(** C3: the run time implements the policy.  Take a policy whose functions come
    last and look at whole fields, its compiled diagram, translated or not,
    and any sequence of packet-ins, with or without a backend.  All of them
    terminate and throw nothing; the next packet-in of any full packet reaches
    a leaf without functions that sends on exactly what the policy does; and
    unless that leaf is for one packet only, the same packet once more finds
    the same leaf, changes nothing and sends no rule. *)
Theorem packet_in_correct p d0 backend vs :
  runnable p → (∃ d, converges (λ n, compile n p) d ∧ relabelled d d0) → Forall full vs →
  ∃ d hp, converges (λ n, packet_ins n backend d0 empty_heap vs) (d, hp) ∧
  ∀ v, full v → ∃ w, converges (λ n, packet_in n backend d hp v) w ∧
    existsb has_body (sets (w_leaf w)) = false ∧ leaf_eval (w_leaf w) v ≈ₚ eval p v ∧
    (hard_timeout (flow_settings (w_leaf w)) ≠ 0%N →
     ∃ m, converges (λ n, packet_in n backend (w_diagram w) (w_heap w) v)
                    (Walk (w_leaf w) v m (w_diagram w) (w_heap w) [])).
Proof.
  intros Hp (d1 & Hc & Hr) Hvs. destruct (compile_ok p (runnable_compilable p Hp)) as (d & Hd & Hk & _ & _ & Ho).
  assert (d1 = d) as -> by by eapply converges_inj.
  assert (Hf : fresh unit_last d) by (destruct Hd as [N HN]; by eapply compile_fresh, Hp; apply (HN N)).
  destruct (relabelled_same d d0 Hr) as (K0 & _ & O0).
  destruct (packet_ins_ok backend vs [] d0 empty_heap) as (d' & hp & Hconv & Hi & Hhp & Ho'); [| | done |].
  { apply fresh_dinv; [auto | by eapply fresh_relabelled]. }
  { intros k e. cbn. by rewrite lookup_empty. }
  exists d', hp. split; [done |]. intros v Hv.
  destruct (traverse_step backend d' _ ∅ _ hp [] v path_inv_start Hi Hhp Hv I)
    as (w & Hw & _ & _ & _ & _ & Hb & Hev & _ & Hs).
  exists w. split_and!; [done | done | by rewrite Hev, Ho', O0, Ho |]. intros Ht.
  destruct (traverse_settled backend (w_diagram w) ∅ (w_heap w) [] v (w_leaf w) Hs Hv fs_wf_empty Ht)
    as (m & Hm). by exists m.
Qed.

(** A learning-switch-like function beside a fixed rule. *)
Definition whole_handler : handler :=
  HLoad (Mask eth_type 0xffff) (λ f,
    if (f_val f =? 0x800)%N then HReturn (Modify (Field out_port 1 0xffffffff)) else HReturn Stop).

Definition runnable_policy : policy :=
  Sequential (Filter (Field in_port 0 0xffffffff))
             (Parallel (PacketFunction 1 whole_handler) (Modify (Field out_port 2 0xffffffff))).

Lemma exact_by_test t v :
  registered t = true → (N.land v (N.ones (nbits t)) =? v)%N = true → rfield_exact (Field t v (N.ones (nbits t))).
Proof.
  intros Hr Hv. split; [split; [done |] | done]. split; [apply msk_ok_ones |]. by apply N.eqb_eq.
Qed.

Lemma runnable_policy_ok : runnable runnable_policy.
Proof.
  cbn [runnable runnable_policy]. split_and!; try done; try by apply exact_by_test.
  cbn. split_and!; [done | done |]. intros f. destruct (f_val f =? 0x800)%N; cbn; [| done].
  split; [by apply exact_by_test | done].
Qed.

Lemma packet_in_correct_witness :
  let q := with_values [(eth_type, 0x800%N)] in
  ∃ d d' hp w, converges (λ n, compile n runnable_policy) d ∧
    converges (λ n, packet_ins n true d empty_heap [zero_packet]) (d', hp) ∧
    converges (λ n, packet_in n true d' hp q) w ∧
    leaf_eval (w_leaf w) q ≈ₚ eval runnable_policy q.
Proof.
  intros q. destruct (compile_ok runnable_policy (runnable_compilable _ runnable_policy_ok)) as (d & Hd & _).
  destruct (packet_in_correct runnable_policy d true [zero_packet]) as (d' & hp & Hc & H).
  - apply runnable_policy_ok.
  - exists d. split; [done | apply relabelled_refl].
  - apply Forall_cons_2; [apply full_zero | by apply Forall_nil].
  - destruct (H q (full_with_values _)) as (w & Hw & _ & He & _). by exists d, d', hp, w.
Defined.

(** what a policy does after a function is compiled into [post_actions]
    and lost at run time: the policy sends the packet on with a new
    destination, the leaf its packet-in reaches sends it on as it came. *)
Theorem post_actions_lost :
  let f := Field eth_dst 7 0xffffffffffff in
  let p := Sequential (PacketFunction 1 (HReturn Id)) (Modify f) in
  ∃ d w, compile 5 p = Ret d ∧ packet_in 5 true d empty_heap zero_packet = Ret w ∧
    (leaf_eval (w_leaf w) zero_packet ≫= λ l, Ok (map (λ q, vview q eth_dst) l)) = Ok [0%N] ∧
    (eval p zero_packet ≫= λ l, Ok (map (λ q, vview q eth_dst) l)) = Ok [7%N].
Proof. eexists _, _. split; [vm_compute; reflexivity |]. split; [vm_compute; reflexivity |]. by vm_compute. Qed.
