(* ===== verification/OFDriver.v ===== *)
(** * OFDriver: rules and groups on a switch, OFDriver.hh and OFDriver.cc

    A driver turns rules and groups into messages of one connection; rules and
    groups are objects whose destructors send the deletion.  Here a driver is
    its two counters and the messages sent so far.  [flow_table] and
    [group_table] are what a switch holds that accepts every message, as
    OpenFlow describes ADD and DELETE with a cookie mask and a table.  The
    destructor of a rule sets no table; what the message then has is libfluid's,
    a parameter ([UnsetTable]).  The message classes
    of libfluid are constructors; a message holds what its setters were given,
    at the width of the message's field ([ofp_flow_mod] of
    openflow/openflow-1.3.5.h: the timeouts have 16 bits). *)

From Stdlib Require Import Strings.Byte.
From S2P Require Import Prelude Bits Oxm FieldSet Packet.

Record Actions : Type := MkActions {
  act_out_port : N;
  act_group_id : N;
  act_idle_timeout : N;
  act_hard_timeout : N;
  set_fields : field_set
}.

Definition drop_port : N := 0.
Definition to_controller : N := 0xfffffffd.

(** [Actions{}] *)
Definition no_actions : Actions := MkActions 0 0 0 0 ∅.

(** ** Messages *)

Inductive of_action : Type :=
| SetField (f : field)
| Output (port : N)
| ToGroup (id : N).

Inductive of_msg : Type :=
| FlowAdd (cookie table : N) (match_ : field_set) (prio idle hard : N) (acts : list of_action)
| FlowDelete (cookie cookie_mask : N)   (** [table_id] is not set *)
| GroupAdd (id : N) (buckets : list (list of_action))
| GroupDelete (id : N)
| PacketOut (data : list byte) (acts : list of_action).

(** [convert_to_action_set], [convert_to_apply_action], [convert_to_action_list] *)
Definition convert (acts : Actions) : list of_action :=
  map SetField (elements (set_fields acts)) ++
  (if (act_out_port acts =? 0)%N then [] else [Output (act_out_port acts)]) ++
  (if (act_group_id acts =? 0)%N then [] else [ToGroup (act_group_id acts)]).

(** ** The driver *)

Record driver : Type := Driver {
  m_id_gen : N;
  m_cookie_gen : N;
  sent : list of_msg
}.

Definition new_driver : driver := Driver 630 0x400000000 [].

Definition send (d : driver) (m : of_msg) : driver := Driver (m_id_gen d) (m_cookie_gen d) (sent d ++ [m]).

(** A message field of 16 bits. *)
Definition to_u16 (n : N) : N := (n mod 2 ^ 16)%N.

(** [installRule]: the constructor of [Fluid13Rule] sends the rule.  The result
    is the rule's cookie, by which its destructor knows it. *)
Definition installRule (d : driver) (match_ : field_set) (prio : N) (acts : Actions) (table : N) : N * driver :=
  let cookie := m_cookie_gen d in
  let d' := send d (FlowAdd cookie table match_ prio
                      (to_u16 (act_idle_timeout acts)) (to_u16 (act_hard_timeout acts)) (convert acts)) in
  (cookie, Driver (m_id_gen d') ((cookie + 1) mod 2 ^ 64) (sent d')).

(** [~Fluid13Rule] *)
Definition destroyRule (d : driver) (cookie : N) : driver := send d (FlowDelete cookie 0xfffffffff).

Definition installGroup (d : driver) (buckets : list Actions) : N * driver :=
  let id := m_id_gen d in
  let d' := send d (GroupAdd id (map convert buckets)) in
  (id, Driver ((id + 1) mod 2 ^ 16) (m_cookie_gen d') (sent d')).

(** [~Fluid13Group] *)
Definition destroyGroup (d : driver) (id : N) : driver := send d (GroupDelete id).

Definition packetOut (d : driver) (data : list byte) (acts : Actions) : driver :=
  send d (PacketOut data (convert acts)).

(** ** What the switch holds *)

(** The table of a new [of13::FlowMod] of libfluid. *)
Class UnsetTable : Type := unset_table : N.

Definition OFPTT_ALL : N := 0xff.

Record flow_entry : Type := FlowEntry {
  e_cookie : N;
  e_table : N;
  e_match : field_set;
  e_prio : N;
  e_idle : N;
  e_hard : N;
  e_acts : list of_action
}.

Definition same_cookie (cookie cookie_mask c : N) : bool :=
  (N.land c cookie_mask =? N.land cookie cookie_mask)%N.

Section Switch.
Context {UT : UnsetTable}.

(** What a deletion of a cookie reaches. *)
Definition deleted (cookie cookie_mask : N) (e : flow_entry) : bool :=
  same_cookie cookie cookie_mask (e_cookie e) && ((unset_table =? OFPTT_ALL)%N || (e_table e =? unset_table)%N).

Definition flow_step (t : list flow_entry) (m : of_msg) : list flow_entry :=
  match m with
  | FlowAdd cookie table m prio idle hard acts => t ++ [FlowEntry cookie table m prio idle hard acts]
  | FlowDelete cookie k => List.filter (λ e, negb (deleted cookie k e)) t
  | _ => t
  end.
Definition flow_table (ms : list of_msg) : list flow_entry := fold_left flow_step ms [].

Lemma flow_table_send d m : flow_table (sent (send d m)) = flow_step (flow_table (sent d)) m.
Proof. unfold flow_table. cbn. by rewrite fold_left_app. Qed.
End Switch.

Definition group_step (t : list (N * list (list of_action))) (m : of_msg) :=
  match m with
  | GroupAdd id buckets => t ++ [(id, buckets)]
  | GroupDelete id => List.filter (λ g, negb (g.1 =? id)%N) t
  | _ => t
  end.
Definition group_table (ms : list of_msg) : list (N * list (list of_action)) := fold_left group_step ms [].

(** What a list of actions sends out for a packet: copies by port. *)
Fixpoint acts_outs (run_group : N → vpacket → list (N * vpacket)) (acts : list of_action) (v : vpacket)
  : list (N * vpacket) :=
  match acts with
  | [] => []
  | SetField f :: acts =>
      match vmodify v f with Ok v' => acts_outs run_group acts v' | Throw _ => [] end
  | Output p :: acts => (p, v) :: acts_outs run_group acts v
  | ToGroup i :: acts => run_group i v ++ acts_outs run_group acts v
  end.

(** A group of type ALL runs each of its buckets on the packet; buckets here
    name no group. *)
Definition group_outs (groups : list (N * list (list of_action))) (i : N) (v : vpacket) : list (N * vpacket) :=
  match List.find (λ g, (g.1 =? i)%N) groups with
  | Some g => concat (map (λ b, acts_outs (λ _ _, []) b v) g.2)
  | None => []
  end.

Definition entry_outs (d : driver) (e : flow_entry) (v : vpacket) : list (N * vpacket) :=
  acts_outs (group_outs (group_table (sent d))) (e_acts e) v.

Lemma group_table_send d m : group_table (sent (send d m)) = group_step (group_table (sent d)) m.
Proof. unfold group_table. cbn. by rewrite fold_left_app. Qed.
