(* ===== verification/Retic.v ===== *)
(** * Retic: the application and its OpenFlow 1.3 backend, Retic.hh and Retic.cc

    The backend keeps the drivers of the switches and the objects whose
    destruction removes what they put there.  Retic's and the backend's driver
    maps hold the same pointers, so there is one map; Retic resets the backend
    whenever it changes the map.  The order in which [install] visits the
    drivers is the map's.  That rules go with the backend
    ([rules_owned_and_removed]) takes that deletions without a table reach its
    table; they need not ([rules_outlive_backend]). *)

From Stdlib Require Import Strings.Byte Strings.String.
From S2P Require Import Prelude Bits Oxm FieldSet Packet Policy Valuation Fdd FddCompiler.
From S2P Require Import FddCorrect FddTranslator Tracer TraceTree LeafTraces TraverseFdd OFDriver.

(** ** The backend *)

Inductive of_object : Type :=
| RuleObj (dpid cookie : N)
| GroupObj (dpid id : N).

Record backend : Type := Backend {
  m_drivers : gmap N driver;
  m_storage : list of_object;
  m_table : N
}.

Definition with_driver (b : backend) (dpid : N) (d : driver) : backend :=
  Backend (<[dpid := d]> (m_drivers b)) (m_storage b) (m_table b).
Definition store (b : backend) (o : of_object) : backend :=
  Backend (m_drivers b) (m_storage b ++ [o]) (m_table b).

(** [pkt_iface.load(type)] of a typed field: it must be exact. *)
Definition load_exact (fs : field_set) (t : otype) : res N :=
  f ← load fs (Mask t (N.ones (nbits t)));
  _ ← require (f_exact f) AssertionFailure;
  Ok (f_val f).

Definition full_mask (t : otype) : mask := Mask t (N.ones (nbits t)).

(** Seconds of a timeout, with the greatest duration for none. *)
Definition secs (d : N) : N := if (d =? duration_max)%N then 0%N else d.

(** A bucket for an action that has an output port; the others are skipped. *)
Definition bucket_of (settings : FlowSettings) (action : field_set) : res (option Actions) :=
  match find action out_port with
  | None => Ok None
  | Some _ =>
      port ← load_exact action out_port;
      action' ← erase action (full_mask out_port);
      Ok (Some (MkActions port 0 (secs (idle_timeout settings)) (secs (hard_timeout settings)) action'))
  end.

Fixpoint buckets_of (settings : FlowSettings) (actions : list field_set) : res (list Actions) :=
  match actions with
  | [] => Ok []
  | a :: actions =>
      o ← bucket_of settings a;
      bs ← buckets_of settings actions;
      Ok (match o with Some b => b :: bs | None => bs end)
  end.

(** A rule kept in the storage, and one whose pointer is dropped at once. *)
Definition rule_kept (b : backend) (dpid : N) (d : driver) (m : field_set) (prio : N) (acts : Actions) : backend :=
  let '(cookie, d') := installRule d m prio acts (m_table b) in
  store (with_driver b dpid d') (RuleObj dpid cookie).
Definition rule_dropped (b : backend) (dpid : N) (d : driver) (m : field_set) (prio : N) (acts : Actions) : backend :=
  let '(cookie, d') := installRule d m prio acts (m_table b) in
  with_driver b dpid (destroyRule d' cookie).

(** [install_on] *)
Definition install_on (b : backend) (dpid : N) (match_ : field_set) (actions : list field_set) (prio : N)
    (settings : FlowSettings) : res backend :=
  match m_drivers b !! dpid with
  | None => Ok b
  | Some d =>
      match actions with
      | [] => Ok (rule_dropped b dpid d match_ prio no_actions)
      | _ =>
          buckets ← buckets_of settings actions;
          match buckets with
          | [] => Ok (rule_kept b dpid d match_ prio no_actions)
          | [acts] => Ok (rule_kept b dpid d match_ prio acts)
          | _ =>
              let '(id, d') := installGroup d buckets in
              let b' := store (with_driver b dpid d') (GroupObj dpid id) in
              Ok (rule_kept b' dpid d' match_ prio (MkActions 0 id 0 0 ∅))
          end
      end
  end.

(** On the switch of the match, or on every switch. *)
Fixpoint on_each (l : list N) (f : backend → N → res backend) (b : backend) : res backend :=
  match l with
  | [] => Ok b
  | dpid :: l => b' ← f b dpid; on_each l f b'
  end.

Definition dpids (b : backend) : list N := (map_to_list (m_drivers b)).*1.

Definition on_switches (f : field_set → backend → N → res backend) (b : backend) (match_ : field_set)
  : res backend :=
  match find match_ switch_id with
  | Some _ =>
      dpid ← load_exact match_ switch_id;
      match' ← erase match_ (full_mask switch_id);
      f match' b dpid
  | None => on_each (dpids b) (f match_) b
  end.

(** [Of13Backend::install] *)
Definition install (b : backend) (match_ : field_set) (actions : list field_set) (prio : N)
    (settings : FlowSettings) : res backend :=
  if (hard_timeout settings =? 0)%N then Ok b
  else on_switches (λ m b dpid, install_on b dpid m actions prio settings) b match_.

(** [Of13Backend::installBarrier] *)
Definition barrier_on (match_ : field_set) (prio : N) (b : backend) (dpid : N) : res backend :=
  match m_drivers b !! dpid with
  | None => Ok b
  | Some d => Ok (rule_kept b dpid d match_ prio (MkActions to_controller 0 0 0 ∅))
  end.

Definition installBarrier (b : backend) (match_ : field_set) (prio : N) : res backend :=
  on_switches (λ m, barrier_on m prio) b match_.

(** The calls of the translator and of the trace tree, in order. *)
Definition install_rule (b : backend) (r : rule) : res backend :=
  match rule_do r with
  | Install actions settings => install b (rule_match r) actions (rule_prio r) settings
  | Barrier => installBarrier b (rule_match r) (rule_prio r)
  end.

Fixpoint install_rules (b : backend) (rs : list rule) : res backend :=
  match rs with
  | [] => Ok b
  | r :: rs => b' ← install_rule b r; install_rules b' rs
  end.

(** [Of13Backend::packetOuts] *)
Fixpoint packet_outs_on (d : driver) (data : list byte) (actions : list field_set) : res driver :=
  match actions with
  | [] => Ok d
  | a :: actions =>
      d' ← (match find a out_port with
            | None => Ok d
            | Some _ =>
                port ← load_exact a out_port;
                a' ← erase a (full_mask out_port);
                Ok (packetOut d data (MkActions port 0 0 0 a'))
            end);
      packet_outs_on d' data actions
  end.

Definition packetOuts (b : backend) (data : list byte) (actions : list field_set) (dpid : N) : res backend :=
  match m_drivers b !! dpid with
  | None => Throw StdOutOfRange
  | Some d => d' ← packet_outs_on d data actions; Ok (with_driver b dpid d')
  end.

(** The backend's destructor. *)
Definition destroy_object (b : backend) (o : of_object) : backend :=
  match o with
  | RuleObj dpid cookie =>
      match m_drivers b !! dpid with Some d => with_driver b dpid (destroyRule d cookie) | None => b end
  | GroupObj dpid id =>
      match m_drivers b !! dpid with Some d => with_driver b dpid (destroyGroup d id) | None => b end
  end.

Definition destroy_backend (b : backend) : backend :=
  let b' := fold_left destroy_object (m_storage b) b in
  Backend (m_drivers b') [] (m_table b').

(** ** The application *)

Record retic : Type := MkRetic {
  m_policies : gmap string policy;
  m_fdd : diagram;
  r_heap : heap;
  m_main_policy : string;
  r_drivers : gmap N driver;
  m_backend : option (list of_object);
  r_table : N
}.

Definition donothing : string := "__builtin_donothing__".

Definition registerPolicy (r : retic) (name : string) (p : policy) : retic :=
  MkRetic (<[name := p]> (m_policies r)) (m_fdd r) (r_heap r) (m_main_policy r) (r_drivers r)
          (m_backend r) (r_table r).

(** [init]: the built-in policy, the table and the configured main policy; the
    diagram is a default-constructed variant. *)
Definition init (table : N) (main : option string) : retic :=
  registerPolicy (MkRetic ∅ (Leaf empty_leaf) empty_heap (default donothing main) ∅ None table) donothing Stop.

(** The backend, where there is one. *)
Definition the_backend (r : retic) : option backend :=
  (λ objs, Backend (r_drivers r) objs (r_table r)) <$> m_backend r.
Definition with_backend (r : retic) (b : option backend) : retic :=
  MkRetic (m_policies r) (m_fdd r) (r_heap r) (m_main_policy r)
          (match b with Some b => m_drivers b | None => r_drivers r end) (m_storage <$> b) (r_table r).
Definition with_fdd (r : retic) (d : diagram) (hp : heap) : retic :=
  MkRetic (m_policies r) d hp (m_main_policy r) (r_drivers r) (m_backend r) (r_table r).

(** [m_backend = nullptr]: the destructor runs. *)
Definition clearRules (r : retic) : retic :=
  match the_backend r with
  | None => r
  | Some b =>
      let b' := destroy_backend b in
      MkRetic (m_policies r) (m_fdd r) (r_heap r) (m_main_policy r) (m_drivers b') None (r_table r)
  end.

(** [compile(m_policies.at(m_main_policy))] *)
Definition compile_main (n : nat) (r : retic) : comp diagram :=
  match m_policies r !! m_main_policy r with
  | None => Raise StdOutOfRange
  | Some p => compile n p
  end.

Definition startUp (n : nat) (r : retic) : comp retic :=
  match compile_main n r with
  | Raise StdOutOfRange => Raise RuntimeError
  | Raise e => Raise e
  | NoFuel => NoFuel
  | Ret d => Ret (with_fdd r d (r_heap r))
  end.

Definition reinstallRules (n : nat) (r : retic) : comp retic :=
  let r1 := clearRules r in
  d ← compile_main n r1;
  '(_, d', rules) ← lift (translate d translator_init);
  b ← lift (install_rules (Backend (r_drivers r1) [] (r_table r1)) rules);
  Ret (with_fdd (with_backend r1 (Some b)) d' (r_heap r1)).

(** [m_policies[m_main_policy]] makes a default policy where there is none. *)
Definition setMain (n : nat) (r : retic) (new_main : string) : comp retic :=
  let policies := match m_policies r !! new_main with
                  | Some _ => m_policies r
                  | None => <[new_main := Stop]> (m_policies r)
                  end in
  let r1 := MkRetic policies (m_fdd r) (r_heap r) new_main (r_drivers r) (m_backend r) (r_table r) in
  d ← compile_main n r1;
  reinstallRules n (with_fdd r1 d (r_heap r1)).

(** [onSwitchUp]: a new driver for the switch, on a new connection. *)
Definition onSwitchUp (n : nat) (r : retic) (dpid : N) : comp retic :=
  let r1 := clearRules r in
  reinstallRules n (MkRetic (m_policies r1) (m_fdd r1) (r_heap r1) (m_main_policy r1)
                            (<[dpid := new_driver]> (r_drivers r1)) (m_backend r1) (r_table r1)).

Definition getPoliciesName (r : retic) : list string := (map_to_list (m_policies r)).*1.

(** The handler of packet-ins.  Without a backend its pointer is null. *)
Definition on_packet_in (n : nat) (r : retic) (pkt : vpacket) (data : list byte) (dpid : N) : comp retic :=
  w ← traverse_fdd n (match m_backend r with Some _ => true | None => false end)
                   (m_fdd r) ∅ (r_heap r) [] pkt;
  let r1 := with_fdd r (w_diagram w) (w_heap w) in
  if existsb has_body (sets (w_leaf w)) then Raise RuntimeError
  else
    match the_backend r1 with
    | None => Raise Terminate
    | Some b =>
        b1 ← lift (install_rules b (w_rules w));
        b2 ← lift (packetOuts b1 data (map pred_actions (sets (w_leaf w))) dpid);
        Ret (with_backend r1 (Some b2))
    end.

(** ** Drivers and their storage *)

Definition rule_cookies (dpid : N) (objs : list of_object) : list N :=
  flat_map (λ o, match o with RuleObj d c => if (d =? dpid)%N then [c] else [] | GroupObj _ _ => [] end) objs.
Definition group_ids (dpid : N) (objs : list of_object) : list N :=
  flat_map (λ o, match o with GroupObj d c => if (d =? dpid)%N then [c] else [] | RuleObj _ _ => [] end) objs.

Section Owned.
Context {UT : UnsetTable} (table : N).

(** A deletion that names no table reaches the table of the backend. *)
Definition deletions_reach : Prop := unset_table = OFPTT_ALL ∨ unset_table = table.

(** Every rule and group on a switch belongs to an object of the storage; the
    counters are ahead of them and have not wrapped; rules are in the table. *)
Definition owned (objs : list of_object) (dpid : N) (d : driver) : Prop :=
  map e_cookie (flow_table (sent d)) = rule_cookies dpid objs ∧
  (∀ c, c ∈ rule_cookies dpid objs → (c < m_cookie_gen d)%N) ∧
  map fst (group_table (sent d)) = group_ids dpid objs ∧
  (∀ i, i ∈ group_ids dpid objs → (i < m_id_gen d)%N) ∧
  (∀ e, e ∈ flow_table (sent d) → e_table e = table).

Definition backend_owned (b : backend) : Prop :=
  m_table b = table ∧ ∀ dpid d, m_drivers b !! dpid = Some d → owned (m_storage b) dpid d.

Lemma new_driver_owned dpid : owned [] dpid new_driver.
Proof. split_and!; try done; intros x Hx; by apply not_elem_of_nil in Hx. Qed.

(** The counters have room: cookies are told apart by 36 bits. *)
Definition room (b : backend) (k : N) : Prop :=
  ∀ dpid d, m_drivers b !! dpid = Some d →
    (m_cookie_gen d + k < 2 ^ 36)%N ∧ (m_id_gen d + k < 2 ^ 16)%N.

Lemma rule_cookies_app dpid a b : rule_cookies dpid (a ++ b) = rule_cookies dpid a ++ rule_cookies dpid b.
Proof. apply flat_map_app. Qed.
Lemma group_ids_app dpid a b : group_ids dpid (a ++ b) = group_ids dpid a ++ group_ids dpid b.
Proof. apply flat_map_app. Qed.

Lemma same_cookie_small c c' :
  (c < 2 ^ 36)%N → (c' < 2 ^ 36)%N → same_cookie c 0xfffffffff c' = (c' =? c)%N.
Proof.
  intros H H'. unfold same_cookie. change 0xfffffffff%N with (N.ones 36).
  by rewrite !N.land_ones, !N.mod_small.
Qed.

Lemma deleted_small c e : deletions_reach → e_table e = table → (c < 2 ^ 36)%N → (e_cookie e < 2 ^ 36)%N →
  deleted c 0xfffffffff e = (e_cookie e =? c)%N.
Proof.
  intros Hr Ht Hc He. unfold deleted. rewrite same_cookie_small, Ht by done.
  destruct Hr as [-> | ->]; by rewrite N.eqb_refl, ?orb_true_r, andb_true_r.
Qed.

Lemma destroyed_table c t : deletions_reach →
  (c < 2 ^ 36)%N → (∀ x, x ∈ map e_cookie t → (x < 2 ^ 36)%N) → (∀ e, e ∈ t → e_table e = table) →
  map e_cookie (List.filter (λ e, negb (deleted c 0xfffffffff e)) t)
  = List.filter (λ x, negb (x =? c)%N) (map e_cookie t).
Proof.
  intros Hr Hc. induction t as [|e t IH]; intros Ht Htab; cbn [map List.filter]; [done |].
  rewrite deleted_small; [| done | apply Htab; by left | done | apply Ht; by left].
  assert (Ht' : ∀ x, x ∈ map e_cookie t → (x < 2 ^ 36)%N) by (intros x Hx; apply Ht; by right).
  assert (Htab' : ∀ x, x ∈ t → e_table x = table) by (intros x Hx; apply Htab; by right).
  destruct (e_cookie e =? c)%N; cbn [negb map]; by rewrite IH.
Qed.

Context (Hreach : deletions_reach).

(** [k] counts how far a step may move the counters. *)
Definition steps (k : N) (b b' : backend) : Prop :=
  dom (m_drivers b') = dom (m_drivers b) ∧
  ∀ j, backend_owned b → room b (k + j) → backend_owned b' ∧ room b' j.

Lemma room_less b k j : room b (k + j) → room b j.
Proof. intros H dpid d Hd. destruct (H dpid d Hd). lia. Qed.

Lemma steps_refl k b : steps k b b.
Proof. split; [done |]. intros j Hb Hr. split; [done |]. by eapply room_less. Qed.

Lemma steps_trans k1 k2 b b1 b2 : steps k1 b b1 → steps k2 b1 b2 → steps (k1 + k2) b b2.
Proof.
  intros [D1 H1] [D2 H2]. split; [congruence |]. intros j Hb Hr.
  destruct (H1 (k2 + j)%N Hb) as [Hb1 Hr1]; [by rewrite N.add_assoc |]. by apply H2.
Qed.

Lemma steps_weaken k k' b b' : (k ≤ k')%N → steps k b b' → steps k' b b'.
Proof.
  intros Hk [D H]. split; [done |]. intros j Hb Hr. destruct (H (k' - k + j)%N Hb) as [Hb' Hr'].
  - by replace (k + (k' - k + j))%N with (k' + j)%N by lia.
  - split; [done |]. by eapply room_less.
Qed.

(** Changing one driver and the objects of that switch. *)
Lemma steps_driver k b dpid d d' objs :
  m_drivers b !! dpid = Some d →
  (∀ x, x ≠ dpid → rule_cookies x objs = [] ∧ group_ids x objs = []) →
  (∀ j, m_table b = table → owned (m_storage b) dpid d → (m_cookie_gen d + (k + j) < 2 ^ 36)%N → (m_id_gen d + (k + j) < 2 ^ 16)%N →
     owned (m_storage b ++ objs) dpid d' ∧ (m_cookie_gen d' + j < 2 ^ 36)%N ∧ (m_id_gen d' + j < 2 ^ 16)%N) →
  steps k b (Backend (<[dpid := d']> (m_drivers b)) (m_storage b ++ objs) (m_table b)).
Proof.
  intros Hd Hobjs Hstep. split.
  { cbn. rewrite dom_insert_L. assert (dpid ∈ dom (m_drivers b)) by (by eapply elem_of_dom_2). set_solver. }
  intros j [Htab Hb] Hr. destruct (Hr dpid d Hd) as [R1 R2]. destruct (Hstep j Htab (Hb dpid d Hd) R1 R2) as (Ho & C1 & C2).
  split; [split; [done |] |]; intros x dx; cbn; rewrite lookup_insert_Some; intros [[<- <-] | [Hne Hx]].
  - done.
  - destruct (Hobjs x) as [E1 E2]; [done |]. destruct (Hb x dx Hx) as (O1 & O2 & O3 & O4 & O5).
    unfold owned. rewrite rule_cookies_app, group_ids_app, E1, E2, !app_nil_r. by split_and!.
  - done.
  - destruct (Hr x dx Hx). lia.
Qed.

Lemma mod_below c k : (c < 2 ^ k)%N → (c mod 2 ^ k)%N = c.
Proof. apply N.mod_small. Qed.

(** The sizes, named so that nothing computes them. *)
Lemma installed_table d m prio acts t cookie d' :
  installRule d m prio acts t = (cookie, d') →
  cookie = m_cookie_gen d ∧ m_id_gen d' = m_id_gen d ∧
  m_cookie_gen d' = ((m_cookie_gen d + 1) mod 2 ^ 64)%N ∧
  group_table (sent d') = group_table (sent d) ∧
  flow_table (sent d') = flow_table (sent d) ++
    [FlowEntry cookie t m prio (to_u16 (act_idle_timeout acts)) (to_u16 (act_hard_timeout acts)) (convert acts)].
Proof.
  intros [= <- <-]. split_and!; try done.
  - unfold group_table. cbn [sent send]. by rewrite fold_left_app.
  - unfold flow_table. cbn [sent send]. by rewrite fold_left_app.
Qed.

Lemma lt_36_64 c : (c < 2 ^ 36)%N → (c < 2 ^ 64)%N.
Proof. intros H. etrans; [done |]. by apply N.pow_lt_mono_r. Qed.

Lemma rule_kept_steps b dpid d m prio acts :
  m_drivers b !! dpid = Some d → steps 1 b (rule_kept b dpid d m prio acts).
Proof.
  intros Hd. unfold rule_kept. destruct (installRule d m prio acts (m_table b)) as [cookie d'] eqn:E.
  apply installed_table in E as (-> & Ei & Ec & Eg & Ef).
  apply (steps_driver 1 b dpid d d' [RuleObj dpid (m_cookie_gen d)]); [done | |].
  { intros x Hx. cbn. by rewrite (proj2 (N.eqb_neq dpid x)). }
  intros j Htab (O1 & O2 & O3 & O4 & O5) Hc Hi. rewrite Ei, Ec.
  rewrite mod_below by (apply lt_36_64; lia). split; [| lia].
  unfold owned. rewrite rule_cookies_app, group_ids_app. cbn [rule_cookies group_ids flat_map].
  rewrite N.eqb_refl, !app_nil_r, Eg, Ef, map_app, O1, Ei, Ec. rewrite mod_below by (apply lt_36_64; lia).
  cbn [app map e_cookie]. split_and!; try done.
  - intros c [Hc' | Hc']%elem_of_app; [apply O2 in Hc'; lia |]. apply list_elem_of_singleton in Hc'. lia.
  - intros e [He | ->%list_elem_of_singleton]%elem_of_app; [by apply O5 | done].
Qed.

Lemma filter_fresh c l : (∀ x, x ∈ l → (x < c)%N) → List.filter (λ x, negb (x =? c)%N) (l ++ [c]) = l.
Proof.
  induction l as [|x l IH]; intros H; cbn.
  - by rewrite N.eqb_refl.
  - rewrite (proj2 (N.eqb_neq x c)); [| specialize (H x ltac:(by left)); lia]. cbn. f_equal.
    apply IH. intros y Hy. apply H. by right.
Qed.

Lemma rule_dropped_steps b dpid d m prio acts :
  m_drivers b !! dpid = Some d → steps 1 b (rule_dropped b dpid d m prio acts).
Proof.
  intros Hd. unfold rule_dropped. destruct (installRule d m prio acts (m_table b)) as [cookie d'] eqn:E.
  apply installed_table in E as (-> & Ei & Ec & Eg & Ef).
  assert (H := steps_driver 1 b dpid d (destroyRule d' (m_cookie_gen d)) []).
  rewrite app_nil_r in H. apply H; [done | done |]. clear H.
  intros j Htab (O1 & O2 & O3 & O4 & O5) Hc Hi. cbn [destroyRule send m_cookie_gen m_id_gen]. rewrite Ei, Ec.
  rewrite mod_below by (apply lt_36_64; lia). split; [| lia].
  unfold owned. cbn [destroyRule send m_cookie_gen m_id_gen]. rewrite Ei, Ec, mod_below by (apply lt_36_64; lia).
  unfold destroyRule. rewrite flow_table_send, group_table_send. cbn [flow_step group_step].
  rewrite Eg, Ef.
  assert (Htab' : ∀ e, e ∈ flow_table (sent d) ++ [FlowEntry (m_cookie_gen d) (m_table b) m prio (to_u16 (act_idle_timeout acts))
                        (to_u16 (act_hard_timeout acts)) (convert acts)] → e_table e = table).
  { intros e [He | ->%list_elem_of_singleton]%elem_of_app; [by apply O5 | done]. }
  split_and!; [| intros c Hc'; apply O2 in Hc'; lia | done | done |].
  2: { intros e He. apply Htab'. apply list_elem_of_In, filter_In in He as [He _]. by apply list_elem_of_In. }
  rewrite destroyed_table; [rewrite map_app | done | | | done]; cbn [map e_cookie].
  - rewrite O1. by apply filter_fresh.
  - lia.
  - rewrite map_app, O1. cbn [map e_cookie].
    intros x [Hx | Hx]%elem_of_app; [apply O2 in Hx; lia |]. apply list_elem_of_singleton in Hx. lia.
Qed.

Lemma group_steps b dpid d buckets id d' :
  m_drivers b !! dpid = Some d → installGroup d buckets = (id, d') →
  steps 1 b (store (with_driver b dpid d') (GroupObj dpid id)).
Proof.
  intros Hd [= <- <-].
  apply (steps_driver 1 b dpid d _ [GroupObj dpid (m_id_gen d)]); [done | |].
  { intros x Hx. cbn. by rewrite (proj2 (N.eqb_neq dpid x)). }
  intros j Htab (O1 & O2 & O3 & O4 & O5) Hc Hi. cbn [m_cookie_gen m_id_gen send].
  rewrite !mod_below by lia. split; [| lia].
  unfold owned. rewrite rule_cookies_app, group_ids_app. cbn [rule_cookies group_ids flat_map m_cookie_gen m_id_gen sent].
  rewrite N.eqb_refl, !app_nil_r. cbn [app].
  unfold send. cbn [sent]. change (sent d ++ [GroupAdd (m_id_gen d) (map convert buckets)])
    with (sent (send d (GroupAdd (m_id_gen d) (map convert buckets)))).
  rewrite flow_table_send, group_table_send. cbn [flow_step group_step]. rewrite map_app, O3.
  split_and!; try done.
  intros c [Hc' | Hc']%elem_of_app; [apply O4 in Hc'; lia |]. apply list_elem_of_singleton in Hc'. lia.
Qed.

Lemma install_on_steps b dpid m actions prio s b' :
  install_on b dpid m actions prio s = Ok b' → steps 2 b b'.
Proof.
  unfold install_on. destruct (m_drivers b !! dpid) as [d|] eqn:Hd; [| intros [= <-]; apply steps_refl].
  assert (H1 : ∀ acts, steps 2 b (rule_kept b dpid d m prio acts)).
  { intros acts. eapply steps_weaken; [| by apply rule_kept_steps]. lia. }
  destruct actions as [|a actions].
  { intros [= <-]. eapply steps_weaken; [| by apply rule_dropped_steps]. lia. }
  intros E. apply res_bind_Ok in E as (buckets & _ & E).
  destruct buckets as [|acts [|acts' buckets]]; [by injection E as <- | by injection E as <- |].
  destruct (installGroup d (acts :: acts' :: buckets)) as [id d'] eqn:Eg. injection E as <-.
  apply (steps_trans 1 1 _ (store (with_driver b dpid d') (GroupObj dpid id))).
  - by eapply group_steps.
  - apply rule_kept_steps. apply lookup_insert_eq.
Qed.

Lemma barrier_on_steps m prio b dpid b' : barrier_on m prio b dpid = Ok b' → steps 2 b b'.
Proof.
  unfold barrier_on. destruct (m_drivers b !! dpid) as [d|] eqn:Hd; intros [= <-]; [| apply steps_refl].
  eapply steps_weaken; [| by apply rule_kept_steps]. lia.
Qed.

Lemma on_each_steps f l : (∀ b dpid b', f b dpid = Ok b' → steps 2 b b') →
  ∀ b b', on_each l f b = Ok b' → steps (2 * N.of_nat (length l)) b b'.
Proof.
  intros Hf. induction l as [|dpid l IH]; intros b b' E; cbn [on_each] in E.
  - injection E as <-. apply steps_refl.
  - apply res_bind_Ok in E as (b1 & E1 & E). apply Hf in E1. apply IH in E.
    eapply steps_weaken; [| by eapply steps_trans]. cbn [length]. lia.
Qed.

(** The most a rule may move the counters. *)
Definition rule_cost (b : backend) : N := 2 * N.of_nat (S (size (m_drivers b))).

Lemma on_switches_steps f b m b' : (∀ m b dpid b', f m b dpid = Ok b' → steps 2 b b') →
  on_switches f b m = Ok b' → steps (rule_cost b) b b'.
Proof.
  intros Hf. unfold on_switches, rule_cost. destruct (find m switch_id).
  - intros E. apply res_bind_Ok in E as (dpid & _ & E). apply res_bind_Ok in E as (m' & _ & E).
    apply Hf in E. eapply steps_weaken; [| done]. lia.
  - intros E. apply on_each_steps in E; [| by intros; eapply Hf]. eapply steps_weaken; [| done].
    unfold dpids. rewrite length_fmap, length_map_to_list. lia.
Qed.

Lemma install_rule_steps b r b' : install_rule b r = Ok b' → steps (rule_cost b) b b'.
Proof.
  unfold install_rule. destruct (rule_do r) as [actions s |].
  - unfold install. destruct (hard_timeout s =? 0)%N; [intros [= <-]; apply steps_refl |].
    apply on_switches_steps. intros. by eapply install_on_steps.
  - apply on_switches_steps. intros. by eapply barrier_on_steps.
Qed.

Lemma steps_cost k b b' : steps k b b' → rule_cost b' = rule_cost b.
Proof. intros [D _]. unfold rule_cost. by rewrite <- !size_dom, D. Qed.

Lemma install_rules_steps rs : ∀ b b',
  install_rules b rs = Ok b' → steps (N.of_nat (length rs) * rule_cost b) b b'.
Proof.
  induction rs as [|r rs IH]; intros b b' E; cbn [install_rules] in E.
  - injection E as <-. apply steps_refl.
  - apply res_bind_Ok in E as (b1 & E1 & E). apply install_rule_steps in E1. apply IH in E.
    rewrite (steps_cost _ _ _ E1) in E. eapply steps_weaken; [| by eapply steps_trans].
    cbn [length]. rewrite Nat2N.inj_succ. lia.
Qed.

(** ** Destruction *)

Lemma filter_In_elem {A} (f : A → bool) x l : x ∈ List.filter f l ↔ x ∈ l ∧ f x = true.
Proof. by rewrite !list_elem_of_In, filter_In. Qed.

(** What is left on switch [dpid] after the objects are destroyed. *)
Definition outlives (objs : list of_object) (dpid : N) (d d' : driver) : Prop :=
  (∀ e, e ∈ flow_table (sent d') →
     e ∈ flow_table (sent d) ∧ ∀ c, c ∈ rule_cookies dpid objs → deleted c 0xfffffffff e = false) ∧
  (∀ g, g ∈ group_table (sent d') → g ∈ group_table (sent d) ∧ g.1 ∉ group_ids dpid objs).

Lemma destroyed_outlives objs : ∀ b dpid d',
  m_drivers (fold_left destroy_object objs b) !! dpid = Some d' →
  ∃ d, m_drivers b !! dpid = Some d ∧ outlives objs dpid d d'.
Proof.
  induction objs as [|o objs IH]; intros b dpid d'; cbn [fold_left].
  - intros H. exists d'. split; [done |]. split; [intros e He | intros g Hg]; split; try done; set_solver.
  - intros H. destruct (IH _ _ _ H) as (d1 & H1 & [Hf Hg]). clear IH H.
    unfold outlives, rule_cookies, group_ids. cbn [flat_map]. fold (rule_cookies dpid objs) (group_ids dpid objs).
    destruct o as [x c | x i]; cbn [destroy_object] in H1; destruct (m_drivers b !! x) as [d|] eqn:Ex.
    1, 3: cbn [with_driver m_drivers] in H1; apply lookup_insert_Some in H1 as [[<- <-] | [Hne H1]].
    + exists d. split; [done |]. rewrite N.eqb_refl. unfold destroyRule in *.
      rewrite flow_table_send in Hf. rewrite group_table_send in Hg. cbn [flow_step group_step] in *. split; [| done].
      intros e He. destruct (Hf e He) as [H1 H2]. apply filter_In_elem in H1 as [H1 H3]. split; [done |].
      intros c' Hc'. cbn [app] in Hc'. apply elem_of_cons in Hc' as [-> | Hc']; [| by apply H2]. by apply negb_true_iff.
    + exists d1. split; [done |]. by rewrite (proj2 (N.eqb_neq x dpid)).
    + exists d. split; [done |]. rewrite N.eqb_refl. unfold destroyGroup in *.
      rewrite flow_table_send in Hf. rewrite group_table_send in Hg. cbn [flow_step group_step] in *. split; [done |].
      intros g Hgi. destruct (Hg g Hgi) as [H1 H2]. apply filter_In_elem in H1 as [H1 H3]. split; [done |].
      cbn [app]. apply not_elem_of_cons. split; [| done]. apply negb_true_iff in H3. by apply N.eqb_neq.
    + exists d1. split; [done |]. by rewrite (proj2 (N.eqb_neq x dpid)).
    + exists d1. split; [done |]. assert (x ≠ dpid) by congruence. by rewrite (proj2 (N.eqb_neq x dpid)).
    + exists d1. split; [done |]. assert (x ≠ dpid) by congruence. by rewrite (proj2 (N.eqb_neq x dpid)).
Qed.

Lemma destroy_backend_empty b :
  backend_owned b → room b 0 →
  ∀ dpid d, m_drivers (destroy_backend b) !! dpid = Some d →
    flow_table (sent d) = [] ∧ group_table (sent d) = [].
Proof.
  intros Ho Hr dpid d' Hd'. unfold destroy_backend in Hd'. cbn [m_drivers] in Hd'.
  destruct (destroyed_outlives _ _ _ _ Hd') as (d & Hd & Hf & Hg).
  destruct (proj2 Ho dpid d Hd) as (O1 & O2 & O3 & O4 & O5). destruct (Hr dpid d Hd) as [R1 R2]. split.
  - destruct (flow_table (sent d')) as [|e t]; [done |]. exfalso.
    destruct (Hf e) as [He Hc]; [by left |].
    assert (Hin : e_cookie e ∈ rule_cookies dpid (m_storage b)).
    { rewrite <- O1. apply list_elem_of_In, in_map, list_elem_of_In. done. }
    pose proof (O2 _ Hin) as Hlt. specialize (Hc _ Hin). rewrite deleted_small in Hc; [| done | by apply O5 | lia | lia].
    by rewrite N.eqb_refl in Hc.
  - destruct (group_table (sent d')) as [|g t]; [done |]. exfalso.
    destruct (Hg g) as [Hgi Hn]; [by left |]. apply Hn. rewrite <- O3.
    apply list_elem_of_In, in_map, list_elem_of_In. done.
Qed.

(** ** What an installed rule sends on *)

(** The copies an action makes of a packet: none without an output port. *)
Definition outputs (a : field_set) (v : vpacket) : list (N * vpacket) :=
  match find a out_port with
  | None => []
  | Some f => if (f_val f =? 0)%N then [] else [(f_val f, vapply (perase a (full_mask out_port)) v)]
  end.

Lemma full_mask_wf t : registered t = true → rmask_wf (full_mask t).
Proof. intros H. split; [done |]. apply msk_ok_ones. Qed.

Lemma load_exact_ok fs t f :
  fs_exact fs → registered t = true → find fs t = Some f → load_exact fs t = Ok (f_val f).
Proof.
  intros [Hw He] Ht Hf. unfold load_exact. rewrite load_ok by (done || by apply full_mask_wf).
  cbn [mbind res_bind]. unfold pload, entry. cbn [m_type]. rewrite Hf. cbn [default].
  destruct (fs_wf_lookup _ _ _ Hw Ht Hf) as [Et [_ [[Hm _] Hv]]]. pose proof (He _ _ Hf) as Hx.
  unfold fexact in Hx. rewrite (proj2 (f_exact_spec _)).
  - cbn. by rewrite <- Et, <- Hx, Hv.
  - unfold fexact. cbn. rewrite Hx, Et. apply N.land_diag.
Qed.

Definition bucket (s : FlowSettings) (a : field_set) (f : field) : Actions :=
  MkActions (f_val f) 0 (secs (idle_timeout s)) (secs (hard_timeout s)) (perase a (full_mask out_port)).

Lemma bucket_of_ok s a :
  fs_exact a → bucket_of s a = Ok (bucket s a <$> find a out_port).
Proof.
  intros Ha. unfold bucket_of. destruct (find a out_port) as [f|] eqn:E; [| done].
  rewrite (load_exact_ok a out_port f) by done. cbn [mbind res_bind].
  rewrite erase_ok by (apply Ha || by apply full_mask_wf). done.
Qed.

Lemma acts_outs_set_fields rg l rest v :
  full v → fs_wf l → acts_outs rg (map SetField (elements l) ++ rest) v = acts_outs rg rest (vapply l v).
Proof.
  intros Hv Hl. pose proof (modify_all_vapply l v Hl Hv) as E. revert E. generalize (vapply l v) as w.
  generalize (elements l). intros fs. revert v Hv. induction fs as [|f fs IH]; intros v Hv w E; cbn in *.
  - by injection E as ->.
  - destruct (vmodify v f) as [v'|] eqn:Ef; [| done]. cbn in E. apply IH; [| done].
    unfold vmodify in Ef. destruct (v !! tkey (f_type f)) as [x|]; [| done]. injection Ef as <-.
    by apply full_insert.
Qed.

Lemma convert_outs rg p i h fs v :
  full v → fs_wf fs →
  acts_outs rg (convert (MkActions p 0 i h fs)) v = if (p =? 0)%N then [] else [(p, vapply fs v)].
Proof.
  intros Hv Hf. unfold convert. cbn [set_fields act_out_port act_group_id].
  rewrite acts_outs_set_fields by done. rewrite N.eqb_refl, app_nil_r. by destruct (p =? 0)%N.
Qed.

Lemma bucket_outs rg s a f v :
  full v → fs_exact a → find a out_port = Some f →
  acts_outs rg (convert (bucket s a f)) v = outputs a v.
Proof.
  intros Hv Ha E. unfold bucket, outputs. rewrite E, convert_outs; [done | done |].
  apply perase_wf; [apply Ha | by apply full_mask_wf].
Qed.

Lemma buckets_ok s actions :
  Forall fs_exact actions →
  ∃ bs, buckets_of s actions = Ok bs ∧
    ∀ rg v, full v → concat (map (λ b, acts_outs rg (convert b) v) bs) = concat (map (λ a, outputs a v) actions).
Proof.
  induction 1 as [|a actions Ha _ (bs & E & Ho)]; cbn [buckets_of].
  - by exists [].
  - rewrite bucket_of_ok by done. cbn [mbind res_bind]. rewrite E. cbn [mbind res_bind].
    destruct (find a out_port) as [f|] eqn:Ef; cbn [fmap option_fmap option_map].
    + eexists. split; [done |]. intros rg v Hv. cbn [map concat]. rewrite Ho by done. f_equal. by apply bucket_outs.
    + eexists. split; [done |]. intros rg v Hv. cbn [map concat]. rewrite Ho by done.
      unfold outputs at 2. by rewrite Ef.
Qed.

Lemma find_last {A} (f : A → bool) l x : (∀ y, y ∈ l → f y = false) → f x = true → List.find f (l ++ [x]) = Some x.
Proof.
  induction l as [|y l IH]; intros Hl Hx; cbn; [by rewrite Hx |].
  rewrite Hl by by left. apply IH; [| done]. intros z Hz. apply Hl. by right.
Qed.

(** [installRule] through the backend. *)
Lemma rule_kept_entry b dpid d m prio acts :
  let b' := rule_kept b dpid d m prio acts in
  ∃ d', m_drivers b' !! dpid = Some d' ∧ group_table (sent d') = group_table (sent d) ∧
    flow_table (sent d') = flow_table (sent d) ++
      [FlowEntry (m_cookie_gen d) (m_table b) m prio (to_u16 (act_idle_timeout acts))
                 (to_u16 (act_hard_timeout acts)) (convert acts)].
Proof.
  unfold rule_kept. destruct (installRule d m prio acts (m_table b)) as [cookie d'] eqn:E.
  apply installed_table in E as (-> & _ & _ & Eg & Ef). exists d'. cbn. by rewrite lookup_insert_eq.
Qed.

Lemma convert_group id : id ≠ 0%N → convert (MkActions 0 id 0 0 ∅) = [ToGroup id].
Proof. intros H. unfold convert. cbn [act_group_id]. by rewrite (proj2 (N.eqb_neq id 0)). Qed.

Lemma install_on_entry b dpid d m actions prio s :
  m_drivers b !! dpid = Some d → owned (m_storage b) dpid d → m_id_gen d ≠ 0%N → Forall fs_exact actions → actions ≠ [] →
  ∃ b' d' e, install_on b dpid m actions prio s = Ok b' ∧ m_drivers b' !! dpid = Some d' ∧
    flow_table (sent d') = flow_table (sent d) ++ [e] ∧ e_match e = m ∧ e_prio e = prio ∧
    ∀ v, full v → entry_outs d' e v = concat (map (λ a, outputs a v) actions).
Proof.
  intros Hd (_ & _ & O3 & O4 & _) Hid0 Ha Hne. destruct (buckets_ok s actions Ha) as (bs & E & Ho).
  unfold install_on. rewrite Hd, E. destruct actions as [|a actions]; [done |]. clear Hne. cbn [mbind res_bind].
  destruct bs as [|acts [|acts' bs]].
  - destruct (rule_kept_entry b dpid d m prio no_actions) as (d' & H1 & _ & H2).
    eexists _, d', _. split_and!; [done | done | done | done | done |].
    intros v Hv. rewrite <- (Ho (group_outs (group_table (sent d'))) v Hv). done.
  - destruct (rule_kept_entry b dpid d m prio acts) as (d' & H1 & _ & H2).
    eexists _, d', _. split_and!; [done | done | done | done | done |].
    intros v Hv. rewrite <- (Ho (group_outs (group_table (sent d'))) v Hv). cbn [map concat].
    by rewrite app_nil_r.
  - destruct (installGroup d (acts :: acts' :: bs)) as [id d1] eqn:Eg.
    assert (Hid : id = m_id_gen d ∧
      group_table (sent d1) = group_table (sent d) ++ [(id, map convert (acts :: acts' :: bs))] ∧
      flow_table (sent d1) = flow_table (sent d)).
    { injection Eg as <- <-. unfold flow_table, group_table. cbn [sent send].
      by rewrite !fold_left_app. }
    destruct Hid as (Ei & Egt & Eft).
    set (b1 := store (with_driver b dpid d1) (GroupObj dpid id)).
    destruct (rule_kept_entry b1 dpid d1 m prio (MkActions 0 id 0 0 ∅)) as (d' & H1 & H2 & H3).
    eexists _, d', _. rewrite Eft in H3. split_and!; [done | done | done | done | done |].
    intros v Hv. rewrite <- (Ho (λ _ _, []) v Hv). unfold entry_outs. cbn [e_acts]. rewrite H2, Egt.
    assert (Hfind : List.find (λ g, (g.1 =? id)%N)
              (group_table (sent d) ++ [(id, map convert (acts :: acts' :: bs))])
            = Some (id, map convert (acts :: acts' :: bs))).
    { apply find_last; [| apply N.eqb_refl]. intros g Hg. apply N.eqb_neq.
      assert (Hin : g.1 ∈ group_ids dpid (m_storage b)).
      { rewrite <- O3. apply list_elem_of_In, in_map, list_elem_of_In. done. }
      apply O4 in Hin. lia. }
    rewrite convert_group by (by subst id). cbn [acts_outs]. rewrite app_nil_r.
    unfold group_outs. rewrite Hfind. cbn [snd]. by rewrite map_map.
Qed.

End Owned.

(** ** Properties *)

(** C37: the rules go with the backend.  Install any rules on switches with fresh
    drivers, fewer than the counters tell apart: when a deletion that names no
    table reaches the table of the backend, every rule and group a switch then
    holds belongs to an object of the storage, and the destruction of the
    backend leaves every switch empty. *)
Theorem rules_owned_and_removed {UT : UnsetTable} rs drivers table b :
  let b0 := Backend drivers [] table in
  deletions_reach table →
  map_Forall (λ _ d, d = new_driver) drivers →
  (N.of_nat (length rs) * rule_cost b0 < 2 ^ 16 - 630)%N →
  install_rules b0 rs = Ok b →
  backend_owned table b ∧
  ∀ dpid d, m_drivers (destroy_backend b) !! dpid = Some d →
    flow_table (sent d) = [] ∧ group_table (sent d) = [].
Proof.
  intros b0 Hreach Hd Hlen E. apply (install_rules_steps table Hreach) in E as [_ H].
  destruct (H 0%N) as [Ho Hr].
  - split; [done |]. intros dpid d Hx. rewrite (Hd dpid d Hx). apply new_driver_owned.
  - intros dpid d Hx. rewrite (Hd dpid d Hx). cbn [m_cookie_gen m_id_gen new_driver].
    change (2 ^ 36)%N with 68719476736%N. change (2 ^ 16)%N with 65536%N in *. lia.
  - split; [done |]. by apply (destroy_backend_empty table).
Qed.

Lemma rules_owned_and_removed_witness :
  let b0 := Backend {[ 1%N := new_driver; 2%N := new_driver ]} [] 2 in
  let rs := [Rule ∅ 7 (Install [of_list [Field out_port 3 0xffffffff]] default_settings); Rule ∅ 9 Barrier] in
  ∃ b, install_rules b0 rs = Ok b ∧ backend_owned (UT := 0xff%N) 2 b.
Proof.
  intros b0 rs. destruct (install_rules b0 rs) as [b|] eqn:E; [| exfalso; by vm_compute in E].
  exists b. split; [done |].
  apply (rules_owned_and_removed (UT := 0xff%N) rs {[ 1%N := new_driver; 2%N := new_driver ]} 2 b);
    [by left | | by vm_compute | done].
  apply map_Forall_insert_2; [done |]. by apply map_Forall_singleton.
Defined.

(** rules that outlive the backend.  When a new flow-mod of libfluid has
    another table than the backend and not all of them, the rule that a leaf
    installs is still there when the backend is destroyed. *)
Theorem rules_outlive_backend (t table : N) (b : backend) :
  t ≠ OFPTT_ALL → t ≠ table →
  install_rules (Backend {[ 1%N := new_driver ]} [] table)
    [Rule ∅ 7 (Install [of_list [Field out_port 3 0xffffffff]] default_settings)] = Ok b →
  ∃ d, m_drivers (destroy_backend b) !! 1%N = Some d ∧ map e_table (flow_table (UT := t) (sent d)) = [table] ∧
    m_storage (destroy_backend b) = [].
Proof.
  intros Ha Ht [= <-]. eexists. split_and!; [reflexivity | | done].
  cbv -[N.eqb OFPTT_ALL]. by rewrite (proj2 (N.eqb_neq t OFPTT_ALL) Ha), (proj2 (N.eqb_neq table t) (not_eq_sym Ht)).
Qed.

Lemma rules_outlive_backend_witness :
  ∃ b d, install_rules (Backend {[ 1%N := new_driver ]} [] 2)
      [Rule ∅ 7 (Install [of_list [Field out_port 3 0xffffffff]] default_settings)] = Ok b ∧
    m_drivers (destroy_backend b) !! 1%N = Some d ∧ map e_table (flow_table (UT := 0%N) (sent d)) = [2%N].
Proof.
  destruct (install_rules (Backend {[ 1%N := new_driver ]} [] 2) _) as [b|] eqn:E; [| exfalso; by vm_compute in E].
  destruct (rules_outlive_backend 0 2 b) as (d & H1 & H2 & _); [done | done | exact E |]. by exists b, d.
Defined.

(** an installed rule does what the leaf says.  For exact actions, at least
    one, [install_on] adds one entry to the switch, with the match and the
    priority given, and the entry, through a group where there are several
    actions, sends out of each port the packet with the action's fields set. *)
Theorem installed_rule_outputs {UT : UnsetTable} b dpid d m actions prio s :
  m_drivers b !! dpid = Some d → owned (m_table b) (m_storage b) dpid d → m_id_gen d ≠ 0%N →
  Forall fs_exact actions → actions ≠ [] →
  ∃ b' d' e, install_on b dpid m actions prio s = Ok b' ∧ m_drivers b' !! dpid = Some d' ∧
    flow_table (sent d') = flow_table (sent d) ++ [e] ∧ e_match e = m ∧ e_prio e = prio ∧
    ∀ v, full v → entry_outs d' e v = concat (map (λ a, outputs a v) actions).
Proof. apply install_on_entry. Qed.

Lemma installed_rule_outputs_witness :
  let b := Backend {[ 1%N := new_driver ]} [] 0 in
  let acts := [of_list [Field out_port 3 0xffffffff]; of_list [Field out_port 4 0xffffffff]] in
  ∃ b' d' e, install_on b 1 ∅ acts 7 default_settings = Ok b' ∧ m_drivers b' !! 1%N = Some d' ∧
    entry_outs d' e zero_packet = concat (map (λ a, outputs a zero_packet) acts).
Proof.
  intros b acts.
  destruct (installed_rule_outputs (UT := 0%N) b 1 new_driver ∅ acts 7 default_settings) as (b' & d' & e & H1 & H2 & _ & _ & _ & H);
    [done | apply new_driver_owned | done | | done |].
  - repeat apply Forall_cons_2; [.. | by apply Forall_nil];
      apply fs_exact_single; (split; [split; [done | split; [by apply msk_ok_test | done]] | done]).
  - exists b', d', e. split_and!; [done | done |]. apply H, full_zero.
Defined.

(** the rule of a leaf that sends nothing on does not stay: its pointer is
    dropped, the destructor deletes it, and, when the deletion reaches the
    table, the switch holds what it held. *)
Theorem drop_rule_does_not_stay {UT : UnsetTable} b dpid d m prio s :
  deletions_reach (m_table b) →
  m_drivers b !! dpid = Some d → backend_owned (m_table b) b → room b 1 → hard_timeout s ≠ 0%N →
  ∃ b' d', install_on b dpid m [] prio s = Ok b' ∧ m_drivers b' !! dpid = Some d' ∧
    sent d' ≠ sent d ∧ map e_cookie (flow_table (sent d')) = map e_cookie (flow_table (sent d)) ∧
    m_storage b' = m_storage b.
Proof.
  intros Hreach Hd Ho Hr Hs. unfold install_on. rewrite Hd.
  destruct (rule_dropped_steps (m_table b) Hreach b dpid d m prio no_actions Hd) as [_ Hst].
  destruct (Hst 0%N Ho Hr) as [Ho' _]. destruct (proj2 Ho dpid d Hd) as (O1 & _).
  unfold rule_dropped in *. destruct (installRule d m prio no_actions (m_table b)) as [cookie d1] eqn:E.
  eexists _, _. split_and!; [done | apply lookup_insert_eq | | | done].
  - injection E as <- <-. cbn. rewrite <- app_assoc. intros H. apply (f_equal length) in H.
    rewrite length_app in H. cbn in H. lia.
  - destruct (proj2 Ho' dpid (destroyRule d1 cookie)) as (O1' & _); [apply lookup_insert_eq |].
    rewrite O1', O1. done.
Qed.

Lemma drop_rule_does_not_stay_witness :
  let b := Backend {[ 1%N := new_driver ]} [] 0 in
  ∃ b' d', install_on b 1 ∅ [] 7 default_settings = Ok b' ∧ m_drivers b' !! 1%N = Some d' ∧
    map e_cookie (flow_table (UT := 0%N) (sent d')) = [].
Proof.
  intros b.
  assert (Hone : ∀ dpid d, m_drivers b !! dpid = Some d → d = new_driver).
  { intros dpid d H. cbn in H. by apply lookup_singleton_Some in H as [_ <-]. }
  destruct (drop_rule_does_not_stay (UT := 0%N) b 1 new_driver ∅ 7 default_settings) as (b' & d' & H1 & H2 & _ & H & _);
    [by right | done | | | done |].
  - split; [done |]. intros dpid d Hd. rewrite (Hone _ _ Hd). apply new_driver_owned.
  - intros dpid d Hd. rewrite (Hone _ _ Hd). by vm_compute.
  - by exists b', d'.
Defined.

(** timeouts get lost on the way to the switch: one of 65536 seconds wraps
    to none at all, and a rule with two outputs goes through a group and has
    none whatever the policy says. *)
Theorem timeouts_lost :
  let out p := of_list [Field out_port p 0xffffffff] in
  let b := Backend {[ 1%N := new_driver ]} [] 0 in
  let timeouts actions s := match install_on b 1 ∅ actions 7 s with
    | Ok b' => match m_drivers b' !! 1%N with
               | Some d => map (λ e, (e_idle e, e_hard e)) (flow_table (UT := 0%N) (sent d))
               | None => []
               end
    | Throw _ => []
    end in
  timeouts [out 3%N] (Settings 10 20) = [(10, 20)]%N ∧
  timeouts [out 3%N] (Settings 10 65536) = [(10, 0)]%N ∧
  timeouts [out 3%N; out 4%N] (Settings 10 20) = [(0, 0)]%N.
Proof. by vm_compute. Qed.

(** without a backend, before the first switch or after [clearRules], no
    packet-in is ever handled: the handler dereferences the null backend. *)
Theorem no_backend_no_handling r pkt data dpid :
  m_backend r = None →
  (∀ n r', on_packet_in n r pkt data dpid ≠ Ret r') ∧
  (∀ n table main, on_packet_in (S n) (init table main) pkt data dpid = Raise Terminate).
Proof.
  intros Hb. split; [| done]. intros n r' E. unfold on_packet_in in E. rewrite Hb in E.
  destruct (traverse_fdd n false _ _ _ _ _) as [w | |]; [| done | done]. cbn [mbind comp_bind] in E.
  destruct (existsb _ _); [done |]. unfold the_backend in E. cbn [with_fdd m_backend] in E.
  by rewrite Hb in E.
Qed.

Lemma no_backend_no_handling_witness :
  on_packet_in 1 (clearRules (init 0 None)) zero_packet [] 1 ≠ Ret (init 0 None).
Proof. by apply (no_backend_no_handling (clearRules (init 0 None)) zero_packet [] 1). Defined.
