(* ===== verification/FullFieldSet.v ===== *)
(** * FullFieldSet: sets with several fields of one type, the expirementer
    namespace of oxm/field_set.hh

    [multi_field_set] holds alternatives: a packet satisfies it when, for
    every type that has elements, it satisfies one of them ([msatb]).
    [fields] expands it into plain field sets, one for each choice, and the
    theorem is that they describe the same packets.  The multimap is the list
    of its elements and the set of used types the list of types, both in
    insertion order.  [full_field_set] pairs what is included with what is
    excluded. *)

From S2P Require Import Prelude Bits Oxm FieldSet Packet Valuation Fdd FddCompiler FddCorrect.
From S2P Require Import FddTranslator Tracer TraceTree.

(** ** One type's fields *)

(** [lhs < rhs]: lhs included in rhs. *)
Definition included_in (lhs rhs : field) : res bool :=
  let rhs_bits := f_msk rhs in
  if (N.land (f_msk lhs) rhs_bits =? rhs_bits)%N then field_match_field lhs rhs else Ok false.

Record multi_field_set : Type := Multi { elems : list field; used_types : list otype }.

Definition multi_empty : multi_field_set := Multi [] [].

Definition of_type (t : otype) (f : field) : bool := type_eqb (f_type f) t.

(** [equal_range] *)
Definition equal_range (s : multi_field_set) (t : otype) : list field := List.filter (of_type t) (elems s).

(** The loop of [add]: it returns when an element covers [f], and erases the
    elements [f] covers.  The flag says that [f] is to be inserted. *)
Fixpoint add_loop (f : field) (l : list field) : res (list field * bool) :=
  match l with
  | [] => Ok ([], true)
  | g :: l =>
      if of_type (f_type f) g then
        covered ← included_in f g;
        if covered : bool then Ok (g :: l, false)
        else
          covers ← included_in g f;
          '(l', b) ← add_loop f l;
          Ok (if covers : bool then l' else g :: l', b)
      else '(l', b) ← add_loop f l; Ok (g :: l', b)
  end.

Definition add (s : multi_field_set) (f : field) : res multi_field_set :=
  '(l, insert) ← add_loop f (elems s);
  if insert : bool then
    Ok (Multi (l ++ [f]) (if existsb (type_eqb (f_type f)) (used_types s) then used_types s
                          else used_types s ++ [f_type f]))
  else Ok (Multi l (used_types s)).

(** [erase]: the masked bits go, and the elements left with none. *)
Fixpoint erase_loop (m : mask) (l : list field) : res (list field) :=
  match l with
  | [] => Ok []
  | g :: l =>
      if of_type (m_type m) g then
        nm ← mask_not m;
        g' ← field_and_mask g nm;
        l' ← erase_loop m l;
        Ok (if f_wildcard g' then l' else g' :: l')
      else l' ← erase_loop m l; Ok (g :: l')
  end.

Definition multi_erase (s : multi_field_set) (m : mask) : res multi_field_set :=
  l ← erase_loop m (elems s); Ok (Multi l (used_types s)).

(** [fields]: one field set for each choice of an element of every type. *)
Fixpoint fields_from (s : multi_field_set) (types : list otype) (fs : field_set) : res (list field_set) :=
  match types with
  | [] => Ok [fs]
  | t :: types =>
      match equal_range s t with
      | [] => fields_from s types fs
      | its =>
          (fix loop (its : list field) (fs : field_set) : res (list field_set) :=
             match its with
             | [] => Ok []
             | it :: its =>
                 fs1 ← modify fs it;
                 one ← fields_from s types fs1;
                 fs2 ← erase fs1 (mask_of it);
                 rest ← loop its fs2;
                 Ok (one ++ rest)
             end) its fs
      end
  end.

Definition fields (s : multi_field_set) : res (list field_set) := fields_from s (used_types s) ∅.

(** ** Included and excluded *)

Record full_field_set : Type := Full { included : multi_field_set; excluded : multi_field_set }.

Definition full_empty : full_field_set := Full multi_empty multi_empty.

Definition full_add (s : full_field_set) (f : field) : res full_field_set :=
  i ← add (included s) f; Ok (Full i (excluded s)).
Definition full_erase (s : full_field_set) (m : mask) : res full_field_set :=
  i ← multi_erase (included s) m; Ok (Full i (excluded s)).
Definition full_exclude (s : full_field_set) (f : field) : res full_field_set :=
  e ← add (excluded s) f; Ok (Full (included s) e).
Definition full_include (s : full_field_set) (m : mask) : res full_field_set :=
  e ← multi_erase (excluded s) m; Ok (Full (included s) e).

(** ** Meaning *)

(** A type without elements says nothing. *)
Definition type_satb (s : multi_field_set) (v : vpacket) (t : otype) : bool :=
  match equal_range s t with
  | [] => true
  | its => existsb (λ f, satb (vview v t) f) its
  end.

Definition msatb (s : multi_field_set) (v : vpacket) : bool := forallb (type_satb s v) (used_types s).

(** Every element is a well-formed field of a used type, and no type is
    listed twice. *)
Definition multi_wf (s : multi_field_set) : Prop :=
  Forall (λ f, rfield_wf f ∧ f_msk f ≠ 0%N ∧ f_type f ∈ used_types s) (elems s) ∧
  NoDup (used_types s) ∧ Forall (λ t, registered t = true) (used_types s).

Lemma equal_range_spec s t f :
  multi_wf s → registered t = true → f ∈ equal_range s t →
  rfield_wf f ∧ f_msk f ≠ 0%N ∧ f_type f = t.
Proof.
  intros (He & _) Ht Hf. apply list_elem_of_In, filter_In in Hf as [Hf E].
  rewrite Forall_elem in He. apply list_elem_of_In in Hf. destruct (He f Hf) as (Hw & Hm & _).
  split_and!; [done | done |]. by apply registry_keys_inj; [apply Hw | |].
Qed.

Lemma existsb_app_map {A} (f : A → bool) l1 l2 : existsb f (l1 ++ l2) = existsb f l1 || existsb f l2.
Proof. apply existsb_app. Qed.

(** ** The expansion describes the same packets *)

Lemma fields_from_ok s v types : ∀ fs,
  multi_wf s → fs_wf fs → NoDup types → Forall (λ t, registered t = true ∧ find fs t = None) types →
  ∃ l, fields_from s types fs = Ok l ∧
    existsb (λ g, fs_satb g v) l = fs_satb fs v && forallb (type_satb s v) types.
Proof.
  induction types as [|t types IH]; intros fs Hs Hfs Hnd Hty; cbn [fields_from forallb].
  { exists [fs]. split; [done |]. cbn. by rewrite orb_false_r, andb_true_r. }
  inversion Hnd as [|? ? Hnt Hnd']; subst. apply Forall_cons_1 in Hty as [[Hr Hnone] Hty].
  unfold type_satb at 1.
  assert (Hits : Forall (λ f, rfield_wf f ∧ f_msk f ≠ 0%N ∧ f_type f = t) (equal_range s t)).
  { apply Forall_elem. intros f Hf. by apply (equal_range_spec s). }
  assert (H : ∀ its, Forall (λ f, rfield_wf f ∧ f_msk f ≠ 0%N ∧ f_type f = t) its →
    ∃ l, (fix loop (its : list field) (fs : field_set) : res (list field_set) :=
             match its with
             | [] => Ok []
             | it :: its =>
                 fs1 ← modify fs it;
                 one ← fields_from s types fs1;
                 fs2 ← erase fs1 (mask_of it);
                 rest ← loop its fs2;
                 Ok (one ++ rest)
             end) its fs = Ok l ∧
      existsb (λ g, fs_satb g v) l
      = fs_satb fs v && (existsb (λ f, satb (vview v t) f) its && forallb (type_satb s v) types)).
  { induction 1 as [|it its (Hw & Hm & Et) _ IHi]; [exists []; by rewrite andb_false_r |].
    rewrite modify_ok by done. cbn [mbind res_bind].
    assert (Hn : find fs (f_type it) = None) by by rewrite Et.
    destruct (IH (pmodify fs it)) as (one & Eo & Ho); [done | by apply pmodify_wf | done | |].
    { apply Forall_elem. intros t' Ht'. rewrite Forall_elem in Hty. destruct (Hty t' Ht') as [Hr' Hn'].
      split; [done |]. rewrite find_pmodify_ne; [done |]. rewrite Et. intros Ek.
      apply Hnt. assert (t' = t) as <- by by apply registry_keys_inj; [| | apply type_eqb_key]. done. }
    rewrite Eo. cbn [mbind res_bind].
    rewrite erase_ok by (by apply pmodify_wf || by apply mask_of_wf). cbn [mbind res_bind].
    rewrite perase_pmodify_fresh by done. destruct IHi as (rest & Erest & Hrest). rewrite Erest.
    eexists. split; [done |]. rewrite existsb_app, Ho, Hrest, fs_satb_pmodify, Et by done. cbn [existsb].
    by destruct (fs_satb fs v), (satb (vview v t) it), (existsb _ its), (forallb _ types). }
  destruct (equal_range s t) as [|it its]; [by apply IH |]. exact (H (it :: its) Hits).
Qed.

(** ** What [add] and [erase] do *)

Lemma included_in_sound f g b :
  rfield_wf f → rfield_wf g → f_type f = f_type g → included_in f g = Ok b → b = true →
  ∀ x, satb x f = true → satb x g = true.
Proof.
  intros Hf Hg E H -> x Hx. unfold included_in in H. destruct (_ =? _)%N eqn:Em; [| done].
  rewrite field_match_ok' in H by done. injection H as H. unfold fmatch, satb in *.
  apply N.eqb_eq in Em, H, Hx. apply N.eqb_eq. destruct Hg as [_ [_ Hgv]]. unfold bits_sub in Hgv.
  revert Em H Hx Hgv. generalize (f_msk f) (f_val f) (f_msk g) (f_val g). intros fm fv gm gv Em H Hx Hgv.
  bitwise i.
Qed.

Lemma included_in_ok f g :
  rfield_wf f → rfield_wf g → f_type f = f_type g → ∃ b, included_in f g = Ok b.
Proof.
  intros Hf Hg E. unfold included_in. destruct (_ =? _)%N; [| by eexists].
  rewrite field_match_ok' by done. by eexists.
Qed.

Definition elem_wf (f : field) : Prop := rfield_wf f ∧ f_msk f ≠ 0%N.

(** The alternatives of the type after [add]: those before, and [f]. *)
Lemma add_loop_ok f l :
  elem_wf f → Forall elem_wf l →
  ∃ l' b, add_loop f l = Ok (l', b) ∧ (∀ g, g ∈ l' → g ∈ l) ∧
    (∀ t, type_eqb (f_type f) t = false → List.filter (of_type t) l' = List.filter (of_type t) l) ∧
    ∀ x, existsb (λ g, satb x g) (List.filter (of_type (f_type f)) l') || (b && satb x f)
         = existsb (λ g, satb x g) (List.filter (of_type (f_type f)) l) || satb x f.
Proof.
  intros [Hf Hfm]. induction 1 as [|g l [Hg Hgm] Hl (l' & b & E & Hin & Hother & Hsat)]; cbn [add_loop].
  { exists [], true. by split_and!. }
  destruct (of_type (f_type f) g) eqn:Et.
  - assert (Etg : f_type g = f_type f) by (apply registry_keys_inj; [apply Hg | apply Hf | exact Et]).
    destruct (included_in_ok f g) as [c1 E1]; [done | done | done |]. rewrite E1. cbn [mbind res_bind].
    destruct c1.
    + exists (g :: l), false. split_and!; [done | done | done |]. intros x. cbn [List.filter]. rewrite Et.
      cbn [existsb andb]. rewrite orb_false_r. destruct (satb x f) eqn:Ex; [| by rewrite orb_false_r].
      by rewrite (included_in_sound f g true Hf Hg (eq_sym Etg) E1 eq_refl x Ex).
    + destruct (included_in_ok g f) as [c2 E2]; [done | done | done |]. rewrite E2, E. cbn [mbind res_bind].
      eexists _, b. split; [done |]. split_and!.
      * intros y. destruct c2; [| intros [-> | Hy]%elem_of_cons; [by left |]]; intros; right; auto.
      * intros t Ht. assert (Hgt : of_type t g = false).
        { unfold of_type. rewrite Etg. exact Ht. }
        cbn [List.filter]. rewrite Hgt. destruct c2; cbn [List.filter]; [| rewrite Hgt]; by apply Hother.
      * intros x. cbn [List.filter]. rewrite Et. cbn [existsb]. destruct c2.
        -- rewrite Hsat. destruct (satb x g) eqn:Ex; [| done].
           rewrite (included_in_sound g f true Hg Hf Etg E2 eq_refl x Ex). by rewrite orb_true_r.
        -- cbn [List.filter]. rewrite Et. cbn [existsb]. by rewrite <- !orb_assoc, Hsat.
  - rewrite E. cbn [mbind res_bind]. exists (g :: l'), b. split; [done |]. split_and!.
    + intros y [-> | Hy]%elem_of_cons; [by left | right; auto].
    + intros t Ht. cbn [List.filter]. rewrite Hother by done. done.
    + intros x. cbn [List.filter]. by rewrite Et.
Qed.

Lemma add_ok s f :
  multi_wf s → elem_wf f →
  ∃ s', add s f = Ok s' ∧ multi_wf s' ∧
    (∀ t, type_eqb (f_type f) t = false → equal_range s' t = equal_range s t) ∧
    (∀ x, existsb (λ g, satb x g) (equal_range s' (f_type f))
          = existsb (λ g, satb x g) (equal_range s (f_type f)) || satb x f).
Proof.
  intros (He & Hnd & Hr) Hf.
  destruct (add_loop_ok f (elems s)) as (l & b & E & Hin & Hother & Hsat); [done | |].
  { eapply Forall_impl; [| exact He]. by intros g (? & ? & _). }
  assert (Hl : Forall (λ g, rfield_wf g ∧ f_msk g ≠ 0%N ∧ f_type g ∈ used_types s) l).
  { apply Forall_elem. intros g Hg. rewrite Forall_elem in He. auto. }
  unfold add. rewrite E. cbn [mbind res_bind]. destruct b; eexists; (split; [done |]).
  - set (types := if existsb (type_eqb (f_type f)) (used_types s) then used_types s
                  else used_types s ++ [f_type f]).
    assert (Hty : NoDup types ∧ Forall (λ t, registered t = true) types ∧ f_type f ∈ types ∧
                  ∀ t, t ∈ used_types s → t ∈ types).
    { subst types. destruct (existsb _ _) eqn:Ex.
      - apply existsb_exists in Ex as (t & Ht & Et). apply list_elem_of_In in Ht.
        rewrite Forall_elem in Hr. rewrite <- Forall_elem in Hr.
        assert (f_type f = t) as ->; [| by split_and!].
        apply registry_keys_inj; [apply Hf | | done]. rewrite Forall_elem in Hr. auto.
      - split_and!.
        + apply list.NoDup_app. split_and!; [done | | by apply NoDup_singleton].
          intros t Ht Ht'. apply list_elem_of_singleton in Ht' as ->.
          assert (existsb (type_eqb (f_type f)) (used_types s) = true); [| congruence].
          apply existsb_exists. exists (f_type f). split; [by apply list_elem_of_In | apply type_eqb_refl].
        + apply Forall_app. split; [done |]. apply Forall_cons_2; [apply Hf | by apply Forall_nil].
        + apply elem_of_app. right. by apply list_elem_of_singleton.
        + intros t Ht. apply elem_of_app. by left. }
    destruct Hty as (T1 & T2 & T3 & T4). split; [split_and!; cbn [elems used_types] | split].
    + apply Forall_app. split; [| apply Forall_cons_2; [| by apply Forall_nil]].
      * eapply Forall_impl; [| exact Hl]. cbn. naive_solver.
      * cbn. by destruct Hf.
    + done.
    + done.
    + intros t Ht. unfold equal_range. cbn [elems]. rewrite filter_app. cbn. unfold of_type at 2.
      rewrite Ht, app_nil_r. by apply Hother.
    + intros x. rewrite <- Hsat. unfold equal_range. cbn [elems]. rewrite filter_app, existsb_app. cbn.
      unfold of_type at 2. rewrite type_eqb_refl. cbn. by rewrite orb_false_r.
  - split; [by split_and! | split; [done |]].
    intros x. rewrite <- Hsat. by rewrite orb_false_r.
Qed.

(** ** A field of a type without elements *)

Lemma add_loop_fresh f l :
  List.filter (of_type (f_type f)) l = [] → add_loop f l = Ok (l, true).
Proof.
  induction l as [|g l IH]; cbn [List.filter add_loop]; [done |].
  destruct (of_type (f_type f) g); [done |]. intros H. by rewrite IH.
Qed.

Lemma erase_loop_fresh m l :
  List.filter (of_type (m_type m)) l = [] → erase_loop m l = Ok l.
Proof.
  induction l as [|g l IH]; cbn [List.filter erase_loop]; [done |].
  destruct (of_type (m_type m) g); [done |]. intros H. by rewrite IH.
Qed.

Definition with_type (types : list otype) (t : otype) : list otype :=
  if existsb (type_eqb t) types then types else types ++ [t].

Lemma add_fresh s f :
  equal_range s (f_type f) = [] →
  add s f = Ok (Multi (elems s ++ [f]) (with_type (used_types s) (f_type f))).
Proof. intros H. unfold add. by rewrite add_loop_fresh. Qed.

Lemma erase_fresh es types f :
  rfield_wf f → List.filter (of_type (f_type f)) es = [] →
  multi_erase (Multi (es ++ [f]) types) (mask_of f) = Ok (Multi es types).
Proof.
  intros Hf H. unfold multi_erase. cbn [elems].
  assert (E : erase_loop (mask_of f) (es ++ [f]) = Ok es); [| by rewrite E].
  induction es as [|g es IH]; cbn [app erase_loop mask_of m_type].
  - unfold of_type. rewrite type_eqb_refl. destruct (mask_of_wf _ Hf) as [Hr Hm].
    rewrite mask_not_ok by done. cbn [mbind res_bind].
    destruct (field_and_mask_ok f (mnot (mask_of f))) as [-> _];
      [apply Hf | by apply msk_ok_not | done |]. cbn [mbind res_bind].
    unfold f_wildcard, wildcard, none. cbn.
    replace (N.land (f_msk f) _) with 0%N by Nbits. done.
  - cbn [List.filter] in H. destruct (of_type (f_type f) g); [done |]. by rewrite IH.
Qed.

(** ** Elements of distinct types: a plain conjunction *)

Definition conjb (es : list field) (v : vpacket) : bool :=
  forallb (λ f, satb (vview v (f_type f)) f) es.

Lemma conjb_snoc es f v : conjb (es ++ [f]) v = conjb es v && satb (vview v (f_type f)) f.
Proof. unfold conjb. rewrite forallb_app. cbn. by rewrite andb_true_r. Qed.

(** ** The expansion *)

Lemma fields_ok s v :
  multi_wf s → ∃ l, fields s = Ok l ∧ existsb (λ fs, fs_satb fs v) l = msatb s v.
Proof.
  intros Hs. destruct (fields_from_ok s v (used_types s) ∅) as (l & E & H);
    [done | apply fs_wf_empty | apply Hs | |].
  - destruct Hs as (_ & _ & Hr). eapply Forall_impl; [| exact Hr]. intros t Ht. split; [done |].
    unfold find. apply lookup_empty.
  - exists l. split; [done |]. by rewrite H, fs_satb_empty.
Qed.

(** ** Erasing a type *)

Lemma erase_loop_type (t : otype) l :
  registered t = true → Forall elem_wf l →
  erase_loop (Mask t (N.ones (nbits t))) l = Ok (List.filter (λ f, negb (of_type t f)) l).
Proof.
  intros Ht. induction 1 as [|g l [Hg _] _ IH]; cbn [erase_loop List.filter m_type]; [done |].
  destruct (of_type t g) eqn:Et; cbn [negb]; rewrite IH; [| done].
  assert (Etg : f_type g = t) by (apply registry_keys_inj; [apply Hg | done | exact Et]).
  assert (Hm : mask_wf (Mask t (N.ones (nbits t)))) by apply msk_ok_ones.
  rewrite mask_not_ok by done. cbn [mbind res_bind].
  destruct (field_and_mask_ok g (mnot (Mask t (N.ones (nbits t))))) as [-> _]; [apply Hg | by apply msk_ok_not | done |].
  cbn [mbind res_bind]. unfold f_wildcard, wildcard, none. cbn.
  replace (N.land (f_msk g) _) with 0%N; [done |]. destruct Hg as (_ & [Hsub _] & _). rewrite Etg in Hsub.
  unfold bits_sub in Hsub. revert Hsub. generalize (f_msk g). intros fm Hsub. symmetry.
  rewrite <- Hsub. Nbits.
Qed.

Lemma multi_wf_elems s : multi_wf s → Forall elem_wf (elems s).
Proof. intros (He & _). eapply Forall_impl; [| exact He]. by intros f (? & ? & _). Qed.

(** Without the fields of a type, a set says nothing of the type and what it
    said of the others. *)
Lemma erase_type s t :
  multi_wf s → registered t = true →
  ∃ s', multi_erase s (Mask t (N.ones (nbits t))) = Ok s' ∧ multi_wf s' ∧
    ∀ v, msatb s v = type_satb s v t && msatb s' v.
Proof.
  intros Hs Ht. unfold multi_erase. rewrite erase_loop_type by (done || by apply multi_wf_elems).
  eexists. split; [done |]. pose proof Hs as (He & Hn & Hr).
  set (s' := Multi _ _).
  assert (Hin : ∀ f, f ∈ elems s' ↔ f ∈ elems s ∧ of_type t f = false).
  { intros f. subst s'. cbn [elems]. rewrite !list_elem_of_In, filter_In, negb_true_iff. done. }
  split.
  - split_and!; [| done | done]. apply Forall_elem. intros f Hf. rewrite Forall_elem in He. by apply He, Hin.
  - intros v. assert (Hother : ∀ t', registered t' = true → type_eqb t' t = false → equal_range s' t' = equal_range s t').
    { intros t' Ht' Hne. unfold equal_range. subst s'. cbn [elems]. clear - Hne He Ht Ht'.
      induction He as [|g l (Hg & _ & _) _ IH]; cbn [List.filter]; [done |].
      destruct (of_type t g) eqn:E1; cbn [negb List.filter]; [| destruct (of_type t' g); by rewrite IH].
      destruct (of_type t' g) eqn:E2; [| done]. exfalso. unfold of_type in *.
      apply type_eqb_key in E1, E2. rewrite E1 in E2. apply type_eqb_key in E2. rewrite type_eqb_sym in E2. congruence. }
    assert (Hempty : equal_range s' t = []).
    { destruct (equal_range s' t) as [|g l] eqn:E; [done |]. exfalso.
      assert (Hg : In g (equal_range s' t)) by (rewrite E; by left).
      apply filter_In in Hg as [Hg Hgt]. apply list_elem_of_In, Hin in Hg as [_ Hg]. congruence. }
    unfold msatb. cbn [used_types]. apply eq_true_iff_eq. rewrite andb_true_iff, !forallb_forall.
    assert (Hsat : ∀ t', In t' (used_types s) → type_satb s' v t' = (if type_eqb t' t then true else type_satb s v t')).
    { intros t' Ht'. unfold type_satb. destruct (type_eqb t' t) eqn:E.
      - assert (t' = t) as ->; [| by rewrite Hempty]. apply registry_keys_inj; [| done | exact E].
        rewrite Forall_elem in Hr. by apply Hr, list_elem_of_In.
      - rewrite Hother; [done | | done]. rewrite Forall_elem in Hr. by apply Hr, list_elem_of_In. }
    split.
    + intros H. split.
      * unfold type_satb. destruct (equal_range s t) as [|g l] eqn:E; [done |].
        assert (Hg : g ∈ equal_range s t) by (rewrite E; left).
        destruct (equal_range_spec s t g Hs Ht Hg) as (_ & _ & Et).
        apply list_elem_of_In, filter_In in Hg as [Hg _]. rewrite Forall_elem in He.
        destruct (He g (proj2 (list_elem_of_In _ _) Hg)) as (_ & _ & Hu). rewrite Et in Hu.
        specialize (H t (proj1 (list_elem_of_In _ _) Hu)). unfold type_satb in H. by rewrite E in H.
      * intros t' Ht'. rewrite Hsat by done. destruct (type_eqb t' t); [done | by apply H].
    + intros [Hty H] t' Ht'. specialize (H t' Ht'). rewrite Hsat in H by done.
      destruct (type_eqb t' t) eqn:E; [| done].
      assert (t' = t) as ->; [| done]. apply registry_keys_inj; [| done | exact E].
      rewrite Forall_elem in Hr. by apply Hr, list_elem_of_In.
Qed.

(** ** Properties *)

(** C38: the expansion is exact: [fields] never throws on a well-formed set, and
    a packet matches one of the field sets it returns if and only if for every
    type with elements it matches one of them. *)
Theorem fields_describe_the_set s v :
  multi_wf s →
  ∃ l, fields s = Ok l ∧ existsb (λ fs, fs_satb fs v) l = msatb s v.
Proof. apply fields_ok. Qed.

Definition sample_multi : multi_field_set :=
  Multi [Field in_port 1 0xffffffff; Field eth_type 0x800 0xffff; Field in_port 2 0xffffffff] [in_port; eth_type].

Lemma sample_multi_wf : multi_wf sample_multi.
Proof.
  split_and!.
  - repeat apply Forall_cons_2; [.. | by apply Forall_nil];
      (split; [split; [done | split; [by apply msk_ok_test | done]] | split; [done |]]);
      first [by left | by right; left].
  - apply list.NoDup_cons. split; [| by apply NoDup_singleton].
    intros H. apply list_elem_of_singleton in H. by vm_compute in H.
  - by repeat apply Forall_cons_2; [.. | apply Forall_nil].
Qed.

Lemma fields_describe_the_set_witness :
  ∃ l, fields sample_multi = Ok l ∧
    existsb (λ fs, fs_satb fs zero_packet) l = msatb sample_multi zero_packet.
Proof.
  destruct (fields_describe_the_set sample_multi zero_packet sample_multi_wf) as (l & E & H).
  by exists l.
Defined.

(** adding is a union.  [add] never throws and keeps the set well-formed;
    the other types keep their elements, and for the type of the field a
    packet's value matches an element after, if and only if it matched one
    before or matches the field, whatever was covered or dropped. *)
Theorem add_is_union s f :
  multi_wf s → elem_wf f →
  ∃ s', add s f = Ok s' ∧ multi_wf s' ∧
    (∀ t, type_eqb (f_type f) t = false → equal_range s' t = equal_range s t) ∧
    (∀ x, existsb (λ g, satb x g) (equal_range s' (f_type f))
          = existsb (λ g, satb x g) (equal_range s (f_type f)) || satb x f).
Proof. apply add_ok. Qed.

Lemma add_is_union_witness :
  ∃ s', add sample_multi (Field in_port 3 0xffffffff) = Ok s' ∧ multi_wf s'.
Proof.
  destruct (add_is_union sample_multi (Field in_port 3 0xffffffff) sample_multi_wf) as (s' & E & H & _).
  - split; [split; [done | split; [by apply msk_ok_test | done]] | done].
  - by exists s'.
Defined.
