(* ===== verification/MapleTree.v ===== *)
(** * MapleTree: maple's trace tree, maple/TraceTree.hh and .cc, maple/Backend.hh

    A tree owns its test and load children; the children of a vload node are
    shared ([shared_ptr]), so they are roots of their own in a forest, and a
    pointer into the tree is a root and the steps from it.  [TracerImpl] keeps
    such a pointer; the addresses of an unordered_map's elements do not move,
    nor do the steps.  Flows are numbers; which of them are still alive is a
    parameter, as it is for a weak_ptr.  What the backend is called with is
    the list of calls. *)

From S2P Require Import Prelude Bits Oxm FieldSet Packet Policy Valuation Fdd FddCompiler FddCorrect.
From S2P Require Import FddTranslator Tracer TraceTree FullFieldSet.

Abbreviation flow_ptr := N.

(** ** The tree *)

Inductive mnode : Type :=
| MUnexplored
| MFlow (flow : flow_ptr) (prio : N)
| MVload (m : mask) (cases : list (N * loc))
| MTest (need : field) (positive negative : mnode) (id prio : N)
| MLoad (m : mask) (cases : list (N * mnode)).

(** A step down: a case of a load, a branch of a test. *)
Abbreviation step := (N + bool)%type.
Abbreviation path := (list step).
Abbreviation pointer := (loc * path)%type.

Section Cases.
Context {A : Type}.
Fixpoint assoc (cases : list (N * A)) (v : N) : option A :=
  match cases with
  | [] => None
  | (w, a) :: cases => if (w =? v)%N then Some a else assoc cases v
  end.
(** [cases[v] = a] *)
Fixpoint assoc_set (cases : list (N * A)) (v : N) (a : A) : list (N * A) :=
  match cases with
  | [] => [(v, a)]
  | (w, b) :: cases => if (w =? v)%N then (w, a) :: cases else (w, b) :: assoc_set cases v a
  end.
End Cases.

Fixpoint get_at (t : mnode) (p : path) : option mnode :=
  match p with
  | [] => Some t
  | inl v :: p => match t with MLoad _ cases => c ← assoc cases v; get_at c p | _ => None end
  | inr b :: p => match t with MTest _ pos neg _ _ => get_at (if b : bool then pos else neg) p | _ => None end
  end.

Fixpoint set_at (t : mnode) (p : path) (n : mnode) : mnode :=
  match p with
  | [] => n
  | inl v :: p =>
      match t with
      | MLoad m cases =>
          match assoc cases v with
          | Some c => MLoad m (assoc_set cases v (set_at c p n))
          | None => t
          end
      | _ => t
      end
  | inr b :: p =>
      match t with
      | MTest need pos neg id prio =>
          if b : bool then MTest need (set_at pos p n) neg id prio
          else MTest need pos (set_at neg p n) id prio
      | _ => t
      end
  end.

(** The forest: the root and the shared nodes; new shared nodes and the
    static counter of [id_generator]. *)
Record forest : Type := Forest {
  trees : gmap loc mnode;
  next_tree : loc;
  next_id : N
}.

Definition root : loc := 1%positive.
Definition fresh_forest (next_id : N) : forest := Forest {[ root := MUnexplored ]} 2 next_id.

Definition node_at (fo : forest) (p : pointer) : option mnode :=
  t ← trees fo !! p.1; get_at t p.2.
Definition set_node (fo : forest) (p : pointer) (n : mnode) : forest :=
  match trees fo !! p.1 with
  | Some t => Forest (<[p.1 := set_at t p.2 n]> (trees fo)) (next_tree fo) (next_id fo)
  | None => fo
  end.
(** [std::make_shared<node>()] *)
Definition share (fo : forest) : loc * forest :=
  (next_tree fo, Forest (<[next_tree fo := MUnexplored]> (trees fo)) (Pos.succ (next_tree fo)) (next_id fo)).

(** ** Calls of the backend *)

Inductive call : Type :=
| CInstall (prio : N) (match_ : full_field_set) (flow : flow_ptr)
| CBarrierRule (prio : N) (match_ : full_field_set) (test : field) (id : N)
| CBarrier
| CRemove (match_ : field_set).

(** ** The tracer *)

Record tracer_impl : Type := TracerImpl {
  ti_forest : forest;
  ti_ptr : option pointer;
  left_prio : N;
  right_prio : N;
  isVloadOccured : bool;
  ti_match : full_field_set;
  vload_ends : option pointer * option loc;
  ovload_masks : option (mask * mask);
  ti_calls : list call
}.

Definition tracer_start (fo : forest) (left right : N) : tracer_impl :=
  TracerImpl fo (Some (root, [])) left right false full_empty (None, None) None [].

Definition push (p : pointer) (s : step) : pointer := (p.1, p.2 ++ [s]).

Definition moved (t : tracer_impl) (fo : forest) (p : pointer) : tracer_impl :=
  TracerImpl fo (Some p) (left_prio t) (right_prio t) (isVloadOccured t) (ti_match t) (vload_ends t)
             (ovload_masks t) (ti_calls t).
Definition with_full (t : tracer_impl) (m : full_field_set) : tracer_impl :=
  TracerImpl (ti_forest t) (ti_ptr t) (left_prio t) (right_prio t) (isVloadOccured t) m (vload_ends t)
             (ovload_masks t) (ti_calls t).
Definition with_prios (t : tracer_impl) (left right : N) : tracer_impl :=
  TracerImpl (ti_forest t) (ti_ptr t) left right (isVloadOccured t) (ti_match t) (vload_ends t)
             (ovload_masks t) (ti_calls t).
Definition called (t : tracer_impl) (c : call) : tracer_impl :=
  TracerImpl (ti_forest t) (ti_ptr t) (left_prio t) (right_prio t) (isVloadOccured t) (ti_match t)
             (vload_ends t) (ovload_masks t) (ti_calls t ++ [c]).

(** The node under the pointer; after [finish] the pointer is null. *)
Definition current (t : tracer_impl) : res (pointer * mnode) :=
  match ti_ptr t with
  | None => Throw Terminate
  | Some p => match node_at (ti_forest t) p with Some n => Ok (p, n) | None => Throw Terminate end
  end.

(** Going down a load: the node is made, or found under the same mask. *)
Definition step_load (t : tracer_impl) (data : field) : res tracer_impl :=
  '(p, n) ← current t;
  let v := f_val data in
  match n with
  | MUnexplored =>
      Ok (moved t (set_node (ti_forest t) p (MLoad (mask_of data) [(v, MUnexplored)])) (push p (inl v)))
  | MLoad m cases =>
      if mask_eqb m (mask_of data) then
        let cases' := match assoc cases v with Some _ => cases | None => assoc_set cases v MUnexplored end in
        Ok (moved t (set_node (ti_forest t) p (MLoad m cases')) (push p (inl v)))
      else Throw InconsistentTrace
  | _ => Throw InconsistentTrace
  end.

Definition impl_load (t : tracer_impl) (data : field) : res tracer_impl :=
  t' ← step_load t data;
  if isVloadOccured t then Ok t'
  else m ← full_add (ti_match t') data; Ok (with_full t' m).

Definition impl_vload (t : tracer_impl) (by_ what : field) : res tracer_impl :=
  match vload_ends t with
  | (None, None) =>
      '(p0, _) ← current t;
      let t0 := TracerImpl (ti_forest t) (ti_ptr t) (left_prio t) (right_prio t) true (ti_match t)
                  (Some p0, None) (Some (mask_of by_, mask_of what)) (ti_calls t) in
      t1 ← step_load t0 by_;
      '(p, n) ← current t1;
      let v := f_val what in
      let ended (l : loc) (fo : forest) :=
        TracerImpl fo (Some (l, [])) (left_prio t1) (right_prio t1) true (ti_match t1) (Some p0, Some l)
                   (ovload_masks t1) (ti_calls t1) in
      match n with
      | MUnexplored =>
          let '(l, fo) := share (ti_forest t1) in
          Ok (ended l (set_node fo p (MVload (mask_of what) [(v, l)])))
      | MVload m cases =>
          if mask_eqb m (mask_of what) then
            match assoc cases v with
            | Some l => Ok (ended l (ti_forest t1))
            | None =>
                let '(l, fo) := share (ti_forest t1) in
                Ok (ended l (set_node fo p (MVload m (assoc_set cases v l))))
            end
          else Throw InconsistentTrace
      | _ => Throw InconsistentTrace
      end
  | _ => Throw InconsistentTrace
  end.

Definition middle_prio (t : tracer_impl) : N := u16 ((left_prio t + right_prio t) / 2).
Definition prio_free (t : tracer_impl) (prio : N) : bool :=
  (left_prio t <? prio)%N && (prio <? right_prio t)%N.

Definition impl_test (t : tracer_impl) (pred : field) (ret : bool) : res tracer_impl :=
  '(p, n) ← current t;
  '(t', test_prio) ←
    (match n with
     | MUnexplored =>
         let test_prio := middle_prio t in
         _ ← require (prio_free t test_prio) PriorityExceeded;
         let fo := ti_forest t in
         let id := next_id fo in
         let fo' := set_node (Forest (trees fo) (next_tree fo) ((id + 1) mod 2 ^ 64)) p
                             (MTest pred MUnexplored MUnexplored id test_prio) in
         tmp_match ← full_add (ti_match t) pred;
         Ok (called (moved t fo' (push p (inr ret))) (CBarrierRule test_prio tmp_match pred id), test_prio)
     | MTest need _ _ _ prio =>
         if field_eqb need pred then Ok (moved t (ti_forest t) (push p (inr ret)), prio)
         else Throw InconsistentTrace
     | _ => Throw InconsistentTrace
     end);
  if ret : bool then
    let t1 := with_prios t' test_prio (right_prio t') in
    if isVloadOccured t then Ok t1 else m ← full_add (ti_match t1) pred; Ok (with_full t1 m)
  else
    let t1 := with_prios t' (left_prio t') test_prio in
    if isVloadOccured t then Ok t1 else m ← full_exclude (ti_match t1) pred; Ok (with_full t1 m).

#[export] Instance tracer_impl_ops : TracerOps tracer_impl :=
  {| tracer_load := impl_load; tracer_test := impl_test; tracer_vload := impl_vload |}.

(** ** Finishing *)

(** [Flow::virtual_fields] of maple/Flow.hh *)
Class FlowOps : Type := {
  virtual_fields : flow_ptr → mask → mask → list (field * field)
}.

Definition connect_nodes (fo : forest) (from : pointer) (to : loc) (by_ what : field) : res forest :=
  match node_at fo from with
  | Some (MLoad m cases) =>
      let v := f_val by_ in
      let w := f_val what in
      match default MUnexplored (assoc cases v) with
      | MUnexplored =>
          Ok (set_node fo from (MLoad m (assoc_set cases v (MVload (mask_of what) [(w, to)]))))
      | MVload m' vcases =>
          Ok (set_node fo from (MLoad m (assoc_set cases v (MVload m' (assoc_set vcases w to)))))
      | n => Ok (set_node fo from (MLoad m (assoc_set cases v n)))
      end
  | _ => Throw Terminate
  end.

Fixpoint connect_all (fo : forest) (from : pointer) (to : loc) (l : list (field * field)) : res forest :=
  match l with
  | [] => Ok fo
  | (by_, what) :: l => fo' ← connect_nodes fo from to by_ what; connect_all fo' from to l
  end.

(** The closure [finish] returns: compile from a node under a match. *)
Record installer : Type := Installer { in_node : pointer; in_match : full_field_set }.

Definition impl_finish `{FlowOps} (t : tracer_impl) (new_flow : flow_ptr) : res (tracer_impl * installer) :=
  '(p, n) ← current t;
  fo ← (match n with
        | MUnexplored =>
            let prio := middle_prio t in
            _ ← require (prio_free t prio) PriorityExceeded;
            Ok (set_node (ti_forest t) p (MFlow new_flow prio))
        | MFlow _ prio => Ok (set_node (ti_forest t) p (MFlow new_flow prio))
        | _ => Throw InconsistentTrace
        end);
  node ← (if isVloadOccured t then
            match fst (vload_ends t) with Some e => Ok e | None => Throw Terminate end
          else Ok p);
  fo' ← (match ovload_masks t with
         | None => Ok fo
         | Some (by_, what) =>
             match vload_ends t with
             | (Some from, Some to) => connect_all fo from to (virtual_fields new_flow by_ what)
             | _ => Throw Terminate
             end
         end);
  Ok (TracerImpl fo' None (left_prio t) (right_prio t) (isVloadOccured t) (ti_match t) (vload_ends t)
        (ovload_masks t) (ti_calls t),
      Installer node (ti_match t)).

(** ** Lookup *)

Section Trees.
Context (alive : flow_ptr → bool).
Context (fo : gmap loc mnode).

Section Lookup.
Context {P : Type} `{PacketOps P}.

(** Fuel bounds the depth; shared nodes are reached through the forest. *)
Fixpoint lookup_node (fuel : nat) (n : mnode) (p : P) : comp (option flow_ptr * P) :=
  match fuel with
  | O => NoFuel
  | S fuel =>
      match n with
      | MUnexplored => Ret (None, p)
      | MTest need pos neg _ _ =>
          '(b, p') ← lift (pkt_test p need);
          lookup_node fuel (if b : bool then pos else neg) p'
      | MLoad m cases =>
          '(f, p') ← lift (pkt_load p m);
          match assoc cases (f_val f) with
          | Some c => lookup_node fuel c p'
          | None => Ret (None, p')
          end
      | MVload m cases =>
          '(f, p') ← lift (pkt_load p m);
          match assoc cases (f_val f) with
          | Some l => match fo !! l with Some c => lookup_node fuel c p' | None => Raise Terminate end
          | None => Ret (None, p')
          end
      | MFlow f _ => Ret (if alive f then Some f else None, p)
      end
  end.
End Lookup.

(** ** The compiler *)

(** [(type == bits) & mask] *)
Definition case_field (m : mask) (v : N) : res field :=
  val ← type_eq_value (m_type m) (Bits (nbits (m_type m)) v); value_and_mask val m.

(** A loop over the cases: the case's field is added, [compile] visits what is
    below, the field's mask is erased. *)
Fixpoint each_case {A} (compile : A → full_field_set → comp (full_field_set * list call))
    (msk : mask) (cases : list (N * A)) (m : full_field_set) : comp (full_field_set * list call) :=
  match cases with
  | [] => Ret (m, [])
  | (v, c) :: cases =>
      f ← lift (case_field msk v);
      m1 ← lift (full_add m f);
      '(m2, c1) ← compile c m1;
      m3 ← lift (full_erase m2 msk);
      '(m4, c2) ← each_case compile msk cases m3;
      Ret (m4, c1 ++ c2)
  end.

(** The visitor's [match] is threaded; the calls come in order. *)
Fixpoint compile_node (fuel : nat) (n : mnode) (m : full_field_set) : comp (full_field_set * list call) :=
  match fuel with
  | O => NoFuel
  | S fuel =>
      match n with
      | MUnexplored => Ret (m, [])
      | MTest need pos neg id prio =>
          m1 ← lift (full_exclude m need);
          '(m2, c1) ← compile_node fuel neg m1;
          m3 ← lift (full_include m2 (mask_of need));
          m4 ← lift (full_add m3 need);
          '(m5, c2) ← compile_node fuel pos m4;
          m6 ← lift (full_erase m5 (mask_of need));
          Ret (m6, c1 ++ CBarrierRule prio m4 need id :: c2)
      | MLoad msk cases => each_case (compile_node fuel) msk cases m
      | MVload msk cases =>
          each_case (λ l m1, match fo !! l with
                             | Some c => compile_node fuel c m1
                             | None => Raise Terminate
                             end) msk cases m
      | MFlow f prio => Ret (m, if alive f then [CInstall prio m f] else [])
      end
  end.
End Trees.

(** [TraceTree::lookup] and [TraceTree::commit] *)
Definition tree_lookup {P} `{PacketOps P} (alive : flow_ptr → bool) (fuel : nat) (fo : forest) (p : P)
  : comp (option flow_ptr * P) :=
  match trees fo !! root with
  | Some t => lookup_node alive (trees fo) fuel t p
  | None => Raise Terminate
  end.

Definition commit (alive : flow_ptr → bool) (fuel : nat) (fo : forest) : comp (list call) :=
  match trees fo !! root with
  | Some t =>
      '(_, calls) ← compile_node alive (trees fo) fuel t full_empty;
      Ret (CRemove ∅ :: CBarrier :: calls ++ [CBarrier])
  | None => Raise Terminate
  end.

(** Running an installer, at a later forest. *)
Definition run_installer (alive : flow_ptr → bool) (fuel : nat) (fo : forest) (i : installer) : comp (list call) :=
  match node_at fo (in_node i) with
  | Some n =>
      '(_, calls) ← compile_node alive (trees fo) fuel n (in_match i);
      Ret (CBarrier :: calls ++ [CBarrier])
  | None => Raise Terminate
  end.
