(* ===== verification/MapleRuntime.v ===== *)
(** * MapleRuntime: augmenting the tree by the runs of a policy,
    maple/Runtime.hh and the tracer of maple/TraceTree.cc

    The policy runs on a traceable proxy whose tracer is the tree's.  Running
    with that tracer is running with a recorder and then replaying the record
    ([run_replay]); a report that throws ends the run there, and the tree keeps
    what earlier reports put into it.  [maug] is what a replay and [finish] do
    to the tree, as a recursion along the record. *)

From S2P Require Import Prelude Bits Oxm FieldSet Packet Policy Valuation Fdd FddCompiler FddCorrect.
From S2P Require Import FddTranslator Tracer TraceTree FullFieldSet MapleTree.

(** ** Replaying a record *)

Definition report (t : tracer_impl) (n : trace_node) : res tracer_impl :=
  match n with TLoad f => impl_load t f | TTest f b => impl_test t f b end.

(** The state a replay ends in, and the exception that ended it. *)
Fixpoint replay (l : list trace_node) (t : tracer_impl) : tracer_impl * option exn :=
  match l with
  | [] => (t, None)
  | n :: l => match report t n with Ok t' => replay l t' | Throw e => (t, Some e) end
  end.

Lemma replay_app l1 l2 t :
  replay (l1 ++ l2) t = match replay l1 t with (t', None) => replay l2 t' | r => r end.
Proof.
  revert t. induction l1 as [|n l1 IH]; intros t; cbn [app replay]; [done |].
  destruct (report t n); [apply IH | done].
Qed.

(** What a policy has reported when it returns or throws. *)
Fixpoint reported {P} `{PacketOps P} (h : handler) (s : mod_tracking (traceable P trace)) : list trace_node :=
  let so_far := tr_values (tp_tracer (mt_pkt s)) in
  match h with
  | HReturn _ => so_far
  | HLoad m k => match pkt_load s m with Ok (f, s') => reported (k f) s' | Throw _ => so_far end
  | HTest f k => match pkt_test s f with Ok (b, s') => reported (k b) s' | Throw _ => so_far end
  | HModify f k => match pkt_modify s f with Ok s' => reported k s' | Throw _ => so_far end
  end.

Lemma reported_run {P} `{PacketOps P} h : ∀ (s : mod_tracking (traceable P trace)) pol s',
  run h s = Ok (pol, s') → reported h s = tr_values (tp_tracer (mt_pkt s')).
Proof.
  induction h as [pol' | m k IH | f k IH | f k IH]; intros s pol s' E; cbn [run reported] in *.
  - by injection E as _ <-.
  - destruct (pkt_load s m) as [[f s1]|]; [by eapply IH | done].
  - destruct (pkt_test s f) as [[b s1]|]; [by eapply IH | done].
  - destruct (pkt_modify s f) as [s1|]; [by eapply IH | done].
Qed.

(** ** The run time *)

(** The outcome of an augmentation: the tree is changed in any case. *)
Record augmented_run : Type := AugmentedRun {
  ar_forest : forest;
  ar_calls : list call;
  ar_result : res (policy * installer)
}.

(** [Runtime::augment] with priorities 1 and 65535, for a policy that is a
    handler; the flow is given what the policy returns.  When the policy throws,
    the tree keeps what was reported before, if no report threw first. *)
Definition runtime_augment `{FlowOps} {P} `{PacketOps P} (h : handler) (pkt : P) (flow : flow_ptr) (fo : forest)
  : augmented_run :=
  match run_tracer h pkt with
  | Throw e =>
      let '(t, stop) := replay (reported h (traced_start pkt)) (tracer_start fo 1 65535) in
      AugmentedRun (ti_forest t) (ti_calls t) (Throw (default e stop))
  | Ok tr =>
      match replay (tr_values tr) (tracer_start fo 1 65535) with
      | (t, Some e) => AugmentedRun (ti_forest t) (ti_calls t) (Throw e)
      | (t, None) =>
          match impl_finish t flow with
          | Throw e => AugmentedRun (ti_forest t) (ti_calls t) (Throw e)
          | Ok (t', i) => AugmentedRun (ti_forest t') (ti_calls t') (Ok (tr_result tr, i))
          end
      end
  end.

Section Replay.
Context {P : Type} `{PacketLaws P}.

(** The run with the tree's tracer follows the recorded one. *)
Definition follows (h : handler) (p : P) (t : tracer_impl) (cache : field_set)
    (tr : list trace_node) (r : res (policy * mod_tracking (traceable P trace))) : Prop :=
  match r with
  | Ok (pol, s) => ∃ new, tr_values (tp_tracer (mt_pkt s)) = tr ++ new ∧
      run h (Traceable p t cache)
      = match replay new t with
        | (t', None) => Ok (pol, Traceable (tp_pkt (mt_pkt s)) t' (tp_cache (mt_pkt s)))
        | (_, Some e) => Throw e
        end
  | Throw _ => True
  end.

Lemma follows_report h h1 p p1 t cache cache1 tr n r :
  run h (Traceable p t cache) = (t1 ← report t n; run h1 (Traceable p1 t1 cache1)) →
  (∀ t1, follows h1 p1 t1 cache1 (tr ++ [n]) r) → follows h p t cache tr r.
Proof.
  intros E Hf. unfold follows in *. destruct r as [[pol s]|]; [| done].
  destruct (report t n) as [t1|e] eqn:Er.
  - destruct (Hf t1) as (new & Ev & Erun). exists (n :: new). cbn [replay]. rewrite Er.
    split; [by rewrite Ev, <- (assoc_L (++)) |]. rewrite E. exact Erun.
  - destruct (Hf t) as (new & Ev & _). exists (n :: new). cbn [replay]. rewrite Er.
    split; [by rewrite Ev, <- (assoc_L (++)) |]. by rewrite E.
Qed.

Lemma run_replay h : ∀ (p : P) t tr cache mods,
  handler_wf h → fs_wf cache → fs_wf mods → follows h p t cache tr (run h (st p tr cache mods)).
Proof.
  induction h as [pol | m k IH | f k IH | f k IH]; intros p t tr cache mods Hh Hc Hm.
  - exists []. by rewrite app_nil_r.
  - destruct Hh as [Hmk Hk]. rewrite run_load by done.
    assert (ET : ∀ t, run (HLoad m k) (Traceable p t cache)
      = ('(f, q) ← tp_load (Traceable p t cache) m; run (k f) q)) by done.
    destruct (entry_facts cache (m_type m) Hc (proj1 Hmk)) as (Et & Hw & _).
    assert (Hu := unexp_wf (pview p (m_type m)) m (entry cache (m_type m)) Hmk Hw Et).
    assert (Hkw : handler_wf (k (loadv (pview p (m_type m)) m))).
    { apply Hk; [by apply loadv_wf | by destruct m]. }
    specialize (ET t). rewrite tp_load_eq in ET by done.
    destruct (pbound p (m_type m)); [| done]. cbv zeta in *.
    set (u := unexp (pview p (m_type m)) m (entry cache (m_type m))) in *.
    destruct (f_wildcard u).
    + specialize (IH _ p t tr cache mods Hkw Hc Hm). unfold follows in *. by rewrite ET.
    + eapply follows_report with (n := TLoad u).
      * rewrite ET. cbn [report tracer_load tracer_impl_ops]. by destruct (impl_load t u).
      * intros t1. apply IH; [done | by apply pmodify_wf | done].
  - destruct Hh as [Hf Hk]. rewrite run_test by done.
    assert (ET : ∀ t, run (HTest f k) (Traceable p t cache)
      = ('(b, q) ← tp_test (Traceable p t cache) f; run (k b) q)) by done.
    destruct (entry_facts cache (f_type f) Hc (proj1 Hf)) as (Et & Hw & _).
    assert (Hmf := mask_of_wf _ Hf).
    assert (Hu := unexp_wf (pview p (f_type f)) (mask_of f) (entry cache (f_type f)) Hmf Hw Et).
    specialize (ET t). rewrite tp_test_eq in ET by done.
    destruct (pbound p (f_type f)); [| done]. cbv zeta in *.
    set (u := unexp (pview p (f_type f)) (mask_of f) (entry cache (f_type f))) in *.
    destruct (negb _); [| destruct (f_wildcard u)].
    + specialize (IH _ p t tr cache mods (Hk false) Hc Hm). unfold follows in *. by rewrite ET.
    + specialize (IH _ p t tr cache mods (Hk true) Hc Hm). unfold follows in *. by rewrite ET.
    + eapply follows_report with (n := TTest (fwiden f (mask_of u)) (fmatch u f)).
      * rewrite ET. cbn [report tracer_test tracer_impl_ops].
        by destruct (impl_test t (fwiden f (mask_of u)) (fmatch u f)).
      * intros t1. apply IH; [apply Hk | by destruct (fmatch u f); [apply pmodify_wf |] | done].
  - destruct Hh as [Hf Hk]. rewrite run_modify by done.
    assert (ET : ∀ t, run (HModify f k) (Traceable p t cache)
      = (q ← tp_modify (Traceable p t cache) f; run k q)) by done.
    specialize (ET t). rewrite tp_modify_eq in ET by done.
    destruct (pkt_modify p f) as [q|] eqn:Eq; cbn [mbind res_bind] in *; [| done].
    specialize (IH q t tr (pmodify cache f) (pmodify mods f) Hk (pmodify_wf _ _ Hc Hf) (pmodify_wf _ _ Hm Hf)).
    unfold follows in *. by rewrite ET.
Qed.
End Replay.

(** ** Augmentation as a recursion *)

Definition finish_node (flow : flow_ptr) (L R : N) (n : mnode) : res mnode :=
  match n with
  | MUnexplored =>
      let prio := u16 ((L + R) / 2) in
      if ((L <? prio) && (prio <? R))%N then Ok (MFlow flow prio) else Throw PriorityExceeded
  | MFlow _ prio => Ok (MFlow flow prio)
  | _ => Throw InconsistentTrace
  end.

(** Down the record [l] from the node [t] in the range [L], [R]; [fin] is what
    is done to the node at its end. *)
Fixpoint maug (fin : N → N → mnode → res mnode) (l : list trace_node) (L R ids : N) (t : mnode)
  : res (mnode * N) :=
  match l with
  | [] => x ← fin L R t; Ok (x, ids)
  | TLoad f :: l =>
      match t with
      | MUnexplored =>
          '(sub, ids') ← maug fin l L R ids MUnexplored;
          Ok (MLoad (mask_of f) [(f_val f, sub)], ids')
      | MLoad m cases =>
          if mask_eqb m (mask_of f) then
            '(sub, ids') ← maug fin l L R ids (default MUnexplored (assoc cases (f_val f)));
            Ok (MLoad m (assoc_set cases (f_val f) sub), ids')
          else Throw InconsistentTrace
      | _ => Throw InconsistentTrace
      end
  | TTest f b :: l =>
      match t with
      | MUnexplored =>
          let prio := u16 ((L + R) / 2) in
          if ((L <? prio) && (prio <? R))%N then
            '(sub, ids') ← maug fin l (if b : bool then prio else L) (if b then R else prio)
                                ((ids + 1) mod 2 ^ 64) MUnexplored;
            Ok (MTest f (if b then sub else MUnexplored) (if b then MUnexplored else sub) ids prio, ids')
          else Throw PriorityExceeded
      | MTest need pos neg id prio =>
          if field_eqb need f then
            '(sub, ids') ← maug fin l (if b : bool then prio else L) (if b then R else prio) ids
                                (if b then pos else neg);
            Ok (MTest need (if b then sub else pos) (if b then neg else sub) id prio, ids')
          else Throw InconsistentTrace
      | _ => Throw InconsistentTrace
      end
  end.

(** ** Positions in a tree *)

Lemma assoc_set_assoc {A} (cases : list (N * A)) v a w :
  assoc (assoc_set cases v a) w = if (v =? w)%N then Some a else assoc cases w.
Proof.
  induction cases as [|[u b] cases IH]; cbn; [done |].
  destruct (u =? v)%N eqn:E; cbn.
  - apply N.eqb_eq in E as ->. by destruct (v =? w)%N.
  - rewrite IH. destruct (u =? w)%N eqn:E'; [| done].
    apply N.eqb_eq in E' as ->. rewrite N.eqb_sym in E. by rewrite E.
Qed.

Lemma assoc_set_twice {A} (cases : list (N * A)) v a b :
  assoc_set (assoc_set cases v a) v b = assoc_set cases v b.
Proof.
  induction cases as [|[u c] cases IH]; cbn; [by rewrite N.eqb_refl |].
  destruct (u =? v)%N eqn:E; cbn; rewrite E; [done |]. by rewrite IH.
Qed.

Lemma assoc_set_same {A} (cases : list (N * A)) v a : assoc cases v = Some a → assoc_set cases v a = cases.
Proof.
  induction cases as [|[u c] cases IH]; cbn; [done |].
  destruct (u =? v)%N eqn:E; [by intros [= ->] |]. intros H. by rewrite IH.
Qed.

Lemma get_set a : ∀ t n x, get_at t a = Some n → get_at (set_at t a x) a = Some x.
Proof.
  induction a as [|[v | b] a IH]; intros t n x; cbn [get_at set_at]; [done | |].
  - destruct t as [| | | |m cases]; try done. destruct (assoc cases v) as [c|] eqn:E; [| done].
    cbn [mbind option_bind]. intros H. rewrite assoc_set_assoc, N.eqb_refl. by eapply IH.
  - destruct t as [| | |need pos neg id prio|]; try done. destruct b; intros H; by eapply IH.
Qed.

Lemma set_get a : ∀ t n, get_at t a = Some n → set_at t a n = t.
Proof.
  induction a as [|[v | b] a IH]; intros t n; cbn [get_at set_at]; [by intros [= ->] | |].
  - destruct t as [| | | |m cases]; try done. destruct (assoc cases v) as [c|] eqn:E; [| done].
    cbn [mbind option_bind]. intros H. rewrite (IH _ _ H). f_equal. by apply assoc_set_same.
  - destruct t as [| | |need pos neg id prio|]; try done. destruct b; intros H; by rewrite (IH _ _ H).
Qed.

Lemma set_set a : ∀ t n x y, get_at t a = Some n → set_at (set_at t a x) a y = set_at t a y.
Proof.
  induction a as [|[v | b] a IH]; intros t n x y; cbn [get_at set_at]; [done | |].
  - destruct t as [| | | |m cases]; try done. destruct (assoc cases v) as [c|] eqn:E; [| done].
    cbn [mbind option_bind]. intros H. rewrite assoc_set_assoc, N.eqb_refl, assoc_set_twice.
    by rewrite (IH _ _ _ _ H).
  - destruct t as [| | |need pos neg id prio|]; try done. destruct b; intros H; by rewrite (IH _ _ _ _ H).
Qed.

Lemma get_app a p : ∀ t n, get_at t a = Some n → get_at t (a ++ p) = get_at n p.
Proof.
  induction a as [|[v | b] a IH]; intros t n; cbn [get_at app]; [by intros [= ->] | |].
  - destruct t as [| | | |m cases]; try done. destruct (assoc cases v) as [c|]; [| done]. apply IH.
  - destruct t as [| | |need pos neg id prio|]; try done. apply IH.
Qed.

Lemma set_app a p x : ∀ t n, get_at t a = Some n → set_at t (a ++ p) x = set_at t a (set_at n p x).
Proof.
  induction a as [|[v | b] a IH]; intros t n; cbn [get_at set_at app]; [by intros [= ->] | |].
  - destruct t as [| | | |m cases]; try done. destruct (assoc cases v) as [c|]; [| done].
    cbn [mbind option_bind]. intros H. by rewrite (IH _ _ H).
  - destruct t as [| | |need pos neg id prio|]; try done. destruct b; intros H; by rewrite (IH _ _ H).
Qed.

(** ** Trees and traces *)

(** The flow a trace leads to. *)
Fixpoint mlookup (n : mnode) (l : list trace_node) : option flow_ptr :=
  match l, n with
  | [], MFlow f _ => Some f
  | TLoad f :: l, MLoad m cases =>
      if mask_eqb m (mask_of f) then c ← assoc cases (f_val f); mlookup c l else None
  | TTest f b :: l, MTest need pos neg _ _ =>
      if field_eqb need f then mlookup (if b : bool then pos else neg) l else None
  | _, _ => None
  end.

(** The tree asks what the trace asks, as far as it is explored. *)
Fixpoint mfits (n : mnode) (l : list trace_node) : Prop :=
  n = MUnexplored ∨
  match l with
  | [] => ∃ f prio, n = MFlow f prio
  | TLoad f :: l =>
      ∃ cases, n = MLoad (mask_of f) cases ∧ mfits (default MUnexplored (assoc cases (f_val f))) l
  | TTest f b :: l =>
      ∃ pos neg id prio, n = MTest f pos neg id prio ∧ mfits (if b : bool then pos else neg) l
  end.

Lemma mfits_unexplored l : mfits MUnexplored l.
Proof. destruct l as [|[]]; by left. Qed.

Lemma mlookup_unexplored l : mlookup MUnexplored l = None.
Proof. by destruct l as [|[]]. Qed.

(** ** The tracer walks as the recursion does *)

Definition at_node (t : tracer_impl) (T : mnode) (a : path) (n : mnode) : Prop :=
  ti_ptr t = Some (root, a) ∧ trees (ti_forest t) !! root = Some T ∧ get_at T a = Some n ∧
  isVloadOccured t = false ∧ vload_ends t = (None, None) ∧ ovload_masks t = None.

Lemma at_node_current t T a n : at_node t T a n → current t = Ok ((root, a), n).
Proof.
  intros (Hp & HT & Hn & _). unfold current. rewrite Hp. unfold node_at. cbn [fst snd]. rewrite HT.
  cbn [mbind option_bind]. by rewrite Hn.
Qed.

Lemma set_node_root fo T a n :
  trees fo !! root = Some T →
  trees (set_node fo (root, a) n) = <[root := set_at T a n]> (trees fo) ∧
  next_id (set_node fo (root, a) n) = next_id fo.
Proof. intros H. unfold set_node. cbn [fst snd]. by rewrite H. Qed.

(** The range of priorities and the node below a node. *)
Definition descend (L R : N) (n : mnode) (nd : trace_node) : N * N * mnode :=
  match nd, n with
  | TLoad f, MLoad _ cases => (L, R, default MUnexplored (assoc cases (f_val f)))
  | TLoad _, _ => (L, R, MUnexplored)
  | TTest _ b, MTest _ pos neg _ prio =>
      (if b : bool then prio else L, if b then R else prio, if b then pos else neg)
  | TTest _ b, _ =>
      let prio := u16 ((L + R) / 2) in (if b : bool then prio else L, if b then R else prio, MUnexplored)
  end.

(** What one report does, given that it does not throw. *)
Definition stepped_to (t t1 : tracer_impl) (T : mnode) (a : path) (n : mnode) (nd : trace_node) : Prop :=
  ∃ s n1 c1, at_node t1 (set_at T a n1) (a ++ [s]) c1 ∧ get_at n1 [s] = Some c1 ∧
    trees (ti_forest t1) = <[root := set_at T a n1]> (trees (ti_forest t)) ∧
    (∀ l, mfits n (nd :: l) → mfits c1 l) ∧
    (left_prio t1, right_prio t1, c1) = descend (left_prio t) (right_prio t) n nd ∧
    ∀ fin l, maug fin (nd :: l) (left_prio t) (right_prio t) (next_id (ti_forest t)) n
      = ('(sub, ids') ← maug fin l (left_prio t1) (right_prio t1) (next_id (ti_forest t1)) c1;
         Ok (set_at n1 [s] sub, ids')).

(** The state after a move, whatever happens to match, priorities and calls. *)
Lemma moved_at t t1 T a n n1 s c1 :
  at_node t T a n → get_at n1 [s] = Some c1 →
  ti_ptr t1 = Some (root, a ++ [s]) → trees (ti_forest t1) = <[root := set_at T a n1]> (trees (ti_forest t)) →
  isVloadOccured t1 = false → vload_ends t1 = (None, None) → ovload_masks t1 = None →
  at_node t1 (set_at T a n1) (a ++ [s]) c1.
Proof.
  intros (Hp & HT & Hn & _) Hs Ep Et Ev Ee Em. split_and!; try done.
  - by rewrite Et, lookup_insert_eq.
  - rewrite (get_app a [s] _ n1); [done |]. by eapply get_set.
Qed.

Lemma report_load_step t t1 T a n f :
  at_node t T a n → impl_load t f = Ok t1 → stepped_to t t1 T a n (TLoad f).
Proof.
  intros Hat E. pose proof Hat as (Hp & HT & Hn & Hv & He & Hm). unfold impl_load in E. rewrite Hv in E.
  apply res_bind_Ok in E as (t' & E & E'). apply res_bind_Ok in E' as (m' & _ & [= <-]).
  unfold step_load in E. rewrite (at_node_current t T a n Hat) in E. cbn [mbind res_bind] in E.
  assert (H : ∀ n1 c1, get_at n1 [inl (f_val f)] = Some c1 →
    t' = moved t (set_node (ti_forest t) (root, a) n1) (push (root, a) (inl (f_val f))) →
    (∀ l, mfits n (TLoad f :: l) → mfits c1 l) →
    (left_prio t, right_prio t, c1) = descend (left_prio t) (right_prio t) n (TLoad f) →
    (∀ fin l, maug fin (TLoad f :: l) (left_prio t) (right_prio t) (next_id (ti_forest t)) n
      = ('(sub, ids') ← maug fin l (left_prio t) (right_prio t) (next_id (ti_forest t)) c1;
         Ok (set_at n1 [inl (f_val f)] sub, ids'))) →
    stepped_to t (with_full t' m') T a n (TLoad f)).
  { intros n1 c1 Hc -> Hfit Hdesc Hmaug. destruct (set_node_root (ti_forest t) T a n1 HT) as [Et Ei].
    exists (inl (f_val f)), n1, c1. split_and!; [| done | exact Et | exact Hfit | exact Hdesc |].
    - by apply (moved_at t _ T a n).
    - intros fin l. rewrite Hmaug. cbn [with_full moved left_prio right_prio ti_forest]. by rewrite Ei. }
  destruct n as [| | | |m cases]; try done.
  - injection E as <-. eapply (H _ MUnexplored); [| done | intros l _; apply mfits_unexplored | done |].
    + cbn. rewrite N.eqb_refl. done.
    + intros fin l. cbn [maug]. destruct (maug fin l _ _ _ _) as [[sub ids']|]; [| done].
      cbn. by rewrite N.eqb_refl.
  - destruct (mask_eqb m (mask_of f)) eqn:Em; [| done]. injection E as <-.
    eapply (H _ (default MUnexplored (assoc cases (f_val f)))); [| done | | done |].
    + cbn [get_at]. destruct (assoc cases (f_val f)) as [c|] eqn:Ec; [by rewrite Ec |].
      rewrite assoc_set_assoc, N.eqb_refl. done.
    + by intros l [? | (cs & [= -> ->] & Hl)].
    + intros fin l. cbn [maug]. rewrite Em. destruct (assoc cases (f_val f)) as [c|] eqn:Ec; cbn [default set_at].
      * destruct (maug fin l _ _ _ _) as [[sub ids']|]; [| done]. cbn [mbind res_bind]. by rewrite Ec.
      * destruct (maug fin l _ _ _ _) as [[sub ids']|]; [| done]. cbn [mbind res_bind].
        by rewrite assoc_set_assoc, N.eqb_refl, assoc_set_twice.
Qed.

Lemma report_test_step t t1 T a n f b :
  at_node t T a n → impl_test t f b = Ok t1 → stepped_to t t1 T a n (TTest f b).
Proof.
  intros Hat E. pose proof Hat as (Hp & HT & Hn & Hv & He & Hm). unfold impl_test in E.
  rewrite (at_node_current t T a n Hat), Hv in E. cbn [mbind res_bind] in E.
  apply res_bind_Ok in E as ([t' prio] & E & E').
  assert (Hend : isVloadOccured t' = false → ∃ m', t1 = with_full (with_prios t' (if b then prio else left_prio t')
                                    (if b then right_prio t' else prio)) m').
  { intros _. destruct b; apply res_bind_Ok in E' as (m' & _ & [= <-]); by exists m'. }
  assert (H : ∀ n1 c1 fo, get_at n1 [inr b] = Some c1 → isVloadOccured t' = false →
    ti_forest t' = set_node fo (root, a) n1 → trees fo = trees (ti_forest t) →
    ti_ptr t' = Some (push (root, a) (inr b)) → vload_ends t' = (None, None) → ovload_masks t' = None →
    left_prio t' = left_prio t → right_prio t' = right_prio t →
    (∀ l, mfits n (TTest f b :: l) → mfits c1 l) →
    (if b then prio else left_prio t, if b then right_prio t else prio, c1)
      = descend (left_prio t) (right_prio t) n (TTest f b) →
    (∀ fin l, maug fin (TTest f b :: l) (left_prio t) (right_prio t) (next_id (ti_forest t)) n
      = ('(sub, ids') ← maug fin l (if b then prio else left_prio t) (if b then right_prio t else prio)
                              (next_id fo) c1;
         Ok (set_at n1 [inr b] sub, ids'))) →
    stepped_to t t1 T a n (TTest f b)).
  { intros n1 c1 fo Hc Hv' Hfo Htr Hptr He' Hm' HL HR Hfit Hdesc Hmaug. destruct (Hend Hv') as [m' ->].
    destruct (set_node_root fo T a n1) as [Et Ei]; [by rewrite Htr |].
    exists (inr b), n1, c1. split_and!; [| done | | exact Hfit | |].
    - apply (moved_at t _ T a n); try done. cbn [with_full with_prios ti_forest]. by rewrite Hfo, Et, Htr.
    - cbn [with_full with_prios ti_forest]. by rewrite Hfo, Et, Htr.
    - cbn [with_full with_prios left_prio right_prio]. by rewrite HL, HR.
    - intros fin l. rewrite Hmaug. cbn [with_full with_prios ti_forest left_prio right_prio].
      by rewrite Hfo, Ei, HL, HR. }
  destruct n as [| | |need pos neg id pr|]; try done.
  - apply res_bind_Ok in E as (u & Hreq & E). apply require_Ok in Hreq.
    apply res_bind_Ok in E as (tmp & _ & E). injection E as <- <-.
    eapply (H _ MUnexplored (Forest (trees (ti_forest t)) (next_tree (ti_forest t))
              ((next_id (ti_forest t) + 1) mod 2 ^ 64))); try done.
    + by destruct b.
    + intros l _. apply mfits_unexplored.
    + intros fin l. cbn [maug next_id]. unfold prio_free, middle_prio in *. rewrite Hreq.
      destruct (maug fin l _ _ _ _) as [[sub ids']|]; [| done]. by destruct b.
  - destruct (field_eqb need f) eqn:Ef; [| done]. injection E as <- <-.
    eapply (H (MTest need pos neg id pr) (if b then pos else neg) (ti_forest t)); try done.
    + cbn [moved ti_forest]. unfold set_node. cbn [fst snd]. rewrite HT, (set_get a T _ Hn).
      rewrite insert_id by done. by destruct (ti_forest t).
    + by intros l [? | (p0 & n0 & i0 & r0 & [= -> -> -> -> ->] & Hl)].
    + intros fin l. cbn [maug]. rewrite Ef.
      destruct (maug fin l _ _ _ _) as [[sub ids']|]; [| done]. by destruct b.
Qed.

Lemma report_step t t1 T a n nd :
  at_node t T a n → report t nd = Ok t1 → stepped_to t t1 T a n nd.
Proof. destruct nd; [apply report_load_step | apply report_test_step]. Qed.

(** A replay that is through: where it stands, and that the recursion with any
    end [fin] puts what [fin] makes of the node in that place. *)
Lemma replay_maug l : ∀ t t' T a n,
  at_node t T a n → replay l t = (t', None) →
  ∃ T' a' n', at_node t' T' a' n' ∧
    trees (ti_forest t') = <[root := T']> (trees (ti_forest t)) ∧
    ∀ fin x, fin (left_prio t') (right_prio t') n' = Ok x →
      ∃ sub, maug fin l (left_prio t) (right_prio t) (next_id (ti_forest t)) n
             = Ok (sub, next_id (ti_forest t')) ∧ set_at T a sub = set_at T' a' x.
Proof.
  induction l as [|nd l IH]; intros t t' T a n Hat E; cbn [replay] in E.
  - injection E as <-. exists T, a, n. pose proof Hat as (_ & HT & _). split_and!; [done | |].
    + by rewrite insert_id.
    + intros fin x Hx. exists x. cbn [maug]. by rewrite Hx.
  - destruct (report t nd) as [t1|e] eqn:Er; [| done].
    destruct (report_step t t1 T a n nd Hat Er) as (s & n1 & c1 & Hat1 & Hs & Htr & _ & _ & Hmaug).
    destruct (IH t1 t' _ _ _ Hat1 E) as (T' & a' & n' & Hat' & Htr' & Hfin).
    exists T', a', n'. split_and!; [done | by rewrite Htr', Htr, insert_insert_eq |].
    intros fin x Hx. destruct (Hfin fin x Hx) as (sub & Es & Eset).
    exists (set_at n1 [s] sub). split; [by rewrite Hmaug, Es |].
    pose proof Hat as (_ & _ & Hn & _). rewrite <- Eset.
    rewrite (set_app a [s] sub _ n1) by (by eapply get_set). by rewrite (set_set a T n).
Qed.

Lemma tracer_start_at fo L R T :
  trees fo !! root = Some T → at_node (tracer_start fo L R) T [] T.
Proof. intros H. by split_and!. Qed.

(** An unfinished replay. *)
Lemma replay_partial l fo L R T t' :
  trees fo !! root = Some T → replay l (tracer_start fo L R) = (t', None) →
  ∃ T', trees (ti_forest t') = <[root := T']> (trees fo) ∧
    maug (λ _ _ n, Ok n) l L R (next_id fo) T = Ok (T', next_id (ti_forest t')).
Proof.
  intros HT E. destruct (replay_maug l _ t' T [] T (tracer_start_at fo L R T HT) E)
    as (T' & a' & n' & Hat & Htr & Hfin).
  destruct (Hfin (λ _ _ n, Ok n) n' eq_refl) as (sub & Es & Eset). cbn [set_at] in Eset.
  exists T'. split; [exact Htr |]. destruct Hat as (_ & _ & Hn & _).
  rewrite (set_get _ _ _ Hn) in Eset. by rewrite <- Eset.
Qed.

(** A replay and [finish]. *)
Lemma replay_finish `{FlowOps} l fo L R T flow t' t2 i :
  trees fo !! root = Some T → replay l (tracer_start fo L R) = (t', None) →
  impl_finish t' flow = Ok (t2, i) →
  ∃ T' ids', trees (ti_forest t2) = <[root := T']> (trees fo) ∧
    maug (finish_node flow) l L R (next_id fo) T = Ok (T', ids').
Proof.
  intros HT E Ef. destruct (replay_maug l _ t' T [] T (tracer_start_at fo L R T HT) E)
    as (T' & a' & n' & Hat & Htr & Hfin).
  pose proof Hat as (Hp & HT' & Hn & Hv & He & Hm). unfold impl_finish in Ef.
  rewrite (at_node_current t' T' a' n' Hat), Hv, Hm in Ef. cbn [mbind res_bind] in Ef.
  apply res_bind_Ok in Ef as (fo' & Ef' & Ef). injection Ef as <- _. cbn [ti_forest].
  assert (∃ x, finish_node flow (left_prio t') (right_prio t') n' = Ok x ∧
    fo' = set_node (ti_forest t') (root, a') x) as (x & Hx & ->).
  { destruct n' as [|f pr| | |]; try done.
    - apply res_bind_Ok in Ef' as (u & Hreq & Ef'). apply require_Ok in Hreq. injection Ef' as <-.
      eexists. split; [| done]. cbn [finish_node]. unfold prio_free, middle_prio in *. by rewrite Hreq.
    - injection Ef' as <-. by eexists. }
  destruct (Hfin _ x Hx) as (sub & Es & Eset). cbn [set_at] in Eset.
  exists (set_at T' a' x), (next_id (ti_forest t')).
  destruct (set_node_root (ti_forest t') T' a' x HT') as [-> _]. rewrite Htr, insert_insert_eq.
  split; [done |]. by rewrite <- Eset.
Qed.
