(* ===== verification/MapleCorrect.v ===== *)
(** * MapleCorrect: what augmenting does to maple's trace tree

    Along a trace that fits the tree, [maug] changes the lookups of exactly the
    packets with that trace ([maug_good]), keeps the priorities nested
    ([maug_prios]) and the tree over whole fields ([maug_whole]); the matches
    built on the way stay conjunctions of what was tested.  [MapleTable] and
    [MapleRun] build on these. *)

From S2P Require Import Prelude Bits Oxm FieldSet Packet Policy Valuation Fdd FddCompiler FddCorrect.
From S2P Require Import FddTranslator Tracer TraceTree LeafTraces FullFieldSet MapleTree MapleRuntime.

(** ** Augmentation and lookups *)

Section MaugLookup.
Context (fin : N → N → mnode → res mnode) (rest : list trace_node).
Context (upd : bool → option flow_ptr → option flow_ptr → Prop).
Hypothesis Hupd : ∀ o, upd false o o.
Hypothesis Hfin : ∀ L R n x l', fin L R n = Ok x → mfits n rest → compat rest l' → mfits n l' →
  mfits x l' ∧ upd (bool_decide (l' = rest)) (mlookup n l') (mlookup x l').

Definition good (t : mnode) (l : list trace_node) (t' : mnode) : Prop :=
  ∀ l', compat l l' → mfits t l' →
    mfits t' l' ∧ upd (bool_decide (l' = l)) (mlookup t l') (mlookup t' l').

Lemma decide_cons (n : trace_node) l l' : bool_decide (n :: l' = n :: l) = bool_decide (l' = l).
Proof. apply bool_decide_ext. naive_solver. Qed.

Lemma decide_differ (n n' : trace_node) l l' : n ≠ n' → bool_decide (n' :: l' = n :: l) = false.
Proof. intros H. apply bool_decide_eq_false. congruence. Qed.

Lemma mfits_load m cases f l :
  m = mask_of f → mfits (MLoad m cases) (TLoad f :: l) ↔ mfits (default MUnexplored (assoc cases (f_val f))) l.
Proof.
  intros ->. split.
  - by intros [? | (cs & [= <-] & H)].
  - intros H. right. by exists cases.
Qed.

Lemma mlookup_load m cases f l :
  m = mask_of f → mlookup (MLoad m cases) (TLoad f :: l) = mlookup (default MUnexplored (assoc cases (f_val f))) l.
Proof.
  intros ->. cbn [mlookup]. rewrite mask_eqb_refl.
  destruct (assoc _ _); cbn; [done | by rewrite mlookup_unexplored].
Qed.

Lemma mfits_test f pos neg id prio b l :
  mfits (MTest f pos neg id prio) (TTest f b :: l) ↔ mfits (if b then pos else neg) l.
Proof.
  split.
  - by intros [? | (p0 & n0 & i0 & r0 & [= <- <- <- <-] & H)].
  - intros H. right. by exists pos, neg, id, prio.
Qed.

Lemma mlookup_test f pos neg id prio b l :
  mlookup (MTest f pos neg id prio) (TTest f b :: l) = mlookup (if b then pos else neg) l.
Proof. cbn [mlookup]. by rewrite field_eqb_refl. Qed.

Lemma good_load f cases sub l :
  good (default MUnexplored (assoc cases (f_val f))) l sub →
  good (MLoad (mask_of f) cases) (TLoad f :: l) (MLoad (mask_of f) (assoc_set cases (f_val f) sub)).
Proof.
  intros Hg l' Hc Hf. inversion Hc as [| ? ? l2 Hc2 | ? [g | g c] ? l2 Hq Hne]; subst l'; [| | done].
  - rewrite mfits_load in Hf by done. rewrite mfits_load, !mlookup_load by done.
    rewrite assoc_set_assoc, N.eqb_refl, decide_cons. by apply Hg.
  - cbn in Hq. rewrite (decide_differ (TLoad f)) by done.
    rewrite mfits_load in Hf by done. rewrite mfits_load, !mlookup_load by done.
    rewrite assoc_set_assoc. destruct (f_val f =? f_val g)%N eqn:E; [| by split].
    exfalso. apply Hne. apply N.eqb_eq in E. destruct f, g. unfold mask_of in Hq. cbn in *. congruence.
Qed.

Lemma good_test f pos neg id id' prio prio' (b : bool) sub l :
  good (if b then pos else neg) l sub →
  good (MTest f pos neg id prio) (TTest f b :: l)
       (MTest f (if b then sub else pos) (if b then neg else sub) id' prio').
Proof.
  intros Hg l' Hc Hf. inversion Hc as [| ? ? l2 Hc2 | ? [g | g c] ? l2 Hq Hne]; subst l'; [| done |].
  - rewrite mfits_test in Hf. rewrite mfits_test, !mlookup_test, decide_cons.
    destruct b; by apply Hg.
  - cbn in Hq. subst g. rewrite (decide_differ (TTest f b)) by done.
    rewrite mfits_test in Hf. rewrite mfits_test, !mlookup_test.
    destruct b, c; try done; by split.
Qed.

(** An unexplored node is a load without cases, or a test of nothing known. *)
Lemma good_unexplored t l t' :
  good t l t' → (∀ l', compat l l' → mfits t l' ∧ mlookup t l' = None) → good MUnexplored l t'.
Proof.
  intros Hg Ht l' Hc _. destruct (Ht l' Hc) as [H1 H2]. rewrite mlookup_unexplored, <- H2. by apply Hg.
Qed.

Lemma maug_good l : ∀ L R ids t t' ids',
  maug fin l L R ids t = Ok (t', ids') → mfits t (l ++ rest) → good t (l ++ rest) t'.
Proof.
  induction l as [|[f | f b] l IH]; intros L R ids t t' ids' E Hf; cbn [maug app] in *.
  - apply res_bind_Ok in E as (x & Ex & [= <- <-]). intros l' Hc Hl. by eapply Hfin.
  - destruct t as [| | | |m cases]; try done.
    + apply res_bind_Ok in E as ([sub ids1] & E & [= <- <-]).
      eapply (good_unexplored (MLoad (mask_of f) [])).
      * apply (good_load f []). eapply IH; [exact E | apply mfits_unexplored].
      * intros l' Hc. inversion Hc as [| ? ? l2 Hc2 | ? [g | g c] ? l2 Hq Hne]; subst l'; [| | done].
        -- rewrite mfits_load, mlookup_load by done. split; [apply mfits_unexplored | apply mlookup_unexplored].
        -- cbn in Hq. rewrite mfits_load, mlookup_load by done. split; [apply mfits_unexplored | apply mlookup_unexplored].
    + destruct (mask_eqb m (mask_of f)) eqn:Em; [| done]. apply res_bind_Ok in E as ([sub ids1] & E & [= <- <-]).
      assert (m = mask_of f) as ->. { by destruct Hf as [? | (cs & [= -> _] & _)]. }
      apply good_load. eapply IH; [exact E |]. by rewrite mfits_load in Hf.
  - destruct t as [| | |need pos neg id prio|]; try done.
    + destruct ((L <? _) && _)%N; [| done]. apply res_bind_Ok in E as ([sub ids1] & E & [= <- <-]).
      assert (Hs : good MUnexplored (l ++ rest) sub) by (eapply IH; [exact E | apply mfits_unexplored]).
      eapply (good_unexplored (MTest f MUnexplored MUnexplored 0 0)).
      * apply good_test. by destruct b.
      * intros l' Hc. inversion Hc as [| ? ? l2 Hc2 | ? [g | g c] ? l2 Hq Hne]; subst l'; [| done |].
        -- rewrite mfits_test, mlookup_test. destruct b; (split; [apply mfits_unexplored | apply mlookup_unexplored]).
        -- cbn in Hq. subst g. rewrite mfits_test, mlookup_test.
           destruct c; (split; [apply mfits_unexplored | apply mlookup_unexplored]).
    + destruct (field_eqb need f) eqn:Ef; [| done]. apply res_bind_Ok in E as ([sub ids1] & E & [= <- <-]).
      assert (need = f) as ->. { by destruct Hf as [? | (? & ? & ? & ? & [= -> _ _ _ _] & _)]. }
      apply good_test. eapply IH; [exact E |]. by rewrite mfits_test in Hf.
Qed.
End MaugLookup.

(** ** Trees over whole fields, with nested priorities *)

(** Every priority is related by [Q] to the range that the tests above leave. *)
Fixpoint prios (Q : N → N → N → Prop) (L R : N) (t : mnode) : Prop :=
  match t with
  | MUnexplored | MVload _ _ => True
  | MFlow _ prio => Q L R prio
  | MTest _ pos neg _ prio => Q L R prio ∧ prios Q prio R pos ∧ prios Q L prio neg
  | MLoad _ cases =>
      (fix go (cases : list (N * mnode)) : Prop :=
         match cases with [] => True | (_, c) :: cases => prios Q L R c ∧ go cases end) cases
  end.

(** It lies strictly in the range; it is the middle of the range. *)
Definition between (L R prio : N) : Prop := (L < prio < R)%N.
Definition middle (L R prio : N) : Prop := prio = u16 ((L + R) / 2).
Abbreviation prio_ok := (prios between).
Abbreviation prio_mid := (prios middle).

(** Types not in [used], asked about entirely; no [vload]. *)
Fixpoint whole (used : gset key) (t : mnode) : Prop :=
  match t with
  | MUnexplored | MFlow _ _ => True
  | MVload _ _ => False
  | MTest need pos neg _ _ =>
      rfield_exact need ∧ (tkey (f_type need) ∉ used) ∧
      whole ({[ tkey (f_type need) ]} ∪ used) pos ∧ whole used neg
  | MLoad m cases =>
      registered (m_type m) = true ∧ m_val m = N.ones (nbits (m_type m)) ∧ (tkey (m_type m) ∉ used) ∧
      NoDup (map fst cases) ∧
      (fix go (cases : list (N * mnode)) : Prop :=
         match cases with
         | [] => True
         | (v, c) :: cases =>
             (v ⊑b N.ones (nbits (m_type m))) ∧ whole ({[ tkey (m_type m) ]} ∪ used) c ∧ go cases
         end) cases
  end.

Fixpoint trace_whole (used : gset key) (l : list trace_node) : Prop :=
  match l with
  | [] => True
  | TLoad f :: l =>
      rfield_exact f ∧ (tkey (f_type f) ∉ used) ∧ trace_whole ({[ tkey (f_type f) ]} ∪ used) l
  | TTest f b :: l =>
      rfield_exact f ∧ (tkey (f_type f) ∉ used) ∧
      trace_whole (if b : bool then {[ tkey (f_type f) ]} ∪ used else used) l
  end.

Definition cases_all (Q : N → mnode → Prop) (cases : list (N * mnode)) : Prop :=
  Forall (λ c, Q c.1 c.2) cases.

Lemma prios_load Q L R m cases : prios Q L R (MLoad m cases) ↔ cases_all (λ _, prios Q L R) cases.
Proof.
  unfold cases_all. cbn [prios]. induction cases as [|[v c] cases IH]; [by split; [intros _; apply Forall_nil |] |].
  rewrite IH. split; [intros [? ?]; by apply Forall_cons_2 | by intros [? ?]%Forall_cons_1].
Qed.

Lemma whole_load used m cases :
  whole used (MLoad m cases) ↔
  registered (m_type m) = true ∧ m_val m = N.ones (nbits (m_type m)) ∧ (tkey (m_type m) ∉ used) ∧
  NoDup (map fst cases) ∧
  cases_all (λ v c, (v ⊑b N.ones (nbits (m_type m))) ∧ whole ({[ tkey (m_type m) ]} ∪ used) c) cases.
Proof.
  cbn [whole]. do 4 apply and_iff_compat_l. unfold cases_all.
  induction cases as [|[v c] cases IH]; [by split; [intros _; apply Forall_nil |] |].
  rewrite IH. split; [intros (? & ? & ?); by apply Forall_cons_2 | by intros [[? ?] ?]%Forall_cons_1].
Qed.

Lemma cases_all_set Q cases v sub : cases_all Q cases → Q v sub → cases_all Q (assoc_set cases v sub).
Proof.
  unfold cases_all. induction 1 as [|[w c] cases Hc Hcs IH]; intros Hs; cbn [assoc_set].
  - by apply Forall_cons_2; [| apply Forall_nil].
  - destruct (w =? v)%N eqn:E; [| by apply Forall_cons_2; auto].
    apply N.eqb_eq in E as ->. by apply Forall_cons_2.
Qed.

Lemma cases_all_assoc Q cases v c : cases_all Q cases → assoc cases v = Some c → Q v c.
Proof.
  unfold cases_all. induction 1 as [|[w d] cases Hd _ IH]; cbn [assoc]; [done |].
  destruct (w =? v)%N eqn:E; [| done]. intros [= <-]. by apply N.eqb_eq in E as <-.
Qed.

Lemma keys_set_in (cases : list (N * mnode)) v sub w :
  w ∈ map fst (assoc_set cases v sub) → w ∈ map fst cases ∨ w = v.
Proof.
  induction cases as [|[u c] cases IH]; cbn [assoc_set map fst].
  - intros H. apply list_elem_of_singleton in H. by right.
  - destruct (u =? v)%N; cbn [map fst]; [by left |].
    intros [-> | H]%elem_of_cons; [left; by left |]. destruct (IH H); [left; by right | by right].
Qed.

Lemma keys_set (cases : list (N * mnode)) v sub :
  NoDup (map fst cases) → NoDup (map fst (assoc_set cases v sub)).
Proof.
  induction cases as [|[u c] cases IH]; intros Hn; cbn [assoc_set map fst]; [by apply NoDup_singleton |].
  inversion Hn as [|? ? Hu Hn']; subst. destruct (u =? v)%N eqn:E; cbn [map fst]; [done |].
  apply list.NoDup_cons. split; [| by apply IH].
  intros [Hw | ->]%keys_set_in; [done |]. by rewrite N.eqb_refl in E.
Qed.

(** A priority the tracer accepts. *)
Lemma free_between L R p : ((L <? p) && (p <? R))%N = true → (L < p < R)%N.
Proof. rewrite andb_true_iff, !N.ltb_lt. done. Qed.

Lemma maug_prios Q fin l :
  (∀ L R, (L < u16 ((L + R) / 2) < R)%N → Q L R (u16 ((L + R) / 2))) →
  (∀ L R n x, fin L R n = Ok x → prios Q L R n → prios Q L R x) →
  ∀ L R ids t t' ids', maug fin l L R ids t = Ok (t', ids') → prios Q L R t → prios Q L R t'.
Proof.
  intros Hmid Hfin. induction l as [|[f | f b] l IH]; intros L R ids t t' ids' E Ht; cbn [maug] in E.
  - apply res_bind_Ok in E as (x & Ex & [= <- _]). by eapply Hfin.
  - destruct t as [| | | |m cases]; try done.
    + apply res_bind_Ok in E as ([sub ids1] & E & [= <- _]). split; [| done]. by eapply IH.
    + destruct (mask_eqb m (mask_of f)); [| done]. apply res_bind_Ok in E as ([sub ids1] & E & [= <- _]).
      rewrite prios_load in *. apply cases_all_set; [done |]. eapply IH; [exact E |].
      destruct (assoc cases (f_val f)) as [c|] eqn:Ec; [| done]. by eapply (cases_all_assoc (λ _, prios Q L R)).
  - destruct t as [| | |need pos neg id prio|]; try done.
    + destruct ((L <? _) && _)%N eqn:Ep; [| done]. apply free_between in Ep.
      apply res_bind_Ok in E as ([sub ids1] & E & [= <- _]).
      split; [by apply Hmid |]. destruct b; split; try done; by eapply IH.
    + destruct (field_eqb need f); [| done]. apply res_bind_Ok in E as ([sub ids1] & E & [= <- _]).
      destruct Ht as (Hp & Hpos & Hneg). split; [done |]. destruct b; split; try done; by eapply IH.
Qed.

Lemma maug_whole fin l :
  (∀ L R n x used, fin L R n = Ok x → whole used n → whole used x) →
  ∀ L R ids t t' ids' used, maug fin l L R ids t = Ok (t', ids') →
    whole used t → trace_whole used l → whole used t'.
Proof.
  intros Hfin. induction l as [|[f | f b] l IH]; intros L R ids t t' ids' used E Ht Hl; cbn [maug] in E.
  - apply res_bind_Ok in E as (x & Ex & [= <- _]). by eapply Hfin.
  - destruct Hl as ([Hf Hx] & Hu & Hl).
    assert (Hv : f_val f ⊑b N.ones (nbits (f_type f))).
    { eapply bits_sub_trans; [apply (proj2 (proj2 Hf)) |]. apply (proj1 (proj2 Hf)). }
    destruct t as [| | | |m cases]; try done.
    + apply res_bind_Ok in E as ([sub ids1] & E & [= <- _]). apply whole_load. cbn [mask_of m_type m_val].
      split_and!; [apply Hf | done | done | by apply NoDup_singleton |].
      apply Forall_cons_2; [| by apply Forall_nil]. split; [done |]. by eapply IH.
    + destruct (mask_eqb m (mask_of f)) eqn:Em; [| done]. apply res_bind_Ok in E as ([sub ids1] & E & [= <- _]).
      rewrite whole_load in *. destruct Ht as (Hr & Hmo & Hmu & Hnd & Hcs).
      apply andb_true_iff in Em as [Et _]. cbn [mask_of m_type] in Et.
      assert (Et' : m_type m = f_type f) by (by apply registry_keys_inj; [| apply Hf |]).
      split_and!; [done | done | done | by apply keys_set |]. apply cases_all_set; [done |].
      rewrite Et'. split; [done |]. eapply IH; [exact E | | done].
      destruct (assoc cases (f_val f)) as [c|] eqn:Ec; [| done]. rewrite <- Et'.
      by eapply (cases_all_assoc _ cases (f_val f) c Hcs).
  - destruct Hl as (Hf & Hu & Hl). destruct t as [| | |need pos neg id prio|]; try done.
    + destruct ((L <? _) && _)%N; [| done]. apply res_bind_Ok in E as ([sub ids1] & E & [= <- _]).
      destruct b; split_and!; try done; by eapply IH.
    + destruct (field_eqb need f) eqn:Ef; [| done]. apply res_bind_Ok in E as ([sub ids1] & E & [= <- _]).
      destruct Ht as (Hn & Hnu & Hpos & Hneg).
      assert (Et : f_type need = f_type f).
      { unfold field_eqb in Ef. apply andb_true_iff in Ef as [Ef _]. apply andb_true_iff in Ef as [Ef _].
        apply registry_keys_inj; [apply Hn | apply Hf | done]. }
      split_and!; [done | done | |]; destruct b; try done; eapply IH; try done; by rewrite Et.
Qed.

(** ** Matches along a path *)

Lemma multi_erase_ok s m : multi_wf s → rmask_wf m → ∃ s', multi_erase s m = Ok s' ∧ multi_wf s'.
Proof.
  intros (He & Hnd & Hr) [Hm Hmw].
  assert (H : ∃ l, erase_loop m (elems s) = Ok l ∧
    Forall (λ f, rfield_wf f ∧ f_msk f ≠ 0%N ∧ f_type f ∈ used_types s) l).
  { induction He as [|g l (Hg & Hgm & Hgt) _ (l' & E & IH)]; cbn [erase_loop].
    - exists []. split; [done | by apply Forall_nil].
    - destruct (of_type (m_type m) g) eqn:Et.
      + assert (Etg : f_type g = m_type m) by (apply registry_keys_inj; [apply Hg | done | exact Et]).
        rewrite mask_not_ok by done. cbn [mbind res_bind].
        destruct (field_and_mask_ok g (mnot m)) as [-> Hw]; [apply Hg | by apply msk_ok_not | done |].
        cbn [mbind res_bind]. rewrite E. cbn [mbind res_bind]. eexists. split; [done |].
        destruct (f_wildcard _) eqn:Ew; [done |]. apply Forall_cons_2; [| done]. split_and!.
        * split; [apply Hg | exact Hw].
        * by apply N.eqb_neq in Ew.
        * done.
      + rewrite E. eexists. split; [done |]. by apply Forall_cons_2. }
  destruct H as (l & E & Hl). unfold multi_erase. rewrite E. eexists. split; [done |]. by split_and!.
Qed.

(** A match made of whole fields of distinct types, all in [used]. *)
Definition minv (used : gset key) (m : full_field_set) : Prop :=
  multi_wf (included m) ∧ multi_wf (excluded m) ∧
  (∀ f, f ∈ elems (included m) → rfield_exact f ∧ tkey (f_type f) ∈ used) ∧
  (∀ f g, f ∈ elems (included m) → g ∈ elems (included m) →
     tkey (f_type f) = tkey (f_type g) → f = g).

Lemma minv_start : minv ∅ full_empty.
Proof.
  assert (H : multi_wf multi_empty) by (split_and!; [by apply Forall_nil | constructor | by apply Forall_nil]).
  split_and!; [done | done | |]; intros f; [intros Hf | intros g Hf]; by apply elem_of_nil in Hf.
Qed.

Lemma msatb_conj used m v : minv used m → msatb (included m) v = conjb (elems (included m)) v.
Proof.
  intros (Hwf & _ & Hex & Huniq). apply eq_true_iff_eq. unfold msatb, conjb. rewrite !forallb_forall. split.
  - intros H f Hf. apply list_elem_of_In in Hf. pose proof Hwf as (He & _ & Hr).
    rewrite Forall_elem in He. destruct (He f Hf) as (Hw & _ & Ht).
    specialize (H (f_type f) (proj1 (list_elem_of_In _ _) Ht)). unfold type_satb in H.
    assert (Hin : f ∈ equal_range (included m) (f_type f)).
    { apply list_elem_of_In, filter_In. split; [by apply list_elem_of_In | apply type_eqb_refl]. }
    assert (H' : existsb (λ g, satb (vview v (f_type f)) g) (equal_range (included m) (f_type f)) = true).
    { destruct (equal_range (included m) (f_type f)); [by apply elem_of_nil in Hin | done]. }
    apply existsb_exists in H' as (g & Hg & Hsat). apply filter_In in Hg as [Hg Eg].
    assert (f = g) as <-; [| done]. apply Huniq; [done | by apply list_elem_of_In |].
    symmetry. by apply type_eqb_key.
  - intros H t Ht. unfold type_satb. destruct (equal_range (included m) t) as [|g its] eqn:Er; [done |].
    assert (Hg : g ∈ equal_range (included m) t) by (rewrite Er; left).
    pose proof Hwf as (_ & _ & Hr). rewrite Forall_elem in Hr.
    destruct (equal_range_spec _ t g Hwf (Hr t (proj2 (list_elem_of_In _ _) Ht)) Hg) as (_ & _ & <-).
    apply list_elem_of_In, filter_In in Hg as [Hg _]. apply existsb_exists. exists g. split; [by left | by apply H].
Qed.

Lemma not_used_fresh used m t :
  minv used m → (tkey t ∉ used) → List.filter (of_type t) (elems (included m)) = [].
Proof.
  intros (_ & _ & Hex & _) Ht. destruct (List.filter _ _) as [|g l] eqn:E; [done |]. exfalso.
  assert (Hg : In g (List.filter (of_type t) (elems (included m)))) by (rewrite E; by left).
  apply filter_In in Hg as [Hg Et]. apply list_elem_of_In in Hg. destruct (Hex g Hg) as [_ Hu].
  apply type_eqb_key in Et. apply Ht. by rewrite <- Et.
Qed.

Lemma full_add_fresh used m f :
  minv used m → rfield_exact f → (tkey (f_type f) ∉ used) →
  ∃ m1, full_add m f = Ok m1 ∧ minv ({[ tkey (f_type f) ]} ∪ used) m1 ∧
    elems (included m1) = elems (included m) ++ [f].
Proof.
  intros Hm Hf Hu. pose proof Hm as (Hw & Hx & Hex & Huniq).
  assert (Hel : elem_wf f) by (split; [apply Hf | apply registered_nonzero; apply Hf]).
  destruct (add_ok (included m) f Hw Hel) as (s' & E & Hs' & _).
  pose proof (add_fresh (included m) f (not_used_fresh used m _ Hm Hu)) as E'.
  rewrite E in E'. injection E' as ->. unfold full_add. rewrite E. eexists. split; [done |].
  split; [| done]. split_and!; [done | done | |]; cbn [included elems].
  - intros g [Hg | Hg]%elem_of_app.
    + destruct (Hex g Hg). split; [done | set_solver].
    + apply list_elem_of_singleton in Hg as ->. split; [done | set_solver].
  - intros a b [Ha | Ha]%elem_of_app [Hb | Hb]%elem_of_app Ek.
    + by apply Huniq.
    + apply list_elem_of_singleton in Hb as ->. exfalso. apply Hu. rewrite <- Ek. by apply Hex.
    + apply list_elem_of_singleton in Ha as ->. exfalso. apply Hu. rewrite Ek. by apply Hex.
    + apply list_elem_of_singleton in Ha as ->. by apply list_elem_of_singleton in Hb as ->.
Qed.

Lemma full_erase_back used m m2 f :
  minv used m → rfield_exact f → (tkey (f_type f) ∉ used) →
  minv ({[ tkey (f_type f) ]} ∪ used) m2 → elems (included m2) = elems (included m) ++ [f] →
  ∃ m3, full_erase m2 (mask_of f) = Ok m3 ∧ minv used m3 ∧ elems (included m3) = elems (included m).
Proof.
  intros Hm Hf Hu Hm2 Ees. pose proof Hm as (_ & _ & Hex & Huniq). pose proof Hm2 as (Hw2 & Hx2 & _).
  destruct (multi_erase_ok (included m2) (mask_of f) Hw2) as (s' & E & Hs'); [apply mask_of_wf, Hf |].
  pose proof (erase_fresh (elems (included m)) (used_types (included m2)) f (proj1 Hf)
    (not_used_fresh used m _ Hm Hu)) as E'.
  rewrite <- Ees in E'. assert (Em2 : included m2 = Multi (elems (included m2)) (used_types (included m2)))
    by by destruct (included m2).
  rewrite Em2, E' in E. injection E as <-. unfold full_erase. rewrite Em2, E'. eexists. split; [done |].
  split; [| done]. by split_and!.
Qed.

Lemma full_exclude_ok used m f :
  minv used m → rfield_exact f → ∃ m1, full_exclude m f = Ok m1 ∧ minv used m1 ∧ included m1 = included m.
Proof.
  intros (Hw & Hx & Hex & Huniq) Hf.
  assert (Hel : elem_wf f) by (split; [apply Hf | apply registered_nonzero; apply Hf]).
  destruct (add_ok (excluded m) f Hx Hel) as (s' & E & Hs' & _). unfold full_exclude. rewrite E.
  eexists. split; [done |]. by split; [split_and! |].
Qed.

Lemma full_include_ok used m f :
  minv used m → rfield_exact f →
  ∃ m1, full_include m (mask_of f) = Ok m1 ∧ minv used m1 ∧ included m1 = included m.
Proof.
  intros (Hw & Hx & Hex & Huniq) Hf.
  destruct (multi_erase_ok (excluded m) (mask_of f) Hx) as (s' & E & Hs'); [apply mask_of_wf, Hf |].
  unfold full_include. rewrite E. eexists. split; [done |]. by split; [split_and! |].
Qed.
