(* ===== verification/MapleTable.v ===== *)
(** * MapleTable: the flow table maple compiles from its tree,
    [Compiler] and [Lookup] of maple/TraceTree.cc

    [commit] walks the tree and calls the backend: an [install] for each flow,
    a [barrier_rule] for each test.  A switch takes the matching rule of the
    highest priority.  On trees over whole fields with nested priorities, the
    trees that runs of such policies build, that rule is the flow [lookup]
    finds, and a barrier rule or none where [lookup] finds nothing. *)

From S2P Require Import Prelude Bits Oxm FieldSet Packet Policy Valuation Fdd FddCompiler FddCorrect.
From S2P Require Import FddTranslator Tracer TraceTree LeafTraces FullFieldSet MapleTree MapleRuntime MapleCorrect.

(** ** Rules *)

(** A rule of a call: its priority, its match, and the flow that handles the
    packet; a barrier rule hands it to the controller. *)
Record mrule : Type := MRule { mr_prio : N; mr_match : multi_field_set; mr_flow : option flow_ptr }.

Definition rule_of (c : call) : option mrule :=
  match c with
  | CInstall prio m f => Some (MRule prio (included m) (Some f))
  | CBarrierRule prio m _ _ => Some (MRule prio (included m) None)
  | CBarrier | CRemove _ => None
  end.

Definition rules (calls : list call) : list mrule := omap rule_of calls.

Definition rule_hits (v : vpacket) (r : mrule) : bool := msatb (mr_match r) v.

(** The table sends the packet to [o]: the one hit of the highest priority
    says so, or nothing is hit. *)
Definition table_gives (rs : list mrule) (v : vpacket) (o : option flow_ptr) : Prop :=
  (∃ r, r ∈ rs ∧ rule_hits v r = true ∧ mr_flow r = o ∧
     ∀ r', r' ∈ rs → rule_hits v r' = true → r' = r ∨ (mr_prio r' < mr_prio r)%N) ∨
  ((∀ r, r ∈ rs → rule_hits v r = false) ∧ o = None).

Lemma rules_app l1 l2 : rules (l1 ++ l2) = rules l1 ++ rules l2.
Proof. apply omap_app. Qed.

Lemma table_gives_l rs rs' v o :
  (∀ r, r ∈ rs' → rule_hits v r = false) → table_gives rs v o → table_gives (rs ++ rs') v o.
Proof.
  intros Hn [(r & Hr & Hh & Hf & Hw) | [Hall ->]].
  - left. exists r. split_and!; [apply elem_of_app; by left | done | done |].
    intros r' [H' | H']%elem_of_app Hh'; [by apply Hw |]. by rewrite Hn in Hh'.
  - right. split; [| done]. intros r [Hr | Hr]%elem_of_app; auto.
Qed.

Lemma table_gives_r rs rs' v o :
  (∀ r, r ∈ rs → rule_hits v r = false) → table_gives rs' v o → table_gives (rs ++ rs') v o.
Proof.
  intros Hn [(r & Hr & Hh & Hf & Hw) | [Hall ->]].
  - left. exists r. split_and!; [apply elem_of_app; by right | done | done |].
    intros r' [H' | H']%elem_of_app Hh'; [| by apply Hw]. by rewrite Hn in Hh'.
  - right. split; [| done]. intros r [Hr | Hr]%elem_of_app; auto.
Qed.

(** A barrier rule that is hit, above [rs] and below [rs']. *)
Lemma table_gives_barrier rs rs' prio m v o :
  (∀ r, r ∈ rs → (mr_prio r < prio)%N) → (∀ r, r ∈ rs' → (prio < mr_prio r)%N) →
  msatb m v = true → table_gives rs' v o → table_gives (rs ++ MRule prio m None :: rs') v o.
Proof.
  intros Hl Hg Hm Ht. left. destruct Ht as [(r & Hr & Hh & Hf & Hw) | [Hall ->]].
  - exists r. split_and!; [apply elem_of_app; right; by right | done | done |].
    intros r' [H' | [-> | H']%elem_of_cons]%elem_of_app Hh'.
    + right. specialize (Hl r' H'). specialize (Hg r Hr). lia.
    + right. by apply Hg.
    + by apply Hw.
  - exists (MRule prio m None). split_and!; [apply elem_of_app; right; by left | done | done |].
    intros r' [H' | [-> | H']%elem_of_cons]%elem_of_app Hh'; [right; by apply Hl | by left |].
    by rewrite Hall in Hh'.
Qed.

(** A test of the same for concrete tables: the rule at [i] wins. *)
Definition gives_at (i : nat) (rs : list mrule) (v : vpacket) (o : option flow_ptr) : bool :=
  match rs !! i with
  | Some r => rule_hits v r && bool_decide (mr_flow r = o) &&
              forallb (λ r', negb (rule_hits v r') || (mr_prio r' <? mr_prio r)%N) (take i rs ++ drop (S i) rs)
  | None => false
  end.

Lemma gives_at_table i rs v o : gives_at i rs v o = true → table_gives rs v o.
Proof.
  unfold gives_at. destruct (rs !! i) as [r|] eqn:Ei; [| done].
  rewrite !andb_true_iff, forallb_forall. intros [[Hh Ho%bool_decide_eq_true] Hall].
  left. exists r. split_and!; [by eapply list_elem_of_lookup_2 | done | done |]. intros r' Hr' Hh'.
  rewrite <- (take_drop_middle rs i r Ei) in Hr'. apply elem_of_app in Hr' as [Hr' | [-> | Hr']%elem_of_cons].
  - right. specialize (Hall r' ltac:(apply in_or_app; left; by apply list_elem_of_In)).
    rewrite Hh' in Hall. by apply N.ltb_lt.
  - by left.
  - right. specialize (Hall r' ltac:(apply in_or_app; right; by apply list_elem_of_In)).
    rewrite Hh' in Hall. by apply N.ltb_lt.
Qed.

(** ** The depth of a tree *)

Fixpoint mdepth (t : mnode) : nat :=
  match t with
  | MUnexplored | MFlow _ _ | MVload _ _ => 1
  | MTest _ pos neg _ _ => S (mdepth pos `max` mdepth neg)
  | MLoad _ cases =>
      S ((fix go (cases : list (N * mnode)) : nat :=
            match cases with [] => O | (_, c) :: cases => mdepth c `max` go cases end) cases)
  end.

Lemma mdepth_load m cases n :
  (mdepth (MLoad m cases) ≤ S n)%nat → cases_all (λ _ c, (mdepth c ≤ n)%nat) cases.
Proof.
  cbn [mdepth]. unfold cases_all. intros H. apply le_S_n in H. revert H.
  induction cases as [|[v c] cases IH]; intros H; [by apply Forall_nil |].
  apply Forall_cons_2; [cbn; lia | apply IH; lia].
Qed.

(** ** Compiling a subtree *)

(** The rules of a subtree lie in its range of priorities and are hit only by
    packets on the path to it. *)
Definition banded (L R : N) (es : list field) (c : call) : Prop :=
  ∃ r, rule_of c = Some r ∧ (L < mr_prio r < R)%N ∧
    ∀ v, rule_hits v r = true → conjb es v = true.

Lemma banded_wider L R L' R' es es' c :
  (L' ≤ L)%N → (R ≤ R')%N → (∀ v, conjb es v = true → conjb es' v = true) →
  banded L R es c → banded L' R' es' c.
Proof.
  intros HL HR Hes (r & Er & Hp & Hh). exists r. split_and!; [done | lia | lia | auto].
Qed.

Lemma banded_in L R es calls r :
  Forall (banded L R es) calls → r ∈ rules calls →
  (L < mr_prio r < R)%N ∧ ∀ v, rule_hits v r = true → conjb es v = true.
Proof.
  intros H Hr. apply list_elem_of_omap in Hr as (c & Hc & Er). rewrite Forall_elem in H.
  destruct (H c Hc) as (r' & Er' & Hp). rewrite Er in Er'. injection Er' as <-. exact Hp.
Qed.

(** ** More fuel gives the same *)

(** Both sides do the same first step. *)
Ltac follow E :=
  let E' := fresh in
  apply comp_bind_Ret in E as (? & E' & E); rewrite E'; cbn [mbind comp_bind]; clear E'.

Section Fuel.
Context (alive : flow_ptr → bool) (fo : gmap loc mnode).

Lemma each_case_mono {A} (c c' : A → full_field_set → comp (full_field_set * list call)) msk cases :
  (∀ a m x, c a m = Ret x → c' a m = Ret x) →
  ∀ m x, each_case c msk cases m = Ret x → each_case c' msk cases m = Ret x.
Proof.
  intros Hc. induction cases as [|[v a] cases IH]; intros m x; cbn [each_case]; [done |]. intros E.
  follow E. follow E. apply comp_bind_Ret in E as ([m2 c1] & E2 & E). rewrite (Hc _ _ _ E2).
  cbn [mbind comp_bind]. follow E. apply comp_bind_Ret in E as ([m4 c2] & E4 & E). by rewrite (IH _ _ E4).
Qed.

Lemma compile_mono n : ∀ t m x n', (n ≤ n')%nat →
  compile_node alive fo n t m = Ret x → compile_node alive fo n' t m = Ret x.
Proof.
  induction n as [|n IH]; intros t m x n' Hn E; [done |]. destruct n' as [|n']; [lia |].
  apply le_S_n in Hn. assert (IH' := λ t m x, IH t m x n' Hn). clear IH. cbn [compile_node] in *.
  destruct t as [| | msk cases | need pos neg id prio | msk cases]; try done.
  - eapply each_case_mono; [| exact E]. intros l m' x' E'. cbn beta in *.
    destruct (fo !! l); [by apply IH' | done].
  - follow E. apply comp_bind_Ret in E as ([m2 c1] & E1 & E). rewrite (IH' _ _ _ E1). cbn [mbind comp_bind].
    follow E. follow E. apply comp_bind_Ret in E as ([m5 c2] & E2 & E). rewrite (IH' _ _ _ E2).
    cbn [mbind comp_bind]. follow E. exact E.
  - eapply each_case_mono; [| exact E]. apply IH'.
Qed.

Lemma lookup_mono {P} `{PacketOps P} n : ∀ t (p : P) x n', (n ≤ n')%nat →
  lookup_node alive fo n t p = Ret x → lookup_node alive fo n' t p = Ret x.
Proof.
  induction n as [|n IH]; intros t p x n' Hn E; [done |]. destruct n' as [|n']; [lia |].
  apply le_S_n in Hn. assert (IH' := λ t p x, IH t p x n' Hn). clear IH. cbn [lookup_node] in *.
  destruct t as [| | msk cases | need pos neg id prio | msk cases]; try done;
    apply comp_bind_Ret in E as ([? ?] & E1 & E); rewrite E1; cbn [mbind comp_bind];
    repeat case_match; try done; by apply IH'.
Qed.
End Fuel.

Section Compile.
Context (alive : flow_ptr → bool) (fo : gmap loc mnode).

(** What compiling under the fields [es] gives, against what is looked up. *)
Definition compiled (used : gset key) (L R : N) (es : list field) (x : comp (full_field_set * list call))
    (look : vpacket → comp (option flow_ptr * vpacket)) : Prop :=
  ∃ m calls, x = Ret (m, calls) ∧ minv used m ∧ elems (included m) = es ∧
    Forall (banded L R es) calls ∧
    ∀ v, full v → conjb es v = true → ∃ o, look v = Ret (o, v) ∧ table_gives (rules calls) v o.

(** A packet off the path hits no rule of the subtree. *)
Lemma banded_misses L R es f calls v :
  Forall (banded L R (es ++ [f])) calls → satb (vview v (f_type f)) f = false →
  ∀ r, r ∈ rules calls → rule_hits v r = false.
Proof.
  intros H Hf r Hr. destruct (banded_in _ _ _ _ _ H Hr) as [_ Hh].
  destruct (rule_hits v r) eqn:E; [| done]. specialize (Hh v E). rewrite conjb_snoc, Hf in Hh.
  by rewrite andb_false_r in Hh.
Qed.

Lemma conjb_prefix es f v : conjb (es ++ [f]) v = true → conjb es v = true.
Proof. rewrite conjb_snoc. by intros [? _]%andb_true_iff. Qed.

Lemma compile_flow n used L R m f prio :
  minv used m → (L < prio < R)%N →
  compiled used L R (elems (included m)) (compile_node alive fo (S n) (MFlow f prio) m)
    (lookup_node alive fo (S n) (MFlow f prio)).
Proof.
  intros Hm Hp. eexists m, _. cbn [compile_node]. split_and!; [done | done | done | |].
  - destruct (alive f); [| by apply Forall_nil]. apply Forall_cons_2; [| by apply Forall_nil].
    eexists. split_and!; [done | apply Hp | apply Hp |]. intros v. unfold rule_hits. cbn [mr_match].
    by rewrite (msatb_conj used).
  - intros v _ Hv. cbn [lookup_node]. destruct (alive f); eexists; (split; [done |]).
    + left. eexists. split_and!; [by left | unfold rule_hits; cbn [mr_match]; by rewrite (msatb_conj used) | done |].
      intros r' Hr'%list_elem_of_singleton _. by left.
    + right. split; [| done]. by intros r Hr%elem_of_nil.
Qed.

Lemma compile_test n used L R m need pos neg id prio :
  minv used m → rfield_exact need → (tkey (f_type need) ∉ used) → (L < prio < R)%N →
  (∀ m1, minv used m1 → elems (included m1) = elems (included m) →
     compiled used L prio (elems (included m)) (compile_node alive fo n neg m1) (lookup_node alive fo n neg)) →
  (∀ m1, minv ({[ tkey (f_type need) ]} ∪ used) m1 → elems (included m1) = elems (included m) ++ [need] →
     compiled ({[ tkey (f_type need) ]} ∪ used) prio R (elems (included m) ++ [need])
       (compile_node alive fo n pos m1) (lookup_node alive fo n pos)) →
  compiled used L R (elems (included m)) (compile_node alive fo (S n) (MTest need pos neg id prio) m)
    (lookup_node alive fo (S n) (MTest need pos neg id prio)).
Proof.
  intros Hm Hn Hu Hp Hneg Hpos. cbn [compile_node].
  destruct (full_exclude_ok used m need Hm Hn) as (m1 & -> & Hm1 & E1). cbn [lift mbind comp_bind].
  destruct (Hneg m1) as (m2 & c1 & -> & Hm2 & E2 & B1 & T1); [done | by rewrite E1 |].
  cbn [lift mbind comp_bind].
  destruct (full_include_ok used m2 need Hm2 Hn) as (m3 & -> & Hm3 & E3). cbn [lift mbind comp_bind].
  destruct (full_add_fresh used m3 need Hm3 Hn Hu) as (m4 & -> & Hm4 & E4). cbn [lift mbind comp_bind].
  rewrite E3, E2 in E4.
  destruct (Hpos m4) as (m5 & c2 & -> & Hm5 & E5 & B2 & T2); [done | done |]. cbn [lift mbind comp_bind].
  assert (E35 : elems (included m5) = elems (included m3) ++ [need]) by by rewrite E5, E3, E2.
  destruct (full_erase_back used m3 m5 need Hm3 Hn Hu Hm5 E35) as (m6 & -> & Hm6 & E6).
  cbn [lift mbind comp_bind].
  assert (Hbar : ∀ v, msatb (included m4) v = conjb (elems (included m)) v && satb (vview v (f_type need)) need).
  { intros v. by rewrite (msatb_conj _ _ _ Hm4), E4, conjb_snoc. }
  eexists m6, _. split_and!; [done | done | by rewrite E6, E3, E2 | |].
  - apply Forall_app. split; [| apply Forall_cons_2].
    + eapply Forall_impl; [| exact B1]. intros c. apply banded_wider; [lia | lia | done].
    + eexists. split_and!; [done | apply Hp | apply Hp |]. intros v. unfold rule_hits. cbn [mr_match].
      rewrite Hbar. by intros [? _]%andb_true_iff.
    + eapply Forall_impl; [| exact B2]. intros c. apply banded_wider; [lia | lia | apply conjb_prefix].
  - intros v Hv Hc. cbn [lookup_node]. rewrite vtest by (done || apply Hn). cbn [lift mbind comp_bind].
    rewrite rules_app. cbn [rules omap list_omap rule_of]. fold (rules c2).
    destruct (satb (vview v (f_type need)) need) eqn:Es.
    + destruct (T2 v Hv) as (o & -> & Ho); [by rewrite conjb_snoc, Hc, Es |]. exists o. split; [done |].
      apply table_gives_barrier; [| | by rewrite Hbar, Hc, Es | done].
      * intros r Hr. by destruct (banded_in _ _ _ _ _ B1 Hr) as [[_ ?] _].
      * intros r Hr. by destruct (banded_in _ _ _ _ _ B2 Hr) as [[? _] _].
    + destruct (T1 v Hv Hc) as (o & -> & Ho). exists o. split; [done |].
      apply table_gives_l; [| done]. intros r [-> | Hr]%elem_of_cons.
      * unfold rule_hits. cbn [mr_match]. by rewrite Hbar, Hc, Es.
      * by eapply banded_misses.
Qed.

(** The field of a case. *)
Definition exact_field (t : otype) (v : N) : field := Field t v (N.ones (nbits t)).

Lemma case_field_exact (msk : mask) v :
  registered (m_type msk) = true → m_val msk = N.ones (nbits (m_type msk)) →
  (v ⊑b N.ones (nbits (m_type msk))) →
  case_field msk v = Ok (exact_field (m_type msk) v) ∧ rfield_exact (exact_field (m_type msk) v) ∧
  mask_of (exact_field (m_type msk) v) = msk.
Proof.
  intros Hr Hm Hv. split_and!.
  - unfold case_field, type_eq_value, mk_value. rewrite value_holder_ok. cbn [mbind res_bind fmap res_fmap].
    rewrite value_and_mask_ok; [| unfold mask_wf; rewrite Hm; apply msk_ok_ones | done].
    cbn. by rewrite Hm, Hv.
  - split; [| done]. split; [done |]. split; [apply msk_ok_ones | done].
  - unfold mask_of, exact_field. cbn. rewrite <- Hm. by destruct msk.
Qed.

Lemma exact_field_sat t v x : satb x (exact_field t v) = (N.land x (N.ones (nbits t)) =? v)%N.
Proof. done. Qed.

Lemma compile_cases (used : gset key) (L R : N) (m : full_field_set) (msk : mask) (compile : mnode → full_field_set → comp (full_field_set * list call))
    (look : mnode → vpacket → comp (option flow_ptr * vpacket)) (cases : list (N * mnode)) :
  let t := m_type msk in
  let keyof (v : vpacket) := N.land (vview v t) (m_val msk) in
  registered t = true → m_val msk = N.ones (nbits t) → (tkey t ∉ used) → NoDup (map fst cases) →
  cases_all (λ v c, (v ⊑b N.ones (nbits t)) ∧ ∀ m1, minv ({[ tkey t ]} ∪ used) m1 →
     elems (included m1) = elems (included m) ++ [exact_field t v] →
     compiled ({[ tkey t ]} ∪ used) L R (elems (included m) ++ [exact_field t v]) (compile c m1) (look c)) cases →
  ∀ m0, minv used m0 → elems (included m0) = elems (included m) →
  ∃ m' calls, each_case compile msk cases m0 = Ret (m', calls) ∧ minv used m' ∧
    elems (included m') = elems (included m) ∧ Forall (banded L R (elems (included m))) calls ∧
    ∀ v, full v → conjb (elems (included m)) v = true →
      (∀ r, r ∈ rules calls → rule_hits v r = true → keyof v ∈ map fst cases) ∧
      ∃ o, match assoc cases (keyof v) with Some c => look c v | None => Ret (None, v) end = Ret (o, v) ∧
        table_gives (rules calls) v o.
Proof.
  intros t keyof Hr Hm Hu Hnd Hcs.
  induction Hcs as [|[w c] cases [Hw Hc] Hcs IH]; intros m0 Hm0 E0;
    cbn [each_case assoc map fst snd] in *.
  { exists m0, []. split_and!; [done | done | done | by apply Forall_nil |].
    intros v Hv Hes. split; [by intros r H%elem_of_nil |]. eexists. split; [done |].
    right. split; [| done]. by intros r H%elem_of_nil. }
  inversion Hnd as [|? ? Hnw Hnd']; subst. specialize (IH Hnd').
  destruct (case_field_exact msk w Hr Hm Hw) as (-> & Hf & Hmf). cbn [lift mbind comp_bind].
  destruct (full_add_fresh used m0 _ Hm0 Hf Hu) as (m1 & -> & Hm1 & E1). cbn [lift mbind comp_bind].
  destruct (Hc m1) as (m2 & c1 & -> & Hm2 & E2 & B1 & T1); [done | by rewrite E1, E0 |]. cbn [lift mbind comp_bind].
  destruct (full_erase_back used m0 m2 _ Hm0 Hf Hu Hm2) as (m3 & E3' & Hm3 & E3); [by rewrite E2, E0 |].
  rewrite Hmf in E3'. rewrite E3'. cbn [lift mbind comp_bind].
  destruct (IH m3 Hm3) as (m4 & c2 & -> & Hm4 & E4 & B2 & T2); [by rewrite E3 |]. cbn [mbind comp_bind].
  eexists m4, _. split_and!; [done | done | done | |].
  - apply Forall_app. split; [| done]. eapply Forall_impl; [| exact B1]. intros d.
    apply banded_wider; [lia | lia | apply conjb_prefix].
  - intros v Hv Hes. destruct (T2 v Hv Hes) as [Hin2 (o2 & Eo2 & To2)].
    assert (Hkey : satb (vview v t) (exact_field t w) = (keyof v =? w)%N)
      by by rewrite exact_field_sat, <- Hm.
    rewrite rules_app. split.
    + intros r [Hr1 | Hr2]%elem_of_app Hh; [| right; by eapply Hin2].
      destruct (banded_in _ _ _ _ _ B1 Hr1) as [_ Hb]. specialize (Hb v Hh).
      rewrite conjb_snoc, andb_true_iff in Hb. destruct Hb as [_ Hb].
      assert (Ek : (keyof v =? w)%N = true) by (rewrite <- Hkey; exact Hb).
      apply N.eqb_eq in Ek as ->. by left.
    + rewrite (N.eqb_sym w). destruct (keyof v =? w)%N eqn:Ek.
      * destruct (T1 v Hv) as (o & Eo & To); [rewrite conjb_snoc, Hes; exact Hkey |].
        exists o. split; [done |]. apply table_gives_l; [| done]. intros r Hr2.
        destruct (rule_hits v r) eqn:Eh; [| done]. exfalso. apply Hnw. apply N.eqb_eq in Ek as <-.
        by apply (Hin2 r).
      * exists o2. split; [done |]. apply table_gives_r; [| done]. eapply banded_misses; [exact B1 | exact Hkey].
Qed.

Lemma compile_whole n : ∀ t used (L R : N) (m : full_field_set),
  (mdepth t ≤ n)%nat → whole used t → prio_ok L R t → minv used m →
  compiled used L R (elems (included m)) (compile_node alive fo (S n) t m) (lookup_node alive fo (S n) t).
Proof.
  induction n as [|n IH]; intros t used L R m Hd Ht Hp Hm.
  { exfalso. destruct t; cbn in Hd; lia. }
  destruct t as [| f prio | msk cases | need pos neg id prio | msk cases].
  - exists m, []. split_and!; [done | done | done | by apply Forall_nil |].
    intros v _ _. exists None. split; [done |]. right. split; [| done]. by intros r H%elem_of_nil.
  - by apply compile_flow.
  - done.
  - destruct Ht as (Hn & Hu & Hpos & Hneg). destruct Hp as (Hpr & Hppos & Hpneg). cbn [mdepth] in Hd.
    apply compile_test; [done | done | done | done | |].
    + intros m1 Hm1 E1. rewrite <- E1. apply IH; [lia | done | done | done].
    + intros m1 Hm1 E1. rewrite <- E1. apply IH; [lia | done | done | done].
  - apply mdepth_load in Hd. apply whole_load in Ht as (Hr & Hmo & Hu & Hnd & Hcs). apply prios_load in Hp.
    destruct (compile_cases used L R m msk (compile_node alive fo (S n)) (lookup_node alive fo (S n)) cases
      Hr Hmo Hu Hnd) with (m0 := m) as (m' & calls & E & Hm' & Ee & B & T); [| done | done |].
    + apply Forall_elem. intros [w c] Hin. unfold cases_all in *. rewrite Forall_elem in Hd, Hcs, Hp.
      specialize (Hd _ Hin). destruct (Hcs _ Hin) as [Hw Hc]. specialize (Hp _ Hin). cbn [fst snd] in *.
      split; [done |]. intros m1 Hm1 E1. rewrite <- E1. by apply IH.
    + exists m', calls. split_and!; [exact E | done | done | done |]. intros v Hv Hes.
      destruct (T v Hv Hes) as [_ (o & Eo & To)]. exists o. split; [| done].
      change (lookup_node alive fo (S (S n)) (MLoad msk cases) v)
        with ('(f, p') ← lift (pkt_load v msk);
              match assoc cases (f_val f) with
              | Some c => lookup_node alive fo (S n) c p'
              | None => Ret (None, p')
              end).
      rewrite vload_full; [exact Eo | done |]. by apply whole_mask.
Qed.
End Compile.
