(* ===== verification/MapleRun.v ===== *)
(** * MapleRun: histories of packet-ins, maple/Runtime.hh over the tree

    A policy that looks at whole fields runs on packet after packet, each run
    augments the tree with a flow or fails.  The states this reaches are a
    rule induction ([reach]); in all of them the tree is over whole fields
    with nested priorities and holds, for each trace, the flow of the latest
    successful run ([tree_inv]). *)

From S2P Require Import Prelude Bits Oxm FieldSet Packet Policy Valuation Fdd FddCompiler FddCorrect.
From S2P Require Import FddTranslator Tracer TraceTree LeafTraces FullFieldSet MapleTree MapleRuntime MapleCorrect.
From S2P Require Import MapleTable.

(** ** Traces of functions that look at whole fields *)

Lemma find_dom (cache : field_set) t : find cache t = None → tkey t ∉ (dom cache : gset key).
Proof. unfold find. apply not_elem_of_dom_2. Qed.

Lemma used_pmodify (used : gset key) cache f :
  used ⊆ dom cache → {[ tkey (f_type f) ]} ∪ used ⊆ dom (pmodify cache f).
Proof. intros H. unfold pmodify. rewrite dom_insert_L. set_solver. Qed.

Lemma subseteq_pmodify (used : gset key) cache f : used ⊆ dom cache → used ⊆ dom (pmodify cache f).
Proof. intros H. unfold pmodify. rewrite dom_insert_L. set_solver. Qed.

Section WholeTraces.
Context {P : Type} `{PacketLaws P}.

Lemma run_nodes_whole h : ∀ (p : P) tr cache mods pol s' used,
  handler_whole h → set_exact cache → fs_wf mods → used ⊆ (dom cache : gset key) →
  run h (st p tr cache mods) = Ok (pol, s') →
  ∃ new, tr_values (tp_tracer (mt_pkt s')) = tr ++ new ∧ trace_whole used new.
Proof.
  induction h as [pol | m k IH | f k IH | f k IH]; intros p tr cache mods pol' s' used Hh Hc Hm Hu E.
  - cbn in E. injection E as <- <-. exists []. by rewrite app_nil_r.
  - destruct Hh as (Hr & Hmo & Hk). assert (Hmk := whole_mask m Hr Hmo).
    rewrite run_load in E by (done || apply Hc). destruct (pbound p (m_type m)); [| done].
    cbv zeta in E. destruct (entry_facts cache (m_type m) (proj1 Hc) Hr) as (Et & Hw & _).
    assert (Hun := unexp_wf (pview p (m_type m)) m (entry cache (m_type m)) Hmk Hw Et).
    destruct (f_wildcard _) eqn:Ew; [by eapply IH in E |].
    destruct (unexp_exact _ _ _ Hc Hr Hmo Ew) as [Hn Hx].
    eapply (IH _ _ _ _ _ _ _ ({[ tkey (m_type m) ]} ∪ used)) in E as (new & Ev & Hnew);
      [| done | by apply set_exact_pmodify | done | by apply (used_pmodify _ _ (unexp _ _ _))].
    eexists (TLoad _ :: new). split; [by rewrite Ev, <- (assoc_L (++)) |].
    split_and!; [by split | | done]. intros Hin. by apply (find_dom _ _ Hn), Hu.
  - destruct Hh as [[Hf Hfx] Hk]. rewrite run_test in E by (done || apply Hc).
    destruct (pbound p (f_type f)); [| done].
    cbv zeta in E. destruct (entry_facts cache (f_type f) (proj1 Hc) (proj1 Hf)) as (Et & Hw & _).
    assert (Hm' := mask_of_wf _ Hf).
    assert (Hun := unexp_wf (pview p (f_type f)) (mask_of f) (entry cache (f_type f)) Hm' Hw Et).
    destruct (negb _); [by eapply IH in E |]. destruct (f_wildcard _) eqn:Ew; [by eapply IH in E |].
    destruct (unexp_exact _ (mask_of f) _ Hc (proj1 Hf) Hfx Ew) as [Hn Hx].
    set (b := fmatch _ f) in *. set (u := unexp _ _ _) in *.
    eapply (IH _ _ _ _ _ _ _ (if b then {[ tkey (f_type f) ]} ∪ used else used)) in E as (new & Ev & Hnew);
      [| done | by destruct b; [apply set_exact_pmodify |] | done
       | by destruct b; [apply (used_pmodify _ _ u) |]].
    eexists (TTest _ b :: new). split; [by rewrite Ev, <- (assoc_L (++)) |].
    split_and!; [| intros Hin; by apply (find_dom _ _ Hn), Hu | exact Hnew].
    split; [apply fwiden_wf; [done | by apply mask_of_wf | done] |].
    unfold fexact in *. cbn [fwiden f_msk f_type mask_of m_val] in *.
    rewrite Hfx. etrans; [| apply N.land_diag]. f_equal. exact Hx.
  - destruct Hh as [Hf Hk]. rewrite run_modify in E by (done || apply Hc || apply Hf).
    destruct (pkt_modify p f) as [q|]; [| done]. cbn [mbind res_bind] in E.
    eapply IH in E; try done; [by apply fs_exact_pmodify | by apply pmodify_wf; [| apply Hf] |].
    by apply subseteq_pmodify.
Qed.

Lemma run_tracer_whole h (p : P) t :
  handler_whole h → run_tracer h p = Ok t → trace_whole ∅ (tr_values t).
Proof.
  intros Hh E. destruct (run_tracer_spec h p t (whole_wf h Hh) E) as (pol & p' & c & m & Er & _).
  eapply (run_nodes_whole _ _ _ _ _ _ _ ∅) in Er as (new & Ev & Hn).
  - cbn in Ev. by rewrite Ev.
  - done.
  - by split; [apply fs_wf_empty | intros k f Hk].
  - apply fs_wf_empty.
  - set_solver.
Qed.
End WholeTraces.

(** ** What can go wrong in a run *)

Definition used_after (used : gset key) (nd : trace_node) : gset key :=
  match nd with
  | TTest _ false => used
  | TLoad f | TTest f true => {[ tkey (f_type f) ]} ∪ used
  end.

Lemma trace_whole_cons used nd l :
  trace_whole used (nd :: l) →
  rfield_exact (node_field nd) ∧ (tkey (f_type (node_field nd)) ∉ used) ∧ trace_whole (used_after used nd) l.
Proof. by destruct nd as [f | f []]. Qed.

Lemma trace_whole_prefix l1 l2 : ∀ used, trace_whole used (l1 ++ l2) → trace_whole used l1.
Proof.
  induction l1 as [|[f | f b] l1 IH]; intros used; cbn [app trace_whole]; [done | |];
    intros (? & ? & ?); split_and!; auto.
Qed.

(** A report that fits the tree throws at most [priority_exceeded]. *)
Lemma report_safe t T a n nd l used :
  at_node t T a n → mfits n (nd :: l) → minv used (ti_match t) → trace_whole used (nd :: l) →
  match report t nd with
  | Ok t1 => minv (used_after used nd) (ti_match t1)
  | Throw e => e = PriorityExceeded ∧ prio_free t (middle_prio t) = false
  end.
Proof.
  intros Hat Hfit Hm Hw. pose proof Hat as (_ & _ & _ & Hv & _ & _).
  destruct (trace_whole_cons _ _ _ Hw) as (Hf & Hu & _).
  destruct (full_add_fresh used (ti_match t) _ Hm Hf Hu) as (m1 & Em1 & Hm1 & _).
  destruct (full_exclude_ok used (ti_match t) _ Hm Hf) as (m2 & Em2 & Hm2 & _).
  destruct nd as [f | f b]; cbn [report node_field used_after] in *.
  - unfold impl_load, step_load. rewrite (at_node_current t T a n Hat), Hv. cbn [mbind res_bind].
    destruct Hfit as [-> | (cases & -> & _)]; [| rewrite mask_eqb_refl]; cbn [mbind res_bind moved ti_match];
      by rewrite Em1.
  - unfold impl_test. rewrite (at_node_current t T a n Hat), Hv. cbn [mbind res_bind].
    destruct Hfit as [-> | (pos & neg & id & prio & -> & _)].
    + destruct (require _ _) as [u|e] eqn:Er; cbn [mbind res_bind].
      * rewrite Em1. cbn [mbind res_bind]. destruct b; cbn [with_prios called moved ti_match];
          [by rewrite Em1 | by rewrite Em2].
      * unfold require in Er. destruct (prio_free _ _); [done |]. by injection Er.
    + rewrite field_eqb_refl. cbn [mbind res_bind]. destruct b; cbn [with_prios moved ti_match];
        [by rewrite Em1 | by rewrite Em2].
Qed.

(** So does a replay, which stops after a prefix; and at its end the node is
    one that can be finished. *)
Lemma replay_safe l : ∀ t T a n used,
  at_node t T a n → mfits n l → minv used (ti_match t) → trace_whole used l →
  match replay l t with
  | (t', Some e) => e = PriorityExceeded ∧ ∃ l1 l2, l = l1 ++ l2 ∧ replay l1 t = (t', None)
  | (t', None) => ∃ T' a' n', at_node t' T' a' n' ∧ mfits n' []
  end.
Proof.
  induction l as [|nd l IH]; intros t T a n used Hat Hfit Hm Hw; cbn [replay].
  - by exists T, a, n.
  - pose proof (report_safe t T a n nd l used Hat Hfit Hm Hw) as Hs.
    destruct (report t nd) as [t1|e] eqn:Er.
    + destruct (report_step t t1 T a n nd Hat Er) as (s & n1 & c1 & Hat1 & _ & _ & Hf1 & _ & _).
      destruct (trace_whole_cons _ _ _ Hw) as (_ & _ & Hw1).
      specialize (IH t1 _ _ c1 _ Hat1 (Hf1 l Hfit) Hs Hw1). destruct (replay l t1) as [t' [e|]]; [| done].
      destruct IH as (-> & l1 & l2 & -> & E). split; [done |]. exists (nd :: l1), l2. split; [done |].
      cbn [replay]. by rewrite Er.
    + split; [apply Hs |]. by exists [], (nd :: l).
Qed.

Lemma finish_safe `{FlowOps} t T a n flow :
  at_node t T a n → mfits n [] →
  match impl_finish t flow with
  | Ok _ => True
  | Throw e => e = PriorityExceeded ∧ prio_free t (middle_prio t) = false
  end.
Proof.
  intros Hat Hfit. pose proof Hat as (_ & _ & _ & Hv & _ & Hm). unfold impl_finish.
  rewrite (at_node_current t T a n Hat), Hv, Hm. cbn [mbind res_bind].
  destruct Hfit as [-> | (f & prio & ->)]; [| done].
  destruct (require _ _) as [u|e] eqn:Er; cbn [mbind res_bind]; [done |].
  unfold require in Er. destruct (prio_free _ _); [done |]. by injection Er.
Qed.

(** ** Reachable trees *)

Definition trace_of (h : handler) (v : vpacket) : res (list trace_node) := tr_values <$> run_tracer h v.

(** The flow of the latest packet with the same trace. *)
Fixpoint recent (h : handler) (hist : list (vpacket * flow_ptr)) (v : vpacket) : option flow_ptr :=
  match hist with
  | [] => None
  | (w, f) :: hist => if decide (trace_of h w = trace_of h v) then Some f else recent h hist v
  end.

(** A packet-in augments the tree, or its run fails; the history keeps the
    packets and flows of the runs that did not. *)
Inductive reach `{FlowOps} (h : handler) : forest → list (vpacket * flow_ptr) → Prop :=
| reach_start id : reach h (fresh_forest id) []
| reach_augmented fo hist v flow r :
    reach h fo hist → full v → ar_result (runtime_augment h v flow fo) = Ok r →
    reach h (ar_forest (runtime_augment h v flow fo)) ((v, flow) :: hist)
| reach_failed fo hist v flow e :
    reach h fo hist → full v → ar_result (runtime_augment h v flow fo) = Throw e →
    reach h (ar_forest (runtime_augment h v flow fo)) hist.

Definition tree_inv (h : handler) (fo : forest) (hist : list (vpacket * flow_ptr)) : Prop :=
  ∃ T, trees fo = {[ root := T ]} ∧ whole ∅ T ∧ prio_ok 1 65535 T ∧ prio_mid 1 65535 T ∧
    ∀ v t, full v → run_tracer h v = Ok t →
      mfits T (tr_values t) ∧ mlookup T (tr_values t) = recent h hist v.

Lemma tree_inv_start h id : tree_inv h (fresh_forest id) [].
Proof.
  exists MUnexplored. split_and!; [done | done | done | done |]. intros v t _ _.
  split; [apply mfits_unexplored | apply mlookup_unexplored].
Qed.

Lemma finish_node_whole flow L R n x used : finish_node flow L R n = Ok x → whole used n → whole used x.
Proof. destruct n; cbn [finish_node]; try done; [destruct (_ && _); [| done] |]; by intros [= <-]. Qed.

Lemma finish_node_prios Q flow L R n x :
  ((L < u16 ((L + R) / 2) < R)%N → Q L R (u16 ((L + R) / 2))) →
  finish_node flow L R n = Ok x → prios Q L R n → prios Q L R x.
Proof.
  intros Hmid. destruct n; cbn [finish_node]; try done; [| by intros [= <-]].
  destruct ((L <? _) && _)%N eqn:E; [| done]. intros [= <-] _. apply free_between in E. by apply Hmid.
Qed.

Section Steps.
Context (h : handler) (Hh : handler_whole h).

Lemma traces_compat v w t t' :
  full v → full w → run_tracer h v = Ok t → run_tracer h w = Ok t' → compat (tr_values t) (tr_values t').
Proof.
  intros Hv Hw E E'. pose proof (run_tracer_pair h v w t (whole_wf h Hh) (full_same_bound v w Hv Hw) E) as Hp.
  rewrite E' in Hp. apply Hp.
Qed.

(** An augmentation stopped after some reports keeps what is looked up. *)
Lemma tree_inv_partial fo hist v t l1 l2 t' L :
  tree_inv h fo hist → full v → run_tracer h v = Ok t → tr_values t = l1 ++ l2 → L = 1%N →
  replay l1 (tracer_start fo L 65535) = (t', None) → tree_inv h (ti_forest t') hist.
Proof.
  intros (T & HT & Hw & Hp & Hpm & Hl) Hv Et El -> Er.
  assert (HTr : trees fo !! root = Some T) by (by rewrite HT, lookup_singleton_eq).
  destruct (replay_partial l1 fo 1 65535 T t' HTr Er) as (T' & Etr & Em).
  assert (Htw : trace_whole ∅ l1).
  { apply (trace_whole_prefix l1 l2). rewrite <- El. by eapply run_tracer_whole. }
  exists T'. split_and!.
  - by rewrite Etr, HT, insert_singleton_eq.
  - eapply maug_whole; [| exact Em | done | done]. by intros ???? ? [= <-].
  - eapply maug_prios; [| | exact Em | done]; [done | by intros ???? [= <-]].
  - eapply maug_prios; [| | exact Em | done]; [done | by intros ???? [= <-]].
  - intros w t2 Hw2 Et2. destruct (Hl w t2 Hw2 Et2) as [Hf2 <-]. destruct (Hl v t Hv Et) as [Hf _].
    rewrite El in Hf.
    destruct (maug_good (λ _ _ n, Ok n) l2 (λ _ o o', o = o') (λ _, eq_refl)
      ltac:(by intros ???? ? [= <-] ???) l1 1 65535 _ T T' _ Em Hf (tr_values t2)) as [H1 H2]; [| done | done].
    rewrite <- El. by apply (traces_compat v w).
Qed.

Lemma tree_inv_finish `{FlowOps} fo hist v t flow t' t2 i :
  tree_inv h fo hist → full v → run_tracer h v = Ok t →
  replay (tr_values t) (tracer_start fo 1 65535) = (t', None) → impl_finish t' flow = Ok (t2, i) →
  tree_inv h (ti_forest t2) ((v, flow) :: hist).
Proof.
  intros (T & HT & Hw & Hp & Hpm & Hl) Hv Et Er Ef.
  assert (HTr : trees fo !! root = Some T) by (by rewrite HT, lookup_singleton_eq).
  destruct (replay_finish _ fo 1 65535 T flow t' t2 i HTr Er Ef) as (T' & ids' & Etr & Em).
  exists T'. split_and!.
  - by rewrite Etr, HT, insert_singleton_eq.
  - eapply maug_whole; [apply finish_node_whole | exact Em | done | by eapply run_tracer_whole].
  - eapply maug_prios; [| | exact Em | done]; [done | intros; by eapply finish_node_prios].
  - eapply maug_prios; [| | exact Em | done]; [done | intros; by eapply finish_node_prios].
  - intros w t3 Hw3 Et3. destruct (Hl w t3 Hw3 Et3) as [Hf3 Ho]. destruct (Hl v t Hv Et) as [Hf _].
    rewrite <- (app_nil_r (tr_values t)) in Hf.
    destruct (maug_good (finish_node flow) [] (λ b o o', o' = if b : bool then Some flow else o) (λ _, eq_refl)
      ltac:(intros L R n x l' Ex Hfit Hc _; inversion Hc; subst;
            destruct n; cbn [finish_node] in Ex; try done; [destruct (_ && _); [| done] |]; injection Ex as <-;
            (split; [right; by eexists _, _ | done])) _ 1 65535 _ T T' _ Em Hf (tr_values t3)) as [H1 H2].
    + rewrite app_nil_r. by apply (traces_compat v w).
    + done.
    + split; [done |]. rewrite H2, app_nil_r, Ho. cbn [recent]. unfold trace_of. rewrite Et, Et3.
      cbn [fmap res_fmap]. repeat case_decide; try done; case_bool_decide; congruence.
Qed.

(** Every packet-in keeps the invariant and fails only for want of a
    priority. *)
Lemma tree_inv_step `{FlowOps} fo hist v flow :
  tree_inv h fo hist → full v →
  match ar_result (runtime_augment h v flow fo) with
  | Ok _ => tree_inv h (ar_forest (runtime_augment h v flow fo)) ((v, flow) :: hist)
  | Throw e => e = PriorityExceeded ∧ tree_inv h (ar_forest (runtime_augment h v flow fo)) hist
  end.
Proof.
  intros Hi Hv. destruct (run_tracer_full h v (whole_wf h Hh) Hv) as [t Et].
  pose proof Hi as (T & HT & _ & _ & _ & Hl). destruct (Hl v t Hv Et) as [Hfit _].
  assert (HTr : trees fo !! root = Some T) by (by rewrite HT, lookup_singleton_eq).
  unfold runtime_augment. rewrite Et.
  pose proof (replay_safe (tr_values t) _ T [] T ∅ (tracer_start_at fo 1 65535 T HTr) Hfit minv_start
    (run_tracer_whole h v t Hh Et)) as Hs.
  destruct (replay _ _) as [t' [e|]] eqn:Er; cbn [ar_result ar_forest].
  - destruct Hs as (-> & l1 & l2 & El & E1).
    split; [done |]. by eapply (tree_inv_partial fo hist v t l1 l2).
  - destruct Hs as (T' & a' & n' & Hat & Hn). pose proof (finish_safe t' T' a' n' flow Hat Hn) as Hf.
    destruct (impl_finish t' flow) as [[t2 i]|e] eqn:Ef; cbn [ar_result ar_forest].
    + by eapply tree_inv_finish.
    + split; [apply Hf |]. eapply (tree_inv_partial fo hist v t (tr_values t) []); try done. by rewrite app_nil_r.
Qed.

Lemma reach_inv `{FlowOps} fo hist : reach h fo hist → tree_inv h fo hist.
Proof.
  induction 1 as [id | fo hist v flow r _ IH Hv Er | fo hist v flow e _ IH Hv Er].
  - apply tree_inv_start.
  - pose proof (tree_inv_step fo hist v flow IH Hv) as Hs. by rewrite Er in Hs.
  - pose proof (tree_inv_step fo hist v flow IH Hv) as Hs. rewrite Er in Hs. apply Hs.
Qed.
End Steps.

(** ** Lookups *)

(** A weak pointer that is dead is as good as none. *)
Definition living (alive : flow_ptr → bool) (o : option flow_ptr) : option flow_ptr :=
  f ← o; if alive f then Some f else None.

Lemma lookup_fits alive fo v l : full v → Forall (node_sat v) l → Forall node_wf l →
  ∀ T n, mfits T l → (length l < n)%nat →
  lookup_node alive fo n T v = Ret (living alive (mlookup T l), v).
Proof.
  intros Hv. induction l as [|nd l IH]; intros Hs Hw T n Hfit Hn; (destruct n as [|n]; [cbn in Hn; lia |]).
  - destruct Hfit as [-> | (f & prio & ->)]; [done |]. cbn. by destruct (alive f).
  - apply Forall_cons_1 in Hs as [Hs1 Hs], Hw as [Hw1 Hw]. cbn [length] in Hn.
    destruct nd as [f | f b]; cbn [mfits node_sat] in *.
    + destruct Hfit as [-> | (cases & -> & Hfit)]; [done |].
      cbn [lookup_node mlookup]. rewrite mask_eqb_refl, vload_full by (done || by apply mask_of_wf).
      cbn [lift mbind comp_bind]. cbn in Hs1. unfold satb in Hs1. apply N.eqb_eq in Hs1.
      cbn [loadv f_val mask_of m_val m_type]. rewrite Hs1.
      destruct (assoc cases (f_val f)) as [c|]; [| done]. cbn [mbind option_bind default] in *.
      apply IH; [done | done | done | lia].
    + destruct Hfit as [-> | (pos & neg & id & prio & -> & Hfit)]; [done |].
      cbn [lookup_node mlookup]. rewrite field_eqb_refl, vtest by done. cbn [lift mbind comp_bind].
      cbn in Hs1. rewrite Hs1. apply IH; [done | done | done | lia].
Qed.

Lemma reach_lookup `{FlowOps} h alive fo hist v :
  handler_whole h → reach h fo hist → full v →
  converges (λ n, tree_lookup alive n fo v) (living alive (recent h hist v), v).
Proof.
  intros Hh Hr Hv. destruct (reach_inv h Hh fo hist Hr) as (T & HT & _ & _ & _ & Hl).
  destruct (run_tracer_full h v (whole_wf h Hh) Hv) as [t Et]. destruct (Hl v t Hv Et) as [Hfit Hlk].
  destruct (run_tracer_spec h v t (whole_wf h Hh) Et) as (_ & _ & _ & _ & _ & _ & _ & Hs & _).
  exists (S (length (tr_values t))). intros n Hn. unfold tree_lookup. rewrite HT, lookup_singleton_eq.
  rewrite <- Hlk. apply (lookup_fits alive _ v (tr_values t)); [done | done | | done | lia].
  by eapply run_tracer_nodes_wf, Et; apply whole_wf.
Qed.

(** ** Room for priorities *)

(** Between 1 and 65535 there is room for [k] more tests and a flow. *)
Definition room (k : nat) (L R : N) : Prop := (L + 2 ^ (N.of_nat k + 1) ≤ R ∧ R < 2 ^ 16)%N.

Definition tests (l : list trace_node) : nat :=
  length (List.filter (λ n, match n with TTest _ _ => true | TLoad _ => false end) l).

Lemma room_middle k L R :
  room k L R → let m := u16 ((L + R) / 2) in
  (L < m < R)%N ∧ (∀ j, k = S j → room j L m ∧ room j m R).
Proof.
  unfold room, u16. intros [H1 H2]. pose proof (N.div_mod (L + R) 2 ltac:(lia)) as Hd.
  pose proof (N.mod_lt (L + R) 2 ltac:(lia)) as Hl.
  revert Hd Hl. generalize ((L + R) / 2)%N as m, ((L + R) mod 2)%N as r. intros m r Hd Hl.
  change (2 ^ 16)%N with 65536%N in *. rewrite N.mod_small by lia.
  assert (Hp : (2 ≤ 2 ^ (N.of_nat k + 1))%N) by (rewrite N.add_1_r, N.pow_succ_r'; pose proof (N.pow_nonzero 2 (N.of_nat k) ltac:(done)); lia).
  split; [lia |]. intros j ->. rewrite Nat2N.inj_succ in H1.
  replace (N.succ (N.of_nat j) + 1)%N with (N.succ (N.of_nat j + 1)) in H1 by lia.
  rewrite N.pow_succ_r' in H1. lia.
Qed.

Lemma room_free t k : room k (left_prio t) (right_prio t) → prio_free t (middle_prio t) = true.
Proof.
  intros H. destruct (room_middle k _ _ H) as [Hm _]. unfold prio_free, middle_prio.
  apply andb_true_iff. by rewrite !N.ltb_lt.
Qed.

Lemma descend_room n nd l L R L1 R1 c1 :
  mfits n (nd :: l) → prio_mid L R n → room (tests (nd :: l)) L R →
  (L1, R1, c1) = descend L R n nd → prio_mid L1 R1 c1 ∧ room (tests l) L1 R1.
Proof.
  intros Hfit Hp Hr Hd. destruct nd as [f | f b].
  - destruct Hfit as [-> | (cases & -> & _)]; cbn [descend] in Hd; injection Hd as -> -> ->; [done |].
    split; [| done]. destruct (assoc cases (f_val f)) as [c|] eqn:Ec; [| done].
    apply prios_load in Hp. by eapply (cases_all_assoc (λ _, prio_mid L R)).
  - destruct (room_middle _ _ _ Hr) as [_ Hj]. destruct (Hj _ eq_refl) as [H1 H2].
    destruct Hfit as [-> | (pos & neg & id & prio & -> & _)]; cbn [descend] in Hd; injection Hd as -> -> ->.
    + by destruct b.
    + destruct Hp as (-> & Hpos & Hneg). by destruct b.
Qed.

Lemma replay_room l : ∀ t T a n used,
  at_node t T a n → mfits n l → minv used (ti_match t) → trace_whole used l →
  prio_mid (left_prio t) (right_prio t) n → room (tests l) (left_prio t) (right_prio t) →
  ∃ t', replay l t = (t', None) ∧ room 0 (left_prio t') (right_prio t').
Proof.
  induction l as [|nd l IH]; intros t T a n used Hat Hfit Hm Hw Hp Hr; cbn [replay]; [by exists t |].
  pose proof (report_safe t T a n nd l used Hat Hfit Hm Hw) as Hs.
  destruct (report t nd) as [t1|e] eqn:Er.
  - destruct (report_step t t1 T a n nd Hat Er) as (s & n1 & c1 & Hat1 & _ & _ & Hf1 & Hd & _).
    destruct (trace_whole_cons _ _ _ Hw) as (_ & _ & Hw1).
    destruct (descend_room n nd l _ _ _ _ c1 Hfit Hp Hr Hd) as [Hp1 Hr1].
    by apply (IH t1 _ _ c1 _ Hat1 (Hf1 l Hfit) Hs Hw1).
  - destruct Hs as [_ Hs]. by rewrite (room_free t _ Hr) in Hs.
Qed.

Lemma room_start k : (k ≤ 14)%nat → room k 1 65535.
Proof.
  intros H. split; [| done]. etrans; [apply N.add_le_mono_l, (N.pow_le_mono_r 2 _ 15); lia | done].
Qed.

Lemma augment_room `{FlowOps} (h : handler) (T : mnode) (fo : forest) (v : vpacket) (flow : flow_ptr) (t : trace) :
  handler_whole h → trees fo !! root = Some T → mfits T (tr_values t) → prio_mid 1 65535 T →
  run_tracer h v = Ok t → (tests (tr_values t) ≤ 14)%nat →
  ∃ x, ar_result (runtime_augment h v flow fo) = Ok x.
Proof.
  intros Hh HT Hfit Hp Et Hk. unfold runtime_augment. rewrite Et.
  pose proof (tracer_start_at fo 1 65535 T HT) as Hat. pose proof (run_tracer_whole h v t Hh Et) as Hw.
  destruct (replay_room _ _ T [] T ∅ Hat Hfit minv_start Hw Hp (room_start _ Hk)) as (t' & Er & Hr).
  pose proof (replay_safe _ _ T [] T ∅ Hat Hfit minv_start Hw) as Hs. rewrite Er in *.
  destruct Hs as (T' & a' & n' & Hat' & Hn). pose proof (finish_safe t' T' a' n' flow Hat' Hn) as Hf.
  destruct (impl_finish t' flow) as [[t2 i]|e]; [by eexists |].
  destruct Hf as [_ Hf]. by rewrite (room_free t' _ Hr) in Hf.
Qed.

(** ** Properties *)


(** Asks in order whether the port is one of the list, and returns at the
    first yes. *)
Definition asks (ports : list N) : handler :=
  fold_right (λ i h, HTest (Field in_port i 0xffffffff) (λ b, if b : bool then HReturn Id else h))
             (HReturn Id) ports.

Lemma asks_whole ports : forallb (λ i, N.land i (N.ones 32) =? i)%N ports = true → handler_whole (asks ports).
Proof.
  induction ports as [|i ports IH]; cbn [asks fold_right forallb handler_whole]; [done |].
  intros [Hi Hp]%andb_true_iff. split; [apply rfield_exact_test; exact Hi |].
  intros []; [done | by apply IH].
Qed.

#[export] Instance no_virtual_fields : FlowOps := {| virtual_fields := λ _ _ _, [] |}.

Definition port_packet (p : N) : vpacket := with_values [(in_port, p)].

(** Ports 1 and 5 have come in, with flows 7 and 8. *)
Definition sample_history : list (vpacket * flow_ptr) := [(port_packet 5, 8%N); (port_packet 1, 7%N)].
Definition sample_forest : forest :=
  ar_forest (runtime_augment (asks [1%N; 2%N]) (port_packet 5) 8
    (ar_forest (runtime_augment (asks [1%N; 2%N]) (port_packet 1) 7 (fresh_forest 1)))).

Lemma sample_reach : reach (asks [1%N; 2%N]) sample_forest sample_history.
Proof.
  assert (H : ∀ v flow fo hist, reach (asks [1%N; 2%N]) fo hist → full v →
    match ar_result (runtime_augment (asks [1%N; 2%N]) v flow fo) with Ok _ => True | Throw _ => False end →
    reach (asks [1%N; 2%N]) (ar_forest (runtime_augment (asks [1%N; 2%N]) v flow fo)) ((v, flow) :: hist)).
  { intros v flow fo hist Hr Hv Hok. destruct (ar_result _) as [r|] eqn:Er; [| done]. by eapply reach_augmented. }
  unfold sample_forest. do 2 (apply H; [| by apply full_with_values | by vm_compute]). apply reach_start.
Qed.


(** C7: a packet-in does what it should or says why not.  In a reachable
    tree, augmenting by a full packet either succeeds: then lookups give the
    new flow to every packet with the same trace and what they gave before to
    the others; or it throws [priority_exceeded]: then lookups give what they
    gave before, however much of the trace is in the tree by then.  It
    throws only if the trace has more than 14 tests. *)
Theorem augment_correct `{FlowOps} (h : handler) (fo : forest) (hist : list (vpacket * flow_ptr))
    (v : vpacket) (flow : flow_ptr) (t : trace) :
  handler_whole h → reach h fo hist → full v → run_tracer h v = Ok t →
  let r := runtime_augment h v flow fo in
  ∃ hist',
    match ar_result r with
    | Ok (pol, _) => pol = tr_result t ∧ hist' = (v, flow) :: hist
    | Throw e => e = PriorityExceeded ∧ (14 < tests (tr_values t))%nat ∧ hist' = hist
    end ∧
    ∀ alive w, full w →
      converges (λ n, tree_lookup alive n (ar_forest r) w) (living alive (recent h hist' w), w).
Proof.
  intros Hh Hr Hv Et r. pose proof (reach_inv h Hh fo hist Hr) as (T & HT & _ & _ & Hmid & Hl).
  destruct (ar_result r) as [[pol i]|e] eqn:Ea.
  - exists ((v, flow) :: hist). split; [split; [| done] |].
    + subst r. unfold runtime_augment in Ea. rewrite Et in Ea. destruct (replay _ _) as [t' [e|]]; [done |].
      destruct (impl_finish t' flow) as [[]|]; [| done]. by injection Ea as <- _.
    + intros alive w Hw. apply reach_lookup; [done | by eapply reach_augmented | done].
  - exists hist. split; [| intros alive w Hw; apply reach_lookup; [done | by eapply reach_failed | done]].
    pose proof (tree_inv_step h Hh fo hist v flow (reach_inv h Hh fo hist Hr) Hv) as Hs. fold r in Hs.
    rewrite Ea in Hs. split_and!; [apply Hs | | done]. destruct (decide (14 < tests (tr_values t))%nat) as [|Hk]; [done |].
    exfalso. apply Nat.nlt_ge in Hk. assert (HTr : trees fo !! root = Some T) by (by rewrite HT, lookup_singleton_eq).
    destruct (augment_room h T fo v flow t Hh HTr (proj1 (Hl v t Hv Et)) Hmid Et Hk) as [x Ex].
    subst r. by rewrite Ex in Ea.
Qed.

Lemma augment_correct_witness :
  ∃ hist', recent (asks [1%N; 2%N]) hist' (port_packet 6) = Some 9%N ∧
    ∀ alive w, full w → converges (λ n, tree_lookup alive n
      (ar_forest (runtime_augment (asks [1%N; 2%N]) (port_packet 6) 9 sample_forest)) w)
      (living alive (recent (asks [1%N; 2%N]) hist' w), w).
Proof.
  destruct (run_tracer_full (asks [1%N; 2%N]) (port_packet 6)) as [t Et];
    [by apply whole_wf, asks_whole; vm_compute | apply full_with_values |].
  destruct (augment_correct (asks [1%N; 2%N]) sample_forest sample_history (port_packet 6) 9 t)
    as (hist' & Hr & Hl); [by apply asks_whole; vm_compute | apply sample_reach | apply full_with_values | done |].
  exists hist'. split; [| done].
  destruct (ar_result _) as [[pol i]|e] eqn:Ea; [destruct Hr as [_ ->]; by vm_compute | by vm_compute in Ea].
Defined.

(** the bound is exact.  Fourteen tests in a row leave room for a flow,
    the fifteenth does not: the run throws [priority_exceeded], its tests stay
    in the tree, and the packet is not found there. *)
Theorem fifteen_tests_exceed :
  let ports := map N.of_nat (seq 1 15) in
  let run ports := runtime_augment (asks ports) (port_packet 99) 7 (fresh_forest 1) in
  let found r := match tree_lookup (λ _, true) 20 (ar_forest r) (port_packet 99) with
                 | Ret (o, _) => o
                 | _ => None
                 end in
  (∃ x, ar_result (run (take 14 ports)) = Ok x) ∧ found (run (take 14 ports)) = Some 7%N ∧
  ar_result (run ports) = Throw PriorityExceeded ∧ found (run ports) = None ∧
  length (ar_calls (run ports)) = 15%nat.
Proof.
  cbv zeta. split_and!; try by vm_compute.
  assert (H : match ar_result (runtime_augment (asks (take 14 (map N.of_nat (seq 1 15)))) (port_packet 99) 7
    (fresh_forest 1)) with Ok _ => True | Throw _ => False end) by by vm_compute.
  destruct (ar_result _) as [x|]; [by exists x | done].
Qed.
