(* ===== verification/MapleUpdate.v ===== *)
(** * MapleUpdate: new priorities for the whole tree,
    [PriorityUpdater] of maple/TraceTree.cc

    [DepthCounter] measures the two sides of every test, [PriorityAssigner]
    spreads the priorities by these measures, computing with doubles: here
    SpecFloat's binary64, its operations executable.  Shared nodes are assigned
    in the forest.  The updated tree looks packets up as before
    ([update_keeps_lookups]); the table is another matter
    ([update_without_commit]). *)

From Stdlib Require Import SpecFloat.
From S2P Require Import Prelude Bits Oxm FieldSet Packet Policy Valuation Fdd FddCompiler FddCorrect.
From S2P Require Import FddTranslator Tracer TraceTree LeafTraces FullFieldSet MapleTree MapleRuntime MapleCorrect.
From S2P Require Import MapleTable MapleRun.

(** ** Doubles *)

Abbreviation double := spec_float.

(** A value of an unsigned type as a double. *)
Definition to_double (n : N) : double := binary_normalize 53 1024 (Z.of_N n) 0 false.

Definition u32 (n : N) : N := (n mod 2 ^ 32)%N.

(** [(from * m + to * k) / (m + k)], the last sum being of unsigned ints. *)
Definition average (from to : double) (k m : N) : double :=
  SFdiv 53 1024
    (SFadd 53 1024 (SFmul 53 1024 from (to_double m)) (SFmul 53 1024 to (to_double k)))
    (to_double (u32 (m + k))).

(** [std::round] to the nearest integer, half away from zero, as a uint16_t;
    what does not convert counts as zero. *)
Definition round_u16 (d : double) : N :=
  match d with
  | S754_finite false m e =>
      u16 (Z.to_N (if (0 <=? e)%Z then Zpos m * 2 ^ e
                   else (Zpos m + 2 ^ (- e - 1)) / 2 ^ (- e))%Z)
  | _ => 0%N
  end.

(** ** The depth of the tests *)

Abbreviation depth := (gmap N (N * N)).

Section CountCases.
Context {A : Type} (visit : A → depth → comp (N * depth)).
Fixpoint count_cases (cases : list (N * A)) (max_d : N) (d : depth) : comp (N * depth) :=
  match cases with
  | [] => Ret (max_d, d)
  | (_, a) :: cases => '(k, d') ← visit a d; count_cases cases (N.max k max_d) d'
  end.
End CountCases.

Section Count.
Context (fo : gmap loc mnode).

(** [DepthCounter]; [emplace] keeps an entry that is there. *)
Fixpoint count (fuel : nat) (n : mnode) (d : depth) : comp (N * depth) :=
  match fuel with
  | O => NoFuel
  | S fuel =>
      match n with
      | MUnexplored | MFlow _ _ => Ret (1%N, d)
      | MTest _ positive negative id _ =>
          '(pos, d1) ← count fuel positive d;
          '(neg, d2) ← count fuel negative d1;
          Ret (u32 (pos + neg + 1),
               match d2 !! id with Some _ => d2 | None => <[id := (pos, neg)]> d2 end)
      | MLoad _ cases => count_cases (count fuel) cases 0 d
      | MVload _ cases =>
          count_cases (λ l d, match fo !! l with Some c => count fuel c d | None => Raise Terminate end)
                      cases 0 d
      end
  end.
End Count.

(** ** The new priorities *)

Section AssignCases.
Context {A : Type} (visit : A → gmap loc mnode → comp (A * gmap loc mnode)).
Fixpoint assign_cases (cases : list (N * A)) (fo : gmap loc mnode)
  : comp (list (N * A) * gmap loc mnode) :=
  match cases with
  | [] => Ret ([], fo)
  | (v, a) :: cases =>
      '(a', fo1) ← visit a fo;
      '(cases', fo2) ← assign_cases cases fo1;
      Ret ((v, a') :: cases', fo2)
  end.
End AssignCases.

(** [PriorityAssigner]: the node after it, and the shared nodes. *)
Fixpoint assign (fuel : nat) (d : depth) (from to : double) (n : mnode) (fo : gmap loc mnode)
  : comp (mnode * gmap loc mnode) :=
  match fuel with
  | O => NoFuel
  | S fuel =>
      match n with
      | MUnexplored => Ret (MUnexplored, fo)
      | MLoad m cases =>
          '(cases', fo') ← assign_cases (assign fuel d from to) cases fo; Ret (MLoad m cases', fo')
      | MVload m cases =>
          '(cases', fo') ← assign_cases (λ l fo,
              match fo !! l with
              | Some c => '(c', fo') ← assign fuel d from to c fo; Ret (l, <[l := c']> fo')
              | None => Raise Terminate
              end) cases fo;
          Ret (MVload m cases', fo')
      | MTest need positive negative id _ =>
          match d !! id with
          | None => Raise StdOutOfRange
          | Some (pos, neg) =>
              let this_prio := average from to neg pos in
              '(negative', fo1) ← assign fuel d from this_prio negative fo;
              '(positive', fo2) ← assign fuel d this_prio to positive fo1;
              Ret (MTest need positive' negative' id (round_u16 this_prio), fo2)
          end
      | MFlow f _ => Ret (MFlow f (round_u16 (average from to 1 1)), fo)
      end
  end.

(** [TraceTree::update] *)
Definition update (fuel : nat) (left_prio right_prio : N) (fo : forest) : comp forest :=
  match trees fo !! root with
  | Some t =>
      '(_, d) ← count (trees fo) fuel t ∅;
      '(t', trees') ← assign fuel d (to_double left_prio) (to_double right_prio) t (trees fo);
      Ret (Forest (<[root := t']> trees') (next_tree fo) (next_id fo))
  | None => Raise Terminate
  end.

(** ** Nothing but priorities changes *)

Fixpoint unprio (n : mnode) : mnode :=
  match n with
  | MUnexplored | MVload _ _ => n
  | MFlow f _ => MFlow f 0
  | MTest need pos neg id _ => MTest need (unprio pos) (unprio neg) id 0
  | MLoad m cases => MLoad m (map (λ c, (fst c, unprio (snd c))) cases)
  end.

Lemma assoc_map {A B} (f : A → B) (cases : list (N * A)) v :
  assoc (map (λ c, (fst c, f (snd c))) cases) v = f <$> assoc cases v.
Proof.
  induction cases as [|[w a] cases IH]; cbn [map assoc fst snd]; [done |]. by destruct (w =? v)%N.
Qed.

Lemma lookup_unprio {P} `{PacketOps P} alive fo n : ∀ t (p : P),
  lookup_node alive (unprio <$> fo) n (unprio t) p = lookup_node alive fo n t p.
Proof.
  induction n as [|n IH]; intros t p; cbn [lookup_node]; [done |].
  destruct t as [| f prio | m cases | need pos neg id prio | m cases]; cbn [unprio]; try done.
  - destruct (lift (pkt_load p m)) as [[f p']| |]; cbn [mbind comp_bind]; try done.
    destruct (assoc cases (f_val f)) as [l|]; [| done]. rewrite lookup_fmap.
    destruct (fo !! l); cbn [fmap option_fmap option_map]; [apply IH | done].
  - destruct (lift (pkt_test p need)) as [[b p']| |]; cbn [mbind comp_bind]; try done.
    destruct b; apply IH.
  - destruct (lift (pkt_load p m)) as [[f p']| |]; cbn [mbind comp_bind]; try done.
    rewrite assoc_map. destruct (assoc cases (f_val f)); cbn [fmap option_fmap option_map]; [apply IH | done].
Qed.

Lemma assign_cases_shape {A} (visit : A → gmap loc mnode → comp (A * gmap loc mnode)) (shape : A → A) cases :
  (∀ a fo a' fo', visit a fo = Ret (a', fo') → shape a' = shape a ∧ unprio <$> fo' = unprio <$> fo) →
  ∀ fo cases' fo', assign_cases visit cases fo = Ret (cases', fo') →
    map (λ c, (fst c, shape (snd c))) cases' = map (λ c, (fst c, shape (snd c))) cases ∧
    unprio <$> fo' = unprio <$> fo.
Proof.
  intros Hv. induction cases as [|[v a] cases IH]; intros fo cases' fo' E; cbn [assign_cases] in E.
  - by injection E as <- <-.
  - apply comp_bind_Ret in E as ([a' fo1] & E1 & E). apply comp_bind_Ret in E as ([cs fo2] & E2 & E).
    injection E as <- <-. destruct (Hv _ _ _ _ E1) as [Ea Ef]. destruct (IH _ _ _ E2) as [Ec Ef2].
    cbn [map fst snd]. rewrite Ea, Ec, Ef2. done.
Qed.

Lemma assign_shape n d : ∀ from to t fo t' fo',
  assign n d from to t fo = Ret (t', fo') → unprio t' = unprio t ∧ unprio <$> fo' = unprio <$> fo.
Proof.
  induction n as [|n IH]; intros from to t fo t' fo' E; cbn [assign] in E; [done |].
  destruct t as [| f prio | m cases | need pos neg id prio | m cases].
  - by injection E as <- <-.
  - by injection E as <- <-.
  - apply comp_bind_Ret in E as ([cs fo1] & E & E'). injection E' as <- <-.
    apply (assign_cases_shape _ (λ l, l)) in E as [Ec Ef].
    + split; [| done]. assert (Hid : ∀ l : list (N * loc), map (λ c, (c.1, c.2)) l = l).
      { intros l. induction l as [|[] l IHl]; cbn; congruence. }
      rewrite !Hid in Ec. by rewrite Ec.
    + intros l fo0 l' fo2 El. destruct (fo0 !! l) as [c|] eqn:Ec; [| done].
      apply comp_bind_Ret in El as ([c' fo3] & El & E'). injection E' as <- <-.
      destruct (IH _ _ _ _ _ _ El) as [Eu Ef]. split; [done |].
      rewrite fmap_insert, Ef, Eu. apply insert_id. by rewrite lookup_fmap, Ec.
  - destruct (d !! id) as [[dp dn]|]; [| done].
    apply comp_bind_Ret in E as ([neg' fo1] & E1 & E). apply comp_bind_Ret in E as ([pos' fo2] & E2 & E).
    injection E as <- <-. destruct (IH _ _ _ _ _ _ E1) as [En Ef1]. destruct (IH _ _ _ _ _ _ E2) as [Ep Ef2].
    cbn [unprio]. by rewrite En, Ep, Ef2.
  - apply comp_bind_Ret in E as ([cs fo1] & E & E'). injection E' as <- <-.
    apply (assign_cases_shape _ unprio) in E as [Ec Ef]; [cbn [unprio]; by rewrite Ec |].
    intros a fo0 a' fo2. apply IH.
Qed.

Lemma update_shape n L R fo fo' :
  update n L R fo = Ret fo' → unprio <$> trees fo' = unprio <$> trees fo.
Proof.
  unfold update. destruct (trees fo !! root) as [t|] eqn:Et; [| done]. intros E.
  apply comp_bind_Ret in E as ([k d] & _ & E). apply comp_bind_Ret in E as ([t' trees'] & E & E').
  injection E' as <-. destruct (assign_shape _ _ _ _ _ _ _ _ E) as [Eu Ef]. cbn [trees].
  rewrite fmap_insert, Ef, Eu. apply insert_id. by rewrite lookup_fmap, Et.
Qed.

Lemma shape_lookup {P} `{PacketOps P} alive n fo fo' (p : P) :
  unprio <$> trees fo' = unprio <$> trees fo → tree_lookup alive n fo' p = tree_lookup alive n fo p.
Proof.
  intros E. unfold tree_lookup.
  assert (Er : unprio <$> trees fo' !! root = unprio <$> trees fo !! root)
    by (by rewrite <- !lookup_fmap, E).
  destruct (trees fo' !! root) as [t'|], (trees fo !! root) as [t|]; try done.
  injection Er as Er. by rewrite <- lookup_unprio, Er, E, lookup_unprio.
Qed.

(** ** On trees without virtual loads it is total *)

(** Every test has been measured. *)
Fixpoint measured (d : depth) (t : mnode) : Prop :=
  match t with
  | MUnexplored | MFlow _ _ | MVload _ _ => True
  | MTest _ pos neg id _ => is_Some (d !! id) ∧ measured d pos ∧ measured d neg
  | MLoad _ cases =>
      (fix go (cases : list (N * mnode)) : Prop :=
         match cases with [] => True | (_, c) :: cases => measured d c ∧ go cases end) cases
  end.

Lemma measured_load d m cases : measured d (MLoad m cases) ↔ cases_all (λ _, measured d) cases.
Proof.
  unfold cases_all. cbn [measured]. induction cases as [|[v c] cases IH]; [by split; [intros _; apply Forall_nil |] |].
  rewrite IH. split; [intros [? ?]; by apply Forall_cons_2 | by intros [? ?]%Forall_cons_1].
Qed.

(** [d'] knows all that [d] knows. *)
Definition knows (d d' : depth) : Prop := ∀ id, is_Some (d !! id) → is_Some (d' !! id).

Lemma measured_more n : ∀ t d d', (mdepth t ≤ n)%nat → knows d d' → measured d t → measured d' t.
Proof.
  induction n as [|n IH]; intros t d d' Hn Hk Ht; [destruct t; cbn in Hn; lia |].
  destruct t as [| f prio | m cases | need pos neg id prio | m cases]; try done.
  - cbn [mdepth] in Hn. destruct Ht as (? & ? & ?). split_and!; [auto | eapply IH; [lia | done | done] ..].
  - apply mdepth_load in Hn. rewrite measured_load in *. unfold cases_all in *.
    rewrite Forall_elem in *. intros c Hc. eapply IH; [by apply Hn | done | by apply Ht].
Qed.

Lemma whole_cases used m cases :
  whole used (MLoad m cases) → cases_all (λ _ c, ∃ used', whole used' c) cases.
Proof.
  rewrite whole_load. intros (_ & _ & _ & _ & H). unfold cases_all in *.
  eapply Forall_impl; [| exact H]. intros c [_ Hc]. by eexists.
Qed.

Lemma count_whole fo n : ∀ t used d, (mdepth t ≤ n)%nat → whole used t →
  ∃ k d', count fo n t d = Ret (k, d') ∧ knows d d' ∧ measured d' t.
Proof.
  induction n as [|n IH]; intros t used d Hn Ht; [destruct t; cbn in Hn; lia |].
  destruct t as [| f prio | m cases | need pos neg id prio | m cases]; cbn [count]; try done.
  - exists 1%N, d. split; [done |]. split; [by intros i | done].
  - exists 1%N, d. split; [done |]. split; [by intros i | done].
  - cbn [mdepth] in Hn. destruct Ht as (_ & _ & Hpos & Hneg).
    destruct (IH pos _ d ltac:(lia) Hpos) as (kp & d1 & -> & K1 & M1). cbn [mbind comp_bind].
    destruct (IH neg _ d1 ltac:(lia) Hneg) as (kn & d2 & -> & K2 & M2). cbn [mbind comp_bind].
    eexists _, _. split; [done |].
    set (d3 := match d2 !! id with Some _ => d2 | None => _ end).
    assert (K3 : knows d2 d3 ∧ is_Some (d3 !! id)).
    { subst d3. destruct (d2 !! id) eqn:E; [split; [by intros i | by rewrite E] |]. split.
      - intros i Hi. apply lookup_insert_is_Some'. by right.
      - rewrite lookup_insert_eq. by eexists. }
    destruct K3 as [K3 Hid]. split; [intros i Hi; auto |]. split_and!; [done | |].
    + eapply measured_more; [done | | exact M1]. intros i Hi. auto.
    + by eapply measured_more.
  - apply mdepth_load in Hn. apply whole_cases in Ht. unfold cases_all in *.
    assert (H : ∀ max_d d, ∃ k d', count_cases (count fo n) cases max_d d = Ret (k, d') ∧ knows d d' ∧
      measured d' (MLoad m cases)).
    { induction cases as [|[v c] cases IHc]; intros max_d d0; cbn [count_cases];
        [exists max_d, d0; split; [done |]; split; [by intros i | done] |].
      apply Forall_cons_1 in Hn as [Hn1 Hn], Ht as [[used' Ht1] Ht].
      destruct (IH c used' d0 Hn1 Ht1) as (k1 & d1 & -> & K1 & M1). cbn [mbind comp_bind].
      destruct (IHc Hn Ht (N.max k1 max_d) d1) as (k2 & d2 & -> & K2 & M2).
      eexists _, _. split; [done |]. split; [intros i Hi; auto |]. split; [| exact M2].
      by eapply measured_more. }
    apply H.
Qed.

Lemma assign_whole d n : ∀ t used from to fo, (mdepth t ≤ n)%nat → whole used t → measured d t →
  ∃ t', assign n d from to t fo = Ret (t', fo).
Proof.
  induction n as [|n IH]; intros t used from to fo Hn Ht Hm; [destruct t; cbn in Hn; lia |].
  destruct t as [| f prio | m cases | need pos neg id prio | m cases]; cbn [assign]; try done; try (by eexists).
  - cbn [mdepth] in Hn. destruct Ht as (_ & _ & Hpos & Hneg). destruct Hm as ([[dp dn] ->] & Mp & Mn).
    destruct (IH neg _ from (average from to dn dp) fo ltac:(lia) Hneg Mn) as [neg' ->]. cbn [mbind comp_bind].
    destruct (IH pos _ (average from to dn dp) to fo ltac:(lia) Hpos Mp) as [pos' ->]. by eexists.
  - apply mdepth_load in Hn. apply whole_cases in Ht. apply measured_load in Hm. unfold cases_all in *.
    assert (H : ∃ cases', assign_cases (assign n d from to) cases fo = Ret (cases', fo)).
    { induction cases as [|[v c] cases IHc]; cbn [assign_cases]; [by eexists |].
      apply Forall_cons_1 in Hn as [Hn1 Hn], Ht as [[used' Ht1] Ht], Hm as [Hm1 Hm].
      destruct (IH c used' from to fo Hn1 Ht1 Hm1) as [c' ->]. cbn [mbind comp_bind].
      destruct (IHc Hn Ht Hm) as [cs ->]. by eexists. }
    destruct H as [cs ->]. by eexists.
Qed.

Lemma update_whole fo t L R n :
  trees fo !! root = Some t → whole ∅ t → (mdepth t ≤ n)%nat → ∃ fo', update n L R fo = Ret fo'.
Proof.
  intros Ht Hw Hn. unfold update. rewrite Ht.
  destruct (count_whole (trees fo) n t ∅ ∅ Hn Hw) as (k & d & -> & _ & Hm). cbn [mbind comp_bind].
  destruct (assign_whole d n t ∅ (to_double L) (to_double R) (trees fo) Hn Hw Hm) as [t' ->]. by eexists.
Qed.

(** ** Properties *)

(** C39: updating the priorities is total and changes no lookup.  On every tree
    that a history of packet-ins leads to, and for any two limits, [update]
    with enough fuel ends without exception, and whatever the packet, the
    flows alive and the fuel, a lookup gives what it gave before. *)
Theorem update_keeps_lookups `{FlowOps} (h : handler) (fo : forest) hist (L R : N) :
  handler_whole h → reach h fo hist →
  ∃ n0 : nat, ∀ n, (n0 ≤ n)%nat → ∃ fo', update n L R fo = Ret fo' ∧
    ∀ (P : Type) (HP : PacketOps P) alive fuel (p : P),
      tree_lookup alive fuel fo' p = tree_lookup alive fuel fo p.
Proof.
  intros Hh Hr. destruct (reach_inv h Hh fo hist Hr) as (T & HT & Hw & _).
  assert (HTr : trees fo !! root = Some T) by (by rewrite HT, lookup_singleton_eq).
  exists (mdepth T). intros n Hn. destruct (update_whole fo T L R n HTr Hw Hn) as [fo' E].
  exists fo'. split; [done |]. intros P HP alive fuel p. by eapply shape_lookup, update_shape.
Qed.

Lemma update_keeps_lookups_witness :
  ∃ n fo', update n 1 65535 sample_forest = Ret fo' ∧
    match tree_lookup (λ _, true) 5 fo' (port_packet 1) with Ret (o, _) => o = Some 7%N | _ => False end.
Proof.
  destruct (update_keeps_lookups (asks [1%N; 2%N]) sample_forest sample_history 1 65535) as [n Hn];
    [by apply asks_whole; vm_compute | apply sample_reach |].
  destruct (Hn n (le_n n)) as (fo' & E & Hl). exists n, fo'. split; [done |]. rewrite Hl. by vm_compute.
Defined.

(** a table that is not committed again after [update] goes wrong.  The run
    of a policy that asks fifteen questions throws, is repeated after an
    [update] and its rule installed, as on a packet-in.  For a packet that
    answers the last question with yes the tree has nothing and a fresh
    [commit] a barrier rule; but the table as it stands, with barrier rules of
    the old priorities, takes it for the new flow. *)
Theorem update_without_commit :
  let h := asks (map N.of_nat (seq 1 15)) in
  let v := port_packet 99 in
  let r1 := runtime_augment h v 7 (fresh_forest 1) in
  ∃ fo r i c commits,
    ar_result r1 = Throw PriorityExceeded ∧ update 20 1 65535 (ar_forest r1) = Ret fo ∧
    runtime_augment h v 7 fo = r ∧ ar_result r = Ok i ∧
    run_installer (λ _, true) 20 (ar_forest r) (snd i) = Ret c ∧
    commit (λ _, true) 20 (ar_forest r) = Ret commits ∧
    let w := port_packet 15 in
    match tree_lookup (λ _, true) 20 (ar_forest r) w with Ret (o, _) => o = None | _ => False end ∧
    table_gives (rules commits) w None ∧
    table_gives (rules (ar_calls r1 ++ ar_calls r ++ c)) w (Some 7%N).
Proof.
  cbv zeta. eexists _, _, _, _, _. split_and!; [by vm_compute | by vm_compute | done | by vm_compute | ..].
  - by vm_compute.
  - by vm_compute.
  - by vm_compute.
  - apply (gives_at_table 1). by vm_compute.
  - apply (gives_at_table 15). by vm_compute.
Qed.
