(* ===== verification/Decision.v ===== *)
(** * Decision: what maple's handlers decide, Decision.hh and .cc

    A decision carries a base, shared by all kinds: whether the pipeline stops
    and the two timeouts of the rule.  The methods build a new decision from an
    old one and throw [decision_conflict] when it already decides otherwise.
    Handlers of inspected packets and custom decisions are functions and
    objects the applications supply; here they are parameters, custom ones
    compared by identity. *)

From S2P Require Import Prelude.

Section Decision.
Context {H C : Type}.

(** [std::chrono::duration<uint32_t>], in seconds. *)
Definition duration_max : N := 2 ^ 32 - 1.

Record base : Type := Base { return_ : bool; idle_timeout : N; hard_timeout : N }.

Definition default_base : base := Base false duration_max duration_max.

Inductive decision : Type :=
| Undefined (b : base)
| Drop (b : base)
| Unicast (b : base) (port : N)
| Multicast (b : base) (ports : gset N)
| Broadcast (b : base)
| Inspect (b : base) (send_bytes_len : N) (handler : H)
| Custom (b : base) (body : C).

Definition default_decision : decision := Undefined default_base.

Definition base_of (d : decision) : base :=
  match d with
  | Undefined b | Drop b | Unicast b _ | Multicast b _ | Broadcast b | Inspect b _ _ | Custom b _ => b
  end.

Definition with_base (d : decision) (b : base) : decision :=
  match d with
  | Undefined _ => Undefined b
  | Drop _ => Drop b
  | Unicast _ port => Unicast b port
  | Multicast _ ports => Multicast b ports
  | Broadcast _ => Broadcast b
  | Inspect _ len h => Inspect b len h
  | Custom _ c => Custom b c
  end.

(** ** The methods *)

Definition set_return (d : decision) : decision :=
  with_base d (Base true (idle_timeout (base_of d)) (hard_timeout (base_of d))).

Definition set_idle_timeout (d : decision) (seconds : N) : decision :=
  let b := base_of d in with_base d (Base (return_ b) (N.min seconds (idle_timeout b)) (hard_timeout b)).

Definition set_hard_timeout (d : decision) (seconds : N) : decision :=
  let b := base_of d in
  with_base d (Base (return_ b) (N.min seconds (idle_timeout b)) (N.min seconds (hard_timeout b))).

Definition unicast (d : decision) (port : N) : res decision :=
  _ ← require (match d with
               | Undefined _ => true
               | Unicast _ p => (p =? port)%N
               | _ => false
               end) DecisionConflict;
  Ok (Unicast (base_of d) port).

Definition multicast (d : decision) (ps : gset N) : res decision :=
  _ ← require (match d with
               | Undefined _ => true
               | Multicast _ ports => bool_decide (ports = ps)
               | _ => false
               end) DecisionConflict;
  Ok (Multicast (base_of d) ps).

Definition broadcast (d : decision) : res decision :=
  _ ← require (match d with Undefined _ | Broadcast _ => true | _ => false end) DecisionConflict;
  Ok (Broadcast (base_of d)).

Definition inspect (d : decision) (bytes : N) (handler : H) : res decision :=
  match d with
  | Undefined b => Ok (Inspect b bytes handler)
  | Inspect b len _ => Ok (Inspect b (N.max bytes len) handler)
  | _ => Throw DecisionConflict
  end.

Definition drop (d : decision) : decision := Drop (base_of d).

Definition custom (d : decision) (body : C) : res decision :=
  _ ← require (match d with Undefined _ | Custom _ _ => true | _ => false end) DecisionConflict;
  Ok (Custom (base_of d) body).

Definition clear (d : decision) : decision := default_decision.

(** ** Building a decision step by step *)

(** A call of a method. *)
Inductive step : Type :=
| SReturn
| SIdle (seconds : N)
| SHard (seconds : N)
| SUnicast (port : N)
| SMulticast (ps : gset N)
| SBroadcast
| SInspect (bytes : N) (handler : H)
| SDrop
| SCustom (body : C).

Definition run_step (s : step) (d : decision) : res decision :=
  match s with
  | SReturn => Ok (set_return d)
  | SIdle s => Ok (set_idle_timeout d s)
  | SHard s => Ok (set_hard_timeout d s)
  | SUnicast p => unicast d p
  | SMulticast ps => multicast d ps
  | SBroadcast => broadcast d
  | SInspect n h => inspect d n h
  | SDrop => Ok (drop d)
  | SCustom c => custom d c
  end.

Fixpoint run_steps (l : list step) (d : decision) : res decision :=
  match l with
  | [] => Ok d
  | s :: l => d' ← run_step s d; run_steps l d'
  end.

(** [d'] decides no less than [d], as far as the base goes. *)
Definition refines (d' d : decision) : Prop :=
  (return_ (base_of d) = true → return_ (base_of d') = true) ∧
  (idle_timeout (base_of d') ≤ idle_timeout (base_of d))%N ∧
  (hard_timeout (base_of d') ≤ hard_timeout (base_of d))%N.

#[export] Instance refines_preorder : PreOrder refines.
Proof.
  split.
  - intros d. by repeat split.
  - intros a b c (H1 & H2 & H3) (H4 & H5 & H6). repeat split; [auto | lia | lia].
Qed.

Definition timeouts_ok (d : decision) : Prop := (idle_timeout (base_of d) ≤ hard_timeout (base_of d))%N.

Lemma base_with_base d b : base_of (with_base d b) = b.
Proof. by destruct d. Qed.

Lemma same_base d d' : base_of d' = base_of d → refines d' d ∧ (timeouts_ok d → timeouts_ok d').
Proof. intros E. unfold refines, timeouts_ok. rewrite E. by repeat split. Qed.

Lemma run_step_refines s d d' : run_step s d = Ok d' → refines d' d ∧ (timeouts_ok d → timeouts_ok d').
Proof.
  destruct s; cbn [run_step]; intros E.
  1-3: injection E as <-; unfold refines, timeouts_ok, set_return, set_idle_timeout, set_hard_timeout;
    rewrite base_with_base; cbn; repeat split; (done || lia).
  all: apply same_base.
  - unfold unicast in E. by inv_res.
  - unfold multicast in E. by inv_res.
  - unfold broadcast in E. by inv_res.
  - destruct d; cbn in E; by inv_res.
  - by injection E as <-.
  - unfold custom in E. by inv_res.
Qed.

(** What is decided, without the base. *)
Definition verdict (d : decision) : decision := with_base d default_base.

Definition undecided (d : decision) : bool := match d with Undefined _ => true | _ => false end.

(** ** Properties *)

(** decisions only narrow.  However the methods are called one after the
    other, when none throws: a return stays, neither timeout is ever raised,
    and an idle timeout below the hard one stays below it. *)
Theorem decisions_narrow l d d' :
  timeouts_ok d → run_steps l d = Ok d' → refines d' d ∧ timeouts_ok d'.
Proof.
  revert d. induction l as [|s l IH]; intros d Hd E; cbn [run_steps] in E.
  - injection E as <-. by split.
  - inv_res. destruct (run_step_refines s d x) as [Hr Ht]; [done |].
    destruct (IH x) as [Hr' Ht']; [by apply Ht | done |]. split; [| done]. by etrans.
Qed.

Definition sample_steps : list step := [SIdle 60; SUnicast 3; SHard 20; SUnicast 3; SReturn].

(** a verdict is replaced only by [drop].  A method that does not throw
    leaves the verdict of a decided decision as it is, except that [drop] makes
    it a drop, a second [inspect] takes the new handler and the larger length,
    and a second [custom] the new body; a method that throws throws
    [decision_conflict], and only on a decision that is not undefined. *)
Theorem verdict_kept s d :
  undecided d = false →
  match run_step s d with
  | Ok d' => verdict d' = verdict d ∨ (s = SDrop ∧ verdict d' = Drop default_base) ∨
      (∃ n m h h', verdict d = Inspect default_base n h ∧ s = SInspect m h' ∧
         verdict d' = Inspect default_base (N.max m n) h') ∨
      (∃ c c', verdict d = Custom default_base c ∧ s = SCustom c' ∧ verdict d' = Custom default_base c')
  | Throw e => e = DecisionConflict
  end ∧ ∀ b, ∃ d', run_step s (Undefined b) = Ok d'.
Proof.
  intros Hd. split; [| intros b; destruct s; by eexists].
  destruct d as [b | b | b p | b ps | b | b n h | b c]; [done | ..];
    destruct s as [| | | p' | ps' | | n' h' | | c'];
    cbn; unfold unicast, multicast, broadcast, custom, require; cbn; try (by left); try (by right; left); try done.
  - destruct (p =? p')%N eqn:E; cbn; [| done]. apply N.eqb_eq in E as ->. by left.
  - case_bool_decide as E; cbn; [subst; by left | done].
  - right. right. left. by repeat eexists.
  - right. right. right. by repeat eexists.
Qed.
End Decision.
Arguments decision H C : clear implicits.
Arguments step H C : clear implicits.

Lemma decisions_narrow_witness :
  ∃ d : decision N N, run_steps sample_steps default_decision = Ok d ∧ refines d default_decision.
Proof.
  eexists (Unicast (Base true 20 20) 3). split; [by vm_compute |].
  apply (decisions_narrow sample_steps default_decision); [done | by vm_compute].
Defined.

Lemma verdict_kept_witness :
  run_step (SBroadcast : step N N) (Unicast default_base 3) = Throw DecisionConflict ∧
  ∃ d' : decision N N, run_step (SBroadcast : step N N) (Undefined default_base) = Ok d'.
Proof.
  destruct (verdict_kept (SBroadcast : step N N) (Unicast default_base 3) eq_refl) as [_ H].
  split; [done | apply H].
Defined.
