(* ===== verification/MapleFlow.v ===== *)
(** * MapleFlow: maple's flows, [FlowImpl] of Maple.cc, Flow.hh and .cc

    A flow holds a decision, the modifications of its packets, what it knows
    of the switches it is on, and a state.  Installing it under a match sends
    a flow-mod, or a packet-out, or both; a waiting packet, known by its
    buffer or held as data, goes out once ([released_once]).  The connection of
    a switch is its datapath id; what is sent is the list of messages. *)

From S2P Require Import Prelude Bits Oxm FieldSet Packet Policy Decision.

(** ** Messages (libfluid's, of what the code sets) *)

Definition no_buffer : N := 0xffffffff.
Definition port_controller : N := 0xfffffffd.
Definition port_flood : N := 0xfffffffb.

Inductive of_action : Type :=
| SetField (f : field)
| Output (port max_len : N)
| OtherAction (n : N).

Inductive msg : Type :=
| PacketOut (xid buffer_id : N) (acts : list of_action) (in_port : N) (data : option (list N))
| FlowAdd (xid buffer_id table_id prio cookie : N) (match_ : field_set) (idle_timeout hard_timeout : N)
          (acts : list of_action)
| FlowDelete (table_id cookie cookie_mask : N) (match_ : option field_set)
| FlowDeleteStrict (table_id cookie cookie_mask : N) (match_ : field_set) (prio : N)
| BarrierRequest.

(** ** Decisions of applications *)

(** [CustomDecision]: its actions on a switch, its switches (none: all), the
    ports of its virtual loads. *)
Record custom_body : Type := CustomBody {
  body_apply : N → list of_action;
  body_switches : list N;
  body_in_ports : list (N * N)
}.

Section Flow.
(** The handlers of inspected packets; their result says that the packet is
    done with. *)
Context {handler : Type}.

Abbreviation mdecision := (decision handler custom_body).

(** ** The flow *)

Inductive flow_state : Type := Egg | Active | Evicted | Idle | Expired.

Record switch_info : Type := SwitchInfo {
  waiting : bool;                (** [packet_in] *)
  buffer_id : N;
  in_port : N;
  xid : N;
  packet_data : option (list N)
}.

(** [SwitchInfo(conn)]; [xid] is not initialised there. *)
Definition new_switch_info (xid : N) : switch_info := SwitchInfo false no_buffer port_controller xid None.

Record flow : Type := Flow {
  m_state : flow_state;
  m_cookie : N;
  m_switches : gmap N switch_info;
  m_table : N;
  m_decision : mdecision;
  m_mods : field_set;
  installTrigger : bool
}.

(** [Flow::Flow] takes the next cookie. *)
Definition new_flow (table cookie : N) : flow :=
  Flow Egg cookie ∅ table default_decision ∅ false.

Definition with_switch (f : flow) (dpid : N) (s : switch_info) : flow :=
  Flow (m_state f) (m_cookie f) (<[dpid := s]> (m_switches f)) (m_table f) (m_decision f) (m_mods f)
       (installTrigger f).
Definition with_state (f : flow) (s : flow_state) : flow :=
  Flow s (m_cookie f) (m_switches f) (m_table f) (m_decision f) (m_mods f) (installTrigger f).
Definition set_decision (f : flow) (d : mdecision) : flow :=
  Flow (m_state f) (m_cookie f) (m_switches f) (m_table f) d (m_mods f) (installTrigger f).
Definition with_trigger (f : flow) (b : bool) : flow :=
  Flow (m_state f) (m_cookie f) (m_switches f) (m_table f) (m_decision f) (m_mods f) b.

(** [mods]: it asserts that the flow is not active. *)
Definition set_mods (f : flow) (mods : field_set) : res flow :=
  _ ← require (match m_state f with Active => false | _ => true end) AssertionFailure;
  Ok (Flow (m_state f) (m_cookie f) (m_switches f) (m_table f) (m_decision f) mods (installTrigger f)).

Definition disposable (f : flow) : bool := (idle_timeout (base_of (m_decision f)) <=? 0)%N.

(** ** Actions *)

Definition decision_actions (d : mdecision) (dpid : N) : res (list of_action) :=
  match d with
  | Undefined _ => Throw RuntimeError
  | Drop _ => Ok []
  | Unicast _ port => Ok [Output port 0]
  | Multicast _ ports => Ok (map (λ port, Output port 0) (base.elements ports))
  | Broadcast _ => Ok [Output port_flood 0]
  | Inspect _ send_bytes_len _ => Ok [Output port_controller send_bytes_len]
  | Custom _ body => Ok (body_apply body dpid)
  end.

Definition actions (f : flow) (dpid : N) : res (list of_action) :=
  l ← decision_actions (m_decision f) dpid;
  Ok (map SetField (elements (m_mods f)) ++ l).

(** ** Installing *)

Definition scope_of (f : flow) (dpid : N) : res switch_info :=
  match m_switches f !! dpid with Some s => Ok s | None => Throw StdOutOfRange end.

Definition packet_out (f : flow) (dpid : N) : res (flow * list msg) :=
  scope ← scope_of f dpid;
  if waiting scope then
    acts ← actions f dpid;
    let data := if (buffer_id scope =? no_buffer)%N then packet_data scope else None in
    Ok (with_switch f dpid (SwitchInfo (waiting scope) (buffer_id scope) (in_port scope) (xid scope) None),
        [PacketOut (xid scope) (buffer_id scope) acts (in_port scope) data])
  else Ok (f, []).

(** A timeout in seconds; zero is none. *)
Definition of_timeout (seconds : N) : N :=
  if (seconds =? duration_max)%N then 0%N else N.min seconds 65535.

Definition flow_mod (f : flow) (priority : N) (m : field_set) (dpid : N) : res (flow * list msg) :=
  scope ← scope_of f dpid;
  acts ← actions f dpid;
  Ok (f, [FlowAdd (xid scope) (buffer_id scope) (m_table f) priority (m_cookie f) m
            (of_timeout (idle_timeout (base_of (m_decision f))))
            (of_timeout (hard_timeout (base_of (m_decision f)))) acts]).

(** What is sent for a rule: a packet-out alone for a flow that does not last,
    else a flow-mod, after a packet-out where the switch has no buffer. *)
Definition send_flow (f : flow) (priority : N) (m : field_set) (dpid : N) : res (flow * list msg) :=
  scope ← scope_of f dpid;
  if disposable f then packet_out f dpid
  else
    '(f1, ms1) ← (if waiting scope && (buffer_id scope =? no_buffer)%N then packet_out f dpid
                  else Ok (f, []));
    '(f2, ms2) ← flow_mod f1 priority m dpid;
    Ok (f2, ms1 ++ ms2).

(** [install(priority, match, dpid)] *)
Definition install_on (f : flow) (priority : N) (m : field_set) (dpid : N) : res (flow * list msg) :=
  _ ← require (installTrigger f) AssertionFailure;
  scope ← scope_of f dpid;
  match m_state f, waiting scope with
  | Evicted, false => Ok (f, [])
  | _, _ =>
      '(f', ms) ← send_flow f priority m dpid;
      scope' ← scope_of f' dpid;
      Ok (with_switch f' dpid (SwitchInfo false no_buffer port_controller 0 (packet_data scope')), ms)
  end.

(** [m_switches.emplace(dpid, conn)] *)
Definition made_known (fresh : N) (f : flow) (dpid : N) : flow :=
  match m_switches f !! dpid with
  | Some _ => f
  | None => with_switch f dpid (new_switch_info fresh)
  end.

(** [install(priority, match, conn)]: the switch is made known first; [fresh]
    is what its uninitialised [xid] happens to be. *)
Definition install (fresh : N) (f : flow) (priority : N) (m : field_set) (dpid : N) : res (flow * list msg) :=
  install_on (made_known fresh f dpid) priority m dpid.

(** ** Transitions *)

Definition packet_in (f : flow) (dpid xid buffer_id in_port : N) (data : option (list N)) : flow :=
  with_switch f dpid (SwitchInfo true buffer_id in_port xid data).

Inductive removed_reason : Type :=
| RR_IDLE_TIMEOUT | RR_HARD_TIMEOUT | RR_DELETE | RR_GROUP_DELETE | RR_METER_DELETE.

Definition flow_removed (f : flow) (reason : removed_reason) : flow :=
  match reason with
  | RR_DELETE | RR_METER_DELETE => with_state f Evicted
  | RR_IDLE_TIMEOUT => with_state f Idle
  | RR_HARD_TIMEOUT => with_state f Expired
  | RR_GROUP_DELETE => f
  end.

(** The end of [activate], after the installer has run. *)
Definition activated (f : flow) : flow :=
  with_trigger (with_state f (if disposable f then Evicted else Active)) false.

Definition switches (f : flow) : list N :=
  match m_decision f with Custom _ body => body_switches body | _ => [] end.

Definition type_field (t : otype) (v w : N) (m : mask) : res field :=
  val ← type_eq_value t (Bits w v); value_and_mask val m.

(** [virtual_fields]: pairs of a switch and a port of it. *)
Definition virtual_fields (f : flow) (by_ what : mask) : res (list (field * field)) :=
  match m_decision f with
  | Custom _ body =>
      (fix go (l : list (N * N)) : res (list (field * field)) :=
         match l with
         | [] => Ok []
         | (sw, port) :: l =>
             a ← type_field (m_type by_) sw 64 by_;
             b ← type_field (m_type what) port 32 what;
             rest ← go l;
             Ok ((a, b) :: rest)
         end) (body_in_ports body)
  | _ => Ok []
  end.

(** ** What a sequence of installs sends *)

(** The rules of a flow on one switch, one after the other. *)
Fixpoint installs (fresh : N) (f : flow) (dpid : N) (l : list (N * field_set)) : res (flow * list msg) :=
  match l with
  | [] => Ok (f, [])
  | (prio, m) :: l =>
      '(f1, ms1) ← install fresh f prio m dpid;
      '(f2, ms2) ← installs fresh f1 dpid l;
      Ok (f2, ms1 ++ ms2)
  end.

(** The switch lets go of a packet. *)
Definition releases (m : msg) : bool :=
  match m with
  | PacketOut _ _ _ _ _ => true
  | FlowAdd _ buffer _ _ _ _ _ _ _ => negb (buffer =? no_buffer)%N
  | _ => false
  end.

Definition added (m : msg) : option (N * field_set) :=
  match m with FlowAdd _ _ _ prio _ m _ _ _ => Some (prio, m) | _ => None end.

(** What stays as it is while rules are installed. *)
Definition same_but_switches (f f' : flow) : Prop :=
  m_state f' = m_state f ∧ m_decision f' = m_decision f ∧ m_mods f' = m_mods f ∧
  installTrigger f' = installTrigger f ∧ m_table f' = m_table f ∧ m_cookie f' = m_cookie f.

(** A switch without a packet that waits. *)
Definition calm (s : switch_info) : Prop := waiting s = false ∧ buffer_id s = no_buffer.

Lemma same_actions f f' dpid : same_but_switches f f' → actions f' dpid = actions f dpid.
Proof. intros (_ & Hd & Hm & _). unfold actions. by rewrite Hd, Hm. Qed.

Definition evicted (f : flow) : bool := match m_state f with Evicted => true | _ => false end.

Lemma same_refl f : same_but_switches f f.
Proof. by repeat split. Qed.
Lemma same_with_switch f f' dpid s : same_but_switches f f' → same_but_switches f (with_switch f' dpid s).
Proof. done. Qed.

Lemma scope_known f dpid s : m_switches f !! dpid = Some s → scope_of f dpid = Ok s.
Proof. intros H. unfold scope_of. by rewrite H. Qed.

Lemma packet_out_waiting f dpid s acts :
  m_switches f !! dpid = Some s → waiting s = true → actions f dpid = Ok acts →
  ∃ s' data, packet_out f dpid
    = Ok (with_switch f dpid s', [PacketOut (xid s) (buffer_id s) acts (in_port s) data]) ∧
    buffer_id s' = buffer_id s.
Proof.
  intros Hs Hw Ha. unfold packet_out. rewrite (scope_known _ _ _ Hs). cbn [mbind res_bind].
  rewrite Hw, Ha. by eexists _, _.
Qed.

Lemma packet_out_calm f dpid s :
  m_switches f !! dpid = Some s → waiting s = false → packet_out f dpid = Ok (f, []).
Proof. intros Hs Hw. unfold packet_out. rewrite (scope_known _ _ _ Hs). cbn [mbind res_bind]. by rewrite Hw. Qed.

Lemma flow_mod_known f prio m dpid s acts :
  m_switches f !! dpid = Some s → actions f dpid = Ok acts →
  ∃ xid idle hard, flow_mod f prio m dpid
    = Ok (f, [FlowAdd xid (buffer_id s) (m_table f) prio (m_cookie f) m idle hard acts]).
Proof.
  intros Hs Ha. unfold flow_mod. rewrite (scope_known _ _ _ Hs). cbn [mbind res_bind]. rewrite Ha.
  by eexists _, _, _.
Qed.

Lemma send_flow_known f prio m dpid s acts :
  m_switches f !! dpid = Some s → actions f dpid = Ok acts → (waiting s = true ∨ calm s) →
  ∃ f' ms s', send_flow f prio m dpid = Ok (f', ms) ∧ same_but_switches f f' ∧
    m_switches f' !! dpid = Some s' ∧
    length (List.filter releases ms) = (if waiting s then 1 else 0)%nat ∧
    omap added ms = (if disposable f then [] else [(prio, m)]).
Proof.
  intros Hs Ha Hc. unfold send_flow. rewrite (scope_known _ _ _ Hs). cbn [mbind res_bind].
  destruct (waiting s) eqn:Ew.
  - destruct (packet_out_waiting f dpid s acts Hs Ew Ha) as (s' & data & Eo & Eb).
    assert (Hs' : m_switches (with_switch f dpid s') !! dpid = Some s') by apply lookup_insert_eq.
    destruct (disposable f); [rewrite Eo; by eexists _, _, _ |]. cbn [andb].
    destruct (buffer_id s =? no_buffer)%N eqn:En.
    + rewrite Eo. cbn [mbind res_bind].
      destruct (flow_mod_known (with_switch f dpid s') prio m dpid s' acts Hs') as (x & i & h & ->); [done |].
      eexists _, _, _. split_and!; [done | by repeat split | done | cbn; by rewrite Eb, En | done].
    + cbn [mbind res_bind]. destruct (flow_mod_known f prio m dpid s acts Hs Ha) as (x & i & h & ->).
      eexists _, _, _. split_and!; [done | by repeat split | done | cbn; by rewrite En | done].
  - destruct Hc as [Hc | [_ Hb]]; [done |].
    destruct (disposable f); [rewrite (packet_out_calm f dpid s) by done; by eexists _, _, _ |].
    cbn [andb mbind res_bind]. destruct (flow_mod_known f prio m dpid s acts Hs Ha) as (x & i & h & ->).
    eexists _, _, _. split_and!; [done | by repeat split | done | cbn; by rewrite Hb | done].
Qed.

(** Other switches are left alone. *)
Definition elsewhere (dpid : N) (f f' : flow) : Prop :=
  ∀ d, d ≠ dpid → m_switches f' !! d = m_switches f !! d.

Lemma elsewhere_with_switch dpid f f' s : elsewhere dpid f f' → elsewhere dpid f (with_switch f' dpid s).
Proof. intros H d Hd. cbn. rewrite lookup_insert_ne by done. by apply H. Qed.

Lemma elsewhere_refl dpid f : elsewhere dpid f f.
Proof. by intros d. Qed.

Lemma packet_out_elsewhere f dpid f' ms : packet_out f dpid = Ok (f', ms) → elsewhere dpid f f'.
Proof.
  unfold packet_out. intros E. apply res_bind_Ok in E as (s & _ & E). destruct (waiting s).
  - apply res_bind_Ok in E as (acts & _ & E). injection E as <- _. apply elsewhere_with_switch, elsewhere_refl.
  - injection E as <- _. apply elsewhere_refl.
Qed.

Lemma flow_mod_same f prio m dpid f' ms : flow_mod f prio m dpid = Ok (f', ms) → f' = f.
Proof.
  unfold flow_mod. intros E. apply res_bind_Ok in E as (s & _ & E). apply res_bind_Ok in E as (acts & _ & E).
  by injection E.
Qed.

Lemma send_flow_elsewhere f prio m dpid f' ms : send_flow f prio m dpid = Ok (f', ms) → elsewhere dpid f f'.
Proof.
  unfold send_flow. intros E. apply res_bind_Ok in E as (s & _ & E).
  destruct (disposable f); [by eapply packet_out_elsewhere |].
  apply res_bind_Ok in E as ([f1 ms1] & E1 & E). apply res_bind_Ok in E as ([f2 ms2] & E2 & E).
  injection E as <- _. apply flow_mod_same in E2 as ->.
  destruct (waiting s && _); [by eapply packet_out_elsewhere | injection E1 as <- _; apply elsewhere_refl].
Qed.

Lemma known_same fresh f dpid : same_but_switches f (made_known fresh f dpid).
Proof. unfold made_known. by destruct (m_switches f !! dpid). Qed.

(** What an install that does not throw has done. *)
Lemma install_Ok fresh f prio m dpid f' ms :
  install fresh f prio m dpid = Ok (f', ms) →
  let f0 := made_known fresh f dpid in
  f' = f0 ∧ ms = [] ∨
  ∃ f1 s1, send_flow f0 prio m dpid = Ok (f1, ms) ∧ f' = with_switch f1 dpid s1 ∧ calm s1.
Proof.
  unfold install. set (f0 := made_known _ _ _). unfold install_on. intros E.
  apply res_bind_Ok in E as (u & _ & E). apply res_bind_Ok in E as (s & _ & E).
  destruct (m_state f0), (waiting s); try (injection E as <- <-; by left);
    (right; apply res_bind_Ok in E as ([f1 ms1] & E1 & E); apply res_bind_Ok in E as (s' & _ & E);
     injection E as <- <-; by eexists _, _).
Qed.

Lemma install_elsewhere fresh f prio m dpid f' ms : install fresh f prio m dpid = Ok (f', ms) → elsewhere dpid f f'.
Proof.
  assert (H0 : elsewhere dpid f (made_known fresh f dpid)).
  { unfold made_known. destruct (m_switches f !! dpid); [| apply elsewhere_with_switch]; apply elsewhere_refl. }
  intros [[-> _] | (f1 & s1 & E & -> & _)]%install_Ok; [done |]. apply elsewhere_with_switch.
  apply send_flow_elsewhere in E. intros d Hd. rewrite E by done. by apply H0.
Qed.

Lemma installs_elsewhere fresh dpid l : ∀ f f' ms, installs fresh f dpid l = Ok (f', ms) → elsewhere dpid f f'.
Proof.
  induction l as [|[prio m] l IH]; intros f f' ms E; cbn [installs] in E.
  - injection E as <- _. apply elsewhere_refl.
  - apply res_bind_Ok in E as ([f1 ms1] & E1 & E). apply res_bind_Ok in E as ([f2 ms2] & E2 & E).
    injection E as <- _. apply install_elsewhere in E1. apply IH in E2. intros d Hd.
    rewrite E2 by done. by apply E1.
Qed.

(** One install on a known switch: the flow keeps all but its switches, and
    the switch is calm. *)
Lemma install_known fresh f prio m dpid s acts :
  installTrigger f = true → m_switches f !! dpid = Some s → actions f dpid = Ok acts →
  (waiting s = true ∨ calm s) →
  ∃ f' ms s', install fresh f prio m dpid = Ok (f', ms) ∧ same_but_switches f f' ∧
    m_switches f' !! dpid = Some s' ∧ calm s' ∧
    length (List.filter releases ms) = (if waiting s then 1 else 0)%nat ∧
    omap added ms = (if disposable f || (evicted f && negb (waiting s)) then [] else [(prio, m)]).
Proof.
  intros Ht Hs Ha Hc. unfold install, made_known, install_on. rewrite Hs. cbv zeta. rewrite Ht.
  rewrite (scope_known _ _ _ Hs). cbn [require mbind res_bind].
  destruct (evicted f && negb (waiting s)) eqn:Ee.
  - apply andb_true_iff in Ee as [Ee Ew]. unfold evicted in Ee. destruct (m_state f); try done.
    destruct (waiting s) eqn:Ew'; [done |]. exists f, [], s. rewrite orb_true_r.
    split_and!; try done. by destruct Hc.
  - assert (Hbody : ∃ f' ms s', ('(f', ms) ← send_flow f prio m dpid; scope' ← scope_of f' dpid;
        Ok (with_switch f' dpid (SwitchInfo false no_buffer port_controller 0 (packet_data scope')), ms))
        = Ok (f', ms) ∧ same_but_switches f f' ∧ m_switches f' !! dpid = Some s' ∧ calm s' ∧
        length (List.filter releases ms) = (if waiting s then 1 else 0)%nat ∧
        omap added ms = (if disposable f then [] else [(prio, m)])).
    { destruct (send_flow_known f prio m dpid s acts Hs Ha Hc) as (f' & ms & s' & -> & Hsame & Hs' & Hr & Hm).
      cbn [mbind res_bind]. rewrite (scope_known _ _ _ Hs'). cbn [mbind res_bind]. eexists _, _, _.
      split_and!; [done | done | apply lookup_insert_eq | done | done | done]. }
    rewrite orb_false_r. unfold evicted in Ee. destruct (m_state f), (waiting s); done.
Qed.

Lemma same_trans f g h : same_but_switches f g → same_but_switches g h → same_but_switches f h.
Proof. unfold same_but_switches. intuition congruence. Qed.
Lemma same_disposable f f' : same_but_switches f f' → disposable f' = disposable f.
Proof. intros (_ & Hd & _). unfold disposable. by rewrite Hd. Qed.
Lemma same_evicted f f' : same_but_switches f f' → evicted f' = evicted f.
Proof. intros (Hs & _). unfold evicted. by rewrite Hs. Qed.

Lemma installs_calm fresh l : ∀ f dpid s acts,
  installTrigger f = true → m_switches f !! dpid = Some s → actions f dpid = Ok acts → calm s →
  ∃ f' ms, installs fresh f dpid l = Ok (f', ms) ∧ same_but_switches f f' ∧
    length (List.filter releases ms) = 0%nat ∧ omap added ms = (if disposable f || evicted f then [] else l).
Proof.
  induction l as [|[prio m] l IH]; intros f dpid s acts Ht Hs Ha Hc; cbn [installs].
  { exists f, []. split_and!; [done | apply same_refl | done | by destruct (disposable f || evicted f)]. }
  destruct (install_known fresh f prio m dpid s acts Ht Hs Ha) as (f1 & ms & s1 & -> & Hsame & Hs1 & Hc1 & Hr & Hm);
    [by right |]. cbn [mbind res_bind].
  destruct (IH f1 dpid s1 acts) as (f2 & ms2 & -> & Hsame2 & Hr2 & Hm2); [| done | | done |].
  - etrans; [apply Hsame | done].
  - by rewrite (same_actions f f1).
  - cbn [mbind res_bind]. eexists _, _. split; [done |]. split; [by eapply same_trans |].
    destruct Hc as [Hw _]. rewrite Hw in *.
    rewrite filter_app, length_app, Hr, Hr2, omap_app, Hm, Hm2.
    rewrite (same_disposable f f1), (same_evicted f f1) by done. cbn [negb]. rewrite andb_true_r.
    split; [done |]. by destruct (disposable f || evicted f).
Qed.

(** Every switch is known to wait or to be calm. *)
Definition scope_ok (f : flow) (dpid : N) : Prop :=
  ∀ s, m_switches f !! dpid = Some s → waiting s = true ∨ calm s.

(** The rules of a lasting flow all go out, whether the switch is known. *)
Lemma installs_lasting fresh l : ∀ f dpid acts,
  installTrigger f = true → scope_ok f dpid → actions f dpid = Ok acts →
  disposable f = false → evicted f = false →
  ∃ f' ms, installs fresh f dpid l = Ok (f', ms) ∧ same_but_switches f f' ∧ omap added ms = l.
Proof.
  induction l as [|[prio m] l IH]; intros f dpid acts Ht Hs Ha Hd He; cbn [installs].
  { exists f, []. split_and!; [done | apply same_refl | done]. }
  assert (H : ∃ f0 s, install fresh f prio m dpid = install fresh f0 prio m dpid ∧ same_but_switches f f0 ∧
    m_switches f0 !! dpid = Some s ∧ (waiting s = true ∨ calm s)).
  { destruct (m_switches f !! dpid) as [s|] eqn:E.
    - exists f, s. split_and!; [done | apply same_refl | done | by apply Hs].
    - exists (with_switch f dpid (new_switch_info fresh)), (new_switch_info fresh).
      unfold install, made_known. rewrite E. cbn. rewrite lookup_insert_eq. split_and!; try done. by right. }
  destruct H as (f0 & s & -> & H0 & Es & Hc).
  destruct (install_known fresh f0 prio m dpid s acts) as (f1 & ms & s1 & -> & Hsame & Hs1 & Hc1 & _ & Hm);
    [by rewrite <- Ht; apply H0 | done | by rewrite (same_actions f f0) | done |]. cbn [mbind res_bind].
  rewrite (same_disposable f f0), (same_evicted f f0), Hd, He in Hm by done. cbn in Hm.
  assert (H1 : same_but_switches f f1) by (by eapply same_trans).
  destruct (IH f1 dpid acts) as (f2 & ms2 & -> & Hsame2 & Hm2).
  - rewrite <- Ht. apply H1.
  - intros s' Es'. rewrite Hs1 in Es'. injection Es' as <-. by right.
  - by rewrite (same_actions f f1).
  - by rewrite (same_disposable f f1).
  - by rewrite (same_evicted f f1).
  - cbn [mbind res_bind]. eexists _, _. split_and!; [done | by eapply same_trans |].
    rewrite omap_app, Hm, Hm2. done.
Qed.

(** ** What installs keep *)

(** On every switch the flow waits or is calm. *)
Definition flow_ok (f : flow) : Prop := ∀ d, scope_ok f d.

Lemma flow_ok_with_switch f dpid s : flow_ok f → (waiting s = true ∨ calm s) → flow_ok (with_switch f dpid s).
Proof.
  intros Hf Hs d s'. cbn. destruct (decide (d = dpid)) as [-> |].
  - rewrite lookup_insert_eq. by intros [= <-].
  - rewrite lookup_insert_ne by done. apply Hf.
Qed.

(** The flow is the same but for its switches, which are as they should be. *)
Definition tame (f f' : flow) : Prop := same_but_switches f f' ∧ (flow_ok f → flow_ok f').

Lemma tame_refl f : tame f f.
Proof. by split; [apply same_refl |]. Qed.
Lemma tame_trans f g h : tame f g → tame g h → tame f h.
Proof. intros [H1 H2] [H3 H4]. split; [by eapply same_trans | tauto]. Qed.
Lemma tame_calm f dpid s : calm s → tame f (with_switch f dpid s).
Proof. intros Hs. split; [done |]. intros Hf. apply flow_ok_with_switch; [done | by right]. Qed.

(** A message on behalf of the flow: its rules are in its table, under its
    cookie. *)
Definition sent_by (f : flow) (m : msg) : Prop :=
  match m with
  | PacketOut _ _ _ _ _ => True
  | FlowAdd _ _ table _ cookie _ _ _ _ => table = m_table f ∧ cookie = m_cookie f
  | _ => False
  end.

Lemma same_sent_by f g m : same_but_switches f g → sent_by g m → sent_by f m.
Proof. intros (_ & _ & _ & _ & Ht & Hc). destruct m; try done. cbn. by rewrite Ht, Hc. Qed.

Definition sends (f f' : flow) (ms : list msg) : Prop := tame f f' ∧ Forall (sent_by f) ms.

Lemma sends_nothing f f' : tame f f' → sends f f' [].
Proof. by split; [| apply Forall_nil]. Qed.

Lemma sends_app f g h ms ms' : sends f g ms → sends g h ms' → sends f h (ms ++ ms').
Proof.
  intros [Ht Hm] [Ht' Hm']. split; [by eapply tame_trans |]. apply list.Forall_app. split; [done |].
  eapply list.Forall_impl; [exact Hm' |]. intros m. by apply same_sent_by, Ht.
Qed.

Lemma packet_out_sends f dpid f' ms : packet_out f dpid = Ok (f', ms) → sends f f' ms.
Proof.
  unfold packet_out. intros E. apply res_bind_Ok in E as (s & _ & E). destruct (waiting s).
  - apply res_bind_Ok in E as (acts & _ & E). injection E as <- <-. split; [split; [done |] | by repeat constructor].
    intros Hf. apply flow_ok_with_switch; [done | by left].
  - injection E as <- <-. apply sends_nothing, tame_refl.
Qed.

Lemma flow_mod_sends f prio m dpid f' ms : flow_mod f prio m dpid = Ok (f', ms) → sends f f' ms.
Proof.
  unfold flow_mod. intros E. apply res_bind_Ok in E as (s & _ & E). apply res_bind_Ok in E as (acts & _ & E).
  injection E as <- <-. split; [apply tame_refl | by repeat constructor].
Qed.

Lemma send_flow_sends f prio m dpid f' ms : send_flow f prio m dpid = Ok (f', ms) → sends f f' ms.
Proof.
  unfold send_flow. intros E. apply res_bind_Ok in E as (s & _ & E).
  destruct (disposable f); [by eapply packet_out_sends |].
  apply res_bind_Ok in E as ([f1 ms1] & E1 & E). apply res_bind_Ok in E as ([f2 ms2] & E2 & E).
  injection E as <- <-. apply sends_app with f1; [| by eapply flow_mod_sends].
  destruct (waiting s && _); [by eapply packet_out_sends | injection E1 as <- <-; apply sends_nothing, tame_refl].
Qed.

Lemma install_sends fresh f prio m dpid f' ms : install fresh f prio m dpid = Ok (f', ms) → sends f f' ms.
Proof.
  assert (H0 : tame f (made_known fresh f dpid)).
  { unfold made_known. destruct (m_switches f !! dpid); [apply tame_refl | by apply tame_calm]. }
  intros [[-> ->] | (f1 & s1 & E%send_flow_sends & -> & Hs)]%install_Ok; [by apply sends_nothing |].
  rewrite <- (app_nil_r ms). eapply sends_app; [| by apply sends_nothing, tame_calm].
  change ms with ([] ++ ms). eapply sends_app; [by apply sends_nothing | done].
Qed.

Lemma installs_sends fresh dpid l : ∀ f f' ms, installs fresh f dpid l = Ok (f', ms) → sends f f' ms.
Proof.
  induction l as [|[prio m] l IH]; intros f f' ms E; cbn [installs] in E.
  - injection E as <- <-. apply sends_nothing, tame_refl.
  - apply res_bind_Ok in E as ([f1 ms1] & E1 & E). apply res_bind_Ok in E as ([f2 ms2] & E2 & E).
    injection E as <- <-. eapply sends_app; [by eapply install_sends | by eapply IH].
Qed.

(** ** Properties *)

(** C35: a waiting packet is let go of exactly once.  Install any rules, at
    least one, of a decided flow on a switch whose packet waits: none throws,
    one message of all releases the packet, and the flow-mods carry the rules
    in order; a flow that does not last has none, and an evicted flow is only
    given the first. *)
Theorem released_once fresh f dpid s acts prio m l :
  installTrigger f = true → m_switches f !! dpid = Some s → waiting s = true → actions f dpid = Ok acts →
  ∃ f' ms, installs fresh f dpid ((prio, m) :: l) = Ok (f', ms) ∧ same_but_switches f f' ∧
    length (List.filter releases ms) = 1%nat ∧
    omap added ms = (if disposable f then [] else if evicted f then [(prio, m)] else (prio, m) :: l).
Proof.
  intros Ht Hs Hw Ha. cbn [installs].
  destruct (install_known fresh f prio m dpid s acts Ht Hs Ha) as (f1 & ms & s1 & -> & Hsame & Hs1 & Hc1 & Hr & Hm);
    [by left |]. cbn [mbind res_bind].
  destruct (installs_calm fresh l f1 dpid s1 acts) as (f2 & ms2 & -> & Hsame2 & Hr2 & Hm2).
  - etrans; [apply Hsame | done].
  - done.
  - by rewrite (same_actions f f1).
  - done.
  - cbn [mbind res_bind]. eexists _, _. split; [done |]. split; [by eapply same_trans |].
    rewrite filter_app, length_app, Hr, Hw, Hr2, omap_app, Hm, Hm2, Hw.
    rewrite (same_disposable f f1), (same_evicted f f1) by done. cbn [negb]. rewrite andb_false_r, orb_false_r.
    split; [done |]. by destruct (disposable f), (evicted f).
Qed.

Lemma of_timeout_bound n :
  (0 < n)%N → (of_timeout n = 0 ↔ n = duration_max)%N ∧ (of_timeout n ≤ 65535)%N ∧ (of_timeout n ≤ n)%N.
Proof.
  intros Hn. unfold of_timeout. destruct (n =? duration_max)%N eqn:E; [apply N.eqb_eq in E | apply N.eqb_neq in E];
    repeat split; lia.
Qed.

Lemma packet_out_adds f dpid f' ms :
  packet_out f dpid = Ok (f', ms) → same_but_switches f f' ∧ omap added ms = [].
Proof.
  unfold packet_out. intros E. apply res_bind_Ok in E as (s & _ & E). destruct (waiting s).
  - apply res_bind_Ok in E as (acts & _ & E). injection E as <- <-. by split; [repeat split |].
  - injection E as <- <-. by split; [apply same_refl |].
Qed.

Lemma added_in ms x b t p c m i h a : FlowAdd x b t p c m i h a ∈ ms → omap added ms ≠ [].
Proof.
  intros Hin E. assert (H : (p, m) ∈ omap added ms); [| rewrite E in H; by apply elem_of_nil in H].
  apply list_elem_of_omap. by eexists.
Qed.

(** The flow-mods of an install, and why there are any. *)
Lemma install_add fresh f prio m dpid f' ms x b t p c m' i h a :
  install fresh f prio m dpid = Ok (f', ms) → FlowAdd x b t p c m' i h a ∈ ms →
  disposable f = false ∧ i = of_timeout (idle_timeout (base_of (m_decision f))) ∧
  h = of_timeout (hard_timeout (base_of (m_decision f))).
Proof.
  intros E Hin. pose proof (known_same fresh f dpid) as H0. apply install_Ok in E. cbv zeta in E.
  set (f0 := made_known fresh f dpid) in *. rewrite <- (same_disposable f f0 H0). destruct H0 as (_ & <- & _).
  destruct E as [[_ ->] | (f1 & s1' & E1 & _)]; [by apply elem_of_nil in Hin |]. unfold send_flow in E1.
  apply res_bind_Ok in E1 as (s1 & _ & E1). destruct (disposable f0) eqn:Ed.
  { apply packet_out_adds in E1 as [_ E1]. by apply added_in in Hin. }
  split; [done |]. apply res_bind_Ok in E1 as ([f2 ms2] & E2 & E1). apply res_bind_Ok in E1 as ([f3 ms3] & E3 & E1).
  injection E1 as -> <-.
  assert (Hf2 : same_but_switches f0 f2 ∧ omap added ms2 = []).
  { destruct (waiting s1 && _); [by apply packet_out_adds in E2 |].
    injection E2 as <- <-. by split; [apply same_refl |]. }
  destruct Hf2 as [(_ & <- & _) Hms2]. apply elem_of_app in Hin as [Hin | Hin]; [by apply added_in in Hin |].
  unfold flow_mod in E3. apply res_bind_Ok in E3 as (s3 & _ & E3). apply res_bind_Ok in E3 as (acts & _ & E3).
  injection E3 as _ <-. apply list_elem_of_singleton in Hin. by injection Hin.
Qed.

(** timeouts are honoured.  The decision's timeouts being ordered, as the
    methods of decisions keep them, a rule that is installed has no idle (hard)
    timeout exactly if the decision has none, and otherwise one of at most the
    decision's and at most 65535 seconds: none wraps to no timeout. *)
Theorem timeouts_honoured fresh f prio m dpid f' ms x b t p c m' i h a :
  timeouts_ok (m_decision f) → install fresh f prio m dpid = Ok (f', ms) →
  FlowAdd x b t p c m' i h a ∈ ms →
  let d := base_of (m_decision f) in
  (i = 0 ↔ idle_timeout d = duration_max)%N ∧ (h = 0 ↔ hard_timeout d = duration_max)%N ∧
  (i ≤ 65535)%N ∧ (i ≤ idle_timeout d)%N ∧ (h ≤ 65535)%N ∧ (h ≤ hard_timeout d)%N.
Proof.
  intros Ht E Hin d. destruct (install_add _ _ _ _ _ _ _ _ _ _ _ _ _ _ _ _ E Hin) as (Hd & -> & ->).
  unfold disposable in Hd. apply N.leb_gt in Hd. fold d in Hd |- *. unfold timeouts_ok in Ht. fold d in Ht.
  destruct (of_timeout_bound (idle_timeout d)) as (H1 & H2 & H3); [done |].
  destruct (of_timeout_bound (hard_timeout d)) as (H4 & H5 & H6); [lia |]. done.
Qed.
End Flow.
Arguments flow handler : clear implicits.

(** A flow to port 3 for at most 100000 seconds, asked for by a packet in
    buffer 5 of switch 1. *)
Definition sample_flow : flow N :=
  with_trigger (packet_in (set_decision (new_flow 0 7) (Unicast (Base false 60 100000) 3)) 1 4 5 2 None) true.

Lemma released_once_witness :
  ∃ f' ms, installs 0 sample_flow 1 [(10%N, ∅); (11%N, ∅)] = Ok (f', ms) ∧
    length (List.filter releases ms) = 1%nat ∧ omap added ms = [(10%N, ∅); (11%N, ∅)].
Proof.
  destruct (released_once 0 sample_flow 1 (SwitchInfo true 5 2 4 None) [Output 3 0] 10 ∅ [(11%N, ∅)])
    as (f' & ms & E & _ & Hr & Hm); [done | by vm_compute | done | by vm_compute |].
  exists f', ms. split_and!; [done | done |]. rewrite Hm. by vm_compute.
Defined.

Lemma timeouts_honoured_witness :
  ∃ f' ms, install 0 sample_flow 10 ∅ 1 = Ok (f', ms) ∧
    FlowAdd 4 5 0 10 7 ∅ 60 65535 [Output 3 0] ∈ ms ∧ (65535 ≤ 100000)%N.
Proof.
  destruct (install_known 0 sample_flow 10 ∅ 1 (SwitchInfo true 5 2 4 None) [Output 3 0])
    as (f' & ms & s' & E & _); [done | by vm_compute | by vm_compute | by left |].
  assert (Hin : FlowAdd 4 5 0 10 7 ∅ 60 65535 [Output 3 0] ∈ ms).
  { assert (ms = [FlowAdd 4 5 0 10 7 ∅ 60 65535 [Output 3 0]]) as ->; [| by left].
    vm_compute in E. by injection E. }
  exists f', ms. split_and!; [done | done |].
  by eapply (timeouts_honoured 0 sample_flow 10 ∅ 1 f' ms 4 5 0 10 7 ∅ 60 65535); [| done | done].
Defined.
