(* ===== verification/MapleBackend.v ===== *)
(** * MapleBackend: from rules of the tree to rules of switches,
    [MapleBackend] of Maple.cc

    The tree's matches name switches among their fields; the backend takes
    these out, works out the switches a rule is for and installs the expanded
    matches there.  A test of the switch has no barrier rule: its negative
    branch is kept off the switch by the excluded fields of the match.  The
    hash of a printed match is a parameter, as is what an uninitialised
    transaction number happens to be.  Switches are visited in some order;
    each gets its own messages. *)

From S2P Require Import Prelude Bits Oxm FieldSet Packet Policy Valuation Fdd FddCompiler FddCorrect.
From S2P Require Import FddTranslator Tracer TraceTree LeafTraces FullFieldSet MapleTree MapleRuntime MapleCorrect.
From S2P Require Import MapleTable MapleRun Decision MapleFlow.

(** [Flow::cookie_space] of Flow.cc *)
Definition COOKIE_BASE : N := 2 ^ 63.
Definition COOKIE_MASK : N := 2 ^ 63.
Definition FIRST_COOKIE : N := COOKIE_BASE.

Section Backend.
Context {handler : Type} (hash : full_field_set → N → N) (fresh : N).

Record mbackend : Type := MBackend {
  connections : gset N;
  table : N;
  miss : flow handler;
  miss_rules : gset (N * N)
}.

(** The constructor; [never] is the handler that says no packet is done with. *)
Definition new_mbackend (table cookie : N) (never : handler) : mbackend :=
  MBackend ∅ table (set_decision (new_flow table cookie) (Inspect default_base 128 never)) ∅.

Definition add_switch (b : mbackend) (dpid : N) : mbackend :=
  MBackend ({[ dpid ]} ∪ connections b) (table b) (miss b) (miss_rules b).

Definition with_miss (b : mbackend) (f : flow handler) (rules : gset (N * N)) : mbackend :=
  MBackend (connections b) (table b) f rules.

(** Messages, each with the switch it goes to. *)
Abbreviation sent := (list (N * msg)).

Definition switch_mask : mask := Mask switch_id (N.ones (nbits switch_id)).

Definition ids_of (s : multi_field_set) : list N := map f_val (equal_range s switch_id).

Definition compute_switches (b : mbackend) (m : full_field_set) (f : flow handler) : gset N :=
  let all := match switches f with [] => connections b | l => list_to_set l end in
  let ids := ids_of (included m) in
  let named := match ids with [] => all | _ => all ∩ list_to_set ids end in
  named ∖ list_to_set (ids_of (excluded m)).

(** On every switch in turn; one that is not connected is a null pointer. *)
Fixpoint install_on_all (b : mbackend) (f : flow handler) (dpids : list N) (rules : list (N * field_set))
  : res (flow handler * sent) :=
  match dpids with
  | [] => Ok (f, [])
  | dpid :: dpids =>
      if bool_decide (dpid ∈ connections b) then
        '(f1, ms) ← installs fresh f dpid rules;
        '(f2, ms2) ← install_on_all b f1 dpids rules;
        Ok (f2, map (pair dpid) ms ++ ms2)
      else match rules with
           | [] => install_on_all b f dpids rules
           | _ => Throw Terminate
           end
  end.

(** The matches a rule comes to on a switch. *)
Definition switch_matches (m : full_field_set) : res (list field_set) :=
  m' ← full_erase m switch_mask; fields (included m').

Definition backend_install (b : mbackend) (priority : N) (m : full_field_set) (f : flow handler)
  : res (flow handler * sent) :=
  if installTrigger f then
    let dpids := compute_switches b m f in
    matches ← switch_matches m;
    install_on_all b f (base.elements dpids) (map (pair (u16 priority)) matches)
  else Ok (f, []).

Definition barrier_rule (b : mbackend) (priority : N) (m : full_field_set) (test : field) (id : N)
  : res (mbackend * sent) :=
  if type_eqb (f_type test) switch_id then Ok (b, [])
  else
    let full_id := (id, hash m priority) in
    if bool_decide (full_id ∈ miss_rules b) then Ok (b, [])
    else
      '(f, ms) ← backend_install b priority m (with_trigger (miss b) true);
      Ok (with_miss b (with_trigger f false) ({[ full_id ]} ∪ miss_rules b), ms).

(** To every switch, or to the one the match names. *)
Definition send_matching (b : mbackend) (m : field_set) (x : msg) : res sent :=
  dpid ← load m switch_mask;
  if f_wildcard dpid then Ok (map (λ d, (d, x)) (base.elements (connections b)))
  else if bool_decide (f_val dpid ∈ connections b) then Ok [(f_val dpid, x)]
  else Throw Terminate.

Definition remove_match (b : mbackend) (m : field_set) : res (mbackend * sent) :=
  m' ← erase m switch_mask;
  ms ← send_matching b m (FlowDelete (table b) COOKIE_BASE COOKIE_MASK (Some m'));
  Ok (with_miss b (miss b) ∅, ms).

Definition remove_strict (b : mbackend) (priority : N) (m : field_set) : res (mbackend * sent) :=
  m' ← erase m switch_mask;
  ms ← send_matching b m (FlowDeleteStrict (table b) COOKIE_BASE COOKIE_MASK m' (u16 priority));
  Ok (with_miss b (miss b) ∅, ms).

Definition remove_flow (b : mbackend) (f : flow handler) : mbackend * sent :=
  (with_miss b (miss b) ∅,
   map (λ d, (d, FlowDelete (table b) (m_cookie f) (2 ^ 64 - 1) None)) (base.elements (connections b))).

Definition barrier (b : mbackend) : sent := map (λ d, (d, BarrierRequest)) (base.elements (connections b)).

(** ** The calls of the tree *)

Abbreviation flows := (gmap flow_ptr (flow handler)).

Definition run_call (bf : mbackend * flows) (c : call) : res (mbackend * flows * sent) :=
  let '(b, fs) := bf in
  match c with
  | CInstall prio m p =>
      match fs !! p with
      | Some f => '(f', ms) ← backend_install b prio m f; Ok (b, <[p := f']> fs, ms)
      | None => Throw Terminate
      end
  | CBarrierRule prio m test id => '(b', ms) ← barrier_rule b prio m test id; Ok (b', fs, ms)
  | CBarrier => Ok (b, fs, barrier b)
  | CRemove m => '(b', ms) ← remove_match b m; Ok (b', fs, ms)
  end.

Fixpoint run_calls (bf : mbackend * flows) (l : list call) : res (mbackend * flows * sent) :=
  match l with
  | [] => Ok (bf, [])
  | c :: l =>
      '(bf1, ms1) ← run_call bf c;
      '(bf2, ms2) ← run_calls bf1 l;
      Ok (bf2, ms1 ++ ms2)
  end.

(** ** What the calls keep and send *)

Lemma Forall_pair (Q : msg → Prop) (d : N) ms : Forall Q ms → Forall (λ x, Q (snd x)) (map (pair d) ms).
Proof. intros H. apply Forall_map. by eapply list.Forall_impl; [exact H |]. Qed.

Lemma Forall_each (Q : msg → Prop) (ds : list N) x : Q x → Forall (λ y, Q (snd y)) (map (λ d, (d, x)) ds).
Proof. intros H. apply Forall_map. by apply Forall_elem. Qed.

Lemma install_on_all_sends b rules dpids : ∀ f f' ms,
  install_on_all b f dpids rules = Ok (f', ms) → tame f f' ∧ Forall (λ x, sent_by f (snd x)) ms.
Proof.
  induction dpids as [|d dpids IH]; intros f f' ms E; cbn [install_on_all] in E.
  - injection E as <- <-. split; [apply tame_refl | by apply Forall_nil].
  - case_bool_decide; [| destruct rules; [by eapply IH | done]].
    apply res_bind_Ok in E as ([f1 ms1] & E1 & E). apply res_bind_Ok in E as ([f2 ms2] & E2 & E).
    injection E as <- <-. apply installs_sends in E1 as [Ht Hm]. apply IH in E2 as [Ht2 Hm2].
    split; [by eapply tame_trans |]. apply list.Forall_app. split; [by apply Forall_pair |].
    eapply list.Forall_impl; [exact Hm2 |]. intros x. apply same_sent_by, Ht.
Qed.

Lemma backend_install_sends b prio m f f' ms :
  backend_install b prio m f = Ok (f', ms) → tame f f' ∧ Forall (λ x, sent_by f (snd x)) ms.
Proof.
  unfold backend_install. destruct (installTrigger f).
  - intros E. apply res_bind_Ok in E as (l & _ & E). by eapply install_on_all_sends.
  - intros [= <- <-]. split; [apply tame_refl | by apply Forall_nil].
Qed.

(** The backend keeps its table and its miss flow, which is as it should be. *)
Definition backend_kept (b b' : mbackend) : Prop :=
  connections b' = connections b ∧ table b' = table b ∧ m_cookie (miss b') = m_cookie (miss b) ∧
  m_table (miss b') = m_table (miss b) ∧ m_decision (miss b') = m_decision (miss b) ∧
  m_state (miss b') = m_state (miss b) ∧
  (flow_ok (miss b) → flow_ok (miss b')) ∧ (installTrigger (miss b) = false → installTrigger (miss b') = false).

Lemma kept_refl b : backend_kept b b.
Proof. by repeat split. Qed.

Lemma kept_trans b1 b2 b3 : backend_kept b1 b2 → backend_kept b2 b3 → backend_kept b1 b3.
Proof. unfold backend_kept. intros. destruct_and!. split_and!; (congruence || tauto). Qed.

(** A message of maple's: its rules are in the given table and have cookies of
    the given set; what it deletes is in the table and the cookie space. *)
Definition owned (table_id : N) (cookie_ok : N → Prop) (m : msg) : Prop :=
  match m with
  | PacketOut _ _ _ _ _ | BarrierRequest => True
  | FlowAdd _ _ t _ c _ _ _ _ => t = table_id ∧ cookie_ok c
  | FlowDelete t c k _ | FlowDeleteStrict t c k _ _ => t = table_id ∧ c = COOKIE_BASE ∧ k = COOKIE_MASK
  end.

Lemma sent_by_owned t (Q : N → Prop) (f : flow handler) (m : msg) : m_table f = t → Q (m_cookie f) → sent_by f m → owned t Q m.
Proof. by intros Ht Hc; destruct m; try done; intros [-> ->]. Qed.

Lemma send_matching_owned b m x ms (Q : msg → Prop) :
  send_matching b m x = Ok ms → Q x → Forall (λ y, Q (snd y)) ms.
Proof.
  unfold send_matching. intros E Hx. apply res_bind_Ok in E as (f & _ & E). destruct (f_wildcard f).
  - injection E as <-. by apply Forall_each.
  - case_bool_decide; [| done]. injection E as <-. by repeat constructor.
Qed.

Lemma remove_match_sends b m b' ms (Q : N → Prop) :
  remove_match b m = Ok (b', ms) → backend_kept b b' ∧ Forall (λ x, owned (table b) Q (snd x)) ms.
Proof.
  unfold remove_match. intros E. apply res_bind_Ok in E as (m' & _ & E). apply res_bind_Ok in E as (l & E & Eq).
  injection Eq as <- <-. split; [by repeat split |]. by eapply send_matching_owned; [exact E |].
Qed.

Lemma barrier_rule_sends b prio m test id b' ms :
  barrier_rule b prio m test id = Ok (b', ms) → backend_kept b b' ∧ Forall (λ x, sent_by (miss b) (snd x)) ms.
Proof.
  unfold barrier_rule. destruct (type_eqb _ _); [intros [= <- <-]; split; [apply kept_refl | by apply Forall_nil] |].
  cbv zeta. case_bool_decide; [intros [= <- <-]; split; [apply kept_refl | by apply Forall_nil] |].
  intros E. apply res_bind_Ok in E as ([f l] & E & Eb). injection Eb as <- <-.
  apply backend_install_sends in E as [[(Hs & Hd & _ & _ & Ht & Hc) Hok] Hm]. by split; [split_and! |].
Qed.

(** A call changes flows one at a time, and tamely. *)
Definition flows_kept (fs fs' : flows) : Prop :=
  ∀ p, match fs !! p, fs' !! p with
       | Some f, Some f' => tame f f'
       | None, None => True
       | _, _ => False
       end.

Lemma flows_kept_refl fs : flows_kept fs fs.
Proof. intros p. destruct (fs !! p); [apply tame_refl | done]. Qed.

Lemma flows_kept_insert fs p f f' : fs !! p = Some f → tame f f' → flows_kept fs (<[p := f']> fs).
Proof.
  intros Hp Hf q. destruct (decide (q = p)) as [-> |].
  - by rewrite lookup_insert_eq, Hp.
  - rewrite lookup_insert_ne by done. apply flows_kept_refl.
Qed.

Lemma run_call_sends b fs c b' fs' ms (Q : N → Prop) :
  run_call (b, fs) c = Ok (b', fs', ms) →
  m_table (miss b) = table b → Q (m_cookie (miss b)) →
  (∀ p f, fs !! p = Some f → m_table f = table b ∧ Q (m_cookie f)) →
  backend_kept b b' ∧ flows_kept fs fs' ∧ Forall (λ x, owned (table b) Q (snd x)) ms.
Proof.
  intros E Hmt Hmc Hf. destruct c as [prio m p | prio m test id | | m]; cbn [run_call] in E.
  - destruct (fs !! p) as [f|] eqn:Ep; [| done]. apply res_bind_Ok in E as ([f' l] & E & Eq).
    injection Eq as <- <- <-. apply backend_install_sends in E as [Ht Hm]. destruct (Hf p f Ep) as [Hft Hfc].
    split_and!; [apply kept_refl | by apply flows_kept_insert with f |].
    eapply list.Forall_impl; [exact Hm |]. intros x. by apply sent_by_owned.
  - apply res_bind_Ok in E as ([b1 l] & E & Eq). injection Eq as <- <- <-. apply barrier_rule_sends in E as [Hk Hm].
    split_and!; [done | apply flows_kept_refl |]. eapply list.Forall_impl; [exact Hm |]. intros x. by apply sent_by_owned.
  - injection E as <- <- <-. split_and!; [apply kept_refl | apply flows_kept_refl | by apply Forall_each].
  - apply res_bind_Ok in E as ([b1 l] & E & Eq). injection Eq as <- <- <-.
    apply remove_match_sends with (Q := Q) in E as [Hk Hm]. by split_and!; [| apply flows_kept_refl |].
Qed.

(** ** What the calls do not throw *)

(** The checks of fields and masks throw exceptions of their own. *)
Ltac fields_quiet :=
  unfold field_rewrite_field, value_rewrite_field, field_wildcard, field_exact, mask_not, mask_or, field_and_mask,
    value_and_mask, mk_field, mk_value, mk_mask, value_holder, mask_holder, binop_type;
  quiet.

Lemma mask_not_quiet m : quiet (mask_not m).
Proof. fields_quiet. Qed.
Lemma field_and_mask_quiet f m : quiet (field_and_mask f m).
Proof. fields_quiet. Qed.
Lemma field_wildcard_quiet t : quiet (field_wildcard t).
Proof. fields_quiet. Qed.
Lemma field_rewrite_field_quiet f g : quiet (field_rewrite_field f g).
Proof. fields_quiet. Qed.
#[local] Hint Resolve mask_not_quiet field_and_mask_quiet field_wildcard_quiet field_rewrite_field_quiet : quiet.

Lemma load_quiet fs m : quiet (load fs m).
Proof. unfold load. quiet. Qed.
Lemma modify_quiet fs f : quiet (modify fs f).
Proof. unfold modify. quiet. Qed.
Lemma erase_quiet fs m : quiet (erase fs m).
Proof. unfold erase. quiet. Qed.
#[local] Hint Resolve load_quiet modify_quiet erase_quiet : quiet.

Lemma erase_loop_quiet m l : quiet (erase_loop m l).
Proof. induction l as [|g l IH]; cbn [erase_loop]; quiet. Qed.

Lemma fields_from_quiet s types : ∀ fs, quiet (fields_from s types fs).
Proof.
  induction types as [|t types IH]; intros fs; cbn [fields_from]; [quiet |].
  destruct (equal_range s t) as [|g l]; [apply IH |]. quiet.
  match goal with |- quiet (_ _ ?x) => generalize x end. clear -IH. induction l as [|it its IHits]; intros fs; quiet.
Qed.
#[local] Hint Resolve erase_loop_quiet fields_from_quiet : quiet.

Lemma scope_of_quiet (f : flow handler) dpid : quiet (scope_of f dpid).
Proof. unfold scope_of. quiet. Qed.
Lemma actions_quiet (f : flow handler) dpid : quiet (actions f dpid).
Proof. unfold actions, decision_actions. quiet. Qed.
#[local] Hint Resolve scope_of_quiet actions_quiet : quiet.
Lemma packet_out_quiet (f : flow handler) dpid : quiet (packet_out f dpid).
Proof. unfold packet_out. quiet. Qed.
Lemma flow_mod_quiet (f : flow handler) prio m dpid : quiet (flow_mod f prio m dpid).
Proof. unfold flow_mod. quiet. Qed.
#[local] Hint Resolve packet_out_quiet flow_mod_quiet : quiet.
Lemma send_flow_quiet (f : flow handler) prio m dpid : quiet (send_flow f prio m dpid).
Proof. unfold send_flow. quiet. Qed.
#[local] Hint Resolve send_flow_quiet : quiet.

(** The one assertion holds. *)
Lemma install_quiet (f : flow handler) prio m dpid : installTrigger f = true → quiet (install fresh f prio m dpid).
Proof.
  intros Ht. unfold install, install_on. destruct (known_same fresh f dpid) as (_ & _ & _ & -> & _). rewrite Ht.
  cbn [require mbind res_bind]. quiet.
Qed.

Lemma installs_quiet dpid l : ∀ f : flow handler, installTrigger f = true → quiet (installs fresh f dpid l).
Proof.
  induction l as [|[prio m] l IH]; intros f Ht; cbn [installs]; [quiet |].
  apply quiet_bind; [by apply install_quiet |]. intros [f1 ms] [[Hs _] _]%install_sends.
  apply quiet_bind; [apply IH; rewrite <- Ht; apply Hs | intros []; quiet].
Qed.

Lemma install_on_all_quiet b l dpids : ∀ f, installTrigger f = true → quiet (install_on_all b f dpids l).
Proof.
  induction dpids as [|d dpids IH]; intros f Ht; cbn [install_on_all]; [quiet |].
  case_bool_decide; [| destruct l; [by apply IH | quiet]].
  apply quiet_bind; [by apply installs_quiet |]. intros [f1 ms] [[Hs _] _]%installs_sends.
  apply quiet_bind; [apply IH; rewrite <- Ht; apply Hs | intros []; quiet].
Qed.

Lemma backend_install_quiet b prio m f : quiet (backend_install b prio m f).
Proof.
  unfold backend_install. destruct (installTrigger f) eqn:Ht; [| quiet].
  apply quiet_bind; [unfold switch_matches, full_erase, multi_erase, fields; quiet |].
  intros. by apply install_on_all_quiet.
Qed.

Lemma run_call_quiet b fs c : quiet (run_call (b, fs) c).
Proof.
  pose proof backend_install_quiet. destruct c; cbn [run_call]; unfold barrier_rule, remove_match, send_matching; quiet.
Qed.

(** ** What an install comes to *)

Definition sent_to (dpid : N) (ms : sent) : list msg :=
  map snd (List.filter (λ x, (fst x =? dpid)%N) ms).

Lemma sent_to_app dpid l1 l2 : sent_to dpid (l1 ++ l2) = sent_to dpid l1 ++ sent_to dpid l2.
Proof. unfold sent_to. by rewrite filter_app, map_app. Qed.

Lemma sent_to_one dpid d (l : list msg) : sent_to dpid (map (pair d) l) = if (d =? dpid)%N then l else [].
Proof.
  unfold sent_to. destruct (d =? dpid)%N eqn:E; induction l as [|m l IH]; cbn; rewrite ?E; cbn; congruence.
Qed.

(** A flow that lasts, has actions everywhere and can be installed. *)
Definition installable (f : flow handler) : Prop :=
  installTrigger f = true ∧ disposable f = false ∧ evicted f = false ∧
  (∀ d, ∃ acts, actions f d = Ok acts) ∧ ∀ d, scope_ok f d.

Lemma install_on_all_ok b rules dpids : ∀ f,
  NoDup dpids → (∀ d, d ∈ dpids → d ∈ connections b) →
  installTrigger f = true → disposable f = false → evicted f = false →
  (∀ d, ∃ acts, actions f d = Ok acts) → (∀ d, d ∈ dpids → scope_ok f d) →
  ∃ f' ms, install_on_all b f dpids rules = Ok (f', ms) ∧ same_but_switches f f' ∧
    ∀ d, omap added (sent_to d ms) = if decide (d ∈ dpids) then rules else [].
Proof.
  induction dpids as [|dpid dpids IH]; intros f Hnd Hc Ht Hd He Ha Hs; cbn [install_on_all].
  { exists f, []. split_and!; [done | apply same_refl |]. intros d. by rewrite decide_False by apply not_elem_of_nil. }
  apply list.NoDup_cons in Hnd as [Hni Hnd]. rewrite bool_decide_eq_true_2 by (apply Hc; left).
  destruct (Ha dpid) as [acts Hacts].
  destruct (installs_lasting fresh rules f dpid acts Ht (Hs dpid ltac:(left)) Hacts Hd He) as (f1 & ms & E & Hsame & Hm).
  rewrite E. cbn [mbind res_bind]. apply installs_elsewhere in E.
  destruct (IH f1 Hnd) as (f2 & ms2 & -> & Hsame2 & Hm2).
  - intros d Hd'. apply Hc. by right.
  - rewrite <- Ht. apply Hsame.
  - by rewrite (same_disposable f f1).
  - by rewrite (same_evicted f f1).
  - intros d. rewrite (same_actions f f1) by done. apply Ha.
  - intros d Hd' s. rewrite E by (intros ->; done). by apply Hs; right.
  - cbn [mbind res_bind]. eexists _, _. split_and!; [done | by eapply same_trans |]. intros d.
    rewrite sent_to_app, sent_to_one, omap_app, Hm2. destruct (dpid =? d)%N eqn:Ed.
    + apply N.eqb_eq in Ed as ->. rewrite Hm, decide_False by done. rewrite app_nil_r, decide_True; [done | by left].
    + apply N.eqb_neq in Ed. destruct (decide (d ∈ dpids)); [rewrite decide_True; [done | by right] |].
      rewrite decide_False; [done |]. by intros [-> | ?]%elem_of_cons.
Qed.

(** Switch ids are whole values: the type is not maskable. *)
Lemma switch_exact f : elem_wf f → f_type f = switch_id → f_msk f = N.ones 64.
Proof. intros ((_ & (_ & Hm) & _) & Hn) Et. rewrite Et in Hm. by destruct Hm as [Hm | [Hm | Hm]]. Qed.

Lemma switch_satb (s : multi_field_set) (v : vpacket) (dpid : N) :
  multi_wf s → vview v switch_id = dpid → (dpid < 2 ^ 64)%N →
  type_satb s v switch_id = match ids_of s with [] => true | ids => bool_decide (dpid ∈ ids) end.
Proof.
  intros Hs Hv Hd. unfold type_satb, ids_of. rewrite Hv.
  assert (H : ∀ l, (∀ f, f ∈ l → f_msk f = N.ones 64) →
    existsb (λ f, satb dpid f) l = bool_decide (dpid ∈ map f_val l)).
  { induction l as [|f l IH]; intros Hl; cbn [existsb map]; [by rewrite bool_decide_eq_false_2 by apply not_elem_of_nil |].
    rewrite IH by (intros g Hg; apply Hl; by right). unfold satb. rewrite Hl by left.
    rewrite N.land_ones, N.mod_small by done. destruct (dpid =? f_val f)%N eqn:E; cbn [orb].
    - apply N.eqb_eq in E as ->. symmetry. apply bool_decide_eq_true_2. by left.
    - apply N.eqb_neq in E. apply bool_decide_ext. rewrite elem_of_cons. naive_solver. }
  assert (Hex : ∀ f, f ∈ equal_range s switch_id → f_msk f = N.ones 64).
  { intros f Hf. destruct (equal_range_spec s switch_id f Hs eq_refl Hf) as (Hw & Hm & Et). by apply switch_exact. }
  destruct (equal_range s switch_id) as [|g l] eqn:E; [done |]. by apply (H (g :: l)).
Qed.

Lemma compute_switches_spec b (m : full_field_set) f dpid :
  switches f = [] → dpid ∈ connections b →
  dpid ∈ compute_switches b m f ↔
  (match ids_of (included m) with [] => True | ids => dpid ∈ ids end) ∧ dpid ∉ ids_of (excluded m).
Proof.
  intros Hf Hd. unfold compute_switches. rewrite Hf, elem_of_difference, elem_of_list_to_set.
  destruct (ids_of (included m)) as [|id ids]; [tauto |]. rewrite elem_of_intersection, elem_of_list_to_set. tauto.
Qed.

(** ** Properties *)

(** C15: the backend installs a rule where and as it should.  For a rule of a
    well-formed match and a flow that lasts and is not bound to switches:
    nothing throws, every connected switch is sent the same expanded matches
    with the rule's priority or none at all; and of the packets of a switch
    exactly those hit a rule it was sent that satisfy what the match includes,
    provided the switch is not one it excludes. *)
Theorem backend_install_exact b (prio : N) (m : full_field_set) f :
  multi_wf (included m) → installable f → switches f = [] → (prio < 2 ^ 16)%N →
  ∃ f' ms, backend_install b prio m f = Ok (f', ms) ∧
    ∀ dpid (v : vpacket), dpid ∈ connections b → (dpid < 2 ^ 64)%N → vview v switch_id = dpid →
      let rules := omap added (sent_to dpid ms) in
      Forall (λ r, fst r = prio) rules ∧
      (existsb (λ r, fs_satb (snd r) v) rules = true ↔
       msatb (included m) v = true ∧ dpid ∉ ids_of (excluded m)).
Proof.
  intros Hm (Ht & Hd & He & Ha & Hs) Hsw Hp. unfold backend_install. rewrite Ht.
  destruct (erase_type (included m) switch_id Hm eq_refl) as (i' & Ei & Hi' & Hsat).
  unfold switch_matches, full_erase, switch_mask. rewrite Ei. cbn [mbind res_bind included].
  destruct (fields_ok i' zero_packet Hi') as (matches & Ef & _). rewrite Ef. cbn [mbind res_bind].
  destruct (install_on_all_ok b (map (pair (u16 prio)) matches) (base.elements (compute_switches b m f)) f)
    as (f' & ms & -> & _ & Hms); [apply NoDup_elements | | done | done | done | done | done |].
  { intros d Hdc%elem_of_elements. unfold compute_switches in Hdc. rewrite Hsw in Hdc.
    apply elem_of_difference in Hdc as [Hdc _]. destruct (ids_of _); [done |]. by apply elem_of_intersection in Hdc as [? _]. }
  exists f', ms. split; [done |]. intros dpid v Hc Hlt Hv. cbv zeta. rewrite Hms.
  assert (Hu : u16 prio = prio) by (unfold u16; by apply N.mod_small).
  split.
  - destruct (decide _); [| by apply Forall_nil]. rewrite Hu. apply Forall_map. apply Forall_elem. by intros fs _.
  - pose proof (compute_switches_spec b m f dpid Hsw Hc) as Hspec.
    rewrite (Hsat v), andb_true_iff, (switch_satb (included m) v dpid Hm Hv Hlt).
    destruct (fields_ok i' v Hi') as (matches' & Ef' & Hex). rewrite Ef in Ef'. injection Ef' as <-.
    assert (Hmap : existsb (λ r, fs_satb (snd r) v) (map (pair (u16 prio)) matches) = msatb i' v).
    { rewrite <- Hex. clear. induction matches as [|fs l IH]; cbn; [done |]. by rewrite IH. }
    assert (Hids : match ids_of (included m) with [] => true | ids => bool_decide (dpid ∈ ids) end = true ↔
      match ids_of (included m) with [] => True | ids => dpid ∈ ids end)
      by (destruct (ids_of (included m)); [done | apply bool_decide_eq_true]).
    rewrite Hids. destruct (decide (dpid ∈ base.elements (compute_switches b m f))) as [Hin | Hin];
      rewrite elem_of_elements, Hspec in Hin; [rewrite Hmap |]; cbn [existsb]; intuition congruence.
Qed.
End Backend.
Arguments mbackend handler : clear implicits.

(** ** Witness *)

(** Packets of switch 1 from port 2, not of switch 3. *)
Definition port_of_switch : full_field_set :=
  Full (Multi [Field switch_id 1 (N.ones 64); Field Oxm.in_port 2 (N.ones 32)] [switch_id; Oxm.in_port])
       (Multi [Field switch_id 3 (N.ones 64)] [switch_id]).

Definition two_switches : mbackend N := add_switch (add_switch (new_mbackend 0 7 0%N) 1) 3.
Definition to_port_3 : flow N := with_trigger (set_decision (new_flow 0 8) (Unicast default_base 3)) true.
Definition switch_packet : vpacket := with_values [(switch_id, 1%N); (Oxm.in_port, 2%N)].

Lemma backend_install_exact_witness :
  ∃ f' ms, backend_install 0 two_switches 10 port_of_switch to_port_3 = Ok (f', ms) ∧
    existsb (λ r, fs_satb (snd r) switch_packet) (omap added (sent_to 1 ms)) = true.
Proof.
  destruct (backend_install_exact (λ _ _, 0%N) 0 two_switches 10 port_of_switch to_port_3) as (f' & ms & E & H).
  - split_and!.
    + repeat apply Forall_cons_2; [.. | by apply Forall_nil];
        (split; [split; [done | split; [by apply msk_ok_test | done]] | split; [done |]]);
        first [by left | by right; left].
    + apply list.NoDup_cons. split; [| by apply NoDup_singleton].
      intros H. apply list_elem_of_singleton in H. by vm_compute in H.
    + by repeat apply Forall_cons_2; [.. | apply Forall_nil].
  - split_and!; try done. intros d. by eexists.
  - done.
  - done.
  - exists f', ms. split; [done |].
    destruct (H 1%N switch_packet) as [_ [_ H2]]; [by vm_compute | done | by vm_compute |].
    apply H2. split; [by vm_compute |]. cbn. intros Hin. apply list_elem_of_singleton in Hin. by vm_compute in Hin.
Defined.
