(* ===== verification/MapleApp.v ===== *)
(** * MapleApp: maple's handling of messages, [MapleImpl] of Maple.cc

    Packet-ins and flow-removed messages drive the flows through their
    states.  The run time (maple/Runtime.hh over the trace tree) and the
    pipeline's handlers are used through an interface: looking a packet up,
    running the policy on it with a tracer, updating the tree, running an
    installer.  An exception keeps what was done before the call that threw
    it.  Whatever these do, the flows the application holds are never
    expired and are filed under their own cookies ([app_invariant]), and what
    is sent is maple's own ([handle_safe]). *)

From stdpp Require Import strings.
From S2P Require Import Prelude Bits Oxm FieldSet Packet Policy Valuation Fdd FddCompiler FddCorrect.
From S2P Require Import FddTranslator Tracer TraceTree LeafTraces FullFieldSet MapleTree MapleRuntime MapleCorrect.
From S2P Require Import MapleTable MapleRun Decision MapleFlow MapleBackend.

(** ** What the application uses *)

(** An augmentation: the run time after it, the calls of the backend on the
    way, the decision if the policy returned one, and how it ended; the packet
    and its modifications are as the policy left them. *)
Record augmentation (P R handler : Type) : Type := Augmentation {
  au_rt : R;
  au_calls : list call;
  au_decision : option (decision handler custom_body);
  au_pkt : P;
  au_mods : field_set;
  au_result : res installer
}.
Arguments Augmentation {P R handler}.
Arguments au_rt {P R handler}.
Arguments au_calls {P R handler}.
Arguments au_decision {P R handler}.
Arguments au_pkt {P R handler}.
Arguments au_mods {P R handler}.
Arguments au_result {P R handler}.

Class RuntimeOps (P R handler H : Type) : Type := {
  (** [operator()]: weak pointers that are alive *)
  rt_lookup : (flow_ptr → bool) → R → P → res (option flow_ptr);
  rt_augment : R → P → field_set → flow handler → flow_ptr → augmentation P R handler;
  rt_update : R → R;
  rt_install : (flow_ptr → bool) → R → installer → list call;
  (** an inspecting decision's handler *)
  rt_inspect : handler → P → flow_ptr → res bool;
  (** a handler of the pipeline *)
  rt_handle : H → P → flow handler → decision handler custom_body →
              res (decision handler custom_body)
}.

Section App.
Context {P R handler H : Type} `{RuntimeOps P R handler H}.
Context (hash : full_field_set → N → N) (fresh : N).

Abbreviation mdecision := (decision handler custom_body).

Record app : Type := App {
  backend : mbackend handler;
  runtime : R;
  flows : gmap flow_ptr (flow handler);
  installers : gmap flow_ptr installer;   (** [m_installer] of each flow *)
  next_cookie : N;
  handler_table : N;
  started : bool;
  handlers : gmap string H;
  pipeline : list (string * H)
}.

Definition with_flows (a : app) (fs : gmap flow_ptr (flow handler)) : app :=
  App (backend a) (runtime a) fs (installers a) (next_cookie a) (handler_table a) (started a)
      (handlers a) (pipeline a).
Definition set_flow (a : app) (p : flow_ptr) (f : flow handler) : app := with_flows a (<[p := f]> (flows a)).
Definition with_runtime (a : app) (rt : R) : app :=
  App (backend a) rt (flows a) (installers a) (next_cookie a) (handler_table a) (started a)
      (handlers a) (pipeline a).
Definition with_backend (a : app) (b : mbackend handler) (fs : gmap flow_ptr (flow handler)) : app :=
  App b (runtime a) fs (installers a) (next_cookie a) (handler_table a) (started a) (handlers a) (pipeline a).
Definition with_installer (a : app) (p : flow_ptr) (i : installer) : app :=
  App (backend a) (runtime a) (flows a) (<[p := i]> (installers a)) (next_cookie a) (handler_table a)
      (started a) (handlers a) (pipeline a).

Definition alive (a : app) (p : flow_ptr) : bool := bool_decide (is_Some (flows a !! p)).

(** [next_cookie++] *)
Definition following (c : N) : N := ((c + 1) mod 2 ^ 64)%N.

(** [std::make_shared<FlowImpl>], filed under its cookie.  The constructor
    asserts that the cookies have not wrapped, and is [noexcept]. *)
Definition make_flow (a : app) : res (app * flow_ptr) :=
  let c := next_cookie a in
  _ ← require (FIRST_COOKIE <=? c)%N Terminate;
  Ok (App (backend a) (runtime a) (<[c := new_flow (handler_table a) c]> (flows a)) (installers a) (following c)
          (handler_table a) (started a) (handlers a) (pipeline a), c).

(** [MapleImpl]: its backend makes the first flow, the miss flow. *)
Definition new_app (rt : R) (table cookie : N) (never : handler) : app :=
  App (new_mbackend table cookie never) rt ∅ ∅ (following cookie) table false ∅ [].

(** ** The pipeline *)

Fixpoint process_from (l : list (string * H)) (pkt : P) (f : flow handler) (ret : mdecision) : res mdecision :=
  match l with
  | [] => Ok ret
  | (_, h) :: l =>
      ret' ← rt_handle h pkt f ret;
      if return_ (base_of ret') then Ok ret' else process_from l pkt f ret'
  end.

Definition process (a : app) (pkt : P) (f : flow handler) : res mdecision :=
  process_from (pipeline a) pkt f default_decision.

Definition registerHandler (a : app) (name : string) (h : H) : app :=
  if started a then a
  else App (backend a) (runtime a) (flows a) (installers a) (next_cookie a) (handler_table a) (started a)
           (<[name := h]> (handlers a)) (pipeline a).

Fixpoint find_handlers (hs : gmap string H) (names : list string) : res (list (string * H)) :=
  match names with
  | [] => Ok []
  | name :: names =>
      match hs !! name with
      | Some h => l ← find_handlers hs names; Ok ((name, h) :: l)
      | None => Throw StdOutOfRange
      end
  end.

Definition startUp (a : app) (names : list string) : res app :=
  l ← find_handlers (handlers a) names;
  Ok (App (backend a) (runtime a) (flows a) (installers a) (next_cookie a) (handler_table a) true
          (handlers a) (pipeline a ++ l)).

Definition onSwitchUp (a : app) (dpid : N) : app := with_backend a (add_switch (backend a) dpid) (flows a).

(** ** Packet-ins *)

Inductive packet_in_reason : Type := OFPR_NO_MATCH | OFPR_ACTION | OFPR_INVALID_TTL.

Record packet_in_msg : Type := PacketInMsg {
  pi_reason : packet_in_reason;
  pi_cookie : N;
  pi_xid : N;
  pi_buffer_id : N;
  pi_in_port : N;
  pi_data : option (list N)
}.

Definition isTableMiss (a : app) (pi : packet_in_msg) : bool :=
  match pi_reason pi with
  | OFPR_NO_MATCH => true
  | OFPR_ACTION => (pi_cookie pi =? m_cookie (miss (backend a)))%N
  | OFPR_INVALID_TTL => false
  end.

(** The state after a handler, what it sent, and the exception it ended with. *)
Abbreviation outcome := (app * list (N * msg) * option exn)%type.

(** Calls of the backend; if one throws, what came before has happened. *)
Fixpoint app_calls (a : app) (l : list call) : outcome :=
  match l with
  | [] => (a, [], None)
  | c :: l =>
      match run_call hash fresh (backend a, flows a) c with
      | Ok (b, fs, ms) =>
          let '(a', ms', e) := app_calls (with_backend a b fs) l in (a', ms ++ ms', e)
      | Throw e => (a, [], Some e)
      end
  end.

(** One thing after another, unless the first throws. *)
Definition andthen (o : outcome) (k : app → outcome) : outcome :=
  match o with
  | (a, ms, Some e) => (a, ms, Some e)
  | (a, ms, None) => let '(a', ms', e) := k a in (a', ms ++ ms', e)
  end.

Definition update_flow (a : app) (p : flow_ptr) (g : flow handler → flow handler) : app :=
  match flows a !! p with Some f => set_flow a p (g f) | None => a end.

(** [activate] *)
Definition activate (a : app) (p : flow_ptr) : outcome :=
  match installers a !! p with
  | None => (a, [], Some BadFunctionCall)
  | Some i =>
      let a1 := update_flow a p (λ f, with_trigger f true) in
      andthen (app_calls a1 (rt_install (alive a1) (runtime a1) i))
              (λ a2, (update_flow a2 p activated, [], None))
  end.

(** [runtime.augment(mpkt, flow)]: the decision is set as soon as there is one. *)
Definition augment (a : app) (pkt : P) (mods : field_set) (p : flow_ptr) (f : flow handler)
  : outcome * augmentation P R handler :=
  let au := rt_augment (runtime a) pkt mods f p in
  let o := app_calls (with_runtime a (au_rt au)) (au_calls au) in
  (andthen o (λ a1, (match au_decision au with
                     | Some d => update_flow a1 p (λ f, set_decision f d)
                     | None => a1
                     end, [], None)), au).

(** The new modifications, the installer, and off it goes. *)
Definition finish_augment (p : flow_ptr) (mods : field_set) (i : installer) (a : app) : outcome :=
  match flows a !! p with
  | None => (a, [], Some Terminate)
  | Some f =>
      match set_mods f mods with
      | Throw e => (a, [], Some e)
      | Ok f' => activate (with_installer (set_flow a p f') p i) p
      end
  end.

(** A second try, with new priorities, after [priority_exceeded]; on the same
    [mpkt], which keeps what the first run did to it. *)
Definition augment_flow (a : app) (pkt : P) (p : flow_ptr) (f : flow handler) : outcome :=
  let '(o, au) := augment a pkt ∅ p f in
  andthen o (λ a1,
    match au_result au with
    | Ok i => finish_augment p (au_mods au) i a1
    | Throw PriorityExceeded =>
        let a2 := with_runtime a1 (rt_update (runtime a1)) in
        match flows a2 !! p with
        | None => (a2, [], Some Terminate)
        | Some f2 =>
            let '(o2, au2) := augment a2 (au_pkt au) (au_mods au) p f2 in
            andthen o2 (λ a3,
              match au_result au2 with
              | Ok i => finish_augment p (au_mods au2) i a3
              | Throw e => (a3, [], Some e)
              end)
        end
    | Throw e => (a1, [], Some e)
    end).

(** [preprocess]: an inspecting decision's handler sees the packet first. *)
Definition preprocess (f : flow handler) (pkt : P) (p : flow_ptr) : res bool :=
  match m_decision f with Inspect _ _ h => rt_inspect h pkt p | _ => Ok false end.

Definition handle_flow (a : app) (pi : packet_in_msg) (pkt : P) (p : flow_ptr) (f : flow handler) : outcome :=
  match m_state f with
  | Egg | Idle | Evicted => augment_flow a pkt p f
  | Expired => (a, [], Some AssertionFailure)
  | Active =>
      if isTableMiss a pi then activate a p
      else match process a pkt f with
           | Ok d => (update_flow a p (λ f, set_decision f d), [], None)
           | Throw e => (a, [], Some e)
           end
  end.

Definition processPacketIn (a : app) (pi : packet_in_msg) (pkt : P) (dpid : N) : outcome :=
  match rt_lookup (alive a) (runtime a) pkt with
  | Throw e => (a, [], Some e)
  | Ok found =>
      match (match found with
             | None => make_flow a
             | Some p =>
                 match flows a !! p with
                 | Some f => match m_state f with Expired => make_flow a | _ => Ok (a, p) end
                 | None => make_flow a
                 end
             end) with
      | Throw e => (a, [], Some e)
      | Ok (a1, p) =>
          match flows a1 !! p with
          | None => (a1, [], Some Terminate)
          | Some f =>
              match preprocess f pkt p with
              | Throw e => (a1, [], Some e)
              | Ok true => (a1, [], None)
              | Ok false =>
                  let f' := packet_in f dpid (pi_xid pi) (pi_buffer_id pi) (pi_in_port pi) (pi_data pi) in
                  handle_flow (set_flow a1 p f') pi pkt p f'
              end
          end
      end
  end.

(** ** Flow-removed messages *)

Definition processFlowRemoved (a : app) (cookie : N) (reason : removed_reason) : app :=
  match flows a !! cookie with
  | None => a
  | Some f =>
      let f' := flow_removed f reason in
      match m_state f' with
      | Expired => with_flows a (delete cookie (flows a))
      | _ => set_flow a cookie f'
      end
  end.

(** ** Runs *)

Inductive event : Type :=
| PacketIn (pi : packet_in_msg) (pkt : P) (dpid : N)
| FlowRemoved (cookie : N) (reason : removed_reason)
| SwitchUp (dpid : N)
| Register (name : string) (h : H)
| StartUp (names : list string).

Definition handle (a : app) (e : event) : outcome :=
  match e with
  | PacketIn pi pkt dpid => processPacketIn a pi pkt dpid
  | FlowRemoved cookie reason => (processFlowRemoved a cookie reason, [], None)
  | SwitchUp dpid => (onSwitchUp a dpid, [], None)
  | Register name h => (registerHandler a name h, [], None)
  | StartUp names => match startUp a names with Ok a' => (a', [], None) | Throw e => (a, [], Some e) end
  end.

(** Cookies of maple: the upper half. *)
Definition cookie_ok (c : N) : Prop := (FIRST_COOKIE ≤ c < 2 ^ 64)%N.

(** The connections' threads catch exceptions, and go on. *)
Inductive reachable : app → Prop :=
| reach_new rt table cookie never : cookie_ok cookie → reachable (new_app rt table cookie never)
| reach_event a e : reachable a → reachable (fst (fst (handle a e))).

(** ** The invariant *)

(** The cookie has been given out. *)
Definition issued (a : app) (c : N) : Prop :=
  cookie_ok c ∧ (c < next_cookie a ∨ next_cookie a < FIRST_COOKIE)%N.

Definition flow_inv (a : app) (p : flow_ptr) (f : flow handler) : Prop :=
  m_cookie f = p ∧ m_table f = handler_table a ∧ m_state f ≠ Expired ∧ flow_ok f ∧
  (m_state f = Active → is_Some (installers a !! p)).

Definition miss_inv (a : app) (f : flow handler) : Prop :=
  issued a (m_cookie f) ∧ flows a !! m_cookie f = None ∧ m_table f = handler_table a ∧ flow_ok f ∧ m_state f = Egg.

Record app_ok (a : app) : Prop := {
  ok_flows p f : flows a !! p = Some f → issued a p ∧ flow_inv a p f;
  ok_table : table (backend a) = handler_table a;
  ok_miss : miss_inv a (miss (backend a));
  ok_next : (next_cookie a < 2 ^ 64)%N
}.

(** What the run time and the handlers promise: their own failures. *)
Class RuntimeLaws : Prop := {
  lookup_quiet l rt pkt : quiet (rt_lookup l rt pkt);
  augment_quiet rt pkt mods f p : quiet (au_result (rt_augment rt pkt mods f p));
  inspect_quiet h pkt p : quiet (rt_inspect h pkt p);
  handle_quiet h pkt f d : quiet (rt_handle h pkt f d)
}.

(** Where a handler of a state may lead: a state in [S], messages of maple's
    and, if the laws hold, no failed assertion. *)
Definition leads (S : app → app → Prop) (a : app) (o : outcome) : Prop :=
  let '(a', ms, e) := o in
  app_ok a' ∧ handler_table a' = handler_table a ∧ S a a' ∧
  Forall (λ x, owned (handler_table a) cookie_ok (snd x)) ms ∧
  (RuntimeLaws → ∀ x, e = Some x → x ≠ AssertionFailure ∧ x ≠ BadFunctionCall).

Abbreviation anywhere := (λ _ _ : app, True).

(** The states of flows and the installers stay as they are. *)
Definition settled (a a' : app) : Prop :=
  installers a' = installers a ∧ ∀ p, m_state <$> flows a' !! p = m_state <$> flows a !! p.

Lemma settled_trans a b c : settled a b → settled b c → settled a c.
Proof. intros [H1 H2] [H3 H4]. split; [congruence |]. intros p. by rewrite H4. Qed.

Lemma leads_anywhere S a o : leads S a o → leads anywhere a o.
Proof. destruct o as [[a' ms] e]. intros (? & ? & ? & ? & ?). by split_and!. Qed.

Lemma leads_stay S a : app_ok a → S a a → leads S a (a, [], None).
Proof. intros Ha HS. split_and!; [done | done | done | by apply Forall_nil | done]. Qed.

Lemma leads_to (S : app → app → Prop) a a' :
  app_ok a' → handler_table a' = handler_table a → S a a' → leads S a (a', [], None).
Proof. intros. split_and!; [done | done | done | by apply Forall_nil | done]. Qed.

Lemma leads_throw (S : app → app → Prop) a a' e :
  app_ok a' → handler_table a' = handler_table a → S a a' →
  (RuntimeLaws → e ≠ AssertionFailure ∧ e ≠ BadFunctionCall) → leads S a (a', [], Some e).
Proof. intros ? ? ? He. split_and!; [done | done | done | by apply Forall_nil |]. by intros Hl x [= <-]; apply He. Qed.

(** Where a start is left out of account, one may start elsewhere. *)
Lemma leads_from a a' o : handler_table a' = handler_table a → leads anywhere a' o → leads anywhere a o.
Proof. intros Ht. destruct o as [[a2 ms] e]. unfold leads. rewrite Ht. done. Qed.

Lemma leads_andthen (S T U : app → app → Prop) a o k :
  leads S a o →
  (∀ a1, app_ok a1 → handler_table a1 = handler_table a → S a a1 → leads T a1 (k a1)) →
  (∀ a1, S a a1 → U a a1) → (∀ a1 a2, S a a1 → T a1 a2 → U a a2) →
  leads U a (andthen o k).
Proof.
  destruct o as [[a1 ms] [e|]]; intros (Ha1 & Ht & HS & Hm & He) Hk HU HT; cbn.
  - split_and!; auto.
  - specialize (Hk a1 Ha1 Ht HS). destruct (k a1) as [[a2 ms2] e2]. destruct Hk as (Ha2 & Ht2 & HT2 & Hm2 & He2).
    rewrite Ht in Hm2, Ht2. split_and!; [done | done | by eapply HT | by apply list.Forall_app | done].
Qed.

Lemma andthen_anywhere S a o k :
  leads S a o → (∀ a1, app_ok a1 → handler_table a1 = handler_table a → S a a1 → leads anywhere a1 (k a1)) →
  leads anywhere a (andthen o k).
Proof. intros Ho Hk. by eapply leads_andthen. Qed.

Lemma andthen_settled a o k :
  leads settled a o → (∀ a1, app_ok a1 → handler_table a1 = handler_table a → settled a a1 → leads settled a1 (k a1)) →
  leads settled a (andthen o k).
Proof. intros Ho Hk. eapply leads_andthen; [done | done | done |]. apply settled_trans. Qed.

(** *** Changing one flow *)

(** New flows under the cookies there are, each as it should be. *)
Lemma with_flows_ok a fs :
  app_ok a → (∀ p f, fs !! p = Some f → issued a p ∧ flow_inv a p f) → fs !! m_cookie (miss (backend a)) = None →
  app_ok (with_flows a fs).
Proof.
  intros [Hf Ht (H1 & H2 & H3) Hx] Hfs Hn. split; [done | done | | done]. by split_and!; [done | done | ..]; apply H3.
Qed.

Lemma set_flow_ok a p f f' :
  app_ok a → flows a !! p = Some f → (flow_inv a p f → flow_inv a p f') → app_ok (set_flow a p f').
Proof.
  intros Ha Hp Hf. destruct (ok_flows a Ha p f Hp) as [Hi Hinv]. destruct (ok_miss a Ha) as (_ & Hn & _).
  apply with_flows_ok; [done | |].
  - intros q g. destruct (decide (q = p)) as [-> |].
    + rewrite lookup_insert_eq. intros [= <-]. auto.
    + rewrite lookup_insert_ne by done. apply ok_flows, Ha.
  - destruct (decide (m_cookie (miss (backend a)) = p)) as [E |]; [congruence |]. by rewrite lookup_insert_ne.
Qed.

Lemma update_flow_leads (S : app → app → Prop) a p g :
  app_ok a → (∀ f, flows a !! p = Some f → flow_inv a p f → flow_inv a p (g f)) → S a (update_flow a p g) →
  leads S a (update_flow a p g, [], None).
Proof.
  intros Ha Hg HS. apply leads_to; [| | done]; unfold update_flow; destruct (flows a !! p) as [f|] eqn:E; try done.
  eapply set_flow_ok; [done | done | by apply Hg].
Qed.

Lemma update_flow_settled a p g : (∀ f, m_state (g f) = m_state f) → settled a (update_flow a p g).
Proof.
  intros Hg. unfold update_flow. destruct (flows a !! p) as [f|] eqn:E; [| done]. split; [done |]. intros q. cbn.
  destruct (decide (q = p)) as [-> |]; [rewrite lookup_insert_eq, E; cbn; by rewrite Hg | by rewrite lookup_insert_ne].
Qed.

Lemma update_flow_found a p g : is_Some (flows a !! p) → is_Some (flows (update_flow a p g) !! p).
Proof.
  unfold update_flow. intros [f E]. rewrite E. cbn. by rewrite lookup_insert_eq.
Qed.

Lemma set_decision_leads a p d : app_ok a → leads settled a (update_flow a p (λ f, set_decision f d), [], None).
Proof. intros Ha. apply update_flow_leads; [done | done |]. by apply update_flow_settled. Qed.

(** *** Calls of the backend *)

Lemma with_backend_ok a b fs :
  app_ok a → backend_kept (backend a) b → flows_kept (flows a) fs →
  app_ok (with_backend a b fs) ∧ settled a (with_backend a b fs).
Proof.
  intros [Hf Ht (M1 & M2 & M3 & M4 & M5) Hx] (_ & K1 & K2 & K3 & _ & K4 & K5 & _) Hk. split; [split |].
  - intros p f' E. cbn in E. specialize (Hk p). rewrite E in Hk. destruct (flows a !! p) as [f|] eqn:Ep; [| done].
    destruct (Hf p f Ep) as (Hi & I1 & I2 & I3 & I4 & I5). destruct Hk as [(S1 & _ & _ & _ & S5 & S6) Hok].
    split; [done |]. split_and!; [congruence | cbn; congruence | congruence | by apply Hok | rewrite S1; apply I5].
  - cbn. congruence.
  - split_and!; cbn; rewrite ?K2, ?K3; [done | | done | by apply K5 | congruence].
    specialize (Hk (m_cookie (miss (backend a)))). rewrite M2 in Hk. by destruct (fs !! _).
  - exact Hx.
  - split; [done |]. intros p. cbn. specialize (Hk p). destruct (flows a !! p), (fs !! p); try done.
    cbn. f_equal. apply Hk.
Qed.

Lemma app_calls_leads l : ∀ a, app_ok a → leads settled a (app_calls a l).
Proof.
  induction l as [|c l IH]; intros a Ha; cbn [app_calls]; [by apply leads_stay |].
  destruct (run_call hash fresh (backend a, flows a) c) as [[[b fs] ms] | e] eqn:E.
  - pose proof Ha as [Hf Ht (M1 & M2 & M3 & _) _].
    destruct (run_call_sends hash fresh _ _ _ _ _ _ cookie_ok E) as (Hk & Hfs & Hm).
    { congruence. } { apply M1. } { intros p f Ep. destruct (Hf p f Ep) as [[Hc _] (-> & -> & _)]. by rewrite Ht. }
    destruct (with_backend_ok a b fs Ha Hk Hfs) as [Ha' Hs]. specialize (IH _ Ha').
    destruct (app_calls (with_backend a b fs) l) as [[a2 ms2] e2]. destruct IH as (Ha2 & Ht2 & Hs2 & Hm2 & He2).
    split_and!; [done | done | by eapply settled_trans | | done].
    apply list.Forall_app. split; [by rewrite <- Ht | done].
  - apply leads_throw; [done | done | done |]. intros _. by eapply run_call_quiet.
Qed.

(** *** The handlers *)

Lemma activate_leads a p : app_ok a → is_Some (installers a !! p) → leads anywhere a (activate a p).
Proof.
  intros Ha [i Hi]. unfold activate. rewrite Hi. cbv zeta. set (a1 := update_flow a p (λ f, with_trigger f true)).
  destruct (update_flow_leads settled a p (λ f, with_trigger f true)) as (Ha1 & Ht1 & Hs1 & _);
    [done | done | by apply update_flow_settled |]. fold a1 in Ha1, Ht1, Hs1.
  apply leads_from with (a' := a1); [done |]. eapply andthen_anywhere; [by apply app_calls_leads |].
  intros a2 Ha2 _ [Hi2 _]. apply update_flow_leads; [done | | done].
  intros f _ (I1 & I2 & I3 & I4 & I5). split_and!; [done | done | by cbn; destruct (disposable f) | done |].
  intros _. rewrite Hi2. destruct Hs1 as [-> _]. by exists i.
Qed.

Lemma with_runtime_ok a rt : app_ok a → app_ok (with_runtime a rt).
Proof. by intros [? ? ? ?]; split. Qed.

Lemma augment_leads a pkt mods p f :
  app_ok a → leads settled a (fst (augment a pkt mods p f)).
Proof.
  intros Ha. cbn. set (au := rt_augment _ _ _ _ _). set (a0 := with_runtime a (au_rt au)).
  match goal with |- leads _ _ ?o => change (leads settled a0 o) end.
  apply andthen_settled; [apply app_calls_leads; by apply with_runtime_ok |]. intros a1 Ha1 _ _.
  destruct (au_decision au); [by apply set_decision_leads | by apply leads_stay].
Qed.

Lemma augment_result a pkt mods p f : RuntimeLaws → quiet (au_result (snd (augment a pkt mods p f))).
Proof. intros Hl. apply augment_quiet. Qed.

Lemma finish_augment_leads p mods i a :
  app_ok a → (∀ f, flows a !! p = Some f → m_state f ≠ Active) → leads anywhere a (finish_augment p mods i a).
Proof.
  intros Ha Hs. unfold finish_augment. destruct (flows a !! p) as [f|] eqn:Ep; [| by apply leads_throw].
  specialize (Hs f eq_refl). unfold set_mods.
  assert (Hn : match m_state f with Active => false | _ => true end = true) by (by destruct (m_state f)).
  rewrite Hn. cbn [require mbind res_bind]. set (f' := Flow _ _ _ _ _ _ _).
  apply leads_from with (a' := with_installer (set_flow a p f') p i); [done |]. apply activate_leads.
  - assert (Ha' : app_ok (set_flow a p f')) by (by eapply set_flow_ok).
    destruct Ha' as [Hf Ht Hm Hx]. split; [| done | done | done]. intros q g E. destruct (Hf q g E) as (Hi & I1 & I2 & I3 & I4 & I5).
    split; [done |]. split_and!; [done | done | done | done |]. intros Hact. cbn.
    destruct (decide (q = p)) as [-> |]; [by rewrite lookup_insert_eq | rewrite lookup_insert_ne by done; by apply I5].
  - cbn. by rewrite lookup_insert_eq.
Qed.

Lemma settled_state a a' p f :
  settled a a' → flows a' !! p = Some f → ∃ f0, flows a !! p = Some f0 ∧ m_state f0 = m_state f.
Proof.
  intros [_ Hs] E. specialize (Hs p). rewrite E in Hs. destruct (flows a !! p) as [f0|]; [| done].
  exists f0. split; [done |]. by injection Hs.
Qed.

Lemma augment_flow_leads a pkt p f :
  app_ok a → (∀ f, flows a !! p = Some f → m_state f ≠ Active) → leads anywhere a (augment_flow a pkt p f).
Proof.
  intros Ha Hs. unfold augment_flow. pose proof (augment_leads a pkt ∅ p f Ha) as Hau.
  pose proof (augment_result a pkt ∅ p f) as Hq. destruct (augment a pkt ∅ p f) as [o au]. cbn in Hau, Hq.
  apply andthen_anywhere with settled; [done |]. intros a1 Ha1 _ Hs1.
  assert (Hn1 : ∀ f, flows a1 !! p = Some f → m_state f ≠ Active).
  { intros f1 E1. destruct (settled_state a a1 p f1 Hs1 E1) as (f0 & E0 & <-). by apply Hs. }
  destruct (au_result au) as [i | e]; [by apply finish_augment_leads |].
  destruct e; try (apply leads_throw; [done | done | done |]; intros Hl; by apply (Hq Hl)).
  cbv zeta. set (a2 := with_runtime a1 _). assert (Ha2 : app_ok a2) by (by apply with_runtime_ok).
  apply leads_from with (a' := a2); [done |]. destruct (flows a2 !! p) as [f2|] eqn:E2; [| by apply leads_throw].
  pose proof (augment_leads a2 (au_pkt au) (au_mods au) p f2 Ha2) as Hau2.
  pose proof (augment_result a2 (au_pkt au) (au_mods au) p f2) as Hq2.
  destruct (augment a2 (au_pkt au) (au_mods au) p f2) as [o2 au2]. cbn in Hau2, Hq2.
  apply andthen_anywhere with settled; [done |]. intros a3 Ha3 _ Hs3. destruct (au_result au2) as [i | e].
  - apply finish_augment_leads; [done |]. intros f3 E3.
    destruct (settled_state a2 a3 p f3 Hs3 E3) as (f0 & E0 & <-). by apply Hn1.
  - apply leads_throw; [done | done | done |]. intros Hl. by apply (Hq2 Hl).
Qed.

Lemma process_quiet (laws : RuntimeLaws) l pkt f : ∀ d, quiet (process_from l pkt f d).
Proof.
  induction l as [|[name h] l IH]; intros d; cbn [process_from]; [quiet |].
  apply quiet_bind; [apply handle_quiet |]. intros d' _. destruct (return_ (base_of d')); [quiet | apply IH].
Qed.

Lemma handle_flow_leads a pi pkt p f :
  app_ok a → flows a !! p = Some f → leads anywhere a (handle_flow a pi pkt p f).
Proof.
  intros Ha Ep. destruct (ok_flows a Ha p f Ep) as (_ & _ & _ & Hx & _ & Hi).
  assert (Hg : m_state f ≠ Active → leads anywhere a (augment_flow a pkt p f)).
  { intros Hs. apply augment_flow_leads; [done |]. intros f' E'. rewrite Ep in E'. by injection E' as <-. }
  unfold handle_flow. destruct (m_state f); try done; try (by apply Hg).
  destruct (isTableMiss a pi); [by apply activate_leads; [| apply Hi] |].
  destruct (process a pkt f) as [d | e] eqn:E.
  - by apply leads_anywhere with settled, set_decision_leads.
  - apply leads_throw; [done | done | done |]. intros Hl. by apply (process_quiet Hl _ _ _ _ _ E).
Qed.

(** Counting on keeps what was given out, and gives this one out. *)
Lemma following_issued c q :
  cookie_ok c → cookie_ok q → (q ≤ c)%N → (q < following c ∨ following c < FIRST_COOKIE)%N.
Proof.
  unfold cookie_ok, following. intros [Hc Hlt] _ Hq.
  destruct (decide (c + 1 < 2 ^ 64)%N) as [Hs | Hs]; [left; rewrite N.mod_small by done; lia |].
  right. assert (c = 2 ^ 64 - 1)%N as -> by lia. done.
Qed.

Lemma following_small c : (following c < 2 ^ 64)%N.
Proof. by apply N.mod_lt. Qed.

Lemma make_flow_ok a a1 p :
  app_ok a → make_flow a = Ok (a1, p) → app_ok a1 ∧ handler_table a1 = handler_table a ∧ is_Some (flows a1 !! p).
Proof.
  intros [Hf Ht (M1 & M2 & M3 & M4 & M5) Hnx] E. unfold make_flow in E.
  apply res_bind_Ok in E as (u & Hc & E). injection E as <- <-.
  apply require_Ok, N.leb_le in Hc. set (c := next_cookie a) in *.
  assert (Hck : cookie_ok c) by done.
  assert (Hlt : ∀ q, issued a q → cookie_ok q ∧ (q < c)%N).
  { intros q [Hq Hn]. split; [done |]. fold c in Hn. lia. }
  assert (Hnew : ∀ q, issued a q → cookie_ok q ∧ (q < following c ∨ following c < FIRST_COOKIE)%N).
  { intros q Hq. destruct (Hlt q Hq). split; [done |]. apply following_issued; [done | done | lia]. }
  split_and!; [split | done | cbn; by rewrite lookup_insert_eq].
  - intros q f E. cbn in E. destruct (decide (q = c)) as [-> |].
    + rewrite lookup_insert_eq in E. injection E as <-. split; [split; [done |]; by apply following_issued |].
      split_and!; [done | done | done | | done]. intros d s'. cbn. by rewrite lookup_empty.
    + rewrite lookup_insert_ne in E by done. destruct (Hf q f E) as [Hi Hinv]. split; [by apply Hnew | done].
  - done.
  - split_and!; [by apply Hnew | | done | done | done]. cbn. destruct (Hlt _ M1). by rewrite lookup_insert_ne by lia.
  - apply following_small.
Qed.

Lemma make_flow_quiet a : quiet (make_flow a).
Proof. unfold make_flow. quiet. Qed.

Lemma packet_in_inv a p f dpid xid buffer port data :
  flow_inv a p f → flow_inv a p (packet_in f dpid xid buffer port data).
Proof.
  intros (I1 & I2 & I3 & I4 & I5). split_and!; try done. apply flow_ok_with_switch; [done | by left].
Qed.

Lemma packet_in_leads a pi pkt dpid : app_ok a → leads anywhere a (processPacketIn a pi pkt dpid).
Proof.
  intros Ha. unfold processPacketIn.
  destruct (rt_lookup (alive a) (runtime a) pkt) as [found | e] eqn:El.
  2: { apply leads_throw; [done | done | done |]. intros Hl. by apply (lookup_quiet _ _ _ _ El). }
  assert (Hmade : ∀ e, make_flow a = Throw e → leads anywhere a (a, [], Some e)).
  { intros e E. apply leads_throw; [done | done | done |]. intros _. by apply (make_flow_quiet a). }
  match goal with |- leads _ _ (match ?g with _ => _ end) =>
    assert (Hg : match g with
                 | Ok (a1, p) => app_ok a1 ∧ handler_table a1 = handler_table a ∧ is_Some (flows a1 !! p)
                 | Throw e => leads anywhere a (a, [], Some e)
                 end); [| destruct g as [[a1 p] | e]; [| done]]
  end.
  { assert (Hnew : match make_flow a with
                   | Ok (a1, p) => app_ok a1 ∧ handler_table a1 = handler_table a ∧ is_Some (flows a1 !! p)
                   | Throw e => leads anywhere a (a, [], Some e)
                   end) by (destruct (make_flow a) as [[a1 p] | e] eqn:E; [by apply make_flow_ok | by apply Hmade]).
    destruct found as [p|]; [| done]. destruct (flows a !! p) as [f|] eqn:Ep; [| done].
    destruct (m_state f); by rewrite ?Ep. }
  destruct Hg as (Ha1 & Ht1 & f & Ef). rewrite Ef. apply leads_from with (a' := a1); [done |].
  destruct (preprocess f pkt p) as [b | e] eqn:Eb.
  - destruct b; [by apply leads_stay |]. set (f' := packet_in _ _ _ _ _ _).
    apply leads_from with (a' := set_flow a1 p f'); [done |]. apply handle_flow_leads; [| cbn; apply lookup_insert_eq].
    eapply set_flow_ok; [done | done |]. apply packet_in_inv.
  - apply leads_throw; [done | done | done |]. intros Hl. unfold preprocess in Eb.
    destruct (m_decision f); try done. by apply (inspect_quiet _ _ _ _ Eb).
Qed.

Lemma flow_removed_ok a cookie reason : app_ok a → app_ok (processFlowRemoved a cookie reason).
Proof.
  intros Ha. unfold processFlowRemoved. destruct (flows a !! cookie) as [f|] eqn:E; [| done]. cbv zeta.
  assert (Hset : m_state (flow_removed f reason) ≠ Expired → app_ok (set_flow a cookie (flow_removed f reason))).
  { intros Hx. eapply set_flow_ok; [done | done |]. intros (I1 & I2 & I3 & I4 & I5).
    by destruct reason; split_and!. }
  destruct (m_state (flow_removed f reason)); try by apply Hset.
  apply with_flows_ok; [done | |].
  - intros p g Eg. apply lookup_delete_Some in Eg as [_ Eg]. by apply ok_flows.
  - destruct (ok_miss a Ha) as (_ & Hn & _). by apply lookup_delete_None; right.
Qed.

Lemma handle_leads a e : app_ok a → leads anywhere a (handle a e).
Proof.
  intros Ha. destruct e as [pi pkt dpid | cookie reason | dpid | name h | names]; cbn [handle].
  - by apply packet_in_leads.
  - apply leads_to; [by apply flow_removed_ok | | done]. unfold processFlowRemoved.
    destruct (flows a !! cookie) as [f|]; [cbn; by destruct (m_state (flow_removed f reason)) | done].
  - apply leads_to; [| done | done]. by destruct Ha.
  - unfold registerHandler. destruct (started a); [by apply leads_stay |]. apply leads_to; [| done | done]. by destruct Ha.
  - destruct (startUp a names) as [a' | x] eqn:E.
    + unfold startUp in E. apply res_bind_Ok in E as (l & _ & E). injection E as <-.
      apply leads_to; [| done | done]. by destruct Ha.
    + apply leads_throw; [done | done | done |]. intros _. revert E. unfold startUp.
      assert (Hq : quiet (find_handlers (handlers a) names)).
      { clear. induction names as [|name names IH]; cbn [find_handlers]; quiet. }
      destruct (find_handlers (handlers a) names) as [l | y]; cbn; [done |]. intros [= <-]. by apply Hq.
Qed.

Lemma new_app_ok rt table cookie never : cookie_ok cookie → app_ok (new_app rt table cookie never).
Proof.
  intros Hc. split; [by intros p f; cbn; rewrite lookup_empty | done | | apply following_small].
  split_and!; [| by cbn; rewrite lookup_empty | done | by intros d s; cbn; rewrite lookup_empty | done].
  split; [done |]. by apply following_issued.
Qed.

Lemma reachable_ok a : reachable a → app_ok a.
Proof.
  induction 1 as [| a e _ IH]; [by apply new_app_ok |].
  pose proof (handle_leads a e IH) as Hl. destruct (handle a e) as [[a' ms] x]. by destruct Hl.
Qed.

(** ** Properties *)

(** C8: in every state the application reaches, by any packet-ins, removals of
    flows, switches and registrations, exceptions included: each flow is filed
    under its own cookie, which is one of maple's and was given out before; it
    is in maple's table, never expired, each of its switches waits for an
    answer or has none due, and if it is active it has an installer; the miss
    flow is none of them. *)
Theorem app_invariant a :
  reachable a →
  (∀ p f, flows a !! p = Some f →
     m_cookie f = p ∧ cookie_ok p ∧ (p < next_cookie a ∨ next_cookie a < FIRST_COOKIE)%N ∧
     m_table f = handler_table a ∧ m_state f ≠ Expired ∧
     (∀ d s, m_switches f !! d = Some s → waiting s = true ∨ calm s) ∧
     (m_state f = Active → is_Some (installers a !! p))) ∧
  flows a !! m_cookie (miss (backend a)) = None ∧ m_state (miss (backend a)) = Egg.
Proof.
  intros Hr. destruct (reachable_ok a Hr) as [Hf _ (_ & Hn & _ & _ & He) _]. split; [| done].
  intros p f E. destruct (Hf p f E) as ([Hc Hnx] & I1 & I2 & I3 & I4 & I5). by split_and!.
Qed.

(** C9: whatever happens next in a reachable state, every message that is sent
    is maple's own business: rules are added to its table with cookies from its
    space, and deletions are limited to that table and that space.  And if the
    run time and the handlers fail no assertion and call no empty function,
    the application does neither: the expired case, the assertions of flows and
    the call of an empty installer are out of reach. *)
Theorem handle_safe a e :
  reachable a →
  let '(_, ms, x) := handle a e in
  Forall (λ y, owned (handler_table a) cookie_ok (snd y)) ms ∧
  (RuntimeLaws → x ≠ Some AssertionFailure ∧ x ≠ Some BadFunctionCall).
Proof.
  intros Hr. pose proof (handle_leads a e (reachable_ok a Hr)) as Hl. destruct (handle a e) as [[a' ms] x].
  destruct Hl as (_ & _ & _ & Hm & Hq). split; [done |]. intros laws.
  split; intros ->; by destruct (Hq laws _ eq_refl).
Qed.
End App.
Arguments app R handler H : clear implicits.

(** ** Witnesses *)

(** A run time with one flow, installed everywhere. *)
#[local] Instance one_flow : RuntimeOps unit (option flow_ptr) unit unit := {
  rt_lookup alive rt _ := Ok (match rt with Some p => if alive p then Some p else None | None => None end);
  rt_augment rt pkt mods f p :=
    Augmentation (Some p) [] (Some (Unicast default_base 3)) pkt mods (Ok (Installer (root, []) full_empty));
  rt_update rt := rt;
  rt_install _ rt _ := match rt with Some p => [CInstall 10 full_empty p] | None => [] end;
  rt_inspect _ _ _ := Ok false;
  rt_handle _ _ _ d := Ok d
}.

#[local] Instance one_flow_laws : RuntimeLaws (P := unit).
Proof. by split. Qed.

Definition no_hash : full_field_set → N → N := λ _ _, 0%N.
Definition a_packet_in : event (P := unit) (H := unit) := PacketIn (PacketInMsg OFPR_NO_MATCH 0 4 5 2 None) tt 1.

Definition sample_app : app (option flow_ptr) unit unit :=
  fst (fst (handle no_hash 0 (fst (fst (handle no_hash 0 (new_app None 2 FIRST_COOKIE tt) (SwitchUp 1)))) a_packet_in)).

Lemma sample_app_reachable : reachable no_hash 0 sample_app.
Proof. by repeat apply reach_event; apply reach_new. Qed.

(** The flow is active, and another packet-in sends its rule again. *)
Lemma app_invariant_witness :
  ∃ f, flows sample_app !! (FIRST_COOKIE + 1)%N = Some f ∧ m_state f = Active ∧
    is_Some (installers sample_app !! (FIRST_COOKIE + 1)%N).
Proof.
  destruct (app_invariant no_hash 0 sample_app sample_app_reachable) as [Hf _].
  destruct (flows sample_app !! (FIRST_COOKIE + 1)%N) as [f|] eqn:E; [| by vm_compute in E].
  exists f. destruct (Hf _ f E) as (_ & _ & _ & _ & _ & _ & Hi).
  assert (Hs : m_state f = Active) by (vm_compute in E; by injection E as <-).
  split_and!; [done | done | by apply Hi].
Defined.

Lemma handle_safe_witness :
  let '(_, ms, x) := handle no_hash 0 sample_app a_packet_in in
  length ms = 1%nat ∧ Forall (λ y, owned 2 cookie_ok (snd y)) ms ∧ x ≠ Some AssertionFailure.
Proof.
  pose proof (handle_safe no_hash 0 sample_app a_packet_in sample_app_reachable) as Hs.
  destruct (handle no_hash 0 sample_app a_packet_in) as [[a' ms] x] eqn:E.
  destruct Hs as [Hm Hx]. split_and!; [| exact Hm | by apply Hx, one_flow_laws].
  assert (El : length (snd (fst (handle no_hash 0 sample_app a_packet_in))) = 1%nat) by by vm_compute.
  by rewrite E in El.
Defined.
