(* ===== verification/PacketSim.v ===== *)
(** * PacketSim: packets that behave alike

    A relation between two kinds of packets that the operations of the packet
    interface preserve ([Simulation]) is preserved by the proxies over them,
    by every run of a function on them, and by tracing: what a function does on
    a packet and the trace of it are those of any packet it simulates. *)

From S2P Require Import Prelude Bits Oxm FieldSet Packet Policy Valuation Tracer.

(** Two outcomes: the same answer, which is in [A], and related packets; or the
    same exception. *)
Definition agree {X P Q : Type} (A : X → Prop) (R : P → Q → Prop) (r : res (X * P)) (s : res (X * Q)) : Prop :=
  match r, s with
  | Ok (x, p), Ok (y, q) => x = y ∧ A x ∧ R p q
  | Throw e, Throw e' => e = e'
  | _, _ => False
  end.

Definition agree_packet {P Q : Type} (R : P → Q → Prop) (r : res P) (s : res Q) : Prop :=
  match r, s with
  | Ok p, Ok q => R p q
  | Throw e, Throw e' => e = e'
  | _, _ => False
  end.

(** A field as a load with a mask returns it. *)
Definition loaded (m : mask) (f : field) : Prop := rfield_wf f ∧ mask_of f = m.
Definition any {X : Type} (x : X) : Prop := True.

Class Simulation {P Q : Type} `{PacketOps P} `{PacketOps Q} (R : P → Q → Prop) : Prop := {
  sim_load p q m : R p q → rmask_wf m → agree (loaded m) R (pkt_load p m) (pkt_load q m);
  sim_test p q f : R p q → rfield_wf f → agree any R (pkt_test p f) (pkt_test q f);
  sim_modify p q f : R p q → rfield_wf f → agree_packet R (pkt_modify p f) (pkt_modify q f)
}.

(** The next step of two equal chains. *)
Ltac agree_step :=
  match goal with
  | |- agree _ _ (?m ≫= _) (?m ≫= _) => destruct m as [?|?]; cbn [mbind res_bind]; [| done]
  | |- agree_packet _ (?m ≫= _) (?m ≫= _) => destruct m as [?|?]; cbn [mbind res_bind]; [| done]
  | |- agree _ _ (if ?b then _ else _) (if ?b then _ else _) => destruct b
  end.

Section Lifting.
Context {P Q : Type} `{PacketOps P} `{PacketOps Q} (R : P → Q → Prop) `{!Simulation R}.

(** *** The proxies *)

Definition mt_related (p : mod_tracking P) (q : mod_tracking Q) : Prop :=
  R (mt_pkt p) (mt_pkt q) ∧ mt_mods p = mt_mods q.

#[export] Instance mt_simulation : Simulation mt_related.
Proof.
  split; intros [p mp] [q mq] x [HR Em] Hx; cbn in HR, Em; subst mq.
  - pose proof (sim_load p q x HR Hx) as Hl. cbn. unfold mt_load. cbn.
    destruct (pkt_load p x) as [[f p']|], (pkt_load q x) as [[g q']|]; cbn in Hl |- *; try done.
    by destruct Hl as (-> & ? & ?).
  - pose proof (sim_test p q x HR Hx) as Hl. cbn. unfold mt_test. cbn.
    destruct (pkt_test p x) as [[f p']|], (pkt_test q x) as [[g q']|]; cbn in Hl |- *; try done.
    by destruct Hl as (-> & ? & ?).
  - pose proof (sim_modify p q x HR Hx) as Hl. cbn. unfold mt_modify. cbn.
    destruct (pkt_modify p x) as [p'|], (pkt_modify q x) as [q'|]; cbn in Hl |- *; try done.
    by agree_step.
Qed.

Context {T : Type} `{TracerOps T}.

Definition tp_related (p : traceable P T) (q : traceable Q T) : Prop :=
  R (tp_pkt p) (tp_pkt q) ∧ tp_tracer p = tp_tracer q ∧ tp_cache p = tp_cache q.

#[export] Instance tp_simulation : Simulation tp_related.
Proof.
  split; intros [p tp cp] [q tq cq] x (HR & Et & Ec) Hx; cbn in HR, Et, Ec; subst tq cq.
  - pose proof (sim_load p q x HR Hx) as Hl. cbn. unfold tp_load. cbn.
    destruct (pkt_load p x) as [[f p']|], (pkt_load q x) as [[g q']|]; cbn in Hl |- *; try done.
    destruct Hl as (-> & Hg & HR'). by repeat agree_step.
  - pose proof (sim_load p q (mask_of x) HR (mask_of_wf x Hx)) as Hl. cbn. unfold tp_test. cbn.
    destruct (pkt_load p (mask_of x)) as [[f p']|], (pkt_load q (mask_of x)) as [[g q']|]; cbn in Hl |- *; try done.
    destruct Hl as (-> & Hg & HR'). by repeat agree_step.
  - pose proof (sim_modify p q x HR Hx) as Hl. cbn. unfold tp_modify. cbn.
    destruct (pkt_modify p x) as [p'|], (pkt_modify q x) as [q'|]; cbn in Hl |- *; try done.
    by agree_step.
Qed.

(** *** Functions *)

Lemma sim_run h : ∀ p q, handler_wf h → R p q → agree any R (run h p) (run h q).
Proof.
  induction h as [pol | m k IH | f k IH | f k IH]; intros p q Hh HR; cbn [run].
  - done.
  - destruct Hh as [Hm Hk]. pose proof (sim_load p q m HR Hm) as Hl.
    destruct (pkt_load p m) as [[f p']|], (pkt_load q m) as [[g q']|]; cbn in Hl |- *; try done.
    destruct Hl as (-> & [Hg Em] & HR'). by apply IH; [apply Hk |].
  - destruct Hh as [Hf Hk]. pose proof (sim_test p q f HR Hf) as Hl.
    destruct (pkt_test p f) as [[b p']|], (pkt_test q f) as [[c q']|]; cbn in Hl |- *; try done.
    destruct Hl as (-> & _ & HR'). by apply IH.
  - destruct Hh as [Hf Hk]. pose proof (sim_modify p q f HR Hf) as Hl.
    destruct (pkt_modify p f) as [p'|], (pkt_modify q f) as [q'|]; cbn in Hl |- *; try done. by apply IH.
Qed.
End Lifting.

(** Tracing does not tell the packets apart. *)
Lemma sim_run_tracer {P Q} `{PacketOps P} `{PacketOps Q} (R : P → Q → Prop) `{!Simulation R} h (p : P) (q : Q) :
  handler_wf h → R p q → run_tracer h p = run_tracer h q.
Proof.
  intros Hh HR. unfold run_tracer.
  pose proof (sim_run (mt_related (tp_related R (T := trace))) h (traced_start p) (traced_start q) Hh
    ltac:(by split)) as Hr.
  destruct (run h (traced_start p)) as [[pol s]|], (run h (traced_start q)) as [[pol' s']|]; cbn in Hr |- *;
    try done; [| by rewrite Hr].
  destruct Hr as (-> & _ & (_ & Et & _) & Em). by rewrite Et, Em.
Qed.
