(* ===== verification/PacketParser.v ===== *)
(** * PacketParser: a packet in a buffer, PacketParser.hh and .cc,
    types/packet_headers.hh

    The parser binds field types to addresses: of the headers it finds in the
    buffer of a packet-in, and of three members of its own.  Loading reads the
    bits at the address, modifying writes them back.  Memory is a byte at every
    address; the buffer and the object lie somewhere in it.  What the parser
    does is what the packet interface promises ([parser_refines]), as long as
    no two of its fields overlap, and the constructor makes such parsers of
    packets with a whole IPv4 header ([constructed_ok]). *)

From S2P Require Import Prelude Bits Oxm FieldSet Packet Policy Valuation Tracer PacketSim.

(** ** Reading headers *)

(** The bytes of a number of bits. *)
Definition bytes (n : N) : Z := Z.of_N (num_blocks n).

(** [big_uint<n>_t]: the bytes at an address, the highest first. *)
Definition big_uint (n : N) (mem : memory) (a : Z) : N :=
  blocks_val ((λ k, mem (a + bytes n - 1 - Z.of_nat k)%Z) <$> seq 0 (N.to_nat (num_blocks n))).

(** Sizes of the headers. *)
Definition sizeof_ethernet_hdr : Z := 14.
Definition sizeof_dot1q_hdr : Z := 18.
Definition sizeof_ipv4_hdr : Z := 20.
Definition sizeof_ipv6_hdr : Z := 40.
Definition sizeof_arp_hdr : Z := 28.
Definition sizeof_tcp_hdr : Z := 20.
Definition sizeof_udp_hdr : Z := 8.
Definition sizeof_icmp_hdr : Z := 4.

(** [ipv4_hdr::header_length]: four times the low half of the first byte. *)
Definition ipv4_header_length (mem : memory) (a : Z) : Z := (4 * Z.of_N (N.land (mem a) 15))%Z.

(** ** Bindings *)

Abbreviation bindings := (gmap key Z).

(** [bind]: each type once. *)
Fixpoint bind (new : list (otype * Z)) (b : bindings) : res bindings :=
  match new with
  | [] => Ok b
  | (t, a) :: new =>
      _ ← require (bool_decide (b !! tkey t = None)) InvalidArgument;
      bind new (<[tkey t := a]> b)
  end.

(** [rebind]: each type again. *)
Fixpoint rebind (new : list (otype * Z)) (b : bindings) : res bindings :=
  match new with
  | [] => Ok b
  | (t, a) :: new =>
      _ ← require (bool_decide (is_Some (b !! tkey t))) InvalidArgument;
      rebind new (<[tkey t := a]> b)
  end.

(** The fields of the headers, with their offsets. *)
Definition ethernet_fields : list (otype * Z) := [(eth_type, 12); (eth_src, 6); (eth_dst, 0)]%Z.
Definition dot1q_fields : list (otype * Z) := [(eth_type, 16); (eth_src, 6); (eth_dst, 0); (vlan_vid, 14)]%Z.
Definition ipv4_fields : list (otype * Z) := [(ip_proto, 9); (ipv4_src, 12); (ipv4_dst, 16)]%Z.
Definition arp_fields : list (otype * Z) :=
  [(arp_op, 6); (arp_sha, 8); (arp_tha, 18); (arp_spa, 14); (arp_tpa, 24)]%Z.
Definition ipv6_fields : list (otype * Z) := [(ipv6_src, 8); (ipv6_dst, 24); (ip_proto, 6)]%Z.
Definition tcp_fields : list (otype * Z) := [(tcp_src, 0); (tcp_dst, 2)]%Z.
Definition udp_fields : list (otype * Z) := [(udp_src, 0); (udp_dst, 2)]%Z.
Definition icmp_fields : list (otype * Z) := [(icmp_type, 0); (icmp_code, 1)]%Z.

(** A header at an address. *)
Definition at_address (a : Z) (l : list (otype * Z)) : list (otype * Z) := map (λ x, (fst x, a + snd x)%Z) l.

(** ** Parsing *)

Definition parse_l4 (mem : memory) (protocol : N) (a len : Z) (b : bindings) : res bindings :=
  if (protocol =? 0x06)%N then if (sizeof_tcp_hdr <=? len)%Z then bind (at_address a tcp_fields) b else Ok b
  else if (protocol =? 0x11)%N then if (sizeof_udp_hdr <=? len)%Z then bind (at_address a udp_fields) b else Ok b
  else if (protocol =? 0x01)%N then if (sizeof_icmp_hdr <=? len)%Z then bind (at_address a icmp_fields) b else Ok b
  else Ok b.

Definition arp_known (mem : memory) (a : Z) : bool :=
  (big_uint 16 mem a =? 1)%N && (big_uint 16 mem (a + 2) =? 0x0800)%N &&
  (mem (a + 4)%Z =? 6)%N && (mem (a + 5)%Z =? 4)%N.

(** The pointer to the IPv6 header is followed whether it was set or not. *)
Definition parse_l3 (mem : memory) (type : N) (a len : Z) (b : bindings) : res bindings :=
  if (type =? 0x0800)%N then
    if (sizeof_ipv4_hdr <=? len)%Z then
      b' ← bind (at_address a ipv4_fields) b;
      let hl := ipv4_header_length mem a in
      if (hl <? len)%Z then parse_l4 mem (mem (a + 9)%Z) (a + hl) (len - hl) b' else Ok b'
    else Ok b
  else if (type =? 0x0806)%N then
    if (sizeof_arp_hdr <=? len)%Z then if arp_known mem a then bind (at_address a arp_fields) b else Ok b else Ok b
  else if (type =? 0x86dd)%N then
    if (sizeof_ipv6_hdr <=? len)%Z then
      b' ← bind (at_address a ipv6_fields) b;
      if (sizeof_ipv6_hdr <? len)%Z
      then parse_l4 mem (mem (a + 6)%Z) (a + sizeof_ipv6_hdr) (len - sizeof_ipv6_hdr) b'
      else Ok b'
    else Throw NullptrDereference
  else Ok b.

Definition parse_l2 (mem : memory) (a len : Z) (b : bindings) : res bindings :=
  if (sizeof_ethernet_hdr <=? len)%Z then
    if (big_uint 16 mem (a + 12) =? 0x8100)%N then
      if (sizeof_dot1q_hdr <=? len)%Z then
        b' ← bind (at_address a dot1q_fields) b;
        parse_l3 mem (big_uint 16 mem (a + 16)) (a + sizeof_dot1q_hdr) (len - sizeof_dot1q_hdr) b'
      else parse_l3 mem 0 a len b
    else
      b' ← bind (at_address a ethernet_fields) b;
      parse_l3 mem (big_uint 16 mem (a + 12)) (a + sizeof_ethernet_hdr) (len - sizeof_ethernet_hdr) b'
  else Ok b.

(** ** The parser *)

Record parser : Type := Parser {
  memory_of : memory;
  this : Z;                  (** where the object is *)
  data : option Z;           (** the buffer, if there is one *)
  data_len : Z;
  bound : bindings           (** both arrays: the keys hold the namespace *)
}.

(** Where the members are: behind the pointer to the virtual functions, [data]
    and [data_len], of eight bytes each. *)
Definition in_port_at (this : Z) : Z := (this + 24)%Z.
Definition out_port_at (this : Z) : Z := (this + 28)%Z.
Definition switch_id_at (this : Z) : Z := (this + 32)%Z.

Definition member_fields : list (otype * Z) := [(in_port, 24); (switch_id, 32); (out_port, 28)]%Z.

(** The members are initialised in the order of their declarations. *)
Definition store_members (mem : memory) (this : Z) (port dpid out : N) : memory :=
  let mem1 := mem_write mem (in_port_at this) (to_buffer (bits_of_ull 32 port)) in
  let mem2 := mem_write mem1 (out_port_at this) (to_buffer (bits_of_ull 32 out)) in
  mem_write mem2 (switch_id_at this) (to_buffer (bits_of_ull 64 dpid)).

(** [PacketParser(pi, from_dpid, out_port)] *)
Definition new_parser (mem : memory) (this : Z) (data : option Z) (data_len : Z) (port dpid out : N) : res parser :=
  let mem' := store_members mem this port dpid out in
  b ← bind (at_address this member_fields) ∅;
  b' ← (match data with Some a => parse_l2 mem' a data_len b | None => Ok b end);
  Ok (Parser mem' this data data_len b').

Definition access (p : parser) (t : otype) : res Z :=
  match bound p !! tkey t with Some a => Ok a | None => Throw OutOfRange end.

Definition parser_load (p : parser) (m : mask) : res field :=
  a ← access p (m_type m);
  v ← mk_value (m_type m) (from_buffer (nbits (m_type m)) (memory_of p) a);
  value_and_mask v m.

Definition with_memory (p : parser) (mem : memory) : parser :=
  Parser mem (this p) (data p) (data_len p) (bound p).

Definition parser_modify (p : parser) (patch : field) : res parser :=
  m ← mask_exact (f_type patch);
  old ← parser_load p m;
  updated ← field_rewrite_field old patch;
  a ← access p (f_type patch);
  Ok (with_memory p (mem_write (memory_of p) a (to_buffer (fvalue_bits updated)))).

Definition total_bytes (p : parser) : Z := data_len p.

(** [memmove] to another buffer of the memory. *)
Definition read_bytes (mem : memory) (a : Z) (n : Z) : list N :=
  (λ k, mem (a + Z.of_nat k)%Z) <$> seq 0 (Z.to_nat n).

Definition serialize_to (p : parser) (buffer_size buffer : Z) : memory * Z :=
  let copied := Z.min (data_len p) buffer_size in
  (match data p with
   | Some a => mem_write (memory_of p) buffer (read_bytes (memory_of p) a copied)
   | None => memory_of p
   end, copied).

(** [clone]: a parser of a copy of the buffer, at addresses the allocator
    gives. *)
Definition clone (p : parser) (this' buffer : Z) : res parser :=
  let mem := memory_of p in
  let mem' := match data p with
              | Some a => mem_write mem buffer (read_bytes mem a (data_len p))
              | None => mem
              end in
  new_parser mem' this' (const buffer <$> data p) (data_len p)
    (big_uint 32 mem (in_port_at (this p))) (big_uint 64 mem (switch_id_at (this p)))
    (big_uint 32 mem (out_port_at (this p))).

(** ** What a parser stands for *)

Definition byte_memory (mem : memory) : Prop := ∀ a, mem a ⊑b 255%N.

Definition read_at (mem : memory) (t : otype) (a : Z) : N := bval (from_buffer (nbits t) mem a).

#[global] Arguments read_at : simpl never.

(** The values of the bound types. *)
Definition packet_of (p : parser) : vpacket :=
  list_to_map (omap (λ t, pair (tkey t) <$> (read_at (memory_of p) t <$> bound p !! tkey t)) registry).

#[global] Arguments packet_of : simpl never.

(** Two fields that share no byte. *)
Definition apart (t1 : otype) (a1 : Z) (t2 : otype) (a2 : Z) : Prop :=
  (a1 + bytes (nbits t1) ≤ a2 ∨ a2 + bytes (nbits t2) ≤ a1)%Z.

Definition separated (b : bindings) : Prop :=
  ∀ t1 t2 a1 a2, registered t1 = true → registered t2 = true → tkey t1 ≠ tkey t2 →
    b !! tkey t1 = Some a1 → b !! tkey t2 = Some a2 → apart t1 a1 t2 a2.

Definition parser_ok (p : parser) : Prop := byte_memory (memory_of p) ∧ separated (bound p).

Lemma registry_lookup {A} (f : otype → option A) (l : list otype) t :
  t ∈ l → (∀ u, u ∈ l → tkey u = tkey t → u = t) →
  (list_to_map (omap (λ t, pair (tkey t) <$> f t) l) : gmap key A) !! tkey t = f t.
Proof.
  induction l as [|u l IH]; intros Hin Hinj; [by apply elem_of_nil in Hin |]. cbn [omap list_omap].
  destruct (decide (u = t)) as [-> | Hne].
  - destruct (f t) as [x|] eqn:E; cbn; [apply lookup_insert_eq |].
    destruct (decide (t ∈ l)) as [Hl | Hl]; [rewrite IH; [done | done |] |].
    + intros u Hu. apply Hinj. by right.
    + apply not_elem_of_list_to_map_1. intros (y & Ey & (u & Hu & Hy)%list_elem_of_omap)%list_elem_of_fmap.
      destruct (f u) as [z|]; [| done]. injection Hy as <-. cbn in Ey. rewrite (Hinj u) in Hu; [done | by right | done].
  - apply elem_of_cons in Hin as [-> | Hin]; [done |].
    destruct (f u) as [x|] eqn:E; cbn.
    + rewrite lookup_insert_ne; [apply IH; [done |] |].
      * intros w Hw. apply Hinj. by right.
      * intros Hk. apply Hne, Hinj; [by left | done].
    + apply IH; [done |]. intros w Hw. apply Hinj. by right.
Qed.

Lemma registered_inj t u : registered t = true → u ∈ registry → tkey u = tkey t → u = t.
Proof.
  intros Ht Hu Hk. apply registry_keys_inj; [by apply registered_spec | done |]. by apply type_eqb_key.
Qed.

Lemma packet_of_lookup p t :
  registered t = true → packet_of p !! tkey t = read_at (memory_of p) t <$> bound p !! tkey t.
Proof.
  intros Ht. apply (registry_lookup (λ t, read_at (memory_of p) t <$> bound p !! tkey t) registry t).
  - by apply registered_spec.
  - intros u. by apply registered_inj.
Qed.

Lemma packet_of_other p k : (∀ t, registered t = true → tkey t ≠ k) → packet_of p !! k = None.
Proof.
  intros Hk. apply not_elem_of_list_to_map_1.
  intros (y & Ey & (u & Hu & Hy)%list_elem_of_omap)%list_elem_of_fmap.
  destruct (bound p !! tkey u); [| done]. injection Hy as <-. apply (Hk u); [by apply registered_spec | done].
Qed.

Lemma vpacket_eq (v w : vpacket) :
  (∀ t, registered t = true → v !! tkey t = w !! tkey t) →
  (∀ k, (∀ t, registered t = true → tkey t ≠ k) → v !! k = w !! k) → v = w.
Proof.
  intros H1 H2. apply map_eq. intros k. destruct (decide (k ∈ tkey <$> registry)) as [Hin | Hni].
  - apply list_elem_of_fmap in Hin as (t & -> & Ht). by apply H1, registered_spec.
  - apply H2. intros t Ht <-. apply Hni, list_elem_of_fmap. exists t. split; [done |]. by apply registered_spec.
Qed.

(** ** Reading and writing *)

Lemma mem_write_far mem a l b : (b < a ∨ a + Z.of_nat (length l) ≤ b)%Z → mem_write mem a l b = mem b.
Proof.
  intros Hb. unfold mem_write.
  destruct ((a <=? b)%Z && (b <? a + Z.of_nat (length l))%Z) eqn:E; [| done].
  apply andb_true_iff in E as [?%Z.leb_le ?%Z.ltb_lt]. lia.
Qed.

Lemma big_uint_far n mem a l b :
  (b + bytes n ≤ a ∨ a + Z.of_nat (length l) ≤ b)%Z → big_uint n (mem_write mem a l) b = big_uint n mem b.
Proof.
  intros Hb. unfold big_uint. f_equal. apply list_fmap_ext. intros i k [-> Hk]%lookup_seq.
  apply mem_write_far. unfold bytes in *. lia.
Qed.

Lemma from_buffer_big n mem a :
  byte_memory mem → from_buffer n mem a = Bits n (N.land (big_uint n mem a) (N.ones n)).
Proof. intros Hm. by rewrite from_buffer_body. Qed.

Lemma write_bytes_memory mem a b : byte_memory mem → byte_memory (mem_write mem a (to_buffer b)).
Proof. intros Hm c. apply mem_write_bytes; [done | apply to_buffer_bytes]. Qed.

Lemma length_stored b : Z.of_nat (length (to_buffer b)) = bytes (bsize b).
Proof. rewrite length_to_buffer. unfold bytes. lia. Qed.

Lemma read_at_apart mem t a u c b :
  byte_memory mem → bsize b = nbits u → apart t a u c →
  read_at (mem_write mem c (to_buffer b)) t a = read_at mem t a.
Proof.
  intros Hm Hb Ha. unfold read_at. rewrite !from_buffer_big by (done || by apply write_bytes_memory).
  rewrite big_uint_far; [done |]. rewrite length_stored, Hb. unfold apart in Ha. lia.
Qed.

Lemma read_at_back mem t a x :
  byte_memory mem → x ⊑b N.ones (nbits t) →
  read_at (mem_write mem a (to_buffer (Bits (nbits t) x))) t a = x.
Proof. intros Hm Hx. unfold read_at. by rewrite (from_to_buffer (Bits (nbits t) x)). Qed.

Lemma read_at_sub mem t a : read_at mem t a ⊑b N.ones (nbits t).
Proof. unfold read_at, from_buffer. cbn. auto with runos. Qed.

(** Loading reads the value under the mask. *)
Lemma parser_load_ok p m a :
  mask_wf m → bound p !! tkey (m_type m) = Some a →
  parser_load p m = Ok (loadv (read_at (memory_of p) (m_type m) a) m).
Proof.
  intros Hm Ha. unfold parser_load, access. rewrite Ha. cbn [mbind res_bind].
  unfold mk_value. change (from_buffer (nbits (m_type m)) (memory_of p) a)
    with (Bits (nbits (m_type m)) (read_at (memory_of p) (m_type m) a)).
  rewrite value_holder_ok. cbn. by rewrite value_and_mask_ok.
Qed.

Lemma parser_load_unbound p m : bound p !! tkey (m_type m) = None → parser_load p m = Throw OutOfRange.
Proof. intros Ha. unfold parser_load, access. by rewrite Ha. Qed.

(** Modifying stores the patched value. *)
Lemma parser_modify_ok p f a :
  rfield_wf f → bound p !! tkey (f_type f) = Some a →
  parser_modify p f
  = Ok (with_memory p (mem_write (memory_of p) a
      (to_buffer (Bits (nbits (f_type f)) (patchv (read_at (memory_of p) (f_type f) a) f))))).
Proof.
  intros [Hr Hf] Ha. unfold parser_modify, mask_exact, set_all, bits_zero. cbn [bsize].
  rewrite mk_mask_ok by auto with runos. cbn [mbind res_bind].
  rewrite (parser_load_ok p _ a) by (done || apply msk_ok_ones). cbn [mbind res_bind m_type].
  set (v := read_at _ _ _). assert (Hv : v ⊑b N.ones (nbits (f_type f))) by apply read_at_sub.
  assert (Hw : field_wf (loadv v (Mask (f_type f) (N.ones (nbits (f_type f)))))).
  { split; [apply msk_ok_ones | apply land_sub_r]. }
  destruct (field_rewrite_ok _ f Hw Hf) as [-> _]; [done |]. cbn [mbind res_bind].
  unfold access. rewrite Ha. cbn [mbind res_bind].
  clearbody v. unfold fvalue_bits, fpatch, patchv. cbn. by rewrite Hv.
Qed.

Lemma patchv_sub v f : v ⊑b N.ones (nbits (f_type f)) → field_wf f → patchv v f ⊑b N.ones (nbits (f_type f)).
Proof.
  intros Hv [[Hm _] Hf]. unfold patchv. apply lor_sub; [by apply ldiff_sub_mono | by eapply bits_sub_trans].
Qed.

Lemma parser_modify_keeps p f q : parser_ok p → parser_modify p f = Ok q → parser_ok q.
Proof.
  intros [Hm Hs] E. unfold parser_modify in E.
  apply res_bind_Ok in E as (m & _ & E). apply res_bind_Ok in E as (o & _ & E).
  apply res_bind_Ok in E as (u & _ & E). apply res_bind_Ok in E as (a & _ & E). injection E as <-.
  split; [by apply write_bytes_memory | done].
Qed.

(** ** The parser is a packet *)

(** [Packet::test] is not overridden. *)
#[export] Instance parser_ops : PacketOps parser :=
  let load p m := f ← parser_load p m; Ok (f, p) in
  {| pkt_load := load; pkt_test := test_by_load load; pkt_modify := parser_modify |}.

Definition stands_for (p : parser) (v : vpacket) : Prop := parser_ok p ∧ packet_of p = v.

Lemma packet_of_bound p t a :
  registered t = true → bound p !! tkey t = Some a →
  vbound (packet_of p) t = true ∧ vview (packet_of p) t = read_at (memory_of p) t a.
Proof.
  intros Ht Ha. unfold vbound, vview. rewrite packet_of_lookup, Ha by done. by rewrite bool_decide_eq_true_2.
Qed.

Lemma packet_of_unbound p t :
  registered t = true → bound p !! tkey t = None → vbound (packet_of p) t = false ∧ packet_of p !! tkey t = None.
Proof.
  intros Ht Ha. unfold vbound. by rewrite packet_of_lookup, Ha by done.
Qed.

(** A load of the parser is one of its packet. *)
Lemma parser_load_packet p m :
  rmask_wf m →
  parser_load p m = if vbound (packet_of p) (m_type m)
                    then Ok (loadv (vview (packet_of p) (m_type m)) m) else Throw OutOfRange.
Proof.
  intros [Hr Hm]. destruct (bound p !! tkey (m_type m)) as [a|] eqn:Ea.
  - destruct (packet_of_bound p _ a Hr Ea) as [-> ->]. by apply parser_load_ok.
  - destruct (packet_of_unbound p _ Hr Ea) as [-> _]. by apply parser_load_unbound.
Qed.

(** A modification changes the one value. *)
Lemma parser_modify_packet p f a :
  parser_ok p → rfield_wf f → bound p !! tkey (f_type f) = Some a →
  ∃ q, parser_modify p f = Ok q ∧ parser_ok q ∧
    packet_of q = <[tkey (f_type f) := patchv (vview (packet_of p) (f_type f)) f]> (packet_of p).
Proof.
  intros Hp Hf Ea. pose proof Hf as [Hr Hw]. destruct Hp as [Hm Hs].
  destruct (packet_of_bound p _ a Hr Ea) as [_ ->]. set (x := patchv _ f).
  assert (Hx : x ⊑b N.ones (nbits (f_type f))) by (apply patchv_sub; [apply read_at_sub | done]).
  eexists. split; [by apply parser_modify_ok |]. fold x. split; [by split; [apply write_bytes_memory |] |].
  apply vpacket_eq.
  - intros t Ht. rewrite packet_of_lookup by done. cbn [with_memory bound memory_of]. destruct (decide (tkey t = tkey (f_type f))) as [Ek | Hne].
    + rewrite Ek, lookup_insert_eq, Ea. cbn [fmap option_fmap option_map]. f_equal.
      assert (t = f_type f) as -> by (apply registry_keys_inj; [exact Ht | exact Hr | by apply type_eqb_key]).
      by apply read_at_back.
    + rewrite lookup_insert_ne, packet_of_lookup by done.
      destruct (bound p !! tkey t) as [c|] eqn:Ec; [| done].
      cbn [fmap option_fmap option_map]. f_equal.
      apply read_at_apart with (u := f_type f); [done | done |]. by apply Hs.
  - intros k Hk. rewrite lookup_insert_ne by (by apply Hk). by rewrite !packet_of_other.
Qed.

#[export] Instance parser_simulation : Simulation stands_for.
Proof.
  assert (Hload : ∀ p m, rmask_wf m → agree (loaded m) eq (f ← parser_load p m; Ok (f, packet_of p)) (vload (packet_of p) m)).
  { intros p m Hm. rewrite parser_load_packet, vload_law by done. destruct (vbound _ _); [| done].
    cbn. split_and!; [done | | done]. split; [by apply loadv_wf | by destruct m]. }
  split; intros p v x [Hp <-] Hx.
  - specialize (Hload p x Hx). cbn. destruct (parser_load p x) as [f|], (vload (packet_of p) x) as [[g w]|]; cbn in *; try done.
    destruct Hload as (-> & Hg & <-). by split_and!.
  - specialize (Hload p (mask_of x) (mask_of_wf x Hx)). cbn. unfold test_by_load.
    destruct (parser_load p (mask_of x)) as [f|], (vload (packet_of p) (mask_of x)) as [[g w]|]; cbn in *; try done.
    destruct Hload as (-> & Hg & <-). by agree_step.
  - cbn. unfold vmodify. destruct (bound p !! tkey (f_type x)) as [a|] eqn:Ea.
    + destruct (parser_modify_packet p x a Hp Hx Ea) as (q & -> & Hq & Eq).
      rewrite packet_of_lookup, Ea in * by apply Hx. cbn. split; [done |].
      rewrite Eq. unfold vview. by rewrite packet_of_lookup, Ea by apply Hx.
    + destruct (packet_of_unbound p _ (proj1 Hx) Ea) as [_ ->]. unfold parser_modify, mask_exact, set_all, bits_zero.
      cbn [bsize]. rewrite mk_mask_ok by auto with runos. cbn [mbind res_bind]. by rewrite parser_load_unbound.
Qed.

(** ** What the constructor makes *)

Definition width (t : otype) : Z := bytes (nbits t).

(** A header: registered types, each once, within its size and apart. *)
Fixpoint pairwise {A} (r : A → A → bool) (l : list A) : bool :=
  match l with [] => true | x :: l => forallb (r x) l && pairwise r l end.

Definition disjoint_fields (x y : otype * Z) : bool :=
  negb (type_eqb (fst x) (fst y)) &&
  ((snd x + width (fst x) <=? snd y)%Z || (snd y + width (fst y) <=? snd x)%Z).

Definition layout_ok (l : list (otype * Z)) (size : Z) : bool :=
  forallb (λ x, registered (fst x) && (0 <=? snd x)%Z && (snd x + width (fst x) <=? size)%Z) l &&
  pairwise disjoint_fields l.

Lemma headers_laid_out :
  layout_ok ethernet_fields sizeof_ethernet_hdr = true ∧ layout_ok dot1q_fields sizeof_dot1q_hdr = true ∧
  layout_ok ipv4_fields sizeof_ipv4_hdr = true ∧ layout_ok arp_fields sizeof_arp_hdr = true ∧
  layout_ok ipv6_fields sizeof_ipv6_hdr = true ∧ layout_ok tcp_fields sizeof_tcp_hdr = true ∧
  layout_ok udp_fields sizeof_udp_hdr = true ∧ layout_ok icmp_fields sizeof_icmp_hdr = true ∧
  layout_ok member_fields 40 = true.
Proof. by vm_compute. Qed.

Lemma width_pos t : registered t = true → (0 < width t)%Z.
Proof.
  intros Ht. apply registered_spec in Ht.
  assert (H : forallb (λ t, (0 <? width t)%Z) registry = true) by by vm_compute.
  rewrite forallb_forall in H. apply list_elem_of_In in Ht. by apply Z.ltb_lt, H.
Qed.

Definition keys_of (l : list (otype * Z)) : list key := map (λ x, tkey (fst x)) l.

(** Binding fields that are apart from one another and from what is bound. *)
Lemma bind_apart l : ∀ b,
  separated b →
  Forall (λ x, registered (fst x) = true ∧ b !! tkey (fst x) = None ∧
    ∀ u c, registered u = true → b !! tkey u = Some c → apart u c (fst x) (snd x)) l →
  pairwise disjoint_fields l = true →
  ∃ b', bind l b = Ok b' ∧ separated b' ∧
    (∀ u c, registered u = true → b' !! tkey u = Some c → b !! tkey u = Some c ∨ (u, c) ∈ l) ∧
    (∀ k, k ∉ keys_of l → b' !! k = b !! k).
Proof.
  induction l as [|[t a] l IH]; intros b Hs Hl Hp; cbn [bind].
  { exists b. split_and!; [done | done | by left | done]. }
  apply list.Forall_cons in Hl as [(Ht & Hn & Ha) Hl]. cbn [fst snd] in *.
  apply andb_true_iff in Hp as [Hta Hp]. rewrite forallb_forall in Hta.
  rewrite bool_decide_eq_true_2 by done. cbn [require mbind res_bind].
  destruct (IH (<[tkey t := a]> b)) as (b' & -> & Hs' & Hb' & Hk').
  - intros u w c d Hu Hw Hne. destruct (decide (tkey u = tkey t)) as [Eu | Nu], (decide (tkey w = tkey t)) as [Ew | Nw];
      [congruence | | |].
    + rewrite Eu, lookup_insert_eq, lookup_insert_ne by done. intros [= <-] Hd.
      rewrite (registry_keys_inj u t Hu Ht (proj2 (type_eqb_key _ _) Eu)).
      destruct (Ha w d Hw Hd) as [? | ?]; [by right | by left].
    + rewrite Ew, lookup_insert_eq, lookup_insert_ne by done. intros Hc [= <-].
      rewrite (registry_keys_inj w t Hw Ht (proj2 (type_eqb_key _ _) Ew)). by apply Ha.
    + rewrite !lookup_insert_ne by done. by apply Hs.
  - apply Forall_elem. intros [u c] Hin. rewrite Forall_elem in Hl. destruct (Hl _ Hin) as (Hu & Hnu & Hau). cbn [fst snd] in *.
    specialize (Hta (u, c) (proj1 (list_elem_of_In _ _) Hin)). unfold disjoint_fields in Hta. cbn [fst snd] in Hta.
    apply andb_true_iff in Hta as [Hne%negb_true_iff Hor].
    assert (Hne' : tkey t ≠ tkey u) by (intros E%type_eqb_key; congruence).
    split_and!; [done | by rewrite lookup_insert_ne |]. intros w d Hw. destruct (decide (tkey w = tkey t)) as [Ew | Nw].
    + rewrite Ew, lookup_insert_eq. intros [= <-].
      rewrite (registry_keys_inj w t Hw Ht (proj2 (type_eqb_key _ _) Ew)).
      apply orb_true_iff in Hor as [?%Z.leb_le | ?%Z.leb_le]; [by left | by right].
    + rewrite lookup_insert_ne by done. by apply Hau.
  - done.
  - exists b'. split_and!; [done | done | |].
    + intros u c Hu Hc. destruct (Hb' u c Hu Hc) as [H | H]; [| by right; right].
      destruct (decide (tkey u = tkey t)) as [Eu | Nu].
      * rewrite Eu, lookup_insert_eq in H. injection H as <-. right.
        rewrite (registry_keys_inj u t Hu Ht (proj2 (type_eqb_key _ _) Eu)). by left.
      * rewrite lookup_insert_ne in H by done. by left.
    + intros k Hk. cbn [keys_of map fst] in Hk. apply not_elem_of_cons in Hk as [Hkt Hk].
      rewrite Hk', lookup_insert_ne by done. done.
Qed.

Lemma disjoint_shifted a (x y : otype * Z) :
  disjoint_fields (fst x, a + snd x)%Z (fst y, a + snd y)%Z = disjoint_fields x y.
Proof. unfold disjoint_fields. cbn. f_equal. f_equal; apply eq_true_iff_eq; rewrite !Z.leb_le; lia. Qed.

Lemma pairwise_at_address a l : pairwise disjoint_fields (at_address a l) = pairwise disjoint_fields l.
Proof.
  induction l as [|x l IH]; cbn [at_address map pairwise]; [done |]. f_equal; [| apply IH].
  clear IH. induction l as [|y l IHl]; cbn [map forallb]; [done |]. by rewrite disjoint_shifted, IHl.
Qed.

Lemma keys_at_address a l : keys_of (at_address a l) = keys_of l.
Proof. unfold keys_of, at_address. by rewrite map_map. Qed.

Section Layout.
(** The object, and the buffer. *)
Context (obj base end_ : Z).

(** An address for a field: in the object, or in the buffer. *)
Definition placed (t : otype) (a : Z) : Prop :=
  (obj ≤ a ∧ a + width t ≤ obj + 40 ∨ base ≤ a ∧ a + width t ≤ end_)%Z.

(** Parsing has come to [lo]: what is bound is placed, apart and clear of the
    rest of the buffer, and none of [later] is bound. *)
Record parsed (lo : Z) (later : list key) (b : bindings) : Prop := {
  parsed_separated : separated b;
  parsed_placed t a : registered t = true → b !! tkey t = Some a → placed t a;
  parsed_clear t a : registered t = true → b !! tkey t = Some a → (a + width t ≤ lo ∨ end_ ≤ a)%Z;
  parsed_later k : k ∈ later → b !! k = None
}.

Lemma parsed_weaken lo lo' later later' b :
  parsed lo later b → (lo ≤ lo')%Z → (∀ k, k ∈ later' → k ∈ later) → parsed lo' later' b.
Proof.
  intros [H1 H2 H3 H4] Hlo Hl. split; [done | done | | by auto].
  intros t a Ht Ha. destruct (H3 t a Ht Ha); [left; lia | by right].
Qed.

(** Binding the next header. *)
Lemma bind_header lo later later' l size b :
  parsed lo later b → layout_ok l size = true → (0 ≤ size)%Z → (base ≤ lo)%Z → (lo + size ≤ end_)%Z →
  forallb (λ k, bool_decide (k ∈ later)) (keys_of l ++ later') = true →
  forallb (λ k, negb (bool_decide (k ∈ keys_of l))) later' = true →
  ∃ b', bind (at_address lo l) b = Ok b' ∧ parsed (lo + size) later' b' ∧
    (∀ k, k ∉ keys_of l → b' !! k = b !! k).
Proof.
  intros [H1 H2 H3 H4] Hl Hsize Hlo Hend Hk Hdis. apply andb_true_iff in Hl as [Hin Hp]. rewrite forallb_forall in Hin.
  rewrite forallb_app in Hk. apply andb_true_iff in Hk as [Hk Hk']. rewrite forallb_forall in Hk, Hk', Hdis.
  assert (Hfield : ∀ t a, (t, a) ∈ at_address lo l → registered t = true ∧ (lo ≤ a)%Z ∧ (a + width t ≤ lo + size)%Z ∧ tkey t ∈ keys_of l).
  { intros t a (x & [= -> ->] & Hx)%list_elem_of_fmap. pose proof (Hin x (proj1 (list_elem_of_In _ _) Hx)) as Hi.
    apply andb_true_iff in Hi as [[Hr Ho%Z.leb_le]%andb_true_iff Hs%Z.leb_le].
    split_and!; [done | lia | lia |]. by apply (list_elem_of_fmap_2 (λ x, tkey (fst x))). }
  destruct (bind_apart (at_address lo l) b H1) as (b' & E & Hs' & Hb' & Hk2).
  - apply Forall_elem. intros [t a] Hta. destruct (Hfield t a Hta) as (Ht & Hlo' & Hhi & Hkey). cbn [fst snd].
    split_and!; [done | |].
    + apply H4. apply list_elem_of_In in Hkey. by apply Hk, bool_decide_eq_true in Hkey.
    + intros u c Hu Hc. pose proof (width_pos u Hu). destruct (H3 u c Hu Hc); [left | right]; unfold width in *; lia.
  - by rewrite pairwise_at_address.
  - rewrite keys_at_address in Hk2. exists b'. split_and!; [done | | done]. split.
    + done.
    + intros t a Ht Ha. destruct (Hb' t a Ht Ha) as [H | H]; [by apply H2 |].
      destruct (Hfield t a H) as (_ & ? & ? & _). right. lia.
    + intros t a Ht Ha. destruct (Hb' t a Ht Ha) as [H | H].
      * destruct (H3 t a Ht H); [left; lia | by right].
      * destruct (Hfield t a H) as (_ & ? & ? & _). left. lia.
    + intros k Hlk. apply list_elem_of_In in Hlk. pose proof (Hdis k Hlk) as Hd.
      apply negb_true_iff, bool_decide_eq_false in Hd. rewrite Hk2 by done. apply H4.
      by apply Hk', bool_decide_eq_true in Hlk.
Qed.

(** *** Layer by layer *)

Definition l4_keys : list key := map tkey [tcp_src; tcp_dst; udp_src; udp_dst; icmp_type; icmp_code].
Definition l3_keys : list key :=
  map tkey [ip_proto; ipv4_src; ipv4_dst; arp_op; arp_sha; arp_tha; arp_spa; arp_tpa; ipv6_src; ipv6_dst] ++ l4_keys.
Definition l2_keys : list key := map tkey [eth_type; eth_src; eth_dst; vlan_vid] ++ l3_keys.

(** Binding a header that is laid out well ends in a parsed state. *)
Ltac bind_header lo later l size :=
  let b' := fresh "b" in let E := fresh "E" in let Hb := fresh "Hb" in
  match goal with Hp : parsed lo ?old ?b |- _ =>
    destruct (bind_header lo old later l size b Hp) as (b' & E & Hb & _);
      [by vm_compute | done | lia | lia | by vm_compute | by vm_compute | rewrite E; cbn [mbind res_bind]]
  end.

Lemma parse_l4_ok mem protocol lo b :
  (base ≤ lo ≤ end_)%Z → parsed lo l4_keys b →
  ∃ b', parse_l4 mem protocol lo (end_ - lo) b = Ok b' ∧ parsed end_ [] b'.
Proof.
  intros Hlo Hp. unfold parse_l4.
  assert (Hstop : ∃ b', Ok b = Ok b' ∧ parsed end_ [] b').
  { exists b. split; [done |]. apply (parsed_weaken lo end_ l4_keys []); [done | lia |]. by intros k ?%elem_of_nil. }
  destruct (protocol =? 6)%N; [| destruct (protocol =? 17)%N; [| destruct (protocol =? 1)%N; [| done]]];
    (match goal with |- context [(?s <=? end_ - lo)%Z] => destruct (Z.leb_spec s (end_ - lo)); [| done] end).
  - unfold sizeof_tcp_hdr in *. bind_header lo (@nil key) tcp_fields 20%Z.
    eexists. split; [done |]. by eapply parsed_weaken; [done | lia |].
  - unfold sizeof_udp_hdr in *. bind_header lo (@nil key) udp_fields 8%Z.
    eexists. split; [done |]. by eapply parsed_weaken; [done | lia |].
  - unfold sizeof_icmp_hdr in *. bind_header lo (@nil key) icmp_fields 4%Z.
    eexists. split; [done |]. by eapply parsed_weaken; [done | lia |].
Qed.

(** Headers of the third layer that are whole: an IPv4 header of at least 20
    bytes, where there is one, and not less than an IPv6 header. *)
Definition whole_l3 (mem : memory) (type : N) (a len : Z) : bool :=
  if (type =? 0x0800)%N then (len <? sizeof_ipv4_hdr)%Z || (sizeof_ipv4_hdr <=? ipv4_header_length mem a)%Z
  else if (type =? 0x86dd)%N then (sizeof_ipv6_hdr <=? len)%Z
  else true.

Lemma parse_l3_ok mem type lo b :
  (base ≤ lo ≤ end_)%Z → parsed lo l3_keys b → whole_l3 mem type lo (end_ - lo) = true →
  ∃ b', parse_l3 mem type lo (end_ - lo) b = Ok b' ∧ parsed end_ [] b'.
Proof.
  intros Hlo Hp Hw. unfold parse_l3. unfold whole_l3 in Hw.
  assert (Hstop : ∃ b', Ok b = Ok b' ∧ parsed end_ [] b').
  { exists b. split; [done |]. apply (parsed_weaken lo end_ l3_keys []); [done | lia |]. by intros k ?%elem_of_nil. }
  destruct (type =? 0x0800)%N; [| destruct (type =? 0x0806)%N; [| destruct (type =? 0x86dd)%N; [| done]]].
  - unfold sizeof_ipv4_hdr in *. destruct (Z.leb_spec 20 (end_ - lo)); [| done].
    rewrite (proj2 (Z.ltb_ge _ _)) in Hw by lia. apply Z.leb_le in Hw.
    bind_header lo l4_keys ipv4_fields 20%Z. cbv zeta. destruct (Z.ltb_spec (ipv4_header_length mem lo) (end_ - lo)).
    + replace (end_ - lo - ipv4_header_length mem lo)%Z with (end_ - (lo + ipv4_header_length mem lo))%Z by lia.
      apply parse_l4_ok; [lia |]. by eapply parsed_weaken; [done | lia |].
    + eexists. split; [done |]. eapply parsed_weaken; [done | lia |]. by intros k ?%elem_of_nil.
  - unfold sizeof_arp_hdr in *. destruct (Z.leb_spec 28 (end_ - lo)); [| done]. destruct (arp_known mem lo); [| done].
    bind_header lo l4_keys arp_fields 28%Z. eexists. split; [done |].
    eapply parsed_weaken; [done | lia |]. by intros k ?%elem_of_nil.
  - unfold sizeof_ipv6_hdr in *. rewrite Hw. apply Z.leb_le in Hw.
    bind_header lo l4_keys ipv6_fields 40%Z. destruct (Z.ltb_spec 40 (end_ - lo)).
    + replace (end_ - lo - 40)%Z with (end_ - (lo + 40))%Z by lia. by apply parse_l4_ok; [lia |].
    + eexists. split; [done |]. eapply parsed_weaken; [done | lia |]. by intros k ?%elem_of_nil.
Qed.

(** All headers whole: the third layer's, behind an untagged or a tagged
    ethernet header. *)
Definition whole_headers (mem : memory) (a len : Z) : bool :=
  if (sizeof_ethernet_hdr <=? len)%Z then
    if (big_uint 16 mem (a + 12) =? 0x8100)%N then
      if (sizeof_dot1q_hdr <=? len)%Z
      then whole_l3 mem (big_uint 16 mem (a + 16)) (a + sizeof_dot1q_hdr) (len - sizeof_dot1q_hdr)
      else true
    else whole_l3 mem (big_uint 16 mem (a + 12)) (a + sizeof_ethernet_hdr) (len - sizeof_ethernet_hdr)
  else true.

Lemma parse_l2_ok mem b :
  (base ≤ end_)%Z → parsed base l2_keys b → whole_headers mem base (end_ - base) = true →
  ∃ b', parse_l2 mem base (end_ - base) b = Ok b' ∧ parsed end_ [] b'.
Proof.
  intros Hlo Hp Hw. unfold parse_l2. unfold whole_headers in Hw.
  assert (Hstop : ∃ b', Ok b = Ok b' ∧ parsed end_ [] b').
  { exists b. split; [done |]. apply (parsed_weaken base end_ l2_keys []); [done | lia |]. by intros k ?%elem_of_nil. }
  unfold sizeof_ethernet_hdr, sizeof_dot1q_hdr in *.
  destruct (Z.leb_spec 14 (end_ - base)); [| done]. destruct (big_uint 16 mem (base + 12) =? 0x8100)%N.
  - destruct (Z.leb_spec 18 (end_ - base)); [| done]. bind_header base l3_keys dot1q_fields 18%Z.
    replace (end_ - base - 18)%Z with (end_ - (base + 18))%Z in * by lia. by apply parse_l3_ok; [lia | |].
  - bind_header base l3_keys ethernet_fields 14%Z.
    replace (end_ - base - 14)%Z with (end_ - (base + 14))%Z in * by lia. by apply parse_l3_ok; [lia | |].
Qed.
End Layout.

(** *** The members *)

Lemma store_members_bytes mem obj port dpid out :
  byte_memory mem → byte_memory (store_members mem obj port dpid out).
Proof. intros Hm. unfold store_members. by repeat apply write_bytes_memory. Qed.

Lemma store_members_far mem obj port dpid out a :
  (a < obj + 24 ∨ obj + 40 ≤ a)%Z → store_members mem obj port dpid out a = mem a.
Proof.
  intros Ha. unfold store_members, in_port_at, out_port_at, switch_id_at.
  assert (H32 : bytes 32 = 4%Z) by done. assert (H64 : bytes 64 = 8%Z) by done.
  rewrite !mem_write_far; [done | ..]; rewrite length_stored; cbn [bsize bits_of_ull]; lia.
Qed.

Lemma store_members_read mem obj port dpid out :
  byte_memory mem → (port < 2 ^ 32)%N → (dpid < 2 ^ 64)%N → (out < 2 ^ 32)%N →
  let mem' := store_members mem obj port dpid out in
  read_at mem' in_port (obj + 24) = port ∧ read_at mem' switch_id (obj + 32) = dpid ∧
  read_at mem' out_port (obj + 28) = out.
Proof.
  intros Hm Hp Hd Ho. cbv zeta. unfold store_members, in_port_at, out_port_at, switch_id_at.
  rewrite !bits_of_ull_lt by done.
  assert (Hb : ∀ mem a n x, byte_memory mem → byte_memory (mem_write mem a (to_buffer (Bits n x))))
    by (intros; by apply write_bytes_memory).
  assert (H32 : bytes 32 = 4%Z) by done. assert (H64 : bytes 64 = 8%Z) by done.
  split_and!.
  - rewrite (read_at_apart _ in_port _ switch_id), (read_at_apart _ in_port _ out_port);
      [| by auto | done | | by auto | done |]; [| unfold apart; cbn [nbits in_port out_port switch_id]; lia ..].
    apply (read_at_back _ in_port); [done | by apply sub_ones_lt].
  - apply (read_at_back _ switch_id); [by auto | by apply sub_ones_lt].
  - rewrite (read_at_apart _ out_port _ switch_id); [| by auto | done |];
      [| unfold apart; cbn [nbits in_port out_port switch_id]; lia].
    apply (read_at_back _ out_port); [by auto | by apply sub_ones_lt].
Qed.

(** What is bound stays bound. *)
Lemma bind_keeps l : ∀ b b' k a, bind l b = Ok b' → b !! k = Some a → b' !! k = Some a.
Proof.
  induction l as [|[t c] l IH]; intros b b' k a E Hk; cbn [bind] in E; [by injection E as <- |].
  apply res_bind_Ok in E as (u & Hn & E). apply require_Ok, bool_decide_eq_true in Hn.
  eapply IH; [exact E |]. rewrite lookup_insert_ne; congruence.
Qed.

Lemma parse_l4_keeps mem protocol a len b b' k c :
  parse_l4 mem protocol a len b = Ok b' → b !! k = Some c → b' !! k = Some c.
Proof. unfold parse_l4. intros E Hk. repeat case_match; try done; try (by eapply bind_keeps); congruence. Qed.

Lemma parse_l3_keeps mem type a len b b' k c :
  parse_l3 mem type a len b = Ok b' → b !! k = Some c → b' !! k = Some c.
Proof.
  unfold parse_l3. intros E Hk. repeat case_match; try done; try (by eapply bind_keeps); try congruence;
    apply res_bind_Ok in E as (b1 & E1 & E); apply (bind_keeps _ _ _ k c) in E1; try done; cbv zeta in E;
    repeat case_match; try done; try (by eapply parse_l4_keeps); congruence.
Qed.

Lemma parse_l2_keeps mem a len b b' k c : parse_l2 mem a len b = Ok b' → b !! k = Some c → b' !! k = Some c.
Proof.
  unfold parse_l2. intros E Hk. repeat case_match; try done; try (by eapply parse_l3_keeps); try congruence;
    apply res_bind_Ok in E as (b1 & E1 & E); apply (bind_keeps _ _ _ k c) in E1; try done; by eapply parse_l3_keeps.
Qed.

(** Headers are read from the buffer only. *)
Lemma big_uint_same n mem mem' a lo hi :
  (∀ b, (lo ≤ b < hi)%Z → mem' b = mem b) → (lo ≤ a)%Z → (a + bytes n ≤ hi)%Z → big_uint n mem' a = big_uint n mem a.
Proof.
  intros Hs Hlo Hhi. unfold big_uint. f_equal. apply list_fmap_ext. intros i k [-> Hk]%lookup_seq.
  apply Hs. unfold bytes in *. lia.
Qed.

Lemma whole_l3_same mem mem' type a len hi :
  (∀ b, (a ≤ b < hi)%Z → mem' b = mem b) → (a + len = hi)%Z → whole_l3 mem' type a len = whole_l3 mem type a len.
Proof.
  intros Hs Hhi. unfold whole_l3, ipv4_header_length, sizeof_ipv4_hdr.
  destruct (type =? 0x0800)%N; [| done]. destruct (Z.ltb_spec len 20); [done |]. by rewrite Hs by lia.
Qed.

Lemma whole_headers_same mem mem' a len :
  (∀ b, (a ≤ b < a + len)%Z → mem' b = mem b) → whole_headers mem' a len = whole_headers mem a len.
Proof.
  intros Hs. unfold whole_headers, sizeof_ethernet_hdr, sizeof_dot1q_hdr. assert (H16 : bytes 16 = 2%Z) by done.
  destruct (Z.leb_spec 14 len); [| done].
  rewrite (big_uint_same 16 mem mem' (a + 12) a (a + len)) by (done || lia).
  destruct (big_uint 16 mem (a + 12) =? 0x8100)%N; [destruct (Z.leb_spec 18 len); [| done] |].
  - rewrite (big_uint_same 16 mem mem' (a + 16) a (a + len)) by (done || lia).
    apply whole_l3_same with (a + len)%Z; [| lia]. intros b Hb. apply Hs. lia.
  - apply whole_l3_same with (a + len)%Z; [| lia]. intros b Hb. apply Hs. lia.
Qed.

(** The members are bound first. *)
Lemma members_bound obj base end_ :
  (obj + 40 ≤ base ∨ end_ ≤ obj + 24)%Z → (base ≤ end_)%Z →
  ∃ b, bind (at_address obj member_fields) ∅ = Ok b ∧ parsed obj base end_ base l2_keys b ∧
    b !! tkey in_port = Some (obj + 24)%Z ∧ b !! tkey switch_id = Some (obj + 32)%Z ∧
    b !! tkey out_port = Some (obj + 28)%Z.
Proof.
  intros Hap Hle. set (b := (<[tkey out_port := (obj + 28)%Z]> (<[tkey switch_id := (obj + 32)%Z]>
    (<[tkey in_port := (obj + 24)%Z]> ∅)) : bindings)).
  assert (Hbind : bind (at_address obj member_fields) ∅ = Ok b) by done.
  exists b. split_and!; [done | | done | done | done].
  destruct headers_laid_out as (_ & _ & _ & _ & _ & _ & _ & _ & Hl). apply andb_true_iff in Hl as [_ Hl].
  destruct (bind_apart (at_address obj member_fields) ∅) as (b' & E & Hs & Hb & Hk).
  - intros t1 t2 a1 a2 _ _ _ Ha. by rewrite lookup_empty in Ha.
  - repeat apply Forall_cons_2; [.. | by apply Forall_nil]; (split_and!; [done | done |]; intros u c _ Hc; by rewrite lookup_empty in Hc).
  - by rewrite pairwise_at_address.
  - rewrite Hbind in E. injection E as <-.
    assert (Hin : ∀ t a, registered t = true → b !! tkey t = Some a → (obj + 24 ≤ a ∧ a + width t ≤ obj + 40)%Z).
    { intros t a Ht Ha. destruct (Hb t a Ht Ha) as [H | H]; [by rewrite lookup_empty in H |].
      apply elem_of_cons in H as [[= -> ->] | H]; [split; [lia |]; unfold width; change (bytes (nbits in_port)) with 4%Z; lia |].
      apply elem_of_cons in H as [[= -> ->] | H]; [split; [lia |]; unfold width; change (bytes (nbits switch_id)) with 8%Z; lia |].
      apply list_elem_of_singleton in H as [= -> ->]. split; [lia |]. unfold width. change (bytes (nbits out_port)) with 4%Z. lia. }
    split; [done | | |].
    + intros t a Ht Ha. left. destruct (Hin t a Ht Ha). lia.
    + intros t a Ht Ha. destruct (Hin t a Ht Ha). lia.
    + intros k Hk'. rewrite Hk; [by rewrite lookup_empty |]. intros Hin'.
      assert (Hd : forallb (λ k, negb (bool_decide (k ∈ l2_keys))) (keys_of (at_address obj member_fields)) = true) by done.
      rewrite forallb_forall in Hd. apply list_elem_of_In in Hin'. apply Hd, negb_true_iff, bool_decide_eq_false in Hin'. done.
Qed.

(** The constructor on whole headers. *)
Lemma new_parser_parsed mem obj base len port dpid out :
  (0 ≤ len)%Z → (obj + 40 ≤ base ∨ base + len ≤ obj + 24)%Z → whole_headers mem base len = true →
  ∃ b, new_parser mem obj (Some base) len port dpid out
       = Ok (Parser (store_members mem obj port dpid out) obj (Some base) len b) ∧
    parsed obj base (base + len) (base + len) [] b ∧
    b !! tkey in_port = Some (obj + 24)%Z ∧ b !! tkey switch_id = Some (obj + 32)%Z ∧
    b !! tkey out_port = Some (obj + 28)%Z.
Proof.
  intros Hlen Hap Hw. unfold new_parser. set (mem' := store_members mem obj port dpid out).
  assert (Hsame : ∀ a, (base ≤ a < base + len)%Z → mem' a = mem a) by (intros a Ha; apply store_members_far; lia).
  destruct (members_bound obj base (base + len)) as (b & -> & Hb & Hip & Hsw & Hop); [done | lia |]. cbn [mbind res_bind].
  rewrite <- (whole_headers_same mem mem' base len Hsame) in Hw.
  destruct (parse_l2_ok obj base (base + len) mem' b) as (b' & E & Hb'); [lia | done | |].
  { by replace (base + len - base)%Z with len by lia. }
  replace (base + len - base)%Z with len in E by lia. rewrite E. cbn [mbind res_bind].
  exists b'. split_and!; [done | done | ..]; by eapply parse_l2_keeps.
Qed.

(** ** Properties *)

(** C10: a parsed packet is the packet of its fields.  A function of packets run
    on the parser, which reads and writes bytes of the buffer, returns what it
    returns on the values the parser binds, leaves the values it leaves there,
    and throws what it throws there; and it is traced to the same trace. *)
Theorem parser_refines (h : handler) (p : parser) :
  parser_ok p → handler_wf h →
  match run h p with
  | Ok (pol, q) => run h (packet_of p) = Ok (pol, packet_of q) ∧ parser_ok q
  | Throw e => run h (packet_of p) = Throw e
  end ∧
  run_tracer h p = run_tracer h (packet_of p).
Proof.
  intros Hp Hh. assert (HR : stands_for p (packet_of p)) by done. split.
  - pose proof (sim_run stands_for h p (packet_of p) Hh HR) as Hr.
    destruct (run h p) as [[pol q] | e], (run h (packet_of p)) as [[pol' v] | e']; cbn in Hr; try done; [| by subst].
    by destruct Hr as (-> & _ & Hq & <-).
  - by apply (sim_run_tracer stands_for).
Qed.

(** C11: the constructor makes a packet.  For a buffer clear of the object whose
    headers are whole it does not throw; no two fields of the parser overlap;
    the port, the switch and the output port are those it was given; the
    buffer is as it was; and every field lies in the buffer or in the object. *)
Theorem constructed_ok mem obj base len (port dpid out : N) :
  byte_memory mem → (0 ≤ len)%Z → (obj + 40 ≤ base ∨ base + len ≤ obj + 24)%Z →
  whole_headers mem base len = true → (port < 2 ^ 32)%N → (dpid < 2 ^ 64)%N → (out < 2 ^ 32)%N →
  ∃ p, new_parser mem obj (Some base) len port dpid out = Ok p ∧ parser_ok p ∧
    packet_of p !! tkey in_port = Some port ∧ packet_of p !! tkey switch_id = Some dpid ∧
    packet_of p !! tkey out_port = Some out ∧
    (∀ a, (base ≤ a < base + len)%Z → memory_of p a = mem a) ∧
    (∀ t a, registered t = true → bound p !! tkey t = Some a → placed obj base (base + len) t a).
Proof.
  intros Hm Hlen Hap Hw Hp Hd Ho.
  destruct (new_parser_parsed mem obj base len port dpid out Hlen Hap Hw) as (b & -> & Hb & Hip & Hsw & Hop).
  set (mem' := store_members mem obj port dpid out).
  destruct (store_members_read mem obj port dpid out Hm Hp Hd Ho) as (R1 & R2 & R3). fold mem' in R1, R2, R3.
  assert (Hval : ∀ t a x, registered t = true → b !! tkey t = Some a → read_at mem' t a = x →
    packet_of (Parser mem' obj (Some base) len b) !! tkey t = Some x).
  { intros t a x Ht Ha Hx. rewrite packet_of_lookup by done. cbn [bound memory_of]. by rewrite Ha, <- Hx. }
  eexists. split; [done |]. split_and!.
  - split; [by apply store_members_bytes | apply Hb].
  - by eapply Hval.
  - by eapply Hval.
  - by eapply Hval.
  - intros a Ha. apply store_members_far. lia.
  - intros t a Ht Ha. by eapply parsed_placed.
Qed.

(** C12: modifying writes the bytes of the field and no others. *)
Theorem modify_in_place (p : parser) (f : field) (a : Z) :
  parser_ok p → rfield_wf f → bound p !! tkey (f_type f) = Some a →
  ∃ q, parser_modify p f = Ok q ∧ parser_ok q ∧ bound q = bound p ∧
    (∀ b, (b < a ∨ a + width (f_type f) ≤ b)%Z → memory_of q b = memory_of p b) ∧
    packet_of q = <[tkey (f_type f) := patchv (vview (packet_of p) (f_type f)) f]> (packet_of p).
Proof.
  intros Hp Hf Ha. destruct (parser_modify_packet p f a Hp Hf Ha) as (q & E & Hq & Hv).
  rewrite (parser_modify_ok p f a Hf Ha) in E. injection E as <-.
  eexists. split; [by apply parser_modify_ok |]. split_and!; [done | done | | done].
  intros b Hb. cbn [memory_of with_memory]. apply mem_write_far. by rewrite length_stored.
Qed.

(** Rewriting the VLAN id of a tagged frame also writes the bits in front of
    it: the priority and the drop indicator become zero, whatever the patch. *)
Theorem vlan_modify_clears_priority (p : parser) (f : field) (a : Z) :
  parser_ok p → rfield_wf f → f_type f = vlan_vid → bound p !! tkey vlan_vid = Some a →
  ∃ q, parser_modify p f = Ok q ∧ N.shiftr (memory_of q a) 4 = 0%N.
Proof.
  intros [Hm _] Hf Et Ha. rewrite <- Et in Ha. eexists. split; [by apply parser_modify_ok |].
  cbn [memory_of with_memory]. rewrite Et. set (x := patchv _ f).
  assert (Hx : (x < 2 ^ 12)%N).
  { change 12%N with (nbits vlan_vid). apply sub_ones_lt. rewrite <- Et.
    apply patchv_sub; [rewrite Et; apply read_at_sub | apply Hf]. }
  assert (Hb : mem_write (memory_of p) a (to_buffer (Bits (nbits vlan_vid) x)) a = N.land (N.shiftr x 8) 255).
  { unfold mem_write. rewrite length_stored. change (bytes _) with 2%Z.
    rewrite (proj2 (Z.leb_le a a)), (proj2 (Z.ltb_lt a (a + 2))) by lia. by rewrite Z.sub_diag. }
  rewrite Hb. apply N.bits_inj. intros i.
  rewrite N.shiftr_spec', N.land_spec, N.shiftr_spec', N.bits_0. destruct (N.testbit x (i + 4 + 8)) eqn:Ex; [| done].
  assert (Hsub : x ⊑b N.ones 12) by by apply sub_ones_lt. rewrite bits_sub_spec in Hsub.
  apply Hsub in Ex. rewrite ones_spec_iff in Ex. apply N.ltb_lt in Ex. lia.
Qed.

(** a truncated IPv6 packet is not parsed.  For an untagged frame of the
    IPv6 type that ends before the IPv6 header does, the constructor follows a
    null pointer: it throws, and the packet-in is lost. *)
Theorem truncated_ipv6_throws mem obj base len (port dpid out : N) :
  (obj + 40 ≤ base ∨ base + len ≤ obj + 24)%Z → (14 ≤ len < 54)%Z → big_uint 16 mem (base + 12) = 0x86dd%N →
  new_parser mem obj (Some base) len port dpid out = Throw NullptrDereference.
Proof.
  intros Hap Hlen Ht. unfold new_parser. set (mem' := store_members mem obj port dpid out).
  destruct (members_bound obj base (base + len)) as (b & -> & Hb & _); [done | lia |]. cbn [mbind res_bind].
  assert (E : big_uint 16 mem' (base + 12) = 0x86dd%N).
  { assert (H16 : bytes 16 = 2%Z) by done. rewrite <- Ht. apply big_uint_same with base (base + len)%Z; [| lia | lia].
    intros c Hc. apply store_members_far. lia. }
  unfold parse_l2, sizeof_ethernet_hdr. rewrite E, (proj2 (Z.leb_le _ _)) by lia. cbn [N.eqb Pos.eqb].
  destruct (bind_header obj base (base + len) base l2_keys l3_keys ethernet_fields 14 b Hb) as (b' & -> & _);
    [by vm_compute | done | lia | lia | by vm_compute | by vm_compute |]. cbn [mbind res_bind].
  unfold parse_l3, sizeof_ipv6_hdr. cbn [N.eqb Pos.eqb]. by rewrite (proj2 (Z.leb_gt _ _)) by lia.
Qed.

(** ** Witnesses *)

(** Frames at address 1000, the object at 0. *)
Definition frame_memory (l : list N) : memory := mem_write (λ _, 0%N) 1000 l.
Definition ethernet (type : list N) : list N := [0;1;2;3;4;5; 6;7;8;9;10;11]%N ++ type.
(** From 10.0.0.1 to 10.0.0.2, UDP, with a header length in words. *)
Definition ipv4_udp (ihl : N) : list N :=
  [64 + ihl; 0; 0;28; 0;0; 0;0; 64; 17; 0;0; 10;0;0;1; 10;0;0;2; 0;53; 16;0; 0;8; 0;0]%N.
Definition udp_frame (ihl : N) : memory := frame_memory (ethernet [8; 0]%N ++ ipv4_udp ihl).
Definition tagged_frame : memory := frame_memory (ethernet [0x81; 0; 0x60; 5; 0; 0]%N).

Lemma frame_bytes l : Forall (λ x, x ⊑b 255%N) l → byte_memory (frame_memory l).
Proof. intros Hl a. by apply mem_write_bytes; [intros b; apply bits_sub_0 |]. Qed.

Definition parsed_frame (mem : memory) (len : Z) : parser :=
  match new_parser mem 0 (Some 1000%Z) len 3 7 0 with
  | Ok p => p
  | Throw _ => Parser mem 0 None 0 ∅
  end.

Lemma constructed_ok_witness :
  let p := parsed_frame (udp_frame 5) 42 in
  packet_of p !! tkey in_port = Some 3%N ∧ packet_of p !! tkey udp_dst = Some 0x1000%N.
Proof.
  destruct (constructed_ok (udp_frame 5) 0 1000 42 3 7 0) as (p & E & _ & Hp & _);
    [apply frame_bytes; by repeat constructor | done | by left | by vm_compute | done | done | done |].
  cbv zeta. unfold parsed_frame. rewrite E. split; [done |].
  assert (Hu : match new_parser (udp_frame 5) 0 (Some 1000%Z) 42 3 7 0 with
    | Ok p => packet_of p !! tkey udp_dst | Throw _ => None end = Some 0x1000%N) by by vm_compute.
  by rewrite E in Hu.
Defined.

Lemma udp_frame_ok : parser_ok (parsed_frame (udp_frame 5) 42).
Proof.
  unfold parsed_frame.
  destruct (new_parser_parsed (udp_frame 5) 0 1000 42 3 7 0) as (b & -> & Hb & _); [done | by left | by vm_compute |].
  split; [apply store_members_bytes, frame_bytes; by repeat constructor | apply Hb].
Qed.

(** An IPv4 frame gets a new destination. *)
Lemma parser_refines_witness :
  run_tracer sample_handler (parsed_frame (udp_frame 5) 42)
  = run_tracer sample_handler (packet_of (parsed_frame (udp_frame 5) 42)) ∧
  match run sample_handler (parsed_frame (udp_frame 5) 42) with
  | Ok (_, q) => packet_of q !! tkey eth_dst = Some 7%N
  | Throw _ => False
  end.
Proof.
  destruct (parser_refines sample_handler (parsed_frame (udp_frame 5) 42) udp_frame_ok sample_handler_wf) as [_ Ht].
  split; [exact Ht | by vm_compute].
Defined.

Lemma modify_in_place_witness :
  ∃ q, parser_modify (parsed_frame (udp_frame 5) 42) (Field udp_dst 5353 0xffff) = Ok q ∧
    memory_of q 1023%Z = 17%N ∧ packet_of q !! tkey udp_dst = Some 5353%N.
Proof.
  destruct (modify_in_place (parsed_frame (udp_frame 5) 42) (Field udp_dst 5353 0xffff) 1036) as (q & E & _ & _ & Hm & Hv);
    [apply udp_frame_ok | split; [done | split; [by apply msk_ok_test | done]] | by vm_compute |].
  exists q. split_and!; [done | |].
  - rewrite Hm by (cbn [f_type]; change (width udp_dst) with 2%Z; lia). by vm_compute.
  - rewrite Hv. cbn [f_type]. rewrite lookup_insert_eq. by vm_compute.
Defined.

Lemma truncated_ipv6_throws_witness :
  new_parser (frame_memory (ethernet [0x86; 0xdd]%N)) 0 (Some 1000%Z) 14 3 7 0 = Throw NullptrDereference.
Proof.
  apply (truncated_ipv6_throws (frame_memory (ethernet [0x86; 0xdd]%N)) 0 1000 14 3 7 0); [by left | done | by vm_compute].
Defined.

(** an IPv4 header that says it is too short makes fields overlap.  With a
    header length of 8 bytes the UDP ports are taken from the IPv4 header
    itself, and rewriting the source port rewrites the protocol. *)
Theorem short_header_overlaps :
  match run (HModify (Field udp_src 6 0xffff) (HReturn Id)) (parsed_frame (udp_frame 2) 42) with
  | Ok (_, q) => packet_of (parsed_frame (udp_frame 2) 42) !! tkey ip_proto = Some 17%N ∧
                 packet_of q !! tkey ip_proto = Some 6%N
  | Throw _ => False
  end.
Proof. by vm_compute. Qed.

Example tagged_frame_loses_priority :
  match run (HModify (Field vlan_vid 7 0xfff) (HReturn Id)) (parsed_frame tagged_frame 18) with
  | Ok (_, q) => memory_of (parsed_frame tagged_frame 18) 1014 = 0x60%N ∧ memory_of q 1014 = 0%N
  | Throw _ => False
  end.
Proof. by vm_compute. Qed.
