(* ===== verification/Topology.v ===== *)
(** * Topology: links and routes, Topology.hh and .cc, ILinkDiscovery.hh

    The graph of switches, with the ports of each link on its edges, and the
    list of links shown to users.  A vertex is known by the datapath id it
    holds.  Dijkstra's algorithm is the Boost library's: a parameter, with what
    its documentation promises of predecessors as hypotheses.  [computeRoute]
    follows the predecessors and ends, at the target when it is connected
    ([computeRoute_correct]). *)

From S2P Require Import Prelude.

Record switch_and_port : Type := SwitchPort { dpid : N; port : N }.

#[global] Instance switch_and_port_eq_dec : EqDecision switch_and_port.
Proof. solve_decision. Defined.

(** [link_property] *)
Record link : Type := LinkProperty { source : switch_and_port; target : switch_and_port; weight : Z }.

(** [Link], an object for users. *)
Record link_object : Type := LinkObject { lo_source : switch_and_port; lo_target : switch_and_port; lo_weight : Z; obj_id : N }.

Abbreviation data_link_route := (list switch_and_port).

Record topology : Type := Topology { vertices : gset N; edges : list link; topo : list link_object }.

Definition empty_topology : topology := Topology ∅ [] [].

(** [vertex]: made if there is none. *)
Definition vertex (s : topology) (d : N) : topology := Topology ({[ d ]} ∪ vertices s) (edges s) (topo s).

(** An edge of two vertices, whichever way it was added. *)
Definition joins (e : link) (u v : N) : bool :=
  bool_decide (dpid (source e) = u ∧ dpid (target e) = v) || bool_decide (dpid (source e) = v ∧ dpid (target e) = u).

(** [boost::edge]: the first one; [boost::remove_edge]: all of them. *)
Definition edge (g : list link) (u v : N) : option link := List.find (λ e, joins e u v) g.
Definition remove_edge (g : list link) (u v : N) : list link := List.filter (λ e, negb (joins e u v)) g.

Definition link_of (from to : switch_and_port) (l : link_object) : bool :=
  bool_decide (lo_source l = from ∧ lo_target l = to) || bool_decide (lo_source l = to ∧ lo_target l = from).

Definition getLink (s : topology) (from to : switch_and_port) : option link_object :=
  List.find (link_of from to) (topo s).

(** [id] is what [rand() % 1000 + 2000] gives. *)
Definition linkDiscovered (s : topology) (from to : switch_and_port) (id : N) : topology :=
  if bool_decide (dpid from = dpid to) then s
  else
    let s' := vertex (vertex s (dpid from)) (dpid to) in
    Topology (vertices s') (edges s' ++ [LinkProperty from to 1]) (topo s' ++ [LinkObject from to 5 id]).

(** The pointer that is found goes: the first such link. *)
Fixpoint remove_link (from to : switch_and_port) (l : list link_object) : list link_object :=
  match l with
  | [] => []
  | x :: l => if link_of from to x then l else x :: remove_link from to l
  end.

(** A deletion is reported of the pointer that is found.  The event manager
    finds no addition of a null pointer, and follows the null pointer to the
    event that it did not find ([addToEventList] of RestEvents). *)
Definition linkBroken (s : topology) (from to : switch_and_port) : res topology :=
  let s' := vertex (vertex s (dpid from)) (dpid to) in
  let g := remove_edge (edges s') (dpid from) (dpid to) in
  match getLink s' from to with
  | None => Throw Terminate
  | Some _ => Ok (Topology (vertices s') g (remove_link from to (topo s')))
  end.

(** The link, seen from one of its vertices. *)
Definition oriented (e : link) (v w : N) : res (switch_and_port * switch_and_port) :=
  if bool_decide (dpid (source e) = v) then
    _ ← require (bool_decide (dpid (target e) = w)) AssertionFailure; Ok (source e, target e)
  else
    _ ← require (bool_decide (dpid (target e) = v)) AssertionFailure;
    _ ← require (bool_decide (dpid (source e) = w)) AssertionFailure; Ok (target e, source e).

(** The loop along the predecessors. *)
Fixpoint follow (fuel : nat) (g : list link) (p : N → N) (v : N) : comp data_link_route :=
  match fuel with
  | O => NoFuel
  | S fuel =>
      if (p v =? v)%N then Ret []
      else match edge g v (p v) with
           | None => Raise AssertionFailure
           | Some e =>
               match oriented e v (p v) with
               | Throw x => Raise x
               | Ok (out, in_) => r ← follow fuel g p (p v); Ret (out :: in_ :: r)
               end
           end
  end.

Section Routes.
(** [dijkstra_shortest_paths_no_color_map]: the predecessors of the vertices
    on shortest paths from a start. *)
Context (dijkstra : list link → N → N → N).

Definition computeRoute (fuel : nat) (s : topology) (from to : N) : topology * comp data_link_route :=
  let s' := vertex (vertex s from) to in
  (s', follow fuel (edges s') (dijkstra (edges s') to) from).

(** ** What Boost promises *)

Definition adjacent (g : list link) (u v : N) : Prop := ∃ e, edge g u v = Some e.

Inductive connected (g : list link) : N → N → Prop :=
| connected_refl u : connected g u u
| connected_step u v w : adjacent g u v → connected g v w → connected g u w.

(** The predecessor of a vertex is the vertex itself, if there is no path or it
    is the start, and else the next vertex on a shortest path. *)
Class ShortestPaths (g : list link) (t : N) : Prop := {
  predecessor_start : dijkstra g t t = t;
  predecessor_none v : ¬ connected g v t → dijkstra g t v = v;
  predecessor_next v : connected g v t → v ≠ t → adjacent g v (dijkstra g t v) ∧ dijkstra g t v ≠ v;
  distance : ∃ dist : N → nat, ∀ v, connected g v t → v ≠ t → (dist (dijkstra g t v) < dist v)%nat
}.

(** A route: hops over links, from a vertex to a vertex. *)
Inductive route_between (g : list link) : N → data_link_route → N → Prop :=
| route_end u : route_between g u [] u
| route_hop e (out in_ : switch_and_port) r w :
    e ∈ g → (source e = out ∧ target e = in_ ∨ source e = in_ ∧ target e = out) →
    route_between g (dpid in_) r w → route_between g (dpid out) (out :: in_ :: r) w.

(** ** Edges *)

Lemma joins_spec e u v :
  joins e u v = true ↔ (dpid (source e) = u ∧ dpid (target e) = v) ∨ (dpid (source e) = v ∧ dpid (target e) = u).
Proof. unfold joins. by rewrite orb_true_iff, !bool_decide_eq_true. Qed.

Lemma edge_some g u v e : edge g u v = Some e → e ∈ g ∧ joins e u v = true.
Proof. unfold edge. intros H%find_some. by rewrite list_elem_of_In. Qed.

Lemma adjacent_sym g u v : adjacent g u v → adjacent g v u.
Proof.
  intros [e He]. destruct (edge_some _ _ _ _ He) as [Hin Hj]. unfold adjacent, edge.
  destruct (List.find (λ e, joins e v u) g) as [e'|] eqn:E; [by exists e' |]. exfalso.
  apply list_elem_of_In in Hin. pose proof (find_none _ _ E e Hin) as Hf. cbn in Hf.
  apply joins_spec in Hj. assert (joins e v u = true) by (apply joins_spec; tauto). congruence.
Qed.

Lemma oriented_ok e v w :
  joins e v w = true → v ≠ w →
  ∃ out in_, oriented e v w = Ok (out, in_) ∧ dpid out = v ∧ dpid in_ = w ∧
    (source e = out ∧ target e = in_ ∨ source e = in_ ∧ target e = out).
Proof.
  intros [[Hs Ht] | [Hs Ht]]%joins_spec Hne; unfold oriented.
  - rewrite bool_decide_eq_true_2 by done. cbn. rewrite bool_decide_eq_true_2 by done. cbn.
    eexists _, _. split_and!; [done | done | done | by left].
  - rewrite bool_decide_eq_false_2 by congruence. cbn. rewrite (bool_decide_eq_true_2 (dpid (target e) = v)) by done. cbn.
    rewrite bool_decide_eq_true_2 by done. cbn. eexists _, _. split_and!; [done | done | done | by right].
Qed.

(** The switches a route comes to. *)
Fixpoint arrivals (r : data_link_route) : list N :=
  match r with _ :: in_ :: r => dpid in_ :: arrivals r | _ => [] end.

Lemma follow_ok g t `{!ShortestPaths g t} (dist : N → nat) :
  (∀ v, connected g v t → v ≠ t → (dist (dijkstra g t v) < dist v)%nat) →
  ∀ n v, (dist v < n)%nat → connected g v t →
  ∃ r, (∀ m, (n ≤ m)%nat → follow m g (dijkstra g t) v = Ret r) ∧ route_between g v r t ∧
    Forall (λ w, (dist w < dist v)%nat) (arrivals r) ∧ NoDup (arrivals r).
Proof.
  intros Hdist n. induction n as [|n IH]; intros v Hn Hc; [lia |].
  destruct (decide (v = t)) as [-> | Hne].
  - exists []. split_and!; [| constructor | by apply Forall_nil | by apply NoDup_nil_2].
    intros [|m] Hm; [lia |]. cbn [follow]. by rewrite predecessor_start, N.eqb_refl.
  - destruct (predecessor_next v Hc Hne) as [[e He] Hp]. set (w := dijkstra g t v) in *.
    destruct (edge_some _ _ _ _ He) as [Hin Hj]. destruct (oriented_ok e v w Hj) as (out & in_ & Ho & <- & Hw & Hends); [done |].
    assert (Hcw : connected g w t) by (apply (connected_step g w (dpid out)); [apply adjacent_sym; by exists e | done]).
    pose proof (Hdist _ Hc Hne) as Hlt. fold w in Hlt.
    destruct (IH w) as (r & Hr & Hroute & Hall & Hnd); [lia | done |].
    exists (out :: in_ :: r). cbn [arrivals]. rewrite <- Hw in Hroute, Hall, Hlt. split_and!.
    + intros [|m] Hm; [lia |]. cbn [follow]. fold w. rewrite (proj2 (N.eqb_neq _ _)) by done.
      rewrite He, Ho, Hr by lia. done.
    + by apply route_hop with e.
    + apply Forall_cons_2; [done |]. eapply Forall_impl; [| exact Hall]. cbn. lia.
    + apply list.NoDup_cons. split; [| done]. intros Hi. rewrite Forall_elem in Hall. specialize (Hall _ Hi). cbn in Hall. lia.
Qed.

Lemma route_found s from to `{!ShortestPaths (edges s) to} :
  connected (edges s) from to →
  ∃ r, converges (λ n, snd (computeRoute n s from to)) r ∧ route_between (edges s) from r to ∧ NoDup (from :: arrivals r).
Proof.
  intros Hc. cbn [computeRoute snd vertex edges]. destruct (distance (g := edges s) (t := to)) as [dist Hd].
  destruct (follow_ok (edges s) to dist Hd (S (dist from)) from) as (r & Hr & Hroute & Hall & Hnd); [lia | done |].
  exists r. split_and!; [by eexists | done |]. apply list.NoDup_cons. split; [| done]. intros Hi.
  rewrite Forall_elem in Hall. specialize (Hall _ Hi). cbn in Hall. lia.
Qed.

(** ** Properties *)

(** C19: routes lead to their targets.  Whatever links were found and lost, the
    computation of a route between two switches ends without a failed
    assertion: with a route over links of the graph, each hop from a switch to
    the next, from the first switch to the second, which comes to no switch
    twice nor back to the first; or with none, if they are not connected or the
    same. *)
Theorem computeRoute_correct (s : topology) (from to : N) `{!ShortestPaths (edges s) to} :
  edges (fst (computeRoute 0 s from to)) = edges s ∧
  (connected (edges s) from to →
   ∃ r, converges (λ n, snd (computeRoute n s from to)) r ∧ route_between (edges s) from r to ∧
     NoDup (from :: arrivals r)) ∧
  (¬ connected (edges s) from to → converges (λ n, snd (computeRoute n s from to)) []).
Proof.
  split_and!; [done | |].
  - apply route_found, _.
  - intros Hc. exists 1%nat. intros [|n] Hn; [lia |]. cbn [computeRoute snd vertex edges follow].
    by rewrite predecessor_none, N.eqb_refl.
Qed.
End Routes.

(** ** A network *)

(** A line of three switches: 1 - 2 - 3. *)
Definition line : topology :=
  linkDiscovered (linkDiscovered empty_topology (SwitchPort 1 10) (SwitchPort 2 20) 2000)
    (SwitchPort 2 21) (SwitchPort 3 30) 2001.

Definition line_dijkstra (g : list link) (t v : N) : N :=
  if (v =? 1)%N then 2%N else if (v =? 2)%N then 3%N else v.

Lemma line_connected v : connected (edges line) v 3 → v = 1%N ∨ v = 2%N ∨ v = 3%N.
Proof.
  intros Hc. inversion Hc as [| u w x [e He] _]; subst; [by right; right |].
  destruct (edge_some _ _ _ _ He) as [Hin Hj%joins_spec]. cbn in Hin.
  apply elem_of_cons in Hin as [-> | Hin%list_elem_of_singleton]; [| subst e]; cbn in Hj; naive_solver.
Qed.

#[export] Instance line_shortest : ShortestPaths line_dijkstra (edges line) 3.
Proof.
  assert (H1 : adjacent (edges line) 1 2) by by eexists.
  assert (H2 : adjacent (edges line) 2 3) by by eexists.
  split.
  - done.
  - intros v Hv. unfold line_dijkstra. destruct (N.eqb_spec v 1) as [-> |].
    { destruct Hv. apply connected_step with 2%N; [done |]. apply connected_step with 3%N; [done | constructor]. }
    destruct (N.eqb_spec v 2) as [-> |]; [| done]. destruct Hv. apply connected_step with 3%N; [done | constructor].
  - intros v Hc Hne. destruct (line_connected v Hc) as [-> | [-> | ->]]; [by split | by split | done].
  - exists (λ v, N.to_nat (3 - v)). intros v Hc Hne.
    destruct (line_connected v Hc) as [-> | [-> | ->]]; [by vm_compute; lia | by vm_compute; lia | done].
Qed.

Lemma computeRoute_correct_witness :
  ∃ r, converges (λ n, snd (computeRoute line_dijkstra n line 1 3)) r ∧ route_between (edges line) 1 r 3 ∧
    r = [SwitchPort 1 10; SwitchPort 2 20; SwitchPort 2 21; SwitchPort 3 30].
Proof.
  destruct (computeRoute_correct line_dijkstra line 1 3) as (_ & [r (Hr & Hb & _)] & _).
  - apply connected_step with 2%N; [by eexists |]. apply connected_step with 3%N; [by eexists | constructor].
  - exists r. split_and!; [done | done |]. destruct Hr as [n Hn]. specialize (Hn (4 + n)%nat ltac:(lia)).
    vm_compute in Hn. by injection Hn as <-.
Defined.

(** one of two parallel links breaks, and the other goes with it.  Both
    links of two switches are known; when one is broken the graph joins the
    switches no more, although the other is still on the list. *)
Theorem parallel_link_lost (a b c d : switch_and_port) (i j : N) :
  dpid a ≠ dpid b → dpid c = dpid a → dpid d = dpid b →
  ∃ s, linkBroken (linkDiscovered (linkDiscovered empty_topology a b i) c d j) a b = Ok s ∧
    edges s = [] ∧ getLink s c d = Some (LinkObject c d 5 j).
Proof.
  intros Hab Hc Hd.
  assert (J1 : joins (LinkProperty a b 1) (dpid a) (dpid b) = true) by (apply joins_spec; by left).
  assert (J2 : joins (LinkProperty c d 1) (dpid a) (dpid b) = true) by (apply joins_spec; by left).
  assert (L : ∀ x y n, link_of x y (LinkObject x y 5 n) = true).
  { intros x y n. unfold link_of. apply orb_true_iff. left. by apply bool_decide_eq_true. }
  unfold linkBroken, linkDiscovered, remove_edge, getLink.
  rewrite (bool_decide_eq_false_2 (dpid a = dpid b)), (bool_decide_eq_false_2 (dpid c = dpid d)) by congruence.
  cbv zeta. cbn [empty_topology edges topo vertices app vertex List.filter remove_link List.find]. rewrite J1, J2, L.
  eexists. split_and!; [done | done |]. cbn [topo List.find]. by rewrite L.
Qed.

(** a link from a switch to itself.  It is ignored when it is discovered, and
    when it breaks a null pointer is followed. *)
Theorem loopback_link_broken (s : topology) (a b : switch_and_port) (i : N) :
  dpid a = dpid b → getLink s a b = None →
  linkDiscovered s a b i = s ∧ linkBroken (linkDiscovered s a b i) a b = Throw Terminate.
Proof.
  intros Hab Hn. unfold linkDiscovered. rewrite bool_decide_eq_true_2 by done. split; [done |].
  unfold linkBroken. change (getLink (vertex (vertex s (dpid a)) (dpid b)) a b) with (getLink s a b). by rewrite Hn.
Qed.

Lemma loopback_link_broken_witness :
  linkBroken (linkDiscovered empty_topology (SwitchPort 1 1) (SwitchPort 1 2) 2000) (SwitchPort 1 1) (SwitchPort 1 2) = Throw Terminate.
Proof. by apply (loopback_link_broken empty_topology (SwitchPort 1 1) (SwitchPort 1 2) 2000). Defined.

Lemma parallel_link_lost_witness :
  ∃ s, linkBroken (linkDiscovered (linkDiscovered empty_topology (SwitchPort 1 1) (SwitchPort 2 1) 2000)
                     (SwitchPort 1 2) (SwitchPort 2 2) 2001) (SwitchPort 1 1) (SwitchPort 2 1) = Ok s ∧
  edges s = [] ∧ getLink s (SwitchPort 1 2) (SwitchPort 2 2) = Some (LinkObject (SwitchPort 1 2) (SwitchPort 2 2) 5 2001).
Proof. by apply (parallel_link_lost (SwitchPort 1 1) (SwitchPort 2 1) (SwitchPort 1 2) (SwitchPort 2 2) 2000 2001). Defined.
