(* ===== verification/Forest.v ===== *)
(** * Forest: walks along the links of a graph without cycles

    What the spanning tree of STP.cc needs of graphs: a forest grows by links
    between vertices that nothing connects yet; a reduced walk does not take a
    link twice in a row; in a forest there is one reduced walk at most from a
    vertex to another, and one if they are connected. *)

From S2P Require Import Prelude Topology.

Inductive forest : list link → Prop :=
| forest_nil : forest []
| forest_cons e t : ¬ connected t (dpid (source e)) (dpid (target e)) → forest t → forest (e :: t).

Inductive walk (g : list link) : N → list link → N → Prop :=
| walk_nil u : walk g u [] u
| walk_cons e u v w es : e ∈ g → joins e u v = true → walk g v es w → walk g u (e :: es) w.

(** Never back over the link just taken. *)
Fixpoint reduced (es : list link) : Prop :=
  match es with e :: (e' :: _) as es' => e ≠ e' ∧ reduced es' | _ => True end.

(** ** Links *)

#[global] Instance link_eq_dec : EqDecision link.
Proof. solve_decision. Defined.

Lemma joins_sym e u v : joins e u v = joins e v u.
Proof. unfold joins. apply orb_comm. Qed.

(** A link and one of its vertices give the other. *)
Lemma joins_other e u v w : joins e u v = true → joins e v w = true → u = w.
Proof. rewrite !joins_spec. intros [[? ?] | [? ?]] [[? ?] | [? ?]]; congruence. Qed.

Lemma adjacent_link g e u v : e ∈ g → joins e u v = true → adjacent g u v.
Proof.
  intros He Hj. unfold adjacent, edge. destruct (List.find (λ e, joins e u v) g) as [e'|] eqn:E; [by exists e' |].
  apply list_elem_of_In in He. pose proof (find_none _ _ E e He) as Hf. cbn in Hf. congruence.
Qed.

Lemma connected_trans g u v w : connected g u v → connected g v w → connected g u w.
Proof. induction 1 as [| u v x Ha _ IH]; [done |]. intros H. apply connected_step with v; auto. Qed.

Lemma connected_sym g u v : connected g u v → connected g v u.
Proof.
  induction 1 as [| u v w Ha _ IH]; [constructor |]. apply connected_trans with v; [done |].
  apply connected_step with u; [by apply adjacent_sym | constructor].
Qed.

Lemma connected_incl g g' u v : (∀ e, e ∈ g → e ∈ g') → connected g u v → connected g' u v.
Proof.
  intros Hi. induction 1 as [| u v w [e He] _ IH]; [constructor |]. destruct (edge_some _ _ _ _ He) as [Hin Hj].
  apply connected_step with v; [| done]. apply adjacent_link with e; auto.
Qed.

(** What is the same at both ends of every link is the same where links connect. *)
Lemma connected_label {A} (f : N → A) g u v :
  (∀ e, e ∈ g → f (dpid (source e)) = f (dpid (target e))) → connected g u v → f u = f v.
Proof.
  intros Hf. induction 1 as [| u v w [e He] _ IH]; [done |]. rewrite <- IH.
  destruct (edge_some _ _ _ _ He) as [Hin Hj]. specialize (Hf e Hin).
  apply joins_spec in Hj as [[<- <-] | [<- <-]]; [done | by symmetry].
Qed.

Lemma connected_through g t u v :
  (∀ e, e ∈ g → connected t (dpid (source e)) (dpid (target e))) → connected g u v → connected t u v.
Proof.
  intros Ht. induction 1 as [| u v w [e He] _ IH]; [constructor |]. apply connected_trans with v; [| done].
  destruct (edge_some _ _ _ _ He) as [Hin Hj]. specialize (Ht e Hin).
  apply joins_spec in Hj as [[<- <-] | [<- <-]]; [done | by apply connected_sym].
Qed.

(** ** Walks *)

Lemma walk_connected g u es v : walk g u es v → connected g u v.
Proof.
  induction 1 as [| e u v w es He Hj _ IH]; [constructor |]. apply connected_step with v; [| done]. by apply adjacent_link with e.
Qed.

Lemma walk_app g u es1 es2 w : walk g u (es1 ++ es2) w ↔ ∃ v, walk g u es1 v ∧ walk g v es2 w.
Proof.
  split.
  - revert u. induction es1 as [|e es1 IH]; intros u H; cbn in H; [exists u; by split; [constructor |] |].
    inversion H as [| ? ? v ? ? He Hj Hw]; subst. destruct (IH v Hw) as (x & H1 & H2). exists x. split; [| done].
    by apply walk_cons with v.
  - intros (v & H1 & H2). induction H1 as [| e u v' v es He Hj _ IH]; [done |]. apply walk_cons with v'; auto.
Qed.

Lemma walk_rev g u es v : walk g u es v → walk g v (rev es) u.
Proof.
  induction 1 as [| e u v w es He Hj _ IH]; cbn; [constructor |]. apply walk_app. exists v. split; [done |].
  apply walk_cons with u; [done | by rewrite joins_sym | constructor].
Qed.

Lemma walk_incl g g' u es v : (∀ e, e ∈ es → e ∈ g') → walk g u es v → walk g' u es v.
Proof.
  intros Hi H. induction H as [| e u v w es He Hj _ IH]; [constructor |].
  apply walk_cons with v; [apply Hi; constructor | done |]. apply IH. intros e' He'. apply Hi. by constructor.
Qed.

Lemma walk_in g u es v : walk g u es v → ∀ e, e ∈ es → e ∈ g.
Proof.
  induction 1 as [| e u v w es He Hj _ IH]; intros e' H'; [by apply not_elem_of_nil in H' |].
  apply elem_of_cons in H' as [-> | H']; auto.
Qed.

(** ** Reduced walks *)

Lemma reduced_app_l es1 es2 : reduced (es1 ++ es2) → reduced es1.
Proof.
  induction es1 as [|e [|e' es1] IH]; [done | done |]. cbn [app reduced]. intros [H1 H2]. split; [done |]. by apply IH.
Qed.

Lemma reduced_tail e es : reduced (e :: es) → reduced es.
Proof. destruct es; [done |]. by intros [_ H]. Qed.

Lemma reduced_app_r es1 es2 : reduced (es1 ++ es2) → reduced es2.
Proof. induction es1 as [|e es1 IH]; [done |]. intros H%reduced_tail. by apply IH. Qed.

(** Two reduced walks, one after the other, where the links that meet differ. *)
Lemma reduced_join es1 e1 e2 es2 :
  reduced (es1 ++ [e1]) → reduced (e2 :: es2) → e1 ≠ e2 → reduced ((es1 ++ [e1]) ++ e2 :: es2).
Proof.
  intros H1 H2 Hne. induction es1 as [|e [|e' es1] IH]; [by split | |].
  - destruct H1 as [H1 _]. by cbn; split_and!.
  - cbn [app reduced] in H1 |- *. destruct H1 as [Ha Hb]. split; [done |]. by apply IH.
Qed.

Lemma reduced_rev es : reduced es → reduced (rev es).
Proof.
  induction es as [|e es IH]; [done |]. intros H. destruct es as [|e' es]; [done |]. destruct H as [Hne H].
  specialize (IH H). cbn [rev] in IH |- *. apply reduced_join; [done | done | congruence].
Qed.

(** ** Walks in a forest *)

Lemma walk_take g e es u w :
  walk g u es w → e ∈ es → ∃ es1 es2 a b,
    es = (es1 ++ e :: es2) ∧ (e ∉ es1) ∧ joins e a b = true ∧ walk g u es1 a ∧ walk g b es2 w.
Proof.
  intros H He. apply list_elem_of_split_l in He as (es1 & es2 & -> & Hn).
  apply walk_app in H as (a & H1 & H2). inversion H2 as [| ? ? b ? ? _ Hj Hw]; subst. by exists es1, es2, a, b.
Qed.

(** Without its newest link, a walk stays in the rest. *)
Lemma walk_rest e t u es v : e ∉ es → walk (e :: t) u es v → walk t u es v.
Proof.
  intros Hn H. apply (walk_incl (e :: t)); [| done]. intros e' He'.
  pose proof (walk_in _ _ _ _ H e' He') as Hin. apply elem_of_cons in Hin as [-> | Hin]; [done | done].
Qed.

Lemma not_connected_ends e t u v :
  ¬ connected t (dpid (source e)) (dpid (target e)) → joins e u v = true → ¬ connected t u v.
Proof. rewrite joins_spec. intros Hn [[<- <-] | [<- <-]] H; [done |]. by apply Hn, connected_sym. Qed.

(** A forest has no reduced walk from a vertex back to it. *)
Lemma forest_no_cycle t : forest t → ∀ u es, walk t u es u → reduced es → es = [].
Proof.
  induction 1 as [| e t Hn _ IH]; intros u es Hw Hr.
  { destruct es as [|e es]; [done |]. inversion Hw as [| ? ? ? ? ? He]; subst. by apply not_elem_of_nil in He. }
  destruct (decide (e ∈ es)) as [He | He]; [| by apply (IH u), Hr; apply walk_rest with e]. exfalso.
  destruct (walk_take _ _ _ _ _ Hw He) as (es1 & es2 & a & b & -> & Hn1 & Hj & H1 & H2).
  apply (walk_rest e) in H1; [| done]. pose proof (not_connected_ends e t a b Hn Hj) as Hab.
  destruct (decide (e ∈ es2)) as [He2 | He2].
  - destruct (walk_take _ _ _ _ _ H2 He2) as (m & es3 & c & d & -> & Hnm & Hj2 & Hm & H3).
    apply (walk_rest e) in Hm; [| done]. assert (Hc : c = b ∨ c = a).
    { apply joins_spec in Hj, Hj2. naive_solver congruence. }
    destruct Hc as [-> | ->]; [| by apply Hab, connected_sym, (walk_connected _ _ m)].
    apply reduced_app_r in Hr. assert (m = []) as ->; [| by destruct Hr].
    apply (IH b); [done |]. apply reduced_tail in Hr. by apply reduced_app_l in Hr.
  - apply (walk_rest e) in H2; [| done]. apply Hab, connected_sym.
    apply connected_trans with u; [by apply (walk_connected _ _ es2) | by apply (walk_connected _ _ es1)].
Qed.

(** From a vertex to another it has one reduced walk at most. *)
Lemma forest_unique t u es1 es2 v :
  forest t → walk t u es1 v → reduced es1 → walk t u es2 v → reduced es2 → es1 = es2.
Proof.
  intros Ht. revert u es2. induction es1 as [|e1 es1 IH]; intros u es2 H1 R1 H2 R2.
  - inversion H1; subst. symmetry. by apply (forest_no_cycle t Ht v).
  - destruct es2 as [|e2 es2].
    { inversion H2; subst. by apply (forest_no_cycle t Ht v). }
    inversion H1 as [| ? ? x ? ? He1 Hj1 Hw1]; inversion H2 as [| ? ? y ? ? He2 Hj2 Hw2]; subst.
    destruct (decide (e1 = e2)) as [<- | Hne].
    + rewrite joins_sym in Hj1. pose proof (joins_other e1 x u y Hj1 Hj2) as <-. f_equal.
      apply (IH x); [done | by apply reduced_tail in R1 | done | by apply reduced_tail in R2].
    + exfalso. assert (E : (rev es1 ++ [e1]) ++ e2 :: es2 = []); [| by destruct (rev es1)].
      apply (forest_no_cycle t Ht v).
      * apply walk_app. exists u. split; [| done]. by apply (walk_rev t u (e1 :: es1) v).
      * apply reduced_join; [| done | done]. by apply (reduced_rev (e1 :: es1)).
Qed.

(** Connected vertices have a reduced walk between them. *)
Lemma reduced_walk g u v : connected g u v → ∃ es, walk g u es v ∧ reduced es.
Proof.
  induction 1 as [u | u v w [e He] _ (es & Hw & Hr)]; [exists []; by split; [constructor |] |].
  destruct (edge_some _ _ _ _ He) as [Hin Hj]. destruct es as [|e' es].
  { exists [e]. split; [by apply walk_cons with v | done]. }
  destruct (decide (e = e')) as [<- | Hne].
  - inversion Hw as [| ? ? x ? ? _ Hj' Hw']; subst. pose proof (joins_other e u v x Hj Hj') as <-.
    exists es. split; [done |]. by apply reduced_tail in Hr.
  - exists (e :: e' :: es). split; [by apply walk_cons with v | by split].
Qed.
