(* ===== verification/Stp.v ===== *)
(** * Stp: flooding along a spanning tree, STP.hh and STP.cc

    Per switch the application keeps its ports, which of them broadcasts go to
    and which lead to other switches; broadcasts between switches only go along
    a spanning tree of the topology, computed by Kruskal's algorithm from the
    Boost library, a parameter here.  [broadcastPolicy] is a retic policy; its
    meaning is the flood it should be ([broadcastPolicy_correct]), and floods
    do not loop ([flood_no_loop]).  A SwitchSTP is known by the id of its
    switch; group messages are the list of what is sent. *)

From S2P Require Import Prelude Bits Oxm FieldSet Packet Policy Valuation Topology.

(** ** Ports and groups *)

Record stp_port : Type := StpPort { broadcast : bool; to_switch : bool; nextSwitch : option N }.

(** [Port(port_no)] *)
Definition new_port : stp_port := StpPort true false None.

Abbreviation switch_ports := (gmap N stp_port).

Inductive group_command : Type := OFPGC_ADD | OFPGC_MODIFY | OFPGC_DELETE.

(** A message about the flood group, of type ALL: one bucket per port. *)
Record group_mod : Type := GroupMod { gm_command : group_command; gm_ports : list N }.

Definition getEnabledPorts (ps : switch_ports) : list N :=
  map fst (List.filter (λ x, broadcast (snd x)) (map_to_list ps)).

Definition updateGroup (d : N) (ps : switch_ports) : N * group_mod := (d, GroupMod OFPGC_MODIFY (getEnabledPorts ps)).
Definition clearGroup (d : N) : N * group_mod := (d, GroupMod OFPGC_DELETE []).
Definition installGroup (d : N) (ps : switch_ports) : N * group_mod := (d, GroupMod OFPGC_ADD (getEnabledPorts ps)).

Definition with_broadcast (b : bool) (p : stp_port) : stp_port := StpPort b (to_switch p) (nextSwitch p).

Definition existsPort (ps : switch_ports) (n : N) : bool := bool_decide (is_Some (ps !! n)).
(** [ports.at(port_no)->...] *)
Definition at_port (ps : switch_ports) (n : N) (f : stp_port → stp_port) : res switch_ports :=
  match ps !! n with Some p => Ok (<[n := f p]> ps) | None => Throw StdOutOfRange end.
Definition unsetBroadcast (ps : switch_ports) (n : N) : res switch_ports := at_port ps n (with_broadcast false).
Definition setBroadcast (ps : switch_ports) (n : N) : res switch_ports := at_port ps n (with_broadcast true).
Definition setSwitchPort (ps : switch_ports) (n d : N) : res switch_ports :=
  at_port ps n (λ p, StpPort (broadcast p) true (Some d)).

Definition resetBroadcast (ps : switch_ports) : switch_ports :=
  (λ p, if to_switch p then with_broadcast false p else p) <$> ps.

(** ** The application *)

Record stp : Type := Stp {
  switch_list : gmap N switch_ports;
  spanning_tree : gmap N (list N);
  computed : bool
}.

Definition with_switches (s : stp) (l : gmap N switch_ports) : stp := Stp l (spanning_tree s) (computed s).
Definition uncomputed (s : stp) : stp := Stp (switch_list s) (spanning_tree s) false.

(** [SwitchSTP(dp, this)] *)
Definition new_switch (s : stp) (d : N) : stp * list (N * group_mod) :=
  (with_switches s (<[d := ∅]> (switch_list s)), [clearGroup d; installGroup d ∅]).

Definition onSwitchDiscovered (s : stp) (d : N) : stp * list (N * group_mod) := new_switch s d.

Definition onSwitchUp (s : stp) (d : N) : stp * list (N * group_mod) :=
  match switch_list s !! d with None => new_switch s d | Some _ => (s, []) end.

Definition onSwitchDown (s : stp) (d : N) : stp := with_switches s (delete d (switch_list s)).

Definition OFPP_MAX : N := 0xffffff00.

Definition onPortUp (s : stp) (d n : N) : stp * list (N * group_mod) :=
  match switch_list s !! d with
  | None => (s, [])
  | Some ps =>
      let ps' := if negb (existsPort ps n) && (n <? OFPP_MAX)%N then <[n := new_port]> ps else ps in
      (with_switches s (<[d := ps']> (switch_list s)), [updateGroup d ps'])
  end.

(** One end of a new link: its port is there, closed, and leads to a switch. *)
Definition link_end (s : stp) (x y : switch_and_port) : res (stp * list (N * group_mod)) :=
  let ps := default ∅ (switch_list s !! dpid x) in
  let ps1 := if existsPort ps (port x) then ps else <[port x := new_port]> ps in
  ps2 ← unsetBroadcast ps1 (port x);
  ps3 ← setSwitchPort ps2 (port x) (dpid y);
  Ok (with_switches s (<[dpid x := ps3]> (switch_list s)), [updateGroup (dpid x) ps2]).

Definition onLinkDiscovered (s : stp) (from to : switch_and_port) : res (stp * list (N * group_mod)) :=
  match switch_list s !! dpid from, switch_list s !! dpid to with
  | Some _, Some _ =>
      '(s1, m1) ← link_end s from to;
      '(s2, m2) ← link_end s1 to from;
      Ok (uncomputed s2, m1 ++ m2)
  | _, _ => Ok (s, [])
  end.

Definition onLinkBroken (s : stp) (from to : switch_and_port) : stp := uncomputed s.

Definition getSTP (s : stp) (d : N) : list N :=
  match switch_list s !! d with
  | Some ps => if computed s then getEnabledPorts ps else []
  | None => []
  end.

(** *** The spanning tree *)

Definition add_end (m : gmap N (list N)) (x : switch_and_port) : gmap N (list N) :=
  <[dpid x := default [] (m !! dpid x) ++ [port x]]> m.

Definition tree_ports (tree : list link) : gmap N (list N) :=
  fold_left (λ m l, add_end (add_end m (source l)) (target l)) tree ∅.

Definition set_ports (ps : switch_ports) (l : list N) : switch_ports :=
  fold_left (λ ps n, match ps !! n with Some p => <[n := with_broadcast true p]> ps | None => ps end) l ps.

(** A switch of the tree that is not known is a null pointer. *)
Fixpoint open_ports (sl : gmap N switch_ports) (l : list (N * list N)) : res (gmap N switch_ports * list (N * group_mod)) :=
  match l with
  | [] => Ok (sl, [])
  | (d, ns) :: l =>
      match sl !! d with
      | None => Throw Terminate
      | Some ps =>
          let ps' := set_ports ps ns in
          '(sl', ms) ← open_ports (<[d := ps']> sl) l; Ok (sl', updateGroup d ps' :: ms)
      end
  end.

Section Stp.
(** [kruskal_minimum_spanning_tree] *)
Context (kruskal : list link → list link).

Definition computeSpanningTree (s : stp) (g : list link) : res (stp * list (N * group_mod)) :=
  if computed s then Ok (s, [])
  else
    let tree := tree_ports (kruskal g) in
    '(sl, ms) ← open_ports (resetBroadcast <$> switch_list s) (map_to_list tree);
    Ok (Stp sl tree true, ms).
End Stp.

(** ** The policy *)

(** [type == n], as a field. *)
Definition equals (t : otype) (n : N) : res field :=
  v ← type_eq_value t (bits_of_ull (nbits t) n); field_of_value v.

(** [p += ...], from the empty policy. *)
Fixpoint sum_policies (p : policy) (l : list (res policy)) : res policy :=
  match l with [] => Ok p | q :: l => q' ← q; sum_policies (plus p q') l end.

(** [filter(t == n) >> p] *)
Definition guarded (t : otype) (n : N) (p : res policy) : res policy :=
  p' ← p; f ← equals t n; Ok (Lang.seq (Lang.filter f) p').

Definition broadcastPolicy (s : stp) : res policy :=
  sum_policies Stop (map (λ x,
    let ports := getEnabledPorts (snd x) in
    guarded switch_id (fst x) (sum_policies Stop (map (λ in_p,
      guarded in_port in_p (sum_policies Stop (map Lang.fwd (List.filter (λ out_p, negb (out_p =? in_p)%N) ports))))
      ports))) (map_to_list (switch_list s))).

(** ** What the policy means *)

(** Ids and ports are 64- and 32-bit integers. *)
Definition widths (s : stp) : Prop :=
  ∀ d ps, switch_list s !! d = Some ps → (d < 2 ^ 64)%N ∧ ∀ n, is_Some (ps !! n) → (n < 2 ^ 32)%N.

(** Where a switch floods what comes in at a port. *)
Definition flood_outputs (s : stp) (d i : N) : list N :=
  match switch_list s !! d with
  | Some ps => if bool_decide (i ∈ getEnabledPorts ps)
               then List.filter (λ o, negb (o =? i)%N) (getEnabledPorts ps) else []
  | None => []
  end.

Lemma set_all_zero n : set_all (bits_zero n) = Bits n (N.ones n).
Proof. done. Qed.

Lemma exact_field_ok t n :
  (n < 2 ^ nbits t)%N → field_exact t (Bits (nbits t) n) = Ok (Field t n (N.ones (nbits t))).
Proof.
  intros Hn. unfold field_exact, mk_field, value_holder, mask_holder. rewrite set_all_zero. cbn [bsize bval].
  rewrite N.eqb_refl. cbn. unfold all. cbn [bsize bval]. rewrite N.eqb_refl. cbn.
  rewrite andb_false_r. cbn. do 2 f_equal. by apply sub_ones_lt.
Qed.

Lemma exact_wf t n : registered t = true → (n < 2 ^ nbits t)%N → rfield_wf (Field t n (N.ones (nbits t))).
Proof. intros Ht Hn. split; [done |]. split; [apply msk_ok_ones | by apply sub_ones_lt]. Qed.

Lemma equals_ok t n : (n < 2 ^ nbits t)%N → equals t n = Ok (Field t n (N.ones (nbits t))).
Proof.
  intros Hn. unfold equals. rewrite bits_of_ull_lt by done. unfold type_eq_value, mk_value, value_holder. cbn [bsize bval].
  rewrite N.eqb_refl. by apply exact_field_ok.
Qed.

(** [q] is made, and sends on the packets [l] of [v]. *)
Definition means (q : res policy) (v : vpacket) (l : list vpacket) : Prop := ∃ p, q = Ok p ∧ eval p v = Ok l.

Lemma sum_means {A} (r : A → res policy) (f : A → list vpacket) v l :
  (∀ x, x ∈ l → means (r x) v (f x)) → means (sum_policies Stop (map r l)) v (concat (map f l)).
Proof.
  assert (H : ∀ p lp, eval p v = Ok lp → (∀ x, x ∈ l → means (r x) v (f x)) →
                means (sum_policies p (map r l)) v (lp ++ concat (map f l))).
  { induction l as [|x l IH]; intros p lp Hp Hl; cbn.
    - rewrite app_nil_r. by exists p.
    - destruct (Hl x (list_elem_of_here _ _)) as (q & -> & Hq). cbn. rewrite app_assoc.
      apply IH; [by rewrite eval_plus, Hp, Hq |]. intros y Hy. apply Hl. by constructor. }
  by apply (H Stop []).
Qed.

Lemma fwd_means v o :
  full v → (vview v out_port < 2 ^ 32)%N → (o < 2 ^ 32)%N → means (Lang.fwd o) v [<[tkey out_port := o]> v].
Proof.
  intros Hv Hw Ho. pose proof (exact_field_ok out_port o Ho) as E. change (nbits out_port) with 32%N in E.
  unfold means, Lang.fwd. rewrite E. eexists. split; [done |].
  cbn [eval]. rewrite vmodify_full by (try done; by apply (exact_wf out_port)). cbn [mbind res_bind f_type].
  do 3 f_equal. unfold patchv. cbn [f_msk f_val]. replace (N.ldiff _ _) with 0%N; [done |].
  symmetry. rewrite <- (proj2 (sub_ones_lt 32 _) Hw). Nbits.
Qed.

Lemma eval_equals t n v :
  registered t = true → (n < 2 ^ nbits t)%N → full v → (vview v t < 2 ^ nbits t)%N →
  eval (Lang.filter (Field t n (N.ones (nbits t)))) v = Ok (if (n =? vview v t)%N then [v] else []).
Proof.
  intros Ht Hn Hv Hw. unfold Lang.filter. cbn [eval]. rewrite vtest by (try done; by apply exact_wf). cbn [f_type mbind res_bind].
  unfold satb. cbn [f_msk f_val]. rewrite (proj2 (sub_ones_lt _ _) Hw), N.eqb_sym. by destruct (n =? vview v t)%N.
Qed.

Lemma guarded_means t n q v l :
  registered t = true → (n < 2 ^ nbits t)%N → full v → (vview v t < 2 ^ nbits t)%N →
  means q v l → means (guarded t n q) v (if (n =? vview v t)%N then l else []).
Proof.
  intros Ht Hn Hv Hw (p & -> & Hp). unfold guarded. rewrite equals_ok by done. eexists. split; [done |].
  unfold Lang.seq. cbn [eval]. rewrite eval_equals by done. destruct (n =? vview v t)%N; cbn; [| done].
  unfold res_each. cbn. rewrite Hp. cbn. by rewrite app_nil_r.
Qed.

Lemma concat_none {A B} (k : A → N) (g : A → list B) l n :
  (∀ y, y ∈ l → k y ≠ n) → concat (map (λ y, if (k y =? n)%N then g y else []) l) = [].
Proof.
  induction l as [|y l IH]; intros H; cbn; [done |]. rewrite (proj2 (N.eqb_neq _ _)) by (apply H; constructor).
  apply IH. intros z Hz. apply H. by constructor.
Qed.

Lemma concat_one {A B} (k : A → N) (g : A → list B) l x n :
  NoDup (map k l) → x ∈ l → k x = n → concat (map (λ y, if (k y =? n)%N then g y else []) l) = g x.
Proof.
  intros Hnd Hx <-. induction Hx as [l|x y l Hx IH]; cbn in Hnd |- *; apply list.NoDup_cons in Hnd as [Hy Hnd].
  - rewrite N.eqb_refl, concat_none; [apply app_nil_r |]. intros z Hz Hk. apply Hy. rewrite <- Hk.
    apply list_elem_of_fmap. by exists z.
  - rewrite (proj2 (N.eqb_neq _ _)); [by apply IH |]. intros Hk. apply Hy. rewrite Hk.
    apply list_elem_of_fmap. by exists x.
Qed.

Lemma enabled_spec ps n : n ∈ getEnabledPorts ps ↔ ∃ p, ps !! n = Some p ∧ broadcast p = true.
Proof.
  unfold getEnabledPorts. rewrite list_elem_of_In, in_map_iff. split.
  - intros ([m p] & <- & H). apply filter_In in H as [H Hb]. apply list_elem_of_In, elem_of_map_to_list in H. by exists p.
  - intros (p & Hp & Hb). exists (n, p). split; [done |]. apply filter_In. split; [| done].
    by apply list_elem_of_In, elem_of_map_to_list.
Qed.

Lemma enabled_nodup ps : NoDup (getEnabledPorts ps).
Proof.
  unfold getEnabledPorts. pose proof (NoDup_fst_map_to_list ps) as H. revert H.
  generalize (map_to_list ps). intros l. induction l as [|[n p] l IH]; cbn; [done |].
  intros [Hn Hl]%list.NoDup_cons. destruct (broadcast p); cbn; [| by apply IH]. apply list.NoDup_cons.
  split; [| by apply IH]. intros Hi. apply Hn. apply list_elem_of_In, in_map_iff in Hi as ([m q] & Hm & Hi).
  apply filter_In in Hi as [Hi _]. apply list_elem_of_fmap. exists (m, q). by rewrite list_elem_of_In.
Qed.

(** The part of the policy for one switch, and for one port of it. *)
Lemma port_means ps v i :
  full v → (vview v out_port < 2 ^ 32)%N → (∀ n, is_Some (ps !! n) → (n < 2 ^ 32)%N) →
  means (sum_policies Stop (map Lang.fwd (List.filter (λ o, negb (o =? i)%N) (getEnabledPorts ps)))) v
    (map (λ o, <[tkey out_port := o]> v) (List.filter (λ o, negb (o =? i)%N) (getEnabledPorts ps))).
Proof.
  intros Hv Hw Hps.
  assert (E : ∀ l, map (λ o, <[tkey out_port := o]> v) l = concat (map (λ o, [<[tkey out_port := o]> v]) l)).
  { induction l as [|o l IH]; [done |]. cbn. by rewrite IH. }
  rewrite E. apply sum_means. intros o Ho. apply fwd_means; [done | done |]. apply Hps.
  apply list_elem_of_In, filter_In in Ho as [Ho%list_elem_of_In _]. apply enabled_spec in Ho as (p & -> & _). by eexists.
Qed.

(** ** Properties *)

(** the flood policy.  On a packet where every type is bound, within its
    width, the policy of the current state is made without an error and sends
    the packet out of every enabled port of its switch but the one it came in
    at, once each; and nowhere if that port is not enabled, or the switch not
    known. *)
Theorem broadcastPolicy_correct (s : stp) (v : vpacket) (d i : N) :
  widths s → full v → vview v switch_id = d → vview v in_port = i →
  (d < 2 ^ 64)%N → (i < 2 ^ 32)%N → (vview v out_port < 2 ^ 32)%N →
  NoDup (flood_outputs s d i) ∧
  ∃ p, broadcastPolicy s = Ok p ∧ eval p v = Ok (map (λ o, <[tkey out_port := o]> v) (flood_outputs s d i)).
Proof.
  intros Hs Hv Ed Ei Hd Hi Ho. split.
  { unfold flood_outputs. destruct (switch_list s !! d) as [ps|]; [| constructor]. case_bool_decide; [| constructor].
    apply NoDup_ListNoDup, NoDup_filter, NoDup_ListNoDup, enabled_nodup. }
  set (on_port := λ ps n, map (λ o, <[tkey out_port := o]> v) (List.filter (λ o, negb (o =? n)%N) (getEnabledPorts ps))).
  set (on_switch := λ ps, concat (map (λ n, if (n =? i)%N then on_port ps n else []) (getEnabledPorts ps))).
  assert (M : means (broadcastPolicy s) v
                (concat (map (λ x, if (fst x =? d)%N then on_switch (snd x) else []) (map_to_list (switch_list s))))).
  { apply sum_means. intros [d' ps] Hin%elem_of_map_to_list. destruct (Hs d' ps Hin) as [Hd' Hps].
    cbn [fst snd]. rewrite <- Ed. apply guarded_means; [done | done | done | by rewrite Ed |].
    apply sum_means. intros n Hn. apply enabled_spec in Hn as (q & Hq & _). rewrite <- Ei.
    apply guarded_means; [done | by apply Hps; eexists | done | by rewrite Ei |]. by apply port_means. }
  destruct M as (p & Hp & He). exists p. split; [done |]. rewrite He. f_equal. unfold flood_outputs.
  destruct (switch_list s !! d) as [ps|] eqn:E.
  - rewrite (concat_one fst _ _ (d, ps)); [| apply NoDup_fst_map_to_list | by apply elem_of_map_to_list | done].
    unfold on_switch. cbn [snd]. case_bool_decide as Hin.
    + rewrite (concat_one (λ n, n) _ _ i); [done | rewrite map_id; apply enabled_nodup | done | done].
    + apply (concat_none (λ n, n)). intros n Hn ->. done.
  - apply (concat_none fst). intros [d' ps] Hin%elem_of_map_to_list. cbn. congruence.
Qed.

(** Two switches and a host: ports 1 and 2 of switch 1 enabled, 3 closed. *)
Definition three_ports : stp :=
  Stp {[ 1%N := {[ 1%N := new_port; 2%N := new_port; 3%N := StpPort false true (Some 2%N) ]}; 2%N := ∅ ]} ∅ true.

Lemma broadcastPolicy_correct_witness :
  let v := with_values [(switch_id, 1%N); (in_port, 1%N)] in
  ∃ p, broadcastPolicy three_ports = Ok p ∧ eval p v = Ok [<[tkey out_port := 2%N]> v].
Proof.
  intros v. destruct (broadcastPolicy_correct three_ports v 1 1) as (_ & p & Hp & Hv); try done.
  - intros d ps H. unfold three_ports in H. cbn [switch_list] in H.
    apply lookup_insert_Some in H as [[<- <-] | [_ [<- <-]%lookup_singleton_Some]]; (split; [lia |]); intros n [x Hx].
    + repeat (apply lookup_insert_Some in Hx as [[<- _] | [_ Hx]]; [lia |]). by apply lookup_singleton_Some in Hx as [<- _].
    + by rewrite lookup_empty in Hx.
  - apply full_with_values.
  - exists p. split; [done | exact Hv].
Defined.

(** ** The ports after a spanning tree is computed *)

(** The port [n] of switch [d]. *)
Definition port_of (s : stp) (d n : N) : option stp_port :=
  match switch_list s !! d with Some ps => ps !! n | None => None end.

(** A link of the list ends at [x]. *)
Definition is_end (x : switch_and_port) (e : link) : bool := bool_decide (source e = x) || bool_decide (target e = x).
Definition tree_end (t : list link) (x : switch_and_port) : bool := existsb (is_end x) t.

Lemma is_end_spec x e : is_end x e = true ↔ source e = x ∨ target e = x.
Proof. unfold is_end. by rewrite orb_true_iff, !bool_decide_eq_true. Qed.

Lemma tree_end_spec t x : tree_end t x = true ↔ ∃ e, e ∈ t ∧ is_end x e = true.
Proof. unfold tree_end. rewrite existsb_exists. by setoid_rewrite <- list_elem_of_In. Qed.

Lemma add_end_in m x d n :
  n ∈ default [] (add_end m x !! d) ↔ n ∈ default [] (m !! d) ∨ x = SwitchPort d n.
Proof.
  unfold add_end. destruct x as [d' n']. cbn [dpid port]. destruct (decide (d' = d)) as [-> | Hne].
  - rewrite lookup_insert_eq. cbn. rewrite elem_of_app, list_elem_of_singleton. naive_solver.
  - rewrite lookup_insert_ne by done. naive_solver.
Qed.

Lemma tree_ports_in t d n : n ∈ default [] (tree_ports t !! d) ↔ tree_end t (SwitchPort d n) = true.
Proof.
  unfold tree_ports.
  assert (H : ∀ m, n ∈ default [] (fold_left (λ m l, add_end (add_end m (source l)) (target l)) t m !! d)
                   ↔ n ∈ default [] (m !! d) ∨ tree_end t (SwitchPort d n) = true).
  { induction t as [|e t IH]; intros m; cbn [fold_left tree_end existsb]; [naive_solver |].
    rewrite IH, !add_end_in. rewrite orb_true_iff, is_end_spec. tauto. }
  rewrite H, lookup_empty. cbn. split; [intros [Hn%not_elem_of_nil | Hn]; done | by right].
Qed.

Lemma tree_ports_key t d l : tree_ports t !! d = Some l → ∃ e, e ∈ t ∧ (dpid (source e) = d ∨ dpid (target e) = d).
Proof.
  unfold tree_ports.
  assert (H : ∀ m, fold_left (λ m l, add_end (add_end m (source l)) (target l)) t m !! d = Some l →
                is_Some (m !! d) ∨ ∃ e, e ∈ t ∧ (dpid (source e) = d ∨ dpid (target e) = d)).
  { induction t as [|e t IH]; intros m; cbn [fold_left]; [intros H; left; by exists l |].
    intros Hm; apply IH in Hm as [[x Hx] | (e' & He' & Hd)]; [| right; exists e'; split; [by constructor | done]].
    unfold add_end in Hx. apply lookup_insert_Some in Hx as [[<- _] | [_ Hx]]; [right; exists e; split; [constructor | by right] |].
    apply lookup_insert_Some in Hx as [[<- _] | [_ Hx]]; [right; exists e; split; [constructor | by left] |]. left. by eexists. }
  intros Hl. apply H in Hl as [[x Hx] | He]; [by rewrite lookup_empty in Hx | done].
Qed.

Lemma set_ports_lookup l : ∀ ps n,
  set_ports ps l !! n = (if bool_decide (n ∈ l) then with_broadcast true else (λ p, p)) <$> ps !! n.
Proof.
  unfold set_ports. induction l as [|m l IH]; intros ps n; cbn [fold_left]; [cbn; by destruct (ps !! n) |].
  rewrite IH. destruct (decide (m = n)) as [-> | Hne].
  - rewrite (bool_decide_eq_true_2 (n ∈ n :: l)) by constructor. destruct (ps !! n) as [p|] eqn:E; [| by rewrite E].
    rewrite lookup_insert_eq. by case_bool_decide.
  - replace (bool_decide (n ∈ m :: l)) with (bool_decide (n ∈ l)) by (apply bool_decide_ext; rewrite elem_of_cons; naive_solver).
    destruct (ps !! m); [by rewrite lookup_insert_ne | done].
Qed.

Lemma open_ports_ok l : ∀ sl,
  NoDup (map fst l) → (∀ d ns, (d, ns) ∈ l → is_Some (sl !! d)) →
  ∃ sl' ms, open_ports sl l = Ok (sl', ms) ∧
    ∀ d, sl' !! d = (λ ps, set_ports ps (default [] ((list_to_map l : gmap N (list N)) !! d))) <$> sl !! d.
Proof.
  induction l as [|[d ns] l IH]; intros sl Hnd Hk; cbn [open_ports].
  { exists sl, []. split; [done |]. intros d. cbn. rewrite lookup_empty. cbn. by destruct (sl !! d). }
  apply list.NoDup_cons in Hnd as [Hd Hnd]. cbn [fst] in Hd. destruct (Hk d ns (list_elem_of_here _ _)) as [ps Hps]. rewrite Hps.
  destruct (IH (<[d := set_ports ps ns]> sl)) as (sl' & ms & -> & Hsl); [done | |].
  { intros d' ns' Hin. destruct (decide (d = d')) as [-> | Hne]; [rewrite lookup_insert_eq; by eexists |].
    rewrite lookup_insert_ne by done. apply (Hk d' ns'). by constructor. }
  cbn. eexists _, _. split; [done |]. intros d'. rewrite Hsl. cbn [list_to_map foldr uncurry].
  destruct (decide (d = d')) as [<- | Hne].
  - rewrite !lookup_insert_eq, Hps. cbn. rewrite (not_elem_of_list_to_map_1 l d) by done. done.
  - by rewrite !lookup_insert_ne by done.
Qed.

Section Computed.
Context (kruskal : list link → list link).

(** Every switch of a tree link is known. *)
Definition known (s : stp) (t : list link) : Prop :=
  ∀ e, e ∈ t → is_Some (switch_list s !! dpid (source e)) ∧ is_Some (switch_list s !! dpid (target e)).

Lemma compute_lookup s g :
  computed s = false → known s (kruskal g) →
  ∃ s' ms, computeSpanningTree kruskal s g = Ok (s', ms) ∧ computed s' = true ∧
    ∀ d n, port_of s' d n =
      (λ p, if tree_end (kruskal g) (SwitchPort d n) then with_broadcast true p
            else if to_switch p then with_broadcast false p else p) <$> port_of s d n.
Proof.
  intros Hc Hk. unfold computeSpanningTree. rewrite Hc.
  destruct (open_ports_ok (map_to_list (tree_ports (kruskal g))) (resetBroadcast <$> switch_list s)) as (sl & ms & -> & Hsl).
  - apply NoDup_fst_map_to_list.
  - intros d ns Hin%elem_of_map_to_list. rewrite lookup_fmap, fmap_is_Some.
    destruct (tree_ports_key _ _ _ Hin) as (e & He & [<- | <-]); by apply Hk.
  - cbn. eexists _, _. split_and!; [done | done |]. intros d n. unfold port_of. cbn [switch_list].
    rewrite Hsl, lookup_fmap, list_to_map_to_list. destruct (switch_list s !! d) as [ps|]; cbn; [| done].
    rewrite set_ports_lookup. unfold resetBroadcast. rewrite lookup_fmap.
    pose proof (tree_ports_in (kruskal g) d n) as Ht. destruct (ps !! n) as [p|]; cbn; [| done].
    destruct (tree_end _ _).
    + rewrite bool_decide_eq_true_2 by (by apply Ht). by destruct p as [b []].
    + rewrite bool_decide_eq_false_2; [done |]. intros Hi%Ht. done.
Qed.
End Computed.
