(* ===== verification/StpFlood.v ===== *)
(** * StpFlood: broadcasts reach every switch once

    The flood of Stp, followed from switch to switch: a broadcast leaves a
    switch at each port of [flood_outputs], goes over the links there, and
    comes in at their other ends.  With the tree of Kruskal's algorithm, as its
    documentation describes it, a flood comes to no switch twice
    ([flood_no_loop]) and to every switch that links connect ([flood_reaches]). *)

From S2P Require Import Prelude Topology Forest Stp.

(** The link goes from [x] to [y], or from [y] to [x]. *)
Definition ends (e : link) (x y : switch_and_port) : Prop :=
  source e = x ∧ target e = y ∨ source e = y ∧ target e = x.

(** A broadcast at [x] goes over the links listed and comes in at the last port. *)
Inductive floods (s : stp) (g : list link) : switch_and_port → list link → switch_and_port → Prop :=
| floods_here x : floods s g x [] x
| floods_on x o e y es z :
    o ∈ flood_outputs s (dpid x) (port x) → e ∈ g → ends e (SwitchPort (dpid x) o) y →
    floods s g y es z → floods s g x (e :: es) z.

(** Both ends of every link are ports that lead to a switch. *)
Definition wired (s : stp) (g : list link) : Prop :=
  ∀ e x, e ∈ g → is_end x e = true → ∃ p, port_of s (dpid x) (port x) = Some p ∧ to_switch p = true.

(** A port ends one link at most. *)
Definition point_to_point (g : list link) : Prop :=
  ∀ e e' x, e ∈ g → e' ∈ g → is_end x e = true → is_end x e' = true → e = e'.

Section Flood.
Context (kruskal : list link → list link).

(** A spanning forest: links of the graph, without cycles, that connect what it connects. *)
Class SpanningForest (g : list link) : Prop := {
  tree_sub e : e ∈ kruskal g → e ∈ g;
  tree_forest : forest (kruskal g);
  tree_spans u v : connected g u v → connected (kruskal g) u v
}.

Lemma ends_left e x y : ends e x y → is_end x e = true.
Proof. rewrite is_end_spec. intros [[? _] | [_ ?]]; auto. Qed.
Lemma ends_right e x y : ends e x y → is_end y e = true.
Proof. rewrite is_end_spec. intros [[_ ?] | [? _]]; auto. Qed.
Lemma ends_joins e x y : ends e x y → joins e (dpid x) (dpid y) = true.
Proof. rewrite joins_spec. intros [[<- <-] | [<- <-]]; auto. Qed.

Lemma joins_ends e u v : joins e u v = true → ∃ x y, ends e x y ∧ dpid x = u ∧ dpid y = v.
Proof.
  rewrite joins_spec. intros [[<- <-] | [<- <-]]; [exists (source e), (target e) | exists (target e), (source e)];
    (split_and!; [| done | done]); unfold ends; auto.
Qed.

Lemma flood_outputs_spec s d i o :
  o ∈ flood_outputs s d i ↔
  o ≠ i ∧ (∃ p, port_of s d i = Some p ∧ broadcast p = true) ∧ (∃ p, port_of s d o = Some p ∧ broadcast p = true).
Proof.
  unfold flood_outputs, port_of. destruct (switch_list s !! d) as [ps|].
  - case_bool_decide as Hi; rewrite enabled_spec in Hi.
    + rewrite list_elem_of_In, filter_In, negb_true_iff, N.eqb_neq, <- list_elem_of_In, enabled_spec. tauto.
    + split; [by intros Hn%not_elem_of_nil | tauto].
  - split; [by intros Hn%not_elem_of_nil |]. by intros (_ & (p & Hp & _) & _).
Qed.

Section Computed.
Context (s s' : stp) (g : list link) (Hf : SpanningForest g).
Hypothesis Hw : wired s g.
Hypothesis Hp : point_to_point g.
Hypothesis Hs' : ∀ d n, port_of s' d n =
  (λ p, if tree_end (kruskal g) (SwitchPort d n) then with_broadcast true p
        else if to_switch p then with_broadcast false p else p) <$> port_of s d n.

(** The port of a link is enabled just when the link is in the tree. *)
Lemma link_enabled e x :
  e ∈ g → is_end x e = true →
  (∃ p, port_of s' (dpid x) (port x) = Some p ∧ broadcast p = true) ↔ e ∈ kruskal g.
Proof.
  intros He Hx. destruct (Hw e x He Hx) as (p & Hport & Hto). rewrite Hs', Hport. destruct x as [d n]. cbn [dpid port fmap option_fmap option_map] in *.
  destruct (tree_end (kruskal g) (SwitchPort d n)) eqn:E.
  - apply tree_end_spec in E as (e' & He' & Hx'). rewrite (Hp e e' (SwitchPort d n)) by (try done; by apply tree_sub).
    split; [done |]. intros _. by eexists.
  - rewrite Hto. split; [by intros (q & [= <-] & Hq) |]. intros Ht.
    assert (tree_end (kruskal g) (SwitchPort d n) = true) by (apply tree_end_spec; by exists e). congruence.
Qed.

(** A flood takes a reduced walk of the tree. *)
Lemma floods_walk x es y :
  floods s' g x es y → walk (kruskal g) (dpid x) es (dpid y) ∧ reduced es ∧
    ∀ e es', es = e :: es' → is_end x e = false.
Proof.
  induction 1 as [x | x o e y es z Ho He Hends _ (IHw & IHr & IHx)]; [split_and!; [constructor | done | done] |].
  apply flood_outputs_spec in Ho as (Hne & _ & Ho).
  pose proof (proj1 (link_enabled e (SwitchPort (dpid x) o) He (ends_left _ _ _ Hends)) Ho) as Ht.
  split_and!.
  - apply walk_cons with (dpid y); [done | apply (ends_joins _ _ _ Hends) | done].
  - destruct es as [|e' es]; [done |]. split; [| done]. intros ->. specialize (IHx e' es eq_refl).
    apply ends_right in Hends. congruence.
  - intros e' es' [= <- <-]. apply not_true_iff_false. intros Hx.
    apply is_end_spec in Hx. assert (Hyx : y = x).
    { destruct x as [d i]. cbn in *. destruct Hends as [[E1 E2] | [E1 E2]]; destruct Hx as [Hx | Hx]; congruence. }
    subst y. assert (E : [e] = []); [| done]. apply (forest_no_cycle (kruskal g) tree_forest (dpid x)); [| done].
    apply walk_cons with (dpid x); [done | apply (ends_joins _ _ _ Hends) | constructor].
Qed.

(** A reduced walk of the tree is the way of a flood. *)
Lemma walk_floods u es d x :
  walk (kruskal g) u es d → dpid x = u → reduced es →
  (∃ p, port_of s' u (port x) = Some p ∧ broadcast p = true) →
  (∀ e es', es = e :: es' → is_end x e = false) → ∃ y, floods s' g x es y ∧ dpid y = d.
Proof.
  intros W. revert x. induction W as [u | e u v w es He Hj W' IH]; intros x Hx Hr Hi Hfirst; [exists x; by split; [constructor |] |].
  destruct (joins_ends e u v Hj) as (a & y & Hends & Ha & Hy). pose proof (tree_sub e He) as Hg.
  destruct (IH y Hy (reduced_tail _ _ Hr)) as (z & Hz & Hd).
  - rewrite <- Hy. by apply (link_enabled e y Hg (ends_right _ _ _ Hends)).
  - intros e' es' ->. apply not_true_iff_false. intros He'. destruct Hr as [Hne Hr]. apply Hne.
    apply (Hp e e' y); [done | | by apply (ends_right _ _ _ Hends) | done].
    apply tree_sub, (walk_in _ _ _ _ W'). constructor.
  - exists z. split; [| done]. apply floods_on with (port a) y; [| done | | done].
    + apply flood_outputs_spec. rewrite Hx. split_and!; [| done |].
      * intros Hport. specialize (Hfirst e es eq_refl). apply not_true_iff_false in Hfirst. apply Hfirst.
        apply ends_left in Hends. replace x with a; [done |]. destruct x, a; cbn in *; congruence.
      * rewrite <- Ha. by apply (link_enabled e a Hg (ends_left _ _ _ Hends)).
    + rewrite Hx, <- Ha. by destruct a.
Qed.
End Computed.

Lemma tree_known s g : SpanningForest g → wired s g → known s (kruskal g).
Proof.
  intros Hf Hw e He%tree_sub. assert (K : ∀ x, is_end x e = true → is_Some (switch_list s !! dpid x)).
  { intros x Hx. destruct (Hw e x He Hx) as (p & Hp & _). unfold port_of in Hp.
    destruct (switch_list s !! dpid x); [by eexists | done]. }
  split; apply K, is_end_spec; auto.
Qed.

(** ** Links that are discovered *)

(** One end of a link: the port is there, closed, and leads to a switch; nothing else changes. *)
Lemma link_end_ok s x y :
  is_Some (switch_list s !! dpid x) →
  ∃ s1 ms, link_end s x y = Ok (s1, ms) ∧
    (∀ d, is_Some (switch_list s !! d) → is_Some (switch_list s1 !! d)) ∧
    port_of s1 (dpid x) (port x) = Some (StpPort false true (Some (dpid y))) ∧
    ∀ z, z ≠ x → port_of s1 (dpid z) (port z) = port_of s (dpid z) (port z).
Proof.
  intros [ps Hps]. unfold link_end. rewrite Hps. change (default ∅ (Some ps)) with ps.
  set (ps1 := if existsPort ps (port x) then ps else <[port x := new_port]> ps).
  assert (H1 : ∃ p, ps1 !! port x = Some p ∧ ∀ n, n ≠ port x → ps1 !! n = ps !! n).
  { unfold ps1, existsPort. case_bool_decide as Hx.
    - destruct Hx as [p Hp]. by exists p.
    - exists new_port. split; [apply lookup_insert_eq |]. intros n Hn. by rewrite lookup_insert_ne. }
  destruct H1 as (p & Hp & Hps1). unfold unsetBroadcast, setSwitchPort, at_port. rewrite Hp.
  cbn [mbind res_bind]. rewrite lookup_insert_eq. cbn [mbind res_bind]. eexists _, _. split; [done |]. unfold port_of. cbn [switch_list with_switches].
  split_and!.
  - intros d Hd. destruct (decide (dpid x = d)) as [<- | Hne]; [rewrite lookup_insert_eq; by eexists | by rewrite lookup_insert_ne].
  - by rewrite !lookup_insert_eq.
  - intros z Hz. destruct (decide (dpid x = dpid z)) as [E | Hne]; [| by rewrite lookup_insert_ne].
    rewrite <- E, lookup_insert_eq, Hps. assert (port x ≠ port z) by (destruct x, z; cbn in *; congruence).
    by rewrite !lookup_insert_ne, Hps1.
Qed.

(** ** Properties *)

(** the two applications agree on the links.  When a link is discovered
    between two known switches, the spanning tree application does not throw,
    its ports lead to switches at the ends of every link the topology then
    has, the new one too, and the tree is to be computed again. *)
Theorem discovered_link_wired (s : stp) (t : topology) (from to : switch_and_port) (id : N) :
  wired s (edges t) → is_Some (switch_list s !! dpid from) → is_Some (switch_list s !! dpid to) →
  ∃ s' ms, onLinkDiscovered s from to = Ok (s', ms) ∧ computed s' = false ∧
    wired s' (edges (linkDiscovered t from to id)).
Proof.
  intros Hw Hfrom Hto. destruct (link_end_ok s from to Hfrom) as (s1 & m1 & E1 & K1 & P1 & O1).
  destruct (link_end_ok s1 to from (K1 _ Hto)) as (s2 & m2 & E2 & K2 & P2 & O2).
  unfold onLinkDiscovered. destruct Hfrom as [pf ->], Hto as [pt ->]. rewrite E1. cbn [mbind res_bind]. rewrite E2.
  cbn [mbind res_bind]. eexists _, _. split_and!; [done | done |].
  assert (Hends : ∀ x, x = from ∨ x = to ∨ (∃ p, port_of s (dpid x) (port x) = Some p ∧ to_switch p = true) →
            ∃ p, port_of s2 (dpid x) (port x) = Some p ∧ to_switch p = true).
  { intros x Hx. destruct (decide (x = to)) as [-> | Hnt]; [by eexists |]. rewrite O2 by done.
    destruct (decide (x = from)) as [-> | Hnf]; [by eexists |]. rewrite O1 by done. by destruct Hx as [? | [? |]]. }
  intros e x He Hx. apply (Hends x). unfold linkDiscovered in He.
  case_bool_decide; [by right; right; apply (Hw e) |]. cbn [edges vertex] in He.
  apply elem_of_app in He as [He | ->%list_elem_of_singleton]; [by right; right; apply (Hw e) |].
  apply is_end_spec in Hx as [<- | <-]; auto.
Qed.

(** C16: broadcasts do not loop.  When the ports of the links are known to lead
    to switches, and no port ends two links, the spanning tree is computed
    without an error, and from then on a broadcast, wherever it starts, has one
    way to a switch at most: none comes back to a switch it was at, nor comes
    to a switch twice. *)
Theorem flood_no_loop (s : stp) (g : list link) :
  SpanningForest g → wired s g → point_to_point g → computed s = false →
  ∃ s' ms, computeSpanningTree kruskal s g = Ok (s', ms) ∧
    ∀ x es1 y1 es2 y2, floods s' g x es1 y1 → floods s' g x es2 y2 → dpid y1 = dpid y2 → es1 = es2.
Proof.
  intros Hf Hw Hp Hc. destruct (compute_lookup kruskal s g Hc (tree_known s g Hf Hw)) as (s' & ms & E & _ & Hs').
  exists s', ms. split; [done |]. intros x es1 y1 es2 y2 F1 F2 Hy.
  destruct (floods_walk s s' g Hf Hw Hp Hs' _ _ _ F1) as (W1 & R1 & _).
  destruct (floods_walk s s' g Hf Hw Hp Hs' _ _ _ F2) as (W2 & R2 & _). rewrite <- Hy in W2.
  by apply (forest_unique (kruskal g) (dpid x) es1 es2 (dpid y1)); [apply tree_forest | ..].
Qed.

(** C17: broadcasts reach every switch.  In the same situation a broadcast that
    comes in at an open port, which is not the end of a link, gets to each
    switch that links connect to the first one. *)
Theorem flood_reaches (s : stp) (g : list link) (x : switch_and_port) (p : stp_port) :
  SpanningForest g → wired s g → point_to_point g → computed s = false →
  port_of s (dpid x) (port x) = Some p → broadcast p = true → to_switch p = false →
  (∀ e, e ∈ g → is_end x e = false) →
  ∃ s' ms, computeSpanningTree kruskal s g = Ok (s', ms) ∧
    ∀ d, connected g (dpid x) d → ∃ es y, floods s' g x es y ∧ dpid y = d.
Proof.
  intros Hf Hw Hp Hc Hx Hb Ht Hends. destruct (compute_lookup kruskal s g Hc (tree_known s g Hf Hw)) as (s' & ms & E & _ & Hs').
  exists s', ms. split; [done |]. intros d Hd%tree_spans. destruct (reduced_walk _ _ _ Hd) as (es & W & R). exists es.
  apply (walk_floods s s' g Hf Hw Hp Hs' (dpid x)); [done | done | done | |].
  - rewrite Hs'. destruct x as [dx nx]. cbn [dpid port] in *. rewrite Hx. cbn. rewrite Ht. destruct (tree_end _ _); by eexists.
  - intros e es' ->. apply Hends, tree_sub. apply (walk_in _ _ _ _ W). constructor.
Qed.
End Flood.

(** ** A ring of three switches, with a host at port 9 of each *)

Definition two_switches : stp := fst (onSwitchUp (fst (onSwitchUp (Stp ∅ ∅ false) 1)) 2).

Lemma discovered_link_wired_witness :
  ∃ s' ms, onLinkDiscovered two_switches (SwitchPort 1 1) (SwitchPort 2 1) = Ok (s', ms) ∧
    wired s' (edges (linkDiscovered empty_topology (SwitchPort 1 1) (SwitchPort 2 1) 2000)).
Proof.
  destruct (discovered_link_wired two_switches empty_topology (SwitchPort 1 1) (SwitchPort 2 1) 2000) as (s' & ms & H & _ & Hw).
  - intros e x He. by apply not_elem_of_nil in He.
  - by eexists.
  - by eexists.
  - by exists s', ms.
Defined.

Definition ring_links : list (switch_and_port * switch_and_port) :=
  [(SwitchPort 1 1, SwitchPort 2 2); (SwitchPort 2 1, SwitchPort 3 2); (SwitchPort 3 1, SwitchPort 1 2)].

Definition ring : list link := edges (fold_left (λ t l, linkDiscovered t (fst l) (snd l) 2000) ring_links empty_topology).

Definition ring_stp : stp :=
  let up := fold_left (λ s d, fst (onPortUp (fst (onSwitchUp s d)) d 9)) [1; 2; 3]%N (Stp ∅ ∅ false) in
  fold_left (λ s l, match onLinkDiscovered s (fst l) (snd l) with Ok (s', _) => s' | Throw _ => s end) ring_links up.

(** The third link would close the ring. *)
Definition ring_tree (g : list link) : list link := List.firstn 2 g.

#[local] Instance ring_forest : SpanningForest ring_tree ring.
Proof.
  split.
  - intros e He. change ring with (ring_tree ring ++ [LinkProperty (SwitchPort 3 1) (SwitchPort 1 2) 1]).
    apply elem_of_app. by left.
  - repeat constructor; intros H.
    + apply (connected_label (λ d, bool_decide (d = 1%N))) in H; [done |]. intros e ->%list_elem_of_singleton. done.
    + by apply (connected_label (λ d, d)) in H; [| intros e He; apply not_elem_of_nil in He].
  - intros u v. apply connected_through. intros e He. change ring with (map (λ l, LinkProperty (fst l) (snd l) 1) ring_links) in He.
    assert (A1 : adjacent (ring_tree ring) 1 2) by by eexists.
    assert (A2 : adjacent (ring_tree ring) 2 3) by by eexists.
    cbn in He. apply elem_of_cons in He as [-> | He].
    { by apply connected_step with 2%N; [| constructor]. }
    apply elem_of_cons in He as [-> | ->%list_elem_of_singleton].
    { by apply connected_step with 3%N; [| constructor]. }
    apply connected_sym. apply connected_step with 2%N; [done |]. apply connected_step with 3%N; [done | constructor].
Qed.

Definition wired_b (s : stp) (g : list link) : bool :=
  forallb (λ e, forallb (λ x, match port_of s (dpid x) (port x) with Some p => to_switch p | None => false end)
                        [source e; target e]) g.

Lemma wired_b_ok s g : wired_b s g = true → wired s g.
Proof.
  unfold wired_b. intros H e x He Hx. rewrite forallb_forall in H. apply list_elem_of_In in He. specialize (H e He).
  rewrite forallb_forall in H. specialize (H x). assert (Hin : In x [source e; target e]).
  { apply is_end_spec in Hx as [<- | <-]; cbn; auto. }
  specialize (H Hin). destruct (port_of s (dpid x) (port x)) as [p|]; [| done]. by exists p.
Qed.

Lemma ring_point_to_point : point_to_point ring.
Proof.
  assert (H : forallb (λ e, forallb (λ e', bool_decide (e = e') || negb (is_end (source e) e' || is_end (target e) e')) ring) ring = true)
    by by vm_compute.
  intros e e' x He He' Hx Hx'. rewrite forallb_forall in H. apply list_elem_of_In in He, He'. specialize (H e He).
  rewrite forallb_forall in H. specialize (H e' He'). apply orb_true_iff in H as [H | H]; [by apply bool_decide_eq_true in H |].
  apply negb_true_iff, orb_false_iff in H as [H1 H2]. apply is_end_spec in Hx as [<- | <-]; congruence.
Qed.

Lemma flood_no_loop_witness :
  ∃ s' ms, computeSpanningTree ring_tree ring_stp ring = Ok (s', ms) ∧
    ∀ es1 y1 es2 y2, floods s' ring (SwitchPort 1 9) es1 y1 → floods s' ring (SwitchPort 1 9) es2 y2 →
      dpid y1 = dpid y2 → es1 = es2.
Proof.
  destruct (flood_no_loop ring_tree ring_stp ring) as (s' & ms & H & Hf);
    [apply ring_forest | by apply wired_b_ok | apply ring_point_to_point | done |].
  exists s', ms. split; [done |]. intros es1 y1 es2 y2. apply Hf.
Defined.

Lemma flood_reaches_witness :
  ∃ s' ms, computeSpanningTree ring_tree ring_stp ring = Ok (s', ms) ∧
    ∃ es y, floods s' ring (SwitchPort 1 9) es y ∧ dpid y = 3%N.
Proof.
  destruct (flood_reaches ring_tree ring_stp ring (SwitchPort 1 9) new_port) as (s' & ms & H & Hf);
    [apply ring_forest | by apply wired_b_ok | apply ring_point_to_point | done | done | done | done | |].
  - intros e He. assert (E : forallb (λ e, negb (is_end (SwitchPort 1 9) e)) ring = true) by by vm_compute.
    rewrite forallb_forall in E. apply list_elem_of_In in He. specialize (E e He). by apply negb_true_iff in E.
  - exists s', ms. split; [done |]. apply Hf. apply connected_step with 2%N; [by eexists |].
    apply connected_step with 3%N; [by eexists | constructor].
Defined.
