(* ===== verification/LearningSwitch.v ===== *)
(** * LearningSwitch: forwarding by learned addresses, LearningSwitch.hh and .cc

    The hosts database, the policy of a route and the packet function of the
    forwarding policy.  A packet that can be watched is one with a reading
    operation beside those of the packet interface.  The route of Topology
    becomes a policy that takes a packet from the source's port to the
    target's, switch by switch ([route_delivers]).  An address is its 48-bit
    number. *)

From S2P Require Import Prelude Bits EthAddr Oxm FieldSet Packet Policy Valuation Topology Forest Stp StpFlood.

(** ** The policy of a route *)

(** The loop of [route_policy], two ports at a time. *)
Fixpoint route_loop (p : policy) (route : data_link_route) : res policy :=
  match route with
  | inp :: out :: route =>
      _ ← require (bool_decide (dpid inp = dpid out)) InvalidArgument;
      fs ← equals switch_id (dpid inp);
      fi ← equals in_port (port inp);
      fwd ← Lang.fwd (port out);
      route_loop (plus p (Lang.seq (Lang.seq (Lang.filter fs) (Lang.filter fi)) fwd)) route
  | _ => Ok p
  end.

Definition route_policy (route : data_link_route) : res policy :=
  _ ← require (Nat.even (length route)) InvalidArgument; route_loop Stop route.

(** ** The hosts database *)

Abbreviation hosts_database := (gmap N switch_and_port).

(** [emplace] leaves a host that is there where it is. *)
Definition learn (db : hosts_database) (d in_ mac : N) : hosts_database :=
  if is_broadcast (Bits EthAddr.nbits mac) then db
  else match db !! mac with Some _ => db | None => <[mac := SwitchPort d in_]> db end.

Definition query (db : hosts_database) (mac : N) : option switch_and_port := db !! mac.

(** ** Forwarding *)

Record learning_switch : Type := LearningSwitch { hosts : hosts_database; network : topology }.

Section Forwarding.
Context {P : Type} `{PacketOps P}.
(** [TraceablePacket::watch] *)
Context (watch : P → mask → res (field * P)).
Context (dijkstra : list link → N → N → N).

(** [Packet::load] and [watch] of a type: the field read is exact. *)
Definition typed (read : P → mask → res (field * P)) (p : P) (t : otype) : res (N * P) :=
  m ← mask_exact t; '(f, q) ← read p m; _ ← require (f_exact f) AssertionFailure; Ok (f_val f, q).

(** Flooding; an address nobody has is not asked about for long. *)
Definition flood (m_stp : stp) (dst_mac : N) : res policy :=
  b ← broadcastPolicy m_stp;
  Ok (if is_broadcast (Bits EthAddr.nbits dst_mac) then b else Lang.seq (Lang.idle_timeout_of 0) b).

(** Where both ends are known; a source that is not is an empty optional. *)
Definition forward (fuel : nat) (net : topology) (source : option switch_and_port) (target : switch_and_port)
    : comp (topology * policy) :=
  match source with
  | None => Raise AssertionFailure
  | Some source =>
      let '(net', r) := computeRoute dijkstra fuel net (dpid source) (dpid target) in
      route ← r;
      if negb (bool_decide (route = [])) || bool_decide (dpid target = dpid source) then
        p ← lift (route_policy (source :: route ++ [target])); Ret (net', p)
      else Ret (net', Lang.stop)
  end.

(** The packet function of the policy. *)
Definition forwarding (fuel : nat) (m_stp : stp) (s : learning_switch) (pkt : P) : comp (learning_switch * policy * P) :=
  '(dst_mac, pkt) ← lift (typed pkt_load pkt eth_dst);
  '(src_mac, pkt) ← lift (typed pkt_load pkt eth_src);
  '(d, pkt) ← lift (typed watch pkt switch_id);
  '(inport, pkt) ← lift (typed watch pkt in_port);
  let db := learn (hosts s) d inport src_mac in
  match query db dst_mac with
  | Some target =>
      '(net', p) ← forward fuel (network s) (query db src_mac) target; Ret (LearningSwitch db net', p, pkt)
  | None => p ← lift (flood m_stp dst_mac); Ret (LearningSwitch db (network s), p, pkt)
  end.
End Forwarding.

(** ** The database *)

Lemma learn_keeps db d in_ mac m x : db !! m = Some x → learn db d in_ mac !! m = Some x.
Proof.
  intros Hx. unfold learn. destruct (is_broadcast _); [done |]. destruct (db !! mac) as [y|] eqn:E; [done |].
  destruct (decide (m = mac)) as [-> | Hne]; [congruence | by rewrite lookup_insert_ne].
Qed.

Lemma learn_knows db d in_ mac :
  is_broadcast (Bits EthAddr.nbits mac) = false → is_Some (learn db d in_ mac !! mac).
Proof.
  intros Hb. unfold learn. rewrite Hb. destruct (db !! mac) as [y|] eqn:E; [by exists y |]. rewrite lookup_insert_eq. by eexists.
Qed.

(** ** What the policy of a route means *)

(** A hop: in and out of a switch. *)
Record hop : Type := Hop { h_switch : N; h_in : N; h_out : N }.

Definition flatten (hs : list hop) : data_link_route :=
  concat (map (λ h, [SwitchPort (h_switch h) (h_in h); SwitchPort (h_switch h) (h_out h)]) hs).

Definition hop_widths (h : hop) : Prop := (h_switch h < 2 ^ 64)%N ∧ (h_in h < 2 ^ 32)%N ∧ (h_out h < 2 ^ 32)%N.

(** Where the hops of the list send a packet from. *)
Definition hop_outputs (hs : list hop) (d i : N) : list N :=
  concat (map (λ h, if (h_switch h =? d)%N && (h_in h =? i)%N then [h_out h] else []) hs).

(** A packet with the widths the program reads. *)
Definition at_port (v : vpacket) (d i : N) : Prop :=
  full v ∧ vview v switch_id = d ∧ vview v in_port = i ∧ (d < 2 ^ 64)%N ∧ (i < 2 ^ 32)%N ∧ (vview v out_port < 2 ^ 32)%N.

(** What one hop adds to the policy. *)
Lemma hop_rule_means v d i hd hi f l :
  at_port v d i → (hd < 2 ^ 64)%N → (hi < 2 ^ 32)%N → eval f v = Ok l →
  eval (Lang.seq (Lang.seq (Lang.filter (Field switch_id hd (N.ones (nbits switch_id))))
                           (Lang.filter (Field in_port hi (N.ones (nbits in_port))))) f) v
  = Ok (if (hd =? d)%N && (hi =? i)%N then l else []).
Proof.
  intros (Hv & Hd & Hi & Wd & Wi & _) W1 W2 Hf. unfold Lang.seq. cbn [eval].
  rewrite (eval_equals switch_id hd), Hd by (try done; by rewrite Hd). destruct (hd =? d)%N; [| done].
  unfold res_each at 2. cbn [mbind res_bind map concat_res]. rewrite (eval_equals in_port hi), Hi by (try done; by rewrite Hi).
  destruct (hi =? i)%N; [| done]. cbn. unfold res_each. cbn. rewrite Hf. cbn. by rewrite app_nil_r.
Qed.

Lemma route_loop_ok hs v d i :
  Forall hop_widths hs → at_port v d i →
  ∀ p l, eval p v = Ok l →
  ∃ q, route_loop p (flatten hs) = Ok q ∧ eval q v = Ok (l ++ map (λ o, <[tkey out_port := o]> v) (hop_outputs hs d i)).
Proof.
  intros Hw Hat. induction Hw as [|[hd hi ho] hs (W1 & W2 & W3) _ IH]; intros p l Hp.
  { exists p. split; [done |]. cbn. by rewrite app_nil_r. }
  cbn [h_switch h_in h_out] in *. unfold flatten. cbn [map concat app]. fold (flatten hs). cbn [route_loop dpid port h_switch h_in h_out].
  rewrite bool_decide_eq_true_2 by done. cbn [require mbind res_bind].
  rewrite (equals_ok switch_id hd) by done. rewrite (equals_ok in_port hi) by done. cbn [mbind res_bind].
  destruct (fwd_means v ho (proj1 Hat) ltac:(apply Hat) W3) as (f & -> & Hf). cbn [mbind res_bind].
  edestruct IH as (q & Hq & He); [| exists q; split; [exact Hq |]; rewrite He].
  { rewrite eval_plus, Hp. by rewrite (hop_rule_means v d i hd hi f _ Hat W1 W2 Hf). }
  f_equal. unfold hop_outputs. cbn [map concat h_switch h_in h_out]. rewrite map_app, app_assoc. do 2 f_equal.
  by destruct (_ && _)%bool.
Qed.

Lemma flatten_even hs : Nat.even (length (flatten hs)) = true.
Proof. induction hs as [|h hs IH]; [done | exact IH]. Qed.

(** Where no two hops are in the same switch, a hop sends out of its port. *)
Lemma hop_outputs_at hs h i :
  NoDup (map h_switch hs) → h ∈ hs → hop_outputs hs (h_switch h) i = if (h_in h =? i)%N then [h_out h] else [].
Proof.
  intros Hnd Hin.
  assert (E : hop_outputs hs (h_switch h) i
            = concat (map (λ x, if (h_switch x =? h_switch h)%N then (if (h_in x =? i)%N then [h_out x] else []) else []) hs)).
  { unfold hop_outputs. f_equal. apply map_ext. intros x. by destruct (h_switch x =? h_switch h)%N. }
  by rewrite E, (concat_one h_switch _ hs h).
Qed.

(** ** Delivery *)

(** Everything the policy does with a packet at [x] is to send it out of port [o]. *)
Definition sends (p : policy) (x : switch_and_port) (o : N) : Prop :=
  ∀ v, at_port v (dpid x) (port x) → eval p v = Ok [<[tkey out_port := o]> v].

(** A packet that comes in at [x] goes from switch to switch, and out at [z]. *)
Inductive delivers (p : policy) (g : list link) : switch_and_port → switch_and_port → Prop :=
| deliver_out x o : sends p x o → delivers p g x (SwitchPort (dpid x) o)
| deliver_on x o e y z : sends p x o → e ∈ g → ends e (SwitchPort (dpid x) o) y → delivers p g y z → delivers p g x z.

(** The hops of a route from port [i] of switch [d], to the port [o] at last. *)
Fixpoint hops (d i : N) (r : data_link_route) (o : N) : list hop :=
  match r with
  | out :: in_ :: r => Hop d i (port out) :: hops (dpid in_) (port in_) r o
  | _ => [Hop d i o]
  end.

Lemma hops_flatten g d i r t o :
  route_between g d r t → flatten (hops d i r o) = SwitchPort d i :: r ++ [SwitchPort t o].
Proof.
  intros H. revert i. induction H as [u | e out in_ r w _ _ _ IH]; intros i; [done |].
  cbn [hops]. unfold flatten. cbn [map concat app h_switch h_in h_out]. fold (flatten (hops (dpid in_) (port in_) r o)). rewrite IH.
  by destruct out, in_.
Qed.

Lemma hops_switches g d i r t o : route_between g d r t → map h_switch (hops d i r o) = d :: arrivals r.
Proof. intros H. revert i. induction H as [u | e out in_ r w _ _ _ IH]; intros i; [done |]. cbn. by rewrite IH. Qed.

Lemma route_delivered p g d i r t o :
  route_between g d r t → (∀ h, h ∈ hops d i r o → sends p (SwitchPort (h_switch h) (h_in h)) (h_out h)) →
  delivers p g (SwitchPort d i) (SwitchPort t o).
Proof.
  intros H. revert i. induction H as [u | e out in_ r w He Hends _ IH]; intros i Hs.
  - apply (deliver_out p g (SwitchPort u i) o). apply (Hs (Hop u i o)). constructor.
  - apply deliver_on with (port out) e in_; [| done | |].
    + apply (Hs (Hop (dpid out) i (port out))). constructor.
    + by destruct out.
    + destruct in_ as [d' i']. apply IH. intros h Hh. apply Hs. by constructor.
Qed.

(** ** What the function reads *)

Lemma typed_ok v t :
  full v → registered t = true → (vview v t < 2 ^ nbits t)%N → typed pkt_load v t = Ok (vview v t, v).
Proof.
  intros Hv Ht Hw. unfold typed, mask_exact, mk_mask, mask_holder. rewrite set_all_zero. cbn [bsize bval].
  rewrite N.eqb_refl. cbn [negb]. unfold all. cbn [bsize bval]. rewrite N.eqb_refl. cbn [orb negb].
  rewrite andb_false_r. cbn [fmap res_fmap mbind res_bind].
  rewrite vload_full by (done || (split; [done | apply msk_ok_ones])). cbn [mbind res_bind m_type].
  unfold f_exact, exact, all, fmask_bits, loadv. cbn [f_type f_msk f_val m_type m_val bsize bval].
  rewrite N.eqb_refl. cbn. by rewrite (proj2 (sub_ones_lt _ _) Hw).
Qed.

Definition end_widths (x : switch_and_port) : Prop := (dpid x < 2 ^ 64)%N ∧ (port x < 2 ^ 32)%N.
Definition link_widths (g : list link) : Prop := ∀ e, e ∈ g → end_widths (source e) ∧ end_widths (target e).

Lemma hops_widths g d i r t o :
  link_widths g → route_between g d r t → end_widths (SwitchPort d i) → (o < 2 ^ 32)%N → Forall hop_widths (hops d i r o).
Proof.
  intros Hg H. revert i. induction H as [u | e out in_ r w He Hends _ IH]; intros i Hi Ho; cbn [hops].
  - apply Forall_cons_2; [by split; [| split]; try apply Hi | by apply Forall_nil].
  - assert (W : end_widths out ∧ end_widths in_).
    { destruct (Hg e He) as [H1 H2]. destruct Hends as [[<- <-] | [<- <-]]; done. }
    destruct W as [W1 W2]. apply Forall_cons_2; [by split; [apply W1 | split; [apply Hi | apply W1]] |].
    apply IH; [by destruct in_ | done].
Qed.

(** A route between two hosts, as a policy, takes packets from one to the other. *)
Lemma route_delivers g r x z :
  link_widths g → end_widths x → end_widths z → route_between g (dpid x) r (dpid z) → NoDup (dpid x :: arrivals r) →
  ∃ p, route_policy (x :: r ++ [z]) = Ok p ∧ delivers p g x z.
Proof.
  intros Hg Hx Hz Hr Hnd. destruct x as [d i], z as [t o]. cbn [dpid] in *.
  rewrite <- (hops_flatten g d i r t o Hr). set (hs := hops d i r o).
  assert (Hw : Forall hop_widths hs) by (apply (hops_widths g d i r t o); [done | done | done | apply Hz]).
  assert (Hs : ∃ p, route_loop Stop (flatten hs) = Ok p).
  { destruct (route_loop_ok hs zero_packet 0 0 Hw) with (p := Stop) (l := @nil vpacket) as (p & Hp & _); [| done | by exists p].
    split_and!; by (apply full_zero || vm_compute). }
  destruct Hs as [p Hp]. exists p. unfold route_policy. rewrite flatten_even, Hp. split; [done |].
  apply (route_delivered p g d i r t o Hr). fold hs. intros h Hh v Hv. cbn [dpid port] in Hv.
  destruct (route_loop_ok hs v _ _ Hw Hv Stop []) as (q & Hq & He); [done |]. rewrite Hp in Hq. injection Hq as <-.
  rewrite He, hop_outputs_at; [by rewrite N.eqb_refl | | done]. unfold hs. by rewrite (hops_switches g d i r t o Hr).
Qed.

(** A packet from [src] to [dst] that comes in at port [i] of switch [d]. *)
Definition sent_at (v : vpacket) (d i src dst : N) : Prop :=
  at_port v d i ∧ vview v eth_src = src ∧ vview v eth_dst = dst ∧ (src < 2 ^ 48)%N ∧ (dst < 2 ^ 48)%N.

Section Properties.
Context (dijkstra : list link → N → N → N).
Local Abbreviation forwarding := (forwarding pkt_load dijkstra).

(** After its reads the function looks up both hosts. *)
Lemma forwarding_reads v d i src dst n m_stp s :
  sent_at v d i src dst →
  let db := learn (hosts s) d i src in
  forwarding n m_stp s v =
    match query db dst with
    | Some target => '(net', p) ← forward dijkstra n (network s) (query db src) target; Ret (LearningSwitch db net', p, v)
    | None => p ← lift (flood m_stp dst); Ret (LearningSwitch db (network s), p, v)
    end.
Proof.
  intros ((Hv & Hd & Hi & Wd & Wi & _) & Hs & Ht & Ws & Wt). unfold LearningSwitch.forwarding.
  rewrite (typed_ok v eth_dst) by (done || by rewrite Ht). cbn [lift mbind comp_bind].
  rewrite (typed_ok v eth_src) by (done || by rewrite Hs). cbn [lift mbind comp_bind].
  rewrite (typed_ok v switch_id) by (done || by rewrite Hd). cbn [lift mbind comp_bind].
  rewrite (typed_ok v in_port) by (done || by rewrite Hi). cbn [lift mbind comp_bind].
  by rewrite Hd, Hi, Hs, Ht.
Qed.

(** Between hosts whose switches are connected, or the same, there is a route. *)
Lemma forward_route net x z `{!ShortestPaths dijkstra (edges net) (dpid z)} :
  connected (edges net) (dpid x) (dpid z) → link_widths (edges net) → end_widths x → end_widths z →
  ∃ r p, route_between (edges net) (dpid x) r (dpid z) ∧ NoDup (dpid x :: arrivals r) ∧
    route_policy (x :: r ++ [z]) = Ok p ∧
    converges (λ n, forward dijkstra n net (Some x) z) (vertex (vertex net (dpid x)) (dpid z), p).
Proof.
  intros Hc Hg Hx Hz. destruct (route_found dijkstra net (dpid x) (dpid z) Hc) as (r & [N Hr] & Hb & Hnd).
  destruct (route_delivers (edges net) r x z Hg Hx Hz Hb Hnd) as (p & Hp & _). exists r, p. split_and!; [done | done | done |].
  exists N. intros n Hn. specialize (Hr n Hn). unfold forward. cbn [computeRoute snd] in Hr |- *. rewrite Hr. cbn [mbind comp_bind].
  assert (E : negb (bool_decide (r = [])) || bool_decide (dpid z = dpid x) = true).
  { apply orb_true_iff. inversion Hb as [| ? ? ? ? ? ? ? ? Hr' Hlast]; subst; [right; by apply bool_decide_eq_true |]. by left. }
  rewrite E, Hp. done.
Qed.

(** ** Properties *)


(** a host that moved is cut off.  Its first place stays in the database:
    when it sends from another port of the same switch, to a host that is
    known and connected, the policy that the function gives drops the packet. *)
Theorem moved_host_dropped (v : vpacket) (d i src dst : N) (m_stp : stp) (s : learning_switch)
    (x z : switch_and_port) `{!ShortestPaths dijkstra (edges (network s)) (dpid z)} :
  sent_at v d i src dst → hosts s !! src = Some x → dpid x = d → port x ≠ i →
  query (learn (hosts s) d i src) dst = Some z →
  connected (edges (network s)) d (dpid z) → link_widths (edges (network s)) → end_widths x → end_widths z →
  ∃ s' p, converges (λ n, forwarding n m_stp s v) (s', p, v) ∧ hosts s' !! src = Some x ∧ eval p v = Ok [].
Proof.
  intros Hv Hx <- Hi Hz Hc Hg Wx Wz. pose proof (learn_keeps _ (dpid x) i src src x Hx) as Hl.
  destruct (forward_route (network s) x z Hc Hg Wx Wz) as (r & p & Hb & Hnd & Hp & [N HN]).
  eexists (LearningSwitch (learn (hosts s) (dpid x) i src) _), p. split_and!; [| done |].
  - exists N. intros n Hn. rewrite (forwarding_reads v (dpid x) i src dst) by done. cbv zeta.
    unfold query in *. rewrite Hz, Hl, HN by done. reflexivity.
  - destruct x as [d j], z as [t o]. cbn [dpid port] in *. rewrite <- (hops_flatten _ d j r t o Hb) in Hp.
    unfold route_policy in Hp. rewrite flatten_even in Hp. cbn [require mbind res_bind] in Hp.
    destruct (route_loop_ok (hops d j r o) v d i) with (p := Stop) (l := @nil vpacket) as (q & Hq & He); [| apply Hv | done |].
    + apply (hops_widths (edges (network s)) d j r t o); [done | done | done | apply Wz].
    + rewrite Hp in Hq. injection Hq as <-.
      assert (Hh : ∃ h, h ∈ hops d j r o ∧ h_switch h = d ∧ h_in h = j).
      { destruct r as [|out [|in_ r]]; cbn [hops]; eexists; (split; [constructor | done]). }
      destruct Hh as (h & Hin & Ed & Ej). pose proof (hop_outputs_at (hops d j r o) h i) as E.
      rewrite Ed, Ej, (proj2 (N.eqb_neq j i)) in E by done. rewrite He, E; [done | | done].
      by rewrite (hops_switches _ d j r t o Hb).
Qed.

(** an unknown destination is flooded.  The function learns the source, and
    gives the policy that floods, whatever else the packet holds. *)
Theorem forwarding_floods (v : vpacket) (d i src dst : N) (m_stp : stp) (s : learning_switch) (b : policy) (n : nat) :
  sent_at v d i src dst → query (learn (hosts s) d i src) dst = None → broadcastPolicy m_stp = Ok b →
  ∃ p, forwarding n m_stp s v = Ret (LearningSwitch (learn (hosts s) d i src) (network s), p, v) ∧
    ∀ w : vpacket, eval p w = eval b w.
Proof.
  intros Hv Hz Hb. rewrite (forwarding_reads v d i src dst) by done. cbv zeta. rewrite Hz. unfold flood. rewrite Hb.
  cbn [mbind res_bind lift comp_bind]. eexists. split; [done |]. intros w. destruct (is_broadcast _); [done |].
  unfold Lang.seq, Lang.idle_timeout_of. cbn [eval]. unfold res_each. cbn.
  destruct (eval b w); cbn; [by rewrite app_nil_r | done].
Qed.

(** a broadcast source.  It is not learned; when the destination is known
    the empty optional of the source is followed all the same, and an
    assertion fails. *)
Theorem broadcast_source_fails (v : vpacket) (d i dst : N) (m_stp : stp) (s : learning_switch) (z : switch_and_port) (n : nat) :
  let src := N.ones 48 in
  sent_at v d i src dst → hosts s !! src = None → hosts s !! dst = Some z →
  forwarding n m_stp s v = Raise AssertionFailure.
Proof.
  intros src Hv Hs Hz. rewrite (forwarding_reads v d i src dst) by done. cbv zeta.
  assert (E : learn (hosts s) d i src = hosts s) by done. unfold query. by rewrite E, Hz, Hs.
Qed.
End Properties.

(** ** Two hosts on a line of three switches *)

Definition sample_hosts : learning_switch :=
  LearningSwitch {[ 0xA%N := SwitchPort 1 7; 0xB%N := SwitchPort 3 9 ]} line.

(** From host A to host B, at port [i] of the first switch. *)
Definition from_A (i : N) : vpacket := with_values [(switch_id, 1%N); (in_port, i); (eth_src, 0xA%N); (eth_dst, 0xB%N)].

Lemma from_A_sent i : i = 7%N ∨ i = 8%N → sent_at (from_A i) 1 i 0xA 0xB.
Proof. intros [-> | ->]; unfold sent_at, at_port; (split_and!; [apply full_with_values | by vm_compute ..]). Qed.

Lemma line_connects : connected (edges line) 1 3.
Proof. apply connected_step with 2%N; [by eexists |]. apply connected_step with 3%N; [by eexists | constructor]. Qed.

Lemma line_widths : link_widths (edges line).
Proof.
  intros e He. change (edges line) with [LinkProperty (SwitchPort 1 10) (SwitchPort 2 20) 1; LinkProperty (SwitchPort 2 21) (SwitchPort 3 30) 1] in He.
  apply elem_of_cons in He as [-> | ->%list_elem_of_singleton]; by repeat split.
Qed.


Lemma moved_host_dropped_witness :
  ∃ s' p, converges (λ n, forwarding pkt_load line_dijkstra n three_ports sample_hosts (from_A 8)) (s', p, from_A 8) ∧
    eval p (from_A 8) = Ok [].
Proof.
  destruct (moved_host_dropped line_dijkstra (from_A 8) 1 8 0xA 0xB three_ports sample_hosts (SwitchPort 1 7) (SwitchPort 3 9)
              (ShortestPaths0 := line_shortest)) as (s' & p & Hr & _ & He).
  - apply from_A_sent; auto.
  - done.
  - done.
  - done.
  - done.
  - apply line_connects.
  - apply line_widths.
  - by split.
  - by split.
  - by exists s', p.
Defined.

Lemma forwarding_floods_witness :
  let s := LearningSwitch ∅ line in
  ∃ b p, broadcastPolicy three_ports = Ok b ∧
    forwarding pkt_load line_dijkstra 0 three_ports s (from_A 7) = Ret (LearningSwitch (learn ∅ 1 7 0xA) line, p, from_A 7) ∧
    eval p (from_A 7) = eval b (from_A 7).
Proof.
  intros s. destruct (broadcastPolicy three_ports) as [b|] eqn:Hb; [| exfalso; by vm_compute in Hb].
  destruct (forwarding_floods line_dijkstra (from_A 7) 1 7 0xA 0xB three_ports s b 0) as (p & Hp & He); [apply from_A_sent; auto | done | done |].
  exists b, p. by split_and!; [| | apply He].
Defined.

Lemma broadcast_source_fails_witness :
  let v := with_values [(switch_id, 1%N); (in_port, 7%N); (eth_src, N.ones 48); (eth_dst, 0xB%N)] in
  forwarding pkt_load line_dijkstra 9 three_ports sample_hosts v = Raise AssertionFailure.
Proof.
  intros v. apply (broadcast_source_fails line_dijkstra v 1 7 0xB three_ports sample_hosts (SwitchPort 3 9) 9); [| done | done].
  unfold sent_at, at_port. split_and!; [apply full_with_values | by vm_compute ..].
Defined.
