(* ===== verification/LinkDiscovery.v ===== *)
(** * LinkDiscovery: links found by LLDP, LinkDiscovery.hh and .cc, LLDP.hh

    A switch sends an LLDP packet with its id and port out of each port; the
    one it reaches reports it, and the pair is a link until its port goes down
    or no packet comes for long.  The set of links, ordered by the time they
    are valid through, is a list; an iterator to a link is its time, and one to
    an erased link is followed no better than a null pointer.  While each port
    is cabled to one other port nothing fails, and the signals are the changes
    of the set ([link_discovery_tracks]); the topology that listens to them
    holds just the links ([topology_in_sync]).  [ndebug] tells whether assert
    is compiled away, as in a Release build; then this holds as long as no link
    expires ([renewed]), and not after ([expired_without_asserts]). *)

From Stdlib Require Import Sorting.Sorted.
From S2P Require Import Prelude Bits Oxm FieldSet Packet Policy Topology Stp.

(** ** The packet *)

(** The [n] bytes of a number, big-endian. *)
Fixpoint be (n : nat) (v : N) : list N :=
  match n with O => [] | S n => N.land (N.shiftr v (8 * N.of_nat n)) 255 :: be n v end.

Definition of_be (l : list N) : N := fold_left (λ r b, r * 256 + b)%N l 0%N.

Definition lldp_tlv_header (type length : N) : N := wrap 16 (N.lor (N.shiftl type 9) length).

Definition LLDP_ETH_TYPE : N := 0x88cc.
Definition LLDP_CHASSIS_ID_TLV : N := 1.
Definition LLDP_PORT_ID_TLV : N := 2.
Definition LLDP_TTL_TLV : N := 3.
Definition LLDP_CHASSIS_ID_SUB_MAC : N := 4.
Definition LLDP_PORT_ID_SUB_COMPONENT : N := 2.

(** [lldp_packet], as its bytes; fields take the low bits of what they are given. *)
Definition lldp_packet (src_mac chassis_id_sub_mac port_id_sub_component ttl_seconds dpid_data : N) : list N :=
  be 6 0x0180c200000e ++ be 6 src_mac ++ be 2 LLDP_ETH_TYPE ++
  be 2 (lldp_tlv_header LLDP_CHASSIS_ID_TLV 7) ++ be 1 LLDP_CHASSIS_ID_SUB_MAC ++ be 6 chassis_id_sub_mac ++
  be 2 (lldp_tlv_header LLDP_PORT_ID_TLV 5) ++ be 1 LLDP_PORT_ID_SUB_COMPONENT ++ be 4 port_id_sub_component ++
  be 2 (lldp_tlv_header LLDP_TTL_TLV 2) ++ be 2 ttl_seconds ++
  be 2 (lldp_tlv_header 127 12) ++ be 3 0x0026e1 ++ be 1 0 ++ be 8 dpid_data ++ be 2 0.

(** The members read back. *)
Definition port_of_lldp (l : list N) : N := of_be (take 4 (drop 26 l)).
Definition dpid_of_lldp (l : list N) : N := of_be (take 8 (drop 40 l)).

(** [serialize_to]: as much as there is room for; the count goes into a log. *)
Definition serialize_over (packet lldp : list N) : list N := take 50 packet ++ drop (length packet) lldp.

Definition lt_port (a b : switch_and_port) : bool :=
  (dpid a <? dpid b)%N || ((dpid a =? dpid b)%N && (port a <? port b)%N).

(** What the handler passes on: the two ports, the smaller first. *)
Definition beacon (packet lldp : list N) (switch in_ : N) : switch_and_port * switch_and_port :=
  let bytes := serialize_over packet lldp in
  let source := SwitchPort (dpid_of_lldp bytes) (port_of_lldp bytes) in
  let target := SwitchPort switch in_ in
  if lt_port target source then (target, source) else (source, target).

(** [getPolicy]: LLDP packets are read and not forwarded by a lasting rule. *)
Definition lldp_policy (id : N) : res policy :=
  f ← equals eth_type LLDP_ETH_TYPE;
  Ok (Lang.seq (Lang.filter f)
        (PacketFunction id
           (HLoad (Mask switch_id (N.ones 64)) (λ _,
            HLoad (Mask in_port (N.ones 32)) (λ _, HReturn (Lang.hard_timeout_of 0)))))).

(** ** Sending *)

Record of_port : Type := OfPort { port_no : N; port_state : N; hw_addr : list N }.

Definition OFPPS_LINK_DOWN : N := 1.
Definition live (p : of_port) : bool := (N.land (port_state p) OFPPS_LINK_DOWN =? 0)%N.

(** What is sent out of a port: three times the same. *)
Definition sendLLDP (poll_interval d : N) (p : of_port) : list (N * N * list N) :=
  let mac i := nth i (hw_addr p) 0%N in
  let src_mac := N.lor (N.lor (N.lor (N.lor (N.lor (N.shiftl (mac 0%nat) 40) (N.shiftl (mac 1%nat) 32))
                   (N.shiftl (mac 2%nat) 24)) (N.shiftl (mac 3%nat) 16)) (N.shiftl (mac 4%nat) 8)) (mac 5%nat) in
  let po := (d, port_no p, lldp_packet src_mac d (port_no p) poll_interval d) in
  [po; po; po].

Definition portUp (poll_interval d : N) (p : of_port) : list (N * N * list N) :=
  if (OFPP_MAX <? port_no p)%N then [] else if live p then sendLLDP poll_interval d p else [].

(** ** Links *)

Record discovered_link : Type := DiscoveredLink { l_source : switch_and_port; l_target : switch_and_port; valid_through : N }.

#[global] Program Instance switch_and_port_countable : Countable switch_and_port :=
  inj_countable' (λ x, (dpid x, port x)) (λ p, SwitchPort p.1 p.2) _.
Next Obligation. by intros []. Qed.

Record link_discovery : Type := LinkDiscovery { m_links : list discovered_link; m_out_edges : gmap switch_and_port N }.

Definition empty_discovery : link_discovery := LinkDiscovery [] ∅.

Inductive signal : Type := Discovered (from to : switch_and_port) | Broken (from to : switch_and_port).

(** [insert]: a link of the same time stays. *)
Fixpoint insert_link (x : discovered_link) (ls : list discovered_link) : list discovered_link :=
  match ls with
  | [] => [x]
  | y :: ls' => if (valid_through x <? valid_through y)%N then x :: ls
                else if (valid_through y <? valid_through x)%N then y :: insert_link x ls' else ls
  end.

(** [*it] and [erase(it)] *)
Definition deref (ls : list discovered_link) (it : N) : res discovered_link :=
  match List.find (λ l, (valid_through l =? it)%N) ls with Some l => Ok l | None => Throw Terminate end.
Definition erase_link (ls : list discovered_link) (it : N) : res (list discovered_link) :=
  _ ← deref ls it; Ok (List.filter (λ l, negb (valid_through l =? it)%N) ls).

(** [until]: the time at which the link is to be renewed. *)
Definition handleBeacon (s : link_discovery) (until : N) (from to : switch_and_port) : res (link_discovery * list signal) :=
  '(links, edges, isNew) ←
    match m_out_edges s !! from with
    | Some it => links ← erase_link (m_links s) it; Ok (links, delete to (delete from (m_out_edges s)), false)
    | None => Ok (m_links s, m_out_edges s, true)
    end;
  Ok (LinkDiscovery (insert_link (DiscoveredLink from to until) links) (<[to := until]> (<[from := until]> edges)),
      if isNew : bool then [Discovered from to] else []).

(** [CHECK(m_out_edges.erase(x) == 1)] *)
Definition check_erase (x : switch_and_port) (m : gmap switch_and_port N) : res (gmap switch_and_port N) :=
  match m !! x with Some _ => Ok (delete x m) | None => Throw Terminate end.

Definition clearLinkAt (s : link_discovery) (source : switch_and_port) : res (link_discovery * list signal) :=
  match m_out_edges s !! source with
  | None => Ok (s, [])
  | Some it =>
      edge ← deref (m_links s) it;
      target ← if decide (l_source edge = source) then Ok (l_target edge)
               else _ ← require (bool_decide (l_target edge = source)) Terminate; Ok (l_source edge);
      links ← erase_link (m_links s) it;
      m1 ← check_erase source (m_out_edges s);
      m2 ← check_erase target m1;
      Ok (LinkDiscovery links m2, [if lt_port source target then Broken source target else Broken target source])
  end.

Definition portDown (s : link_discovery) (d n : N) : res (link_discovery * list signal) := clearLinkAt s (SwitchPort d n).

(** What is sent, and what becomes of the links. *)
Definition portModified (poll_interval : N) (s : link_discovery) (d : N) (p old : of_port)
    : res (link_discovery * list signal * list (N * N * list N)) :=
  if live p && negb (live old) then Ok (s, [], sendLLDP poll_interval d p)
  else if negb (live p) && live old then '(s', sig) ← clearLinkAt s (SwitchPort d (port_no p)); Ok (s', sig, [])
  else Ok (s, [], []).

Section Timer.
(** Whether assert is compiled away, and what it evaluates with it. *)
Context (ndebug : bool).

Definition assert_erase (x : switch_and_port) (m : gmap switch_and_port N) : res (gmap switch_and_port N) :=
  if ndebug then Ok m else check_erase x m.

(** The links are in the order of their times. *)
Fixpoint expire (now : N) (links : list discovered_link) (m : gmap switch_and_port N)
    : res (list discovered_link * gmap switch_and_port N * list signal) :=
  match links with
  | [] => Ok ([], m, [])
  | top :: rest =>
      if (valid_through top <? now)%N then
        m1 ← assert_erase (l_source top) m;
        m2 ← assert_erase (l_target top) m1;
        '(ls, m3, sig) ← expire now rest m2;
        Ok (ls, m3, Broken (l_source top) (l_target top) :: sig)
      else Ok (links, m, [])
  end.

Definition timerEvent (poll_interval now : N) (switches : list (N * list of_port)) (s : link_discovery)
    : res (link_discovery * list signal * list (N * N * list N)) :=
  '(ls, m, sig) ← expire now (m_links s) (m_out_edges s);
  Ok (LinkDiscovery ls m, sig,
      concat (map (λ sw, concat (map (λ p, if (OFPP_MAX <? port_no p)%N then [] else sendLLDP poll_interval (fst sw) p)
                                     (snd sw))) switches)).
End Timer.

(** ** The state while every port is cabled to one other *)

Definition is_link_end (x : switch_and_port) (l : discovered_link) : Prop := l_source l = x ∨ l_target l = x.

Section Cabled.
Context (cable : switch_and_port → option switch_and_port).

Class Cabling : Prop := {
  cable_back a b : cable a = Some b → cable b = Some a;
  cable_other a : cable a ≠ Some a
}.

(** Links are in the order of their times, join cabled ports, the smaller
    first, and the map takes exactly their ends to them. *)
Record ld_ok (links : list discovered_link) (m : gmap switch_and_port N) (last : N) : Prop := {
  ok_sorted : StronglySorted (λ x y, (valid_through x < valid_through y)%N) links;
  ok_times l : l ∈ links → (valid_through l ≤ last)%N;
  ok_cabled l : l ∈ links → cable (l_source l) = Some (l_target l) ∧ lt_port (l_source l) (l_target l) = true;
  ok_edges x t : m !! x = Some t ↔ ∃ l, l ∈ links ∧ valid_through l = t ∧ is_link_end x l
}.

Lemma sorted_unique (links : list discovered_link) x y :
  StronglySorted (λ x y, (valid_through x < valid_through y)%N) links →
  x ∈ links → y ∈ links → valid_through x = valid_through y → x = y.
Proof.
  induction 1 as [|z links Hs IH Hz]; [intros Hx; by apply not_elem_of_nil in Hx |].
  intros Hx Hy E. rewrite Forall_elem in Hz. apply elem_of_cons in Hx as [-> | Hx], Hy as [-> | Hy]; [done | | | by apply IH].
  - specialize (Hz y Hy). cbn in Hz. lia.
  - specialize (Hz x Hx). cbn in Hz. lia.
Qed.

Lemma sorted_filter (f : discovered_link → bool) links :
  StronglySorted (λ x y, (valid_through x < valid_through y)%N) links →
  StronglySorted (λ x y, (valid_through x < valid_through y)%N) (List.filter f links).
Proof.
  induction 1 as [|z links Hs IH Hz]; cbn; [constructor |]. destruct (f z); [| done]. constructor; [done |].
  rewrite Forall_elem in Hz |- *. intros y Hy. apply list_elem_of_In, filter_In in Hy as [Hy _]. apply Hz. by apply list_elem_of_In.
Qed.

Lemma sorted_snoc x links :
  StronglySorted (λ x y, (valid_through x < valid_through y)%N) links →
  (∀ l, l ∈ links → (valid_through l < valid_through x)%N) →
  StronglySorted (λ x y, (valid_through x < valid_through y)%N) (links ++ [x]) ∧ insert_link x links = links ++ [x].
Proof.
  induction 1 as [|z links Hs IH Hz]; intros Hx; cbn.
  - split; [repeat constructor | done].
  - destruct IH as [IH1 IH2]; [intros l Hl; apply Hx; by constructor |]. pose proof (Hx z (list_elem_of_here _ _)) as Hzx. split.
    + constructor; [done |]. rewrite Forall_elem in Hz |- *. intros y [Hy | ->%list_elem_of_singleton]%elem_of_app; [by apply Hz | done].
    + rewrite (proj2 (N.ltb_ge _ _)) by lia. rewrite (proj2 (N.ltb_lt _ _)) by done. by rewrite IH2.
Qed.

Lemma filter_out (links : list discovered_link) t y :
  y ∈ List.filter (λ l, negb (valid_through l =? t)%N) links ↔ y ∈ links ∧ valid_through y ≠ t.
Proof. by rewrite list_elem_of_In, filter_In, negb_true_iff, N.eqb_neq, <- list_elem_of_In. Qed.

Context `{HC : Cabling}.
Context {links : list discovered_link} {m : gmap switch_and_port N} {last : N} (Hok : ld_ok links m last).

(** Links with an end in common are the same. *)
Lemma end_unique l l' x : l ∈ links → l' ∈ links → is_link_end x l → is_link_end x l' → l = l'.
Proof.
  intros Hl Hl' Hx Hx'. apply (sorted_unique links); [apply Hok | done | done |].
  assert (E : m !! x = Some (valid_through l)) by (apply Hok; by exists l).
  assert (E' : m !! x = Some (valid_through l')) by (apply Hok; by exists l'). congruence.
Qed.

Lemma deref_ok l : l ∈ links → deref links (valid_through l) = Ok l.
Proof.
  intros Hl. unfold deref. destruct (List.find _ links) as [l'|] eqn:E.
  - apply find_some in E as [Hin Ht%N.eqb_eq]. f_equal. apply list_elem_of_In in Hin. by apply (sorted_unique links); [apply Hok | ..].
  - apply list_elem_of_In in Hl. pose proof (find_none _ _ E l Hl) as Hf. cbn in Hf. by rewrite N.eqb_refl in Hf.
Qed.

Lemma remove_ok l :
  l ∈ links →
  ld_ok (List.filter (λ y, negb (valid_through y =? valid_through l)%N) links) (delete (l_target l) (delete (l_source l) m)) last.
Proof.
  intros Hl. split.
  - apply sorted_filter, Hok.
  - intros y [Hy _]%filter_out. by apply Hok.
  - intros y [Hy _]%filter_out. by apply Hok.
  - intros x t. rewrite lookup_delete_Some, lookup_delete_Some, (ok_edges _ _ _ Hok). split.
    + intros (Ht & Hs & y & Hy & E & Hx). exists y. split_and!; [| done | done]. apply filter_out. split; [done |].
      intros Hv. apply (sorted_unique links) in Hv as ->; [| apply Hok | done | done]. by destruct Hx.
    + intros (y & [Hy Hv]%filter_out & E & Hx).
      assert (Hn : ∀ z, is_link_end z l → z ≠ x).
      { intros z Hz ->. apply Hv. by rewrite (end_unique y l x Hy Hl Hx Hz). }
      split_and!; [apply Hn; by right | apply Hn; by left |]. by exists y.
Qed.

Lemma add_link_ok from to until :
  (last < until)%N → cable from = Some to → lt_port from to = true → m !! from = None → m !! to = None →
  ld_ok (insert_link (DiscoveredLink from to until) links) (<[to := until]> (<[from := until]> m)) until ∧
  insert_link (DiscoveredLink from to until) links = links ++ [DiscoveredLink from to until].
Proof.
  intros Ht Hc Hlt Hf Hto.
  destruct (sorted_snoc (DiscoveredLink from to until) links) as [Hs E]; [apply Hok | |].
  { intros l Hl. pose proof (ok_times _ _ _ Hok l Hl). cbn. lia. }
  split; [| done]. rewrite E. split.
  - done.
  - intros l [Hl | ->%list_elem_of_singleton]%elem_of_app; [| done]. pose proof (ok_times _ _ _ Hok l Hl). lia.
  - intros l [Hl | ->%list_elem_of_singleton]%elem_of_app; [by apply Hok | done].
  - intros x t. rewrite lookup_insert_Some, lookup_insert_Some, (ok_edges _ _ _ Hok).
    assert (Hnew : ∀ l, l ∈ links → ¬ is_link_end from l ∧ ¬ is_link_end to l).
    { intros l Hl. split; intros Hx.
      - assert (m !! from = Some (valid_through l)) by (apply Hok; by exists l). congruence.
      - assert (m !! to = Some (valid_through l)) by (apply Hok; by exists l). congruence. }
    split.
    + intros [[<- <-] | [Hne [[<- <-] | [Hne' (l & Hl & Hv & Hx)]]]].
      * exists (DiscoveredLink from to until). split_and!; [apply elem_of_app; right; by constructor | done | by right].
      * exists (DiscoveredLink from to until). split_and!; [apply elem_of_app; right; by constructor | done | by left].
      * exists l. split_and!; [apply elem_of_app; by left | done | done].
    + intros (l & [Hl | ->%list_elem_of_singleton]%elem_of_app & Hv & Hx).
      * right. destruct (Hnew l Hl) as [H1 H2]. split; [by intros -> |]. right. split; [by intros -> |]. by exists l.
      * cbn in Hv. subst t. destruct Hx as [Hx | Hx]; cbn in Hx; [| by left]. right.
        split; [| by left]. intros ->. subst x. by apply (cable_other from).
Qed.
End Cabled.

(** ** Signals *)

Abbreviation port_pairs := (gset (switch_and_port * switch_and_port)).

Definition pairs (links : list discovered_link) : port_pairs := list_to_set (map (λ l, (l_source l, l_target l)) links).

Lemma pairs_spec links p : p ∈ pairs links ↔ ∃ l, l ∈ links ∧ p = (l_source l, l_target l).
Proof. unfold pairs. rewrite elem_of_list_to_set, list_elem_of_fmap. split; intros (l & H1 & H2); by exists l. Qed.

(** The links that one knows who hears the signals; each of them is news. *)
Inductive heard (news : switch_and_port → switch_and_port → Prop) : port_pairs → list signal → port_pairs → Prop :=
| heard_nothing X : heard news X [] X
| heard_new X a b sig Y :
    news a b → (a, b) ∉ X → heard news ({[ (a, b) ]} ∪ X) sig Y → heard news X (Discovered a b :: sig) Y
| heard_lost X a b sig Y :
    (a, b) ∈ X → heard news (X ∖ {[ (a, b) ]}) sig Y → heard news X (Broken a b :: sig) Y.

Lemma heard_app news X s1 Y s2 Z : heard news X s1 Y → heard news Y s2 Z → heard news X (s1 ++ s2) Z.
Proof. induction 1; intros H2; cbn; [done | |]; constructor; auto. Qed.

(** What happens to the application; times only grow. *)
Inductive event : Type :=
| Beacon (until : N) (from to : switch_and_port)
| PortDown (d n : N)
| Timer (now : N).

Definition step (ndebug : bool) (s : link_discovery) (e : event) : res (link_discovery * list signal) :=
  match e with
  | Beacon until from to => handleBeacon s until from to
  | PortDown d n => portDown s d n
  | Timer now => '(s', sig, _) ← timerEvent ndebug 0 now [] s; Ok (s', sig)
  end.

Fixpoint run (ndebug : bool) (s : link_discovery) (es : list event) : res (link_discovery * list signal) :=
  match es with
  | [] => Ok (s, [])
  | e :: es => '(s1, sig1) ← step ndebug s e; '(s2, sig2) ← run ndebug s1 es; Ok (s2, sig1 ++ sig2)
  end.

(** No timer finds a link that has expired. *)
Fixpoint renewed (ndebug : bool) (s : link_discovery) (es : list event) : Prop :=
  match es with
  | [] => True
  | e :: es =>
      match e with Timer now => Forall (λ l, (now ≤ valid_through l)%N) (m_links s) | _ => True end ∧
      match step ndebug s e with Ok (s', _) => renewed ndebug s' es | Throw _ => True end
  end.

Section Tracks.
Context (cable : switch_and_port → option switch_and_port) `{HC : !Cabling cable}.

(** Beacons come over the cables, with ever later times. *)
Fixpoint happen (last : N) (es : list event) : Prop :=
  match es with
  | [] => True
  | Beacon until from to :: es =>
      (last < until)%N ∧ cable from = Some to ∧ lt_port from to = true ∧ happen until es
  | _ :: es => happen last es
  end.

(** A link that can be: over a cable, the smaller port first. *)
Definition cabled (a b : switch_and_port) : Prop := cable a = Some b ∧ lt_port a b = true.

Lemma lt_port_asym a b : lt_port a b = true → lt_port b a = false.
Proof.
  unfold lt_port. rewrite orb_true_iff, orb_false_iff, !andb_true_iff, andb_false_iff, !N.ltb_lt, !N.ltb_ge, !N.eqb_eq, N.eqb_neq. lia.
Qed.

Section State.
Context {links : list discovered_link} {m : gmap switch_and_port N} {last : N} (Hok : ld_ok cable links m last).

(** The link at an end of it. *)
Lemma find_link x t : m !! x = Some t → ∃ l, l ∈ links ∧ valid_through l = t ∧ is_link_end x l.
Proof. apply Hok. Qed.

Lemma cabled_end l x y : l ∈ links → cable x = Some y → is_link_end x l → is_link_end y l.
Proof.
  intros Hl Hc Hx. destruct (ok_cabled _ _ _ _ Hok l Hl) as [Hlc _]. destruct Hx as [<- | <-].
  - right. congruence.
  - left. assert (Hlb : cable (l_target l) = Some (l_source l)) by by eapply cable_back. congruence.
Qed.

Lemma link_at l x y : l ∈ links → cable x = Some y → lt_port x y = true → is_link_end x l → l_source l = x ∧ l_target l = y.
Proof.
  intros Hl Hc Hlt Hx. destruct (ok_cabled _ _ _ _ Hok l Hl) as [Hlc Hll]. destruct Hx as [<- | <-].
  - split; [done | congruence].
  - assert (Hlb : cable (l_target l) = Some (l_source l)) by by eapply cable_back. assert (y = l_source l) as -> by congruence. apply lt_port_asym in Hlt. congruence.
Qed.

Lemma pairs_remove l :
  l ∈ links → pairs (List.filter (λ y, negb (valid_through y =? valid_through l)%N) links)
            = pairs links ∖ {[ (l_source l, l_target l) ]}.
Proof.
  intros Hl. apply set_eq. intros p. rewrite elem_of_difference, elem_of_singleton, !pairs_spec. split.
  - intros (y & [Hy Hv]%filter_out & ->). split; [by exists y |]. intros [= Es Et]. apply Hv. f_equal.
    apply (end_unique cable Hok y l (l_source l)); [done | done | by left | by left].
  - intros [(y & Hy & ->) Hne]. exists y. split; [| done]. apply filter_out. split; [done |].
    intros Hv. apply Hne. by rewrite (sorted_unique links y l (ok_sorted _ _ _ _ Hok) Hy Hl Hv).
Qed.

Lemma edges_at l x : l ∈ links → is_link_end x l → m !! x = Some (valid_through l).
Proof. intros Hl Hx. apply Hok. by exists l. Qed.

Lemma clear_step x :
  ∃ ls m' sig, clearLinkAt (LinkDiscovery links m) x = Ok (LinkDiscovery ls m', sig) ∧
    ld_ok cable ls m' last ∧ heard cabled (pairs links) sig (pairs ls) ∧
    ∀ l, l ∈ ls ↔ l ∈ links ∧ ¬ is_link_end x l.
Proof.
  unfold clearLinkAt. cbn [m_links m_out_edges]. destruct (m !! x) as [t|] eqn:E.
  2: { exists links, m, []. split_and!; [done | done | constructor |]. intros l. split; [| by intros [? _]]. intros Hl. split; [done |].
       intros Hx. by rewrite (edges_at l x Hl Hx) in E. }
  destruct (find_link x t E) as (l & Hl & <- & Hx). unfold erase_link. rewrite (deref_ok cable Hok l Hl). cbn [mbind res_bind].
  destruct (ok_cabled _ _ _ _ Hok l Hl) as [Hc Hlt].
  assert (Hne : l_source l ≠ l_target l) by (intros En; rewrite En in Hc; by apply (cable_other cable (l_target l)) in Hc).
  pose proof (edges_at l (l_source l) Hl ltac:(by left)) as Es. pose proof (edges_at l (l_target l) Hl ltac:(by right)) as Et.
  eexists _, (delete (l_target l) (delete (l_source l) m)), [Broken (l_source l) (l_target l)].
  split_and!; [| by apply (remove_ok cable Hok l) | |].
  3: { intros y. rewrite filter_out. split; intros [Hy Hv]; (split; [done |]).
       - intros Hyx. apply Hv. by rewrite (end_unique cable Hok y l x Hy Hl Hyx Hx).
       - intros Et'. apply Hv. by rewrite (sorted_unique links y l (ok_sorted _ _ _ _ Hok) Hy Hl Et'). }
  2: { apply heard_lost; [apply pairs_spec; by exists l |]. rewrite <- pairs_remove by done. constructor. }
  destruct (decide (l_source l = x)) as [<- | Hnx].
  - cbn [mbind res_bind]. unfold check_erase. rewrite Es. cbn [mbind res_bind]. rewrite lookup_delete_ne, Et by done.
    cbn [mbind res_bind]. by rewrite Hlt.
  - destruct Hx as [Hx | <-]; [done |]. rewrite bool_decide_eq_true_2 by done. cbn [require mbind res_bind].
    unfold check_erase. rewrite Et. cbn [mbind res_bind]. rewrite lookup_delete_ne, Es by done. cbn [mbind res_bind].
    rewrite (lt_port_asym _ _ Hlt). by rewrite delete_delete.
Qed.

Lemma beacon_step until from to :
  (last < until)%N → cable from = Some to → lt_port from to = true →
  ∃ ls m' sig, handleBeacon (LinkDiscovery links m) until from to = Ok (LinkDiscovery ls m', sig) ∧
    ld_ok cable ls m' until ∧ heard cabled (pairs links) sig (pairs ls).
Proof.
  intros Ht Hc Hlt. unfold handleBeacon. cbn [m_links m_out_edges].
  assert (P : ∀ ls, pairs (ls ++ [DiscoveredLink from to until]) = {[ (from, to) ]} ∪ pairs ls).
  { intros ls. unfold pairs. rewrite map_app, list_to_set_app_L, (comm_L (∪)). cbn. by rewrite union_empty_r_L. }
  destruct (m !! from) as [t|] eqn:E.
  - destruct (find_link from t E) as (l & Hl & <- & Hx). destruct (link_at l from to Hl Hc Hlt Hx) as [<- <-].
    unfold erase_link. rewrite (deref_ok cable Hok l Hl). cbn [mbind res_bind].
    pose proof (remove_ok cable Hok l Hl) as Hrem.
    destruct (add_link_ok cable Hrem (l_source l) (l_target l) until Ht Hc Hlt) as [Hadd Eadd].
    { rewrite lookup_delete_ne, lookup_delete_eq; [done |]. intros En. rewrite En in Hc. by apply (cable_other cable (l_source l)) in Hc. }
    { apply lookup_delete_eq. }
    eexists _, _, []. split_and!; [done | exact Hadd |]. rewrite Eadd, P, pairs_remove by done.
    assert (Hin : (l_source l, l_target l) ∈ pairs links) by (apply pairs_spec; by exists l).
    rewrite <- union_difference_singleton_L by done. constructor.
  - assert (Eto : m !! to = None).
    { destruct (m !! to) as [t|] eqn:Et; [| done]. destruct (find_link to t Et) as (l & Hl & <- & Hx).
      pose proof (cabled_end l to from Hl ltac:(by eapply cable_back) Hx) as Hy. rewrite (edges_at l from Hl Hy) in E. done. }
    destruct (add_link_ok cable Hok from to until Ht Hc Hlt E Eto) as [Hadd Eadd].
    eexists _, _, [Discovered from to]. split_and!; [done | exact Hadd |]. rewrite Eadd, P.
    apply heard_new; [done | | constructor]. intros (l & Hl & [= Es Et])%pairs_spec.
    rewrite (edges_at l from Hl ltac:(by left)) in E. done.
Qed.
End State.

Lemma filter_head x links :
  StronglySorted (λ x y, (valid_through x < valid_through y)%N) (x :: links) →
  List.filter (λ y, negb (valid_through y =? valid_through x)%N) (x :: links) = links.
Proof.
  intros H. cbn. rewrite N.eqb_refl. cbn. apply StronglySorted_inv in H as [_ H]. rewrite Forall_elem in H.
  assert (E : ∀ ls, (∀ y, y ∈ ls → (valid_through x < valid_through y)%N) →
            List.filter (λ y, negb (valid_through y =? valid_through x)%N) ls = ls); [| by apply E].
  induction ls as [|y ls IH]; intros Hy; cbn; [done |]. pose proof (Hy y (list_elem_of_here _ _)).
  rewrite (proj2 (N.eqb_neq _ _)) by lia. cbn. rewrite IH; [done |]. intros z Hz. apply Hy. by constructor.
Qed.

(** Expired links are at the front. *)
Lemma expire_step now links : ∀ m last,
  ld_ok cable links m last →
  ∃ ls m' sig, expire false now links m = Ok (ls, m', sig) ∧ ld_ok cable ls m' last ∧ heard cabled (pairs links) sig (pairs ls) ∧
    ∀ l, l ∈ ls → (now ≤ valid_through l)%N.
Proof.
  induction links as [|x links IH]; intros m last Hok; cbn [expire].
  { exists [], m, []. split_and!; [done | done | constructor |]. intros l Hl. by apply not_elem_of_nil in Hl. }
  assert (Hx : x ∈ x :: links) by constructor. pose proof (ok_sorted _ _ _ _ Hok) as Hs.
  destruct (N.ltb_spec (valid_through x) now) as [Hlt | Hge].
  - destruct (ok_cabled _ _ _ _ Hok x Hx) as [Hc _].
    assert (Hne : l_source x ≠ l_target x) by (intros En; rewrite En in Hc; by apply (cable_other cable (l_target x)) in Hc).
    pose proof (edges_at Hok x (l_source x) Hx ltac:(by left)) as Es. pose proof (edges_at Hok x (l_target x) Hx ltac:(by right)) as Et.
    pose proof (remove_ok cable Hok x Hx) as Hr. pose proof (pairs_remove Hok x Hx) as Hp. rewrite filter_head in Hr, Hp by done.
    destruct (IH _ _ Hr) as (ls & m' & sig & E & Hls & Hsig & Hnow).
    unfold assert_erase, check_erase. rewrite Es. cbn [mbind res_bind]. rewrite lookup_delete_ne, Et by done. cbn [mbind res_bind].
    rewrite E. cbn [mbind res_bind]. eexists ls, m', _. split_and!; [done | done | | done].
    apply heard_lost; [apply pairs_spec; by exists x |]. by rewrite <- Hp.
  - exists (x :: links), m, []. split_and!; [done | done | constructor |]. intros l Hl.
    apply elem_of_cons in Hl as [-> | Hl]; [done |]. apply StronglySorted_inv in Hs as [_ Hs]. rewrite Forall_elem in Hs.
    specialize (Hs l Hl). cbn in Hs. lia.
Qed.

(** Where nothing has expired the timer does nothing, assert or not. *)
Lemma expire_none ndebug now links m : Forall (λ l, (now ≤ valid_through l)%N) links → expire ndebug now links m = Ok (links, m, []).
Proof. intros H. destruct H as [|l links Hl _]; [done |]. cbn [expire]. by rewrite (proj2 (N.ltb_ge _ _)). Qed.

Lemma run_step ndebug es : ∀ links m last,
  ld_ok cable links m last → happen last es → ndebug = false ∨ renewed ndebug (LinkDiscovery links m) es →
  ∃ ls m' sig last', run ndebug (LinkDiscovery links m) es = Ok (LinkDiscovery ls m', sig) ∧
    ld_ok cable ls m' last' ∧ heard cabled (pairs links) sig (pairs ls).
Proof.
  induction es as [|e es IH]; intros links m last Hok Hh Hr; cbn [run].
  { exists links, m, [], last. split_and!; [done | done | constructor]. }
  assert (Hstep : ∃ ls m1 sig last1, step ndebug (LinkDiscovery links m) e = Ok (LinkDiscovery ls m1, sig) ∧
            ld_ok cable ls m1 last1 ∧ heard cabled (pairs links) sig (pairs ls) ∧ happen last1 es).
  { destruct e as [until from to | d n | now]; cbn [happen step] in Hh |- *.
    - destruct Hh as (Ht & Hc & Hlt & Hh). destruct (beacon_step Hok until from to Ht Hc Hlt) as (ls & m1 & sig & E & H1 & H2).
      by exists ls, m1, sig, until.
    - destruct (clear_step Hok (SwitchPort d n)) as (ls & m1 & sig & E & H1 & H2 & _). by exists ls, m1, sig, last.
    - unfold timerEvent. cbn [m_links m_out_edges]. destruct Hr as [-> | [Hr _]].
      + destruct (expire_step now links m last Hok) as (ls & m1 & sig & E & H1 & H2 & _). rewrite E. cbn. by exists ls, m1, sig, last.
      + rewrite expire_none by done. cbn. exists links, m, [], last. split_and!; [done | done | constructor | done]. }
  destruct Hstep as (ls & m1 & sig & last1 & E & H1 & H2 & H3). cbn [renewed] in Hr. rewrite E in Hr |- *. cbn [mbind res_bind].
  destruct (IH ls m1 last1 H1 H3) as (ls' & m' & sig' & last' & -> & H4 & H5); [tauto |]. cbn [mbind res_bind].
  exists ls', m', (sig ++ sig'), last'. split_and!; [done | done |]. by apply heard_app with (pairs ls).
Qed.

Lemma empty_ok : ld_ok cable [] ∅ 0.
Proof.
  split; [constructor | intros l Hl; by apply not_elem_of_nil in Hl .. |]. intros x t. rewrite lookup_empty. split; [done |].
  intros (l & Hl & _). by apply not_elem_of_nil in Hl.
Qed.
End Tracks.

Section Sending.
Lemma of_be_be n v r : fold_left (λ r b, r * 256 + b)%N (be n v) r = (r * 2 ^ (8 * N.of_nat n) + v mod 2 ^ (8 * N.of_nat n))%N.
Proof.
  revert r. induction n as [|n IH]; intros r; cbn [be fold_left].
  - change (8 * N.of_nat 0)%N with 0%N. rewrite N.pow_0_r, N.mod_1_r. lia.
  - rewrite IH. replace (8 * N.of_nat (S n))%N with (8 + 8 * N.of_nat n)%N by lia. rewrite N.pow_add_r.
    change 255%N with (N.ones 8). rewrite N.land_ones, N.shiftr_div_pow2. change (2 ^ 8)%N with 256%N.
    rewrite (N.mul_comm 256), N.Div0.mod_mul_r. lia.
Qed.

Lemma of_be_small n v : (v < 2 ^ (8 * N.of_nat n))%N → of_be (be n v) = v.
Proof. intros Hv. unfold of_be. rewrite of_be_be, N.mod_small by done. lia. Qed.

Lemma lldp_read src ttl d n pad lldp :
  (d < 2 ^ 64)%N → (n < 2 ^ 32)%N →
  dpid_of_lldp (serialize_over (lldp_packet src d n ttl d ++ pad) lldp) = d ∧
  port_of_lldp (serialize_over (lldp_packet src d n ttl d ++ pad) lldp) = n.
Proof.
  intros Hd Hn. split.
  - change (of_be (be 8 d) = d). by apply of_be_small.
  - change (of_be (be 4 n) = n). by apply of_be_small.
Qed.

Lemma lt_port_total a b : a ≠ b → lt_port a b = negb (lt_port b a).
Proof.
  intros Hne. destruct a as [d n], b as [d' n']. unfold lt_port. cbn [dpid port].
  destruct (N.ltb_spec d d'), (N.ltb_spec d' d), (N.eqb_spec d d'), (N.eqb_spec d' d), (N.ltb_spec n n'), (N.ltb_spec n' n);
    cbn; try done; try lia. subst. assert (n = n') as -> by lia. done.
Qed.
End Sending.

(** ** The topology that hears the signals *)

(** The ids of the links do not matter to the graph. *)
Fixpoint hear (t : topology) (sig : list signal) : res topology :=
  match sig with
  | [] => Ok t
  | Discovered a b :: sig => hear (linkDiscovered t a b 2000) sig
  | Broken a b :: sig => t' ← linkBroken t a b; hear t' sig
  end.

(** Two switches are joined by one cable at most, and none goes back to its switch. *)
Definition single (cable : switch_and_port → option switch_and_port) : Prop :=
  (∀ a b, cable a = Some b → dpid a ≠ dpid b) ∧
  (∀ a b c d, cable a = Some b → cable c = Some d → dpid a = dpid c → dpid b = dpid d → a = c).

Definition ends (l : link_object) : switch_and_port * switch_and_port := (lo_source l, lo_target l).

(** The graph holds the links of the set, and so does the list for users, each
    once. *)
Record in_sync (t : topology) (X : port_pairs) : Prop := {
  sync_edges a b : (a, b) ∈ X ↔ ∃ e, e ∈ edges t ∧ source e = a ∧ target e = b;
  sync_list p : p ∈ X ↔ p ∈ map ends (topo t);
  sync_once : NoDup (map ends (topo t))
}.

(** The link that is removed is the one of these ends. *)
Lemma remove_link_ends from to l : NoDup (map ends l) → (∀ o, o ∈ l → link_of from to o = true → ends o = (from, to)) →
  NoDup (map ends (remove_link from to l)) ∧ ∀ p, p ∈ map ends (remove_link from to l) ↔ p ∈ map ends l ∧ p ≠ (from, to).
Proof.
  intros Hnd Hof. induction l as [|o l IH]; cbn [remove_link map]; [split; [done |]; intros p; by rewrite elem_of_nil; split; [| intros [? _]] |].
  cbn [map] in Hnd. apply list.NoDup_cons in Hnd as [Ho Hnd]. destruct (link_of from to o) eqn:E.
  - assert (Eo : ends o = (from, to)) by (apply Hof; [by left | done]). split; [done |]. intros p. rewrite Eo in *. rewrite elem_of_cons. split.
    + intros Hp. split; [by right |]. by intros ->.
    + by intros [[-> | Hp] Hne].
  - assert (Eo : ends o ≠ (from, to)).
    { intros [= Es Et]. unfold link_of in E. apply orb_false_iff in E as [E _]. apply bool_decide_eq_false in E. by apply E. }
    destruct IH as [H1 H2]; [done | intros x Hx; apply Hof; by right |]. cbn [map]. split.
    + apply list.NoDup_cons. split; [| done]. intros [Hx _]%H2. done.
    + intros p. rewrite !elem_of_cons, H2. split; [intros [-> | [? ?]]; auto | intros [[-> | ?] ?]; auto].
Qed.

Section Sync.
Context (cable : switch_and_port → option switch_and_port) `{HC : !Cabling cable} (Hsingle : single cable).

Lemma cabled_same a b e :
  cabled cable a b → cabled cable (source e) (target e) → joins e (dpid a) (dpid b) = true → source e = a ∧ target e = b.
Proof.
  intros [Hab Hlt] [He Hlte] [[Hs Ht] | [Hs Ht]]%joins_spec.
  - assert (E : source e = a) by (by apply (proj2 Hsingle (source e) (target e) a b)). split; [done | congruence].
  - assert (Hba : cable b = Some a) by by eapply cable_back.
    assert (E : source e = b) by (by apply (proj2 Hsingle (source e) (target e) b a)).
    assert (target e = a) by congruence. apply lt_port_asym in Hlt. congruence.
Qed.

Lemma hear_new t X a b : in_sync t X → cabled cable a b → (a, b) ∉ X → in_sync (linkDiscovered t a b 2000) ({[ (a, b) ]} ∪ X).
Proof.
  intros [H1 H2 H3] Hab Hnew. unfold linkDiscovered. rewrite bool_decide_eq_false_2 by (apply (proj1 Hsingle), Hab).
  split; cbn [edges topo vertex].
  - intros c d. rewrite elem_of_union, elem_of_singleton, (H1 c d). split.
    + intros [[= -> ->] | (e & He & Hc & Hd)]; [exists (LinkProperty a b 1) | exists e]; (split; [| done]); apply elem_of_app;
        [by right; constructor | by left].
    + intros (e & [He | ->%list_elem_of_singleton]%elem_of_app & <- & <-); [right; by exists e | by left].
  - intros p. rewrite map_app, elem_of_union, elem_of_app, elem_of_singleton, H2. cbn [map ends lo_source lo_target]. rewrite list_elem_of_singleton. tauto.
  - rewrite map_app. apply list.NoDup_app. split_and!; [done | | by apply NoDup_singleton]. cbn [map ends lo_source lo_target].
    intros p Hp ->%list_elem_of_singleton. by apply Hnew, H2.
Qed.

Lemma hear_lost t X a b : in_sync t X → (∀ c d, (c, d) ∈ X → cabled cable c d) → (a, b) ∈ X →
  ∃ t', linkBroken t a b = Ok t' ∧ in_sync t' (X ∖ {[ (a, b) ]}).
Proof.
  intros [H1 H2 H3] HX Hin. pose proof (HX a b Hin) as Hab. unfold linkBroken. cbn [edges topo vertex].
  assert (Hof : ∀ o, o ∈ topo t → link_of a b o = true → ends o = (a, b)).
  { intros o Ho E. assert (Hc : cabled cable (lo_source o) (lo_target o)) by (apply HX, H2, list_elem_of_fmap; by exists o).
    unfold link_of in E. apply orb_true_iff in E as [E | E]; apply bool_decide_eq_true in E as [Es Et]; unfold ends; rewrite Es, Et in *; [done |].
    destruct Hc as [_ Hlt], Hab as [_ Hlt']. apply lt_port_asym in Hlt. congruence. }
  destruct (remove_link_ends a b (topo t) H3 Hof) as [R1 R2].
  destruct (getLink _ a b) eqn:Eg.
  2: { apply H2, list_elem_of_fmap in Hin as (o & [= Ea Eb] & Ho). unfold getLink in Eg. cbn [topo vertex] in Eg.
       apply list_elem_of_In in Ho. pose proof (find_none _ _ Eg o Ho) as Hn. cbn in Hn. unfold link_of in Hn.
       apply orb_false_iff in Hn as [Hn _]. apply bool_decide_eq_false in Hn. by destruct Hn. }
  eexists. split; [done |]. split; cbn [edges topo].
  - intros c d. unfold remove_edge. rewrite elem_of_difference, elem_of_singleton, (H1 c d). split.
    + intros [(e & He & <- & <-) Hne]. exists e. split; [| done]. apply list_elem_of_In, filter_In. split; [by apply list_elem_of_In |].
      apply negb_true_iff, not_true_iff_false. intros Hj. apply Hne.
      destruct (cabled_same a b e Hab) as [<- <-]; [| done | done]. apply HX, H1. by exists e.
    + intros (e & He & <- & <-). apply list_elem_of_In, filter_In in He as [He Hj]. apply list_elem_of_In in He. split; [by exists e |].
      intros [= Ea Eb]. apply negb_true_iff in Hj.
      assert (joins e (dpid a) (dpid b) = true) by (apply joins_spec; left; by subst). congruence.
  - intros p. by rewrite R2, <- H2, elem_of_difference, elem_of_singleton.
  - done.
Qed.

Lemma hear_sync X sig Y : heard (cabled cable) X sig Y →
  ∀ t, in_sync t X → (∀ a b, (a, b) ∈ X → cabled cable a b) → ∃ t', hear t sig = Ok t' ∧ in_sync t' Y.
Proof.
  induction 1 as [X | X a b sig Y Hnews Hnew _ IH | X a b sig Y Hin _ IH]; intros t Hs HX; cbn [hear]; [by exists t | |].
  - apply IH; [by apply hear_new |]. intros c d [[= -> ->]%elem_of_singleton | Hcd]%elem_of_union; auto.
  - destruct (hear_lost t X a b Hs HX Hin) as (t' & -> & Hs'). cbn [mbind res_bind]. apply IH; [done |].
    intros c d [Hcd _]%elem_of_difference; auto.
Qed.
End Sync.

Lemma first_beacon t a b :
  handleBeacon empty_discovery t a b =
    Ok (LinkDiscovery [DiscoveredLink a b t] (<[b := t]> (<[a := t]> ∅)), [Discovered a b]).
Proof. unfold handleBeacon, empty_discovery. cbn [m_links m_out_edges]. by rewrite lookup_empty. Qed.

(** ** Properties *)

(** C21: link discovery.  While every port is cabled to one other and beacons
    come over the cables with ever later times, whatever order of beacons, lost
    ports and timeouts runs without a failure or a dangling iterator; the
    signals are the changes of the set of links, each discovery of a cabled
    pair that was not known and each break of one that was, and the map takes
    exactly the ends of the links to them.  In a Release build, where assert is
    compiled away, this is so as long as no timer finds a link that has
    expired. *)
Theorem link_discovery_tracks (cable : switch_and_port → option switch_and_port) `{!Cabling cable} (ndebug : bool) (es : list event) :
  happen cable 0 es → ndebug = false ∨ renewed ndebug empty_discovery es →
  ∃ s sig, run ndebug empty_discovery es = Ok (s, sig) ∧
    heard (cabled cable) ∅ sig (pairs (m_links s)) ∧
    ∀ x t, m_out_edges s !! x = Some t ↔ ∃ l, l ∈ m_links s ∧ valid_through l = t ∧ is_link_end x l.
Proof.
  intros Hh Hr. destruct (run_step cable ndebug es [] ∅ 0 (empty_ok cable) Hh Hr) as (ls & m & sig & last & E & Hok & Hs).
  exists (LinkDiscovery ls m), sig. split_and!; [done | done | apply Hok].
Qed.

(** C20: the topology in step.  While every port is cabled to one other, no two
    cables join the same switches, none goes back to its switch and beacons
    come over the cables with ever later times, the topology that hears the
    signals does not fail, its graph has an edge for exactly the links of link
    discovery, and its list for users holds exactly these, each once.  In a
    Release build this is so as long as no timer finds a link that has
    expired. *)
Theorem topology_in_sync (cable : switch_and_port → option switch_and_port) `{!Cabling cable} (ndebug : bool) (es : list event) :
  happen cable 0 es → ndebug = false ∨ renewed ndebug empty_discovery es → single cable →
  ∃ s sig t, run ndebug empty_discovery es = Ok (s, sig) ∧ hear empty_topology sig = Ok t ∧ in_sync t (pairs (m_links s)).
Proof.
  intros Hh Hr Hsingle. destruct (run_step cable ndebug es [] ∅ 0 (empty_ok cable) Hh Hr) as (ls & m & sig & last & E & Hok & Hs).
  destruct (hear_sync cable Hsingle _ _ _ Hs empty_topology) as (t & Et & Hsync); [| by intros a b Hab%elem_of_empty |].
  - split; cbn; [| by intros p; rewrite elem_of_empty, elem_of_nil | constructor].
    intros a b. split; [by intros Hab%elem_of_empty |]. intros (e & He & _). by apply not_elem_of_nil in He.
  - by exists (LinkDiscovery ls m), sig, t.
Qed.

(** the round trip of LLDP.  What two switches send to each other over a
    cable, padded or not, is read back as the same pair of ports on both
    sides, the smaller first. *)
Theorem lldp_roundtrip (a b : switch_and_port) (interval : N) (p q : of_port) (po po' : N * N * list N) (pad lldp : list N) :
  a ≠ b → (dpid a < 2 ^ 64)%N → (port a < 2 ^ 32)%N → (dpid b < 2 ^ 64)%N → (port b < 2 ^ 32)%N →
  port_no p = port a → port_no q = port b → po ∈ sendLLDP interval (dpid a) p → po' ∈ sendLLDP interval (dpid b) q →
  ∃ from to, beacon (snd po ++ pad) lldp (dpid b) (port b) = (from, to) ∧
    beacon (snd po' ++ pad) lldp (dpid a) (port a) = (from, to) ∧ lt_port from to = true ∧
    ((from, to) = (a, b) ∨ (from, to) = (b, a)).
Proof.
  intros Hne Hda Hna Hdb Hnb Hp Hq Hpo Hpo'.
  assert (S : ∀ (c : switch_and_port) r x, port_no r = port c → x ∈ sendLLDP interval (dpid c) r →
            ∃ src, snd x = lldp_packet src (dpid c) (port c) interval (dpid c)).
  { intros c r x Hr Hx. unfold sendLLDP in Hx. rewrite Hr in Hx. eexists.
    repeat (apply elem_of_cons in Hx as [-> | Hx]; [reflexivity |]). by apply not_elem_of_nil in Hx. }
  destruct (S a p po Hp Hpo) as [src ->], (S b q po' Hq Hpo') as [src' ->]. unfold beacon. cbv zeta.
  destruct (lldp_read src interval (dpid a) (port a) pad lldp Hda Hna) as [-> ->].
  destruct (lldp_read src' interval (dpid b) (port b) pad lldp Hdb Hnb) as [-> ->].
  destruct a as [da na], b as [db nb]. cbn [dpid port]. pose proof (lt_port_total _ _ Hne) as Ht.
  destruct (lt_port (SwitchPort db nb) (SwitchPort da na)) eqn:E; cbn in Ht; rewrite Ht; eexists _, _; split_and!; auto.
Qed.

(** a cable that is moved.  When port [a] of a link is plugged into [c]
    instead of [b], the beacon of the new link is no news, and the old end [b]
    keeps an iterator to the link that was erased, which is followed when the
    port of [b] goes down. *)
Theorem moved_cable_dangles (a b c : switch_and_port) (t t' : N) :
  a ≠ b → b ≠ c → a ≠ c → (t < t')%N →
  ∃ s, run false empty_discovery [Beacon t a b; Beacon t' a c] = Ok (s, [Discovered a b]) ∧
    step false s (PortDown (dpid b) (port b)) = Throw Terminate.
Proof.
  intros Hab Hbc Hac Ht. cbn [run step]. rewrite first_beacon. cbn [mbind res_bind].
  unfold handleBeacon. cbn [m_links m_out_edges]. rewrite lookup_insert_ne, lookup_insert_eq by done.
  unfold erase_link, deref. cbn [List.find valid_through List.filter].
  rewrite N.eqb_refl. cbn [mbind res_bind negb insert_link app]. eexists. split; [reflexivity |].
  unfold portDown, clearLinkAt. cbn [m_out_edges m_links]. replace (SwitchPort (dpid b) (port b)) with b by by destruct b.
  rewrite !lookup_insert_ne, lookup_delete_ne, lookup_delete_ne, lookup_insert_eq by done.
  unfold deref. cbn [List.find valid_through]. by rewrite (proj2 (N.eqb_neq t' t)) by lia.
Qed.

(** without assertions.  When assert is compiled away the ends of a link
    that expires stay in the map, and the next beacon of the same link follows
    the iterator that is left there. *)
Theorem expired_without_asserts (a b : switch_and_port) (t now t' : N) :
  a ≠ b → (t < now)%N →
  ∃ s, run true empty_discovery [Beacon t a b; Timer now] = Ok (s, [Discovered a b; Broken a b]) ∧
    step true s (Beacon t' a b) = Throw Terminate.
Proof.
  intros Hab Ht. cbn [run step]. rewrite first_beacon. cbn [mbind res_bind].
  unfold timerEvent. cbn [m_links m_out_edges expire valid_through].
  rewrite (proj2 (N.ltb_lt _ _)) by done. cbn [assert_erase mbind res_bind app]. eexists. split; [reflexivity |].
  unfold handleBeacon. cbn [m_links m_out_edges]. by rewrite lookup_insert_ne, lookup_insert_eq by done.
Qed.

(** ** One cable between two switches *)

Definition sample_cable (x : switch_and_port) : option switch_and_port :=
  if decide (x = SwitchPort 1 1) then Some (SwitchPort 2 1)
  else if decide (x = SwitchPort 2 1) then Some (SwitchPort 1 1) else None.

Lemma sample_cable_cases a b :
  sample_cable a = Some b → (a = SwitchPort 1 1 ∧ b = SwitchPort 2 1) ∨ (a = SwitchPort 2 1 ∧ b = SwitchPort 1 1).
Proof. unfold sample_cable. destruct (decide _); [intros [= <-]; auto |]. destruct (decide _); [intros [= <-]; auto | done]. Qed.

#[export] Instance sample_cabling : Cabling sample_cable.
Proof.
  split; [intros a b | intros a]; intros H; destruct (sample_cable_cases _ _ H) as [[-> E] | [-> E]]; by subst || done.
Qed.

Lemma sample_single : single sample_cable.
Proof.
  split.
  - intros a b H. by destruct (sample_cable_cases _ _ H) as [[-> ->] | [-> ->]].
  - intros a b c d H H'. by destruct (sample_cable_cases _ _ H) as [[-> ->] | [-> ->]], (sample_cable_cases _ _ H') as [[-> ->] | [-> ->]].
Qed.

Definition sample_events : list event :=
  [Beacon 5 (SwitchPort 1 1) (SwitchPort 2 1); Timer 3; Beacon 9 (SwitchPort 1 1) (SwitchPort 2 1); PortDown 2 1;
   Beacon 12 (SwitchPort 1 1) (SwitchPort 2 1); Timer 20; Beacon 30 (SwitchPort 1 1) (SwitchPort 2 1)].

Lemma sample_happen : happen sample_cable 0 sample_events.
Proof. by repeat split. Qed.

(** The same without a timeout, for a Release build. *)
Definition sample_renewed : list event :=
  [Beacon 5 (SwitchPort 1 1) (SwitchPort 2 1); Timer 3; Beacon 9 (SwitchPort 1 1) (SwitchPort 2 1); Timer 9; PortDown 2 1; Timer 20].

Lemma link_discovery_tracks_witness :
  (∃ s sig, run false empty_discovery sample_events = Ok (s, sig) ∧ heard (cabled sample_cable) ∅ sig (pairs (m_links s)) ∧
     length sig = 5%nat) ∧
  ∃ s sig, run true empty_discovery sample_renewed = Ok (s, sig) ∧ heard (cabled sample_cable) ∅ sig (pairs (m_links s)).
Proof.
  split.
  - destruct (link_discovery_tracks sample_cable false sample_events sample_happen ltac:(by left)) as (s & sig & E & H & _).
    exists s, sig. split_and!; [done | done |]. vm_compute in E. by injection E as <- <-.
  - destruct (link_discovery_tracks sample_cable true sample_renewed) as (s & sig & E & H & _);
      [by repeat split | right; vm_compute; repeat split; repeat constructor; discriminate | by exists s, sig].
Defined.

Lemma topology_in_sync_witness :
  ∃ s sig t, run false empty_discovery sample_events = Ok (s, sig) ∧ hear empty_topology sig = Ok t ∧ in_sync t (pairs (m_links s)).
Proof. exact (topology_in_sync sample_cable false sample_events sample_happen ltac:(by left) sample_single). Defined.

Lemma lldp_roundtrip_witness :
  let p := OfPort 7 0 [2; 0; 0; 0; 0; 1]%N in
  let q := OfPort 9 0 [2; 0; 0; 0; 0; 2]%N in
  ∃ from to, beacon (snd (5%N, 7%N, lldp_packet 0x020000000001 5 7 120 5) ++ []) [] 3 9 = (from, to) ∧
    beacon (snd (3%N, 9%N, lldp_packet 0x020000000002 3 9 120 3) ++ []) [] 5 7 = (from, to) ∧
    lt_port from to = true ∧ ((from, to) = (SwitchPort 5 7, SwitchPort 3 9) ∨ (from, to) = (SwitchPort 3 9, SwitchPort 5 7)).
Proof.
  intros p q.
  apply (lldp_roundtrip (SwitchPort 5 7) (SwitchPort 3 9) 120 p q (5%N, 7%N, lldp_packet 0x020000000001 5 7 120 5)
           (3%N, 9%N, lldp_packet 0x020000000002 3 9 120 3) [] []); try done; vm_compute; constructor.
Defined.

Lemma moved_cable_dangles_witness :
  ∃ s, run false empty_discovery [Beacon 5 (SwitchPort 1 1) (SwitchPort 2 1); Beacon 6 (SwitchPort 1 1) (SwitchPort 3 1)]
         = Ok (s, [Discovered (SwitchPort 1 1) (SwitchPort 2 1)]) ∧ step false s (PortDown 2 1) = Throw Terminate.
Proof. by apply (moved_cable_dangles (SwitchPort 1 1) (SwitchPort 2 1) (SwitchPort 3 1) 5 6). Defined.

Lemma expired_without_asserts_witness :
  let a := SwitchPort 1 1 in
  let b := SwitchPort 2 1 in
  ∃ s, run true empty_discovery [Beacon 5 a b; Timer 6] = Ok (s, [Discovered a b; Broken a b]) ∧
    step true s (Beacon 9 a b) = Throw Terminate.
Proof. intros a b. by apply (expired_without_asserts a b 5 6 9). Defined.
