(* ===== verification/Loader.v ===== *)
(** * Loader: applications and their order, Loader.hh and .cc, Application.hh

    Applications name what they provide and what they depend on.  [startAll]
    registers them, initialises the configured services, each after its
    dependencies, and starts them.  The virtual methods of applications are
    events: the log of the calls of [init], with the thread they run on, and of
    [startUp].  A fatal log message ends the process ([Terminate]).  The
    recursion of [initialize] takes fuel, the number of applications that are
    not initialised yet and one more ([loader_terminates]); whatever the
    dependencies are, [init] runs after theirs, once ([loader_order]), and
    where they have no cycle everything that is configured is started
    ([loader_loads]). *)

From S2P Require Import Prelude.
From stdpp Require Import strings.

Abbreviation name := String.string.

Inductive app_state : Type := APP_REGISTERED | APP_INITIALIZING | APP_INITIALIZED | APP_STARTED.

#[global] Instance app_state_eq_dec : EqDecision app_state.
Proof. solve_decision. Defined.

Inductive loader_state : Type := INITIALIZING | STARTING | RUNNING.

Record loader : Type := Loader {
  state : loader_state;
  apps : gmap name app_state;
  last_thread : N;
  inits : list (name * N);     (** the calls of [init], and their threads *)
  starts : list name           (** the calls of [startUp] *)
}.

(** The constructor. *)
Definition new_loader : loader := Loader INITIALIZING ∅ 0 [] [].

Definition set_app (l : loader) (a : name) (s : app_state) : loader :=
  Loader (state l) (<[a := s]> (apps l)) (last_thread l) (inits l) (starts l).

(** [Loader::app]; its two exceptions are std::out_of_range. *)
Definition app (l : loader) (interface : name) : res name :=
  match apps l !! interface with
  | None => Throw StdOutOfRange
  | Some s => if decide (s = APP_INITIALIZED) then Ok interface else Throw StdOutOfRange
  end.

(** An array of dependencies ends at the first empty name. *)
Fixpoint until_empty (ds : list name) : list name :=
  match ds with [] => [] | d :: ds => if decide (d = EmptyString) then [] else d :: until_empty ds end.

Section Load.
(** [dependsOn], [pin-to-thread], and the number of threads. *)
Context (depends : name → list name) (pin : name → Z) (nthreads : N).

Definition dependsOn (a : name) : list name := until_empty (depends a).

(** The thread of an application: pinned, or the next one round. *)
Definition pick_thread (l : loader) (a : name) : res (N * N) :=
  if (0 <=? pin a)%Z && (Z.to_N (pin a) <? nthreads)%N then Ok (Z.to_N (pin a), last_thread l)
  else
    _ ← require (last_thread l <? nthreads)%N Terminate;
    let next := (last_thread l + 1)%N in
    Ok (last_thread l, if (next =? nthreads)%N then 0%N else next).

(** The loop over the dependencies; [false] is a null pointer. *)
Fixpoint init_deps (initialize : loader → name → comp (loader * bool)) (l : loader) (ds : list name) : comp (loader * bool) :=
  match ds with
  | [] => Ret (l, true)
  | d :: ds =>
      '(l, found) ← initialize l d;
      if negb found then Ret (l, false)
      else if decide (apps l !! d = Some APP_INITIALIZING) then Raise Terminate
      else init_deps initialize l ds
  end.

(** Recursive initialization *)
Fixpoint initialize (fuel : nat) (l : loader) (service : name) : comp (loader * bool) :=
  match fuel with
  | O => NoFuel
  | S fuel =>
      match apps l !! service with
      | None => Ret (l, false)
      | Some APP_REGISTERED =>
          '(l, found) ← init_deps (initialize fuel) (set_app l service APP_INITIALIZING) (dependsOn service);
          if negb found then Ret (l, false)
          else
            '(thread, last) ← lift (pick_thread l service);
            Ret (Loader (state l) (<[service := APP_INITIALIZED]> (apps l)) last (inits l ++ [(service, thread)]) (starts l), true)
      | Some _ => Ret (l, true)
      end
  end.

(** Registration; a name that is known keeps its application. *)
Definition register (registry : list name) : gmap name app_state :=
  fold_left (λ m a, match m !! a with Some _ => m | None => <[a := APP_REGISTERED]> m end) registry ∅.

Fixpoint initialize_all (fuel : nat) (l : loader) (services : list name) : comp loader :=
  match services with
  | [] => Ret l
  | s :: services => '(l, _) ← initialize fuel l s; initialize_all fuel l services
  end.

Definition start_all (l : loader) : loader :=
  Loader RUNNING ((λ s, if decide (s = APP_INITIALIZED) then APP_STARTED else s) <$> apps l) (last_thread l) (inits l)
    (starts l ++ omap (λ x, if decide (snd x = APP_INITIALIZED) then Some (fst x) else None) (map_to_list (apps l))).

Definition startAll (fuel : nat) (registry services : list name) : comp loader :=
  l ← initialize_all fuel (Loader INITIALIZING (register registry) 0 [] []) services; Ret (start_all l).

(** ** The order of the calls *)

(** Each dependency of an application is initialised before it. *)
Definition ordered (log : list name) : Prop :=
  ∀ before a after, log = before ++ a :: after → ∀ d, d ∈ dependsOn a → d ∈ before.

(** The log names the initialised applications, each once and in order; the
    threads are there. *)
Record loader_ok (l : loader) : Prop := {
  ok_log a : a ∈ map fst (inits l) ↔ apps l !! a = Some APP_INITIALIZED;
  ok_once : NoDup (map fst (inits l));
  ok_order : ordered (map fst (inits l));
  ok_threads a t : (a, t) ∈ inits l → (t < nthreads)%N;
  ok_fresh a : apps l !! a ≠ Some APP_STARTED;
  ok_starts : starts l = []
}.

(** What a run of [initialize] may do to the applications. *)
Record goes (l l' : loader) : Prop := {
  goes_known a : is_Some (apps l' !! a) ↔ is_Some (apps l !! a);
  goes_busy a : apps l !! a = Some APP_INITIALIZING → apps l' !! a = Some APP_INITIALIZING;
  goes_done a : apps l !! a = Some APP_INITIALIZED → apps l' !! a = Some APP_INITIALIZED;
  goes_back a : apps l' !! a = Some APP_REGISTERED → apps l !! a = Some APP_REGISTERED
}.

Lemma goes_refl l : goes l l.
Proof. by split. Qed.

Lemma goes_trans l1 l2 l3 : goes l1 l2 → goes l2 l3 → goes l1 l3.
Proof. intros [A1 A2 A3 A4] [B1 B2 B3 B4]. split; intros a; [rewrite B1; apply A1 | auto | auto | auto]. Qed.

Lemma ordered_snoc log a : ordered log → (∀ d, d ∈ dependsOn a → d ∈ log) → ordered (log ++ [a]).
Proof.
  intros Ho Ha before b after E d Hd. destruct after as [|c after _] using rev_ind.
  - apply app_inj_tail in E as [<- <-]. by apply Ha.
  - rewrite app_comm_cons, app_assoc in E. apply app_inj_tail in E as [-> <-]. by apply (Ho before b after).
Qed.

Lemma set_app_ok l a : loader_ok l → apps l !! a = Some APP_REGISTERED → loader_ok (set_app l a APP_INITIALIZING).
Proof.
  intros [H1 H2 H3 H4 H5 H6] Ha. split; cbn [set_app apps inits starts]; try done.
  - intros b. rewrite H1. destruct (decide (a = b)) as [<- |]; [rewrite lookup_insert_eq, Ha; split; congruence | by rewrite lookup_insert_ne].
  - intros b. destruct (decide (a = b)) as [<- |]; [by rewrite lookup_insert_eq | by rewrite lookup_insert_ne].
Qed.

Lemma pick_thread_lt l a t last : pick_thread l a = Ok (t, last) → (t < nthreads)%N.
Proof.
  unfold pick_thread. destruct (_ && _) eqn:E.
  - intros [= <- _]. apply andb_true_iff in E as [_ E%N.ltb_lt]. done.
  - unfold require. destruct (N.ltb_spec (last_thread l) nthreads) as [Hlt |]; cbn; [intros [= <- _]; done | done].
Qed.

(** The last step of [initialize]. *)
Lemma init_done l1 service thread last :
  loader_ok l1 → apps l1 !! service = Some APP_INITIALIZING → (∀ d, d ∈ dependsOn service → d ∈ map fst (inits l1)) →
  (thread < nthreads)%N →
  loader_ok (Loader (state l1) (<[service := APP_INITIALIZED]> (apps l1)) last (inits l1 ++ [(service, thread)]) (starts l1)).
Proof.
  intros [H1 H2 H3 H4 H5 H6] Hb Hd Ht. split; cbn [apps inits starts]; rewrite ?map_app; try done.
  - intros a. rewrite elem_of_app, H1. cbn [map fst]. rewrite list_elem_of_singleton.
    destruct (decide (service = a)) as [<- | Hne]; [rewrite lookup_insert_eq; tauto |].
    rewrite lookup_insert_ne by done. split; [by intros [? | <-] | by left].
  - apply NoDup_app. split_and!; [done | | by apply NoDup_singleton]. intros a Ha ->%list_elem_of_singleton. apply H1 in Ha. cbn in Ha. congruence.
  - by apply ordered_snoc.
  - intros a t [Hin | [= -> ->]%list_elem_of_singleton]%elem_of_app; [by apply (H4 a) | done].
  - intros a. destruct (decide (service = a)) as [<- | Hne]; [by rewrite lookup_insert_eq | by rewrite lookup_insert_ne].
Qed.

Lemma init_steps n : ∀ l service l' b,
  loader_ok l → initialize n l service = Ret (l', b) →
  loader_ok l' ∧ goes l l' ∧ (b = true → ∃ s, apps l' !! service = Some s ∧ s ≠ APP_REGISTERED).
Proof.
  induction n as [|n IH]; intros l service l' b Hok E; cbn [initialize] in E; [done |].
  destruct (apps l !! service) as [[]|] eqn:Es;
    try (injection E as <- <-; split_and!; [done | apply goes_refl | intros; eauto; done]).
  apply comp_bind_Ret in E as ([l1 found] & E1 & E).
  assert (D : ∀ ds l0 l1 found, loader_ok l0 → init_deps (initialize n) l0 ds = Ret (l1, found) →
            loader_ok l1 ∧ goes l0 l1 ∧ (found = true → ∀ d, d ∈ ds → d ∈ map fst (inits l1))).
  { clear -IH. induction ds as [|d ds IHds]; intros l0 l1 found Hok E; cbn [init_deps] in E.
    - injection E as <- <-. split_and!; [done | apply goes_refl |]. intros _ d Hd. by apply not_elem_of_nil in Hd.
    - apply comp_bind_Ret in E as ([l2 f2] & E2 & E). destruct (IH _ _ _ _ Hok E2) as (Hok2 & G2 & S2).
      destruct f2; cbn [negb] in E; [| injection E as <- <-; by split_and!].
      destruct (decide _) as [Hbusy | Hbusy] in E; [done |].
      destruct (IHds _ _ _ Hok2 E) as (Hok1 & G1 & S1). split_and!; [done | by apply goes_trans with l2 |].
      intros Hf d' [-> | Hd']%elem_of_cons; [| by apply S1].
      destruct (S2 eq_refl) as (s & Hs & Hns).
      assert (Hi : apps l2 !! d = Some APP_INITIALIZED) by (destruct s; [done | done | done | by destruct (ok_fresh _ Hok2 d)]).
      apply (ok_log _ Hok1). by apply (goes_done _ _ G1). }
  assert (Hb : apps (set_app l service APP_INITIALIZING) !! service = Some APP_INITIALIZING) by apply lookup_insert_eq.
  destruct (D _ _ _ _ (set_app_ok l service Hok Es) E1) as (Hok1 & G1 & S1).
  assert (G : goes l l1).
  { destruct G1 as [A1 A2 A3 A4]. cbn [set_app apps] in *. split; intros a; specialize (A1 a); specialize (A2 a); specialize (A3 a); specialize (A4 a);
      destruct (decide (service = a)) as [<- |]; rewrite ?lookup_insert_eq, ?lookup_insert_ne in * by done; rewrite ?Es in *; try done.
    rewrite A1. split; by eexists. }
  destruct found; cbn [negb] in E; [| injection E as <- <-; by split_and!].
  apply comp_bind_Ret in E as ([t last] & E2 & [= <- <-]).
  assert (Ht : (t < nthreads)%N).
  { apply (pick_thread_lt l1 service t last). destruct (pick_thread l1 service); cbn in E2; [by injection E2 as -> | done]. }
  split_and!.
  - apply init_done; [done | by apply (goes_busy _ _ G1) | by apply S1 | done].
  - destruct G as [A1 A2 A3 A4]. split; cbn [apps]; intros a; (destruct (decide (service = a)) as [<- | Hne]; [rewrite lookup_insert_eq | rewrite lookup_insert_ne by done; auto]).
    + rewrite Es. split; by eexists.
    + congruence.
    + done.
    + done.
  - intros _. exists APP_INITIALIZED. split; [apply lookup_insert_eq | done].
Qed.

(** ** What is needed *)

Definition needs (a d : name) : Prop := d ∈ dependsOn a.

(** Something that an application needs, however indirectly, is not registered. *)
Definition missing (l : loader) (a : name) : Prop := ∃ d, rtc needs a d ∧ apps l !! d = None.

Lemma missing_goes l l' a : goes l l' → missing l' a → missing l a.
Proof.
  intros G (d & Hd & E). exists d. split; [done |]. destruct (apps l !! d) eqn:Ed; [| done].
  destruct (proj2 (goes_known _ _ G d)) as [s Hs]; [by eexists | congruence].
Qed.

Lemma missing_needs l a d : d ∈ dependsOn a → missing l d → missing l a.
Proof. intros Hd (x & Hx & E). exists x. split; [by apply rtc_l with d | done]. Qed.

(** A call fails, or leaves an application busy, for what is missing only; it
    initialises what its service needs. *)
Record reaches (l l' : loader) (service : name) (b : bool) : Prop := {
  re_found : b = false → missing l service;
  re_busy a : apps l' !! a = Some APP_INITIALIZING → apps l !! a = Some APP_INITIALIZING ∨ missing l a;
  re_done a : apps l' !! a = Some APP_INITIALIZED → apps l !! a = Some APP_INITIALIZED ∨ rtc needs service a
}.

Lemma deps_reach n a ds : (∀ d, d ∈ ds → d ∈ dependsOn a) →
  (∀ l s l' b, loader_ok l → initialize n l s = Ret (l', b) → reaches l l' s b) →
  ∀ l l' b, loader_ok l → init_deps (initialize n) l ds = Ret (l', b) → reaches l l' a b.
Proof.
  intros Hds IH. induction ds as [|d ds IHds]; intros l l' b Hok E; cbn [init_deps] in E.
  - injection E as <- <-. by split; [| left ..].
  - apply comp_bind_Ret in E as ([l2 f2] & E2 & E). destruct (init_steps n _ _ _ _ Hok E2) as (Hok2 & G2 & _).
    destruct (IH _ _ _ _ Hok E2) as [F2 B2 D2]. assert (Hd : d ∈ dependsOn a) by (apply Hds; by left).
    assert (R : ∀ x, rtc needs d x → rtc needs a x) by (intros x Hx; by apply rtc_l with d).
    destruct f2; cbn [negb] in E; [| injection E as <- <-; split; [intros _; by apply missing_needs with d, F2 | done |]].
    2: { intros x Hx. destruct (D2 x Hx); auto. }
    destruct (decide _) as [Hbusy | Hbusy] in E; [done |].
    destruct (IHds (λ x Hx, Hds x (list_elem_of_further _ _ _ Hx)) _ _ _ Hok2 E) as [F1 B1 D1]. split.
    + intros Hb. by apply missing_goes with l2, F1.
    + intros x Hx. destruct (B1 x Hx) as [H | H]; [by apply B2 | right; by apply missing_goes with l2].
    + intros x Hx. destruct (D1 x Hx) as [H | H]; [| by right]. destruct (D2 x H); auto.
Qed.

Lemma init_reaches n : ∀ l service l' b, loader_ok l → initialize n l service = Ret (l', b) → reaches l l' service b.
Proof.
  induction n as [|n IH]; intros l service l' b Hok E; cbn [initialize] in E; [done |].
  destruct (apps l !! service) as [[]|] eqn:Es; try (injection E as <- <-; by split; [| left ..]).
  2: { injection E as <- <-. split; [| by left ..]. intros _. exists service. by split; [constructor |]. }
  apply comp_bind_Ret in E as ([l1 found] & E1 & E).
  destruct (deps_reach n service (dependsOn service) (λ _ H, H) IH _ _ _ (set_app_ok l service Hok Es) E1) as [F B D].
  assert (M : ∀ x, missing (set_app l service APP_INITIALIZING) x → missing l x).
  { intros x (d & Hd & Ed). exists d. split; [done |]. cbn [set_app apps] in Ed. by apply lookup_insert_None in Ed as [? _]. }
  assert (B' : ∀ x, apps l1 !! x = Some APP_INITIALIZING → x = service ∨ apps l !! x = Some APP_INITIALIZING ∨ missing l x).
  { intros x Hx. destruct (B x Hx) as [H | H]; [| auto]. cbn [set_app apps] in H. apply lookup_insert_Some in H as [[<- _] | [_ H]]; auto. }
  assert (D' : ∀ x, apps l1 !! x = Some APP_INITIALIZED → apps l !! x = Some APP_INITIALIZED ∨ rtc needs service x).
  { intros x Hx. destruct (D x Hx) as [H | H]; [| auto]. cbn [set_app apps] in H. apply lookup_insert_Some in H as [[_ ?] | [_ H]]; [done | auto]. }
  destruct found; cbn [negb] in E.
  - apply comp_bind_Ret in E as ([t last] & _ & [= <- <-]). split; [done | |]; cbn [apps].
    + intros x [[_ ?] | [Hne Hx]]%lookup_insert_Some; [done |]. destruct (B' x Hx) as [-> | ?]; done.
    + intros x [[<- _] | [_ Hx]]%lookup_insert_Some; [right; constructor | by apply D'].
  - injection E as <- <-. assert (missing l service) by by apply M, F. split; [done | | done].
    intros x Hx. destruct (B' x Hx) as [-> | ?]; auto.
Qed.

(** ** Termination *)

(** The applications that are not initialised yet. *)
Definition waiting (l : loader) : nat := size (filter (λ x, x.2 = APP_REGISTERED) (apps l)).

Lemma goes_waiting l l' : goes l l' → (waiting l' ≤ waiting l)%nat.
Proof.
  intros G. unfold waiting. rewrite <- !size_dom. apply subseteq_size. intros a Ha.
  apply elem_of_dom in Ha as [s Hs]. apply map_lookup_filter_Some in Hs as [Hs E]. cbn in E. subst s.
  apply elem_of_dom. exists APP_REGISTERED. apply map_lookup_filter_Some. split; [by apply (goes_back _ _ G) | done].
Qed.

Lemma waiting_busy l a :
  apps l !! a = Some APP_REGISTERED → (waiting (set_app l a APP_INITIALIZING) < waiting l)%nat.
Proof.
  intros Ha. unfold waiting. rewrite <- !size_dom. apply subset_size. split.
  - intros b Hb. apply elem_of_dom in Hb as [s Hs]. apply map_lookup_filter_Some in Hs as [Hs E]. cbn in Hs, E.
    apply elem_of_dom. exists s. apply map_lookup_filter_Some. split; [| done].
    destruct (decide (a = b)) as [<- | Hne]; [rewrite lookup_insert_eq in Hs; congruence | by rewrite lookup_insert_ne in Hs].
  - intros H. assert (Hin : a ∈ dom (filter (λ x, x.2 = APP_REGISTERED) (apps l))).
    { apply elem_of_dom. exists APP_REGISTERED. by apply map_lookup_filter_Some. }
    apply H, elem_of_dom in Hin as [s Hs]. apply map_lookup_filter_Some in Hs as [Hs E]. cbn in Hs, E.
    rewrite lookup_insert_eq in Hs. congruence.
Qed.

Lemma deps_terminate n ds : ∀ l,
  (∀ l s, loader_ok l → (waiting l < n)%nat → initialize n l s ≠ NoFuel) →
  loader_ok l → (waiting l < n)%nat → init_deps (initialize n) l ds ≠ NoFuel.
Proof.
  induction ds as [|d ds IH]; intros l Hn Hok Hw; cbn [init_deps]; [done |].
  pose proof (Hn l d Hok Hw) as H. destruct (initialize n l d) as [[l1 found] | e |] eqn:E; cbn; [| done | done].
  destruct (init_steps n l d l1 found Hok E) as (Hok1 & G & _). pose proof (goes_waiting _ _ G).
  destruct found; cbn; [| done]. destruct (decide _); [done |]. apply IH; [done | done | lia].
Qed.

Lemma init_terminates n : ∀ l s, loader_ok l → (waiting l < n)%nat → initialize n l s ≠ NoFuel.
Proof.
  induction n as [|n IH]; intros l s Hok Hw; [lia |]. cbn [initialize].
  destruct (apps l !! s) as [[]|] eqn:Es; try done. pose proof (waiting_busy l s Es).
  pose proof (deps_terminate n (dependsOn s) (set_app l s APP_INITIALIZING) IH (set_app_ok l s Hok Es) ltac:(lia)) as H0.
  destruct (init_deps _ _ _) as [[l1 found] | e |]; cbn; [| done | done]. destruct found; cbn; [| done].
  by destruct (pick_thread l1 s) as [[t last] |].
Qed.

(** More fuel changes nothing. *)
Lemma deps_more (f g : loader → name → comp (loader * bool)) ds : ∀ l,
  (∀ l s, f l s ≠ NoFuel → g l s = f l s) → init_deps f l ds ≠ NoFuel → init_deps g l ds = init_deps f l ds.
Proof.
  induction ds as [|d ds IH]; intros l Hfg Hn; cbn [init_deps] in *; [done |].
  assert (Eg : g l d = f l d) by (apply Hfg; intros E0; by rewrite E0 in Hn). rewrite Eg.
  destruct (f l d) as [[l1 found] | e |]; cbn in *; [| done | done]. destruct found; cbn in *; [| done]. destruct (decide _); [done |]. by apply IH.
Qed.

Lemma init_more n : ∀ m l s, (n ≤ m)%nat → initialize n l s ≠ NoFuel → initialize m l s = initialize n l s.
Proof.
  induction n as [|n IH]; intros [|m] l s Hm Hn; [done | done | lia |]. cbn [initialize] in *.
  destruct (apps l !! s) as [[]|]; try done.
  assert (E : init_deps (initialize m) (set_app l s APP_INITIALIZING) (dependsOn s)
            = init_deps (initialize n) (set_app l s APP_INITIALIZING) (dependsOn s)); [| by rewrite E].
  apply deps_more; [intros l1 s1; apply IH; lia |]. by destruct (init_deps (initialize n) _ _).
Qed.

(** ** The services *)

Lemma all_steps n services : ∀ l l', loader_ok l → initialize_all n l services = Ret l' → loader_ok l' ∧ goes l l'.
Proof.
  induction services as [|s services IH]; intros l l' Hok E; cbn [initialize_all] in E.
  - injection E as <-. split; [done | apply goes_refl].
  - apply comp_bind_Ret in E as ([l1 b] & E1 & E). destruct (init_steps n l s l1 b Hok E1) as (Hok1 & G1 & _).
    destruct (IH l1 l' Hok1 E) as [Hok' G']. split; [done | by apply goes_trans with l1].
Qed.

(** While nothing is busy but for what is missing, the services that miss
    nothing are initialised, and only what services need. *)
Lemma all_reach n services : ∀ l l', loader_ok l → initialize_all n l services = Ret l' →
  (∀ a, apps l !! a = Some APP_INITIALIZING → missing l a) →
  (∀ s, s ∈ services → ¬ missing l s → apps l' !! s = Some APP_INITIALIZED) ∧
  (∀ a, apps l' !! a = Some APP_INITIALIZED → apps l !! a = Some APP_INITIALIZED ∨ ∃ s, s ∈ services ∧ rtc needs s a).
Proof.
  induction services as [|s services IH]; intros l l' Hok E Hb; cbn [initialize_all] in E.
  - injection E as <-. split; [| by left]. intros s Hs. by apply not_elem_of_nil in Hs.
  - apply comp_bind_Ret in E as ([l1 b] & E1 & E). destruct (init_steps n l s l1 b Hok E1) as (Hok1 & G1 & S1).
    destruct (init_reaches n l s l1 b Hok E1) as [F1 B1 D1].
    assert (M : ∀ x, missing l x → missing l1 x).
    { intros x (d & Hd & Ed). exists d. split; [done |]. destruct (apps l1 !! d) eqn:Ex; [| done].
      destruct (proj1 (goes_known _ _ G1 d)) as [? ?]; [by eexists | congruence]. }
    destruct (IH l1 l' Hok1 E) as [H1 H2]; [intros a Ha; apply M; destruct (B1 a Ha); auto |].
    destruct (all_steps n services l1 l' Hok1 E) as [_ G']. split.
    + intros x [-> | Hx]%elem_of_cons Hm; [| apply H1; [done |]; intros ?; apply Hm; by apply missing_goes with l1].
      destruct b; [| by destruct Hm; apply F1]. destruct (S1 eq_refl) as (st & Hst & Hne). apply (goes_done _ _ G').
      destruct st; [done | | done | by destruct (ok_fresh _ Hok1 s)]. destruct (B1 s Hst); destruct Hm; auto.
    + intros a Ha. destruct (H2 a Ha) as [H | (x & Hx & Hr)]; [| right; exists x; split; [by right | done]].
      destruct (D1 a H) as [? | ?]; [by left | right; exists s; split; [by left | done]].
Qed.

Lemma all_terminate services : ∀ l, loader_ok l →
  ∃ r, r ≠ NoFuel ∧ ∀ n, (waiting l < n)%nat → initialize_all n l services = r.
Proof.
  induction services as [|s services IH]; intros l Hok; [by exists (Ret l) |]. cbn [initialize_all].
  pose proof (init_terminates (S (waiting l)) l s Hok ltac:(lia)) as H.
  destruct (initialize (S (waiting l)) l s) as [[l1 b] | e |] eqn:E; [| | done].
  - destruct (init_steps _ l s l1 b Hok E) as (Hok1 & G1 & _). destruct (IH l1 Hok1) as (r & Hr & HN). exists r. split; [done |].
    intros n Hn. rewrite (init_more (S (waiting l)) n l s) by (lia || by rewrite E). rewrite E. cbn. apply HN.
    pose proof (goes_waiting _ _ G1). lia.
  - exists (Raise e). split; [done |]. intros n Hn. by rewrite (init_more (S (waiting l)) n l s), E by (lia || by rewrite E).
Qed.

Lemma register_lookup registry a : register registry !! a = if bool_decide (a ∈ registry) then Some APP_REGISTERED else None.
Proof.
  unfold register.
  assert (H : ∀ m : gmap name app_state, (∀ b s, m !! b = Some s → s = APP_REGISTERED) →
            fold_left (λ m a, match m !! a with Some _ => m | None => <[a := APP_REGISTERED]> m end) registry m !! a
            = if bool_decide (a ∈ registry) then Some APP_REGISTERED else m !! a); [| by rewrite H, lookup_empty].
  induction registry as [|c registry IH]; intros m Hm; cbn [fold_left]; [by rewrite bool_decide_eq_false_2 by apply not_elem_of_nil |].
  rewrite IH.
  - destruct (decide (a = c)) as [-> | Hne].
    + rewrite (bool_decide_eq_true_2 (c ∈ c :: registry)) by constructor. case_bool_decide; [done |].
      destruct (m !! c) as [s|] eqn:E; [rewrite E; f_equal; by eapply Hm | apply lookup_insert_eq].
    + replace (bool_decide (a ∈ c :: registry)) with (bool_decide (a ∈ registry)).
      * case_bool_decide; [done |]. destruct (m !! c); [done | by rewrite lookup_insert_ne].
      * apply bool_decide_ext. rewrite elem_of_cons. tauto.
  - intros b s. destruct (m !! c) eqn:E; [apply Hm |]. intros [[_ <-] | [_ H]]%lookup_insert_Some; [done | by eapply Hm].
Qed.

Definition registered_loader (registry : list name) : loader := Loader INITIALIZING (register registry) 0 [] [].

Lemma registered_ok registry : loader_ok (registered_loader registry).
Proof.
  split; cbn [registered_loader inits apps starts map]; try done.
  - intros a. rewrite register_lookup. case_bool_decide; split; try done; intros Ha; by apply not_elem_of_nil in Ha.
  - constructor.
  - intros before a after E. by destruct before.
  - intros a t Ha. by apply not_elem_of_nil in Ha.
  - intros a. rewrite register_lookup. by case_bool_decide.
Qed.

(** ** Where there is no cycle *)

(** Every dependency is registered, and [rank] falls along dependencies. *)
Record acyclic (rank : name → nat) (registry : list name) : Prop := {
  rank_falls a d : d ∈ dependsOn a → (rank d < rank a)%nat;
  all_registered a d : a ∈ registry → d ∈ dependsOn a → d ∈ registry
}.

Lemma pick_thread_ok l a :
  (last_thread l < nthreads)%N → ∃ t last, pick_thread l a = Ok (t, last) ∧ (last < nthreads)%N.
Proof.
  intros Hl. unfold pick_thread. destruct (_ && _); [by eexists _, _ |].
  rewrite (proj2 (N.ltb_lt _ _)) by done. cbn. eexists _, _. split; [done |]. destruct (N.eqb_spec (last_thread l + 1) nthreads); lia.
Qed.

(** What is asked of a loader before [initialize], and what holds after. *)
Record ready (registry : list name) (l : loader) : Prop := {
  ready_ok : loader_ok l;
  ready_thread : (last_thread l < nthreads)%N;
  ready_known a : is_Some (apps l !! a) ↔ a ∈ registry
}.

Section Acyclic.
Context (rank : name → nat) (registry : list name) (Hac : acyclic rank registry).

Lemma deps_load n ds : ∀ l,
  (∀ l s, ready registry l → (waiting l < n)%nat → s ∈ registry →
     (∀ x, apps l !! x = Some APP_INITIALIZING → (rank s < rank x)%nat) →
     ∃ l', initialize n l s = Ret (l', true) ∧ apps l' !! s = Some APP_INITIALIZED ∧ ready registry l' ∧ goes l l' ∧
       ∀ x, apps l' !! x = Some APP_INITIALIZING → apps l !! x = Some APP_INITIALIZING) →
  ready registry l → (waiting l < n)%nat →
  (∀ d, d ∈ ds → d ∈ registry ∧ ∀ x, apps l !! x = Some APP_INITIALIZING → (rank d < rank x)%nat) →
  ∃ l', init_deps (initialize n) l ds = Ret (l', true) ∧ ready registry l' ∧ goes l l' ∧
    ∀ x, apps l' !! x = Some APP_INITIALIZING → apps l !! x = Some APP_INITIALIZING.
Proof.
  induction ds as [|d ds IH]; intros l Hn Hr Hw Hd; cbn [init_deps].
  - exists l. split_and!; [done | done | apply goes_refl | done].
  - destruct (Hd d (list_elem_of_here _ _)) as [Hdr Hdx].
    destruct (Hn l d Hr Hw Hdr Hdx) as (l1 & -> & Hs & Hr1 & G1 & Hb1). cbn [mbind comp_bind negb].
    rewrite decide_False by congruence. pose proof (goes_waiting _ _ G1).
    destruct (IH l1 Hn Hr1 ltac:(lia)) as (l' & -> & Hr' & G' & Hb').
    { intros d' Hd'. destruct (Hd d' (list_elem_of_further _ _ _ Hd')) as [H1 H2]. split; [done |]. intros x Hx. by apply H2, Hb1. }
    exists l'. split_and!; [done | done | by apply goes_trans with l1 |]. intros x Hx. by apply Hb1, Hb'.
Qed.

Lemma init_loads n : ∀ l s,
  ready registry l → (waiting l < n)%nat → s ∈ registry →
  (∀ x, apps l !! x = Some APP_INITIALIZING → (rank s < rank x)%nat) →
  ∃ l', initialize n l s = Ret (l', true) ∧ apps l' !! s = Some APP_INITIALIZED ∧ ready registry l' ∧ goes l l' ∧
    ∀ x, apps l' !! x = Some APP_INITIALIZING → apps l !! x = Some APP_INITIALIZING.
Proof.
  induction n as [|n IH]; intros l s Hr Hw Hs Hx; [lia |].
  destruct (apps l !! s) as [st|] eqn:Es; [| apply (ready_known _ _ Hr) in Hs as [? ?]; congruence].
  destruct st.
  - pose proof (waiting_busy l s Es) as Hlt.
    assert (Hr0 : ready registry (set_app l s APP_INITIALIZING)).
    { destruct Hr as [H1 H2 H3]. split; [by apply set_app_ok | done |]. intros a. rewrite <- H3. cbn [set_app apps].
      destruct (decide (s = a)) as [<- | Hne]; [rewrite lookup_insert_eq, Es; split; by eexists | by rewrite lookup_insert_ne]. }
    destruct (deps_load n (dependsOn s) (set_app l s APP_INITIALIZING) IH Hr0 ltac:(lia)) as (l1 & E1 & Hr1 & G1 & Hb1).
    { intros d Hd. split; [by apply (all_registered _ _ Hac s) |]. intros x. cbn [set_app apps].
      pose proof (rank_falls _ _ Hac s d Hd). destruct (decide (s = x)) as [<- | Hne]; [done |].
      rewrite lookup_insert_ne by done. intros Hb. specialize (Hx x Hb). lia. }
    destruct (pick_thread_ok l1 s (ready_thread _ _ Hr1)) as (t & last & Ep & Hlast).
    assert (E : initialize (S n) l s = Ret (Loader (state l1) (<[s := APP_INITIALIZED]> (apps l1)) last (inits l1 ++ [(s, t)]) (starts l1), true)).
    { cbn [initialize]. rewrite Es, E1. cbn [mbind comp_bind negb]. by rewrite Ep. }
    destruct (init_steps (S n) l s _ _ (ready_ok _ _ Hr) E) as (Hok' & G' & _).
    eexists. split; [exact E |]. split_and!; [apply lookup_insert_eq | | done |].
    + split; [done | done |]. intros a. rewrite (goes_known _ _ G' a). apply Hr.
    + intros x. cbn [apps]. destruct (decide (s = x)) as [<- | Hne]; [by rewrite lookup_insert_eq |].
      rewrite lookup_insert_ne by done. intros Hb%Hb1. cbn [set_app apps] in Hb. by rewrite lookup_insert_ne in Hb.
  - specialize (Hx s Es). lia.
  - exists l. cbn [initialize]. rewrite Es. split_and!; [done | done | done | apply goes_refl | done].
  - by destruct (ok_fresh _ (ready_ok _ _ Hr) s).
Qed.

Lemma all_load n services : ∀ l,
  ready registry l → (waiting l < n)%nat → (∀ x, apps l !! x ≠ Some APP_INITIALIZING) →
  ∃ l', initialize_all n l services = Ret l' ∧ loader_ok l' ∧ goes l l' ∧
    ∀ s, s ∈ services → s ∈ registry → apps l' !! s = Some APP_INITIALIZED.
Proof.
  induction services as [|s services IH]; intros l Hr Hw Hb; cbn [initialize_all].
  - exists l. split_and!; [done | apply Hr | apply goes_refl |]. intros s Hs. by apply not_elem_of_nil in Hs.
  - destruct (decide (s ∈ registry)) as [Hs | Hs].
    + destruct (init_loads n l s Hr Hw Hs) as (l1 & -> & Hs1 & Hr1 & G1 & Hb1); [intros x Hx; by destruct (Hb x) |].
      cbn [mbind comp_bind]. pose proof (goes_waiting _ _ G1).
      destruct (IH l1 Hr1 ltac:(lia)) as (l' & -> & Hok & G' & Hall); [intros x Hx; by apply (Hb x), Hb1 |].
      exists l'. split_and!; [done | done | by apply goes_trans with l1 |].
      intros s' [-> | Hs']%elem_of_cons Hreg; [by apply (goes_done _ _ G') | by apply Hall].
    + assert (E : apps l !! s = None).
      { destruct (apps l !! s) eqn:E; [| done]. destruct Hs. apply Hr. rewrite E. by eexists. }
      destruct n as [|n]; [lia |]. cbn [initialize]. rewrite E. cbn [mbind comp_bind].
      destruct (IH l Hr Hw Hb) as (l' & -> & Hok & G' & Hall). exists l'. split_and!; [done | done | done |].
      intros s' [-> | Hs']%elem_of_cons Hreg; [done | by apply Hall].
Qed.
End Acyclic.

Lemma waiting_registered registry : (waiting (registered_loader registry) ≤ length registry)%nat.
Proof.
  unfold waiting. rewrite <- size_dom.
  assert (H : ∀ l : list name, (size (list_to_set l : gset name) ≤ length l)%nat).
  { induction l as [|a l IH]; cbn [list_to_set length]; [by rewrite size_empty |].
    rewrite size_union_alt, size_singleton. pose proof (subseteq_size (list_to_set l ∖ {[a]} : gset name) (list_to_set l) ltac:(set_solver)). cbn in *. lia. }
  etrans; [| apply (H registry)]. apply subseteq_size. intros a Ha. apply elem_of_dom in Ha as [s Hs].
  apply map_lookup_filter_Some in Hs as [Hs _]. cbn [registered_loader apps] in Hs. rewrite register_lookup in Hs.
  case_bool_decide; [by apply elem_of_list_to_set | done].
Qed.

(** ** Properties *)

(** the loader ends.  Whatever the applications depend on, [startAll] with
    enough fuel for one call per application more than there are ends, with a
    loader or with the end of the process. *)
Theorem loader_terminates (registry services : list name) :
  ∃ r, r ≠ NoFuel ∧ ∀ n, (length registry < n)%nat → startAll n registry services = r.
Proof.
  destruct (all_terminate services (registered_loader registry) (registered_ok registry)) as (r & Hr & HN).
  exists (l ← r; Ret (start_all l)). split; [by destruct r |]. intros n Hn. unfold startAll. fold (registered_loader registry).
  rewrite HN; [done |]. pose proof (waiting_registered registry). lia.
Qed.

(** The log of a start that ends is closed under dependencies. *)
Lemma ordered_closed log a d : ordered log → a ∈ log → rtc needs a d → d ∈ log.
Proof.
  intros Ho Ha. induction 1 as [x | x y z Hxy _ IH]; [done |]. apply IH.
  apply list_elem_of_split in Ha as (before & after & ->). apply elem_of_app. left. by apply (Ho before x after).
Qed.

Lemma starts_initialised l : loader_ok l → (∀ a, a ∈ starts (start_all l) ↔ a ∈ map fst (inits l)) ∧ NoDup (starts (start_all l)).
Proof.
  intros [H1 H2 H3 H4 H5 H6]. cbn [start_all starts]. rewrite H6, app_nil_l. split.
  - intros a. rewrite H1. rewrite list_elem_of_omap. split.
    + intros ([b s] & Hin & Hs). cbn in Hs. destruct (decide _) as [-> |]; [injection Hs as <- | done]. by apply elem_of_map_to_list.
    + intros Ha. exists (a, APP_INITIALIZED). split; [by apply elem_of_map_to_list | done].
  - pose proof (NoDup_fst_map_to_list (apps l)) as Hnd. revert Hnd. generalize (map_to_list (apps l)). intros xs.
    induction xs as [|[b s] xs IH]; cbn; [constructor |]. intros [Hb Hnd]%list.NoDup_cons.
    destruct (decide _); [| by apply IH]. apply list.NoDup_cons. split; [| by apply IH].
    intros Hin. apply Hb. apply list_elem_of_omap in Hin as ([c s'] & Hin & Hs). cbn in Hs.
    destruct (decide _); [injection Hs as -> | done]. apply list_elem_of_fmap. by exists (b, s').
Qed.

Lemma registered_missing registry a : missing (registered_loader registry) a ↔ ∃ d, rtc needs a d ∧ d ∉ registry.
Proof.
  split; intros (d & Hd & E); exists d; (split; [done |]); cbn [registered_loader apps] in *; rewrite register_lookup in *; by case_bool_decide.
Qed.

(** C32: what is loaded, and its order.  Whatever the configuration, when
    [startAll] returns, every configured service that misses none of its
    dependencies, direct or not, was initialised with all of them; nothing was
    that no service needs; each was initialised once, after all its
    dependencies, on a thread that exists; and exactly these were started,
    once each. *)
Theorem loader_order (registry services : list name) (n : nat) (l : loader) :
  startAll n registry services = Ret l →
  (∀ s a, s ∈ services → (∀ d, rtc needs s d → d ∈ registry) → rtc needs s a → a ∈ map fst (inits l)) ∧
  (∀ a, a ∈ map fst (inits l) → ∃ s, s ∈ services ∧ rtc needs s a) ∧
  NoDup (map fst (inits l)) ∧ ordered (map fst (inits l)) ∧ (∀ a t, (a, t) ∈ inits l → (t < nthreads)%N) ∧
  (∀ a, a ∈ starts l ↔ a ∈ map fst (inits l)) ∧ NoDup (starts l).
Proof.
  unfold startAll. intros E. apply comp_bind_Ret in E as (l1 & E & [= <-]). fold (registered_loader registry) in E.
  destruct (all_steps n services _ l1 (registered_ok registry) E) as [Hok _].
  destruct (all_reach n services _ l1 (registered_ok registry) E) as [Hall Hneed].
  { intros a. cbn [registered_loader apps]. rewrite register_lookup. by case_bool_decide. }
  destruct (starts_initialised l1 Hok) as [Hs Hnd]. destruct (Hok) as [H1 H2 H3 H4 _ _]. cbn [start_all inits]. split_and!; try done.
  - intros s a Hin Hreg Ha. apply (ordered_closed _ s); [done | | done]. apply H1, Hall; [done |].
    intros (d & Hd & Hn)%registered_missing. by apply Hn, Hreg.
  - intros a Ha%H1. destruct (Hneed a Ha) as [H | H]; [| done]. cbn [registered_loader apps] in H. rewrite register_lookup in H. by case_bool_decide.
Qed.

(** C33: everything is loaded.  When dependencies are registered and have no
    cycle, and there is a thread, [startAll] ends without a fatal error, and
    every configured service that is registered is initialised and started,
    with everything it depends on, directly or not. *)
Theorem loader_loads (rank : name → nat) (registry services : list name) :
  acyclic rank registry → (0 < nthreads)%N →
  ∃ l, converges (λ n, startAll n registry services) l ∧
    ∀ s a, s ∈ services → s ∈ registry → rtc needs s a →
      a ∈ map fst (inits l) ∧ a ∈ starts l ∧ apps l !! a = Some APP_STARTED.
Proof.
  intros Hac Ht. set (l0 := registered_loader registry).
  assert (Hr : ready registry l0).
  { split; [apply registered_ok | done |]. intros a. cbn [l0 registered_loader apps]. rewrite register_lookup.
    case_bool_decide; split; try done; intros [? ?]; done. }
  assert (Hb : ∀ x, apps l0 !! x ≠ Some APP_INITIALIZING).
  { intros x. cbn [l0 registered_loader apps]. rewrite register_lookup. by case_bool_decide. }
  assert (H : ∀ n, (length registry < n)%nat → ∃ l', initialize_all n l0 services = Ret l' ∧ loader_ok l' ∧ goes l0 l' ∧
            ∀ s, s ∈ services → s ∈ registry → apps l' !! s = Some APP_INITIALIZED).
  { intros n Hn. apply (all_load rank registry Hac); [done | | done]. pose proof (waiting_registered registry). unfold l0. lia. }
  destruct (H (S (length registry)) ltac:(lia)) as (l & E & Hok & _ & Hall).
  destruct (all_terminate services l0 (registered_ok registry)) as (r & Hne & HN).
  pose proof (waiting_registered registry) as Hw. fold l0 in Hw.
  assert (r = Ret l) as -> by (rewrite <- E; symmetry; apply HN; lia).
  exists (start_all l). split.
  - exists (S (length registry)). intros n Hn. unfold startAll. fold (registered_loader registry) l0. by rewrite HN by lia.
  - intros s a Hs Hreg Ha. assert (Hi : a ∈ map fst (inits l)).
    { apply (ordered_closed _ s); [apply Hok | apply (ok_log _ Hok); by apply Hall | done]. }
    split_and!; [done | by apply (starts_initialised l Hok) |]. cbn [start_all apps]. apply (ok_log _ Hok) in Hi. by rewrite lookup_fmap, Hi.
Qed.

(** a started application is not found.  After [startAll] no lookup
    succeeds: [app] asks for the state of an application that is initialised
    and not started yet. *)
Theorem started_not_found (registry services : list name) (n : nat) (l : loader) (a : name) :
  startAll n registry services = Ret l → app l a = Throw StdOutOfRange.
Proof.
  unfold startAll. intros E. apply comp_bind_Ret in E as (l1 & _ & [= <-]). unfold app. cbn [start_all apps]. rewrite lookup_fmap.
  destruct (apps l1 !! a) as [[]|]; done.
Qed.
End Load.

(** a missing dependency looks like a cycle.  When the first service
    depends on an application that is not registered, it stays in the state of
    being initialised, and the next service that depends on it ends the
    process for a cyclic dependency, where there is none. *)
Theorem missing_dependency_fatal (depends : name → list name) (pin : name → Z) (nthreads : N) (a b m : name) (n : nat) :
  a ≠ b → m ≠ a → m ≠ b → dependsOn depends a = [m] → dependsOn depends b = [a] → (2 < n)%nat →
  (∃ rank : name → nat, rank m = 0 ∧ rank a = 1 ∧ rank b = 2)%nat ∧
  startAll depends pin nthreads n [a; b] [a; b] = Raise Terminate.
Proof.
  intros Hab Hma Hmb Da Db Hn. split.
  { exists (λ x, if decide (x = m) then 0 else if decide (x = a) then 1 else 2)%nat.
    rewrite decide_True by done. rewrite (decide_False (P := a = m)), (decide_True (P := a = a)) by done.
    by rewrite (decide_False (P := b = m)), (decide_False (P := b = a)) by done. }
  destruct n as [|[|n]]; try lia. unfold startAll. cbn [initialize_all]. set (l0 := Loader INITIALIZING (register [a; b]) 0 [] []).
  assert (R : ∀ x, apps l0 !! x = if bool_decide (x ∈ [a; b]) then Some APP_REGISTERED else None) by (intros x; exact (register_lookup depends pin [a; b] x)).
  assert (Ra : apps l0 !! a = Some APP_REGISTERED) by (rewrite R; rewrite bool_decide_eq_true_2; [done | constructor]).
  assert (Rb : apps l0 !! b = Some APP_REGISTERED) by (rewrite R; rewrite bool_decide_eq_true_2; [done | do 2 constructor]).
  assert (Rm : apps l0 !! m = None).
  { rewrite R, bool_decide_eq_false_2; [done |]. intros [-> | ->%list_elem_of_singleton]%elem_of_cons; done. }
  assert (Ea : initialize depends pin nthreads (S (S n)) l0 a = Ret (set_app l0 a APP_INITIALIZING, false)).
  { cbn [initialize]. rewrite Ra, Da. cbn [init_deps set_app apps]. by rewrite lookup_insert_ne, Rm by done. }
  rewrite Ea. cbn [mbind comp_bind].
  assert (Eb : initialize depends pin nthreads (S (S n)) (set_app l0 a APP_INITIALIZING) b = Raise Terminate).
  { set (l2 := set_app (set_app l0 a APP_INITIALIZING) b APP_INITIALIZING).
    assert (L : apps l2 !! a = Some APP_INITIALIZING) by (unfold l2; cbn [set_app apps]; by rewrite lookup_insert_ne, lookup_insert_eq).
    assert (E2 : initialize depends pin nthreads (S n) l2 a = Ret (l2, true)) by (cbn [initialize]; by rewrite L).
    assert (L1 : apps (set_app l0 a APP_INITIALIZING) !! b = Some APP_REGISTERED) by (cbn [set_app apps]; by rewrite lookup_insert_ne).
    change (initialize depends pin nthreads (S (S n)) (set_app l0 a APP_INITIALIZING) b) with
      (match apps (set_app l0 a APP_INITIALIZING) !! b with
       | None => Ret (set_app l0 a APP_INITIALIZING, false)
       | Some APP_REGISTERED =>
           '(l, found) ← init_deps (initialize depends pin nthreads (S n)) l2 (dependsOn depends b);
           if negb found then Ret (l, false)
           else '(thread, last) ← lift (pick_thread pin nthreads l b);
                Ret (Loader (state l) (<[b := APP_INITIALIZED]> (apps l)) last (inits l ++ [(b, thread)]) (starts l), true)
       | Some _ => Ret (set_app l0 a APP_INITIALIZING, true)
       end).
    rewrite L1, Db. cbn [init_deps]. rewrite E2. cbn [mbind comp_bind negb]. by rewrite decide_True. }
  by rewrite Eb.
Qed.

(** ** The applications of the controller, and the configuration that comes with it *)

#[local] Open Scope string_scope.

Definition controller_apps : list (name * list name) :=
  [("arp-handler", ["controller"; "maple"; "switch-manager"; "host-manager"; ""]); ("cbench", ["controller"; ""]);
   ("command-line-interface", [""]); ("controller", [""]); ("drop-all", ["maple"; ""]);
   ("flow-manager", ["controller"; "switch-manager"; "rest-listener"; ""]);
   ("host-manager", ["switch-manager"; "rest-listener"; ""]); ("learning-switch", ["retic"; "topology"; "stp"; ""]);
   ("link-discovery", ["switch-manager"; "controller"; "retic"; ""]); ("maple", ["controller"; ""]);
   ("no-maple-rules", ["maple"; ""]); ("rest-flowmod", ["controller"; "switch-manager"; "rest-listener"; ""]);
   ("rest-listener", ["controller"; ""]); ("rest-multipart", ["controller"; "switch-manager"; "rest-listener"; ""]);
   ("retic", ["controller"; ""]); ("retic-cli", ["retic"; "command-line-interface"; ""]);
   ("stp", ["controller"; "switch-manager"; "link-discovery"; "topology"; ""]);
   ("simple-learning-switch", ["controller"; "maple"; "stp"; ""]);
   ("static-flow-pusher", ["controller"; "switch-manager"; "rest-listener"; ""]);
   ("switch-stats", ["switch-manager"; "controller"; "rest-listener"; ""]);
   ("switch-manager", ["controller"; "rest-listener"; ""]);
   ("switch-manager-cli", ["switch-manager"; "command-line-interface"; ""]);
   ("test-apps", ["retic"; "link-discovery"; "learning-switch"; ""]); ("topology", ["link-discovery"; "rest-listener"; ""]);
   ("webui", ["switch-manager"; "host-manager"; "rest-listener"; ""])].

Definition controller_depends (a : name) : list name := default [] ((list_to_map controller_apps : gmap name (list name)) !! a).

Definition default_services : list name :=
  ["link-discovery"; "rest-listener"; "webui"; "static-flow-pusher"; "switch-stats"; "stp"; "flow-manager"; "rest-multipart";
   "command-line-interface"; "rest-flowmod"; "switch-manager-cli"; "test-apps"; "retic"; "retic-cli"].

Definition default_pin (a : name) : Z :=
  if decide (a ∈ ["link-discovery"; "switch-manager"; "switch-stats"]) then 1%Z else (-1)%Z.

(** How deep the dependencies of an application go. *)
Definition depth (a : name) : nat :=
  default 0 ((list_to_map
    [("rest-listener", 1); ("retic", 1); ("maple", 1); ("switch-manager", 2); ("link-discovery", 3); ("host-manager", 3);
     ("topology", 4); ("stp", 5); ("learning-switch", 6); ("test-apps", 7); ("arp-handler", 4); ("cbench", 1); ("drop-all", 2);
     ("flow-manager", 3); ("no-maple-rules", 2); ("rest-flowmod", 3); ("rest-multipart", 3); ("retic-cli", 2);
     ("simple-learning-switch", 6); ("static-flow-pusher", 3); ("switch-stats", 3); ("switch-manager-cli", 3); ("webui", 4)]%nat : gmap name nat) !! a).

Lemma controller_acyclic : acyclic controller_depends depth (map fst controller_apps).
Proof.
  assert (H : forallb (λ x, forallb (λ d, (depth d <? depth (fst x))%nat && bool_decide (d ∈ map fst controller_apps))
                (dependsOn controller_depends (fst x))) controller_apps = true) by by vm_compute.
  assert (K : ∀ a d, d ∈ dependsOn controller_depends a →
            (depth d < depth a)%nat ∧ d ∈ map fst controller_apps).
  { intros a d Hd. destruct ((list_to_map controller_apps : gmap name (list name)) !! a) as [ds|] eqn:E.
    - apply elem_of_list_to_map_2 in E. rewrite forallb_forall in H. apply list_elem_of_In in E. specialize (H _ E). cbn [fst] in H.
      rewrite forallb_forall in H. apply list_elem_of_In in Hd. specialize (H d Hd). apply andb_true_iff in H as [H1 H2].
      apply Nat.ltb_lt in H1. apply bool_decide_eq_true in H2. split; assumption.
    - unfold dependsOn, controller_depends in Hd. rewrite E in Hd. inversion Hd. }
  split; [intros a d Hd; by apply K | intros a d _ Hd; by apply (K a)].
Qed.

(** What the loader comes to. *)
Definition default_run : loader :=
  Eval vm_compute in
    match startAll controller_depends default_pin 2 26 (map fst controller_apps) default_services with Ret l => l | _ => new_loader end.

Lemma default_run_ok : startAll controller_depends default_pin 2 26 (map fst controller_apps) default_services = Ret default_run.
Proof. vm_compute. reflexivity. Qed.

Lemma loader_order_witness :
  NoDup (map fst (inits default_run)) ∧ ordered controller_depends (map fst (inits default_run)) ∧
  length (inits default_run) = 19%nat.
Proof.
  destruct (loader_order controller_depends default_pin 2 _ _ _ _ default_run_ok) as (_ & _ & H1 & H2 & _).
  split_and!; [exact H1 | exact H2 | reflexivity].
Defined.

Lemma loader_loads_witness :
  ∃ l, converges (λ n, startAll controller_depends default_pin 2 n (map fst controller_apps) default_services) l ∧
    ∀ s, s ∈ default_services → apps l !! s = Some APP_STARTED.
Proof.
  destruct (loader_loads controller_depends default_pin 2 depth (map fst controller_apps) default_services controller_acyclic)
    as (l & Hl & H); [done |].
  exists l. split; [done |]. intros s Hs. apply (H s s); [done | | constructor]. revert s Hs.
  assert (E : forallb (λ s, bool_decide (s ∈ map fst controller_apps)) default_services = true) by by vm_compute.
  intros s Hs. rewrite forallb_forall in E. apply list_elem_of_In in Hs. specialize (E s Hs). by apply bool_decide_eq_true in E.
Defined.

Lemma started_not_found_witness : app default_run "switch-manager" = Throw StdOutOfRange.
Proof. exact (started_not_found _ _ _ _ _ _ _ _ default_run_ok). Defined.

Lemma missing_dependency_fatal_witness :
  startAll (λ a, if decide (a = "topology") then ["link-discovery"; ""] else if decide (a = "stp") then ["topology"; ""] else [])
    (λ _, (-1)%Z) 1 3 ["topology"; "stp"] ["topology"; "stp"] = Raise Terminate.
Proof.
  apply (missing_dependency_fatal _ (λ _, (-1)%Z) 1 "topology" "stp" "link-discovery" 3); done || lia.
Defined.
