(* ===== verification/SwitchManager.v ===== *)
(** * SwitchManager: switches and their ports, Switch.hh and .cc

    A switch is known by its datapath id; a connection by a number, with
    whether it is alive.  What the handlers emit and request is a list of
    notices, in order; that of the ports of a switch that goes down is the one
    of the map here and unspecified in the code.  A message about a switch that
    never came up is an exception out of a slot, which ends the program, and
    nothing else is ([events_served]).  Listeners that go by the signals of
    ports know just the ports there are ([ports_heard]); when a switch goes
    down link discovery, which listens to them, has lost the links at it and no
    others ([down_switch_unlinked]). *)

From S2P Require Import Prelude Topology LinkDiscovery.

(** [of13::Port], as far as the program looks at it, is [of_port]. *)
Record features : Type := Features { datapath_id : N; n_buffers : N; n_tables : N; capabilities : N }.

Record switch_desc : Type := SwitchDesc { mfr_desc : list N; hw_desc : list N; sw_desc : list N; serial_num : list N; dp_desc : list N }.

Definition empty_desc : switch_desc := SwitchDesc [] [] [] [] [].

Record switch : Type := Switch { conn : N; fr : features; desc : switch_desc; ports : gmap N of_port }.

Abbreviation switch_manager := (gmap N switch).

(** Signals of the manager and of its switches, requests to a connection, and events for users. *)
Inductive notice : Type :=
| SwitchDiscovered (d : N)
| SwitchUp (d : N)
| SwitchDown (d : N)
| Up (d : N)
| Down (d : N)
| PortUp (d : N) (p : of_port)
| PortDown (d n : N)
| PortModified (d : N) (p old : of_port)
| RequestPortDescriptions (c : N)
| RequestSwitchDescriptions (c : N)
| AddEvent (d : N)
| DeleteEvent (d : N).

Inductive port_reason : Type := OFPPR_ADD | OFPPR_DELETE | OFPPR_MODIFY.

(** What a switch answers to a multipart request, or to something else. *)
Inductive reply : Type := PortDescReply (ps : list of_port) | DescReply (d : switch_desc) | OtherMultipart | OtherType.

Definition with_ports (s : switch) (ps : gmap N of_port) : switch := Switch (conn s) (fr s) (desc s) ps.

(** [Switch::Switch] *)
Definition new_switch (c : N) (f : features) : switch := Switch c f empty_desc ∅.

Definition setUp (s : switch) (c : N) (f : features) : switch * list notice :=
  (Switch c f (desc s) (ports s), [Up (datapath_id f)]).

Definition id (s : switch) : N := datapath_id (fr s).

Definition portStatus (s : switch) (r : port_reason) (p : of_port) : switch * list notice :=
  match r with
  | OFPPR_ADD =>
      (with_ports s (match ports s !! port_no p with Some _ => ports s | None => <[port_no p := p]> (ports s) end),
       [PortUp (id s) p])
  | OFPPR_DELETE => (with_ports s (delete (port_no p) (ports s)), [PortDown (id s) (port_no p)])
  | OFPPR_MODIFY =>
      match ports s !! port_no p with
      | None => (s, [])
      | Some old => (with_ports s (<[port_no p := p]> (ports s)), [PortModified (id s) p old])
      end
  end.

Definition setDown (s : switch) : switch * list notice :=
  (with_ports s ∅, map (λ x, PortDown (id s) (fst x)) (map_to_list (ports s)) ++ [Down (id s)]).

Fixpoint portDescArrived (s : switch) (ps : list of_port) : switch * list notice :=
  match ps with
  | [] => (s, [])
  | p :: ps =>
      match ports s !! port_no p with
      | Some _ => portDescArrived s ps
      | None => let '(s', ns) := portDescArrived (with_ports s (<[port_no p := p]> (ports s))) ps in (s', PortUp (id s) p :: ns)
      end
  end.

(** ** The manager *)

Definition getSwitch (m : switch_manager) (d : N) : option switch := m !! d.

(** [d] is what the connection says its switch is. *)
Definition onSwitchUp (m : switch_manager) (c d : N) (f : features) : res (switch_manager * list notice) :=
  _ ← require (datapath_id f =? d)%N AssertionFailure;
  let '(s, ns) := match m !! d with
                  | None => (new_switch c f, [SwitchDiscovered d; SwitchUp d])
                  | Some s => let '(s', ns) := setUp s c f in (s', ns ++ [SwitchUp d])
                  end in
  Ok (<[d := s]> m, ns ++ [RequestPortDescriptions (conn s); RequestSwitchDescriptions (conn s); AddEvent d]).

Definition onSwitchDown (m : switch_manager) (d : N) : switch_manager * list notice :=
  match m !! d with
  | None => (m, [])
  | Some s => let '(s', ns) := setDown s in (<[d := s']> m, ns ++ [SwitchDown d; DeleteEvent d])
  end.

(** [switches.at(dpid)] *)
Definition at_switch (m : switch_manager) (d : N) (f : switch → switch * list notice) : res (switch_manager * list notice) :=
  match m !! d with
  | None => Throw StdOutOfRange
  | Some s => let '(s', ns) := f s in Ok (<[d := s']> m, ns)
  end.

Definition onPortStatus (m : switch_manager) (d : N) (r : port_reason) (p : of_port) : res (switch_manager * list notice) :=
  at_switch m d (λ s, portStatus s r p).

Definition onPortDescriptions (m : switch_manager) (d : N) (r : reply) : res (switch_manager * list notice) :=
  match r with PortDescReply ps => at_switch m d (λ s, portDescArrived s ps) | _ => Ok (m, []) end.

(** The type of the multipart reply is not looked at; another member of the
    union than the one that is there is read no better than a null pointer. *)
Definition onSwitchDescriptions (m : switch_manager) (d : N) (r : reply) : res (switch_manager * list notice) :=
  match r with
  | OtherType => Ok (m, [])
  | DescReply x => at_switch m d (λ s, (Switch (conn s) (fr s) x (ports s), []))
  | _ => _ ← at_switch m d (λ s, (s, [])); Throw Terminate
  end.

(** [switches]: those whose connection is alive. *)
Definition switches (alive : N → bool) (m : switch_manager) : list N :=
  map fst (List.filter (λ x, alive (conn (snd x))) (map_to_list m)).

(** [Switch::port] *)
Definition port_at (s : switch) (n : N) : res of_port :=
  match ports s !! n with Some p => Ok p | None => Throw StdOutOfRange end.

Definition all_ports (s : switch) : list of_port := map snd (map_to_list (ports s)).

(** ** What happens to the manager *)

Inductive manager_event : Type :=
| EvUp (c d : N) (f : features)
| EvDown (d : N)
| EvPortStatus (d : N) (r : port_reason) (p : of_port)
| EvPortDescriptions (d : N) (r : reply)
| EvSwitchDescriptions (d : N) (r : reply).

Definition manage (m : switch_manager) (e : manager_event) : res (switch_manager * list notice) :=
  match e with
  | EvUp c d f => onSwitchUp m c d f
  | EvDown d => Ok (onSwitchDown m d)
  | EvPortStatus d r p => onPortStatus m d r p
  | EvPortDescriptions d r => onPortDescriptions m d r
  | EvSwitchDescriptions d r => onSwitchDescriptions m d r
  end.

Fixpoint manage_all (m : switch_manager) (es : list manager_event) : res (switch_manager * list notice) :=
  match es with
  | [] => Ok (m, [])
  | e :: es => '(m1, ns1) ← manage m e; '(m2, ns2) ← manage_all m1 es; Ok (m2, ns1 ++ ns2)
  end.

(** The ports that one knows who hears the notices. *)
Definition hear_notice (X : gset (N * N)) (n : notice) : gset (N * N) :=
  match n with
  | PortUp d p => {[ (d, port_no p) ]} ∪ X
  | PortDown d n => X ∖ {[ (d, n) ]}
  | _ => X
  end.

Definition hear_notices (X : gset (N * N)) (ns : list notice) : gset (N * N) := fold_left hear_notice ns X.

Definition knows (X : gset (N * N)) (d : N) (pm : gmap N of_port) : Prop := ∀ n, (d, n) ∈ X ↔ is_Some (pm !! n).

(** No ports of a switch that never came up. *)
Definition ports_of (m : switch_manager) (d : N) : gmap N of_port := from_option ports ∅ (m !! d).

Definition ports_known (X : gset (N * N)) (m : switch_manager) : Prop := ∀ d, knows X d (ports_of m d).

(** A switch is kept under its own id. *)
Definition own_ids (m : switch_manager) : Prop := ∀ d s, m !! d = Some s → id s = d.

(** What link discovery does with the notices; the packets it sends aside. *)
Fixpoint discovery_hears (x : link_discovery) (ns : list notice) : res (link_discovery * list signal) :=
  match ns with
  | [] => Ok (x, [])
  | PortDown d n :: ns =>
      '(x1, sig1) ← LinkDiscovery.portDown x d n; '(x2, sig2) ← discovery_hears x1 ns; Ok (x2, sig1 ++ sig2)
  | PortModified d p old :: ns =>
      '(x1, sig1, _) ← portModified 0 x d p old; '(x2, sig2) ← discovery_hears x1 ns; Ok (x2, sig1 ++ sig2)
  | _ :: ns => discovery_hears x ns
  end.

(** ** Lemmas *)

(** A change of one switch, and what is heard of it. *)
Definition tells (s s' : switch) (ns : list notice) : Prop :=
  id s' = id s ∧
  ∀ X, knows X (id s) (ports s) → knows (hear_notices X ns) (id s) (ports s') ∧
    ∀ d n, d ≠ id s → (d, n) ∈ hear_notices X ns ↔ (d, n) ∈ X.

Lemma hear_app X ns ns' : hear_notices X (ns ++ ns') = hear_notices (hear_notices X ns) ns'.
Proof. apply fold_left_app. Qed.

Lemma tells_add s p :
  tells s (with_ports s (<[port_no p := p]> (ports s))) [PortUp (id s) p].
Proof.
  split; [done |]. intros X HX. cbn. split.
  - intros n. rewrite elem_of_union, elem_of_singleton, lookup_insert_is_Some', (HX n). naive_solver.
  - intros d n Hd. rewrite elem_of_union, elem_of_singleton. naive_solver.
Qed.

Lemma tells_delete s n :
  tells s (with_ports s (delete n (ports s))) [PortDown (id s) n].
Proof.
  split; [done |]. intros X HX. cbn. split.
  - intros k. rewrite elem_of_difference, elem_of_singleton, lookup_delete_is_Some, (HX k). naive_solver.
  - intros d k Hd. rewrite elem_of_difference, elem_of_singleton. naive_solver.
Qed.

Lemma tells_same s s' ns :
  id s' = id s → (∀ n, is_Some (ports s' !! n) ↔ is_Some (ports s !! n)) → (∀ X, hear_notices X ns = X) → tells s s' ns.
Proof. intros Hi Hp Hn. split; [done |]. intros X HX. rewrite Hn. split; [| done]. intros n. by rewrite Hp. Qed.

Lemma tells_trans s s1 s2 ns1 ns2 : tells s s1 ns1 → tells s1 s2 ns2 → tells s s2 (ns1 ++ ns2).
Proof.
  intros [E1 H1] [E2 H2]. split; [congruence |]. intros X HX. rewrite hear_app. destruct (H1 X HX) as [K1 O1].
  rewrite <- E1 in K1. destruct (H2 _ K1) as [K2 O2]. rewrite E1 in K2. split; [done |].
  intros d n Hd. rewrite O2 by congruence. by apply O1.
Qed.

Lemma portStatus_tells s r p s' ns : portStatus s r p = (s', ns) → tells s s' ns.
Proof.
  destruct r; cbn [portStatus].
  - intros [= <- <-]. destruct (ports s !! port_no p) eqn:E; [| apply tells_add].
    split; [done |]. intros X HX. destruct (proj2 (tells_add s p) X HX) as [K O]. split; [| done].
    intros n. rewrite (K n). cbn. rewrite lookup_insert_is_Some'. split; [| naive_solver]. intros [<- | ?]; [by eexists | done].
  - intros [= <- <-]. apply tells_delete.
  - destruct (ports s !! port_no p) eqn:E; intros [= <- <-]; apply tells_same; try done.
    intros n. cbn. rewrite lookup_insert_is_Some'. split; [| naive_solver]. intros [<- | ?]; [by eexists | done].
Qed.

Lemma portDesc_tells ps : ∀ s s' ns, portDescArrived s ps = (s', ns) → tells s s' ns.
Proof.
  induction ps as [|p ps IH]; intros s s' ns; cbn [portDescArrived]; [intros [= <- <-]; by apply tells_same |].
  destruct (ports s !! port_no p); [apply IH |]. destruct (portDescArrived _ ps) as [s1 ns1] eqn:E. intros [= <- <-].
  apply (tells_trans s _ s1 [PortUp (id s) p] ns1 (tells_add s p)). by apply (IH (with_ports s _)).
Qed.

Lemma hear_all_down d l : ∀ X d' n,
  (d', n) ∈ hear_notices X (map (λ x : N * of_port, PortDown d (fst x)) l) ↔ (d', n) ∈ X ∧ ¬ (d' = d ∧ n ∈ map fst l).
Proof.
  induction l as [|x l IH]; intros X d' n; cbn [map].
  - change (hear_notices X []) with X. split; [| by intros [? _]]. intros H. split; [done |]. by intros [_ ?%not_elem_of_nil].
  - change (hear_notices X (PortDown d (fst x) :: map (λ x, PortDown d (fst x)) l))
      with (hear_notices (X ∖ {[ (d, fst x) ]}) (map (λ x : N * of_port, PortDown d (fst x)) l)).
    rewrite IH, elem_of_difference, elem_of_singleton, elem_of_cons. naive_solver.
Qed.

Lemma in_ports (pm : gmap N of_port) n : n ∈ map fst (map_to_list pm) ↔ is_Some (pm !! n).
Proof.
  rewrite list_elem_of_fmap. split.
  - intros ([k p] & -> & H%elem_of_map_to_list). by exists p.
  - intros [p H]. exists (n, p). split; [done |]. by apply elem_of_map_to_list.
Qed.

Lemma setDown_tells s s' ns : setDown s = (s', ns) → tells s s' ns.
Proof.
  intros [= <- <-]. split; [done |]. intros X HX. rewrite hear_app. cbn. split.
  - intros n. rewrite hear_all_down, in_ports, lookup_empty, (HX n). split; [naive_solver | by intros []].
  - intros d n Hd. rewrite hear_all_down. naive_solver.
Qed.

(** The state of the manager and what listeners know go together. *)
Definition in_step (X : gset (N * N)) (m : switch_manager) : Prop := own_ids m ∧ ports_known X m.

Lemma insert_in_step X m d s s' ns :
  in_step X m → m !! d = Some s → tells s s' ns → in_step (hear_notices X ns) (<[d := s']> m).
Proof.
  intros [Hid HX] E [Ei Hs]. pose proof (Hid d s E) as <-. destruct (Hs X) as [K O].
  { intros n. rewrite (HX (id s) n). unfold ports_of. by rewrite E. }
  split.
  - intros d' s'' [[<- <-] | [_ H]]%lookup_insert_Some; [done | by apply Hid].
  - intros d' n. unfold ports_of. destruct (decide (id s = d')) as [<- | Hne].
    + rewrite lookup_insert_eq. apply K.
    + rewrite lookup_insert_ne, O by done. apply HX.
Qed.

Lemma at_switch_in_step X m d f m' ns :
  (∀ s s' ns, f s = (s', ns) → tells s s' ns) →
  in_step X m → at_switch m d f = Ok (m', ns) → in_step (hear_notices X ns) m'.
Proof.
  intros Hf HX. unfold at_switch. destruct (m !! d) as [s|] eqn:E; [| done].
  destruct (f s) as [s' ns'] eqn:Ef. intros [= <- <-]. by apply insert_in_step with s; [.. | apply Hf].
Qed.

Lemma manage_in_step X m e m' ns : in_step X m → manage m e = Ok (m', ns) → in_step (hear_notices X ns) m'.
Proof.
  intros HX. destruct e as [c d f | d | d r p | d r | d r]; cbn [manage].
  - unfold onSwitchUp. destruct (N.eqb_spec (datapath_id f) d) as [Hd |]; cbn [require mbind res_bind]; [| done].
    destruct (m !! d) as [s|] eqn:E; cbn [setUp]; intros [= <- <-].
    + change (hear_notices X (_ ++ _)) with (hear_notices X []). apply insert_in_step with s; [done | done |].
      apply tells_same; [| done | done]. change (datapath_id f = id s). rewrite Hd. symmetry. by apply HX.
    + change (hear_notices X (_ ++ _)) with X. destruct HX as [Hid HX]. split.
      * intros d' s [[<- <-] | [_ H]]%lookup_insert_Some; [done | by apply Hid].
      * intros d' n. rewrite (HX d' n). unfold ports_of. destruct (decide (d = d')) as [<- | Hne].
        -- by rewrite lookup_insert_eq, E.
        -- by rewrite lookup_insert_ne.
  - unfold onSwitchDown. destruct (m !! d) as [s|] eqn:E; [| by intros [= <- <-]].
    destruct (setDown s) as [s' ns'] eqn:Es. intros [= <- <-]. rewrite hear_app. change (hear_notices (hear_notices X ns') _) with (hear_notices X ns').
    apply insert_in_step with s; [done | done |]. by apply setDown_tells.
  - apply at_switch_in_step; [| done]. intros s s' ns'. apply portStatus_tells.
  - unfold onPortDescriptions. destruct r; try (by intros [= <- <-]). apply at_switch_in_step; [| done].
    intros s s' ns'. apply portDesc_tells.
  - unfold onSwitchDescriptions. destruct r as [ps | x | |]; try (by intros [= <- <-]);
      try (destruct (at_switch m d _); cbn [mbind res_bind]; done).
    apply at_switch_in_step; [| done]. intros s s' ns' [= <- <-]. by apply tells_same.
Qed.

Lemma manage_all_in_step es : ∀ X m m' ns, in_step X m → manage_all m es = Ok (m', ns) → in_step (hear_notices X ns) m'.
Proof.
  induction es as [|e es IH]; intros X m m' ns HX; cbn [manage_all]; [by intros [= <- <-] |].
  destruct (manage m e) as [[m1 ns1]|] eqn:E1; cbn [mbind res_bind]; [| done].
  destruct (manage_all m1 es) as [[m2 ns2]|] eqn:E2; cbn [mbind res_bind]; [| done]. intros [= <- <-].
  rewrite hear_app. apply (IH _ m1); [| done]. by apply manage_in_step with m e.
Qed.

Lemma empty_in_step : in_step ∅ ∅.
Proof.
  split; [by intros d s ?%lookup_empty_Some |]. intros d n. unfold ports_of. rewrite lookup_empty. cbn. rewrite lookup_empty.
  split; [by intros ?%elem_of_empty | by intros []].
Qed.

Lemma switches_in alive m d : d ∈ switches alive m → d ∈ dom m.
Proof.
  unfold switches. intros H. apply list_elem_of_In, in_map_iff in H as ([d' x] & <- & H). apply filter_In in H as [H _].
  apply list_elem_of_In, elem_of_map_to_list in H. by apply elem_of_dom_2 in H.
Qed.

(** The switches that are discovered, in order. *)
Fixpoint discovered (ns : list notice) : list N :=
  match ns with
  | [] => []
  | SwitchDiscovered d :: ns => d :: discovered ns
  | _ :: ns => discovered ns
  end.

Lemma discovered_app ns ns' : discovered (ns ++ ns') = discovered ns ++ discovered ns'.
Proof. induction ns as [|[] ns IH]; cbn; by rewrite ?IH. Qed.

(** The switches of a manager are those it had and those that are discovered,
    each once. *)
Definition discovers (m m' : switch_manager) (ns : list notice) : Prop :=
  dom m' = dom m ∪ list_to_set (discovered ns) ∧ NoDup (discovered ns) ∧ ∀ d, d ∈ discovered ns → d ∉ dom m.

Lemma discovers_none m d s ns : is_Some (m !! d) → discovered ns = [] → discovers m (<[d := s]> m) ns.
Proof.
  intros Hd E. unfold discovers. rewrite E. apply elem_of_dom in Hd. split_and!; [| constructor | by intros ? ?%not_elem_of_nil].
  rewrite dom_insert_L. set_solver.
Qed.

Lemma discovers_refl m : discovers m m [].
Proof. unfold discovers. cbn. split_and!; [set_solver | constructor | by intros ? ?%not_elem_of_nil]. Qed.

Lemma discovers_trans m m1 m2 ns1 ns2 : discovers m m1 ns1 → discovers m1 m2 ns2 → discovers m m2 (ns1 ++ ns2).
Proof.
  intros (D1 & N1 & O1) (D2 & N2 & O2). unfold discovers. rewrite discovered_app. split_and!.
  - rewrite D2, D1, list_to_set_app_L. set_solver.
  - apply list.NoDup_app. split_and!; [done | | done]. intros d H1 H2. apply (O2 d H2). rewrite D1. set_solver.
  - intros d [H | H]%elem_of_app; [by apply O1 |]. specialize (O2 d H). rewrite D1 in O2. set_solver.
Qed.

Lemma at_switch_discovers m d f m' ns :
  (∀ s s' ns, f s = (s', ns) → discovered ns = []) → at_switch m d f = Ok (m', ns) → discovers m m' ns.
Proof.
  intros Hf. unfold at_switch. destruct (m !! d) as [s|] eqn:E; [| done]. destruct (f s) as [s' ns'] eqn:Ef. intros [= <- <-].
  apply discovers_none; [by rewrite E | by eapply Hf].
Qed.

Lemma portDesc_discovers ps : ∀ s s' ns, portDescArrived s ps = (s', ns) → discovered ns = [].
Proof.
  induction ps as [|p ps IH]; intros s s' ns; cbn [portDescArrived]; [by intros [= <- <-] |].
  destruct (ports s !! port_no p); [apply IH |]. destruct (portDescArrived _ ps) as [s1 ns1] eqn:E. intros [= <- <-]. by apply (IH _ _ _ E).
Qed.

Lemma manage_discovers m e m' ns : manage m e = Ok (m', ns) → discovers m m' ns.
Proof.
  destruct e as [c d f | d | d r p | d r | d r]; cbn [manage].
  - unfold onSwitchUp. intros E. apply res_bind_Ok in E as (? & _ & E). destruct (m !! d) as [s|] eqn:Em; cbn [setUp] in E; injection E as <- <-.
    + apply discovers_none; [by rewrite Em | done].
    + unfold discovers. cbn. apply not_elem_of_dom in Em. split_and!; [rewrite dom_insert_L; set_solver | apply list.NoDup_singleton | set_solver].
  - unfold onSwitchDown. destruct (m !! d) as [s|] eqn:Em; [| intros [= <- <-]; apply discovers_refl]. cbn [setDown]. intros [= <- <-].
    apply discovers_none; [by rewrite Em |]. rewrite !discovered_app. cbn. rewrite !app_nil_r.
    generalize (map_to_list (ports s)). by induction l.
  - apply at_switch_discovers. intros s s' ns'. unfold portStatus. destruct r; [by intros [= <- <-] | by intros [= <- <-] |].
    by destruct (ports s !! port_no p); intros [= <- <-].
  - unfold onPortDescriptions. destruct r as [ps | x | |]; try (intros [= <- <-]; apply discovers_refl).
    apply at_switch_discovers. intros s s' ns'. apply portDesc_discovers.
  - unfold onSwitchDescriptions. destruct r as [ps | x | |]; try (intros E; apply res_bind_Ok in E as (? & _ & E); done);
      [| intros [= <- <-]; apply discovers_refl]. apply at_switch_discovers. by intros s s' ns' [= <- <-].
Qed.

Lemma manage_all_discovers es : ∀ m m' ns, manage_all m es = Ok (m', ns) → discovers m m' ns.
Proof.
  induction es as [|e es IH]; intros m m' ns; cbn [manage_all]; [intros [= <- <-]; apply discovers_refl |]. intros E.
  apply res_bind_Ok in E as ([m1 ns1] & E1 & E). apply res_bind_Ok in E as ([m2 ns2] & E2 & E). injection E as <- <-.
  eapply discovers_trans; [by eapply manage_discovers | by apply IH].
Qed.

(** Messages of a switch that came up, answers of the type that was asked for. *)
Definition timely (K : gset N) (e : manager_event) : Prop :=
  match e with
  | EvUp _ d f => datapath_id f = d
  | EvPortStatus d _ _ | EvPortDescriptions d (PortDescReply _) | EvSwitchDescriptions d (DescReply _) => d ∈ K
  | EvSwitchDescriptions _ (PortDescReply _ | OtherMultipart) => False
  | _ => True
  end.

Definition came_up (K : gset N) (e : manager_event) : gset N := match e with EvUp _ d _ => {[ d ]} ∪ K | _ => K end.

Fixpoint well_timed (K : gset N) (es : list manager_event) : Prop :=
  match es with [] => True | e :: es => timely K e ∧ well_timed (came_up K e) es end.

Lemma at_switch_ok m d f :
  d ∈ dom m → ∃ m' ns, at_switch m d f = Ok (m', ns) ∧ dom m' = dom m.
Proof.
  intros [s E]%elem_of_dom. unfold at_switch. rewrite E. destruct (f s) as [s' ns]. eexists _, _. split; [done |].
  apply dom_insert_lookup_L. by exists s.
Qed.

Lemma at_switch_unknown m d f : d ∉ dom m → at_switch m d f = Throw StdOutOfRange.
Proof. intros E%not_elem_of_dom. unfold at_switch. by rewrite E. Qed.

Lemma manage_ok m e : timely (dom m) e → ∃ m' ns, manage m e = Ok (m', ns) ∧ dom m' = came_up (dom m) e.
Proof.
  destruct e as [c d f | d | d r p | d r | d r]; cbn [manage timely came_up].
  - intros Hd. unfold onSwitchUp. rewrite Hd, N.eqb_refl. cbn [require mbind res_bind].
    destruct (m !! d) as [s|]; cbn [setUp]; eexists _, _; (split; [reflexivity | by rewrite dom_insert_L]).
  - intros _. unfold onSwitchDown. destruct (m !! d) as [s|] eqn:E; [| by eexists _, _].
    destruct (setDown s) as [s' ns]. eexists _, _. split; [done |]. apply dom_insert_lookup_L. by exists s.
  - apply at_switch_ok.
  - destruct r; intros H; try (by eexists _, _). by apply at_switch_ok.
  - destruct r; intros H; try (exfalso; exact H); try (by eexists _, _). by apply at_switch_ok.
Qed.

Lemma manage_all_ok es : ∀ m, well_timed (dom m) es →
  ∃ m' ns, manage_all m es = Ok (m', ns) ∧ dom m' = fold_left came_up es (dom m).
Proof.
  induction es as [|e es IH]; intros m; cbn [well_timed manage_all fold_left]; [by eexists _, _ |].
  intros [He Hes]. destruct (manage_ok m e He) as (m1 & ns1 & -> & E). rewrite <- E in Hes |- *.
  destruct (IH m1 Hes) as (m2 & ns2 & E2 & Hd). cbn [mbind res_bind]. rewrite E2. cbn [mbind res_bind]. by eexists _, _.
Qed.

Section Unlinked.
Context (cable : switch_and_port → option switch_and_port) `{HC : !Cabling cable}.

Lemma hear_ports_down d (l : list (N * of_port)) : ∀ links edges last,
  ld_ok cable links edges last →
  ∃ ls edges' sig,
    discovery_hears (LinkDiscovery links edges) (map (λ x, PortDown d (fst x)) l ++ [Down d; SwitchDown d; DeleteEvent d]) =
      Ok (LinkDiscovery ls edges', sig) ∧
    ld_ok cable ls edges' last ∧ heard (cabled cable) (pairs links) sig (pairs ls) ∧
    ∀ y, y ∈ ls ↔ y ∈ links ∧ ∀ n, n ∈ map fst l → ¬ is_link_end (SwitchPort d n) y.
Proof.
  induction l as [|[n p] l IH]; intros links edges last Hok; cbn [map app discovery_hears fst].
  - exists links, edges, []. split_and!; [done | done | constructor |]. intros y. split; [| by intros [? _]].
    intros Hy. split; [done |]. by intros n ?%not_elem_of_nil.
  - unfold LinkDiscovery.portDown. destruct (clear_step cable Hok (SwitchPort d n)) as (ls & m1 & sig & -> & H1 & H2 & H3).
    cbn [mbind res_bind]. destruct (IH ls m1 last H1) as (ls' & m2 & sig' & -> & H4 & H5 & H6). cbn [mbind res_bind].
    exists ls', m2, (sig ++ sig'). split_and!; [done | done | by apply heard_app with (pairs ls) |].
    intros y. rewrite H6, H3. split.
    + intros [[Hy Hn] Hl]. split; [done |]. intros k [-> | Hk]%elem_of_cons; [done | by apply Hl].
    + intros [Hy Hn]. split; [split; [done |]; apply Hn; constructor |]. intros k Hk. apply Hn. by constructor.
Qed.
End Unlinked.

(** ** Properties *)

(** messages of switches.  When each message comes from a switch that has
    come up, and answers are of the type that was asked for, the manager handles
    all of them, and knows exactly the switches that came up, down or not.  A
    message of any other switch is an exception that no slot catches. *)
Theorem events_served (es : list manager_event) :
  well_timed ∅ es →
  ∃ m ns, manage_all ∅ es = Ok (m, ns) ∧ dom m = fold_left came_up es ∅ ∧
    ∀ d, d ∉ dom m →
      (∀ r p, manage m (EvPortStatus d r p) = Throw StdOutOfRange) ∧
      (∀ ps, manage m (EvPortDescriptions d (PortDescReply ps)) = Throw StdOutOfRange) ∧
      (∀ x, manage m (EvSwitchDescriptions d (DescReply x)) = Throw StdOutOfRange).
Proof.
  intros H. destruct (manage_all_ok es ∅) as (m & ns & E & Hd); [by rewrite dom_empty_L |]. rewrite dom_empty_L in Hd.
  exists m, ns. split_and!; [done | done |]. intros d Hn. split_and!; intros; by apply at_switch_unknown.
Qed.

(** ports by their signals.  After whatever the manager handled, who only
    adds the ports of portUp and removes those of portDown knows exactly the
    ports that each switch has in the manager, and none of a switch that is down. *)
Theorem ports_heard (es : list manager_event) (m : switch_manager) (ns : list notice) :
  manage_all ∅ es = Ok (m, ns) → ∀ d n, (d, n) ∈ hear_notices ∅ ns ↔ is_Some (ports_of m d !! n).
Proof. intros E d n. by apply (manage_all_in_step es ∅ ∅ m ns empty_in_step E). Qed.

(** C24: links of a switch that goes down.  In a network of cables, where links
    end at ports the manager knows, link discovery hears of the lost ports one
    by one, does not fail, and is left with exactly the links of other switches;
    what it signals is what it lost. *)
Theorem down_switch_unlinked (cable : switch_and_port → option switch_and_port) `{!Cabling cable}
    (m m' : switch_manager) (d last : N) (s : switch) (ns : list notice)
    (links : list discovered_link) (edges : gmap switch_and_port N) :
  own_ids m → ld_ok cable links edges last → m !! d = Some s →
  (∀ l x, l ∈ links → is_link_end x l → dpid x = d → is_Some (ports s !! port x)) →
  onSwitchDown m d = (m', ns) →
  ∃ ls edges' sig, discovery_hears (LinkDiscovery links edges) ns = Ok (LinkDiscovery ls edges', sig) ∧
    heard (cabled cable) (pairs links) sig (pairs ls) ∧
    ∀ l, l ∈ ls ↔ l ∈ links ∧ dpid (l_source l) ≠ d ∧ dpid (l_target l) ≠ d.
Proof.
  intros Hid Hok E Hports. unfold onSwitchDown. rewrite E. unfold setDown. rewrite (Hid d s E). intros [= <- <-].
  rewrite <- app_assoc. destruct (hear_ports_down cable d (map_to_list (ports s)) links edges last Hok) as (ls & e' & sig & H1 & _ & H3 & H4).
  exists ls, e', sig. split_and!; [done | done |]. intros l. rewrite H4. split; intros [Hl Hn]; (split; [done |]).
  - assert (K : ∀ x, is_link_end x l → dpid x ≠ d).
    { intros x Hx Hd. apply (Hn (port x)); [| destruct x; cbn in Hd; by subst]. by apply in_ports, (Hports l). }
    split; apply K; [by left | by right].
  - intros n _ [Hx | Hx]; rewrite Hx in Hn; cbn in Hn; naive_solver.
Qed.

(** a port that is added again.  The manager keeps the port it had, while
    it signals the new one. *)
Theorem added_port_stale (m : switch_manager) (d : N) (s : switch) (p q : of_port) :
  m !! d = Some s → ports s !! port_no p = Some q →
  ∃ m', onPortStatus m d OFPPR_ADD p = Ok (m', [PortUp (id s) p]) ∧ ports_of m' d !! port_no p = Some q.
Proof.
  intros E Hq. unfold onPortStatus, at_switch. rewrite E. cbn [portStatus]. rewrite Hq. eexists. split; [done |].
  unfold ports_of. by rewrite lookup_insert_eq.
Qed.

(** ** A switch with two ports *)

Definition sample_features (d : N) : features := Features d 0 1 0.
Definition sample_port (n : N) : of_port := OfPort n 0 [2; 0; 0; 0; 0; n]%N.

Definition sample_traffic : list manager_event :=
  [EvUp 1 1 (sample_features 1); EvPortDescriptions 1 (PortDescReply [sample_port 1; sample_port 2]);
   EvSwitchDescriptions 1 (DescReply empty_desc); EvPortStatus 1 OFPPR_ADD (sample_port 3);
   EvPortStatus 1 OFPPR_DELETE (sample_port 2); EvUp 2 2 (sample_features 2);
   EvPortStatus 2 OFPPR_ADD (sample_port 1)].

Definition sample_managed : switch_manager * list notice :=
  Eval vm_compute in match manage_all ∅ sample_traffic with Ok r => r | _ => (∅, []) end.

Lemma sample_managed_ok : manage_all ∅ sample_traffic = Ok sample_managed.
Proof. vm_compute. reflexivity. Qed.

Lemma events_served_witness :
  ∃ m ns, manage_all ∅ sample_traffic = Ok (m, ns) ∧ dom m = {[ 1%N; 2%N ]} ∧
    manage m (EvPortStatus 3 OFPPR_ADD (sample_port 1)) = Throw StdOutOfRange.
Proof.
  destruct (events_served sample_traffic) as (m & ns & E & Hd & H).
  { cbn. set_solver. }
  exists m, ns. assert (Hm : dom m = {[ 1%N; 2%N ]}) by (rewrite Hd; vm_compute; reflexivity).
  split_and!; [exact E | exact Hm |]. apply H. rewrite Hm. set_solver.
Defined.

Lemma ports_heard_witness : (1, 3)%N ∈ hear_notices ∅ (snd sample_managed).
Proof.
  apply (ports_heard sample_traffic (fst sample_managed) (snd sample_managed)).
  - exact sample_managed_ok.
  - vm_compute. eauto.
Defined.

Definition sample_linked : link_discovery :=
  LinkDiscovery [DiscoveredLink (SwitchPort 1 1) (SwitchPort 2 1) 5] (<[SwitchPort 2 1 := 5%N]> (<[SwitchPort 1 1 := 5%N]> ∅)).

Lemma sample_linked_ok : ld_ok sample_cable (m_links sample_linked) (m_out_edges sample_linked) 5.
Proof.
  destruct (beacon_step sample_cable (empty_ok sample_cable) 5 (SwitchPort 1 1) (SwitchPort 2 1)) as (ls & m & sig & E & H & _);
    [done .. |]. rewrite first_beacon in E. by injection E as <- <- _.
Qed.

Lemma down_switch_unlinked_witness :
  ∃ ls edges' sig, discovery_hears sample_linked (snd (onSwitchDown (fst sample_managed) 1)) = Ok (LinkDiscovery ls edges', sig) ∧
    ls = [].
Proof.
  destruct (down_switch_unlinked sample_cable (fst sample_managed) (fst (onSwitchDown (fst sample_managed) 1)) 1 5
              (Switch 1 (sample_features 1) empty_desc {[ 1%N := sample_port 1; 3%N := sample_port 3 ]})
              (snd (onSwitchDown (fst sample_managed) 1)) (m_links sample_linked) (m_out_edges sample_linked))
    as (ls & e & sig & E & _ & H).
  - apply (manage_all_in_step sample_traffic ∅ ∅ _ (snd sample_managed) empty_in_step). exact sample_managed_ok.
  - exact sample_linked_ok.
  - vm_compute. reflexivity.
  - intros l x ->%list_elem_of_singleton [<- | <-] Hd; [vm_compute; eauto | discriminate Hd].
  - vm_compute. reflexivity.
  - exists ls, e, sig. split; [exact E |]. destruct ls as [|l ls]; [done |].
    destruct (proj1 (H l) (list_elem_of_here _ _)) as (->%list_elem_of_singleton & Hs & _). by destruct Hs.
Defined.
