(* ===== verification/HostManager.v ===== *)
(** * HostManager: hosts and the addresses of switches, HostManager.hh and .cc

    A host is known by the text of its Ethernet address; the map's order, which
    getHost(ip) goes by, is the one of the map here and unspecified in the code.
    What finds hosts is commented out, so no host is ever known
    ([switch_macs_stay], which shows as well that the addresses of a switch that
    goes down are not removed: its ports are gone when they are asked for).
    The addresses of all ports of the network are recognised as a switch's
    ([ports_are_switches]); lookups and removals are exact ([host_lookups],
    [down_switch_loses_hosts]). *)

From S2P Require Import Prelude Bits Regex Ipv4Addr LinkDiscovery SwitchManager.
From stdpp Require Import strings.

(** Where a host is, once it has been attached. *)
Record host : Type := Host { host_id : N; h_mac : str; h_ip : ipv4addr; switchID : option N; switchPort : option N }.

Record host_manager : Type := HostManager { hosts : gmap str host; switch_macs : list str }.

Definition no_hosts : host_manager := HostManager ∅ [].

(** [Host::Host]; [r] is what rand() gives. *)
Definition new_host (r : N) (mac : str) (ip : ipv4addr) : host := Host (r mod 1000 + 1000) mac ip None None.

Definition createHost (hm : host_manager) (r : N) (mac : str) (ip : ipv4addr) : host_manager :=
  HostManager (<[mac := new_host r mac ip]> (hosts hm)) (switch_macs hm).

(** [operator[]] makes a null pointer for a host that is not there. *)
Definition attachHost (hm : host_manager) (mac : str) (d n : N) : res host_manager :=
  match hosts hm !! mac with
  | None => Throw Terminate
  | Some h => Ok (HostManager (<[mac := Host (host_id h) (h_mac h) (h_ip h) (Some d) (Some n)]> (hosts hm)) (switch_macs hm))
  end.

Definition addHost (hm : host_manager) (r d : N) (ip : ipv4addr) (mac : str) (n : N) : res host_manager :=
  attachHost (createHost hm r mac ip) mac d n.

Definition findMac (hm : host_manager) (mac : str) : bool := bool_decide (is_Some (hosts hm !! mac)).

Definition isSwitch (hm : host_manager) (mac : str) : bool := existsb (λ x, bool_decide (x = mac)) (switch_macs hm).

Definition delHostForSwitch (hm : host_manager) (d : N) : host_manager :=
  HostManager (filter (λ x, switchID (snd x) ≠ Some d) (hosts hm)) (switch_macs hm).

(** [getHost], by Ethernet address *)
Definition host_of_mac (hm : host_manager) (mac : str) : option host := hosts hm !! mac.

(** The first of [l] whose address prints as [s]. *)
Fixpoint find_printed (s : str) (l : list host) : res (option host) :=
  match l with
  | [] => Ok None
  | h :: l => t ← print (h_ip h); if bool_decide (t = s) then Ok (Some h) else find_printed s l
  end.

(** [getHost], by IP address *)
Definition host_of_ip (hm : host_manager) (ip : ipv4addr) : res (option host) :=
  s ← print ip; find_printed s (map snd (map_to_list (hosts hm))).

(** [std::find] and [erase] *)
Fixpoint erase_first (x : str) (l : list str) : list str :=
  match l with [] => [] | y :: l => if bool_decide (y = x) then l else y :: erase_first x l end.

Section Addresses.
(** EthAddress::to_string of libfluid. *)
Context (to_string : list N → str).

Definition newPort (hm : host_manager) (p : of_port) : host_manager :=
  HostManager (hosts hm) (switch_macs hm ++ [to_string (hw_addr p)]).

(** [onSwitchDown]; [ps] is what the switch answers for its ports. *)
Definition onHostSwitchDown (hm : host_manager) (d : N) (ps : list of_port) : host_manager :=
  let hm1 := delHostForSwitch hm d in
  HostManager (hosts hm1) (fold_left (λ l p, erase_first (to_string (hw_addr p)) l) ps (switch_macs hm1)).

(** What it does on a notice of the switch manager, which is [m] by then. *)
Definition host_hears (m : switch_manager) (hm : host_manager) (n : notice) : host_manager :=
  match n with
  | PortUp _ p => newPort hm p
  | SwitchDown d => onHostSwitchDown hm d (map snd (map_to_list (ports_of m d)))
  | _ => hm
  end.

Fixpoint watch (m : switch_manager) (hm : host_manager) (es : list manager_event) : res (switch_manager * host_manager * list notice) :=
  match es with
  | [] => Ok (m, hm, [])
  | e :: es =>
      '(m1, ns1) ← manage m e;
      '(m2, hm2, ns2) ← watch m1 (fold_left (host_hears m1) ns1 hm) es;
      Ok (m2, hm2, ns1 ++ ns2)
  end.

(** ** Lemmas *)

(** The addresses of the ports that came up, in order. *)
Definition heard_macs (ns : list notice) : list str :=
  omap (λ n, match n with PortUp _ p => Some (to_string (hw_addr p)) | _ => None end) ns.

Lemma portStatus_down s r p d : SwitchDown d ∉ snd (portStatus s r p).
Proof. destruct r; cbn; [| | destruct (ports s !! _)]; cbn; rewrite ?elem_of_cons, ?elem_of_nil; naive_solver. Qed.

Lemma portDesc_down ps d : ∀ s, SwitchDown d ∉ snd (portDescArrived s ps).
Proof.
  induction ps as [|p ps IH]; intros s; cbn [portDescArrived]; [apply not_elem_of_nil |].
  destruct (ports s !! port_no p); [apply IH |]. specialize (IH (with_ports s (<[port_no p:=p]> (ports s)))).
  destruct (portDescArrived _ ps). cbn in IH |- *. rewrite elem_of_cons. naive_solver.
Qed.

(** When a switch is reported down, it has no ports. *)
Lemma down_no_ports m e m' ns d : manage m e = Ok (m', ns) → SwitchDown d ∈ ns → ports_of m' d = ∅.
Proof.
  assert (A : ∀ f d', (∀ s, SwitchDown d ∉ snd (f s)) → at_switch m d' f = Ok (m', ns) → SwitchDown d ∈ ns → ports_of m' d = ∅).
  { intros f d' Hf. unfold at_switch. destruct (m !! d') as [s|]; [| done]. specialize (Hf s). destruct (f s). by intros [= <- <-]. }
  destruct e as [c d' f | d' | d' r p | d' r | d' r]; cbn [manage].
  - unfold onSwitchUp. destruct (_ =? _)%N; cbn [require mbind res_bind]; [| done].
    destruct (m !! d'); cbn [setUp]; intros [= <- <-]; cbn; rewrite ?elem_of_cons, ?elem_of_nil; naive_solver.
  - unfold onSwitchDown. destruct (m !! d') as [s|]; [| by intros [= <- <-] ?%not_elem_of_nil]. cbn [setDown]. intros [= <- <-].
    rewrite <- app_assoc, elem_of_app, list_elem_of_fmap. cbn. rewrite !elem_of_cons, elem_of_nil.
    intros [(x & [=] & _) | [[=] | [[= ->] | [[=] | []]]]]. unfold ports_of. by rewrite lookup_insert_eq.
  - apply A. intros s. apply portStatus_down.
  - unfold onPortDescriptions. destruct r; try (by intros [= <- <-] ?%not_elem_of_nil). apply A. intros s. apply portDesc_down.
  - unfold onSwitchDescriptions. destruct r; try (by intros [= <- <-] ?%not_elem_of_nil);
      try (destruct (at_switch m d' _); cbn [mbind res_bind]; done). apply A. intros s. apply not_elem_of_nil.
Qed.

Lemma hears_no_ports m ns : ∀ hm, (∀ d, SwitchDown d ∈ ns → ports_of m d = ∅) → hosts hm = ∅ →
  fold_left (host_hears m) ns hm = HostManager ∅ (switch_macs hm ++ heard_macs ns).
Proof.
  induction ns as [|n ns IH]; intros hm Hd Hh; cbn [fold_left].
  - destruct hm as [h l]. cbn in Hh |- *. by rewrite Hh, app_nil_r.
  - assert (Hd' : ∀ d, SwitchDown d ∈ ns → ports_of m d = ∅) by (intros d H; apply Hd; by constructor).
    destruct n; cbn [host_hears heard_macs omap list_omap]; try (by apply IH).
    + rewrite (IH (onHostSwitchDown hm d _)); [| done | by cbn; rewrite Hh, map_filter_empty].
      rewrite (Hd d) by constructor. done.
    + rewrite (IH (newPort hm p)) by done. cbn. by rewrite <- app_assoc.
Qed.

Lemma heard_macs_app ns ns' : heard_macs (ns ++ ns') = heard_macs ns ++ heard_macs ns'.
Proof. apply omap_app. Qed.

Lemma watch_spec es : ∀ m hm, hosts hm = ∅ →
  watch m hm es = '(m', ns) ← manage_all m es; Ok (m', HostManager ∅ (switch_macs hm ++ heard_macs ns), ns).
Proof.
  induction es as [|e es IH]; intros m hm Hh; cbn [watch manage_all].
  - destruct hm as [h l]. cbn in Hh |- *. by rewrite Hh, app_nil_r.
  - destruct (manage m e) as [[m1 ns1]|] eqn:E; cbn [mbind res_bind]; [| done].
    rewrite hears_no_ports; [| intros d; by apply (down_no_ports m e) | done]. rewrite IH by done.
    destruct (manage_all m1 es) as [[m2 ns2]|]; cbn [mbind res_bind]; [| done]. by rewrite heard_macs_app, app_assoc.
Qed.
End Addresses.

(** ** The addresses of the manager's ports *)

Definition modified_alike (ns : list notice) : Prop := ∀ d p old, PortModified d p old ∈ ns → hw_addr p = hw_addr old.

(** An address of a port of the map, or of one that came up. *)
Definition port_mac (pm : gmap N of_port) (a : list N) : Prop := ∃ n p, pm !! n = Some p ∧ hw_addr p = a.
Definition up_mac (ns : list notice) (a : list N) : Prop := ∃ d p, PortUp d p ∈ ns ∧ hw_addr p = a.

Definition macs_told (s s' : switch) (ns : list notice) : Prop :=
  modified_alike ns → ∀ a, port_mac (ports s') a → port_mac (ports s) a ∨ up_mac ns a.

Lemma portStatus_told s r p s' ns : portStatus s r p = (s', ns) → macs_told s s' ns.
Proof.
  destruct r; cbn [portStatus].
  - intros [= <- <-] _ a (n & q & Hq & <-). cbn in Hq. destruct (ports s !! port_no p); [left; by exists n, q |].
    apply lookup_insert_Some in Hq as [[_ <-] | [_ Hq]]; [| left; by exists n, q]. right. exists (id s), p. split; [constructor | done].
  - intros [= <- <-] _ a (n & q & Hq & <-). left. cbn in Hq. apply lookup_delete_Some in Hq as [_ Hq]. by exists n, q.
  - destruct (ports s !! port_no p) as [old|] eqn:E; intros [= <- <-]; intros Hm a; [| by left].
    intros (n & q & Hq & <-). left. cbn in Hq. apply lookup_insert_Some in Hq as [[_ <-] | [_ Hq]]; [| by exists n, q].
    exists (port_no p), old. split; [done |]. symmetry. apply (Hm (id s)). constructor.
Qed.

Lemma portDesc_told ps : ∀ s s' ns, portDescArrived s ps = (s', ns) → macs_told s s' ns.
Proof.
  induction ps as [|p ps IH]; intros s s' ns; cbn [portDescArrived]; [intros [= <- <-] _ a Ha; by left |].
  destruct (ports s !! port_no p); [apply IH |]. destruct (portDescArrived _ ps) as [s1 ns1] eqn:E. intros [= <- <-] Hm a Ha.
  destruct (IH _ _ _ E) with (a := a) as [(n & q & Hq & <-) | (d & q & Hq & <-)]; [| done | |].
  - intros d q old Hq. apply (Hm d). by constructor.
  - cbn in Hq. apply lookup_insert_Some in Hq as [[_ <-] | [_ Hq]]; [right; exists (id s), p; split; [constructor | done] | left; by exists n, q].
  - right. exists d, q. split; [by constructor | done].
Qed.

Lemma manage_told m e m' ns : manage m e = Ok (m', ns) → modified_alike ns →
  ∀ d a, port_mac (ports_of m' d) a → port_mac (ports_of m d) a ∨ up_mac ns a.
Proof.
  assert (B : ∀ d' s s', m !! d' = Some s → macs_told s s' ns → modified_alike ns →
              ∀ d a, port_mac (ports_of (<[d' := s']> m) d) a → port_mac (ports_of m d) a ∨ up_mac ns a).
  { intros d' s s' E Hs Hm d a. unfold ports_of. destruct (decide (d' = d)) as [<- | Hne].
    - rewrite lookup_insert_eq, E. by apply Hs.
    - rewrite lookup_insert_ne by done. by left. }
  assert (A : ∀ f d', (∀ s s' ns, f s = (s', ns) → macs_told s s' ns) → at_switch m d' f = Ok (m', ns) → modified_alike ns →
              ∀ d a, port_mac (ports_of m' d) a → port_mac (ports_of m d) a ∨ up_mac ns a).
  { intros f d' Hf. unfold at_switch. destruct (m !! d') as [s|] eqn:E; [| done]. destruct (f s) as [s' ns'] eqn:Ef. intros [= <- <-].
    apply (B d' s s' E). by apply Hf. }
  destruct e as [c d' f | d' | d' r p | d' r | d' r]; cbn [manage].
  - unfold onSwitchUp. destruct (_ =? _)%N; cbn [require mbind res_bind]; [| done].
    destruct (m !! d') as [s|] eqn:E; cbn [setUp]; intros [= <- <-]; [apply (B d' s _ E); intros _ a Ha; by left |].
    intros _ d a. unfold ports_of. destruct (decide (d' = d)) as [<- | Hne].
    + rewrite lookup_insert_eq. intros (n & p & Hp & _). cbn in Hp. by apply lookup_empty_Some in Hp.
    + rewrite lookup_insert_ne by done. by left.
  - unfold onSwitchDown. destruct (m !! d') as [s|] eqn:E; [| intros [= <- <-] _ d a Ha; by left].
    cbn [setDown]. intros [= <- <-]. apply (B d' s _ E). intros _ a (n & p & Hp & _). cbn in Hp. by apply lookup_empty_Some in Hp.
  - apply A. intros s s' ns'. apply portStatus_told.
  - unfold onPortDescriptions. destruct r; try (intros [= <- <-] ? ? ? ?; by left). apply A. intros s s' ns'. apply portDesc_told.
  - unfold onSwitchDescriptions. destruct r; try (intros [= <- <-] ? ? ? ?; by left);
      try (destruct (at_switch m d' _); cbn [mbind res_bind]; done). apply A. intros s s' ns' [= <- <-] _ a Ha. by left.
Qed.

Lemma manage_all_told es : ∀ m m' ns, manage_all m es = Ok (m', ns) → modified_alike ns →
  ∀ d a, port_mac (ports_of m' d) a → port_mac (ports_of m d) a ∨ up_mac ns a.
Proof.
  induction es as [|e es IH]; intros m m' ns; cbn [manage_all]; [intros [= <- <-] _ d a Ha; by left |].
  destruct (manage m e) as [[m1 ns1]|] eqn:E1; cbn [mbind res_bind]; [| done].
  destruct (manage_all m1 es) as [[m2 ns2]|] eqn:E2; cbn [mbind res_bind]; [| done]. intros [= <- <-] Hm d a Ha.
  assert (U : ∀ ns', ns' ⊆ ns1 ++ ns2 → up_mac ns' a → up_mac (ns1 ++ ns2) a).
  { intros ns' Hs (d' & p & Hp & <-). exists d', p. split; [by apply Hs | done]. }
  destruct (IH m1 _ ns2 E2) with (d := d) (a := a) as [Ha1 | Ha1]; [intros d' p old H; apply (Hm d'); apply elem_of_app; by right | done | |].
  - destruct (manage_told m e m1 ns1 E1) with (d := d) (a := a) as [Ha2 | Ha2];
      [intros d' p old H; apply (Hm d'); apply elem_of_app; by left | done | by left |].
    right. apply (U ns1); [| done]. intros x H. apply elem_of_app. by left.
  - right. apply (U ns2); [| done]. intros x H. apply elem_of_app. by right.
Qed.

Lemma isSwitch_spec hm mac : isSwitch hm mac = true ↔ mac ∈ switch_macs hm.
Proof.
  unfold isSwitch. rewrite existsb_exists. split.
  - intros (x & Hx%list_elem_of_In & ->%bool_decide_eq_true). done.
  - intros H. exists mac. split; [by apply list_elem_of_In | by apply bool_decide_eq_true].
Qed.

(** ** Hosts *)

Definition hosts_wf (hm : host_manager) : Prop := ∀ mac h, hosts hm !! mac = Some h → ipv4_wf (h_ip h).

Lemma print_ok a : ipv4_wf a → ∃ s, print a = Ok s.
Proof. intros Ha. unfold print, to_octets. rewrite ipv4_to_number by done. by eexists. Qed.

Lemma print_inj a b : ipv4_wf a → ipv4_wf b → print a = print b → a = b.
Proof.
  intros Ha Hb E. pose proof (ipv4addr_print_parse a Ha) as Ea. rewrite E, ipv4addr_print_parse in Ea by done. congruence.
Qed.

Lemma find_printed_spec s a (l : list host) : ipv4_wf a → print a = Ok s → (∀ h, h ∈ l → ipv4_wf (h_ip h)) →
  ∃ r, find_printed s l = Ok r ∧
    match r with Some h => h ∈ l ∧ h_ip h = a | None => ∀ h, h ∈ l → h_ip h ≠ a end.
Proof.
  intros Ha Es. induction l as [|h l IH]; intros Hl; cbn [find_printed].
  - exists None. split; [done |]. by intros h ?%not_elem_of_nil.
  - assert (Hh : ipv4_wf (h_ip h)) by (apply Hl; constructor). destruct (print_ok _ Hh) as [t Et]. rewrite Et. cbn [mbind res_bind].
    case_bool_decide as Ht.
    + exists (Some h). split; [done |]. split; [constructor |]. apply print_inj; [done | done | congruence].
    + destruct IH as (r & -> & Hr); [intros k Hk; apply Hl; by constructor |]. exists r. split; [done |]. destruct r as [k|].
      * destruct Hr. split; [by constructor | done].
      * intros k [-> | Hk]%elem_of_cons; [| by apply Hr]. intros Eh. rewrite Eh in Et. congruence.
Qed.

(** ** Properties *)

(** what is left of switches.  Whatever happened to switches and ports, no
    host is known, and the addresses taken for a switch's are those of all the
    ports that ever came up: none is removed when its switch goes down, since
    the switch has forgotten its ports by the time it is asked for them. *)
Theorem switch_macs_stay (to_string : list N → str) (es : list manager_event) (m : switch_manager) (hm : host_manager) (ns : list notice) :
  watch to_string ∅ no_hosts es = Ok (m, hm, ns) →
  hosts hm = ∅ ∧ switch_macs hm = heard_macs to_string ns.
Proof.
  rewrite watch_spec by done. destruct (manage_all ∅ es) as [[m' ns']|]; cbn [mbind res_bind]; [| done].
  by intros [= <- <- <-].
Qed.

(** addresses of switches.  When changes of ports keep their Ethernet
    addresses, the address of every port that a switch has is recognised as one
    of a switch, and will not be taken for a host's. *)
Theorem ports_are_switches (to_string : list N → str) (es : list manager_event) (m : switch_manager) (hm : host_manager) (ns : list notice) :
  watch to_string ∅ no_hosts es = Ok (m, hm, ns) → modified_alike ns →
  ∀ d n p, ports_of m d !! n = Some p → isSwitch hm (to_string (hw_addr p)) = true.
Proof.
  rewrite watch_spec by done. destruct (manage_all ∅ es) as [[m' ns']|] eqn:E; cbn [mbind res_bind]; [| done].
  intros [= <- <- <-] Hm d n p Hp. apply isSwitch_spec. cbn [switch_macs app].
  destruct (manage_all_told es ∅ m' ns' E Hm d (hw_addr p)) as [(k & q & Hq & _) | (d' & q & Hq & Ea)]; [by exists n, p | |].
  - unfold ports_of in Hq. rewrite lookup_empty in Hq. cbn in Hq. by apply lookup_empty_Some in Hq.
  - unfold heard_macs. apply list_elem_of_omap. exists (PortUp d' q). split; [done |]. by rewrite Ea.
Qed.

(** looking for hosts.  A host that is added is found by its Ethernet
    address, at its switch and port, and the other hosts stay; the search by IP
    address answers without an error with a host of that address, or with none
    when there is none. *)
Theorem host_lookups (hm : host_manager) (r d n : N) (ip a : ipv4addr) (mac : str) :
  hosts_wf hm → ipv4_wf ip → ipv4_wf a →
  ∃ hm', addHost hm r d ip mac n = Ok hm' ∧
    host_of_mac hm' mac = Some (Host (r mod 1000 + 1000) mac ip (Some d) (Some n)) ∧
    (∀ mac', mac' ≠ mac → host_of_mac hm' mac' = host_of_mac hm mac') ∧
    ∃ o, host_of_ip hm' a = Ok o ∧
      match o with
      | Some h => h_ip h = a ∧ ∃ mac', host_of_mac hm' mac' = Some h
      | None => ∀ mac' h, host_of_mac hm' mac' = Some h → h_ip h ≠ a
      end.
Proof.
  intros Hwf Hip Ha. unfold addHost, attachHost, createHost. cbn [hosts switch_macs]. rewrite lookup_insert_eq, insert_insert_eq.
  eexists. split; [reflexivity |]. unfold host_of_mac, host_of_ip. cbn [hosts new_host host_id h_mac h_ip].
  split; [by rewrite lookup_insert_eq |]. split; [intros mac' Hne; by rewrite lookup_insert_ne |].
  destruct (print_ok a Ha) as [s Es]. rewrite Es. cbn [mbind res_bind].
  assert (M : ∀ (pm : gmap str host) h, h ∈ map snd (map_to_list pm) ↔ ∃ k, pm !! k = Some h).
  { intros pm h. rewrite list_elem_of_fmap. split.
    - intros ([k x] & -> & H%elem_of_map_to_list). by exists k.
    - intros [k H]. exists (k, h). split; [done |]. by apply elem_of_map_to_list. }
  edestruct (find_printed_spec s a) as (o & Eo & Ho); [done | done | | exists o; split; [exact Eo |]].
  - intros h [k [[<- <-] | [_ H]]%lookup_insert_Some]%M; [done | by apply (Hwf k)].
  - destruct o as [h|]; [destruct Ho as [H%M <-]; by split |]. intros k h H. apply Ho, M. by exists k.
Qed.

(** hosts of a switch that goes down.  Exactly the hosts attached to it
    are gone, whatever its ports. *)
Theorem down_switch_loses_hosts (to_string : list N → str) (hm : host_manager) (d : N) (ps : list of_port) (mac : str) (h : host) :
  host_of_mac (onHostSwitchDown to_string hm d ps) mac = Some h ↔ host_of_mac hm mac = Some h ∧ switchID h ≠ Some d.
Proof. unfold host_of_mac, onHostSwitchDown. cbn [hosts delHostForSwitch]. by rewrite map_lookup_filter_Some. Qed.

(** ** A switch that comes and goes *)

Definition plain_text (a : list N) : str := map ascii_of_N a.

Definition sample_watched : res (switch_manager * host_manager * list notice) :=
  Eval vm_compute in watch plain_text ∅ no_hosts sample_traffic.

Lemma sample_watched_ok : watch plain_text ∅ no_hosts sample_traffic = sample_watched.
Proof. vm_compute. reflexivity. Qed.

Lemma switch_macs_stay_witness :
  ∃ m hm ns, watch plain_text ∅ no_hosts (sample_traffic ++ [EvDown 1]) = Ok (m, hm, ns) ∧
    ports_of m 1 = ∅ ∧ hosts hm = ∅ ∧ length (switch_macs hm) = 4%nat.
Proof.
  destruct (watch plain_text ∅ no_hosts (sample_traffic ++ [EvDown 1])) as [[[m hm] ns]|] eqn:E; [| discriminate (f_equal (λ r, match r with Ok _ => true | _ => false end) E)].
  exists m, hm, ns. split; [reflexivity |]. destruct (switch_macs_stay plain_text _ m hm ns E) as [Hh Hs].
  vm_compute in E. injection E as <- <- <-. split_and!; [reflexivity | exact Hh | reflexivity].
Defined.

Lemma ports_are_switches_witness :
  ∃ m hm ns, watch plain_text ∅ no_hosts sample_traffic = Ok (m, hm, ns) ∧
    isSwitch hm (plain_text [2; 0; 0; 0; 0; 3]%N) = true.
Proof.
  destruct sample_watched as [[[m hm] ns]|] eqn:E; [| discriminate E]. exists m, hm, ns. split; [exact (eq_trans sample_watched_ok E) |].
  apply (ports_are_switches plain_text sample_traffic m hm ns (eq_trans sample_watched_ok E)) with (d := 1%N) (n := 3%N) (p := sample_port 3).
  - injection E as <- <- <-. intros d p old. rewrite !elem_of_cons, elem_of_nil. naive_solver.
  - injection E as <- <- <-. reflexivity.
Defined.

Lemma host_lookups_witness :
  ∃ hm', addHost no_hosts 5 1 (Bits 32 0x0a000001) (lit "02:00:00:00:00:09") 3 = Ok hm' ∧
    host_of_mac hm' (lit "02:00:00:00:00:09") =
      Some (Host 1005 (lit "02:00:00:00:00:09") (Bits 32 0x0a000001) (Some 1%N) (Some 3%N)).
Proof.
  destruct (host_lookups no_hosts 5 1 3 (Bits 32 0x0a000001) (Bits 32 0x0a000001) (lit "02:00:00:00:00:09")) as (hm' & E & H & _).
  - intros mac h H. exfalso. exact (lookup_empty_Some mac h H).
  - split; vm_compute; reflexivity.
  - split; vm_compute; reflexivity.
  - exists hm'. split; [exact E | exact H].
Defined.
