(* ===== verification/RestEvents.v ===== *)
(** * RestEvents: the events that clients of the REST interface poll for,
    Event.hh and .cc, RestListener, Rest.hh

    Events are a list that only grows; a pointer to one is its position.  A
    Delete event and the Add event of the same object are brothers, and a client
    that has not seen the Add is sent neither.  A client that asks time and
    again, with the number it was last given, knows exactly the objects there
    are ([polls_in_sync]).  The times and the JSON of events stay with the
    event.  The path of a file is freed of double dots ([path_sanitised]). *)

From S2P Require Import Prelude Bits Regex.
From stdpp Require Import strings.

Inductive event_type : Type := Add | Delete | Change.

#[global] Instance event_type_eq : EqDecision event_type.
Proof. solve_decision. Defined.

(** [brother] is not initialised for a change, and not read. *)
Record event : Type := Event {
  ev_id : N; ev_time : N; ev_type : event_type; obj : N; ev_hash : N; brother : option nat; ev_app : str }.

(** [RestHandler]; [registered]: [em] is set. *)
Record handler : Type := Handler { restName : str; eventable : bool; getHash : N; registered : bool }.

(** The events, and the last id. *)
Record event_manager : Type := EventManager { events : list event; last_event : N }.

(** ** Events *)

(** [findBrother]: the position of the last Add of the object. *)
Fixpoint findBrother (es : list event) (o : N) : option nat :=
  match es with
  | [] => None
  | e :: es =>
      match findBrother es o with
      | Some i => Some (S i)
      | None => if decide (obj e = o ∧ ev_type e = Add) then Some O else None
      end
  end.

Definition set_brother (j : nat) (e : event) : event :=
  Event (ev_id e) (ev_time e) (ev_type e) (obj e) (ev_hash e) (Some j) (ev_app e).

(** The event is numbered before its brother is looked for. *)
Definition addToEventList (em : event_manager) (t : N) (type : event_type) (o : N) (rest : handler) : res event_manager :=
  if (getHash rest =? 0)%N then Ok em
  else
    let id := wrap 32 (last_event em + 1) in
    let ev := Event id t type o (getHash rest) None (restName rest) in
    match type with
    | Delete =>
        match findBrother (events em) o with
        | None => Throw Terminate
        | Some i => Ok (EventManager (alter (set_brother (length (events em))) i (events em) ++ [set_brother i ev]) id)
        end
    | _ => Ok (EventManager (events em ++ [ev]) id)
    end.

(** [RestHandler::addEvent] *)
Definition addEvent (em : event_manager) (t : N) (type : event_type) (o : N) (rest : handler) : res event_manager :=
  if eventable rest && registered rest then addToEventList em t type o rest else Ok em.

(** Whether the event need not be sent. *)
Definition checkOverlap (em : event_manager) (test_ev : event) (last_ev : N) : res bool :=
  match ev_type test_ev with
  | Add => Ok (bool_decide (is_Some (brother test_ev)))
  | Delete =>
      match brother test_ev ≫= λ i, events em !! i with
      | None => Throw Terminate
      | Some b => Ok (negb (ev_id b <=? last_ev)%N)
      end
  | Change => Ok false
  end.

Fixpoint collect (em : event_manager) (hash_map last : N) (es : list event) (result : gmap str (list event)) (last_event : N)
    : res (N * gmap str (list event)) :=
  match es with
  | [] => Ok (if (last_event =? 0)%N then last else last_event, result)
  | it :: es =>
      if negb (N.land (ev_hash it) hash_map =? 0)%N && (last <? ev_id it)%N then
        overlap ← checkOverlap em it last;
        if overlap : bool then collect em hash_map last es result last_event
        else collect em hash_map last es (<[ev_app it := default [] (result !! ev_app it) ++ [it]]> result)
               (if (last_event <? ev_id it)%N then ev_id it else last_event)
      else collect em hash_map last es result last_event
  end.

Definition timeout (em : event_manager) (hash_map last : N) : res (N * gmap str (list event)) :=
  collect em hash_map last (events em) ∅ 0.

(** ** The listener *)

Record rest_listener : Type := RestListener { rest_handlers : gmap str handler; cur_hash : N; em : event_manager }.

Definition init_listener : rest_listener := RestListener ∅ 1 (EventManager [] 0).

Definition registerRestHandler (l : rest_listener) (name : str) (ev : bool) : rest_listener :=
  if ev then RestListener (<[name := Handler name ev (cur_hash l) true]> (rest_handlers l)) (wrap 32 (cur_hash l * 2)) (em l)
  else RestListener (<[name := Handler name ev 0 false]> (rest_handlers l)) (cur_hash l) (em l).

(** [split], as std::getline cuts: nothing comes after a last delimiter. *)
Fixpoint split_items (s : str) (delim : ascii) (item : str) : list str :=
  match s with
  | [] => if item is [] then [] else [item]
  | c :: s => if decide (c = delim) then item :: split_items s delim [] else split_items s delim (item ++ [c])
  end.

Definition split (s : str) (delim : ascii) : list str := split_items s delim [].

Definition apps_map (l : rest_listener) (apps : list str) : N :=
  fold_left (λ m a, match rest_handlers l !! a with None => m | Some h => N.lor m (getHash h) end) apps 0%N.

(** The handler of ^/timeout/. *)
Definition handle_timeout (l : rest_listener) (param1 : str) (last_event : N) : res (N * gmap str (list event)) :=
  timeout (em l) (apps_map l (split param1 "&")) last_event.

(** What an application reports of an object. *)
Definition report (l : rest_listener) (t : N) (type : event_type) (o : N) (name : str) : res rest_listener :=
  match rest_handlers l !! name with
  | None => Ok l
  | Some h => em' ← addEvent (em l) t type o h; Ok (RestListener (rest_handlers l) (cur_hash l) em')
  end.

(** ** Files *)

(** The position of the first double dot. *)
Fixpoint find_dots (path : str) : option nat :=
  match path with
  | [] => None
  | a :: path' =>
      match path' with
      | b :: _ => if decide (a = "."%char ∧ b = "."%char) then Some O else S <$> find_dots path'
      | [] => None
      end
  end.

Definition erase_at (pos : nat) (path : str) : str := take pos path ++ drop (S pos) path.

(** The loop over them. *)
Fixpoint erase_dots (fuel : nat) (path : str) : comp str :=
  match fuel with
  | O => NoFuel
  | S fuel => match find_dots path with None => Ret path | Some pos => erase_dots fuel (erase_at pos path) end
  end.

Definition file_name (fuel : nat) (web_dir path : str) : comp str :=
  path ← erase_dots fuel path;
  Ret (web_dir ++ path ++ (if decide (path = lit "/") then lit "start.html" else [])).

(** ** What there is and what a client knows *)

(** An object is there when its last Add has no brother. *)
Definition open_add (a : str) (o : N) (e : event) : Prop := ev_type e = Add ∧ obj e = o ∧ ev_app e = a ∧ brother e = None.

(** The objects of each application, by what was reported. *)
Inductive rest_op : Type := Report (t : N) (type : event_type) (o : N) (name : str) | Poll.

Abbreviation objects := (str → gset N).

Definition tell_object (type : event_type) (o : N) (X : gset N) : gset N :=
  match type with Add => {[ o ]} ∪ X | Delete => X ∖ {[ o ]} | Change => X end.

Definition tell_op (X : objects) (op : rest_op) : objects :=
  match op with Report _ ty o a => λ b, if decide (b = a) then tell_object ty o (X b) else X b | Poll => X end.

(** An object is added when no application has it, and deleted by the one that does. *)
Definition op_fits (X : objects) (op : rest_op) : Prop :=
  match op with
  | Report _ Add o _ => ∀ a, o ∉ X a
  | Report _ Delete o a => o ∈ X a
  | _ => True
  end.

Fixpoint ops_fit (X : objects) (ops : list rest_op) : Prop :=
  match ops with [] => True | op :: ops => op_fits X op ∧ ops_fit (tell_op X op) ops end.

Lemma ops_fit_app ops ops' : ∀ X, ops_fit X ops → ops_fit (fold_left tell_op ops X) ops' → ops_fit X (ops ++ ops').
Proof. induction ops as [|op ops IH]; intros X; cbn [ops_fit app fold_left]; [done |]. intros [H1 H2] H3. split; [done | by apply IH]. Qed.

(** The client takes the answers for its applications. *)
Record client : Type := Client { known : objects; last_seen : N }.

Definition take_answer (r : N * gmap str (list event)) (c : client) : client :=
  Client (λ a, fold_left (λ X e, tell_object (ev_type e) (obj e) X) (default [] (snd r !! a)) (known c a)) (fst r).

Section Client.
(** The parameter of its requests. *)
Context (param : str).

Definition step (l : rest_listener) (c : client) (op : rest_op) : res (rest_listener * client) :=
  match op with
  | Report t ty o a => l' ← report l t ty o a; Ok (l', c)
  | Poll => r ← handle_timeout l param (last_seen c); Ok (l, take_answer r c)
  end.

Fixpoint run (l : rest_listener) (c : client) (ops : list rest_op) : res (rest_listener * client) :=
  match ops with
  | [] => Ok (l, c)
  | op :: ops => '(l', c') ← step l c op; run l' c' ops
  end.
End Client.

(** ** Events and their brothers *)

Lemma findBrother_Some es o i :
  findBrother es o = Some i →
  (∃ e, es !! i = Some e ∧ obj e = o ∧ ev_type e = Add) ∧
  ∀ k e, es !! k = Some e → obj e = o → ev_type e = Add → (k ≤ i)%nat.
Proof.
  revert i. induction es as [|x es IH]; intros i; cbn [findBrother]; [done |].
  destruct (findBrother es o) as [j|] eqn:E.
  - intros [= <-]. destruct (IH j eq_refl) as [(e & He & Ho & Ht) Hl]. split; [by exists e |].
    intros [|k] e' Hk Ho' Ht'; [lia |]. specialize (Hl k e' Hk Ho' Ht'). lia.
  - destruct (decide _) as [[Ho Ht] |]; [| done]. intros [= <-]. split; [by exists x |].
    intros [|k] e Hk Hoe Hte; [lia |]. exfalso. clear IH. revert k Hk E. induction es as [|y es IH]; intros k Hk; [done |].
    cbn [findBrother]. destruct (findBrother es o) eqn:E; [done |]. destruct (decide _) as [| Hn]; [done |]. intros _.
    destruct k as [|k]; [cbn in Hk; injection Hk as ->; by apply Hn |]. by apply (IH k).
Qed.

Lemma findBrother_is_Some es o k e : es !! k = Some e → obj e = o → ev_type e = Add → is_Some (findBrother es o).
Proof.
  revert k. induction es as [|y es IH]; intros k Hk Ho Ht; [done |]. cbn [findBrother].
  destruct (findBrother es o) eqn:E; [by eexists |]. destruct k as [|k].
  - cbn in Hk. injection Hk as ->. rewrite decide_True by done. by eexists.
  - destruct (IH k Hk Ho Ht). done.
Qed.

(** The events, in the order of their ids; brothers are each other's; what is
    there was added and nothing else was said of it since. *)
Record events_ok (es : list event) (X : objects) : Prop := {
  ok_ids i e : es !! i = Some e → ev_id e = (N.of_nat i + 1)%N;
  ok_delete j e : es !! j = Some e → ev_type e = Delete →
    ∃ i b, brother e = Some i ∧ es !! i = Some b ∧ ev_type b = Add ∧ obj b = obj e ∧ ev_app b = ev_app e ∧ brother b = Some j;
  ok_add i e j : es !! i = Some e → ev_type e = Add → brother e = Some j →
    ∃ b, es !! j = Some b ∧ ev_type b = Delete ∧ obj b = obj e ∧ ev_app b = ev_app e ∧ brother b = Some i;
  ok_open a o : o ∈ X a ↔ ∃ i e, es !! i = Some e ∧ open_add a o e;
  ok_last a o i e k e' : es !! i = Some e → open_add a o e → es !! k = Some e' → obj e' = o → ev_type e' ≠ Change → (k ≤ i)%nat
}.

(** Later events: the old ones may have got brothers among the new ones. *)
Definition later (es es' : list event) : Prop :=
  (length es ≤ length es')%nat ∧
  ∀ i e, es !! i = Some e → ∃ e', es' !! i = Some e' ∧ ev_id e' = ev_id e ∧ ev_type e' = ev_type e ∧ obj e' = obj e ∧
    ev_app e' = ev_app e ∧ ev_hash e' = ev_hash e ∧
    (brother e' = brother e ∨ brother e = None ∧ ∃ j, brother e' = Some j ∧ (length es ≤ j)%nat).

Lemma later_refl es : later es es.
Proof. split; [lia |]. intros i e He. exists e. split_and!; auto. Qed.

Lemma later_trans es1 es2 es3 : later es1 es2 → later es2 es3 → later es1 es3.
Proof.
  intros [L1 H1] [L2 H2]. split; [lia |]. intros i e He. destruct (H1 i e He) as (e2 & He2 & E1 & E2 & E3 & E4 & E5 & B1).
  destruct (H2 i e2 He2) as (e3 & He3 & F1 & F2 & F3 & F4 & F5 & B2). exists e3. split_and!; [done | congruence .. |].
  destruct B1 as [B1 | (B1 & j & Bj & Hj)], B2 as [B2 | (B2 & j2 & Bj2 & Hj2)].
  - left. congruence.
  - right. split; [congruence |]. exists j2. split; [done | lia].
  - right. split; [done |]. exists j. split; [congruence | done].
  - congruence.
Qed.

Section Adding.
Context {es : list event} {X : objects} (Hok : events_ok es X).

(** The events before the new one; [i] is its brother. *)
Definition with_event (i : option nat) (ev : event) : list event :=
  match i with Some i => alter (set_brother (length es)) i es ++ [ev] | None => es ++ [ev] end.

Lemma with_event_old i ev k e :
  es !! k = Some e → with_event i ev !! k = Some (if decide (i = Some k) then set_brother (length es) e else e).
Proof.
  intros He. pose proof (lookup_lt_Some _ _ _ He) as Hk. destruct i as [i|]; cbn [with_event].
  - rewrite lookup_app_l by (by rewrite length_alter). destruct (decide (Some i = Some k)) as [[= ->] | Hne].
    + by rewrite list_lookup_alter_eq, He.
    + rewrite list_lookup_alter_ne; [done |]. congruence.
  - by rewrite lookup_app_l, decide_False.
Qed.

Lemma with_event_new i ev : with_event i ev !! length es = Some ev.
Proof.
  assert (A : ∀ l : list event, length l = length es → (l ++ [ev]) !! length es = Some ev).
  { intros l Hl. rewrite lookup_app_r by lia. by rewrite <- Hl, Nat.sub_diag. }
  destruct i; apply A; [apply length_alter | done].
Qed.

Lemma length_with_event i ev : length (with_event i ev) = S (length es).
Proof. destruct i; cbn [with_event]; rewrite length_app, ?length_alter; cbn; lia. Qed.

Lemma with_event_inv i ev k e' :
  with_event i ev !! k = Some e' →
  (∃ e, es !! k = Some e ∧ e' = if decide (i = Some k) then set_brother (length es) e else e) ∨ (k = length es ∧ e' = ev).
Proof.
  intros H. pose proof (lookup_lt_Some _ _ _ H) as Hk. rewrite length_with_event in Hk.
  destruct (decide (k = length es)) as [-> | Hne].
  - right. split; [done |]. rewrite with_event_new in H. congruence.
  - left. destruct (lookup_lt_is_Some_2 es k) as [e He]; [lia |]. exists e. split; [done |].
    rewrite (with_event_old i ev k e He) in H. congruence.
Qed.

Lemma later_with_event i ev :
  (∀ k, i = Some k → ∃ e, es !! k = Some e ∧ brother e = None) → later es (with_event i ev).
Proof.
  intros Hi. split; [rewrite length_with_event; lia |]. intros k e He. rewrite (with_event_old i ev k e He).
  eexists. split; [reflexivity |]. destruct (decide (i = Some k)) as [-> |]; cbn; [| by split_and!; auto].
  split_and!; try done. right. destruct (Hi k eq_refl) as (e' & He' & Hb). split; [congruence |]. by exists (length es).
Qed.

Definition fresh_event (ty : event_type) (o : N) (a : str) (ev : event) : Prop :=
  ev_id ev = (N.of_nat (length es) + 1)%N ∧ ev_type ev = ty ∧ obj ev = o ∧ ev_app ev = a.

(** An addition or a change. *)
Lemma plain_ok ty o a ev :
  ty ≠ Delete → op_fits X (Report 0 ty o a) → fresh_event ty o a ev → brother ev = None →
  events_ok (with_event None ev) (tell_op X (Report 0 ty o a)).
Proof.
  intros Hty Hfit (Hid & Ht & Ho & Ha) Hb.
  assert (O : ∀ b p i e, with_event None ev !! i = Some e → open_add b p e →
            (es !! i = Some e ∧ open_add b p e) ∨ (i = length es ∧ e = ev ∧ ty = Add ∧ p = o ∧ b = a)).
  { intros b p i e [(e0 & He & ->) | [-> ->]]%with_event_inv Hop; [rewrite decide_False in Hop |- * by done; by left |].
    right. destruct Hop as (H1 & H2 & H3 & _). split_and!; congruence. }
  split.
  - intros i e [(e0 & He & ->) | [-> ->]]%with_event_inv; [rewrite decide_False by done; by apply (ok_ids _ _ Hok) | done].
  - intros j e [(e0 & He & ->) | [-> ->]]%with_event_inv Hd; [| congruence]. rewrite decide_False in Hd |- * by done.
    destruct (ok_delete _ _ Hok j e0 He Hd) as (i & b & H1 & H2 & H3). exists i, b. split; [done |]. split; [| done].
    by rewrite (with_event_old None ev i b H2), decide_False.
  - intros i e j [(e0 & He & ->) | [-> ->]]%with_event_inv Hd Hbr; [| congruence]. rewrite decide_False in Hd, Hbr |- * by done.
    destruct (ok_add _ _ Hok i e0 j He Hd Hbr) as (b & H2 & H3). exists b. split; [| done].
    by rewrite (with_event_old None ev j b H2), decide_False.
  - intros b p. cbn [tell_op]. trans ((ty = Add ∧ b = a ∧ p = o) ∨ p ∈ X b).
    + destruct (decide (b = a)) as [-> |]; [| naive_solver]. destruct ty; cbn [tell_object]; [| done | naive_solver].
      rewrite elem_of_union, elem_of_singleton. naive_solver.
    + rewrite (ok_open _ _ Hok b p). split.
      * intros [(E1 & -> & ->) | (i & e & He & Hop)].
        -- exists (length es), ev. split; [apply with_event_new |]. repeat split; congruence.
        -- exists i, e. split; [| done]. by rewrite (with_event_old None ev i e He), decide_False.
      * intros (i & e & He & Hop). destruct (O b p i e He Hop) as [[He' _] | (_ & _ & E1 & E2 & E3)]; [right; by exists i, e | by left].
  - intros b p i e k e' He Hop Hk Hp Hc. apply with_event_inv in Hk as [(e0 & He0 & ->) | [-> ->]].
    + rewrite decide_False in Hp, Hc by done. destruct (O b p i e He Hop) as [[He' _] | (-> & _)].
      * by apply (ok_last _ _ Hok b p i e k e0).
      * apply lookup_lt_Some in He0. lia.
    + destruct (O b p i e He Hop) as [[He' _] | (-> & _)]; [| done]. exfalso. destruct ty; [| done | congruence].
      cbn [op_fits] in Hfit. apply (Hfit b). rewrite <- Ho, Hp. apply (ok_open _ _ Hok). by exists i, e.
Qed.

(** A deletion; [i] is where the object was added. *)
Lemma delete_ok o a ev i e :
  es !! i = Some e → open_add a o e → fresh_event Delete o a ev → brother ev = Some i →
  events_ok (with_event (Some i) ev) (tell_op X (Report 0 Delete o a)).
Proof.
  intros Hi Hopen (Hid & Ht & Ho & Ha) Hb. destruct (Hopen) as (Hty & Hob & Hap & Hbr).
  assert (Hlt : (i < length es)%nat) by by eapply lookup_lt_Some.
  assert (U : ∀ b p k e', es !! k = Some e' → open_add b p e' → p = o → k = i).
  { intros b p k e' Hk Hop ->. assert (k ≤ i)%nat.
    { apply (ok_last _ _ Hok a o i e k e'); [done | done | done | by destruct Hop as (_ & ? & _) |]. destruct Hop as (-> & _). done. }
    assert (i ≤ k)%nat; [| lia]. by apply (ok_last _ _ Hok b o k e' i e); [.. | rewrite Hty]. }
  assert (O : ∀ b p k e', with_event (Some i) ev !! k = Some e' → open_add b p e' → es !! k = Some e' ∧ open_add b p e' ∧ p ≠ o).
  { intros b p k e' [(e0 & He & ->) | [-> ->]]%with_event_inv Hop; [| destruct Hop as (H1 & _); congruence].
    destruct (decide (Some i = Some k)) as [[= <-] | Hne]; [by destruct Hop as (_ & _ & _ & ?) |].
    split_and!; [done | done |]. intros ->. apply Hne. f_equal. symmetry. by apply (U b o k e0). }
  split.
  - intros k e' [(e0 & He & ->) | [-> ->]]%with_event_inv; [| done]. destruct (decide _); exact (ok_ids _ _ Hok k e0 He).
  - intros j e' [(e0 & He & ->) | [-> ->]]%with_event_inv Hd.
    + destruct (decide (Some i = Some j)) as [[= <-] | Hne]; [cbn in Hd; congruence |].
      destruct (ok_delete _ _ Hok j e0 He Hd) as (k & b & H1 & H2 & H3 & H4 & H5 & H6). exists k, b. split; [done |].
      rewrite (with_event_old (Some i) ev k b H2), decide_False; [done |]. intros [= <-]. congruence.
    + exists i, (set_brother (length es) e). rewrite (with_event_old (Some i) ev i e Hi), decide_True by done. cbn. split_and!; congruence.
  - intros k e' j [(e0 & He & ->) | [-> ->]]%with_event_inv Hd Hbr'; [| congruence].
    destruct (decide (Some i = Some k)) as [[= <-] | Hne].
    + cbn in Hbr'. injection Hbr' as <-. exists ev. split; [apply with_event_new |]. cbn. assert (e0 = e) as -> by congruence. split_and!; congruence.
    + destruct (ok_add _ _ Hok k e0 j He Hd Hbr') as (b & H2 & H3 & H4). exists b. split; [| done].
      rewrite (with_event_old (Some i) ev j b H2), decide_False; [done |]. intros [= <-]. congruence.
  - intros b p. cbn [tell_op tell_object]. trans (p ∈ X b ∧ p ≠ o).
    + destruct (decide (b = a)) as [-> | Hne]; [rewrite elem_of_difference, elem_of_singleton; done |].
      split; [| by intros [? _]]. intros Hp. split; [done |]. intros ->. apply (ok_open _ _ Hok) in Hp as (k & e' & Hk & Hop).
      assert (k = i) as -> by (by apply (U b o k e')). destruct Hop as (_ & _ & ? & _). congruence.
    + rewrite (ok_open _ _ Hok b p). split.
      * intros [(k & e' & Hk & Hop) Hne]. exists k, e'. split; [| done]. rewrite (with_event_old (Some i) ev k e' Hk), decide_False; [done |].
        intros [= <-]. destruct Hop as (_ & ? & _). congruence.
      * intros (k & e' & Hk & Hop). destruct (O b p k e' Hk Hop) as (H1 & H2 & H3). split; [by exists k, e' | done].
  - intros b p k e' k2 e2 Hk Hop Hk2 Hp Hc. destruct (O b p k e' Hk Hop) as (H1 & H2 & H3).
    apply with_event_inv in Hk2 as [(e0 & He0 & ->) | [-> ->]]; [| congruence].
    destruct (decide _) as [[= <-] | Hne]; [cbn in Hp; congruence |]. by apply (ok_last _ _ Hok b p k e' k2 e0).
Qed.
End Adding.

(** ** Polls *)

Definition overlapped (es : list event) (last : N) (e : event) : bool :=
  match ev_type e with
  | Add => bool_decide (is_Some (brother e))
  | Delete => match brother e ≫= λ i, es !! i with None => true | Some b => negb (ev_id b <=? last)%N end
  | Change => false
  end.

Definition sent (es : list event) (hash_map last : N) (e : event) : bool :=
  negb (N.land (ev_hash e) hash_map =? 0)%N && (last <? ev_id e)%N && negb (overlapped es last e).

Definition of_app (a : str) (l : list event) : list event := filter (λ e, ev_app e = a) l.

Lemma collect_spec m hash_map last (B : N) l : ∀ result le,
  (∀ e, e ∈ l → checkOverlap m e last = Ok (overlapped (events m) last e) ∧ (ev_id e ≤ B)%N) →
  (le = 0 ∨ last < le)%N → (le ≤ B)%N → (last ≤ B)%N →
  ∃ n r, collect m hash_map last l result le = Ok (n, r) ∧
    (∀ a, default [] (r !! a) = default [] (result !! a) ++ of_app a (List.filter (sent (events m) hash_map last) l)) ∧
    (last ≤ n)%N ∧ (le ≤ n)%N ∧ (n ≤ B)%N ∧ ∀ e, e ∈ l → sent (events m) hash_map last e = true → (ev_id e ≤ n)%N.
Proof.
  induction l as [|e l IH]; intros result le Hl Hle HB HlB; cbn [collect].
  - exists (if (le =? 0)%N then last else le), result. split; [done |]. split; [intros a; by rewrite app_nil_r |].
    destruct (N.eqb_spec le 0); repeat (split; [lia |]); intros x Hx; by apply not_elem_of_nil in Hx.
  - destruct (Hl e) as [Hc Hb]; [constructor |]. assert (Hl' : ∀ x, x ∈ l → checkOverlap m x last = Ok (overlapped (events m) last x) ∧ (ev_id x ≤ B)%N)
      by (intros x Hx; apply Hl; by constructor).
    cbn [List.filter].
    destruct (negb _ && (last <? ev_id e)%N) eqn:E1; [rewrite Hc; cbn [mbind res_bind]; destruct (overlapped _ last e) eqn:E2 |].
    + assert (Es : sent (events m) hash_map last e = false) by (unfold sent; by rewrite E1, E2).
      destruct (IH result le Hl' Hle HB HlB) as (n & r & E & H1 & H2 & H3 & H4 & H5). exists n, r. rewrite Es.
      split_and!; try done. intros x [-> | Hx]%elem_of_cons; [by rewrite Es | by apply H5].
    + assert (Es : sent (events m) hash_map last e = true) by (unfold sent; by rewrite E1, E2).
      apply andb_true_iff in E1 as [_ E1%N.ltb_lt].
      edestruct (IH (<[ev_app e := default [] (result !! ev_app e) ++ [e]]> result) (if (le <? ev_id e)%N then ev_id e else le))
        as (n & r & E & H1 & H2 & H3 & H4 & H5); [done | destruct (N.ltb_spec le (ev_id e)); lia | by destruct (N.ltb_spec le (ev_id e)) | done |].
      exists n, r. rewrite Es. split; [done |]. split.
      * intros a. rewrite H1. unfold of_app. rewrite filter_cons. destruct (decide (ev_app e = a)) as [<- | Hne].
        -- rewrite lookup_insert_eq. cbn. by rewrite <- app_assoc.
        -- by rewrite lookup_insert_ne.
      * split_and!; [done | destruct (N.ltb_spec le (ev_id e)); lia | done |].
        intros x [-> | Hx]%elem_of_cons; [destruct (N.ltb_spec le (ev_id e)); lia | by apply H5].
    + assert (Es : sent (events m) hash_map last e = false) by (unfold sent; by rewrite E1).
      destruct (IH result le Hl' Hle HB HlB) as (n & r & E & H1 & H2 & H3 & H4 & H5). exists n, r. rewrite Es.
      split_and!; try done. intros x [-> | Hx]%elem_of_cons; [by rewrite Es | by apply H5].
Qed.

(** What becomes of one object when events are taken. *)
Definition replay (K : gset N) (D : list event) : gset N := fold_left (λ X e, tell_object (ev_type e) (obj e) X) D K.

Lemma replay_in o D : ∀ K, (∀ e, e ∈ D → obj e = o → ev_type e ≠ Delete) → o ∈ K → o ∈ replay K D.
Proof.
  induction D as [|e D IH]; intros K HD HK; [done |]. apply IH; [intros x Hx; apply HD; by constructor |].
  specialize (HD e (list_elem_of_here _ _)). destruct (ev_type e); cbn [tell_object]; [set_solver | | done].
  apply elem_of_difference. split; [done |]. rewrite elem_of_singleton. intros ->. by apply HD.
Qed.

Lemma replay_added o D1 e D2 K :
  ev_type e = Add → obj e = o → (∀ x, x ∈ D2 → obj x = o → ev_type x ≠ Delete) → o ∈ replay K (D1 ++ e :: D2).
Proof.
  intros Ht Ho HD. unfold replay. rewrite fold_left_app. cbn [fold_left]. apply replay_in; [done |]. rewrite Ht. cbn. set_solver.
Qed.

Lemma replay_out o D : ∀ K, (∀ e, e ∈ D → obj e = o → ev_type e ≠ Add) →
  o ∈ replay K D → o ∈ K ∧ ∀ e, e ∈ D → obj e = o → ev_type e ≠ Delete.
Proof.
  induction D as [|e D IH]; intros K HD HK; [split; [done |]; by intros e ?%not_elem_of_nil |].
  destruct (IH (tell_object (ev_type e) (obj e) K)) as [H1 H2]; [intros x Hx; apply HD; by constructor | done |].
  specialize (HD e (list_elem_of_here _ _)). split.
  - destruct (ev_type e); cbn [tell_object] in H1; [set_solver | set_solver | done].
  - intros x [-> | Hx]%elem_of_cons Ho; [| by apply H2]. intros Ht. rewrite Ht in H1. cbn in H1. set_solver.
Qed.

Lemma in_of_app a P l e : e ∈ of_app a (List.filter P l) ↔ ev_app e = a ∧ P e = true ∧ e ∈ l.
Proof. unfold of_app. rewrite list_elem_of_filter, !list_elem_of_In, filter_In. naive_solver. Qed.

(** What the client knows was so at its last poll, when there were [es0]. *)
Inductive client_ok (wanted : str → Prop) (es : list event) (c : client) : Prop :=
| Client_ok es0 X0 :
    events_ok es0 X0 → later es0 es → (last_seen c ≤ N.of_nat (length es0))%N →
    (∀ a, wanted a → known c a = X0 a ∧ ∀ o i e, es0 !! i = Some e → open_add a o e → (ev_id e ≤ last_seen c)%N) →
    client_ok wanted es c.

Section Asking.
Context {es es0 : list event} {X X0 : objects} (Hok : events_ok es X) (Hok0 : events_ok es0 X0) (Hlater : later es0 es).
Context {last hash_map : N} {a : str}.
Context (Hhash : ∀ e, e ∈ es → ev_app e = a → N.land (ev_hash e) hash_map ≠ 0%N).
Context (Hopen : ∀ o i e, es0 !! i = Some e → open_add a o e → (ev_id e ≤ last)%N).
Context (Hlast : (last ≤ N.of_nat (length es0))%N).

(** The events of the answer for the application. *)
Definition answer : list event := of_app a (List.filter (sent es hash_map last) es).

Lemma sent_spec e : e ∈ es → ev_app e = a → sent es hash_map last e = (last <? ev_id e)%N && negb (overlapped es last e).
Proof. intros He Ha. unfold sent. by rewrite (proj2 (N.eqb_neq _ _)) by by apply Hhash. Qed.

(** What is in the answer is gone from what was known. *)
Lemma answer_gone o : o ∈ replay (X0 a) answer → o ∈ X a.
Proof.
  intros Ho. destruct (decide (o ∈ X a)) as [| Hn]; [done | exfalso]. apply replay_out in Ho as [Ho Hdel].
  2: { intros e (Hap & Hs & Hin)%in_of_app Hob Hty. apply Hn, (ok_open _ _ Hok). rewrite (sent_spec e Hin Hap) in Hs.
       apply list_elem_of_lookup in Hin as [i He]. exists i, e. split; [done |]. split_and!; try done.
       unfold overlapped in Hs. rewrite Hty in Hs. destruct (brother e); [| done]. by rewrite andb_false_r in Hs. }
  apply (ok_open _ _ Hok0) in Ho as (i & e & He & Hop). destruct (Hop) as (Hty & Hob & Hap & Hbr).
  destruct Hlater as [_ Hl]. destruct (Hl i e He) as (e' & He' & Eid & Ety & Eob & Eap & _ & [Eb | (_ & j & Eb & Hj)]).
  { apply Hn, (ok_open _ _ Hok). exists i, e'. split; [done |]. split_and!; congruence. }
  destruct (ok_add _ _ Hok i e' j He' ltac:(congruence) Eb) as (b & Hb & Hbt & Hbo & Hba & Hbb).
  assert (Hin : b ∈ es) by (by eapply list_elem_of_lookup_2). assert (Hapb : ev_app b = a) by congruence.
  apply (Hdel b); [| congruence | done]. apply in_of_app. split_and!; [done | | done].
  rewrite (sent_spec b Hin Hapb). unfold overlapped. rewrite Hbt, Hbb. cbn. rewrite He'.
  rewrite (proj2 (N.ltb_lt _ _)) by (rewrite (ok_ids _ _ Hok j b Hb); lia).
  by rewrite (proj2 (N.leb_le _ _)) by (rewrite Eid; by apply (Hopen o i e)).
Qed.

(** What there is was known or is in the answer. *)
Lemma answer_there o : o ∈ X a → o ∈ replay (X0 a) answer.
Proof.
  intros Ho. apply (ok_open _ _ Hok) in Ho as (i & e & He & Hop). destruct (Hop) as (Hty & Hob & Hap & Hbr).
  assert (Hafter : ∀ k x, es !! k = Some x → obj x = o → ev_type x = Delete → (k ≤ i)%nat).
  { intros k x Hk Hxo Hxt. apply (ok_last _ _ Hok a o i e k x); [done | done | done | done | by rewrite Hxt]. }
  assert (Hin : e ∈ es) by (by eapply list_elem_of_lookup_2).
  destruct (decide (last < ev_id e)%N) as [Hlt | Hge].
  - assert (Hs : sent es hash_map last e = true).
    { rewrite (sent_spec e Hin Hap). unfold overlapped. by rewrite Hty, Hbr, (proj2 (N.ltb_lt _ _)). }
    unfold answer. pose proof (take_drop_middle es i e He) as Hsplit. rewrite <- Hsplit at 2. unfold of_app.
    rewrite List.filter_app, filter_app. cbn [List.filter]. rewrite Hs, filter_cons, decide_True by done.
    apply replay_added; [done | done |]. intros x Hx Hxo Hxt.
    apply in_of_app in Hx as (_ & _ & [k Hk]%list_elem_of_lookup). rewrite lookup_drop in Hk.
    specialize (Hafter _ x Hk Hxo Hxt). lia.
  - apply replay_in.
    + intros x (Hxa & Hs & Hx)%in_of_app Hxo Hxt. rewrite (sent_spec x Hx Hxa) in Hs. apply list_elem_of_lookup in Hx as [k Hk].
      specialize (Hafter k x Hk Hxo Hxt). apply andb_true_iff in Hs as [Hs%N.ltb_lt _].
      rewrite (ok_ids _ _ Hok k x Hk) in Hs. rewrite (ok_ids _ _ Hok i e He) in Hge. lia.
    + apply (ok_open _ _ Hok0). destruct Hlater as [Hlen Hl]. rewrite (ok_ids _ _ Hok i e He) in Hge.
      destruct (lookup_lt_is_Some_2 es0 i) as [e0 He0]; [lia |]. exists i, e0. split; [done |].
      destruct (Hl i e0 He0) as (e' & He' & _ & Ety & Eob & Eap & _ & Eb). assert (e' = e) as -> by congruence.
      split_and!; [congruence .. |]. destruct Eb as [Eb | [Eb _]]; congruence.
Qed.
End Asking.

Lemma checkOverlap_ok m X last e :
  events_ok (events m) X → e ∈ events m → checkOverlap m e last = Ok (overlapped (events m) last e).
Proof.
  intros Hok [i He]%list_elem_of_lookup. unfold checkOverlap, overlapped. destruct (ev_type e) eqn:Et; try done.
  destruct (ok_delete _ _ Hok i e He Et) as (j & b & -> & Hb & _). cbn. by rewrite Hb.
Qed.

Lemma poll_ok (m : event_manager) X hash_map wanted c :
  events_ok (events m) X → client_ok wanted (events m) c →
  (∀ e, e ∈ events m → wanted (ev_app e) → N.land (ev_hash e) hash_map ≠ 0%N) →
  ∃ r, timeout m hash_map (last_seen c) = Ok r ∧ client_ok wanted (events m) (take_answer r c) ∧
    (∀ a, wanted a → known (take_answer r c) a = X a) ∧
    ∀ a, (∀ e, e ∈ events m → ev_app e = a → N.land (ev_hash e) hash_map = 0%N) → known (take_answer r c) a = known c a.
Proof.
  intros Hok [es0 X0 Hok0 Hlater Hlast Hknown] Hhash.
  assert (Hid : ∀ e, e ∈ events m → (ev_id e ≤ N.of_nat (length (events m)))%N).
  { intros e [i He]%list_elem_of_lookup. rewrite (ok_ids _ _ Hok i e He). apply lookup_lt_Some in He. lia. }
  destruct (collect_spec m hash_map (last_seen c) (N.of_nat (length (events m))) (events m) ∅ 0) as (n & r & E & H1 & H2 & _ & H4 & H5).
  { intros e He. split; [by eapply checkOverlap_ok | by apply Hid]. }
  { by left. } { lia. } { destruct Hlater as [Hlen _]. lia. }
  assert (A : ∀ a, default [] (r !! a) = of_app a (List.filter (sent (events m) hash_map (last_seen c)) (events m))).
  { intros a. by rewrite H1, lookup_empty. }
  assert (K : ∀ a, wanted a → known (take_answer (n, r) c) a = X a).
  { intros a Ha. cbn [take_answer known snd]. rewrite A. destruct (Hknown a Ha) as [-> Hopen].
    assert (Hh : ∀ e, e ∈ events m → ev_app e = a → N.land (ev_hash e) hash_map ≠ 0%N) by (intros e He <-; by apply Hhash).
    apply set_eq. intros o. split; [apply (answer_gone Hok Hok0 Hlater Hh Hopen Hlast) | apply (answer_there Hok Hok0 Hlater Hh Hlast)]. }
  exists (n, r). unfold timeout. split_and!; [done | | done |].
  - apply (Client_ok _ _ _ (events m) X); [done | apply later_refl | done |].
    intros a Ha. split; [by apply K |]. cbn [take_answer last_seen fst]. intros o i e He (Hty & Hob & Hap & Hbr).
    destruct (decide (last_seen c < ev_id e)%N) as [Hlt | Hge]; [| lia]. assert (Hin : e ∈ events m) by (by eapply list_elem_of_lookup_2).
    apply H5; [done |]. unfold sent, overlapped. rewrite Hty, Hbr, (proj2 (N.eqb_neq _ _)) by (apply Hhash; [done | by rewrite Hap]).
    by rewrite (proj2 (N.ltb_lt _ _)).
  - intros a Ha. cbn [take_answer known snd]. rewrite A.
    destruct (of_app a _) as [|e D] eqn:ED; [done | exfalso].
    assert (He : e ∈ of_app a (List.filter (sent (events m) hash_map (last_seen c)) (events m))) by (rewrite ED; constructor).
    apply in_of_app in He as (Hap & Hs & Hin). unfold sent in Hs. by rewrite (Ha e Hin Hap) in Hs.
Qed.

(** ** Registration *)

Definition register_all (apps : list (str * bool)) (l : rest_listener) : rest_listener :=
  fold_left (λ l x, registerRestHandler l (fst x) (snd x)) apps l.

(** The number of applications with events. *)
Definition eventables (apps : list (str * bool)) : nat := length (List.filter snd apps).

(** Applications with events have hashes of one bit, others have none. *)
Record registered_ok (k : nat) (l : rest_listener) : Prop := {
  rg_hash : cur_hash l = wrap 32 (2 ^ N.of_nat k);
  rg_each a h : rest_handlers l !! a = Some h →
    restName h = a ∧ (if eventable h then registered h = true ∧ ∃ j, (j < k)%nat ∧ getHash h = (2 ^ N.of_nat j)%N else getHash h = 0%N);
  rg_apart a b h : rest_handlers l !! a = Some h → eventable h = true →
    ∀ h', rest_handlers l !! b = Some h' → getHash h' = getHash h → a = b
}.

Lemma wrap_double k : wrap 32 (wrap 32 (2 ^ N.of_nat k) * 2) = wrap 32 (2 ^ N.of_nat (S k)).
Proof.
  unfold wrap. rewrite !N.land_ones, N.Div0.mul_mod_idemp_l. f_equal. rewrite Nat2N.inj_succ, N.pow_succ_r'. lia.
Qed.

Lemma land_pow2 i j : (N.land (2 ^ i) (2 ^ j) =? 0)%N = negb (i =? j)%N.
Proof.
  destruct (N.eqb_spec i j) as [<- | Hne]; cbn [negb].
  - rewrite N.land_diag. apply N.eqb_neq, N.pow_nonzero. lia.
  - apply N.eqb_eq, N.bits_inj. intros n. rewrite N.land_spec, !N.pow2_bits_eqb, N.bits_0.
    destruct (N.eqb_spec i n), (N.eqb_spec j n); [congruence | done ..].
Qed.

Lemma register_step k l name ev :
  rest_handlers l !! name = None → (k + (if ev : bool then 1 else 0) ≤ 32)%nat → registered_ok k l →
  registered_ok (k + (if ev then 1 else 0)) (registerRestHandler l name ev).
Proof.
  intros Hnew Hk [H1 H2 H3]. unfold registerRestHandler. destruct ev; cbn in Hk |- *.
  - assert (Hc : cur_hash l = (2 ^ N.of_nat k)%N).
    { rewrite H1. apply wrap_id. apply N.pow_lt_mono_r; lia. }
    split; cbn [rest_handlers cur_hash].
    + rewrite H1, wrap_double. do 2 f_equal. lia.
    + intros a h [[<- <-] | [Hne Ha]]%lookup_insert_Some.
      * split; [done |]. cbn. split; [done |]. exists k. split; [lia | done].
      * destruct (H2 a h Ha) as [Hn Hh]. split; [done |]. destruct (eventable h); [| done]. destruct Hh as (Hr & j & Hj & E).
        split; [done |]. exists j. split; [lia | done].
    + intros a b h Ha Hev h' Hb E. apply lookup_insert_Some in Ha as [[<- <-] | [Hna Ha]], Hb as [[<- <-] | [Hnb Hb]].
      * done.
      * destruct (H2 b h' Hb) as [_ Hh]. cbn in E. rewrite Hc in E. exfalso. destruct (eventable h').
        -- destruct Hh as (_ & j & Hj & Ej). rewrite Ej in E. apply N.pow_inj_r in E; lia.
        -- rewrite Hh in E. symmetry in E. by apply N.pow_nonzero in E.
      * destruct (H2 a h Ha) as [_ Hh]. rewrite Hev in Hh. destruct Hh as (_ & j & Hj & Ej). cbn in E. rewrite Hc, Ej in E.
        apply N.pow_inj_r in E; lia.
      * by apply (H3 a b h Ha Hev h').
  - rewrite Nat.add_0_r. split; cbn [rest_handlers cur_hash]; [done | |].
    + intros a h [[<- <-] | [_ Ha]]%lookup_insert_Some; [done | by apply H2].
    + intros a b h Ha Hev h' Hb E. apply lookup_insert_Some in Ha as [[<- <-] | [Hna Ha]]; [done |].
      apply lookup_insert_Some in Hb as [[<- <-] | [Hnb Hb]]; [| by apply (H3 a b h Ha Hev h')].
      cbn in E. destruct (H2 a h Ha) as [_ Hh]. rewrite Hev in Hh. destruct Hh as (_ & j & _ & Ej). rewrite Ej in E. symmetry in E.
      by apply N.pow_nonzero in E.
Qed.

Lemma register_all_ok apps : ∀ k l,
  NoDup (map fst apps) → (∀ a, a ∈ map fst apps → rest_handlers l !! a = None) → (k + eventables apps ≤ 32)%nat → registered_ok k l →
  registered_ok (k + eventables apps) (register_all apps l) ∧
  em (register_all apps l) = em l ∧
  (∀ a, a ∉ map fst apps → rest_handlers (register_all apps l) !! a = rest_handlers l !! a) ∧
  ∀ a ev, (a, ev) ∈ apps → ∃ h, rest_handlers (register_all apps l) !! a = Some h ∧ eventable h = ev.
Proof.
  induction apps as [|[a ev] apps IH]; intros k l Hnd Hnew Hk Hl.
  - cbn. rewrite Nat.add_0_r. split_and!; [done | done | done |]. by intros a ev ?%not_elem_of_nil.
  - apply NoDup_cons in Hnd as [Ha Hnd]. cbn [fst] in Ha.
    assert (Hc : (k + eventables ((a, ev) :: apps) = k + (if ev then 1 else 0) + eventables apps)%nat).
    { unfold eventables. cbn. destruct ev; cbn; lia. }
    rewrite Hc in Hk |- *. change (register_all ((a, ev) :: apps) l) with (register_all apps (registerRestHandler l a ev)).
    assert (R : ∀ b, b ≠ a → rest_handlers (registerRestHandler l a ev) !! b = rest_handlers l !! b).
    { intros b Hne. unfold registerRestHandler. by destruct ev; cbn [rest_handlers]; rewrite lookup_insert_ne. }
    destruct (IH (k + (if ev then 1 else 0))%nat (registerRestHandler l a ev) Hnd) as (H1 & H2 & H3 & H4).
    + intros b Hb. rewrite R; [| intros ->; done]. apply Hnew. by constructor.
    + done.
    + apply register_step; [apply Hnew; constructor | lia | done].
    + split_and!; [done | rewrite H2; by destruct ev | |].
      * intros b Hb. cbn [map fst] in Hb. apply not_elem_of_cons in Hb as [Hne Hb]. rewrite H3 by done. by apply R.
      * intros b ev' [[= -> ->] | Hb]%elem_of_cons; [| by apply H4]. rewrite H3 by done. unfold registerRestHandler.
        destruct ev; cbn [rest_handlers]; rewrite lookup_insert_eq; by eexists.
Qed.

Lemma init_registered : registered_ok 0 init_listener.
Proof. split; [done | intros a h H | intros a b h H]; cbn in H; by apply lookup_empty_Some in H. Qed.

Lemma apps_map_spec l x ps : ∀ m,
  N.land x (fold_left (λ m a, match rest_handlers l !! a with None => m | Some h => N.lor m (getHash h) end) ps m) ≠ 0%N ↔
  N.land x m ≠ 0%N ∨ ∃ a h, a ∈ ps ∧ rest_handlers l !! a = Some h ∧ N.land x (getHash h) ≠ 0%N.
Proof.
  induction ps as [|a ps IH]; intros m; cbn [fold_left].
  - split; [by left |]. intros [? | (a & h & ?%not_elem_of_nil & _)]; done.
  - rewrite IH. destruct (rest_handlers l !! a) as [h|] eqn:E.
    + rewrite N.land_lor_distr_r. assert (L : N.lor (N.land x m) (N.land x (getHash h)) ≠ 0%N ↔
        N.land x m ≠ 0%N ∨ N.land x (getHash h) ≠ 0%N) by (rewrite N.lor_eq_0_iff; destruct (decide (N.land x m = 0%N)); tauto).
      rewrite L. split.
      * intros [[? | ?] | (b & hb & Hb & ? & ?)]; [by left | right; exists a, h; split; [constructor | done] |].
        right. exists b, hb. split; [by constructor | done].
      * intros [? | (b & hb & [-> | Hb]%elem_of_cons & ? & ?)]; [by left; left | left; right; congruence | right; by exists b, hb].
    + split.
      * intros [? | (b & hb & Hb & ? & ?)]; [by left |]. right. exists b, hb. split; [by constructor | done].
      * intros [? | (b & hb & [-> | Hb]%elem_of_cons & ? & ?)]; [by left | congruence | right; by exists b, hb].
Qed.

Lemma land_hash k l a h ps :
  registered_ok k l → rest_handlers l !! a = Some h → eventable h = true →
  N.land (getHash h) (apps_map l ps) ≠ 0%N ↔ a ∈ ps.
Proof.
  intros [_ H2 H3] Ha Hev. unfold apps_map. rewrite apps_map_spec, N.land_0_r.
  destruct (H2 a h Ha) as [_ Hh]. rewrite Hev in Hh. destruct Hh as (_ & j & _ & Ej). split.
  - intros [? | (b & hb & Hb & Eb & Hl)]; [done |]. replace a with b; [done |]. symmetry.
    apply (H3 a b h Ha Hev hb Eb). destruct (H2 b hb Eb) as [_ Hhb]. destruct (eventable hb).
    + destruct Hhb as (_ & i & _ & Ei). rewrite Ei, Ej in Hl |- *. apply N.eqb_neq in Hl. rewrite land_pow2 in Hl.
      apply negb_false_iff, N.eqb_eq in Hl. by rewrite Hl.
    + by rewrite Hhb, N.land_0_r in Hl.
  - intros Hin. right. exists a, h. split_and!; [done | done |]. rewrite N.land_diag, Ej. apply N.pow_nonzero. lia.
Qed.

(** ** Reports and polls together *)

Section Run.
Context {k : nat} {l0 : rest_listener} (Hreg : registered_ok k l0).

(** The application is registered and has events. *)
Definition has_events (a : str) : Prop := ∃ h, rest_handlers l0 !! a = Some h ∧ eventable h = true.

Record listener_ok (l : rest_listener) (X : objects) : Prop := {
  lo_handlers : rest_handlers l = rest_handlers l0;
  lo_events : events_ok (events (em l)) X;
  lo_last : last_event (em l) = N.of_nat (length (events (em l)));
  lo_hash e : e ∈ events (em l) → ∃ h, rest_handlers l0 !! ev_app e = Some h ∧ eventable h = true ∧ ev_hash e = getHash h
}.

Lemma findBrother_open es X a o i e : events_ok es X → es !! i = Some e → open_add a o e → findBrother es o = Some i.
Proof.
  intros Hok Hi Hop. destruct (Hop) as (Hty & Hob & _).
  destruct (findBrother_is_Some es o i e Hi Hob Hty) as [j Ej]. rewrite Ej. f_equal.
  destruct (findBrother_Some es o j Ej) as [(e' & Hj & Ho & Ht) Hl]. specialize (Hl i e Hi Hob Hty).
  assert (j ≤ i)%nat by (apply (ok_last _ _ Hok a o i e j e'); [done | done | done | done | by rewrite Ht]). lia.
Qed.

Lemma report_ok l X t ty o a :
  listener_ok l X → has_events a → op_fits X (Report t ty o a) → (N.of_nat (length (events (em l))) + 1 < 2 ^ 32)%N →
  ∃ l', report l t ty o a = Ok l' ∧ listener_ok l' (tell_op X (Report t ty o a)) ∧
    later (events (em l)) (events (em l')) ∧ length (events (em l')) = S (length (events (em l))).
Proof.
  intros [Lh Le Ll Lx] (h & Eh & Hev) Hfit Hlen. unfold report. rewrite Lh, Eh. unfold addEvent.
  destruct (rg_each _ _ Hreg a h Eh) as [Hn Hh]. rewrite Hev in Hh |- *. destruct Hh as (-> & j & _ & Ej). cbn [andb].
  unfold addToEventList. rewrite (proj2 (N.eqb_neq _ _)) by (rewrite Ej; apply N.pow_nonzero; lia).
  rewrite Ll, wrap_id by done. rewrite Hn. set (ev := Event (N.of_nat (length (events (em l))) + 1) t ty o (getHash h) None a).
  assert (W : ∀ i ev', (ev' = ev ∨ ∃ i, ev' = set_brother i ev) → events_ok (with_event (es := events (em l)) i ev') (tell_op X (Report t ty o a)) →
            (∀ k, i = Some k → ∃ e, events (em l) !! k = Some e ∧ brother e = None) →
            ∃ l', (em' ← Ok (EventManager (with_event (es := events (em l)) i ev') (ev_id ev)); Ok (RestListener (rest_handlers l0) (cur_hash l) em')) = Ok l' ∧
              listener_ok l' (tell_op X (Report t ty o a)) ∧ later (events (em l)) (events (em l')) ∧
              length (events (em l')) = S (length (events (em l)))).
  { intros i ev' Hev' Hok Hi. eexists. split; [reflexivity |]. cbn [em events]. split_and!; [| by apply later_with_event | apply length_with_event].
    split; cbn [rest_handlers em events last_event]; [done | done | |].
    - rewrite length_with_event. cbn. lia.
    - intros e [p Hp]%list_elem_of_lookup. apply with_event_inv in Hp as [(e0 & He0 & ->) | [_ ->]].
      + destruct (Lx e0) as (h' & H1 & H2 & H3); [by eapply list_elem_of_lookup_2 |]. destruct (decide _); by exists h'.
      + exists h. by destruct Hev' as [-> | [? ->]]. }
  destruct (decide (ty = Delete)) as [-> | Hne].
  - cbn [op_fits] in Hfit. apply (ok_open _ _ Le) in Hfit as (i & e & Hi & Hop). rewrite (findBrother_open _ X a o i e Le Hi Hop).
    destruct (W (Some i) (set_brother i ev)) as (l' & E & R); [right; by exists i | | | exists l'; split; [exact E | exact R]].
    + by apply (delete_ok Le o a (set_brother i ev) i e).
    + intros p [= <-]. exists e. split; [done |]. by destruct Hop as (_ & _ & _ & ?).
  - destruct (W None ev) as (l' & E & R); [by left | | done | exists l'; split; [by destruct ty | done]].
    apply (plain_ok Le ty o a ev); [done | by destruct ty | done | done].
Qed.

Definition reported (op : rest_op) : Prop := match op with Report _ _ _ a => has_events a | Poll => True end.

(** What the client asks for, and the rest. *)
Definition wanted (param : str) (a : str) : Prop := a ∈ split param "&" ∧ has_events a.
Definition unwanted (param : str) (a : str) : Prop := ¬ (a ∈ split param "&") ∧ has_events a.

Lemma listener_poll param l X c :
  listener_ok l X → client_ok (wanted param) (events (em l)) c →
  ∃ c', step param l c Poll = Ok (l, c') ∧ client_ok (wanted param) (events (em l)) c' ∧
    (∀ a, wanted param a → known c' a = X a) ∧ ∀ a, unwanted param a → known c' a = known c a.
Proof.
  intros [Lh Le Ll Lx] Hc. cbn [step]. unfold handle_timeout.
  assert (M : apps_map l (split param "&") = apps_map l0 (split param "&")) by (unfold apps_map; by rewrite Lh). rewrite M.
  destruct (poll_ok (em l) X (apps_map l0 (split param "&")) (wanted param) c Le Hc) as (r & -> & H1 & H2 & H3).
  - intros e He [Hw _]. destruct (Lx e He) as (h & Eh & Hev & ->). by apply (land_hash k l0 (ev_app e) h _ Hreg Eh Hev).
  - exists (take_answer r c). split_and!; [done | done | done |]. intros a [Hn _]. apply H3. intros e He <-.
    destruct (Lx e He) as (h & Eh & Hev & ->). destruct (N.eq_dec (N.land (getHash h) (apps_map l0 (split param "&"))) 0%N) as [| Hne]; [done |].
    by apply (land_hash k l0 (ev_app e) h _ Hreg Eh Hev) in Hne.
Qed.

Lemma run_ok param ops : ∀ l X c,
  listener_ok l X → client_ok (wanted param) (events (em l)) c → (∀ a, unwanted param a → known c a = ∅) →
  ops_fit X ops → Forall reported ops → (N.of_nat (length (events (em l))) + N.of_nat (length ops) < 2 ^ 32)%N →
  ∃ l' c', run param l c (ops ++ [Poll]) = Ok (l', c') ∧
    (∀ a, wanted param a → known c' a = fold_left tell_op ops X a) ∧ ∀ a, unwanted param a → known c' a = ∅.
Proof.
  induction ops as [|op ops IH]; intros l X c Hl Hc Hu Hfit Hrep Hlen.
  - destruct (listener_poll param l X c Hl Hc) as (c' & E & _ & H2 & H3). exists l, c'. split_and!; [| done |].
    + cbn [app run]. by rewrite E.
    + intros a Ha. rewrite H3 by done. by apply Hu.
  - destruct Hfit as [Hop Hfit]. apply Forall_cons_1 in Hrep as [Hr Hrep]. cbn [app run fold_left].
    destruct op as [t ty o a |].
    + destruct (report_ok l X t ty o a Hl Hr Hop) as (l' & E & Hl' & Hlater & Hlen'); [cbn in Hlen; lia |]. cbn [step]. rewrite E. cbn [mbind res_bind].
      apply IH; [done | | done | done | done | rewrite Hlen'; cbn in Hlen; lia].
      destruct Hc as [es0 X0 H1 H2 H3 H4]. apply (Client_ok _ _ _ es0 X0); [done | by apply later_trans with (events (em l)) | done | done].
    + destruct (listener_poll param l X c Hl Hc) as (c' & E & Hc' & _ & H3). rewrite E. cbn [mbind res_bind].
      apply IH; [done | done | | done | done | cbn in Hlen; lia]. intros a Ha. rewrite H3 by done. by apply Hu.
Qed.
End Run.

Lemma no_events_ok : events_ok [] (λ _, ∅).
Proof.
  split; try done. intros a o. split; [by intros ?%elem_of_empty |]. by intros (i & e & He & _).
Qed.

(** The listener and the client as they start. *)
Lemma started_ok apps param :
  NoDup (map fst apps) → (eventables apps ≤ 32)%nat →
  let l := register_all apps init_listener in
  registered_ok (0 + eventables apps) l ∧ (∀ a, (a, true) ∈ apps → has_events (l0 := l) a) ∧
  listener_ok (l0 := l) l (λ _, ∅) ∧ client_ok (wanted (l0 := l) param) (events (em l)) (Client (λ _, ∅) 0) ∧
  events (em l) = [].
Proof.
  intros Hnd Hk l. destruct (register_all_ok apps 0 init_listener Hnd) as (Hreg & Hem & _ & Hev);
    [intros a _; apply lookup_empty | done | apply init_registered |]. fold l in Hreg, Hem, Hev.
  split_and!; [done | by intros a Ha; apply (Hev a true Ha) | | | by rewrite Hem].
  - split; rewrite ?Hem; [done | apply no_events_ok | done |]. intros e He. by apply not_elem_of_nil in He.
  - rewrite Hem. apply (Client_ok _ _ _ [] (λ _, ∅)); [apply no_events_ok | apply later_refl | done |]. intros a _. split; [done |]. by intros o i e He.
Qed.

(** ** Double dots *)

(** Each run of dots is cut to one. *)
Fixpoint squeeze (path : str) : str :=
  match path with
  | a :: path' =>
      match path' with
      | b :: _ => if decide (a = "."%char ∧ b = "."%char) then squeeze path' else a :: squeeze path'
      | [] => [a]
      end
  | [] => []
  end.

Lemma find_dots_None path : find_dots path = None → squeeze path = path.
Proof.
  induction path as [|a [|b path] IH]; intros E; [done | done |].
  cbn [find_dots squeeze] in E, IH |- *. destruct (decide _); [done |]. rewrite IH; [done |]. by destruct (match path with _ => _ end).
Qed.

Lemma squeeze_cons a b path :
  squeeze (a :: b :: path) = if decide (a = "."%char ∧ b = "."%char) then squeeze (b :: path) else a :: squeeze (b :: path).
Proof. reflexivity. Qed.

Lemma find_dots_cons a b path :
  find_dots (a :: b :: path) = if decide (a = "."%char ∧ b = "."%char) then Some O else S <$> find_dots (b :: path).
Proof. reflexivity. Qed.

Lemma erase_head path : ∀ pos a, find_dots (a :: path) = Some pos → ∃ rest, erase_at pos (a :: path) = a :: rest.
Proof.
  destruct path as [|b path]; intros pos a; [done |]. rewrite find_dots_cons. destruct (decide _) as [[-> ->] | Hne].
  - intros [= <-]. by exists path.
  - destruct (find_dots (b :: path)) as [p|]; [| done]. intros [= <-]. by eexists.
Qed.

Lemma erase_dots_squeeze path : ∀ pos, find_dots path = Some pos →
  squeeze (erase_at pos path) = squeeze path ∧ length (erase_at pos path) = (length path - 1)%nat.
Proof.
  induction path as [|a path IH]; intros pos; [done |]. destruct path as [|b path]; [done |].
  rewrite find_dots_cons. destruct (decide (a = "."%char ∧ b = "."%char)) as [[-> ->] | Hne].
  - intros [= <-]. unfold erase_at. cbn [take drop app]. split; [by rewrite squeeze_cons, decide_True | cbn; lia].
  - destruct (find_dots (b :: path)) as [p|] eqn:E; [| done]. intros [= <-].
    destruct (IH p eq_refl) as [H1 H2]. destruct (erase_head path p b E) as [rest Er].
    assert (Ea : erase_at (S p) (a :: b :: path) = a :: b :: rest) by (rewrite <- Er; reflexivity). rewrite Er in H1, H2. rewrite Ea. split.
    + by rewrite !squeeze_cons, !decide_False, H1.
    + cbn [length] in H2 |- *. lia.
Qed.

Lemma erase_dots_ok n path : (length path < n)%nat → erase_dots n path = Ret (squeeze path).
Proof.
  revert path. induction n as [|n IH]; intros path Hn; [lia |]. cbn [erase_dots].
  destruct (find_dots path) as [pos|] eqn:E; [| by rewrite find_dots_None].
  destruct (erase_dots_squeeze path pos E) as [H1 H2]. rewrite IH; [by rewrite H1 |]. rewrite H2. destruct path; [done |]. cbn in Hn |- *. lia.
Qed.

Lemma squeeze_head a path : ∃ rest, squeeze (a :: path) = a :: rest.
Proof.
  revert a. induction path as [|b path IH]; intros a; [by exists [] |]. cbn [squeeze].
  destruct (decide _) as [[-> ->] | _]; [apply (IH "."%char) | by eexists].
Qed.

Lemma squeeze_single path before rest : squeeze path ≠ before ++ "."%char :: "."%char :: rest.
Proof.
  revert before. induction path as [|a path IH]; intros before E; [by destruct before |].
  destruct path as [|b path]; [by destruct before as [|? [|]] |]. rewrite squeeze_cons in E.
  destruct (decide _) as [? | Hne]; [by apply (IH before) |]. destruct before as [|c before].
  - destruct (squeeze_head b path) as [r Er]. rewrite Er in E. injection E as -> -> _. by apply Hne.
  - apply (IH before). cbn [app] in E. congruence.
Qed.

(** ** Properties *)


(** names of files.  The loop that erases double dots ends, within the
    length of the path, and what is opened below the directory of the web
    interface is the path with each run of dots cut to one dot, where no double
    dot is left. *)
Theorem path_sanitised (web_dir path : str) (n : nat) :
  (length path < n)%nat →
  file_name n web_dir path = Ret (web_dir ++ squeeze path ++ (if decide (squeeze path = lit "/") then lit "start.html" else [])) ∧
  ∀ before rest, squeeze path ≠ before ++ lit ".." ++ rest.
Proof.
  intros Hn. split; [unfold file_name; by rewrite erase_dots_ok |]. intros before rest. apply squeeze_single.
Qed.

(** a deletion of what was not added.  The brother is not found, and the
    null pointer is followed. *)
Theorem deleted_not_added (l : rest_listener) (h : handler) (t o : N) (a : str) :
  rest_handlers l !! a = Some h → eventable h = true → registered h = true → getHash h ≠ 0%N →
  (∀ e, e ∈ events (em l) → obj e = o → ev_type e ≠ Add) →
  report l t Delete o a = Throw Terminate.
Proof.
  intros E Hev Hr Hh Hn. unfold report, addEvent, addToEventList. rewrite E, Hev, Hr, (proj2 (N.eqb_neq _ _) Hh). cbn [andb].
  destruct (findBrother (events (em l)) o) as [i|] eqn:Ef; [| done].
  destruct (findBrother_Some _ _ _ Ef) as [(e & He & Ho & Ht) _]. destruct (Hn e); [by eapply list_elem_of_lookup_2 | done | done].
Qed.

(** ** Two applications and a client *)

Definition sample_apps : list (str * bool) := [(lit "switch-manager", true); (lit "flow", false); (lit "topology", true)].

Definition sample_ops : list rest_op :=
  [Report 1 Add 7 (lit "switch-manager"); Report 2 Add 8 (lit "topology"); Poll; Report 3 Delete 7 (lit "switch-manager");
   Report 4 Add 9 (lit "switch-manager"); Report 5 Delete 9 (lit "switch-manager"); Report 6 Add 7 (lit "switch-manager")].


Lemma path_sanitised_witness : file_name 20 (lit "web") (lit "/../..x...y") = Ret (lit "web/./.x.y").
Proof. rewrite (proj1 (path_sanitised (lit "web") (lit "/../..x...y") 20 ltac:(vm_compute; lia))). reflexivity. Defined.
