(* ===== verification/Controller.v ===== *)
(** * Controller: connections, messages and transactions, Controller.hh and
    .cc, OFMsgUnion, OFTransaction, SwitchConnection

    A connection of libfluid is a number, and which ones are alive an argument
    of what sends.  The bytes of a message are abstract; whether libfluid's
    classes read them, and what they read, are parameters.  A switch connection
    object is known by its datapath id.  The signals and the messages sent are
    lists, in order.

    [setup_pipeline]: what a switch does after it connected.
    [transactions_answered]: answers find their transaction.
    [controller_serves_manager] and [clients_know_switches]: the signals drive
    the switch manager without an error, and its events tell clients of the
    REST interface what is connected.  [reconnect_lost], [fatal_messages]: what
    does not work. *)

From S2P Require Import Prelude Bits Regex LinkDiscovery SwitchManager RestEvents.

(** ** Types of messages *)

Definition OFPT_ERROR : N := 1.
Definition OFPT_FEATURES_REPLY : N := 6.
Definition OFPT_GET_CONFIG_REPLY : N := 8.
Definition OFPT_PACKET_IN : N := 10.
Definition OFPT_FLOW_REMOVED : N := 11.
Definition OFPT_PORT_STATUS : N := 12.
Definition OFPT_MULTIPART_REPLY : N := 19.
Definition OFPT_BARRIER_REPLY : N := 21.
Definition OFPT_QUEUE_GET_CONFIG_REPLY : N := 23.
Definition OFPT_ROLE_REPLY : N := 25.
Definition OFPT_GET_ASYNC_REPLY : N := 27.

Definition OFPMP_DESC : N := 0.
Definition OFPMP_FLOW : N := 1.
Definition OFPMP_AGGREGATE : N := 2.
Definition OFPMP_TABLE : N := 3.
Definition OFPMP_PORT_STATS : N := 4.
Definition OFPMP_QUEUE : N := 5.
Definition OFPMP_GROUP : N := 6.
Definition OFPMP_GROUP_DESC : N := 7.
Definition OFPMP_GROUP_FEATURES : N := 8.
Definition OFPMP_METER : N := 9.
Definition OFPMP_METER_CONFIG : N := 10.
Definition OFPMP_METER_FEATURES : N := 11.
Definition OFPMP_TABLE_FEATURES : N := 12.
Definition OFPMP_PORT_DESC : N := 13.

Definition one_of (l : list N) (x : N) : bool := existsb (N.eqb x) l.

(** The class a message is read into: of a type, of a multipart type. *)
Inductive msg_class : Type := Plain (type : N) | Multipart (type : N).

(** ** What is sent to a switch when it connects *)

Inductive miss_instruction : Type := GoToTable (table : N) | ToController (port max_len : N).

Inductive setup_msg : Type :=
| DeleteAll                                     (** all tables, any cookie *)
| BarrierRequest
| AddMiss (table priority flags : N) (i : miss_instruction).

Definition OFPFF_SEND_FLOW_REM : N := 1.
Definition OFPFF_CHECK_OVERLAP : N := 2.
Definition OFPP_CONTROLLER : N := 0xfffffffd.

Definition installGoto (table : N) : list setup_msg :=
  [BarrierRequest; AddMiss table 0 (N.lor OFPFF_CHECK_OVERLAP OFPFF_SEND_FLOW_REM) (GoToTable (wrap 8 (table + 1)))].

Definition installTableMiss (table : N) : list setup_msg :=
  [BarrierRequest; AddMiss table 0 (N.lor OFPFF_CHECK_OVERLAP OFPFF_SEND_FLOW_REM) (ToController OFPP_CONTROLLER 128)].

(** [SwitchBase::SwitchBase] and [reinit] *)
Definition reinit (max_table : N) : list setup_msg :=
  DeleteAll :: concat (map installGoto (map N.of_nat (seq 0 (N.to_nat max_table)))) ++ installTableMiss max_table.

(** ** The controller *)

Record switch_base : Type := SwitchBase { m_ofconn : option N; max_table : N }.

(** [applications] holds what libfluid keeps for the controller with a
    connection, a switch; a transaction is the number it was registered as. *)
Record controller : Type := Controller {
  application_data : gmap N N;
  switches : gmap N switch_base;
  static_ofresponse : list (option nat);
  min_session_xid : N;
  started : bool;
  handlers : gset N;
  c_max_table : N;
  outbox : list (N * setup_msg)
}.

Definition min_xid : N := 0xfff.

Section Messages.
Context {data : Type}.

Class Fluid : Type := {
  unpacks : msg_class → data → bool;
  xid : data → N;
  mpart_type : data → N;
  features_of : data → features;
  port_status_of : data → port_reason * of_port
}.
Context `{F : Fluid}.

(** [reparseMultipartReply]; [None] is a null [m_base].  Whether the bytes are
    read by the second class does not matter to it. *)
Definition reparseMultipartReply (d : data) : option msg_class :=
  let type := mpart_type d in
  if one_of [OFPMP_DESC; OFPMP_FLOW] type then Some (Multipart type)
  else if one_of [OFPMP_AGGREGATE; OFPMP_TABLE] type then Some (Multipart OFPMP_TABLE)
  else if one_of [OFPMP_TABLE_FEATURES; OFPMP_PORT_STATS; OFPMP_PORT_DESC; OFPMP_QUEUE; OFPMP_GROUP; OFPMP_GROUP_DESC;
                  OFPMP_GROUP_FEATURES; OFPMP_METER; OFPMP_METER_CONFIG; OFPMP_METER_FEATURES] type then Some (Multipart type)
  else None.

(** [OFMsgUnion::OFMsgUnion] *)
Definition OFMsgUnion (type : N) (d : data) : res (option msg_class) :=
  _ ← require (one_of [OFPT_ERROR; OFPT_FEATURES_REPLY; OFPT_GET_CONFIG_REPLY; OFPT_PACKET_IN; OFPT_FLOW_REMOVED; OFPT_PORT_STATUS;
                       OFPT_BARRIER_REPLY; OFPT_QUEUE_GET_CONFIG_REPLY; OFPT_ROLE_REPLY; OFPT_GET_ASYNC_REPLY; OFPT_MULTIPART_REPLY] type)
               OFMsgUnhandledType;
  _ ← require (unpacks (Plain type) d) OFMsgParseError;
  Ok (if (type =? OFPT_MULTIPART_REPLY)%N then reparseMultipartReply d else Some (Plain type)).

(** What applications are told of; [Handled] is a call of the handlers of a type. *)
Inductive ctl_signal : Type :=
| Handled (type d : N) (x : data)
| SwitchIsUp (d : N) (f : features)
| SwitchIsDown (d : N)
| PortStatusOf (d : N) (r : port_reason) (p : of_port)
| FlowRemovedOf (d : N) (x : data)
| Response (t : nat) (d : N) (c : msg_class) (x : data)
| ErrorResponse (t : nat) (d : N) (x : data).

Section Alive.
(** The connections that are alive. *)
Context (is_alive : N → bool).

(** [SwitchConnection::alive] and [send], to the messages of a switch. *)
Definition alive (b : switch_base) : bool := match m_ofconn b with Some c => is_alive c | None => false end.

Definition send (b : switch_base) (ms : list setup_msg) : list (N * setup_msg) :=
  match m_ofconn b with Some c => if is_alive c then map (pair c) ms else [] | None => [] end.

Definition with_base (c : controller) (d : N) (b : switch_base) (ms : list (N * setup_msg)) : controller :=
  Controller (application_data c) (<[d := b]> (switches c)) (static_ofresponse c) (min_session_xid c) (started c) (handlers c)
    (c_max_table c) (outbox c ++ ms).

Definition with_data (c : controller) (x : gmap N N) : controller :=
  Controller x (switches c) (static_ofresponse c) (min_session_xid c) (started c) (handlers c) (c_max_table c) (outbox c).

(** A switch that is known keeps its number of tables. *)
Definition createSwitchBase (c : controller) (ofconn d : N) : controller :=
  let b := SwitchBase (Some ofconn) (match switches c !! d with Some b => max_table b | None => c_max_table c end) in
  with_base c d b (send b (reinit (max_table b))).

Definition transaction_at (c : controller) (x : N) : res (option nat) :=
  match static_ofresponse c !! N.to_nat (x - min_xid) with Some t => Ok t | None => Throw Terminate end.

(** The code of the try block. *)
Definition dispatch (c : controller) (ofconn : N) (ctx : option N) (type : N) (x : data) : res (controller * list ctl_signal) :=
  msg ← OFMsgUnion type x;
  if (type =? OFPT_FEATURES_REPLY)%N then
    let d := datapath_id (features_of x) in
    let c' := createSwitchBase c ofconn d in
    Ok (with_data c' (<[ofconn := d]> (application_data c')), [SwitchIsUp d (features_of x)])
  else
    match ctx with
    | None => if (type =? OFPT_PORT_STATUS)%N then Ok (c, []) else Throw Terminate
    | Some d =>
        if (type =? OFPT_PORT_STATUS)%N then Ok (c, [PortStatusOf d (fst (port_status_of x)) (snd (port_status_of x))])
        else if (type =? OFPT_FLOW_REMOVED)%N then Ok (c, [FlowRemovedOf d x])
        else
          match msg with
          | None => Throw Terminate
          | Some cls =>
              if (xid x <? min_xid)%N then Ok (c, [])
              else if (xid x <? min_session_xid c)%N then
                t ← transaction_at c (xid x);
                Ok (c, match t with
                       | Some t => if (type =? OFPT_ERROR)%N then [ErrorResponse t d x] else [Response t d cls x]
                       | None => []
                       end)
              else Ok (c, [])
          end
    end.

(** A null pointer that is followed is not an exception. *)
Definition caught (c : controller) (m : res (controller * list ctl_signal)) : res (controller * list ctl_signal) :=
  match m with Throw Terminate => Throw Terminate | Throw _ => Ok (c, []) | Ok r => Ok r end.

(** [message_callback]; the answer to a packet-in of the benchmark is aside. *)
Definition message_callback (cbench : bool) (c : controller) (ofconn type : N) (x : data) : res (controller * list ctl_signal) :=
  if cbench && (type =? OFPT_PACKET_IN)%N then Ok (c, [])
  else
    let ctx := application_data c !! ofconn in
    called ← (if decide (type ∈ handlers c) then
                match ctx with
                | None => Throw Terminate
                | Some d => _ ← require (unpacks (Plain type) x) Terminate; Ok [Handled type d x]
                end
              else Ok []);
    if bool_decide (ctx = None) && negb (type =? OFPT_FEATURES_REPLY)%N then Ok (c, called)
    else '(c', sig) ← caught c (dispatch c ofconn ctx type x); Ok (c', called ++ sig).
End Alive.

(** ** Connections *)

Inductive conn_event : Type := EVENT_STARTED | EVENT_ESTABLISHED | EVENT_FAILED_NEGOTIATION | EVENT_CLOSED | EVENT_DEAD.

Definition replace_null (c : controller) (d : N) : controller :=
  match switches c !! d with
  | None => c
  | Some b => with_base c d (SwitchBase None (max_table b)) []
  end.

Definition connection_callback (c : controller) (ofconn : N) (e : conn_event) : controller * list ctl_signal :=
  match e with
  | EVENT_STARTED => (with_data c (delete ofconn (application_data c)), [])
  | EVENT_ESTABLISHED | EVENT_FAILED_NEGOTIATION => (c, [])
  | EVENT_CLOSED | EVENT_DEAD =>
      match application_data c !! ofconn with
      | None => (c, [])
      | Some d => (replace_null (with_data c (delete ofconn (application_data c))) d, [SwitchIsDown d])
      end
  end.
End Messages.
Arguments Fluid data : clear implicits.
Arguments ctl_signal data : clear implicits.

(** ** Registration *)

Definition new_controller (max_table : N) : controller := Controller ∅ ∅ [] min_xid false ∅ max_table [].

Definition with_transactions (c : controller) (ts : list (option nat)) (next : N) : controller :=
  Controller (application_data c) (switches c) ts next (started c) (handlers c) (c_max_table c) (outbox c).

(** The xid of the transaction, or none. *)
Definition registerStaticTransaction (c : controller) : controller * option N :=
  if started c then (c, None)
  else (with_transactions c (static_ofresponse c ++ [Some (length (static_ofresponse c))]) (wrap 32 (min_session_xid c + 1)),
        Some (min_session_xid c)).

(** What follows the end of a transaction's object: the xid is taken for the position. *)
Definition transaction_destroyed (c : controller) (x : N) : res controller :=
  if (N.to_nat x <? length (static_ofresponse c))%nat then Ok (with_transactions c (<[N.to_nat x := None]> (static_ofresponse c)) (min_session_xid c))
  else Throw Terminate.

Definition register_handler (c : controller) (type : N) : controller :=
  Controller (application_data c) (switches c) (static_ofresponse c) (min_session_xid c) (started c) ({[ type ]} ∪ handlers c)
    (c_max_table c) (outbox c).

(** [table] is what the configuration says. *)
Definition getTable (c : controller) (table : N) : controller * N :=
  let t := wrap 8 table in
  (Controller (application_data c) (switches c) (static_ofresponse c) (min_session_xid c) (started c) (handlers c)
     (N.max t (c_max_table c)) (outbox c), t).

Definition startUp (c : controller) : controller :=
  Controller (application_data c) (switches c) (static_ofresponse c) (min_session_xid c) true (handlers c) (c_max_table c) (outbox c).

(** ** What a switch does with the setup *)

Record miss_entry : Type := MissEntry { me_table : N; me_priority : N; me_instruction : miss_instruction }.

(** With CHECK_OVERLAP an entry of the same priority in the table, which
    matches every packet as well, is refused. *)
Definition table_step (t : list miss_entry) (m : setup_msg) : list miss_entry :=
  match m with
  | DeleteAll => []
  | BarrierRequest => t
  | AddMiss table priority flags i =>
      if negb (N.land flags OFPFF_CHECK_OVERLAP =? 0)%N &&
         existsb (λ e, (me_table e =? table)%N && (me_priority e =? priority)%N) t
      then t else t ++ [MissEntry table priority i]
  end.

(** A packet that nothing else matches, from a table on: the tables it comes
    to, and where it is sent. *)
Fixpoint unmatched (n : nat) (t : list miss_entry) (table : N) : option (list N * (N * N)) :=
  match n with
  | O => None
  | S n =>
      match List.find (λ e, (me_table e =? table)%N) t with
      | None => None
      | Some e =>
          match me_instruction e with
          | GoToTable next => '(ts, out) ← unmatched n t next; Some (table :: ts, out)
          | ToController p len => Some ([table], (p, len))
          end
      end
  end.

Definition goto_entry (i : nat) : miss_entry := MissEntry (N.of_nat i) 0 (GoToTable (N.of_nat (S i))).

(** With the bytes of a packet that the controller gets. *)
Definition pipeline (len : N) (max : nat) : list miss_entry :=
  map goto_entry (seq 0 max) ++ [MissEntry (N.of_nat max) 0 (ToController OFPP_CONTROLLER len)].

Lemma no_entry_yet k n : (k ≤ n)%nat →
  existsb (λ e, (me_table e =? N.of_nat n)%N && (me_priority e =? 0)%N) (map goto_entry (seq 0 k)) = false.
Proof.
  intros Hk. apply not_true_iff_false. rewrite existsb_exists. intros (e & He & Ht).
  apply in_map_iff in He as (i & <- & Hi%in_seq). apply andb_true_iff in Ht as [Ht%N.eqb_eq _]. cbn in Ht. lia.
Qed.

Lemma setup_gotos n : ∀ k, (n + k < 256)%nat →
  fold_left table_step (concat (map installGoto (map N.of_nat (seq k n)))) (map goto_entry (seq 0 k)) = map goto_entry (seq 0 (k + n)).
Proof.
  induction n as [|n IH]; intros k Hk; cbn [seq map concat]; [by rewrite Nat.add_0_r |].
  rewrite fold_left_app. cbn [installGoto fold_left]. cbn [table_step].
  rewrite no_entry_yet by done. rewrite andb_false_r.
  replace (map goto_entry (seq 0 k) ++ [MissEntry (N.of_nat k) 0 (GoToTable (wrap 8 (N.of_nat k + 1)))]) with (map goto_entry (seq 0 (S k))).
  - rewrite IH by lia. do 2 f_equal. lia.
  - rewrite seq_S, map_app. f_equal. cbn [map]. unfold goto_entry. rewrite wrap_id by (change (2 ^ 8)%N with 256%N; lia).
    by replace (N.of_nat k + 1)%N with (N.of_nat (S k)) by lia.
Qed.

Lemma setup_table max t : (max < 256)%nat → fold_left table_step (reinit (N.of_nat max)) t = pipeline 128 max.
Proof.
  intros Hmax. unfold reinit. cbn [fold_left table_step]. rewrite fold_left_app, Nat2N.id.
  assert (E : fold_left table_step (concat (map installGoto (map N.of_nat (seq 0 max)))) [] = map goto_entry (seq 0 max))
    by (apply (setup_gotos max 0); lia).
  rewrite E. cbn [installTableMiss fold_left table_step]. by rewrite no_entry_yet, andb_false_r.
Qed.

Lemma find_goto len max i : (i < max)%nat → List.find (λ e, (me_table e =? N.of_nat i)%N) (pipeline len max) = Some (goto_entry i).
Proof.
  intros Hi. unfold pipeline. assert (A : ∀ n k l, (k ≤ i < k + n)%nat →
    List.find (λ e, (me_table e =? N.of_nat i)%N) (map goto_entry (seq k n) ++ l) = Some (goto_entry i)); [| by apply A; lia].
  induction n as [|n IH]; intros k l Hk; [lia |]. cbn [seq map app List.find me_table goto_entry].
  destruct (N.eqb_spec (N.of_nat k) (N.of_nat i)); [do 2 f_equal; lia | apply IH; lia].
Qed.

Lemma find_miss len max : List.find (λ e, (me_table e =? N.of_nat max)%N) (pipeline len max) =
  Some (MissEntry (N.of_nat max) 0 (ToController OFPP_CONTROLLER len)).
Proof.
  unfold pipeline. assert (A : ∀ n k l, (k + n ≤ max)%nat →
    List.find (λ e, (me_table e =? N.of_nat max)%N) (map goto_entry (seq k n) ++ l) = List.find (λ e, (me_table e =? N.of_nat max)%N) l).
  { induction n as [|n IH]; intros k l Hk; [done |]. cbn [seq map app List.find me_table goto_entry].
    destruct (N.eqb_spec (N.of_nat k) (N.of_nat max)); [lia | apply IH; lia]. }
  rewrite A by lia. cbn. by rewrite N.eqb_refl.
Qed.

Lemma unmatched_step n t table :
  unmatched (S n) t table =
    match List.find (λ e, (me_table e =? table)%N) t with
    | None => None
    | Some e =>
        match me_instruction e with
        | GoToTable next => '(ts, out) ← unmatched n t next; Some (table :: ts, out)
        | ToController p len => Some ([table], (p, len))
        end
    end.
Proof. reflexivity. Qed.

Lemma walk_pipeline len max n : ∀ i, (i + n = max)%nat →
  unmatched (S n) (pipeline len max) (N.of_nat i) = Some (map N.of_nat (seq i (S n)), (OFPP_CONTROLLER, len)).
Proof.
  induction n as [|n IH]; intros i Hi; rewrite unmatched_step.
  - replace i with max by lia. by rewrite find_miss.
  - rewrite find_goto by lia. cbn [goto_entry me_instruction]. rewrite IH by lia. done.
Qed.

(** ** What happens to the controller *)

Section Traffic.
Context {data : Type} `{F : !Fluid data}.

Inductive input : Type :=
| Message (live : N → bool) (ofconn type : N) (x : data)
| Connection (ofconn : N) (e : conn_event).

Definition step_input (c : controller) (i : input) : res (controller * list (ctl_signal data)) :=
  match i with
  | Message live ofconn type x => message_callback live false c ofconn type x
  | Connection ofconn e => Ok (connection_callback c ofconn e)
  end.

Fixpoint run_inputs (c : controller) (ins : list input) : res (controller * list (ctl_signal data)) :=
  match ins with
  | [] => Ok (c, [])
  | i :: ins => '(c1, s1) ← step_input c i; '(c2, s2) ← run_inputs c1 ins; Ok (c2, s1 ++ s2)
  end.

(** [n] transactions are registered, one after the other. *)
Fixpoint register_n (n : nat) (c : controller) : controller * list (option N) :=
  match n with
  | O => (c, [])
  | S n => let '(c1, x) := registerStaticTransaction c in let '(c2, xs) := register_n n c1 in (c2, x :: xs)
  end.

(** What does not change after startup. *)
Definition same_setup (c c' : controller) : Prop :=
  static_ofresponse c' = static_ofresponse c ∧ min_session_xid c' = min_session_xid c ∧ handlers c' = handlers c.

(** The cases of a message that is served. *)
Inductive served (c : controller) (ofconn type : N) (x : data) : controller → list (ctl_signal data) → Prop :=
| served_other sig : (∀ s, s ∈ sig → ∃ d, application_data c !! ofconn = Some d ∧
      (s = Handled type d x ∨ s = FlowRemovedOf d x ∨ (∃ t cls, s = Response t d cls x) ∨ (∃ t, s = ErrorResponse t d x) ∨
       ∃ r p, s = PortStatusOf d r p)) →
    served c ofconn type x c sig
| served_features c' called : type = OFPT_FEATURES_REPLY →
    (∀ s, s ∈ called → ∃ d, application_data c !! ofconn = Some d ∧ s = Handled type d x) →
    application_data c' = <[ofconn := datapath_id (features_of x)]> (application_data c) →
    dom (switches c') = {[ datapath_id (features_of x) ]} ∪ dom (switches c) → same_setup c c' →
    served c ofconn type x c' (called ++ [SwitchIsUp (datapath_id (features_of x)) (features_of x)]).

Lemma caught_Ok c (m : res (controller * list (ctl_signal data))) r : caught c m = Ok r → (∃ e, m = Throw e ∧ r = (c, [])) ∨ m = Ok r.
Proof. destruct m as [r'|[]]; cbn; intros [= <-]; eauto. Qed.

Lemma dispatch_cases live c ofconn type x c' sig :
  dispatch live c ofconn (application_data c !! ofconn) type x = Ok (c', sig) → served c ofconn type x c' sig.
Proof.
  unfold dispatch. destruct (OFMsgUnion type x) as [msg|]; cbn [mbind res_bind]; [| done].
  destruct (N.eqb_spec type OFPT_FEATURES_REPLY) as [Ht |].
  - intros [= <- <-]. apply (served_features _ _ _ _ _ []); [done | by intros s ?%not_elem_of_nil | done | | done].
    cbn. apply dom_insert_L.
  - destruct (application_data c !! ofconn) as [d|] eqn:Ed.
    2: { destruct (type =? OFPT_PORT_STATUS)%N; [| done]. intros [= <- <-]. apply served_other. by intros s ?%not_elem_of_nil. }
    assert (One : ∀ s, (s = FlowRemovedOf d x ∨ (∃ t cls, s = Response t d cls x) ∨ (∃ t, s = ErrorResponse t d x) ∨ ∃ r p, s = PortStatusOf d r p) →
                  served c ofconn type x c [s]).
    { intros s Hs. apply served_other. intros s' ->%list_elem_of_singleton. exists d. split; [done |]. by right. }
    assert (None_ : served c ofconn type x c []) by (apply served_other; by intros s ?%not_elem_of_nil).
    destruct (type =? OFPT_PORT_STATUS)%N; [intros [= <- <-]; apply One; right; right; right; by eexists _, _ |].
    destruct (type =? OFPT_FLOW_REMOVED)%N; [intros [= <- <-]; apply One; by left |].
    destruct msg as [cls|]; [| done]. destruct (xid x <? min_xid)%N; [by intros [= <- <-] |].
    destruct (xid x <? min_session_xid c)%N; [| by intros [= <- <-]].
    destruct (transaction_at c (xid x)) as [[t|]|]; cbn [mbind res_bind]; intros [= <- <-]; [| done].
    destruct (type =? OFPT_ERROR)%N; apply One; [right; right; left | right; left]; eauto.
Qed.

Lemma message_cases live cb c ofconn type x c' sig :
  message_callback live cb c ofconn type x = Ok (c', sig) → served c ofconn type x c' sig.
Proof.
  unfold message_callback. destruct (cb && _); [intros [= <- <-]; apply served_other; by intros s ?%not_elem_of_nil |].
  destruct (decide (type ∈ handlers c)) as [Hin | Hnin].
  - destruct (application_data c !! ofconn) as [d|] eqn:Ed; cbn [mbind res_bind]; [| done].
    unfold require. destruct (unpacks _ x); cbn [mbind res_bind bool_decide]; [| done].
    rewrite bool_decide_eq_false_2 by done. cbn [andb]. rewrite <- Ed.
    destruct (caught c _) as [[c1 s1]|] eqn:Ec; cbn [mbind res_bind]; [| done]. intros [= <- <-].
    assert (H : served c ofconn type x c1 s1).
    { apply caught_Ok in Ec as [(e & _ & [= -> ->]) | E]; [apply served_other; by intros s ?%not_elem_of_nil | by apply dispatch_cases in E]. }
    destruct H as [sig Hs | c' called Ht Hc H1 H2 H3].
    + apply served_other. intros s [-> | Hin']%elem_of_cons; [exists d; auto | by apply Hs].
    + apply (served_features _ _ _ _ _ (Handled type d x :: called)); [done | | done ..].
      intros s [-> | Hin']%elem_of_cons; [by exists d | by apply Hc].
  - cbn [mbind res_bind]. destruct (bool_decide _ && _); [intros [= <- <-]; apply served_other; by intros s ?%not_elem_of_nil |].
    destruct (caught c _) as [[c1 s1]|] eqn:Ec; cbn [mbind res_bind]; [| done]. intros [= <- <-]. cbn [app].
    apply caught_Ok in Ec as [(e & _ & [= -> ->]) | E]; [apply served_other; by intros s ?%not_elem_of_nil | by apply dispatch_cases in E].
Qed.

Lemma connection_setup c ofconn e : same_setup c (fst (connection_callback (data := data) c ofconn e)).
Proof.
  destruct e; try by split_and!.
  all: cbn; destruct (application_data c !! ofconn) as [d|]; [| by split_and!]; unfold replace_null; cbn;
    by destruct (switches c !! d); split_and!.
Qed.

Lemma step_setup c i c' sig : step_input c i = Ok (c', sig) → same_setup c c'.
Proof.
  destruct i as [live ofconn type x | ofconn e]; cbn [step_input].
  - intros H%message_cases. destruct H; [by split_and! | done].
  - intros [= E]. pose proof (connection_setup c ofconn e) as H. by rewrite E in H.
Qed.

Lemma run_setup ins : ∀ c c' sig, run_inputs c ins = Ok (c', sig) → same_setup c c'.
Proof.
  induction ins as [|i ins IH]; intros c c' sig; cbn [run_inputs]; [intros [= <- <-]; by split_and! |].
  destruct (step_input c i) as [[c1 s1]|] eqn:E1; cbn [mbind res_bind]; [| done].
  destruct (run_inputs c1 ins) as [[c2 s2]|] eqn:E2; cbn [mbind res_bind]; [| done]. intros [= <- <-].
  destruct (step_setup c i c1 s1 E1) as (A1 & A2 & A3), (IH c1 c2 s2 E2) as (B1 & B2 & B3). split_and!; congruence.
Qed.

Lemma register_n_ok n : ∀ k c,
  started c = false → static_ofresponse c = map Some (seq 0 k) → min_session_xid c = (min_xid + N.of_nat k)%N →
  (min_xid + N.of_nat k + N.of_nat n < 2 ^ 32)%N →
  let '(c', xs) := register_n n c in
  started c' = false ∧ static_ofresponse c' = map Some (seq 0 (k + n)) ∧ min_session_xid c' = (min_xid + N.of_nat (k + n))%N ∧
  xs = map (λ i, Some (min_xid + N.of_nat i)%N) (seq k n) ∧ handlers c' = handlers c ∧
  application_data c' = application_data c ∧ switches c' = switches c.
Proof.
  induction n as [|n IH]; intros k c Hs Ht Hm Hlt; cbn [register_n].
  - rewrite Nat.add_0_r. split_and!; done.
  - unfold registerStaticTransaction. rewrite Hs.
    specialize (IH (S k) (with_transactions c (static_ofresponse c ++ [Some (length (static_ofresponse c))]) (wrap 32 (min_session_xid c + 1)))).
    destruct (register_n n _) as [c' xs]. destruct IH as (H1 & H2 & H3 & H4 & H5 & H6 & H7).
    + done.
    + cbn [with_transactions static_ofresponse]. by rewrite Ht, length_map, length_seq, seq_S, map_app.
    + cbn [with_transactions min_session_xid]. rewrite Hm, wrap_id by lia. lia.
    + lia.
    + split_and!; [done | rewrite H2; do 2 f_equal; lia | rewrite H3; lia | | done ..]. by rewrite Hm, H4.
Qed.

(** ** The controller and the switch manager *)

Class FluidReplies : Type := { ports_read : data → list of_port; desc_read : data → switch_desc }.
Context `{R : FluidReplies}.

Definition reply_of (cls : msg_class) (x : data) : reply :=
  match cls with
  | Plain _ => OtherType
  | Multipart t => if (t =? OFPMP_PORT_DESC)%N then PortDescReply (ports_read x)
                   else if (t =? OFPMP_DESC)%N then DescReply (desc_read x) else OtherMultipart
  end.

(** The transactions of the switch manager, for ports and for descriptions. *)
Context (pdescr swdescr : nat).

Definition to_manager (s : ctl_signal data) : list manager_event :=
  match s with
  | SwitchIsUp d f => [EvUp d d f]
  | SwitchIsDown d => [EvDown d]
  | PortStatusOf d r p => [EvPortStatus d r p]
  | Response t d cls x =>
      (if decide (t = pdescr) then [EvPortDescriptions d (reply_of cls x)] else []) ++
      (if decide (t = swdescr) then [EvSwitchDescriptions d (reply_of cls x)] else [])
  | _ => []
  end.

(** Descriptions are answered with descriptions. *)
Definition right_answers (sig : list (ctl_signal data)) : Prop :=
  ∀ d cls x, Response swdescr d cls x ∈ sig → cls = Multipart OFPMP_DESC ∨ ∃ t, cls = Plain t.

(** A connection leads to a switch there is. *)
Definition data_known (c : controller) : Prop := ∀ o d, application_data c !! o = Some d → d ∈ dom (switches c).

Definition signal_known (K : gset N) (s : ctl_signal data) : Prop :=
  match s with
  | SwitchIsUp d f => datapath_id f = d
  | PortStatusOf d _ _ | Response _ d _ _ => d ∈ K
  | _ => True
  end.

Definition signal_up (K : gset N) (s : ctl_signal data) : gset N := match s with SwitchIsUp d _ => {[ d ]} ∪ K | _ => K end.

Lemma to_manager_timely (K : gset N) (s : ctl_signal data) :
  signal_known K s → right_answers [s] →
  well_timed K (to_manager s) ∧ fold_left came_up (to_manager s) K = signal_up K s.
Proof.
  destruct s as [t d x | d f | d | d r p | d x | t d cls x | t d x]; cbn [signal_known signal_up to_manager well_timed timely fold_left came_up]; try done.
  intros HK Hr. assert (Hsw : t = swdescr → timely K (EvSwitchDescriptions d (reply_of cls x))).
  { intros ->. assert (Ha : cls = Multipart OFPMP_DESC ∨ ∃ t, cls = Plain t) by (apply (Hr d cls x); constructor). by destruct Ha as [-> | [t' ->]]. }
  assert (Hpd : timely K (EvPortDescriptions d (reply_of cls x))) by (unfold reply_of; destruct cls; repeat case_match; done).
  destruct (decide (t = pdescr)), (decide (t = swdescr)); cbn [app well_timed came_up fold_left]; auto.
Qed.

Lemma well_timed_app es es' : ∀ K, well_timed K es → well_timed (fold_left came_up es K) es' → well_timed K (es ++ es').
Proof. induction es as [|e es IH]; intros K; cbn [well_timed app fold_left]; [done |]. intros [H1 H2] H3. split; [done | by apply IH]. Qed.

Lemma signals_timely sig : ∀ K,
  Forall (signal_known K) sig → right_answers sig →
  well_timed K (concat (map to_manager sig)) ∧ fold_left came_up (concat (map to_manager sig)) K = fold_left signal_up sig K.
Proof.
  induction sig as [|s sig IH]; intros K Hk Hr; cbn [map concat fold_left]; [done |]. apply Forall_cons_1 in Hk as [Hs Hk].
  assert (Hr1 : right_answers [s]) by (intros d cls x Hin%list_elem_of_singleton; apply (Hr d cls x); rewrite Hin; constructor).
  assert (Hr2 : right_answers sig) by (intros d cls x Hin; apply (Hr d cls x); by constructor).
  destruct (to_manager_timely K s Hs Hr1) as [H1 H2]. destruct (IH (signal_up K s)) as [H3 H4]; [| done |].
  - apply Forall_elem. intros s' Hin. rewrite Forall_elem in Hk. specialize (Hk s' Hin).
    destruct s'; cbn in Hk |- *; try done; destruct s; cbn [signal_up]; set_solver.
  - split; [apply well_timed_app; rewrite ?H2; done |]. by rewrite fold_left_app, H2.
Qed.

Lemma closed_known c ofconn e c' sig :
  e = EVENT_CLOSED ∨ e = EVENT_DEAD → data_known c → connection_callback (data := data) c ofconn e = (c', sig) →
  data_known c' ∧ Forall (signal_known (dom (switches c))) sig ∧ fold_left signal_up sig (dom (switches c)) = dom (switches c').
Proof.
  intros He Hc. assert (E : connection_callback (data := data) c ofconn e = connection_callback c ofconn EVENT_DEAD) by (by destruct He as [-> | ->]).
  rewrite E. cbn. destruct (application_data c !! ofconn) as [d|] eqn:Ed; [| intros [= <- <-]; split_and!; [done | by constructor | done]].
  unfold replace_null. cbn [switches with_data application_data].
  destruct (switches c !! d) as [b|] eqn:Eb; intros [= <- <-]; cbn [fold_left signal_up with_base with_data application_data switches].
  - rewrite dom_insert_lookup_L by (by exists b). split_and!; [| by repeat constructor | done].
    intros o d'. cbn. rewrite dom_insert_lookup_L by (by exists b). intros [_ Ho]%lookup_delete_Some. by eapply Hc.
  - split_and!; [| by repeat constructor | done]. intros o d'. cbn. intros [_ Ho]%lookup_delete_Some. by eapply Hc.
Qed.

(** What a callback signals is of switches that are known. *)
Lemma step_known c i c' sig : data_known c → step_input c i = Ok (c', sig) →
  data_known c' ∧ Forall (signal_known (dom (switches c))) sig ∧ fold_left signal_up sig (dom (switches c)) = dom (switches c').
Proof.
  intros Hc. destruct i as [live ofconn type x | ofconn e]; cbn [step_input].
  - intros H%message_cases. destruct H as [sig Hs | c' called _ Hs Ha Hd _].
    + split; [done |]. split.
      * apply Forall_elem. intros s Hin. destruct (Hs s Hin) as (d & Hd & Hcases).
        destruct Hcases as [-> | [-> | [(t & cls & ->) | [(t & ->) | (r & p & ->)]]]]; cbn; try done; by eapply Hc.
      * clear -Hs. induction sig as [|s sig IH]; [done |]. cbn [fold_left].
        destruct (Hs s) as (d & _ & Hcases); [constructor |].
        replace (signal_up (dom (switches c)) s) with (dom (switches c)) by (by destruct Hcases as [-> | [-> | [(t & cls & ->) | [(t & ->) | (r & p & ->)]]]]).
        apply IH. intros s' Hin. apply Hs. by constructor.
    + split; [| split].
      * intros o d. rewrite Ha, Hd. intros [[<- <-] | [_ Ho]]%lookup_insert_Some; [set_solver |]. apply elem_of_union. right. by eapply Hc.
      * apply Forall_app. split; [| by constructor]. apply Forall_elem. intros s Hin. by destruct (Hs s Hin) as (d & _ & ->).
      * rewrite fold_left_app, Hd. cbn [fold_left signal_up]. f_equal. clear -Hs. induction called as [|s sig IH]; [done |].
        cbn [fold_left]. destruct (Hs s) as (d & _ & ->); [constructor |]. apply IH. intros s' Hin. apply Hs. by constructor.
  - intros [= E]. destruct e; try (cbn in E; injection E as <- <-; split_and!; [| by constructor | done]); try done.
    + intros o d. cbn. intros [_ Ho]%lookup_delete_Some. by eapply Hc.
    + apply (closed_known c ofconn EVENT_CLOSED); [by left | done | done].
    + apply (closed_known c ofconn EVENT_DEAD); [by right | done | done].
Qed.
Lemma run_known ins : ∀ c c' sig, data_known c → run_inputs c ins = Ok (c', sig) →
  data_known c' ∧ Forall (λ s, ∀ d f, s = SwitchIsUp d f → datapath_id f = d) sig ∧
  (right_answers sig → well_timed (dom (switches c)) (concat (map to_manager sig)) ∧
    fold_left came_up (concat (map to_manager sig)) (dom (switches c)) = dom (switches c')).
Proof.
  induction ins as [|i ins IH]; intros c c' sig Hc; cbn [run_inputs]; [intros [= <- <-]; by split_and! |].
  destruct (step_input c i) as [[c1 s1]|] eqn:E1; cbn [mbind res_bind]; [| done].
  destruct (run_inputs c1 ins) as [[c2 s2]|] eqn:E2; cbn [mbind res_bind]; [| done]. intros [= <- <-].
  destruct (step_known c i c1 s1 Hc E1) as (H1 & H2 & H3). destruct (IH c1 c2 s2 H1 E2) as (H4 & H5 & H6).
  split; [done |]. split.
  - apply Forall_app. split; [| done]. apply Forall_elem. rewrite Forall_elem in H2. intros s Hs d f ->. by apply (H2 _ Hs).
  - intros Hr. rewrite map_app, concat_app.
    destruct (signals_timely s1 (dom (switches c)) H2) as [H7 H8]; [intros d cls x Hin; apply (Hr d cls x), elem_of_app; by left |].
    destruct H6 as [H9 H10]; [intros d cls x Hin; apply (Hr d cls x), elem_of_app; by right |].
    rewrite <- H3, <- H8 in H9, H10. split; [by apply well_timed_app |]. by rewrite fold_left_app.
Qed.

(** ** Down to the clients of the REST interface *)

Definition switch_manager_name : str := lit "switch-manager".

Definition to_report (n : notice) : list rest_op :=
  match n with
  | AddEvent d => [Report 0 Add d switch_manager_name]
  | DeleteEvent d => [Report 0 Delete d switch_manager_name]
  | _ => []
  end.

(** Callbacks of libfluid, and questions of a client, which are [None]. *)
Fixpoint system (c : controller) (m : switch_manager) (items : list (option input)) : res (controller * switch_manager * list rest_op) :=
  match items with
  | [] => Ok (c, m, [])
  | None :: items => '(c', m', ops) ← system c m items; Ok (c', m', Poll :: ops)
  | Some i :: items =>
      '(c1, sig) ← step_input c i;
      '(m1, ns) ← manage_all m (concat (map to_manager sig));
      '(c2, m2, ops) ← system c1 m1 items;
      Ok (c2, m2, concat (map to_report ns) ++ ops)
  end.

(** A switch has one connection at a time, which says its features once. *)
Definition orderly (c : controller) (i : input) : Prop :=
  match i with
  | Message _ ofconn type x =>
      type = OFPT_FEATURES_REPLY →
      application_data c !! ofconn = None ∧ ∀ o, application_data c !! o ≠ Some (datapath_id (features_of x))
  | Connection ofconn EVENT_STARTED => application_data c !! ofconn = None
  | _ => True
  end.

Fixpoint all_orderly (c : controller) (items : list (option input)) : Prop :=
  match items with
  | [] => True
  | None :: items => all_orderly c items
  | Some i :: items => orderly c i ∧ ∀ c' sig, step_input c i = Ok (c', sig) → all_orderly c' items
  end.

(** The switches with a connection. *)
Definition connected (c : controller) (d : N) : Prop := ∃ o, application_data c !! o = Some d.

Definition one_connection (c : controller) : Prop :=
  ∀ o o' d, application_data c !! o = Some d → application_data c !! o' = Some d → o = o'.

(** What one callback does to the connected switches. *)
Inductive change (c c' : controller) (sig : list (ctl_signal data)) : Prop :=
| no_change : application_data c' = application_data c → (∀ s, s ∈ sig → ∀ d f, s ≠ SwitchIsUp d f ∧ s ≠ SwitchIsDown d) → change c c' sig
| connects d f : sig = [SwitchIsUp d f] → datapath_id f = d → ¬ connected c d → (∀ d', connected c' d' ↔ d' = d ∨ connected c d') → change c c' sig
| disconnects d : sig = [SwitchIsDown d] → connected c d → (∀ d', connected c' d' ↔ d' ≠ d ∧ connected c d') → change c c' sig.

Lemma step_change c i c' sig : one_connection c → orderly c i → step_input c i = Ok (c', sig) → change c c' sig ∧ one_connection c'.
Proof.
  intros Ho Hi. destruct i as [live ofconn type x | ofconn e]; cbn [step_input].
  - intros H%message_cases. destruct H as [sig Hs | c' called Ht Hs Ha _ _].
    + split; [| done]. apply no_change; [done |]. intros s Hin d f. destruct (Hs s Hin) as (d' & _ & Hc).
      by destruct Hc as [-> | [-> | [(t & cls & ->) | [(t & ->) | (r & p & ->)]]]].
    + destruct (Hi Ht) as [Hn Hd]. split.
      * apply (connects c c' _ (datapath_id (features_of x)) (features_of x)); [| done | |].
        -- destruct called as [|s called]; [done |]. destruct (Hs s) as (d & Hd' & _); [constructor | congruence].
        -- intros [o E]. by apply (Hd o).
        -- intros d'. unfold connected. rewrite Ha. split.
           ++ intros [o [[_ <-] | [_ E]]%lookup_insert_Some]; [by left | right; by exists o].
           ++ intros [-> | [o E]]; [exists ofconn; by rewrite lookup_insert_eq |]. exists o. rewrite lookup_insert_ne; [done | congruence].
      * intros o o' d. rewrite Ha. intros [[<- <-] | [_ E]]%lookup_insert_Some [[<- E'] | [_ E']]%lookup_insert_Some; [done | | |].
        -- by destruct (Hd o').
        -- rewrite <- E' in E. by destruct (Hd o).
        -- by apply (Ho o o' d).
  - assert (Hnone : (c', sig) = (c, []) → change c c' sig ∧ one_connection c').
    { intros [= -> ->]. split; [| done]. apply no_change; [done |]. by intros s ?%not_elem_of_nil. }
    assert (Hend : ∀ d, application_data c !! ofconn = Some d → application_data c' = delete ofconn (application_data c) → sig = [SwitchIsDown d] →
              change c c' sig ∧ one_connection c').
    { intros d Ed Ea ->. split.
      - apply (disconnects c c' _ d); [done | by exists ofconn |]. intros d'. unfold connected. rewrite Ea. split.
        + intros [o [Hne E]%lookup_delete_Some]. split; [| by exists o]. intros ->. by apply Hne, (Ho _ _ d).
        + intros [Hne [o E]]. exists o. apply lookup_delete_Some. split; [congruence | done].
      - intros o o' d'. rewrite Ea. intros [_ E]%lookup_delete_Some [_ E']%lookup_delete_Some. by apply (Ho o o' d'). }
    assert (Hclosed : ∀ e, e = EVENT_CLOSED ∨ e = EVENT_DEAD → connection_callback c ofconn e = (c', sig) → change c c' sig ∧ one_connection c').
    { intros e' He E. assert (E' : connection_callback c ofconn EVENT_DEAD = (c', sig)) by (by destruct He as [-> | ->]).
      cbn in E'. destruct (application_data c !! ofconn) as [d|] eqn:Ed; [| by apply Hnone].
      injection E' as <- <-. apply (Hend d eq_refl); [| done]. unfold replace_null. cbn. by destruct (switches c !! d). }
    intros [= E]. destruct e; cbn in E; try (by apply Hnone).
    + cbn in Hi. apply Hnone. rewrite <- E. f_equal. destruct c. unfold with_data. cbn in Hi |- *. by rewrite delete_id.
    + by apply (Hclosed EVENT_CLOSED); [left |].
    + by apply (Hclosed EVENT_DEAD); [right |].
Qed.

Definition reports (ns : list notice) : list rest_op := concat (map to_report ns).

Lemma reports_app ns ns' : reports (ns ++ ns') = reports ns ++ reports ns'.
Proof. unfold reports. by rewrite map_app, concat_app. Qed.

Lemma portStatus_reports s r p s' ns : portStatus s r p = (s', ns) → reports ns = [].
Proof. destruct r; cbn; [| | destruct (ports s !! _)]; by intros [= _ <-]. Qed.

Lemma portDesc_reports ps : ∀ s s' ns, portDescArrived s ps = (s', ns) → reports ns = [].
Proof.
  induction ps as [|p ps IH]; intros s s' ns; cbn [portDescArrived]; [by intros [= _ <-] |].
  destruct (ports s !! port_no p); [apply IH |]. destruct (portDescArrived _ ps) as [s1 ns1] eqn:E. intros [= _ <-].
  apply (IH _ _ _ E).
Qed.

Lemma setDown_reports s s' ns : setDown s = (s', ns) → reports ns = [].
Proof.
  intros [= _ <-]. rewrite reports_app. cbn. rewrite app_nil_r. by induction (map_to_list (ports s)).
Qed.

(** What the clients are told of an event of the manager. *)
Definition event_reports (m : switch_manager) (e : manager_event) : list rest_op :=
  match e with
  | EvUp _ d _ => [Report 0 Add d switch_manager_name]
  | EvDown d => match m !! d with Some _ => [Report 0 Delete d switch_manager_name] | None => [] end
  | _ => []
  end.

Lemma at_switch_reports m d f m' ns :
  (∀ s s' ns, f s = (s', ns) → reports ns = []) → at_switch m d f = Ok (m', ns) → reports ns = [] ∧ dom m' = dom m.
Proof.
  intros Hf. unfold at_switch. destruct (m !! d) as [s|] eqn:E; [| done]. destruct (f s) as [s' ns'] eqn:Ef. intros [= <- <-].
  split; [by eapply Hf |]. apply dom_insert_lookup_L. by exists s.
Qed.

Lemma manage_reports m e m' ns : manage m e = Ok (m', ns) → reports ns = event_reports m e ∧ dom m' = came_up (dom m) e.
Proof.
  destruct e as [c d f | d | d r p | d r | d r]; cbn [manage event_reports came_up].
  - unfold onSwitchUp. destruct (_ =? _)%N; cbn [require mbind res_bind]; [| done].
    destruct (m !! d); cbn [setUp]; intros [= <- <-]; (split; [done | apply dom_insert_L]).
  - unfold onSwitchDown. destruct (m !! d) as [s|] eqn:E; [| by intros [= <- <-]].
    destruct (setDown s) as [s' ns'] eqn:Es. intros [= <- <-]. rewrite reports_app, (setDown_reports s s' ns' Es). split; [done |].
    apply dom_insert_lookup_L. by exists s.
  - apply at_switch_reports. intros s s' ns'. apply portStatus_reports.
  - unfold onPortDescriptions. destruct r; try (by intros [= <- <-]). apply at_switch_reports. intros s s' ns'. apply portDesc_reports.
  - unfold onSwitchDescriptions. destruct r; try (by intros [= <- <-]);
      try (destruct (at_switch m d _); cbn [mbind res_bind]; done). apply at_switch_reports. by intros s s' ns' [= <- <-].
Qed.

Definition quiet_event (e : manager_event) : Prop := match e with EvUp _ _ _ | EvDown _ => False | _ => True end.

Lemma quiet_reports es : ∀ m m' ns, Forall quiet_event es → manage_all m es = Ok (m', ns) → reports ns = [] ∧ dom m' = dom m.
Proof.
  induction es as [|e es IH]; intros m m' ns Hq; cbn [manage_all]; [by intros [= <- <-] |]. apply Forall_cons_1 in Hq as [He Hq].
  destruct (manage m e) as [[m1 ns1]|] eqn:E1; cbn [mbind res_bind]; [| done].
  destruct (manage_all m1 es) as [[m2 ns2]|] eqn:E2; cbn [mbind res_bind]; [| done]. intros [= <- <-].
  destruct (manage_reports m e m1 ns1 E1) as [H1 H2], (IH m1 m2 ns2 Hq E2) as [H3 H4].
  rewrite reports_app, H1, H3. destruct e; cbn in He, H2 |- *; try done; by rewrite H4.
Qed.

Lemma quiet_signals sig : (∀ s, s ∈ sig → ∀ d f, s ≠ SwitchIsUp d f ∧ s ≠ SwitchIsDown d) → Forall quiet_event (concat (map to_manager sig)).
Proof.
  induction sig as [|s sig IH]; intros Hs; cbn [map concat]; [constructor |]. apply Forall_app. split; [| apply IH; intros s' Hin; apply Hs; by constructor].
  destruct s as [t d x | d f | d | d r p | d x | t d cls x | t d x]; cbn [to_manager]; try (by repeat constructor).
  - by destruct (proj1 (Hs _ (list_elem_of_here _ _) d f)).
  - by destruct (proj2 (Hs _ (list_elem_of_here _ _) d (Features 0 0 0 0))).
  - apply Forall_app. split; destruct (decide _); by repeat constructor.
Qed.

(** The controller, the manager and what clients are told agree. *)
Record agree (c : controller) (m : switch_manager) (X : objects) : Prop := {
  ag_known : data_known c;
  ag_one : one_connection c;
  ag_dom : dom m = dom (switches c);
  ag_up d : d ∈ X switch_manager_name ↔ connected c d;
  ag_others a : a ≠ switch_manager_name → X a = ∅
}.

Lemma tell_agree c c' m m' X X' :
  agree c m X → data_known c' → one_connection c' → dom m' = dom (switches c') →
  (∀ d, d ∈ X' switch_manager_name ↔ connected c' d) → (∀ a, a ≠ switch_manager_name → X' a = X a) → agree c' m' X'.
Proof. intros [H1 H2 H3 H4 H5] K1 K2 K3 K4 K5. split; try done. intros a Ha. by rewrite K5, H5. Qed.

Lemma item_agree c m X i c1 sig m1 ns :
  agree c m X → orderly c i → step_input c i = Ok (c1, sig) → manage_all m (concat (map to_manager sig)) = Ok (m1, ns) →
  ops_fit X (reports ns) ∧ agree c1 m1 (fold_left tell_op (reports ns) X) ∧
  ∀ t ty o a, Report t ty o a ∈ reports ns → a = switch_manager_name.
Proof.
  intros Hag Ho E Em. destruct (Hag) as [Hk H1 Hd Hup Hoth].
  destruct (step_change c i c1 sig H1 Ho E) as [Hch H1']. destruct (step_known c i c1 sig Hk E) as (Hk' & _ & Hdom).
  assert (One : ∀ ev, manage_all m [ev] = Ok (m1, ns) → ∃ ns1, manage m ev = Ok (m1, ns1) ∧ reports ns = reports ns1).
  { intros ev. cbn [manage_all]. destruct (manage m ev) as [[m2 ns2]|]; cbn [mbind res_bind]; [| done]. intros [= <- <-].
    exists ns2. by rewrite app_nil_r. }
  destruct Hch as [Ha Hq | d f -> Hf Hn Hc | d -> Hc Hc'].
  - destruct (quiet_reports _ m m1 ns (quiet_signals sig Hq) Em) as [-> Hd1]. cbn. split_and!; [done | | by intros t ty o a ?%not_elem_of_nil].
    apply (tell_agree c c1 m m1 X X Hag Hk' H1'); [| | done].
    + rewrite Hd1, Hd, <- Hdom. clear -Hq. induction sig as [|s sig IH]; [done |]. cbn [fold_left].
      replace (signal_up (dom (switches c)) s) with (dom (switches c)).
      * apply IH. intros s' Hin. apply Hq. by constructor.
      * destruct s as [| d f | | | | |]; try done. by destruct (proj1 (Hq _ (list_elem_of_here _ _) d f)).
    + intros d. rewrite Hup. unfold connected. by rewrite Ha.
  - destruct (One (EvUp d d f)) as (ns1 & Em1 & ->); [done |]. destruct (manage_reports _ _ _ _ Em1) as [-> Hd1].
    cbn [event_reports ops_fit op_fits fold_left tell_op tell_object]. split_and!; [| done | | by intros t ty o a [= _ _ _ ->]%list_elem_of_singleton].
    + intros a. destruct (decide (a = switch_manager_name)) as [-> | Hne]; [by rewrite Hup | by rewrite Hoth].
    + apply (tell_agree c c1 m m1 X _ Hag Hk' H1').
      * rewrite Hd1. cbn. rewrite Hd. by rewrite <- Hdom.
      * intros d'. rewrite decide_True, elem_of_union, elem_of_singleton, Hup, Hc by done. done.
      * intros a Hne. by rewrite decide_False.
  - destruct (One (EvDown d)) as (ns1 & Em1 & ->); [done |]. destruct (manage_reports _ _ _ _ Em1) as [-> Hd1].
    assert (Hm : ∃ s, m !! d = Some s). { apply elem_of_dom. rewrite Hd. destruct Hc as [o Eo]. by eapply Hk. }
    destruct Hm as [s Es]. cbn [event_reports]. rewrite Es.
    cbn [ops_fit op_fits fold_left tell_op tell_object]. split_and!; [by apply Hup | done | | by intros t ty o a [= _ _ _ ->]%list_elem_of_singleton].
    apply (tell_agree c c1 m m1 X _ Hag Hk' H1').
    + rewrite Hd1. cbn. rewrite Hd. by rewrite <- Hdom.
    + intros d'. rewrite decide_True, elem_of_difference, elem_of_singleton, Hup, Hc' by done. tauto.
    + intros a Hne. by rewrite decide_False.
Qed.

Lemma system_agree items : ∀ c m X c' m' ops,
  agree c m X → all_orderly c items → system c m items = Ok (c', m', ops) →
  ops_fit X ops ∧ agree c' m' (fold_left tell_op ops X) ∧ ∀ t ty o a, Report t ty o a ∈ ops → a = switch_manager_name.
Proof.
  induction items as [|[i|] items IH]; intros c m X c' m' ops Hag Ho; cbn [system all_orderly] in Ho |- *.
  - intros [= <- <- <-]. split_and!; [done | done | by intros t ty o a ?%not_elem_of_nil].
  - destruct Ho as [Ho Hos]. destruct (step_input c i) as [[c1 sig]|] eqn:E1; cbn [mbind res_bind]; [| done].
    destruct (manage_all m _) as [[m1 ns]|] eqn:E2; cbn [mbind res_bind]; [| done].
    destruct (system c1 m1 items) as [[[c2 m2] ops2]|] eqn:E3; cbn [mbind res_bind]; [| done]. intros [= <- <- <-].
    destruct (item_agree c m X i c1 sig m1 ns Hag Ho E1 E2) as (H1 & H2 & H3).
    destruct (IH c1 m1 _ _ _ _ H2 (Hos c1 sig eq_refl) E3) as (H4 & H5 & H6). fold (reports ns).
    split_and!; [by apply ops_fit_app | by rewrite fold_left_app |]. intros t ty o a [Hin | Hin]%elem_of_app; [by eapply H3 | by eapply H6].
  - destruct (system c m items) as [[[c2 m2] ops2]|] eqn:E3; cbn [mbind res_bind]; [| done]. intros [= <- <- <-].
    destruct (IH c m X _ _ _ Hag Ho E3) as (H4 & H5 & H6). split_and!; [done | done |].
    intros t ty o a [[=] | Hin]%elem_of_cons. by eapply H6.
Qed.
End Traffic.

(** The end of a transaction's object is taken at the xid, behind the end of the list. *)
Lemma destroyed_out_of_bounds c i :
  (length (static_ofresponse c) ≤ N.to_nat min_xid)%nat → transaction_destroyed c (min_xid + N.of_nat i)%N = Throw Terminate.
Proof.
  intros Hl. unfold transaction_destroyed. replace (_ <? _)%nat with false; [done |]. symmetry. apply Nat.ltb_ge. lia.
Qed.

(** ** Properties *)

(** a switch that connects.  Over a live connection it is sent a setup after
    which its tables, whatever was in them, hold the entries of the controller
    only, and a packet that nothing else matches goes through all tables up to
    the last, in order, and from there to the controller with 128 bytes. *)
Theorem setup_pipeline (live : N → bool) (c : controller) (ofconn d : N) (t : list miss_entry) (max : nat) :
  live ofconn = true → (max < 256)%nat →
  match switches c !! d with Some b => max_table b | None => c_max_table c end = N.of_nat max →
  ∃ ms, outbox (createSwitchBase live c ofconn d) = outbox c ++ map (pair ofconn) ms ∧
    length (fold_left table_step ms t) = S max ∧
    unmatched (S max) (fold_left table_step ms t) 0 = Some (map N.of_nat (seq 0 (S max)), (OFPP_CONTROLLER, 128%N)).
Proof.
  intros Hlive Hmax Em. exists (reinit (N.of_nat max)). unfold createSwitchBase, send. cbn [m_ofconn]. rewrite Hlive. cbn [with_base outbox max_table].
  rewrite Em, setup_table by done. split_and!; [done | | by apply (walk_pipeline 128 max max 0)].
  unfold pipeline. rewrite length_app, length_map, length_seq. cbn. lia.
Qed.

(** transactions.  Of [n] transactions that are registered before startup each
    has an xid of its own; later, a message of a switch with that xid, of a type
    that libfluid reads and that is no signal of its own, goes to its
    transaction, as an error or an answer, and one with any other xid to none. *)
Theorem transactions_answered {data : Type} `{F : !Fluid data} (n : nat) (c0 c : controller) (ins : list (input (data := data)))
    (sig : list (ctl_signal data)) (live : N → bool) (o d type : N) (x : data) (cls : msg_class) :
  started c0 = false → static_ofresponse c0 = [] → min_session_xid c0 = min_xid → (min_xid + N.of_nat n < 2 ^ 32)%N →
  run_inputs (startUp (fst (register_n n c0))) ins = Ok (c, sig) →
  application_data c !! o = Some d → type ∉ handlers c →
  type ≠ OFPT_FEATURES_REPLY → type ≠ OFPT_PORT_STATUS → type ≠ OFPT_FLOW_REMOVED → OFMsgUnion type x = Ok (Some cls) →
  snd (register_n n c0) = map (λ i, Some (min_xid + N.of_nat i)%N) (seq 0 n) ∧
  (∀ i, (i < n)%nat → xid x = (min_xid + N.of_nat i)%N →
    message_callback live false c o type x = Ok (c, [if (type =? OFPT_ERROR)%N then ErrorResponse i d x else Response i d cls x])) ∧
  ((∀ i, (i < n)%nat → xid x ≠ (min_xid + N.of_nat i)%N) → message_callback live false c o type x = Ok (c, [])).
Proof.
  intros Hs Ht Hm Hn Hrun Hd Hh T1 T2 T3 Hu.
  assert (R := register_n_ok n 0 c0 Hs Ht). rewrite N.add_0_r in R. specialize (R Hm Hn).
  destruct (register_n n c0) as [c1 xs]. destruct R as (_ & R2 & R3 & R4 & _). cbn [fst snd] in Hrun |- *.
  destruct (run_setup ins _ c sig Hrun) as (S1 & S2 & _). cbn [startUp static_ofresponse min_session_xid] in S1, S2.
  rewrite R2 in S1. rewrite R3 in S2. cbn [Nat.add] in S1, S2.
  assert (M : message_callback live false c o type x = '(c', s) ← caught c (dispatch live c o (Some d) type x); Ok (c', s)).
  { unfold message_callback. cbn [andb]. rewrite decide_False, Hd by done. by cbn [mbind res_bind bool_decide andb]. }
  split; [done |]. rewrite M. unfold dispatch. rewrite Hu. cbn [mbind res_bind].
  rewrite (proj2 (N.eqb_neq _ _) T1), (proj2 (N.eqb_neq _ _) T2), (proj2 (N.eqb_neq _ _) T3), S2. split.
  - intros i Hi Hx. rewrite Hx, (proj2 (N.ltb_ge _ _)), (proj2 (N.ltb_lt _ _)) by lia.
    unfold transaction_at. rewrite S1. replace (N.to_nat (min_xid + N.of_nat i - min_xid)) with i by lia.
    assert (L : map Some (seq 0 n) !! i = Some (Some i)) by (rewrite (list_lookup_fmap Some (seq 0 n)), lookup_seq_lt; done).
    rewrite L. by destruct (type =? OFPT_ERROR)%N.
  - intros Hx. destruct (N.ltb_spec (xid x) min_xid); [done |]. destruct (N.ltb_spec (xid x) (min_xid + N.of_nat n)); [| done].
    exfalso. apply (Hx (N.to_nat (xid x - min_xid))); lia.
Qed.

(** the controller and the switch manager.  Whatever connections and messages
    come, when the callbacks return, and descriptions are answered with
    descriptions, the switch manager handles every signal without an exception,
    and knows exactly the switches that said their features. *)
Theorem controller_serves_manager {data : Type} `{F : !Fluid data} `{R : !FluidReplies (data := data)} (pdescr swdescr : nat)
    (c c' : controller) (ins : list (input (data := data))) (sig : list (ctl_signal data)) :
  application_data c = ∅ → switches c = ∅ → run_inputs c ins = Ok (c', sig) → right_answers swdescr sig →
  ∃ m ns, manage_all ∅ (concat (map (to_manager pdescr swdescr) sig)) = Ok (m, ns) ∧ dom m = dom (switches c').
Proof.
  intros Ha Hs Hrun Hr. assert (Hk : data_known c) by (intros o d; rewrite Ha; by intros ?%lookup_empty_Some).
  destruct (run_known pdescr swdescr ins c c' sig Hk Hrun) as (_ & _ & H). destruct (H Hr) as [H1 H2].
  rewrite Hs, dom_empty_L in H1, H2. destruct (manage_all_ok (concat (map (to_manager pdescr swdescr) sig)) ∅) as (m & ns & E & Hd).
  - by rewrite dom_empty_L.
  - exists m, ns. split; [done |]. by rewrite Hd, dom_empty_L.
Qed.

(** C23: from connections to clients.  When a switch has one connection at a time
    and says its features once on it, a client of the REST interface that asks
    for the events of the switch manager now and then is answered without an
    error, and after its last question knows exactly the switches that are
    connected to the controller. *)
Theorem clients_know_switches {data : Type} `{F : !Fluid data} `{R : !FluidReplies (data := data)} (pdescr swdescr : nat)
    (c c' : controller) (m : switch_manager) (items : list (option (input (data := data)))) (ops : list rest_op)
    (apps : list (str * bool)) (param : str) :
  application_data c = ∅ → switches c = ∅ → all_orderly c items → system pdescr swdescr c ∅ items = Ok (c', m, ops) →
  NoDup (map fst apps) → (eventables apps ≤ 32)%nat → (switch_manager_name, true) ∈ apps → switch_manager_name ∈ split param "&" →
  (N.of_nat (length ops) < 2 ^ 32)%N →
  ∃ l cl, run param (register_all apps init_listener) (Client (λ _, ∅) 0) (ops ++ [Poll]) = Ok (l, cl) ∧
    ∀ d, d ∈ known cl switch_manager_name ↔ connected c' d.
Proof.
  intros Ha Hs Ho Hsys Hnd Hk Happ Hparam Hlen.
  assert (Hag : agree c ∅ (λ _, ∅)).
  { split; [intros o d | intros o o' d | | intros d | done].
    - rewrite Ha. by intros ?%lookup_empty_Some.
    - rewrite Ha. by intros ?%lookup_empty_Some.
    - by rewrite Hs, !dom_empty_L.
    - unfold connected. rewrite Ha. split; [by intros ?%elem_of_empty |]. by intros [o ?%lookup_empty_Some]. }
  destruct (system_agree pdescr swdescr items c ∅ _ c' m ops Hag Ho Hsys) as (Hfit & Hag' & Hall).
  destruct (started_ok apps param Hnd Hk) as (Hreg & Hhas & Hl & Hc & Hem).
  destruct (run_ok Hreg param ops _ _ _ Hl Hc) as (l & cl & E & H1 & _); [done | done | | rewrite Hem; cbn; lia |].
  - apply Forall_elem. intros [t ty o a |] Hin; [| done]. rewrite (Hall t ty o a Hin). by apply Hhas.
  - exists l, cl. split; [done |]. intros d. rewrite H1 by (split; [done | by apply Hhas]). by apply Hag'.
Qed.

(** a switch that connects anew before its old connection ends.  When the old
    connection dies the switch is signalled down and its connection object
    loses the new connection as well: the switch's messages are still taken, but
    nothing is sent to it any more. *)
Theorem reconnect_lost {data : Type} `{F : !Fluid data} (live : N → bool) (c : controller) (o1 o2 d : N) (x : data) :
  application_data c !! o1 = Some d → o1 ≠ o2 → OFPT_FEATURES_REPLY ∉ handlers c → datapath_id (features_of x) = d →
  unpacks (Plain OFPT_FEATURES_REPLY) x = true →
  ∃ c1 c2, message_callback live false c o2 OFPT_FEATURES_REPLY x = Ok (c1, [SwitchIsUp d (features_of x)]) ∧
    connection_callback (data := data) c1 o1 EVENT_DEAD = (c2, [SwitchIsDown d]) ∧
    application_data c2 !! o2 = Some d ∧
    ∃ b, switches c2 !! d = Some b ∧ ∀ live' ms, alive live' b = false ∧ send live' b ms = [].
Proof.
  intros Hd Hne Hh Hf Hu.
  assert (E : dispatch live c o2 (application_data c !! o2) OFPT_FEATURES_REPLY x =
    Ok (with_data (createSwitchBase live c o2 d) (<[o2 := d]> (application_data c)), [SwitchIsUp d (features_of x)])).
  { unfold dispatch, OFMsgUnion. rewrite Hu, <- Hf. done. }
  unfold message_callback. cbn [andb]. rewrite decide_False by done. cbn [mbind res_bind]. rewrite E.
  rewrite andb_false_r. cbn [caught mbind res_bind app]. eexists _, _. split; [reflexivity |].
  unfold connection_callback. cbn [with_data application_data]. rewrite lookup_insert_ne, Hd by done.
  split; [reflexivity |]. unfold replace_null. cbn [with_data switches createSwitchBase with_base]. rewrite lookup_insert_eq.
  cbn [with_base switches application_data with_data]. split.
  - by rewrite lookup_delete_ne, lookup_insert_eq.
  - rewrite lookup_insert_eq. eexists. split; [reflexivity |]. done.
Qed.

(** messages that end the process.  A message whose type has handlers follows
    a null pointer when the connection has not said its features yet, and so does
    any answer of a multipart type that OFMsgUnion does not know. *)
Theorem fatal_messages {data : Type} `{F : !Fluid data} (live : N → bool) (c : controller) (o type : N) (x : data) :
  (type ∈ handlers c → application_data c !! o = None → message_callback live false c o type x = Throw Terminate) ∧
  (∀ d, application_data c !! o = Some d → OFPT_MULTIPART_REPLY ∉ handlers c → unpacks (Plain OFPT_MULTIPART_REPLY) x = true →
    (13 < mpart_type x)%N → message_callback live false c o OFPT_MULTIPART_REPLY x = Throw Terminate).
Proof.
  split.
  - intros Hh Ho. unfold message_callback. cbn [andb]. by rewrite decide_True, Ho by done.
  - intros d Hd Hh Hu Hm. unfold message_callback. cbn [andb]. rewrite decide_False, Hd by done. cbn [mbind res_bind].
    unfold dispatch, OFMsgUnion. rewrite Hu. cbn [one_of existsb require mbind res_bind].
    assert (E : reparseMultipartReply x = None).
    { unfold reparseMultipartReply, one_of. cbn [existsb]. 
      assert (Hne : ∀ k, (k ≤ 13)%N → (mpart_type x =? k)%N = false) by (intros k Hk; apply N.eqb_neq; lia).
      by rewrite !Hne by done. }
    by rewrite E.
Qed.

(** ** Two switches *)

(** A message: its xid, a datapath id and a multipart type. *)
Definition sample_data : Type := N * N * N.

#[export] Instance sample_fluid : Fluid sample_data := {|
  unpacks := λ _ _, true;
  xid := λ x, fst (fst x);
  mpart_type := λ x, snd x;
  features_of := λ x, sample_features (snd (fst x));
  port_status_of := λ _, (OFPPR_ADD, sample_port 1)
|}.

#[export] Instance sample_replies : FluidReplies (data := sample_data) := {|
  ports_read := λ _, [sample_port 1; sample_port 2]; desc_read := λ _, empty_desc |}.

Definition sample_live (o : N) : bool := (o <? 10)%N.

(** Two transactions are registered, a handler of packet-ins, and three tables. *)
Definition sample_controller : controller :=
  startUp (register_handler (fst (register_n 2 (new_controller 2))) OFPT_PACKET_IN).

Definition sample_inputs : list (input (data := sample_data)) :=
  [Connection 1 EVENT_STARTED; Message sample_live 1 OFPT_FEATURES_REPLY (0, 5, 0)%N;
   Message sample_live 1 OFPT_MULTIPART_REPLY (0xfff, 5, OFPMP_PORT_DESC)%N;
   Message sample_live 1 OFPT_MULTIPART_REPLY (0x1000, 5, OFPMP_DESC)%N;
   Connection 2 EVENT_STARTED; Message sample_live 2 OFPT_FEATURES_REPLY (0, 6, 0)%N;
   Message sample_live 2 OFPT_PORT_STATUS (0, 6, 0)%N; Connection 1 EVENT_DEAD;
   Connection 3 EVENT_STARTED; Message sample_live 3 OFPT_FEATURES_REPLY (0, 5, 0)%N; Connection 2 EVENT_CLOSED].

Definition sample_after : controller * list (ctl_signal sample_data) :=
  Eval vm_compute in match run_inputs sample_controller sample_inputs with Ok r => r | _ => (sample_controller, []) end.

Lemma sample_after_ok : run_inputs sample_controller sample_inputs = Ok sample_after.
Proof. vm_compute. reflexivity. Qed.

Lemma setup_pipeline_witness :
  ∃ ms, outbox (createSwitchBase sample_live sample_controller 1 5) = map (pair 1%N) ms ∧
    unmatched 3 (fold_left table_step ms [MissEntry 1 7 (GoToTable 9)]) 0 = Some ([0; 1; 2]%N, (OFPP_CONTROLLER, 128%N)).
Proof.
  destruct (setup_pipeline sample_live sample_controller 1 5 [MissEntry 1 7 (GoToTable 9)] 2) as (ms & E & _ & H).
  - reflexivity.
  - vm_compute. lia.
  - reflexivity.
  - exists ms. split; [exact E | exact H].
Defined.

Lemma transactions_answered_witness :
  ∃ c sig, run_inputs (startUp (fst (register_n 2 (new_controller 2)))) (take 2 sample_inputs) = Ok (c, sig) ∧
    message_callback sample_live false c 1 OFPT_ERROR (0x1000, 5, 0)%N = Ok (c, [ErrorResponse 1 5 (0x1000, 5, 0)%N]).
Proof.
  destruct (run_inputs (startUp (fst (register_n 2 (new_controller 2)))) (take 2 sample_inputs)) as [[c sig]|] eqn:E;
    [| discriminate (f_equal (λ r, match r with Ok _ => true | _ => false end) E)].
  exists c, sig. split; [reflexivity |].
  apply (transactions_answered 2 (new_controller 2) c (take 2 sample_inputs) sig sample_live 1 5 OFPT_ERROR (0x1000, 5, 0)%N (Plain OFPT_ERROR)) with (i := 1%nat).
  - reflexivity.
  - reflexivity.
  - reflexivity.
  - vm_compute. reflexivity.
  - exact E.
  - vm_compute in E. injection E as <- <-. vm_compute. reflexivity.
  - vm_compute in E. injection E as <- <-. apply not_elem_of_empty.
  - discriminate.
  - discriminate.
  - discriminate.
  - vm_compute. reflexivity.
  - lia.
  - reflexivity.
Defined.

Lemma controller_serves_manager_witness :
  ∃ m ns, manage_all ∅ (concat (map (to_manager 0 1) (snd sample_after))) = Ok (m, ns) ∧ dom m = {[ 5%N; 6%N ]}.
Proof.
  destruct (controller_serves_manager 0 1 sample_controller (fst sample_after) sample_inputs (snd sample_after)) as (m & ns & E & H).
  - reflexivity.
  - reflexivity.
  - exact sample_after_ok.
  - intros d cls x Hin. left. repeat (apply elem_of_cons in Hin as [Eq | Hin]; [first [discriminate Eq | by injection Eq as _ -> _] |]).
    by apply not_elem_of_nil in Hin.
  - exists m, ns. split; [exact E |]. rewrite H. vm_compute. reflexivity.
Defined.

Definition sample_items : list (option (input (data := sample_data))) :=
  map Some (take 4 sample_inputs) ++ [None] ++ map Some (drop 4 sample_inputs).

Definition sample_system : controller * switch_manager * list rest_op :=
  Eval vm_compute in match system 0 1 sample_controller ∅ sample_items with Ok r => r | _ => (sample_controller, ∅, []) end.

Lemma sample_system_ok : system 0 1 sample_controller ∅ sample_items = Ok sample_system.
Proof. vm_compute. reflexivity. Qed.

(** Whether a map has no value [d]. *)
Definition no_value (m : gmap N N) (d : N) : bool := forallb (λ x, negb (snd x =? d)%N) (map_to_list m).

Lemma no_value_spec m d : no_value m d = true → ∀ o, m !! o ≠ Some d.
Proof.
  unfold no_value. rewrite forallb_forall. intros H o E%elem_of_map_to_list%list_elem_of_In. specialize (H _ E). cbn in H.
  by rewrite N.eqb_refl in H.
Qed.

Definition orderly_dec (c : controller) (i : input (data := sample_data)) : bool :=
  match i with
  | Message _ ofconn type x =>
      negb (type =? OFPT_FEATURES_REPLY)%N ||
      (bool_decide (application_data c !! ofconn = None) && no_value (application_data c) (datapath_id (features_of x)))
  | Connection ofconn EVENT_STARTED => bool_decide (application_data c !! ofconn = None)
  | _ => true
  end.

Fixpoint all_orderly_dec (c : controller) (items : list (option (input (data := sample_data)))) : bool :=
  match items with
  | [] => true
  | None :: items => all_orderly_dec c items
  | Some i :: items => orderly_dec c i && match step_input c i with Ok (c', _) => all_orderly_dec c' items | _ => true end
  end.

Lemma all_orderly_decides items : ∀ c, all_orderly_dec c items = true → all_orderly c items.
Proof.
  induction items as [|[i|] items IH]; intros c; cbn [all_orderly_dec all_orderly]; [done | | apply IH].
  intros [Hi Hr]%andb_true_iff. split.
  - destruct i as [live o type x | o []]; cbn in Hi |- *; try done; [| by apply bool_decide_eq_true in Hi].
    intros ->. cbn in Hi. apply andb_true_iff in Hi as [H1%bool_decide_eq_true H2]. split; [done | by apply no_value_spec].
  - intros c' sig E. rewrite E in Hr. by apply IH.
Qed.

Lemma clients_know_switches_witness :
  ∃ l cl, run (lit "switch-manager") (register_all sample_apps init_listener) (Client (λ _, ∅) 0) (snd sample_system ++ [Poll]) = Ok (l, cl) ∧
    5%N ∈ known cl switch_manager_name ∧ 6%N ∉ known cl switch_manager_name.
Proof.
  destruct (clients_know_switches 0 1 sample_controller (fst (fst sample_system)) (snd (fst sample_system)) sample_items (snd sample_system)
              sample_apps (lit "switch-manager")) as (l & cl & E & H).
  - reflexivity.
  - reflexivity.
  - apply all_orderly_decides. vm_compute. reflexivity.
  - exact sample_system_ok.
  - apply (bool_decide_unpack _). vm_compute. exact I.
  - vm_compute. repeat constructor.
  - apply (bool_decide_unpack _). vm_compute. exact I.
  - apply (bool_decide_unpack _). vm_compute. exact I.
  - vm_compute. reflexivity.
  - exists l, cl. split; [exact E |]. split.
    + apply H. exists 3%N. vm_compute. reflexivity.
    + intros [o Ho]%H. revert o Ho. apply no_value_spec. vm_compute. reflexivity.
Defined.

Lemma reconnect_lost_witness :
  ∃ c1 c2, message_callback sample_live false (fst sample_after) 4 OFPT_FEATURES_REPLY (0, 5, 0)%N = Ok (c1, [SwitchIsUp 5 (sample_features 5)]) ∧
    connection_callback (data := sample_data) c1 3 EVENT_DEAD = (c2, [SwitchIsDown 5]) ∧
    application_data c2 !! 4%N = Some 5%N ∧ ∃ b, switches c2 !! 5%N = Some b ∧ ∀ live' ms, alive live' b = false ∧ send live' b ms = [].
Proof.
  assert (H := reconnect_lost (data := sample_data) sample_live (fst sample_after) 3 4 5 (0, 5, 0)%N).
  apply H; clear H.
  - vm_compute. reflexivity.
  - discriminate.
  - vm_compute. inversion 1.
  - reflexivity.
  - reflexivity.
Defined.

Lemma fatal_messages_witness :
  message_callback sample_live false sample_controller 1 OFPT_PACKET_IN (0, 5, 0)%N = Throw Terminate ∧
  message_callback sample_live false (fst sample_after) 3 OFPT_MULTIPART_REPLY (0xfff, 5, 0xffff)%N = Throw Terminate.
Proof.
  split.
  - apply (fatal_messages sample_live sample_controller 1 OFPT_PACKET_IN (0, 5, 0)%N).
    + apply (bool_decide_unpack _). vm_compute. exact I.
    + reflexivity.
  - apply (fatal_messages sample_live (fst sample_after) 3 OFPT_MULTIPART_REPLY (0xfff, 5, 0xffff)%N) with (d := 5%N).
    + vm_compute. reflexivity.
    + apply (bool_decide_unpack _). vm_compute. exact I.
    + reflexivity.
    + vm_compute. reflexivity.
Defined.
