(* ===== verification/FlowManager.v ===== *)
(** * FlowManager: the rules of switches, FlowManager.hh and .cc

    The flows that a switch reports are compared with the rules that are known:
    rules that are not among them end, and new ones are made for what is left.
    A rule is known by its number; what is told of it are reports to the clients
    of the REST interface.  The matches and instructions of libfluid and their
    equality are parameters.

    After each reply the rules are the flows of the reply
    ([flow_manager_in_sync]), and so a reply in two parts leaves the second one
    only ([split_reply_lost]); a reply that brings nothing new changes nothing
    ([same_flows_quiet]); clients know exactly the rules there are. *)

From S2P Require Import Prelude Bits Regex.
From stdpp Require Import strings.
From S2P Require Import RestEvents.

Definition flow_manager_name : str := lit "flow-manager".

Section Flows.
Context {M I : Type}.

Record flow_stats : Type := FlowStats {
  fs_cookie : N; fs_hard : N; fs_idle : N; fs_priority : N; fs_table : N; fs_flags : N; fs_match : M; fs_instructions : I }.

Record rule : Type := Rule { rule_id : N; r_switch : N; flow : flow_stats }.

(** [last_event] is that of [RuleIDs]; [inactive]: the rules whose [active] is false. *)
Record flow_manager : Type := FlowManager { all_switches_rules : gmap N (list rule); last_event : N; inactive : gset N }.

Definition no_rules : flow_manager := FlowManager ∅ 0 ∅.

(** [all_switches_rules[d]] *)
Definition rules_of (fm : flow_manager) (d : N) : list rule := default [] (all_switches_rules fm !! d).

Section Equality.
(** The operators == of libfluid. *)
Context (match_eqb : M → M → bool) (instructions_eqb : I → I → bool).

Definition equalflows (one two : flow_stats) : bool :=
  (fs_cookie one =? fs_cookie two)%N && (fs_hard one =? fs_hard two)%N && (fs_idle one =? fs_idle two)%N &&
  (fs_priority one =? fs_priority two)%N && (fs_table one =? fs_table two)%N && (fs_flags one =? fs_flags two)%N &&
  match_eqb (fs_match one) (fs_match two) && instructions_eqb (fs_instructions one) (fs_instructions two).

(** The flows without the first that equals [f]. *)
Fixpoint erase_equal (flows : list flow_stats) (f : flow_stats) : option (list flow_stats) :=
  match flows with
  | [] => None
  | x :: flows => if equalflows x f then Some flows else cons x <$> erase_equal flows f
  end.

(** [std::remove_if] with its predicate: rules that stay, that end, and the flows left. *)
Fixpoint sift (flows : list flow_stats) (rs : list rule) : list rule * list rule * list flow_stats :=
  match rs with
  | [] => ([], [], flows)
  | r :: rs =>
      match erase_equal flows (flow r) with
      | Some flows' => let '(kept, gone, rest) := sift flows' rs in (r :: kept, gone, rest)
      | None => let '(kept, gone, rest) := sift flows rs in (kept, r :: gone, rest)
      end
  end.

(** [new Rule] for each. *)
Fixpoint make_rules (last d : N) (flows : list flow_stats) : list rule * N :=
  match flows with
  | [] => ([], last)
  | f :: flows =>
      let id := wrap 64 (last + 1) in
      let '(rs, last') := make_rules id d flows in (Rule id d f :: rs, last')
  end.

Definition tell (ty : event_type) (r : rule) : rest_op := Report 0 ty (rule_id r) flow_manager_name.

Definition updateSwitchRules (fm : flow_manager) (d : N) (flows : list flow_stats) : flow_manager * list rest_op :=
  let '(kept, gone, rest) := sift flows (rules_of fm d) in
  let '(fresh, last) := make_rules (last_event fm) d rest in
  (FlowManager (<[d := kept ++ fresh]> (all_switches_rules fm)) last (list_to_set (map rule_id gone) ∪ inactive fm),
   map (tell Delete) gone ++ map (tell Add) fresh).

(** [onSwitchDown] *)
Definition cleanSwitchRules (fm : flow_manager) (d : N) : flow_manager * list rest_op :=
  let rs := rules_of fm d in
  (FlowManager (<[d := []]> (all_switches_rules fm)) (last_event fm) (list_to_set (map rule_id rs) ∪ inactive fm), map (tell Delete) rs).

Definition addRule (fm : flow_manager) (d : N) (f : flow_stats) : flow_manager * list rest_op :=
  let r := Rule (wrap 64 (last_event fm + 1)) d f in
  (FlowManager (<[d := rules_of fm d ++ [r]]> (all_switches_rules fm)) (rule_id r) (inactive fm), [tell Add r]).

(** ** Requests *)

(** OFPFC_DELETE, any port and group. *)
Record flow_delete : Type := FlowDelete { fd_match : M; fd_table : N; fd_cookie : N; fd_cookie_mask : N; fd_priority : N }.

Definition deleteRule (r : rule) : flow_delete :=
  FlowDelete (fs_match (flow r)) (fs_table (flow r)) (fs_cookie (flow r)) 0xffffffffffffffff (fs_priority (flow r)).

Inductive rest_answer : Type := SwitchNotFound | NoFlows | FlowDeleted | FlowNotFound | ActiveRules (rs : list rule).

(** [known]: whether the switch manager has the switch. *)
Definition handleGET (fm : flow_manager) (known : bool) (d : N) : rest_answer :=
  if negb known then SwitchNotFound else ActiveRules (rules_of fm d).

Definition handleDELETE (fm : flow_manager) (known : bool) (d flow_id : N) : rest_answer * option flow_delete :=
  if negb known then (SwitchNotFound, None)
  else
    match all_switches_rules fm !! d with
    | None => (NoFlows, None)
    | Some rs =>
        match List.find (λ r, (rule_id r =? flow_id)%N) rs with
        | Some r => (FlowDeleted, Some (deleteRule r))
        | None => (FlowNotFound, None)
        end
    end.

(** ** What happens to the application *)

Inductive flow_event : Type := Reply (d : N) (flows : list flow_stats) | SwitchDown (d : N) | Question.

Definition flow_step (fm : flow_manager) (e : flow_event) : flow_manager * list rest_op :=
  match e with
  | Reply d flows => updateSwitchRules fm d flows
  | SwitchDown d => cleanSwitchRules fm d
  | Question => (fm, [Poll])
  end.

Fixpoint flow_run (fm : flow_manager) (es : list flow_event) : flow_manager * list rest_op :=
  match es with
  | [] => (fm, [])
  | e :: es => let '(fm1, ops1) := flow_step fm e in let '(fm2, ops2) := flow_run fm1 es in (fm2, ops1 ++ ops2)
  end.

(** The flows of the last reply since the switch went down. *)
Definition hear_flows (last : N → list flow_stats) (e : flow_event) : N → list flow_stats :=
  match e with
  | Reply d flows => λ x, if decide (x = d) then flows else last x
  | SwitchDown d => λ x, if decide (x = d) then [] else last x
  | Question => last
  end.

(** The number of flows in all replies. *)
Definition flows_in (es : list flow_event) : nat :=
  length (concat (map (λ e, match e with Reply _ flows => flows | _ => [] end) es)).

(** The rules are the flows, in some order. *)
Definition flows_agree (rs : list rule) (flows : list flow_stats) : Prop :=
  ∃ l, l ≡ₚ flows ∧ Forall2 (λ r f, equalflows f (flow r) = true) rs l.

(** What == of libfluid is taken to be. *)
Class Equality {A} (e : A → A → bool) : Prop := {
  equal_refl a : e a a = true;
  equal_sym a b : e a b = true → e b a = true;
  equal_trans a b c : e a b = true → e b c = true → e a c = true
}.

(** ** Rules and flows *)

Lemma erase_equal_Some flows f flows' :
  erase_equal flows f = Some flows' → ∃ x, flows ≡ₚ x :: flows' ∧ equalflows x f = true.
Proof.
  revert flows'. induction flows as [|y flows IH]; intros flows'; cbn [erase_equal]; [done |].
  destruct (equalflows y f) eqn:E; [intros [= <-]; by exists y |].
  destruct (erase_equal flows f) as [l|]; [| done]. intros [= <-]. destruct (IH l eq_refl) as (x & Hp & Hx).
  exists x. split; [| done]. rewrite Hp. apply Permutation_swap.
Qed.

Lemma sift_agrees rs : ∀ flows kept gone rest, sift flows rs = (kept, gone, rest) →
  (∃ l, l ++ rest ≡ₚ flows ∧ Forall2 (λ r f, equalflows f (flow r) = true) kept l) ∧
  rs ≡ₚ kept ++ gone ∧ (length rest ≤ length flows)%nat.
Proof.
  induction rs as [|r rs IH]; intros flows kept gone rest; cbn [sift].
  - intros [= <- <- <-]. split_and!; [by exists [] | done | done].
  - destruct (erase_equal flows (flow r)) as [flows'|] eqn:E.
    + destruct (sift flows' rs) as [[k g] l0] eqn:Es. intros [= <- <- <-]. destruct (IH _ _ _ _ Es) as ((l & Hp & Hf) & Hr & Hl).
      destruct (erase_equal_Some flows (flow r) flows' E) as (x & Hx & Hxe). split_and!.
      * exists (x :: l). split; [by rewrite Hx, <- Hp | by constructor].
      * by rewrite Hr.
      * rewrite Hx. cbn. lia.
    + destruct (sift flows rs) as [[k g] l0] eqn:Es. intros [= <- <- <-]. destruct (IH _ _ _ _ Es) as (H1 & Hr & Hl).
      split_and!; [done | by rewrite Hr, Permutation_middle | done].
Qed.

Lemma make_rules_spec flows : ∀ last d rs last',
  make_rules last d flows = (rs, last') → (last + N.of_nat (length flows) < 2 ^ 64)%N →
  map rule_id rs = map (λ i, last + N.of_nat i)%N (seq 1 (length flows)) ∧ map flow rs = flows ∧
  last' = (last + N.of_nat (length flows))%N.
Proof.
  induction flows as [|f flows IH]; intros last d rs last'; cbn [make_rules length].
  - intros [= <- <-] _. split_and!; [done | done | lia].
  - intros E Hlt. rewrite wrap_id in E by lia. destruct (make_rules (last + 1) d flows) as [rs1 l1] eqn:E1. injection E as <- <-.
    destruct (IH _ _ _ _ E1) as (H1 & H2 & H3); [lia |]. split_and!; [| by cbn; rewrite H2 | lia].
    cbn [map seq rule_id]. f_equal. rewrite H1. rewrite <- (seq_shift (length flows) 1), map_map. apply map_ext. intros i. lia.
Qed.

(** ** What clients are told *)

Definition told (ty : event_type) (rs : list rule) : list rest_op := map (tell ty) rs.

Lemma deletes_fit rs : ∀ X, NoDup (map rule_id rs) → (∀ r, r ∈ rs → rule_id r ∈ X flow_manager_name) →
  ops_fit X (told Delete rs) ∧
  (∀ o, o ∈ fold_left tell_op (told Delete rs) X flow_manager_name ↔ o ∈ X flow_manager_name ∧ o ∉ map rule_id rs) ∧
  ∀ a, a ≠ flow_manager_name → fold_left tell_op (told Delete rs) X a = X a.
Proof.
  induction rs as [|r rs IH]; intros X Hnd Hin; cbn [told map ops_fit fold_left].
  - split_and!; [done | | done]. intros o. split; [| by intros [? _]]. intros Ho. split; [done | apply not_elem_of_nil].
  - cbn [map] in Hnd. apply NoDup_cons in Hnd as [Hr Hnd]. set (X' := tell_op X (tell Delete r)).
    assert (Hname : X' flow_manager_name = X flow_manager_name ∖ {[ rule_id r ]}) by (unfold X'; cbn [tell_op tell]; by rewrite decide_True).
    assert (Hother : ∀ a, a ≠ flow_manager_name → X' a = X a) by (intros a Ha; unfold X'; cbn [tell_op tell]; by rewrite decide_False).
    destruct (IH X' Hnd) as (H1 & H2 & H3).
    { intros r' Hr'. rewrite Hname, elem_of_difference, elem_of_singleton. split; [apply Hin; by constructor |].
      intros E. apply Hr. rewrite <- E. by apply list_elem_of_fmap_2. }
    split_and!; [apply Hin; constructor | done | | by intros a Ha; rewrite H3, Hother].
    intros o. rewrite H2, Hname, elem_of_difference, elem_of_singleton, elem_of_cons. naive_solver.
Qed.

Lemma adds_fit rs : ∀ X, NoDup (map rule_id rs) → (∀ r a, r ∈ rs → rule_id r ∉ X a) →
  ops_fit X (told Add rs) ∧
  (∀ o, o ∈ fold_left tell_op (told Add rs) X flow_manager_name ↔ o ∈ X flow_manager_name ∨ o ∈ map rule_id rs) ∧
  ∀ a, a ≠ flow_manager_name → fold_left tell_op (told Add rs) X a = X a.
Proof.
  induction rs as [|r rs IH]; intros X Hnd Hout; cbn [told map ops_fit fold_left].
  - split_and!; [done | | done]. intros o. split; [by left | by intros [? | ?%not_elem_of_nil]].
  - cbn [map] in Hnd. apply NoDup_cons in Hnd as [Hr Hnd]. set (X' := tell_op X (tell Add r)).
    assert (Hname : X' flow_manager_name = {[ rule_id r ]} ∪ X flow_manager_name) by (unfold X'; cbn [tell_op tell]; by rewrite decide_True).
    assert (Hother : ∀ a, a ≠ flow_manager_name → X' a = X a) by (intros a Ha; unfold X'; cbn [tell_op tell]; by rewrite decide_False).
    destruct (IH X' Hnd) as (H1 & H2 & H3).
    { intros r' a Hr'. assert (Ho : rule_id r' ∉ X a) by (apply Hout; by constructor).
      destruct (decide (a = flow_manager_name)) as [-> | Hne]; [| by rewrite Hother].
      rewrite Hname, elem_of_union, elem_of_singleton. intros [E | ?]; [| done]. apply Hr. rewrite <- E. by apply list_elem_of_fmap_2. }
    split_and!; [intros a; apply Hout; constructor | done | | by intros a Ha; rewrite H3, Hother].
    intros o. rewrite H2, Hname, elem_of_union, elem_of_singleton, elem_of_cons. naive_solver.
Qed.

(** Numbers are not used twice, and are what clients were told. *)
Record rules_ok (fm : flow_manager) (X : objects) : Prop := {
  rk_last d r : r ∈ rules_of fm d → (rule_id r ≤ last_event fm)%N;
  rk_once d : NoDup (map rule_id (rules_of fm d));
  rk_apart d d' r r' : r ∈ rules_of fm d → r' ∈ rules_of fm d' → rule_id r = rule_id r' → d = d';
  rk_known o : o ∈ X flow_manager_name ↔ ∃ d r, r ∈ rules_of fm d ∧ rule_id r = o;
  rk_others a : a ≠ flow_manager_name → X a = ∅
}.

(** The rules of one switch are replaced: some of the old ones, then new ones. *)
Lemma replace_ok fm X d kept gone fresh last inact :
  rules_ok fm X → rules_of fm d ≡ₚ kept ++ gone → NoDup (map rule_id fresh) →
  (∀ r, r ∈ fresh → (last_event fm < rule_id r ≤ last)%N) → (last_event fm ≤ last)%N →
  let ops := told Delete gone ++ told Add fresh in
  ops_fit X ops ∧ rules_ok (FlowManager (<[d := kept ++ fresh]> (all_switches_rules fm)) last inact) (fold_left tell_op ops X).
Proof.
  intros [H1 H2 H3 H4 H5] Hp Hnd Hfresh Hlast ops.
  assert (Hperm : map rule_id (rules_of fm d) ≡ₚ map rule_id kept ++ map rule_id gone) by (by rewrite Hp, map_app).
  pose proof (H2 d) as Hd. rewrite Hperm in Hd. apply NoDup_app in Hd as (Hk & Hkg & Hg).
  assert (Hin : ∀ r, r ∈ kept ∨ r ∈ gone ↔ r ∈ rules_of fm d) by (intros r; by rewrite Hp, elem_of_app).
  destruct (deletes_fit gone X Hg) as (F1 & K1 & O1); [intros r Hr; apply H4; exists d, r; split; [apply Hin; by right | done] |].
  set (X1 := fold_left tell_op (told Delete gone) X) in *.
  assert (Hold : ∀ r a, r ∈ fresh → rule_id r ∉ X1 a).
  { intros r a Hr Ho. destruct (decide (a = flow_manager_name)) as [-> | Hne]; [| by rewrite O1, H5 in Ho].
    apply K1 in Ho as [Ho _]. apply H4 in Ho as (d' & r' & Hr' & E). specialize (Hfresh r Hr). specialize (H1 d' r' Hr'). lia. }
  destruct (adds_fit fresh X1 Hnd Hold) as (F2 & K2 & O2).
  assert (R : ∀ e, rules_of (FlowManager (<[d := kept ++ fresh]> (all_switches_rules fm)) last inact) e =
                   if decide (e = d) then kept ++ fresh else rules_of fm e).
  { intros e. unfold rules_of. cbn [all_switches_rules]. destruct (decide (e = d)) as [-> | Hne]; [by rewrite lookup_insert_eq | by rewrite lookup_insert_ne]. }
  split; [by apply ops_fit_app |]. unfold ops. rewrite fold_left_app. fold X1. split.
  - intros e r. rewrite R. cbn [last_event]. destruct (decide _) as [-> |]; [intros [Hr | Hr]%elem_of_app | intros Hr].
    + specialize (H1 d r (proj1 (Hin r) (or_introl Hr))). lia.
    + apply Hfresh in Hr. lia.
    + specialize (H1 e r Hr). lia.
  - intros e. rewrite R. destruct (decide _) as [-> |]; [| apply H2]. rewrite map_app. apply NoDup_app. split_and!; [done | | done].
    intros o (r & -> & Hr)%list_elem_of_fmap (r' & E & Hr')%list_elem_of_fmap.
    specialize (H1 d r (proj1 (Hin r) (or_introl Hr))). specialize (Hfresh r' Hr'). lia.
  - assert (A : ∀ e r, r ∈ (if decide (e = d) then kept ++ fresh else rules_of fm e) → r ∈ rules_of fm e ∨ (e = d ∧ (last_event fm < rule_id r)%N)).
    { intros e r. destruct (decide (e = d)) as [-> |]; [intros [Hr | Hr]%elem_of_app | by left].
      - left. apply Hin. by left.
      - right. split; [done |]. by apply Hfresh. }
    intros e e' r r'. rewrite !R. intros [Hr | [-> Hr]]%A [Hr' | [-> Hr']]%A E; [by eapply H3 | | | done].
    + specialize (H1 e r Hr). lia.
    + specialize (H1 e' r' Hr'). lia.
  - intros o. rewrite K2, K1, H4. split.
    + intros [[(e & r & Hr & <-) Hng] | (r & -> & Hr)%list_elem_of_fmap].
      * exists e, r. rewrite R. split; [| done]. destruct (decide (e = d)) as [-> |]; [| done]. apply elem_of_app. left.
        apply Hin in Hr as [Hr | Hr]; [done |]. destruct Hng. by apply list_elem_of_fmap_2.
      * exists d, r. rewrite R, decide_True by done. split; [apply elem_of_app; by right | done].
    + intros (e & r & Hr & <-). rewrite R in Hr. destruct (decide (e = d)) as [-> | Hne]; [apply elem_of_app in Hr as [Hr | Hr] |].
      * left. split; [exists d, r; split; [apply Hin; by left | done] |]. apply Hkg. by apply list_elem_of_fmap_2.
      * right. by apply list_elem_of_fmap_2.
      * left. split; [by exists e, r |]. intros (r' & E & Hr')%list_elem_of_fmap. apply Hne.
        by apply (H3 e d r r'); [| apply Hin; right |].
  - intros a Ha. by rewrite O2, O1, H5.
Qed.

Context `{HM : !Equality match_eqb} `{HI : !Equality instructions_eqb}.

#[local] Instance equalflows_equality : Equality equalflows.
Proof.
  split; unfold equalflows; intros *; rewrite ?andb_true_iff, ?N.eqb_eq.
  - split_and!; try done; apply equal_refl.
  - intros (((((((-> & ->) & ->) & ->) & ->) & ->) & Hm) & Hi). split_and!; try done; by apply equal_sym.
  - intros (((((((-> & ->) & ->) & ->) & ->) & ->) & Hm) & Hi) (((((((-> & ->) & ->) & ->) & ->) & ->) & Hm') & Hi').
    split_and!; try done; by eapply equal_trans.
Qed.

Lemma update_agrees fm d flows fm' ops :
  updateSwitchRules fm d flows = (fm', ops) → (last_event fm + N.of_nat (length flows) < 2 ^ 64)%N →
  flows_agree (rules_of fm' d) flows ∧ (∀ e, e ≠ d → rules_of fm' e = rules_of fm e) ∧
  (last_event fm' ≤ last_event fm + N.of_nat (length flows))%N.
Proof.
  unfold updateSwitchRules. destruct (sift flows (rules_of fm d)) as [[kept gone] rest] eqn:Es.
  destruct (make_rules (last_event fm) d rest) as [fresh last] eqn:Em. intros [= <- _] Hlt.
  destruct (sift_agrees _ _ _ _ _ Es) as ((l & Hp & Hf) & _ & Hl). destruct (make_rules_spec _ _ _ _ _ Em) as (_ & E2 & E3); [lia |].
  unfold rules_of. cbn [all_switches_rules last_event]. split_and!; [| intros e Hne; by rewrite lookup_insert_ne | lia].
  rewrite lookup_insert_eq. exists (l ++ rest). split; [done |]. apply Forall2_app; [done |]. rewrite <- E2.
  clear -HM HI. induction fresh as [|r fresh IH]; [constructor |]. constructor; [apply equal_refl | done].
Qed.

Lemma update_ok fm X d flows fm' ops :
  rules_ok fm X → (last_event fm + N.of_nat (length flows) < 2 ^ 64)%N → updateSwitchRules fm d flows = (fm', ops) →
  ops_fit X ops ∧ rules_ok fm' (fold_left tell_op ops X).
Proof.
  intros Hok Hlt. unfold updateSwitchRules. destruct (sift flows (rules_of fm d)) as [[kept gone] rest] eqn:Es.
  destruct (make_rules (last_event fm) d rest) as [fresh last] eqn:Em. intros [= <- <-].
  destruct (sift_agrees _ _ _ _ _ Es) as (_ & Hp & Hl). destruct (make_rules_spec _ _ _ _ _ Em) as (E1 & _ & E3); [lia |].
  apply replace_ok; [done | done | | | lia].
  - rewrite E1. assert (Inj (=) (=) (λ i, last_event fm + N.of_nat i)%N) by (intros i j; lia). apply (NoDup_fmap_2 _), NoDup_seq.
  - intros r Hr. assert (Hin : rule_id r ∈ map rule_id fresh) by (by apply list_elem_of_fmap_2).
    rewrite E1 in Hin. apply list_elem_of_fmap in Hin as (i & E & Hi%elem_of_seq). lia.
Qed.

Lemma clean_ok fm X d fm' ops :
  rules_ok fm X → cleanSwitchRules fm d = (fm', ops) → ops_fit X ops ∧ rules_ok fm' (fold_left tell_op ops X).
Proof.
  intros Hok [= <- <-]. pose proof (replace_ok fm X d [] (rules_of fm d) [] (last_event fm) (list_to_set (map rule_id (rules_of fm d)) ∪ inactive fm) Hok) as H.
  unfold told in H. cbn [map app] in H. rewrite app_nil_r in H. apply H; [done | constructor | by intros r ?%not_elem_of_nil | lia].
Qed.

Definition by_flow_manager (ops : list rest_op) : Prop := ∀ t ty o a, Report t ty o a ∈ ops → a = flow_manager_name.

Lemma told_by ty rs : by_flow_manager (map (tell ty) rs).
Proof. intros t ty' o a (r & [= _ _ _ ->] & _)%list_elem_of_fmap. done. Qed.

Lemma by_app ops ops' : by_flow_manager ops → by_flow_manager ops' → by_flow_manager (ops ++ ops').
Proof. intros H H' t ty o a [Hin | Hin]%elem_of_app; eauto. Qed.

Lemma step_flows fm X last e fm' ops :
  rules_ok fm X → (∀ d, flows_agree (rules_of fm d) (last d)) → (last_event fm + N.of_nat (flows_in [e]) < 2 ^ 64)%N →
  flow_step fm e = (fm', ops) →
  ops_fit X ops ∧ rules_ok fm' (fold_left tell_op ops X) ∧ (∀ d, flows_agree (rules_of fm' d) (hear_flows last e d)) ∧
  by_flow_manager ops ∧ (last_event fm' ≤ last_event fm + N.of_nat (flows_in [e]))%N.
Proof.
  intros Hok Hag Hlt. destruct e as [d flows | d |]; cbn [flow_step hear_flows].
  - unfold flows_in in *. cbn [map concat] in *. rewrite app_nil_r in *. intros E.
    destruct (update_ok fm X d flows fm' ops Hok Hlt E) as [H1 H2]. destruct (update_agrees fm d flows fm' ops E Hlt) as (H3 & H4 & H5).
    split_and!; [done | done | | | done].
    + intros e. destruct (decide (e = d)) as [-> | Hne]; [done |]. by rewrite H4.
    + unfold updateSwitchRules in E. destruct (sift _ _) as [[kept gone] rest], (make_rules _ _ _) as [fresh l].
      injection E as _ <-. apply by_app; apply told_by.
  - intros E. destruct (clean_ok fm X d fm' ops Hok E) as [H1 H2]. injection E as <- <-. split_and!; [done | done | | apply told_by | cbn; lia].
    intros e. unfold rules_of. cbn [all_switches_rules]. destruct (decide (e = d)) as [-> | Hne].
    + rewrite lookup_insert_eq. by exists [].
    + rewrite lookup_insert_ne by done. apply Hag.
  - intros [= <- <-]. split_and!; [done | done | done | | lia]. by intros t ty o a [=]%list_elem_of_singleton.
Qed.

Lemma run_flows es : ∀ fm X last fm' ops,
  rules_ok fm X → (∀ d, flows_agree (rules_of fm d) (last d)) → (last_event fm + N.of_nat (flows_in es) < 2 ^ 64)%N →
  flow_run fm es = (fm', ops) →
  ops_fit X ops ∧ rules_ok fm' (fold_left tell_op ops X) ∧ (∀ d, flows_agree (rules_of fm' d) (fold_left hear_flows es last d)) ∧
  by_flow_manager ops.
Proof.
  induction es as [|e es IH]; intros fm X last fm' ops Hok Hag Hlt; cbn [flow_run fold_left].
  - intros [= <- <-]. split_and!; [done | done | done |]. by intros t ty o a ?%not_elem_of_nil.
  - assert (Hsum : flows_in (e :: es) = (flows_in [e] + flows_in es)%nat).
    { unfold flows_in. cbn [map concat]. by rewrite app_nil_r, length_app. }
    destruct (flow_step fm e) as [fm1 ops1] eqn:E1, (flow_run fm1 es) as [fm2 ops2] eqn:E2. intros [= <- <-].
    destruct (step_flows fm X last e fm1 ops1 Hok Hag) as (H1 & H2 & H3 & H4 & H5); [lia | done |].
    destruct (IH fm1 _ _ fm2 ops2 H2 H3) as (H6 & H7 & H8 & H9); [lia | done |].
    split_and!; [by apply ops_fit_app | by rewrite fold_left_app | done | by apply by_app].
Qed.

Lemma no_rules_ok : rules_ok no_rules (λ _, ∅).
Proof.
  assert (R : ∀ d, rules_of no_rules d = []) by (intros d; unfold rules_of; cbn; by rewrite lookup_empty).
  split; try setoid_rewrite R.
  - by intros d r ?%not_elem_of_nil.
  - intros d. constructor.
  - by intros d d' r r' ?%not_elem_of_nil.
  - intros o. split; [by intros ?%elem_of_empty |]. by intros (d & r & ?%not_elem_of_nil & _).
  - done.
Qed.

Lemma sift_same rs : ∀ flows, flows_agree rs flows → sift flows rs = (rs, [], []).
Proof.
  induction rs as [|r rs IH]; intros flows (l & Hp & Hf).
  - apply Forall2_nil_inv_l in Hf as ->. apply Permutation_nil in Hp as ->. done.
  - apply Forall2_cons_inv_l in Hf as (f & l' & Hr & Hf & ->). cbn [sift].
    destruct (erase_equal flows (flow r)) as [flows'|] eqn:E.
    + destruct (erase_equal_Some flows (flow r) flows' E) as (x & Hx & Hxr). rewrite (IH flows'); [done |].
      rewrite Hx in Hp. assert (Hin : x ∈ f :: l') by (rewrite Hp; constructor).
      apply elem_of_cons in Hin as [-> | (a & b & ->)%list_elem_of_split].
      * exists l'. split; [by apply Permutation_cons_inv in Hp | done].
      * exists (a ++ f :: b). split.
        -- apply (Permutation_cons_inv (a := x)). rewrite <- Hp. rewrite <- !Permutation_middle. apply Permutation_swap.
        -- apply Forall2_app_inv_r in Hf as (ra & rb & Ha & Hb & ->). apply Forall2_cons_inv_r in Hb as (r' & rb' & Hr' & Hb & ->).
           apply Forall2_app; [done |]. constructor; [| done]. apply equal_trans with (flow r); [done |].
           apply equal_trans with x; [by apply equal_sym | done].
    + exfalso. assert (Hin : f ∈ flows) by (rewrite <- Hp; constructor). clear -E Hin Hr. induction flows as [|y flows IH]; [by apply not_elem_of_nil in Hin |].
      cbn [erase_equal] in E. destruct (equalflows y (flow r)) eqn:Ey; [done |].
      apply elem_of_cons in Hin as [<- | Hin]; [congruence |]. destruct (erase_equal flows (flow r)); [done |]. by apply IH.
Qed.

(** ** Properties *)

(** C25: rules and their clients.  After any replies of switches and lost switches,
    and questions of clients in between, the rules of each switch are the flows
    of its last reply, each once, and none when it went down since; a client of
    the REST interface that asks for the events is answered without an error,
    and after its last question knows exactly the rules there are. *)
Theorem flow_manager_in_sync (es : list flow_event) (fm : flow_manager) (ops : list rest_op) (apps : list (str * bool)) (param : str) :
  flow_run no_rules es = (fm, ops) → (N.of_nat (flows_in es) < 2 ^ 64)%N → (N.of_nat (length ops) < 2 ^ 32)%N →
  NoDup (map fst apps) → (eventables apps ≤ 32)%nat → (flow_manager_name, true) ∈ apps → flow_manager_name ∈ split param "&" →
  (∀ d, flows_agree (rules_of fm d) (fold_left hear_flows es (λ _, []) d)) ∧
  ∃ l cl, run param (register_all apps init_listener) (Client (λ _, ∅) 0) (ops ++ [Poll]) = Ok (l, cl) ∧
    ∀ o, o ∈ known cl flow_manager_name ↔ ∃ d r, r ∈ rules_of fm d ∧ rule_id r = o.
Proof.
  intros E Hlt Hlen Hnd Hk Happ Hparam.
  destruct (run_flows es no_rules (λ _, ∅) (λ _, []) fm ops no_rules_ok) as (H1 & H2 & H3 & H4); [| done | done |].
  { intros d. unfold rules_of. cbn. rewrite lookup_empty. by exists []. }
  split; [done |]. destruct (started_ok apps param Hnd Hk) as (Hreg & Hhas & Hl & Hc & Hem).
  destruct (run_ok Hreg param ops _ _ _ Hl Hc) as (l & cl & Er & K & _); [done | done | | rewrite Hem; cbn; lia |].
  - apply Forall_elem. intros [t ty o a |] Hin; [| done]. rewrite (H4 t ty o a Hin). by apply Hhas.
  - exists l, cl. split; [done |]. intros o. rewrite K by (split; [done | by apply Hhas]). apply H2.
Qed.

(** the same flows again.  A reply with the flows that are known, in any
    order, changes no rule and tells clients nothing. *)
Theorem same_flows_quiet (fm : flow_manager) (d : N) (flows : list flow_stats) :
  flows_agree (rules_of fm d) flows →
  ∃ fm', updateSwitchRules fm d flows = (fm', []) ∧ (∀ e, rules_of fm' e = rules_of fm e) ∧
    last_event fm' = last_event fm ∧ inactive fm' = inactive fm.
Proof.
  intros H. unfold updateSwitchRules. rewrite sift_same by done. cbn [make_rules map app list_to_set]. eexists. split; [reflexivity |].
  cbn. rewrite union_empty_l_L. split; [| done]. intros e. unfold rules_of. cbn. destruct (decide (e = d)) as [-> | Hne].
  - by rewrite lookup_insert_eq, app_nil_r.
  - by rewrite lookup_insert_ne.
Qed.

(** a reply in two parts.  Each part is taken for all there is: of the
    flows of both, the rules are those of the second part. *)
Theorem split_reply_lost (fm : flow_manager) (d : N) (part1 part2 : list flow_stats) :
  (last_event fm + N.of_nat (length part1 + length part2) < 2 ^ 64)%N →
  let '(fm1, _) := updateSwitchRules fm d part1 in
  let '(fm2, _) := updateSwitchRules fm1 d part2 in
  flows_agree (rules_of fm2 d) part2 ∧ length (rules_of fm2 d) = length part2.
Proof.
  intros Hlt. destruct (updateSwitchRules fm d part1) as [fm1 ops1] eqn:E1, (updateSwitchRules fm1 d part2) as [fm2 ops2] eqn:E2.
  destruct (update_agrees fm d part1 fm1 ops1 E1) as (_ & _ & H1); [lia |].
  destruct (update_agrees fm1 d part2 fm2 ops2 E2) as (H2 & _); [lia |]. split; [done |].
  destruct H2 as (l & Hp & Hf). by rewrite <- Hp, (Forall2_length _ _ _ Hf).
Qed.

(** deleting by request.  The number of a rule of a known switch gets the
    switch a deletion in the table and with the cookie of the rule; any other
    number gets an error and no message. *)
Theorem delete_by_number (fm : flow_manager) (d o : N) :
  match handleDELETE fm true d o with
  | (FlowDeleted, Some m) => ∃ r, r ∈ rules_of fm d ∧ rule_id r = o ∧ fd_table m = fs_table (flow r) ∧ fd_cookie m = fs_cookie (flow r) ∧
      fd_match m = fs_match (flow r)
  | (a, m) => a ≠ FlowDeleted ∧ m = None ∧ ∀ r, r ∈ rules_of fm d → rule_id r ≠ o
  end.
Proof.
  unfold handleDELETE, rules_of. cbn [negb]. destruct (all_switches_rules fm !! d) as [rs|]; cbn [default from_option].
  - destruct (List.find _ rs) as [r|] eqn:E.
    + apply find_some in E as [Hin%list_elem_of_In He%N.eqb_eq]. by exists r.
    + split_and!; [done | done |]. intros r Hr%list_elem_of_In Ho. pose proof (find_none _ _ E r Hr) as H. cbn in H. apply N.eqb_neq in H. done.
  - split_and!; [done | done |]. by intros r ?%not_elem_of_nil.
Qed.
End Equality.
End Flows.

(** ** A switch with three flows *)

#[export] Instance eqb_equality : Equality N.eqb.
Proof.
  split; intros *; rewrite ?N.eqb_eq; congruence.
Qed.

Definition sample_flow (cookie port : N) : flow_stats (M := N) (I := N) := FlowStats cookie 0 0 1 0 0 port 0%N.

Definition sample_replies : list (flow_event (M := N) (I := N)) :=
  [Reply 5 [sample_flow 1 1; sample_flow 2 2]; Question; Reply 6 [sample_flow 1 1]; Reply 5 [sample_flow 2 2; sample_flow 3 3];
   SwitchDown 6; Question].

Definition flow_apps : list (str * bool) := [(lit "switch-manager", true); (lit "flow-manager", true)].

Definition sample_rules : flow_manager (M := N) (I := N) * list rest_op := Eval vm_compute in flow_run N.eqb N.eqb no_rules sample_replies.

Lemma flow_manager_in_sync_witness :
  ∃ l cl, run (lit "flow-manager") (register_all flow_apps init_listener) (Client (λ _, ∅) 0) (snd sample_rules ++ [Poll]) = Ok (l, cl) ∧
    2%N ∈ known cl flow_manager_name ∧ 4%N ∈ known cl flow_manager_name ∧
    flows_agree N.eqb N.eqb (rules_of (fst sample_rules) 5) [sample_flow 2 2; sample_flow 3 3].
Proof.
  destruct (flow_manager_in_sync N.eqb N.eqb sample_replies (fst sample_rules) (snd sample_rules) flow_apps (lit "flow-manager")) as (H & l & cl & E & K).
  - vm_compute. reflexivity.
  - vm_compute. reflexivity.
  - vm_compute. reflexivity.
  - apply (bool_decide_unpack _). vm_compute. exact I.
  - vm_compute. repeat constructor.
  - apply (bool_decide_unpack _). vm_compute. exact I.
  - apply (bool_decide_unpack _). vm_compute. exact I.
  - exists l, cl. split; [exact E |]. split_and!.
    + apply K. exists 5%N, (Rule 2 5 (sample_flow 2 2)). split; [vm_compute; constructor | reflexivity].
    + apply K. exists 5%N, (Rule 4 5 (sample_flow 3 3)). split; [vm_compute; do 2 constructor | reflexivity].
    + exact (H 5%N).
Defined.
