(* ===== verification/RestJson.v ===== *)
(** * RestJson: numbers, statistics and matches as JSON,
    RestStringProcessing.hh and .cc

    Numbers go over the REST interface as strings.  [string_cast] reads them
    with an std::stringstream, [toString_cast] prints them; a string with
    nothing to read leaves the uninitialised variable as it was, and what it
    holds is a parameter ([junk]), another one for every read of a request
    ([reading]).  A JSON object is a list of keys with their values, a number its
    integer part; parsing and dumping are in [Json11].  The classes of libfluid
    appear as records of what their getters give, its addresses and their text
    as parameters.  A match keeps the masks of its fields, which are not
    reported.

    What is printed is read back ([cast_roundtrip], [statistics_read_back]).
    A string that is no number is not an error ([no_number_is_zero]). *)

From S2P Require Import Prelude Bits Regex.
From stdpp Require Import list.

(** ** Numbers *)

Definition is_space (c : ascii) : bool := in_range 9 13 c || (code c =? 32)%N.

Fixpoint skip_space (s : str) : str :=
  match s with c :: s' => if is_space c then skip_space s' else s | [] => [] end.

Definition digit_of (base : N) (c : ascii) : bool := if (base =? 16)%N then is_xdigit c else is_digit c.

Fixpoint leading_digits (base : N) (s : str) : str :=
  match s with c :: s' => if digit_of base c then c :: leading_digits base s' else [] | [] => [] end.

Definition has_0x (s : str) : bool :=
  match s with c :: d :: _ => bool_decide (c = "0"%char) && bool_decide (d = "x"%char) | _ => false end.

(** [operator>>] of a stream to a variable of 64 bits that holds [old]. *)
Definition read_ull (hex : bool) (old : N) (s : str) : N :=
  match skip_space s with
  | [] => old
  | c :: s' =>
      let minus := bool_decide (c = "-"%char) in
      let unsigned := if minus || bool_decide (c = "+"%char) then s' else c :: s' in
      let base := if hex then 16%N else 10%N in
      match leading_digits base (if hex && has_0x unsigned then drop 2 unsigned else unsigned) with
      | [] => 0%N
      | ds =>
          let v := stoi base ds in
          if (2 ^ 64 <=? v)%N then (2 ^ 64 - 1)%N else if minus then wrap 64 (2 ^ 64 - v) else v
      end
  end.

(** The digits of a number, upper case, before [acc]. *)
Definition digit_char (d : N) : ascii := ascii_of_N (if d <? 10 then 48 + d else 55 + d)%N.

Fixpoint to_digits (base : N) (fuel : nat) (n : N) (acc : str) : str :=
  match fuel with
  | O => acc
  | S fuel =>
      let acc := digit_char (n mod base)%N :: acc in
      if (n / base =? 0)%N then acc else to_digits base fuel (n / base)%N acc
  end.

Definition number_text (base n : N) : str := to_digits base (S (N.to_nat (N.size n))) n [].

Fixpoint zeros (n : nat) : str := match n with O => [] | S n => "0"%char :: zeros n end.

(** Of a number of [w] bits; bytes are not printed in hexadecimal. *)
Definition toString_cast (w : N) (toHex : bool) (value : N) : str :=
  if (w =? 8)%N || negb toHex then number_text 10 value
  else let t := number_text 16 value in lit "0x" ++ zeros (4 - length t) ++ t.

(** ** JSON values *)

#[warnings="-register-all"] Inductive json : Type :=
| JNull
| JBool (b : bool)
| JNumber (z : Z)
| JString (s : str)
| JArray (l : list json)
| JObject (o : list (str * json)).

Abbreviation object := (list (str * json)).

Definition string_value (j : json) : str := match j with JString s => s | _ => [] end.
Definition object_items (j : json) : object := match j with JObject o => o | _ => [] end.
Definition array_items (j : json) : list json := match j with JArray l => l | _ => [] end.

Fixpoint find_key (o : object) (k : str) : option json :=
  match o with
  | [] => None
  | (k', j) :: o => if decide (k' = k) then Some j else find_key o k
  end.

Definition at_key (o : object) (k : str) : res json :=
  match find_key o k with Some j => Ok j | None => Throw StdOutOfRange end.

(** [o[k] = j] *)
Definition put (k : str) (j : json) (o : object) : object := filter (λ x, fst x ≠ k) o ++ [(k, j)].

Section Casts.
Context (junk : N).

Definition string_cast (w : N) (val : str) : res N :=
  let no_overflow := read_ull (has_0x val) junk val in
  let ans := wrap w no_overflow in
  if (ans =? no_overflow)%N then Ok ans else Throw OverflowError.

Definition json_cast (w : N) (value : json) : res N := string_cast w (string_value value).

Definition chooseValue (w : N) (filter : object) (field : str) (alternative : N) : res N :=
  match find_key filter field with Some j => json_cast w j | None => Ok alternative end.
End Casts.

(** ** Requests *)

(** [parsed]: what json11 makes of the body, and its error. *)
Definition parse (parsed : json * str) : res object :=
  match snd parsed with
  | [] => Ok (object_items (fst parsed))
  | err => Throw (StringThrown (lit "Can't parse input request : " ++ err))
  end.

Definition table_range_text (max_table : N) : str :=
  lit "Incorrect request. RestFlowMod can work only with tables in range of 0.." ++ [ascii_of_N max_table] ++
  lit ". Look at RestFlowMod class definition for more details.".

(** The exceptions of [validateRequest] as its catch clauses leave them. *)
Definition revalidate {A} (m : res A) : res A :=
  match m with
  | Ok a => Ok a
  | Throw (StringThrown t) => Throw (StringThrown t)
  | Throw OverflowError => Throw (CharsThrown (lit "Overflow. Check maximal supported values."))
  | Throw _ => Throw (StringThrown (lit "Incorrect request."))
  end.

(** [known]: the switches that the switch manager has; [junk] is what a read
    finds in its variable, by the key that is read.  A byte is written to a
    stream as the character it is. *)
Definition validateRequest (junk : str → N) (req : object) (full : bool) (max_table : N) (known : N → bool) : res unit :=
  revalidate (
    dpid ← at_key req (lit "dpid") ≫= json_cast (junk (lit "dpid")) 64;
    _ ← (if full then
           table_id ← at_key req (lit "table_id") ≫= json_cast (junk (lit "table_id")) 8;
           _ ← require (table_id <? max_table)%N (StringThrown (table_range_text max_table));
           _ ← at_key req (lit "match");
           _ ← at_key req (lit "actions");
           Ok tt
         else Ok tt);
    require (known dpid) (StringThrown (lit "Incorrect request. Switch hasn't been found"))).

(** ** Matches and actions *)

(** Fields of a match, by the names of [fluid_fix::matches]. *)
Inductive match_field : Type :=
| in_port | in_phy_port | metadata | eth_dst | eth_src | eth_type | vlan_vid | vlan_pcp | ip_dscp | ip_ecn | ip_proto
| ipv4_src | ipv4_dst | tcp_src | tcp_dst | udp_src | udp_dst | arp_op | arp_spa | arp_tpa | arp_sha | arp_tha.

#[export] Instance match_field_eq_dec : EqDecision match_field.
Proof. solve_decision. Defined.

Definition field_name (f : match_field) : str :=
  lit match f with
      | in_port => "in_port" | in_phy_port => "in_phy_port" | metadata => "metadata" | eth_dst => "eth_dst" | eth_src => "eth_src"
      | eth_type => "eth_type" | vlan_vid => "vlan_vid" | vlan_pcp => "vlan_pcp" | ip_dscp => "ip_dscp" | ip_ecn => "ip_ecn"
      | ip_proto => "ip_proto" | ipv4_src => "ipv4_src" | ipv4_dst => "ipv4_dst" | tcp_src => "tcp_src" | tcp_dst => "tcp_dst"
      | udp_src => "udp_src" | udp_dst => "udp_dst" | arp_op => "arp_op" | arp_spa => "arp_spa" | arp_tpa => "arp_tpa"
      | arp_sha => "arp_sha" | arp_tha => "arp_tha"
      end.

(** The reads of a number in one request; a value is read again when it is used. *)
Inductive reading : Type :=
| InValidation (key : str)
| InInfo (key : str)
| InMatch (f : match_field)
| InAction (i : nat) (key : str)
| OfSwitch.

Section Reports.
(** EthAddress and IPAddress of libfluid; reading an IP address may throw. *)
Context {eth ip : Type}.

Class Addresses : Type := {
  eth_of_string : str → eth;
  eth_to_string : eth → str;
  ip_of_string : str → option ip;
  getIPv4 : ip → N
}.
Context `{AD : Addresses}.

Inductive field_value : Type := VNum (n : N) | VEth (a : eth) | VIp (a : ip).

Record oxm : Type := Oxm { field : match_field; value : field_value }.

(** What the getters of a match give: a field or a null pointer; and the mask
    of the field, if it has one. *)
Record of13_match : Type := Of13Match {
  value_at :> match_field → option field_value; mask_at : match_field → option field_value }.

Inductive action : Type :=
| OUTPUT (port max_len : N)
| COPY_TTL_OUT
| COPY_TTL_IN
| SET_MPLS_TTL (mpls_ttl : N)
| DEC_MPLS_TTL
| PUSH_VLAN (ethertype : N)
| POP_VLAN
| PUSH_MPLS (ethertype : N)
| POP_MPLS (ethertype : N)
| SET_QUEUE (queue_id : N)
| GROUP (group_id : N)
| SET_NW_TTL (nw_ttl : N)
| DEC_NW_TTL
| SET_FIELD (x : oxm)
| PUSH_PBB (ethertype : N)
| POP_PBB
| EXPERIMENTER (experimenter : N).

Inductive instruction : Type :=
| GOTO_TABLE (table_id : N)
| WRITE_METADATA (value mask : N)
| WRITE_ACTIONS (l : list action)
| APPLY_ACTIONS (l : list action)
| CLEAR_ACTIONS
| METER (meter_id : N)
| EXPERIMENTER_INSTRUCTION.

(** [AppObject::uint32_t_ip_to_string]: the lowest byte first. *)
Definition uint32_t_ip_to_string (x : N) : str :=
  number_text 10 (N.land x 0xff) ++ lit "." ++ number_text 10 (N.land (N.shiftr x 8) 0xff) ++ lit "." ++
  number_text 10 (N.land (N.shiftr x 16) 0xff) ++ lit "." ++ number_text 10 (N.land (N.shiftr x 24) 0xff).

(** The text of a value, of a number of [w] bits. *)
Definition value_text (w : N) (isHex : bool) (v : field_value) : str :=
  match v with VNum n => toString_cast w isHex n | VEth a => eth_to_string a | VIp a => uint32_t_ip_to_string (getIPv4 a) end.

Definition EMPLACE_IF_EXIST (f : match_field) (w : N) (isHex : bool) (m : of13_match) : object :=
  match m f with Some v => [(field_name f, JString (value_text w isHex v))] | None => [] end.

Definition processMatch (m : of13_match) : object :=
  EMPLACE_IF_EXIST in_port 32 false m ++ EMPLACE_IF_EXIST in_phy_port 32 false m ++ EMPLACE_IF_EXIST eth_type 16 true m ++
  EMPLACE_IF_EXIST ip_proto 8 true m ++ EMPLACE_IF_EXIST tcp_dst 16 false m ++ EMPLACE_IF_EXIST tcp_src 16 false m ++
  EMPLACE_IF_EXIST udp_dst 16 false m ++ EMPLACE_IF_EXIST udp_src 16 false m ++ EMPLACE_IF_EXIST metadata 64 false m ++
  EMPLACE_IF_EXIST ipv4_src 0 false m ++ EMPLACE_IF_EXIST ipv4_dst 0 false m ++ EMPLACE_IF_EXIST eth_src 0 false m ++
  EMPLACE_IF_EXIST eth_dst 0 false m ++ EMPLACE_IF_EXIST arp_op 16 true m ++ EMPLACE_IF_EXIST arp_spa 0 false m ++
  EMPLACE_IF_EXIST arp_tpa 0 false m ++ EMPLACE_IF_EXIST arp_sha 0 false m ++ EMPLACE_IF_EXIST arp_tha 0 false m ++
  EMPLACE_IF_EXIST vlan_vid 16 false m ++ EMPLACE_IF_EXIST vlan_pcp 8 false m.

Definition text (s : String.string) : json := JString (lit s).
#[local] Arguments text s%_string_scope.
Definition number (w n : N) : json := JString (toString_cast w false n).

(** The name under which a field that is set is reported, and its width. *)
Definition set_field_name (f : match_field) : option (str * N) :=
  match f with
  | in_port => Some (lit "in_port", 32%N) | eth_src => Some (lit "eth_src", 0%N) | eth_dst => Some (lit "eth_dst", 0%N)
  | eth_type => Some (lit "eth_type", 16%N) | vlan_vid => Some (lit "vlan_vid", 16%N) | ipv4_src => Some (lit "ip_src", 0%N)
  | ipv4_dst => Some (lit "ip_dst", 0%N) | ip_proto => Some (lit "ip_proto", 8%N) | arp_spa => Some (lit "arp_spa", 0%N)
  | arp_tpa => Some (lit "arp_tpa", 0%N) | arp_sha => Some (lit "arp_sha", 0%N) | arp_tha => Some (lit "arp_tha", 0%N)
  | arp_op => Some (lit "arp_op", 16%N) | _ => None
  end.

Definition processSetField (x : oxm) : object :=
  match set_field_name (field x) with
  | Some (name, w) => [(lit "field", JString name); (lit "value", JString (value_text w false (value x)))]
  | None => [(lit "unhandled field", text "error")]
  end.

Definition process_action (a : action) : object :=
  let typed (t : str) (l : object) : object := put (lit "type") (JString t) l in
  match a with
  | OUTPUT port _ => (lit "port", JString (toString_cast 32 true port)) :: typed (lit "OUTPUT") []
  | COPY_TTL_OUT => typed (lit "COPY_TTL_OUT") []
  | COPY_TTL_IN => typed (lit "COPY_TTL_IN") []
  | SET_MPLS_TTL ttl => (lit "mpls_ttl", number 8 ttl) :: typed (lit "SET_MPLS_TTL") []
  | DEC_MPLS_TTL => typed (lit "DEC_MPLS_TTL") []
  | PUSH_VLAN e => (lit "ethertype", number 16 e) :: typed (lit "PUSH_VLAN") []
  | POP_VLAN => typed (lit "POP_VLAN") []
  | PUSH_MPLS e => (lit "ethertype", number 16 e) :: typed (lit "PUSH_MPLS") []
  | POP_MPLS e => (lit "ethertype", number 16 e) :: typed (lit "POP_MPLS") []
  | SET_QUEUE q => (lit "queue_id", number 32 q) :: typed (lit "SET_QUEUE") []
  | GROUP g => (lit "group_id", number 32 g) :: typed (lit "GROUP") []
  | SET_NW_TTL ttl => (lit "nw_ttl", number 8 ttl) :: typed (lit "SET_NW_TTL") []
  | DEC_NW_TTL => typed (lit "DEC_NW_TTL") []
  | SET_FIELD x => typed (lit "SET_FIELD") (processSetField x)
  | PUSH_PBB e => (lit "ethertype", number 16 e) :: typed (lit "PUSH_PBB") []
  | POP_PBB => typed (lit "POP_PBB") []
  | EXPERIMENTER _ => typed (lit "EXPERIMENTER") []
  end.

(** [processActions] *)
Definition processActions (l : list action) : list json := map (λ a, JObject (process_action a)) l.

Definition process_instruction (ans : object) (i : instruction) : object :=
  match i with
  | GOTO_TABLE t => put (lit "goto_table") (number 8 t) ans
  | WRITE_METADATA v m => put (lit "metadata") (JObject [(lit "metadata", number 64 v); (lit "metadata_mask", number 64 m)]) ans
  | WRITE_ACTIONS l => put (lit "write_actions") (JArray (processActions l)) ans
  | APPLY_ACTIONS l => put (lit "apply_actions") (JArray (processActions l)) ans
  | CLEAR_ACTIONS => put (lit "clear_actions") (text "clear_actions") ans
  | METER m => put (lit "meter") (number 32 m) ans
  | EXPERIMENTER_INSTRUCTION => put (lit "experimenter") (text "experimenter") ans
  end.

Definition processInstructions (l : list instruction) : object := fold_left process_instruction l [].

(** ** Statistics *)

Definition SHOW {A} (key : str) (get : A → N) (obj : A) : str * json := (key, number 64 (get obj)).
Definition SHOW_text {A} (key : str) (get : A → str) (obj : A) : str * json := (key, JString (get obj)).

Record mp_flow : Type := MpFlow {
  mf_length : N; mf_table_id : N; mf_duration_sec : N; mf_duration_nsec : N; mf_priority : N; mf_idle_timeout : N; mf_hard_timeout : N;
  mf_flags : N; mf_cookie : N; mf_packet_count : N; mf_byte_count : N; mf_match : of13_match; mf_instructions : list instruction }.

Definition flow_numbers : list (str * (mp_flow → N)) :=
  [(lit "length", mf_length); (lit "table_id", mf_table_id); (lit "duration_sec", mf_duration_sec);
   (lit "duration_nsec", mf_duration_nsec); (lit "priority", mf_priority); (lit "idle_timeout", mf_idle_timeout);
   (lit "hard_timeout", mf_hard_timeout); (lit "flags", mf_flags); (lit "cookie", mf_cookie);
   (lit "packet_count", mf_packet_count); (lit "byte_count", mf_byte_count)].

(** All [SHOW]s of a table. *)
Definition show_all {A} (l : list (str * (A → N))) (obj : A) : object := map (λ x, SHOW (fst x) (snd x) obj) l.

Definition flow_json (f : mp_flow) : object :=
  show_all flow_numbers f ++
  [(lit "match:", JObject (processMatch (mf_match f))); (lit "actions:", JObject (processInstructions (mf_instructions f)))].

Record port_stats : Type := PortStats {
  ps_port_no : N; ps_rx_packets : N; ps_tx_packets : N; ps_rx_bytes : N; ps_tx_bytes : N; ps_rx_dropped : N; ps_tx_dropped : N;
  ps_rx_errors : N; ps_tx_errors : N; ps_rx_frame_err : N; ps_rx_over_err : N; ps_rx_crc_err : N; ps_collisions : N;
  ps_duration_sec : N; ps_duration_nsec : N }.

Definition port_numbers : list (str * (port_stats → N)) :=
  [(lit "port_no", ps_port_no); (lit "rx_packets", ps_rx_packets); (lit "tx_packets", ps_tx_packets); (lit "rx_bytes", ps_rx_bytes);
   (lit "tx_bytes", ps_tx_bytes); (lit "rx_dropped", ps_rx_dropped); (lit "tx_dropped", ps_tx_dropped);
   (lit "rx_errors", ps_rx_errors); (lit "tx_errors", ps_tx_errors); (lit "rx_frame_err", ps_rx_frame_err);
   (lit "rx_over_err", ps_rx_over_err); (lit "rx_crc_err", ps_rx_crc_err); (lit "collisions", ps_collisions);
   (lit "duration_sec", ps_duration_sec); (lit "duration_nsec", ps_duration_nsec)].

Record switch_desc : Type := SwitchDesc {
  sd_mfr_desc : str; sd_hw_desc : str; sd_sw_desc : str; sd_serial_num : str; sd_dp_desc : str }.

Definition desc_json (d : switch_desc) : object :=
  [SHOW_text (lit "mfr_desc") sd_mfr_desc d; SHOW_text (lit "hw_desc") sd_hw_desc d; SHOW_text (lit "sw_desc") sd_sw_desc d;
   SHOW_text (lit "serial_num") sd_serial_num d; SHOW_text (lit "dp_desc") sd_dp_desc d].

Record aggregate : Type := Aggregate { ag_packet_count : N; ag_byte_count : N; ag_flow_count : N }.

Definition aggregate_numbers : list (str * (aggregate → N)) :=
  [(lit "packet_count", ag_packet_count); (lit "byte_count", ag_byte_count); (lit "flow_count", ag_flow_count)].

Record table_stats : Type := TableStats { ts_active_count : N; ts_table_id : N; ts_lookup_count : N; ts_matched_count : N }.

Definition table_numbers : list (str * (table_stats → N)) :=
  [(lit "active_count", ts_active_count); (lit "table_id", ts_table_id); (lit "lookup_count", ts_lookup_count);
   (lit "matched_count", ts_matched_count)].

Record port_desc : Type := PortDesc {
  pd_port_no : N; pd_hw_addr : eth; pd_name : str; pd_config : N; pd_state : N; pd_curr : N; pd_advertised : N; pd_supported : N;
  pd_peer : N; pd_curr_speed : N; pd_max_speed : N }.

Definition port_desc_numbers : list (str * (port_desc → N)) :=
  [(lit "config", pd_config); (lit "state", pd_state); (lit "curr", pd_curr); (lit "advertised", pd_advertised);
   (lit "supported", pd_supported); (lit "peer", pd_peer); (lit "curr_speed", pd_curr_speed); (lit "max_speed", pd_max_speed)].

Definition port_desc_json (p : port_desc) : object :=
  [SHOW (lit "port_no") pd_port_no p; (lit "hw_addr", JString (eth_to_string (pd_hw_addr p))); SHOW_text (lit "name") pd_name p] ++
  show_all port_desc_numbers p.

Record queue_stats : Type := QueueStats {
  qs_port_no : N; qs_queue_id : N; qs_tx_bytes : N; qs_tx_packets : N; qs_tx_errors : N; qs_duration_sec : N; qs_duration_nsec : N }.

Definition queue_numbers : list (str * (queue_stats → N)) :=
  [(lit "port_no", qs_port_no); (lit "queue_id", qs_queue_id); (lit "tx_bytes", qs_tx_bytes); (lit "tx_packets", qs_tx_packets);
   (lit "tx_errors", qs_tx_errors); (lit "duration_sec", qs_duration_sec); (lit "duration_nsec", qs_duration_nsec)].

(** [toJson] of a list, of each kind; a table of numbers is one [SHOW] each. *)
Definition toJson {A} (object_of : A → object) (l : list A) : json := JArray (map (λ x, JObject (object_of x)) l).
End Reports.
Arguments Addresses : clear implicits.
Arguments field_value : clear implicits.
Arguments oxm : clear implicits.
Arguments of13_match : clear implicits.
Arguments action : clear implicits.
Arguments instruction : clear implicits.

(** ** Digits *)

Lemma digit_char_xdigit n : (n < 16)%N → is_xdigit (digit_char n) = true.
Proof. by apply (forall_below (λ n, is_xdigit (digit_char n))). Qed.

Lemma digit_char_digit n : (n < 10)%N → is_digit (digit_char n) = true.
Proof. by apply (forall_below (λ n, is_digit (digit_char n))). Qed.

Lemma digit_char_val n : (n < 16)%N → digit_val (digit_char n) = n.
Proof.
  intros Hn. apply N.eqb_eq. by apply (forall_below (λ n, (digit_val (digit_char n) =? n)%N) 16).
Qed.

Definition base_ok (base : N) : Prop := base = 10%N ∨ base = 16%N.

Lemma digit_char_ok base n : base_ok base → (n < base)%N → digit_of base (digit_char n) = true ∧ digit_val (digit_char n) = n.
Proof.
  intros [-> | ->] Hn; (split; [| apply digit_char_val; lia]); [by apply digit_char_digit | by apply digit_char_xdigit].
Qed.

(** What is read of digits: their value, if nothing else follows. *)
Definition digits_read (base : N) (ds : str) (n : N) : Prop := forallb (digit_of base) ds = true ∧ stoi base ds = n.

Lemma leading_all base ds : forallb (digit_of base) ds = true → leading_digits base ds = ds.
Proof.
  induction ds as [|c ds IH]; cbn; [done |]. intros [Hc Hds]%andb_true_iff. by rewrite Hc, IH.
Qed.

Lemma to_digits_spec base fuel : ∀ n acc v, base_ok base → (n < 2 ^ N.of_nat fuel)%N →
  forallb (digit_of base) acc = true →
  (∀ r, fold_left (λ a c, a * base + digit_val c)%N acc r = (r * base ^ N.of_nat (length acc) + v)%N) →
  digits_read base (to_digits base fuel n acc) (n * base ^ N.of_nat (length acc) + v)%N.
Proof.
  induction fuel as [|fuel IH]; intros n acc v Hb Hn Ha Hv.
  - assert (n = 0%N) as -> by (cbn in Hn; lia). split; [done |]. cbn [to_digits]. unfold stoi. by rewrite Hv.
  - cbn [to_digits]. assert (Hb0 : (2 ≤ base)%N) by (destruct Hb; lia).
    destruct (digit_char_ok base (n mod base) Hb) as [Hd Hdv]; [apply N.mod_lt; lia |].
    set (acc' := digit_char (n mod base) :: acc).
    assert (Ha' : forallb (digit_of base) acc' = true) by (unfold acc'; cbn [forallb]; by rewrite Hd, Ha).
    assert (Hv' : ∀ r, fold_left (λ a c, a * base + digit_val c)%N acc' r =
                       (r * base ^ N.of_nat (length acc') + ((n mod base) * base ^ N.of_nat (length acc) + v))%N).
    { intros r. unfold acc'. cbn [fold_left length]. rewrite Hv, Hdv, Nat2N.inj_succ, N.pow_succ_r'. lia. }
    pose proof (N.div_mod n base ltac:(lia)) as Hdm. destruct (N.eqb_spec (n / base) 0) as [E | E].
    + split; [done |]. unfold stoi. rewrite Hv', N.mul_0_l, N.add_0_l. rewrite E in Hdm. do 2 f_equal. lia.
    + replace (n * base ^ N.of_nat (length acc) + v)%N
        with (n / base * base ^ N.of_nat (length acc') + ((n mod base) * base ^ N.of_nat (length acc) + v))%N.
      * apply IH; [done | | done | done]. apply N.Div0.div_lt_upper_bound. rewrite Nat2N.inj_succ, N.pow_succ_r' in Hn. nia.
      * unfold acc'. cbn [length]. rewrite Nat2N.inj_succ, N.pow_succ_r'. rewrite Hdm at 3. lia.
Qed.

Lemma to_digits_nonempty base fuel n acc : to_digits base (S fuel) n acc ≠ [].
Proof.
  revert n acc. induction fuel as [|fuel IH]; intros n acc; cbn [to_digits]; [by destruct (_ =? _)%N |].
  destruct (_ =? _)%N; [done | apply IH].
Qed.

Lemma number_text_read base n : base_ok base → digits_read base (number_text base n) n ∧ number_text base n ≠ [].
Proof.
  intros Hb. split; [| apply to_digits_nonempty].
  pose proof (to_digits_spec base (S (N.to_nat (N.size n))) n [] 0%N Hb) as H. cbn [length] in H.
  rewrite N.pow_0_r, N.mul_1_r, N.add_0_r in H. apply H; [| done | cbn; intros r; lia].
  eapply N.lt_trans; [apply N.size_gt |]. apply N.pow_lt_mono_r; lia.
Qed.

Lemma zeros_read base k ds n : base_ok base → digits_read base ds n → digits_read base (zeros k ++ ds) n.
Proof.
  intros Hb [Hd Hv]. induction k as [|k [IH1 IH2]]; [done |]. cbn [zeros app]. split.
  - cbn [forallb]. rewrite IH1, andb_true_r. by destruct Hb as [-> | ->].
  - unfold stoi in *. cbn [fold_left]. by replace (0 * base + digit_val "0"%char)%N with 0%N.
Qed.

(** ** Printing and reading *)

Definition plain_char (c : ascii) : bool :=
  negb (is_space c) && bool_decide (c ≠ "-"%char) && bool_decide (c ≠ "+"%char).

Lemma digit_plain base c : base_ok base → digit_of base c = true → plain_char c = true.
Proof.
  intros Hb Hc. assert (Hx : is_xdigit c = true).
  { destruct Hb as [-> | ->]; [| done]. cbn in Hc. unfold is_xdigit. by rewrite Hc. }
  revert Hx. clear. destruct c as [[] [] [] [] [] [] [] []]; by vm_compute.
Qed.

Lemma read_digits (hex : bool) old ds n : let base := if hex then 16%N else 10%N in
  digits_read base ds n → ds ≠ [] → (n < 2 ^ 64)%N →
  read_ull hex old (if hex then lit "0x" ++ ds else ds) = n.
Proof.
  intros base [Hd Hv] Hne Hn. assert (Hb : base_ok base) by (destruct hex; [by right | by left]).
  assert (E : match leading_digits base ds with [] => 0%N | l => if (2 ^ 64 <=? stoi base l)%N then (2 ^ 64 - 1)%N else stoi base l end = n).
  { rewrite leading_all by done. destruct ds as [|c ds]; [done |]. cbv beta iota zeta. by rewrite Hv, (proj2 (N.leb_gt _ _)). }
  destruct hex; [done |]. destruct ds as [|c ds]; [done |]. cbn [forallb] in Hd. apply andb_true_iff in Hd as [Hc _].
  pose proof (digit_plain _ _ Hb Hc) as Hp. unfold plain_char in Hp.
  apply andb_true_iff in Hp as [[Hs Hm]%andb_true_iff Hpl]. apply negb_true_iff in Hs. apply bool_decide_eq_true in Hm, Hpl.
  unfold read_ull. cbn [skip_space]. rewrite Hs, !bool_decide_eq_false_2 by done. cbn [orb andb]. exact E.
Qed.

Lemma decimal_no_0x ds : forallb is_digit ds = true → has_0x ds = false.
Proof.
  destruct ds as [|c [|d ds]]; [done.. |]. cbn. rewrite !andb_true_iff. intros (_ & Hd & _).
  rewrite (bool_decide_eq_false_2 (d = "x"%char)); [apply andb_false_r | by intros ->].
Qed.

Lemma cast_printed w hex n junk : (n < 2 ^ w)%N → (w ≤ 64)%N → string_cast junk w (toString_cast w hex n) = Ok n.
Proof.
  intros Hn Hw. assert (Hn' : (n < 2 ^ 64)%N) by (eapply N.lt_le_trans; [exact Hn | apply N.pow_le_mono_r; lia]).
  assert (E : read_ull (has_0x (toString_cast w hex n)) junk (toString_cast w hex n) = n).
  { unfold toString_cast. destruct ((w =? 8)%N || negb hex).
    - destruct (number_text_read 10 n) as [Hr Hne]; [by left |].  rewrite decimal_no_0x by exact (proj1 Hr).
      by apply (read_digits false).
    - destruct (number_text_read 16 n) as [Hr Hne]; [by right |].
      cbn zeta. change (has_0x (lit "0x" ++ _)) with true.
      apply (read_digits true); [| | done].
      + by apply (zeros_read 16); [right |].
      + intros [_ E]%app_eq_nil. by apply Hne. }
  unfold string_cast. cbn zeta. rewrite E, wrap_id by done. by rewrite N.eqb_refl.
Qed.

Lemma find_key_app o o' k : find_key (o ++ o') k = match find_key o k with Some j => Some j | None => find_key o' k end.
Proof. induction o as [|[k' j] o IH]; cbn; [done |]. by case_decide. Qed.

Lemma find_show_all {A} (l : list (str * (A → N))) obj k g :
  NoDup (map fst l) → (k, g) ∈ l → find_key (show_all l obj) k = Some (number 64 (g obj)).
Proof.
  induction l as [|[k' g'] l IH]; cbn; [by intros _ ?%not_elem_of_nil |].
  intros [Hk Hnd]%NoDup_cons [[= -> ->] | Hin]%elem_of_cons; [by rewrite decide_True |].
  rewrite decide_False; [by apply IH |]. intros ->. apply Hk. by apply (list_elem_of_fmap_2 fst) in Hin.
Qed.

(** ** Properties *)

(** numbers over the interface.  A number of at most 64 bits that is
    printed, in either way, is read back as it was. *)
Theorem cast_roundtrip (junk w n : N) (hex : bool) :
  (n < 2 ^ w)%N → (w ≤ 64)%N → json_cast junk w (JString (toString_cast w hex n)) = Ok n.
Proof. apply cast_printed. Qed.

(** statistics.  Every number of a table of numbers is found in its JSON
    object under its key, and is read back. *)
Theorem statistics_read_back {A} (junk : N) (l : list (str * (A → N))) (obj : A) (key : str) (get : A → N) :
  NoDup (map fst l) → (key, get) ∈ l → (get obj < 2 ^ 64)%N →
  at_key (show_all l obj) key ≫= json_cast junk 64 = Ok (get obj).
Proof.
  intros Hnd Hin Hlt. unfold at_key. rewrite (find_show_all l obj key get) by done. by apply cast_printed.
Qed.

(** what is not a number.  Text that does not begin with a digit is read as
    0, without an error. *)
Theorem no_number_is_zero (junk w : N) (c : ascii) (s : str) :
  is_space c = false → c ≠ "-"%char → c ≠ "+"%char → is_digit c = false → string_cast junk w (c :: s) = Ok 0%N.
Proof.
  intros Hs Hm Hp Hd. assert (Hx : has_0x (c :: s) = false).
  { destruct s as [|d s]; [done |]. cbn. by rewrite bool_decide_eq_false_2 by (by intros ->). }
  unfold string_cast. rewrite Hx. unfold read_ull. cbn [skip_space]. rewrite Hs, !bool_decide_eq_false_2 by done.
  assert (E : leading_digits 10 (c :: s) = []) by (cbn; by rewrite Hd).
  cbn [orb andb]. cbv zeta iota. rewrite E, wrap_id; [done |]. by apply N.neq_0_lt_0, N.pow_nonzero.
Qed.

(** a number that is not a string is read as an empty string, which leaves
    the variable as it was: its value is what happened to be there. *)
Theorem json_number_is_junk (junk w : N) (z : Z) :
  json_cast junk w (JNumber z) = if (wrap w junk =? junk)%N then Ok (wrap w junk) else Throw OverflowError.
Proof. done. Qed.

(** a negative number is read as one near 2 ^ 64, so it is out of range for
    fewer bits, and an enormous one for 64. *)
Example negative_cast : string_cast 0 64 (lit "-1") = Ok (2 ^ 64 - 1)%N ∧ string_cast 0 16 (lit "-1") = Throw OverflowError.
Proof. by vm_compute. Qed.

Example hex_cast : string_cast 0 16 (lit "0x00fF") = Ok 255%N ∧ string_cast 0 16 (lit "  12abc") = Ok 12%N ∧
  string_cast 0 64 (lit "99999999999999999999") = Ok (2 ^ 64 - 1)%N ∧ toString_cast 16 true 255 = lit "0x00FF" ∧
  toString_cast 8 true 255 = lit "255" ∧ toString_cast 64 false 0 = lit "0".
Proof. by vm_compute. Qed.

(** ** The tables of numbers *)

Definition sample_port : port_stats := PortStats 1 2 3 4 5 6 7 8 9 10 11 12 13 14 (2 ^ 64 - 1).

Lemma statistics_read_back_witness :
  at_key (show_all port_numbers sample_port) (lit "duration_nsec") ≫= json_cast 7 64 = Ok (2 ^ 64 - 1)%N.
Proof.
  apply (statistics_read_back 7 port_numbers sample_port (lit "duration_nsec") ps_duration_nsec).
  - apply (bool_decide_unpack _). vm_compute. exact I.
  - unfold port_numbers. do 14 apply list_elem_of_further. apply list_elem_of_here.
  - vm_compute. reflexivity.
Defined.

Lemma cast_roundtrip_witness : json_cast 7 16 (JString (toString_cast 16 true 0x806)) = Ok 0x806%N.
Proof.
  apply cast_roundtrip; vm_compute; [reflexivity | discriminate].
Defined.
