(* ===== verification/Json11.v ===== *)
(** * Json11: the text of JSON, json11.cpp

    [dump] prints a value and [parse] reads a text: the parser is a position in
    the text, here the rest of it, and recursion over values, of at most 200
    levels.  Objects are maps ordered by key; as a list in any order may stand
    for one, [canon] is the ordered one.  Numbers are the integers a double
    holds, which are printed and read as such; what atof makes of another
    number is a parameter.

    What is printed is read back ([json_roundtrip]); any text is read, or
    refused, in the fuel that [parse] has ([parse_total]). *)

From S2P Require Import Prelude Regex RestJson.
From stdpp Require Import list.

Definition quote : ascii := ascii_of_N 34.
Definition backslash : ascii := ascii_of_N 92.
Definition minus : ascii := "-"%char.

Definition int_text (z : Z) : str := (if (z <? 0)%Z then [minus] else []) ++ number_text 10 (Z.abs_N z).

(** ** Objects *)

(** [operator<] of strings: unsigned characters. *)
Fixpoint str_ltb (a b : str) : bool :=
  match a, b with
  | _, [] => false
  | [], _ :: _ => true
  | c :: a, d :: b => (code c <? code d)%N || ((code c =? code d)%N && str_ltb a b)
  end.

(** [data[key] = value] of a map. *)
Fixpoint map_put (k : str) (j : json) (o : object) : object :=
  match o with
  | [] => [(k, j)]
  | (k', j') :: o' =>
      if bool_decide (k = k') then (k, j) :: o'
      else if str_ltb k k' then (k, j) :: o else (k', j') :: map_put k j o'
  end.

(** The map of a list, of which the first entry of a key counts. *)
Definition to_map (o : object) : object := fold_right (λ x m, map_put (fst x) (snd x) m) [] o.

Fixpoint canon (j : json) : json :=
  match j with
  | JArray l => JArray (map canon l)
  | JObject o => JObject (to_map (map (λ x, (fst x, canon (snd x))) o))
  | _ => j
  end.

(** ** Printing *)

(** [\u] and four digits, "%04x". *)
Definition hex_char (d : N) : ascii := ascii_of_N (if d <? 10 then 48 + d else 87 + d)%N.
Definition u_escape (n : N) : str :=
  [backslash; "u"%char; hex_char (n / 4096 mod 16); hex_char (n / 256 mod 16); hex_char (n / 16 mod 16); hex_char (n mod 16)].

(** The letter of a short escape. *)
Definition short_escape (c : ascii) : option ascii :=
  match code c with
  | 92 => Some backslash | 34 => Some quote | 8 => Some "b"%char | 12 => Some "f"%char
  | 10 => Some "n"%char | 13 => Some "r"%char | 9 => Some "t"%char | _ => None
  end%N.

Fixpoint dump_chars (s : str) : str :=
  match s with
  | [] => []
  | c :: s' =>
      match short_escape c with
      | Some e => backslash :: e :: dump_chars s'
      | None =>
          if (code c <=? 0x1f)%N then u_escape (code c) ++ dump_chars s'
          else
            match s' with
            | d :: e :: s'' =>
                if (code c =? 0xe2)%N && (code d =? 0x80)%N && (code e =? 0xa8)%N then u_escape 0x2028 ++ dump_chars s''
                else if (code c =? 0xe2)%N && (code d =? 0x80)%N && (code e =? 0xa9)%N then u_escape 0x2029 ++ dump_chars s''
                else c :: dump_chars s'
            | _ => c :: dump_chars s'
            end
      end
  end.

Definition dump_string (s : str) : str := quote :: dump_chars s ++ [quote].

Fixpoint join (l : list str) : str :=
  match l with [] => [] | [x] => x | x :: l => x ++ lit ", " ++ join l end.

(** [dump] of a value whose objects are ordered. *)
Fixpoint dump_ordered (j : json) : str :=
  match j with
  | JNull => lit "null"
  | JBool b => if b then lit "true" else lit "false"
  | JNumber z => int_text z
  | JString s => dump_string s
  | JArray l => ["["%char] ++ join (map dump_ordered l) ++ ["]"%char]
  | JObject o => ["{"%char] ++ join (map (λ x, dump_string (fst x) ++ lit ": " ++ dump_ordered (snd x)) o) ++ ["}"%char]
  end.

Definition dump (j : json) : str := dump_ordered (canon j).

(** ** Reading *)

(** [%d] of a char, which has a sign. *)
Definition char_text (c : ascii) : str := int_text (if (code c <? 128)%N then Z.of_N (code c) else (Z.of_N (code c) - 256)%Z).

(** A character in a message. *)
Definition esc (c : ascii) : str :=
  if ((0x20 <=? code c) && (code c <=? 0x7f))%N then lit "'" ++ [c] ++ lit "' (" ++ char_text c ++ lit ")"
  else lit "(" ++ char_text c ++ lit ")".

Definition nul : ascii := ascii_of_N 0.

(** [str[i]]: the character 0 at the end. *)
Definition peek (s : str) : ascii := match s with c :: _ => c | [] => nul end.

Definition is_blank (c : ascii) : bool := existsb (λ n, (code c =? n)%N) [32; 13; 10; 9]%N.

Fixpoint consume_whitespace (s : str) : str :=
  match s with c :: s' => if is_blank c then consume_whitespace s' else s | [] => [] end.

(** [get_next_token]; none at the end. *)
Definition next_token (s : str) : option (ascii * str) :=
  match consume_whitespace s with c :: s' => Some (c, s') | [] => None end.

Definition end_of_input : str := lit "unexpected end of input".

(** A byte of a code point. *)
Definition byte (n : N) : ascii := ascii_of_N (n mod 256).

Definition encode_utf8 (pt : option N) : str :=
  match pt with
  | None => []
  | Some pt =>
      let low k := byte (N.lor (N.land (N.shiftr pt k) 0x3f) 0x80) in
      if (pt <? 0x80)%N then [byte pt]
      else if (pt <? 0x800)%N then [byte (N.lor (N.shiftr pt 6) 0xc0); low 0%N]
      else if (pt <? 0x10000)%N then [byte (N.lor (N.shiftr pt 12) 0xe0); low 6%N; low 0%N]
      else [byte (N.lor (N.shiftr pt 18) 0xf0); low 12%N; low 6%N; low 0%N]
  end.

(** What is read: a value and the rest, or a message, the value that is
    returned with it, and the rest. *)
Inductive outcome (A : Type) : Type :=
| Parsed (a : A) (rest : str)
| Failed (err : str) (a : A) (rest : str).
Arguments Parsed {A}.
Arguments Failed {A}.

Definition map_outcome {A B} (f g : A → B) (o : outcome A) : outcome B :=
  match o with Parsed a r => Parsed (f a) r | Failed e a r => Failed e (g a) r end.

(** What is in front of the rest of a string that is read. *)
Definition prepend (x : str) (o : outcome str) : outcome str := map_outcome (app x) id o.

Definition surrogates (last : option N) (cp : N) : option N :=
  match last with
  | Some h =>
      if ((0xd800 <=? h) && (h <=? 0xdbff) && (0xdc00 <=? cp) && (cp <=? 0xdfff))%N
      then Some (N.lor (N.shiftl (h - 0xd800) 10) (cp - 0xdc00) + 0x10000)%N else None
  | None => None
  end.

(** The character of a short escape. *)
Definition unescape (c : ascii) : option ascii :=
  if bool_decide (c = "b"%char) then Some (ascii_of_N 8)
  else if bool_decide (c = "f"%char) then Some (ascii_of_N 12)
  else if bool_decide (c = "n"%char) then Some (ascii_of_N 10)
  else if bool_decide (c = "r"%char) then Some (ascii_of_N 13)
  else if bool_decide (c = "t"%char) then Some (ascii_of_N 9)
  else if bool_decide (c = quote) || bool_decide (c = backslash) || bool_decide (c = "/"%char) then Some c
  else None.

(** [parse_string] behind the quote; [last]: the code point of an escape that
    may be the first of two. *)
Fixpoint parse_string (last : option N) (s : str) : outcome str :=
  match s with
  | [] => Failed (lit "unexpected end of input in string") [] []
  | c :: s' =>
      if bool_decide (c = quote) then Parsed (encode_utf8 last) s'
      else if (code c <=? 0x1f)%N then Failed (lit "unescaped " ++ esc c ++ lit " in string") [] s'
      else if negb (bool_decide (c = backslash)) then prepend (encode_utf8 last ++ [c]) (parse_string None s')
      else
        match s' with
        | [] => Failed (lit "unexpected end of input in string") [] []
        | e :: s1 =>
            if bool_decide (e = "u"%char) then
              let bad := Failed (lit "bad \u escape: " ++ take 4 s1) [] s1 in
              match s1 with
              | a :: b :: c :: d :: s2 =>
                  if forallb is_xdigit [a; b; c; d] then
                    let cp := stoi 16 [a; b; c; d] in
                    match surrogates last cp with
                    | Some pt => prepend (encode_utf8 (Some pt)) (parse_string None s2)
                    | None => prepend (encode_utf8 last) (parse_string (Some cp) s2)
                    end
                  else bad
              | _ => bad
              end
            else
              match unescape e with
              | Some x => prepend (encode_utf8 last ++ [x]) (parse_string None s1)
              | None => Failed (lit "invalid escape character " ++ esc e) [] s1
              end
        end
  end.

Definition failed_at (msg : str) (rest : str) : outcome json := Failed msg JNull rest.

(** [expect]: [s] starts at the character that was just read. *)
Definition expect (expected : str) (res : json) (s : str) : outcome json :=
  let found := take (length expected) s in
  if bool_decide (expected = found) then Parsed res (drop (length expected) s)
  else failed_at (lit "parse error: expected " ++ expected ++ lit ", got " ++ found) s.

(** [atoi] of an optional minus and digits. *)
Definition atoi (neg : bool) (ds : str) : Z := if neg then (- Z.of_N (stoi 10 ds))%Z else Z.of_N (stoi 10 ds).

Section Parser.
(** [std::atof] where it is not exact. *)
Context (atof : str → json).

(** The value of an integer as a double. *)
Definition real_int (neg : bool) (ds : str) (text : str) : json :=
  if (stoi 10 ds <=? 2 ^ 53)%N then JNumber (atoi neg ds) else atof text.

(** The digits of a text and what is behind them. *)
Definition span_digits (s : str) : str * str := let ds := leading_digits 10 s in (ds, drop (length ds) s).

(** The fraction and the exponent, each with what is behind, or a message. *)
Definition fraction (s : str) : str + (str * str) :=
  if bool_decide (peek s = "."%char) then
    let '(ds, r) := span_digits (drop 1 s) in
    match ds with
    | [] => inl (lit "at least one digit required in fractional part")
    | _ => inr ("."%char :: ds, r)
    end
  else inr ([], s).

Definition is_e (c : ascii) : bool := bool_decide (c = "e"%char) || bool_decide (c = "E"%char).

Definition exponent (s : str) : str + (str * str) :=
  if is_e (peek s) then
    let s1 := drop 1 s in
    let sign := if bool_decide (peek s1 = "+"%char) || bool_decide (peek s1 = minus) then [peek s1] else [] in
    let '(ds, r) := span_digits (drop (length sign) s1) in
    match ds with
    | [] => inl (lit "at least one digit required in exponent")
    | _ => inr (peek s :: sign ++ ds, r)
    end
  else inr ([], s).

(** [parse_number] behind its integer part. *)
Definition number_rest (neg : bool) (ds : str) (r : str) : outcome json :=
  let text := (if neg then [minus] else []) ++ ds in
  if negb (bool_decide (peek r = "."%char)) && negb (is_e (peek r)) && (length text <=? 9) then Parsed (JNumber (atoi neg ds)) r
  else
    match fraction r with
    | inl msg => failed_at msg r
    | inr (f, r1) =>
        match exponent r1 with
        | inl msg => failed_at msg r1
        | inr (x, r2) => Parsed (match f ++ x with [] => real_int neg ds text | _ => atof (text ++ f ++ x) end) r2
        end
    end.

Definition parse_number (s : str) : outcome json :=
  let neg := bool_decide (peek s = minus) in
  let s1 := if neg then drop 1 s else s in
  if bool_decide (peek s1 = "0"%char) then
    if is_digit (peek (drop 1 s1)) then failed_at (lit "leading 0s not permitted in numbers") (drop 1 s1)
    else number_rest neg ["0"%char] (drop 1 s1)
  else if is_digit (peek s1) then let '(ds, r) := span_digits s1 in number_rest neg ds r
  else failed_at (lit "invalid " ++ esc (peek s1) ++ lit " in number") s1.

Definition max_depth : nat := 200.

(** [parse_json], the loop of an object at the character [ch], and that of an
    array; none if the fuel does not do. *)
Fixpoint parse_json (n : nat) (depth : nat) (s : str) : option (outcome json) :=
  match n with
  | O => None
  | S n =>
      if max_depth <? depth then Some (failed_at (lit "exceeded maximum nesting depth") s)
      else
        match next_token s with
        | None => Some (failed_at end_of_input [])
        | Some (ch, r) =>
            if bool_decide (ch = minus) || is_digit ch then Some (parse_number (ch :: r))
            else if bool_decide (ch = "t"%char) then Some (expect (lit "true") (JBool true) (ch :: r))
            else if bool_decide (ch = "f"%char) then Some (expect (lit "false") (JBool false) (ch :: r))
            else if bool_decide (ch = "n"%char) then Some (expect (lit "null") JNull (ch :: r))
            else if bool_decide (ch = quote) then Some (map_outcome JString JString (parse_string None r))
            else if bool_decide (ch = "{"%char) then
              match next_token r with
              | None => Some (failed_at end_of_input [])
              | Some (ch, r) => if bool_decide (ch = "}"%char) then Some (Parsed (JObject []) r) else parse_members n depth [] ch r
              end
            else if bool_decide (ch = "["%char) then
              match next_token r with
              | None => Some (failed_at end_of_input [])
              | Some (ch, r) => if bool_decide (ch = "]"%char) then Some (Parsed (JArray []) r) else parse_elements n depth [] (ch :: r)
              end
            else Some (failed_at (lit "expected value, got " ++ esc ch) r)
        end
  end
with parse_members (n : nat) (depth : nat) (data : object) (ch : ascii) (r : str) : option (outcome json) :=
  match n with
  | O => None
  | S n =>
      if negb (bool_decide (ch = quote)) then Some (failed_at (lit "expected '" ++ [quote] ++ lit "' in object, got " ++ esc ch) r)
      else
        match parse_string None r with
        | Failed e _ r => Some (failed_at e r)
        | Parsed key r =>
            match next_token r with
            | None => Some (failed_at end_of_input [])
            | Some (ch, r) =>
                if negb (bool_decide (ch = ":"%char)) then Some (failed_at (lit "expected ':' in object, got " ++ esc ch) r)
                else
                  match parse_json n (S depth) r with
                  | None => None
                  | Some (Failed e _ r) => Some (failed_at e r)
                  | Some (Parsed j r) =>
                      let data := map_put key j data in
                      match next_token r with
                      | None => Some (failed_at end_of_input [])
                      | Some (ch, r) =>
                          if bool_decide (ch = "}"%char) then Some (Parsed (JObject data) r)
                          else if negb (bool_decide (ch = ","%char)) then
                            Some (failed_at (lit "expected ',' in object, got " ++ esc ch) r)
                          else
                            match next_token r with
                            | None => Some (failed_at end_of_input [])
                            | Some (ch, r) => parse_members n depth data ch r
                            end
                      end
                  end
            end
        end
  end
with parse_elements (n : nat) (depth : nat) (data : list json) (s : str) : option (outcome json) :=
  match n with
  | O => None
  | S n =>
      match parse_json n (S depth) s with
      | None => None
      | Some (Failed e _ r) => Some (failed_at e r)
      | Some (Parsed j r) =>
          let data := data ++ [j] in
          match next_token r with
          | None => Some (failed_at end_of_input [])
          | Some (ch, r) =>
              if bool_decide (ch = "]"%char) then Some (Parsed (JArray data) r)
              else if negb (bool_decide (ch = ","%char)) then Some (failed_at (lit "expected ',' in list, got " ++ esc ch) r)
              else
                match next_token r with
                | None => Some (failed_at end_of_input [])
                | Some (ch, r) => parse_elements n depth data (ch :: r)
                end
          end
      end
  end.

(** Enough for any text ([parse_total]). *)
Definition enough (s : str) : nat := 2 * length s + 1.

(** [Json::parse]: the value and the message, empty if there is none. *)
Definition parse (s : str) : json * str :=
  match parse_json (enough s) 0 s with
  | Some (Parsed j r) =>
      match consume_whitespace r with
      | [] => (j, [])
      | c :: _ => (JNull, lit "unexpected trailing " ++ esc c)
      end
  | Some (Failed e j r) => (match consume_whitespace r with [] => j | _ => JNull end, e)
  | None => (JNull, [])
  end.
End Parser.

(** ** Strings *)

Lemma short_escape_ok c e : short_escape c = Some e → e ≠ "u"%char ∧ unescape e = Some c.
Proof. destruct c as [[] [] [] [] [] [] [] []]; vm_compute; intros [= <-]; (split; [discriminate | reflexivity]). Qed.

Lemma raw_char c : short_escape c = None → c ≠ quote ∧ c ≠ backslash.
Proof. intros H. split; intros ->; by vm_compute in H. Qed.

(** A code point that an escape has, and that is not the first of two. *)
Definition lone (last : option N) : Prop := match last with Some cp => (cp < 0xd800)%N | None => True end.

Lemma lone_surrogates last cp : lone last → surrogates last cp = None.
Proof. destruct last as [h |]; [| done]. cbn. intros Hh. by rewrite (proj2 (N.leb_gt 0xd800 h)). Qed.

(** What is read of an escape of four digits. *)
Lemma read_u_escape last n r :
  forallb is_xdigit (drop 2 (u_escape n)) = true → stoi 16 (drop 2 (u_escape n)) = n → lone last →
  parse_string last (u_escape n ++ r) = prepend (encode_utf8 last) (parse_string (Some n) r).
Proof.
  intros Hx Hn Hl. unfold u_escape in *. cbn [drop] in Hx, Hn. cbn [app parse_string].
  rewrite (bool_decide_eq_false_2 (backslash = quote)) by done. rewrite bool_decide_eq_true_2 by done. cbn [negb].
  change (code backslash <=? 31)%N with false. cbv iota. rewrite bool_decide_eq_true_2 by done. cbv zeta. rewrite Hx, Hn. by rewrite lone_surrogates.
Qed.

Lemma low_escape c : (code c <=? 0x1f)%N = true →
  forallb is_xdigit (drop 2 (u_escape (code c))) = true ∧ stoi 16 (drop 2 (u_escape (code c))) = code c ∧
  encode_utf8 (Some (code c)) = [c] ∧ lone (Some (code c)).
Proof. destruct c as [[] [] [] [] [] [] [] []]; vm_compute; try discriminate; intros _; by split_and!. Qed.

Lemma prepend_prepend x y o : prepend x (prepend y o) = prepend (x ++ y) o.
Proof. destruct o; cbn; [by rewrite app_assoc | done]. Qed.

Lemma read_raw last c r : short_escape c = None → (code c <=? 0x1f)%N = false →
  parse_string last (c :: r) = prepend (encode_utf8 last ++ [c]) (parse_string None r).
Proof.
  intros Hs Hc. destruct (raw_char c Hs) as [Hq Hb]. cbn [parse_string]. by rewrite !bool_decide_eq_false_2, Hc by done.
Qed.

Lemma read_chars n : ∀ s last r, length s ≤ n → lone last →
  parse_string last (dump_chars s ++ quote :: r) = Parsed (encode_utf8 last ++ s) r.
Proof.
  induction n as [|n IH]; intros s last r Hn Hl.
  { destruct s; [| cbn in Hn; lia]. cbn [dump_chars app parse_string]. by rewrite bool_decide_eq_true_2, app_nil_r. }
  destruct s as [|c s']; [cbn [dump_chars app parse_string]; by rewrite bool_decide_eq_true_2, app_nil_r |].
  cbn in Hn. cbn [dump_chars]. destruct (short_escape c) as [e|] eqn:Es.
  - destruct (short_escape_ok c e Es) as [Hu He]. cbn [app parse_string].
    rewrite (bool_decide_eq_false_2 (backslash = quote)) by done. change (code backslash <=? 31)%N with false. cbv iota.
    rewrite (bool_decide_eq_true_2 (backslash = backslash)) by done. cbn [negb]. rewrite bool_decide_eq_false_2, He by done.
    rewrite IH by (done || lia). cbn. by rewrite <- app_assoc.
  - destruct (code c <=? 0x1f)%N eqn:Ec.
    + destruct (low_escape c Ec) as (H1 & H2 & H3 & H4). rewrite <- app_assoc, read_u_escape by done. rewrite IH by (done || lia).
      unfold prepend, map_outcome. by rewrite H3.
    + destruct s' as [|d [|e s'']].
      1,2: rewrite <- app_comm_cons, read_raw by done; rewrite IH by (cbn in *; done || lia); cbn; by rewrite <- app_assoc.
      destruct ((code c =? 0xe2)%N && (code d =? 0x80)%N && (code e =? 0xa8)%N) eqn:E8.
      { apply andb_prop in E8 as [[E1%N.eqb_eq E2%N.eqb_eq]%andb_prop E3%N.eqb_eq]. rewrite <- app_assoc, read_u_escape by (done || by vm_compute).
        rewrite IH by (cbn in *; done || lia). unfold prepend, map_outcome. do 2 f_equal.
        apply (f_equal ascii_of_N) in E1, E2, E3. unfold code in *. rewrite ascii_N_embedding in E1, E2, E3. by subst. }
      destruct ((code c =? 0xe2)%N && (code d =? 0x80)%N && (code e =? 0xa9)%N) eqn:E9.
      { apply andb_prop in E9 as [[E1%N.eqb_eq E2%N.eqb_eq]%andb_prop E3%N.eqb_eq]. rewrite <- app_assoc, read_u_escape by (done || by vm_compute).
        rewrite IH by (cbn in *; done || lia). unfold prepend, map_outcome. do 2 f_equal.
        apply (f_equal ascii_of_N) in E1, E2, E3. unfold code in *. rewrite ascii_N_embedding in E1, E2, E3. by subst. }
      rewrite <- app_comm_cons, read_raw by done. rewrite IH by (done || lia). cbn. by rewrite <- app_assoc.
Qed.

Lemma read_string s r : parse_string None (dump_chars s ++ quote :: r) = Parsed s r.
Proof. by rewrite (read_chars (length s)). Qed.

(** ** Numbers *)

(** What may follow a number. *)
Definition number_ends (r : str) : Prop := is_digit (peek r) = false ∧ peek r ≠ "."%char ∧ is_e (peek r) = false.

Lemma leading_app base ds r : forallb (digit_of base) ds = true → digit_of base (peek r) = false → leading_digits base (ds ++ r) = ds.
Proof.
  intros Hd Hr. induction ds as [|c ds IH]; cbn [app leading_digits].
  - destruct r as [|c r]; [done |]. cbn in Hr |- *. by rewrite Hr.
  - cbn in Hd. apply andb_prop in Hd as [-> Hd]. by rewrite IH.
Qed.

Lemma span_app ds r : forallb is_digit ds = true → is_digit (peek r) = false → span_digits (ds ++ r) = (ds, r).
Proof. intros Hd Hr. unfold span_digits. rewrite (leading_app 10) by done. by rewrite drop_app_length. Qed.

(** No digit 0 in front. *)
Lemma to_digits_head fuel : ∀ n acc, (0 < n < 2 ^ N.of_nat fuel)%N → ∃ d ds, to_digits 10 fuel n acc = digit_char d :: ds ∧ (0 < d < 10)%N.
Proof.
  induction fuel as [|fuel IH]; intros n acc Hn; [cbn in Hn; lia |]. cbn [to_digits].
  pose proof (N.div_mod n 10 ltac:(done)) as E. pose proof (N.mod_lt n 10 ltac:(done)) as Hm.
  destruct (N.eqb_spec (n / 10) 0) as [E0 | E0]; [exists (n mod 10)%N, acc; split; [done | lia] |].
  apply IH. split; [lia |]. apply N.Div0.div_lt_upper_bound. rewrite Nat2N.inj_succ, N.pow_succ_r' in Hn. lia.
Qed.

Lemma number_text_head n : (0 < n)%N → ∃ d ds, number_text 10 n = digit_char d :: ds ∧ (0 < d < 10)%N.
Proof.
  intros Hn. apply to_digits_head. split; [done |]. eapply N.lt_trans; [apply N.size_gt |]. apply N.pow_lt_mono_r; lia.
Qed.

Lemma digit_chars d : (0 < d < 10)%N → is_digit (digit_char d) = true ∧ digit_char d ≠ "0"%char ∧ digit_char d ≠ minus.
Proof.
  intros Hd. split; [apply digit_char_digit; lia |].
  assert (H : code (digit_char d) = (48 + d)%N).
  { apply N.eqb_eq, (forall_below (λ d, (code (digit_char d) =? 48 + d)%N) 10); [done | lia]. }
  split; intros E; rewrite E in H; change (code _) with 48%N in H || change (code _) with 45%N in H; lia.
Qed.

Section Numbers.
Context (atof : str → json).

Lemma number_rest_int neg ds r : number_ends r → (stoi 10 ds ≤ 2 ^ 53)%N → number_rest atof neg ds r = Parsed (JNumber (atoi neg ds)) r.
Proof.
  intros (Hd & Hp & He) Hn. unfold number_rest. rewrite (bool_decide_eq_false_2 _ Hp), He. cbn [negb andb].
  destruct (length _ <=? 9); [done |]. unfold fraction, exponent. rewrite bool_decide_eq_false_2, He by done. cbn.
  unfold real_int. by rewrite (proj2 (N.leb_le _ _) Hn).
Qed.

(** The digits of a number, behind the sign. *)
Lemma read_digits_of neg n r :
  number_ends r → (n ≤ 2 ^ 53)%N →
  (if bool_decide (peek (number_text 10 n ++ r) = "0"%char) then
     if is_digit (peek (drop 1 (number_text 10 n ++ r))) then failed_at (lit "leading 0s not permitted in numbers") (drop 1 (number_text 10 n ++ r))
     else number_rest atof neg ["0"%char] (drop 1 (number_text 10 n ++ r))
   else if is_digit (peek (number_text 10 n ++ r)) then let '(ds, r) := span_digits (number_text 10 n ++ r) in number_rest atof neg ds r
   else failed_at (lit "invalid " ++ esc (peek (number_text 10 n ++ r)) ++ lit " in number") (number_text 10 n ++ r))
  = Parsed (JNumber (if neg then (- Z.of_N n)%Z else Z.of_N n)) r.
Proof.
  intros Hr Hn. destruct (N.eq_0_gt_0_cases n) as [-> | Hp].
  - change (number_text 10 0) with ["0"%char]. cbn [app peek drop]. rewrite bool_decide_eq_true_2 by done.
    rewrite ?drop_0, (proj1 Hr), number_rest_int by done. by destruct neg.
  - destruct (number_text_head n Hp) as (d & ds & E & Hd). destruct (digit_chars d Hd) as (H1 & H2 & _).
    destruct (number_text_read 10 n) as [[Hx Hv] _]; [by left |].
    assert (Ep : peek (number_text 10 n ++ r) = digit_char d) by by rewrite E. rewrite Ep, bool_decide_eq_false_2, H1 by done.
    rewrite span_app by (done || apply Hr). rewrite number_rest_int by (done || by rewrite Hv). unfold atoi. by rewrite Hv.
Qed.

Lemma read_number z r : (Z.abs z ≤ 2 ^ 53)%Z → number_ends r → parse_number atof (int_text z ++ r) = Parsed (JNumber z) r.
Proof.
  intros Hz Hr. assert (Hn : (Z.abs_N z ≤ 2 ^ 53)%N) by lia.
  unfold parse_number, int_text. destruct (Z.ltb_spec z 0) as [Hs | Hs].
  - cbn [app peek drop]. rewrite ?drop_0, (bool_decide_eq_true_2 (minus = minus)) by done. cbv zeta. rewrite (read_digits_of true _ r Hr Hn). do 2 f_equal. lia.
  - cbn [app]. assert (Hm : peek (number_text 10 (Z.abs_N z) ++ r) ≠ minus).
    { destruct (N.eq_0_gt_0_cases (Z.abs_N z)) as [-> | Hp]; [done |].
      destruct (number_text_head _ Hp) as (d & ds & -> & Hd). by apply digit_chars. }
    rewrite (bool_decide_eq_false_2 _ Hm). cbv zeta. rewrite (read_digits_of false _ r Hr Hn). do 2 f_equal. lia.
Qed.

(** The first character decides. *)
Lemma int_text_head z : ∃ c s, int_text z = c :: s ∧ (c = minus ∨ is_digit c = true).
Proof.
  unfold int_text. destruct (z <? 0)%Z; [eexists _, _; split; [done | by left] |]. cbn [app].
  destruct (N.eq_0_gt_0_cases (Z.abs_N z)) as [-> | Hp]; [by eexists _, _; split; [| right] |].
  destruct (number_text_head _ Hp) as (d & ds & -> & Hd). eexists _, _. split; [done | right; by apply digit_chars].
Qed.
End Numbers.

(** ** Values *)

Section Induction.
Context (P : json → Prop).
Context (H_null : P JNull) (H_bool : ∀ b, P (JBool b)) (H_number : ∀ z, P (JNumber z)) (H_string : ∀ s, P (JString s)).
Context (H_array : ∀ l, Forall P l → P (JArray l)) (H_object : ∀ o : object, Forall (λ x, P (snd x)) o → P (JObject o)).

Fixpoint json_induction (j : json) : P j :=
  match j with
  | JNull => H_null
  | JBool b => H_bool b
  | JNumber z => H_number z
  | JString s => H_string s
  | JArray l => H_array l ((fix go l := match l return Forall P l with [] => Forall_nil_2 _ | j :: l => Forall_cons_2 _ _ _ (json_induction j) (go l) end) l)
  | JObject o =>
      H_object o ((fix go (o : object) := match o return Forall (λ x, P (snd x)) o with
                                          | [] => Forall_nil_2 _
                                          | x :: o => Forall_cons_2 (λ x, P (snd x)) x o (json_induction (snd x)) (go o)
                                          end) o)
  end.
End Induction.

(** The levels below a value. *)
Fixpoint height (j : json) : nat :=
  match j with
  | JArray l => foldr (λ j h, Nat.max (S (height j)) h) 0 l
  | JObject o => foldr (λ x h, Nat.max (S (height (snd x))) h) 0 o
  | _ => 0
  end.

(** Its numbers are ones that a double holds exactly. *)
Fixpoint exact_numbers (j : json) : Prop :=
  match j with
  | JNumber z => (Z.abs z ≤ 2 ^ 53)%Z
  | JArray l => foldr (λ j Q, exact_numbers j ∧ Q) True l
  | JObject o => foldr (λ x Q, exact_numbers (snd x) ∧ Q) True o
  | _ => True
  end.

Lemma foldr_Forall {A} (Q : A → Prop) l : foldr (λ x R, Q x ∧ R) True l ↔ Forall Q l.
Proof. induction l as [|x l IH]; cbn; [by split; constructor |]. rewrite IH. by rewrite Forall_cons. Qed.

(** ** Ordered objects *)

Lemma str_ltb_trans a : ∀ b c, str_ltb a b = true → str_ltb b c = true → str_ltb a c = true.
Proof.
  induction a as [|x a IH]; intros [|y b] [|z c]; cbn; try done.
  intros [H1%N.ltb_lt | [E1%N.eqb_eq H1]%andb_prop]%orb_prop [H2%N.ltb_lt | [E2%N.eqb_eq H2]%andb_prop]%orb_prop; apply orb_true_iff.
  1-3: left; apply N.ltb_lt; lia.
  right. rewrite E1, E2, N.eqb_refl. by apply (IH b).
Qed.

Lemma str_ltb_irrefl a : str_ltb a a = false.
Proof. induction a as [|x a IH]; [done |]. cbn. by rewrite N.ltb_irrefl, N.eqb_refl, IH. Qed.

Lemma str_ltb_total a : ∀ b, a ≠ b → str_ltb a b = false → str_ltb b a = true.
Proof.
  induction a as [|x a IH]; intros [|y b]; cbn; try done. intros Hne [H1%N.ltb_ge H2]%orb_false_iff. apply orb_true_iff.
  destruct (N.eqb_spec (code x) (code y)) as [E | E]; [| left; apply N.ltb_lt; lia]. right. rewrite E, N.eqb_refl. apply IH; [| done].
  intros ->. apply Hne. f_equal. apply (f_equal ascii_of_N) in E. unfold code in E. by rewrite !ascii_N_embedding in E.
Qed.

(** Every key is above [k]; the keys go up. *)
Definition above (k : str) (o : object) : Prop := Forall (λ x, str_ltb k (fst x) = true) o.

Inductive ordered : object → Prop :=
| ordered_nil : ordered []
| ordered_cons k j o : above k o → ordered o → ordered ((k, j) :: o).

Lemma keys_above_trans k k' o : str_ltb k k' = true → above k' o → above k o.
Proof. intros Hk Ho. eapply Forall_impl; [exact Ho |]. intros x. by apply str_ltb_trans. Qed.

Lemma map_put_above k k' j o : str_ltb k k' = true → above k o → above k (map_put k' j o).
Proof.
  intros Hk. induction o as [|[k1 j1] o IH]; intros Ho; cbn [map_put]; [by repeat constructor |].
  inversion Ho as [|? ? H1 H2]; subst. destruct (bool_decide (k' = k1)); [by constructor |].
  destruct (str_ltb k' k1); [constructor; [done | by constructor] | constructor; [done | by apply IH]].
Qed.

Lemma map_put_ordered k j o : ordered o → ordered (map_put k j o).
Proof.
  induction 1 as [|k1 j1 o H1 Ho IH]; cbn [map_put]; [by repeat constructor |].
  case_bool_decide as E; [subst; by constructor |]. destruct (str_ltb k k1) eqn:Ek.
  - constructor; [| by constructor]. constructor; [done | by apply (keys_above_trans k k1)].
  - constructor; [| done]. apply map_put_above; [| done]. by apply str_ltb_total.
Qed.

Lemma to_map_ordered o : ordered (to_map o).
Proof. induction o as [|x o IH]; [constructor | by apply map_put_ordered]. Qed.

(** Behind all keys. *)
Lemma map_put_last k j o : Forall (λ x, str_ltb (fst x) k = true) o → map_put k j o = o ++ [(k, j)].
Proof.
  induction 1 as [|[k1 j1] o H1 _ IH]; [done |]. cbn [map_put app]. cbn in H1. rewrite bool_decide_eq_false_2.
  - destruct (str_ltb k k1) eqn:E; [| by rewrite IH]. pose proof (str_ltb_trans _ _ _ H1 E) as H. by rewrite str_ltb_irrefl in H.
  - intros ->. by rewrite str_ltb_irrefl in H1.
Qed.

Lemma find_map_put k j o k' : ordered o → find_key (map_put k j o) k' = if decide (k = k') then Some j else find_key o k'.
Proof.
  induction 1 as [|k1 j1 o H1 Ho IH]; cbn [map_put find_key]; [done |].
  case_bool_decide as E; [subst; cbn [find_key]; by destruct (decide (k1 = k')) |].
  destruct (str_ltb k k1) eqn:Ek; cbn [find_key]; [done |]. rewrite IH.
  destruct (decide (k1 = k')) as [-> |], (decide (k = k')) as [-> |]; done.
Qed.

Lemma find_to_map o k : find_key (to_map o) k = find_key o k.
Proof.
  induction o as [|[k1 j1] o IH]; [done |]. change (to_map ((k1, j1) :: o)) with (map_put k1 j1 (to_map o)).
  rewrite find_map_put by apply to_map_ordered. by rewrite IH.
Qed.

Lemma map_put_Forall (Q : str * json → Prop) k j o : Q (k, j) → Forall Q o → Forall Q (map_put k j o).
Proof.
  intros Hj. induction 1 as [|[k1 j1] o H1 Ho IH]; cbn [map_put]; [by repeat constructor |].
  destruct (bool_decide _); [by constructor |]. destruct (str_ltb k k1); repeat constructor; done.
Qed.

Lemma to_map_Forall (Q : str * json → Prop) o : Forall Q o → Forall Q (to_map o).
Proof. induction 1 as [|[k j] o Hx Ho IH]; [constructor | by apply map_put_Forall]. Qed.

(** ** Reading what is printed *)

(** All its objects are ordered. *)
Fixpoint tidy (j : json) : Prop :=
  match j with
  | JArray l => foldr (λ j Q, tidy j ∧ Q) True l
  | JObject o => ordered o ∧ foldr (λ x Q, tidy (snd x) ∧ Q) True o
  | _ => True
  end.

Definition member_text (x : str * json) : str := dump_string (fst x) ++ lit ": " ++ dump_ordered (snd x).

(** Further elements or members. *)
Definition more {A} (f : A → str) (l : list A) : str := concat (map (λ x, lit ", " ++ f x) l).

Lemma join_more {A} (f : A → str) x l : join (map f (x :: l)) = f x ++ more f l.
Proof.
  revert x. induction l as [|y l IH]; intros x; [by rewrite app_nil_r |]. change (join (map f (x :: y :: l))) with (f x ++ lit ", " ++ join (map f (y :: l))).
  rewrite IH. unfold more. cbn [map concat]. by rewrite <- app_assoc.
Qed.

Lemma next_token_char c r : is_blank c = false → next_token (c :: r) = Some (c, r).
Proof. intros H. unfold next_token. cbn [consume_whitespace]. by rewrite H. Qed.

Lemma next_token_space r : next_token (" "%char :: r) = next_token r.
Proof. done. Qed.

(** A value starts with a character that is no blank and ends no list. *)
Lemma digit_no_blank c : c = minus ∨ is_digit c = true → is_blank c = false ∧ c ≠ "]"%char.
Proof.
  intros H. assert (E : bool_decide (c = minus) || is_digit c = true) by (destruct H as [-> | ->]; [done | apply orb_true_r]). revert E. clear.
  destruct c as [[] [] [] [] [] [] [] []]; vm_compute; try discriminate; intros _; by split.
Qed.

Lemma dump_head j : ∃ c s, dump_ordered j = c :: s ∧ is_blank c = false ∧ c ≠ "]"%char.
Proof.
  destruct j as [| [] | z | s | l | o]; cbn [dump_ordered]; try by (eexists _, _).
  destruct (int_text_head z) as (c & s & -> & Hc). exists c, s. split; [done | by apply digit_no_blank].
Qed.

Lemma ends_with c r : negb (is_digit c) && negb (bool_decide (c = "."%char)) && negb (is_e c) = true → number_ends (c :: r).
Proof.
  intros [[H1%negb_true_iff H2%negb_true_iff]%andb_prop H3%negb_true_iff]%andb_prop. apply bool_decide_eq_false in H2. by split_and!.
Qed.

Section Reading.
Context (atof : str → json).

Definition reads (d : nat) (s : str) (j : json) (r : str) : Prop := ∃ N, ∀ n, N ≤ n → parse_json atof n d s = Some (Parsed j r).

(** A value that is read at a depth before anything. *)
Definition readable (d : nat) (j : json) : Prop := ∀ r, number_ends r → reads d (dump_ordered j ++ r) j r.

Lemma shallow d : d ≤ 200 → (max_depth <? d) = false.
Proof. intros H. by apply Nat.ltb_ge. Qed.

Lemma parse_space n d s : d ≤ 200 → parse_json atof n d (" "%char :: s) = parse_json atof n d s.
Proof. intros Hd. destruct n; [done |]. cbn [parse_json]. by rewrite (shallow d Hd), next_token_space. Qed.

Lemma elements_read l : ∀ j data d r,
  S d ≤ 200 → readable (S d) j → Forall (readable (S d)) l →
  ∃ N, ∀ n, N ≤ n → parse_elements atof n d data (dump_ordered j ++ more dump_ordered l ++ "]"%char :: r) =
    Some (Parsed (JArray (data ++ j :: l)) r).
Proof.
  induction l as [|j' l IH]; intros j data d r Hd Hj Hl.
  - destruct (Hj ("]"%char :: r)) as [N HN]; [by apply ends_with |]. exists (S N). intros [|n] Hn; [lia |].
    cbn [more concat map app parse_elements]. rewrite HN by lia. by rewrite next_token_char.
  - inversion Hl as [|? ? Hj' Hl']; subst. unfold more. cbn [map concat]. fold (more dump_ordered l). rewrite <- !app_assoc.
    destruct (Hj (lit ", " ++ dump_ordered j' ++ more dump_ordered l ++ "]"%char :: r)) as [N HN]; [by apply ends_with |].
    destruct (IH j' (data ++ [j]) d r Hd Hj' Hl') as [N' HN']. exists (S (N + N')). intros [|n] Hn; [lia |].
    cbn [parse_elements]. rewrite HN by lia. change (lit ", ") with [","; " "]%char. cbn [app]. rewrite next_token_char by done.
    rewrite (bool_decide_eq_false_2 (","%char = "]"%char)) by done. rewrite bool_decide_eq_true_2 by done. cbn [negb]. rewrite next_token_space.
    destruct (dump_head j') as (c & s & E & Hc & _). rewrite E in HN' |- *. cbn [app] in HN' |- *. rewrite next_token_char by done.
    rewrite HN' by lia. by rewrite <- app_assoc.
Qed.

Lemma members_read o : ∀ k v data d r,
  S d ≤ 200 → readable (S d) v → Forall (λ x, readable (S d) (snd x)) o → ordered ((k, v) :: o) →
  Forall (λ x, str_ltb (fst x) k = true) data →
  ∃ N, ∀ n, N ≤ n →
    parse_members atof n d data quote (dump_chars k ++ quote :: lit ": " ++ dump_ordered v ++ more member_text o ++ "}"%char :: r) =
    Some (Parsed (JObject (data ++ (k, v) :: o)) r).
Proof.
  assert (Step : ∀ n d k v data x, S d ≤ 200 → number_ends x → parse_json atof n (S d) (dump_ordered v ++ x) = Some (Parsed v x) →
    Forall (λ x, str_ltb (fst x) k = true) data →
    parse_members atof (S n) d data quote (dump_chars k ++ quote :: lit ": " ++ dump_ordered v ++ x) =
    match next_token x with
    | None => Some (failed_at end_of_input [])
    | Some (ch, r) =>
        if bool_decide (ch = "}"%char) then Some (Parsed (JObject (data ++ [(k, v)])) r)
        else if negb (bool_decide (ch = ","%char)) then Some (failed_at (lit "expected ',' in object, got " ++ esc ch) r)
        else match next_token r with None => Some (failed_at end_of_input []) | Some (ch, r) => parse_members atof n d (data ++ [(k, v)]) ch r end
    end).
  { intros n d k v data x Hd Hx Hv Hdata. cbn [parse_members]. rewrite bool_decide_eq_true_2 by done. cbn [negb]. rewrite read_string.
    change (lit ": ") with [":"; " "]%char. cbn [app]. rewrite next_token_char by done. rewrite bool_decide_eq_true_2 by done. cbn [negb].
    rewrite parse_space, Hv by done. by rewrite map_put_last. }
  induction o as [|[k' v'] o IH]; intros k v data d r Hd Hv Ho Hord Hdata.
  - destruct (Hv ("}"%char :: r)) as [N HN]; [by apply ends_with |]. exists (S N). intros [|n] Hn; [lia |].
    cbn [more concat map app]. rewrite Step by (done || by apply ends_with || (apply HN; lia)). by rewrite next_token_char.
  - inversion Ho as [|? ? Hv' Ho']; subst. inversion Hord as [|? ? ? Habove Hord']; subst. inversion Habove as [|? ? Hk Habove']; subst.
    unfold more. cbn [map concat]. fold (more member_text o). rewrite <- !app_assoc.
    destruct (Hv (lit ", " ++ member_text (k', v') ++ more member_text o ++ "}"%char :: r)) as [N HN]; [by apply ends_with |].
    destruct (IH k' v' (data ++ [(k, v)]) d r Hd Hv' Ho' Hord') as [N' HN'].
    { apply Forall_app. split; [| by repeat constructor]. eapply Forall_impl; [exact Hdata |]. intros x Hx. by apply (str_ltb_trans _ k). }
    exists (S (N + N')). intros [|n] Hn; [lia |]. rewrite Step by (done || by apply ends_with || (apply HN; lia)).
    change (lit ", ") with [","; " "]%char. cbn [app]. rewrite next_token_char by done.
    rewrite (bool_decide_eq_false_2 (","%char = "}"%char)) by done. rewrite bool_decide_eq_true_2 by done. cbn [negb]. rewrite next_token_space.
    unfold member_text, dump_string. cbn [fst snd app]. rewrite next_token_char by done. rewrite <- !app_assoc. cbn [app] in *.
    rewrite HN' by lia. by rewrite <- app_assoc.
Qed.
End Reading.

Section Main.
Context (atof : str → json).

Lemma max_lub (f : json → nat) {A} (g : A → json) l d :
  d + foldr (λ x h, Nat.max (S (f (g x))) h) 0 l ≤ 200 → Forall (λ x, S d + f (g x) ≤ 200) l ∧ (l ≠ [] → S d ≤ 200).
Proof.
  induction l as [|x l IH]; cbn [foldr]; intros H; [by split |]. destruct IH as [IH _]; [lia |]. split; [constructor; [lia | done] | lia].
Qed.

(** Reading what is printed gives the value. *)
Lemma value_read j : ∀ d, exact_numbers j → tidy j → d + height j ≤ 200 → readable atof d j.
Proof.
  induction j as [| b | z | s | l IH | o IH] using json_induction; intros d He Ht Hh r Hr; cbn [height exact_numbers tidy] in *.
  - exists 1. intros [|n] Hn; [lia |]. cbn [parse_json]. by rewrite shallow by lia.
  - exists 1. intros [|n] Hn; [lia |]. cbn [parse_json]. rewrite shallow by lia. by destruct b.
  - exists 1. intros [|n] Hn; [lia |]. cbn [parse_json]. rewrite shallow by lia. cbn [dump_ordered].
    destruct (int_text_head z) as (c & s & E & Hc). pose proof (read_number atof z r He Hr) as Hp. rewrite E in Hp |- *. cbn [app] in Hp |- *.
    rewrite next_token_char by by apply digit_no_blank.
    assert (Ec : bool_decide (c = minus) || is_digit c = true) by (destruct Hc as [-> | ->]; [done | apply orb_true_r]). rewrite Ec. by rewrite Hp.
  - exists 1. intros [|n] Hn; [lia |]. cbn [parse_json]. rewrite shallow by lia. cbn [dump_ordered]. unfold dump_string. cbn [app].
    rewrite next_token_char, <- app_assoc by done. cbn [app]. rewrite read_string. done.
  - rewrite foldr_Forall in He, Ht. destruct (max_lub height (λ x, x) l d Hh) as [Hl Hd].
    assert (Hall : Forall (readable atof (S d)) l).
    { clear Hd Hh. induction IH as [|j l Hj _ IHl]; [constructor |]. inversion He; inversion Ht; inversion Hl; subst. constructor; [by apply Hj | by apply IHl]. }
    cbn [dump_ordered]. destruct l as [|j l].
    + exists 1. intros [|n] Hn; [lia |]. cbn [parse_json]. by rewrite shallow by lia.
    + inversion Hall as [|? ? Hj Hl']; subst. rewrite join_more.
      destruct (elements_read atof l j [] d r (Hd ltac:(done)) Hj Hl') as [N HN]. exists (S N). intros [|n] Hn; [lia |].
      cbn [parse_json]. rewrite shallow by lia. cbn [app]. rewrite next_token_char, <- !app_assoc by done. cbn [app].
      destruct (dump_head j) as (c & s & E & Hc & Hn'). rewrite E in HN |- *. cbn [app] in HN |- *. rewrite next_token_char by done.
      rewrite (bool_decide_eq_false_2 _ Hn'). by rewrite HN by lia.
  - destruct Ht as [Hord Ht]. rewrite (foldr_Forall (λ x, exact_numbers (snd x))) in He. rewrite (foldr_Forall (λ x, tidy (snd x))) in Ht.
    destruct (max_lub height snd o d Hh) as [Hl Hd].
    assert (Hall : Forall (λ x, readable atof (S d) (snd x)) o).
    { clear Hd Hh Hord. induction IH as [|x o Hj _ IHl]; [constructor |]. inversion He; inversion Ht; inversion Hl; subst. constructor; [by apply Hj | by apply IHl]. }
    change (dump_ordered (JObject o)) with (["{"%char] ++ join (map member_text o) ++ ["}"%char]). destruct o as [|[k v] o].
    + exists 1. intros [|n] Hn; [lia |]. cbn [parse_json]. by rewrite shallow by lia.
    + inversion Hall as [|? ? Hv Ho]; subst. rewrite join_more.
      destruct (members_read atof o k v [] d r (Hd ltac:(done)) Hv Ho Hord (Forall_nil_2 _)) as [N HN]. exists (S N). intros [|n] Hn; [lia |].
      cbn [parse_json]. rewrite shallow by lia. cbn [app]. rewrite next_token_char by done. change (member_text (k, v)) with (quote :: (dump_chars k ++ [quote]) ++ lit ": " ++ dump_ordered v).
      rewrite <- !app_assoc. cbn [app]. rewrite <- !app_assoc. cbn [app]. rewrite next_token_char by done. by rewrite HN by lia.
Qed.
End Main.

(** ** Any text *)

Lemma next_token_length s c r : next_token s = Some (c, r) → length r < length s.
Proof.
  unfold next_token. assert (H : length (consume_whitespace s) ≤ length s).
  { induction s as [|a s IH]; [done |]. cbn [consume_whitespace]. destruct (is_blank a); cbn [length]; lia. }
  destruct (consume_whitespace s) as [|c' r'] eqn:E; [done |]. intros [= -> ->]. cbn in H. lia.
Qed.

Lemma prepend_parsed x o a r : prepend x o = Parsed a r → ∃ a', o = Parsed a' r.
Proof. destruct o as [a' r' | e a' r']; cbn; [intros [= _ <-]; by exists a' | done]. Qed.

Lemma parse_string_length k : ∀ s last a r, length s ≤ k → parse_string last s = Parsed a r → length r < length s.
Proof.
  induction k as [|k IH]; intros s last a r Hk; [destruct s; [done | cbn in Hk; lia] |].
  destruct s as [|c s']; [done |]. cbn in Hk. cbn [parse_string].
  destruct (bool_decide (c = quote)); [intros [= _ <-]; cbn; lia |]. destruct (code c <=? 31)%N; [done |].
  destruct (negb _). { intros [a' E]%prepend_parsed. apply IH in E; cbn; lia. }
  destruct s' as [|e s1]; [done |]. cbn in Hk. destruct (bool_decide (e = "u"%char)).
  - destruct s1 as [|x1 [|x2 [|x3 [|x4 s2]]]]; try done. destruct (forallb _ _); [| done]. cbn in Hk.
    destruct (surrogates _ _); intros [a' E]%prepend_parsed; apply IH in E; cbn; lia.
  - destruct (unescape e); [| done]. intros [a' E]%prepend_parsed. apply IH in E; cbn; lia.
Qed.

Section Fuel.
Context (atof : str → json).

Lemma span_length s : length (snd (span_digits s)) ≤ length s.
Proof. unfold span_digits. cbn. rewrite length_drop. lia. Qed.

Lemma number_rest_length neg ds r j r' : number_rest atof neg ds r = Parsed j r' → length r' ≤ length r.
Proof.
  unfold number_rest. destruct (_ && _ && _); [intros [= _ <-]; done |].
  assert (Hf : ∀ s f r1, fraction s = inr (f, r1) → length r1 ≤ length s).
  { intros s f r1. unfold fraction. destruct (bool_decide _); [| intros [= _ <-]; done].
    destruct (span_digits (drop 1 s)) as [ds' r''] eqn:E. pose proof (span_length (drop 1 s)) as H. rewrite E, length_drop in H. cbn in H.
    destruct ds'; [done |]. intros [= _ <-]. lia. }
  assert (He : ∀ s f r1, exponent s = inr (f, r1) → length r1 ≤ length s).
  { intros s f r1. unfold exponent. destruct (is_e _); [| intros [= _ <-]; done].
    set (t := drop _ (drop 1 s)). destruct (span_digits t) as [ds' r''] eqn:E. pose proof (span_length t) as H. rewrite E in H. cbn in H.
    unfold t in H. rewrite !length_drop in H. destruct ds'; [done |]. intros [= _ <-]. lia. }
  destruct (fraction r) as [|[f r1]] eqn:Ef; [done |]. destruct (exponent r1) as [|[x r2]] eqn:Ex; [done |]. intros [= _ <-].
  apply Hf in Ef. apply He in Ex. lia.
Qed.

Lemma parse_number_length s j r : parse_number atof s = Parsed j r → length r < length s.
Proof.
  unfold parse_number. set (s1 := if bool_decide (peek s = minus) then drop 1 s else s).
  assert (H1 : length s1 ≤ length s) by (unfold s1; destruct (bool_decide _); [rewrite length_drop; lia | done]). cbv zeta.
  destruct s1 as [|c s2] eqn:E1; [cbn; done |]. cbn [peek drop length] in *. rewrite ?drop_0.
  destruct (bool_decide (c = "0"%char)).
  - destruct (is_digit (peek s2)); [done |]. intros H%number_rest_length. lia.
  - destruct (is_digit c) eqn:Ec; [| done]. destruct (span_digits (c :: s2)) as [ds r'] eqn:E.
    unfold span_digits in E. cbn [leading_digits] in E. change (digit_of 10 c) with (is_digit c) in E. rewrite Ec in E. cbn in E. injection E as <- <-.
    intros H%number_rest_length. rewrite length_drop in H. lia.
Qed.

Lemma expect_length e j c s a r : e ≠ [] → expect e j (c :: s) = Parsed a r → length r < length (c :: s).
Proof. unfold expect. intros He. destruct (bool_decide _); [| done]. intros [= _ <-]. destruct e; [done |]. cbn. rewrite length_drop. lia. Qed.

(** A text is read with fuel for its length, and what is read has some. *)
Definition read_within (k : nat) (o : option (outcome json)) : Prop := ∃ x, o = Some x ∧ ∀ j r, x = Parsed j r → length r < k.

Lemma read_failed k e r : read_within k (Some (failed_at e r)).
Proof. by eexists. Qed.
Lemma read_parsed k j r : length r < k → read_within k (Some (Parsed j r)).
Proof. intros H. eexists. split; [done |]. by intros ? ? [= _ <-]. Qed.
Lemma read_more k k' o : k ≤ k' → read_within k o → read_within k' o.
Proof. intros Hk (x & -> & H). exists x. split; [done |]. intros j r E. specialize (H j r E). lia. Qed.
Lemma read_outcome k (x : outcome json) : (∀ j r, x = Parsed j r → length r < k) → read_within k (Some x).
Proof. by eexists. Qed.

Lemma total n :
  (∀ d s, 2 * length s + 1 ≤ n → read_within (length s) (parse_json atof n d s)) ∧
  (∀ d data ch r, 2 * length r + 2 ≤ n → read_within (length r) (parse_members atof n d data ch r)) ∧
  (∀ d data s, 2 * length s + 2 ≤ n → read_within (length s) (parse_elements atof n d data s)).
Proof.
  induction n as [|n (IHj & IHm & IHe)]; [split_and!; intros; lia |]. split_and!.
  - intros d s Hn. cbn [parse_json]. destruct (max_depth <? d); [apply read_failed |].
    destruct (next_token s) as [[ch r]|] eqn:E; [apply next_token_length in E | apply read_failed].
    destruct (_ || _); [apply read_outcome; intros j r' H%parse_number_length; cbn in H; lia |].
    do 3 (destruct (bool_decide _); [apply read_outcome; intros j r' H%expect_length; [cbn in H; lia | done] |]).
    destruct (bool_decide _).
    { apply read_outcome. intros j r' H. destruct (parse_string None r) as [a x | e a x] eqn:Es; [| done]. injection H as _ <-.
      apply (parse_string_length (length r)) in Es; lia. }
    destruct (bool_decide _).
    { destruct (next_token r) as [[ch' r']|] eqn:E'; [apply next_token_length in E' | apply read_failed].
      destruct (bool_decide _); [apply read_parsed; lia |]. apply (read_more (length r')); [lia |]. apply IHm. lia. }
    destruct (bool_decide _); [| apply read_failed].
    destruct (next_token r) as [[ch' r']|] eqn:E'; [apply next_token_length in E' | apply read_failed].
    destruct (bool_decide _); [apply read_parsed; lia |]. apply (read_more (length (ch' :: r'))); [cbn; lia |]. apply IHe. cbn. lia.
  - intros d data ch r Hn. cbn [parse_members]. destruct (negb _); [apply read_failed |].
    destruct (parse_string None r) as [k r1 | e k r1] eqn:Es; [apply (parse_string_length (length r)) in Es; [| lia] | apply read_failed].
    destruct (next_token r1) as [[c2 r2]|] eqn:E2; [apply next_token_length in E2 | apply read_failed]. destruct (negb _); [apply read_failed |].
    destruct (IHj (S d) r2) as ([j r3 | e j r3] & -> & H3); [lia | specialize (H3 j r3 eq_refl) | apply read_failed].
    destruct (next_token r3) as [[c4 r4]|] eqn:E4; [apply next_token_length in E4 | apply read_failed].
    destruct (bool_decide _); [apply read_parsed; lia |]. destruct (negb _); [apply read_failed |].
    destruct (next_token r4) as [[c5 r5]|] eqn:E5; [apply next_token_length in E5 | apply read_failed].
    apply (read_more (length r5)); [lia |]. apply IHm. lia.
  - intros d data s Hn. cbn [parse_elements].
    destruct (IHj (S d) s) as ([j r3 | e j r3] & -> & H3); [lia | specialize (H3 j r3 eq_refl) | apply read_failed].
    destruct (next_token r3) as [[c4 r4]|] eqn:E4; [apply next_token_length in E4 | apply read_failed].
    destruct (bool_decide _); [apply read_parsed; lia |]. destruct (negb _); [apply read_failed |].
    destruct (next_token r4) as [[c5 r5]|] eqn:E5; [apply next_token_length in E5 | apply read_failed].
    apply (read_more (length (c5 :: r5))); [cbn; lia |]. apply IHe. cbn. lia.
Qed.

(** More fuel changes nothing. *)
Lemma fuel_step n :
  (∀ d s x, parse_json atof n d s = Some x → parse_json atof (S n) d s = Some x) ∧
  (∀ d data ch r x, parse_members atof n d data ch r = Some x → parse_members atof (S n) d data ch r = Some x) ∧
  (∀ d data s x, parse_elements atof n d data s = Some x → parse_elements atof (S n) d data s = Some x).
Proof.
  induction n as [|n (IHj & IHm & IHe)]; [by split_and! |]. split_and!.
  - intros d s x. remember (S n) as m. rewrite Heqm at 1. cbn [parse_json]. destruct (max_depth <? d); [done |].
    destruct (next_token s) as [[ch r]|]; [| done]. repeat (destruct (bool_decide _ || _); [done |]).
    repeat (destruct (bool_decide _); [try done |]); try done.
    all: destruct (next_token r) as [[ch' r']|]; [| done]; destruct (bool_decide _); [done |]; subst m; (apply IHm || apply IHe).
  - intros d data ch r x. remember (S n) as m. rewrite Heqm at 1. cbn [parse_members]. destruct (negb _); [done |].
    destruct (parse_string None r) as [k r1 | e k r1]; [| done]. destruct (next_token r1) as [[c2 r2]|]; [| done]. destruct (negb _); [done |].
    destruct (parse_json atof n (S d) r2) as [o|] eqn:E; [| done]. subst m. rewrite (IHj _ _ _ E). destruct o as [j r3 | e j r3]; [| done].
    destruct (next_token r3) as [[c4 r4]|]; [| done]. destruct (bool_decide _); [done |]. destruct (negb _); [done |].
    destruct (next_token r4) as [[c5 r5]|]; [| done]. apply IHm.
  - intros d data s x. remember (S n) as m. rewrite Heqm at 1. cbn [parse_elements].
    destruct (parse_json atof n (S d) s) as [o|] eqn:E; [| done]. subst m. rewrite (IHj _ _ _ E). destruct o as [j r3 | e j r3]; [| done].
    destruct (next_token r3) as [[c4 r4]|]; [| done]. destruct (bool_decide _); [done |]. destruct (negb _); [done |].
    destruct (next_token r4) as [[c5 r5]|]; [| done]. apply IHe.
Qed.

Lemma more_fuel n m d s x : n ≤ m → parse_json atof n d s = Some x → parse_json atof m d s = Some x.
Proof. induction 1 as [|m _ IH]; [done |]. intros E. by apply fuel_step, IH. Qed.
End Fuel.

(** ** Canonical values *)

Lemma canon_exact j : exact_numbers j → exact_numbers (canon j).
Proof.
  induction j as [| | | | l IH | o IH] using json_induction; try done; cbn [canon exact_numbers]; intros H.
  - rewrite foldr_Forall in H |- *. apply Forall_map. induction IH as [|j l Hj _ IHl]; [constructor |]. inversion H; subst. constructor; [by apply Hj | by apply IHl].
  - rewrite (foldr_Forall (λ x, exact_numbers (snd x))) in H |- *. apply to_map_Forall, Forall_map.
    induction IH as [|x o Hx _ IHo]; [constructor |]. inversion H; subst. constructor; [by apply Hx | by apply IHo].
Qed.

Lemma canon_tidy j : tidy (canon j).
Proof.
  induction j as [| | | | l IH | o IH] using json_induction; try done; cbn [canon tidy].
  - rewrite foldr_Forall. by apply Forall_map.
  - split; [apply to_map_ordered |]. rewrite (foldr_Forall (λ x, tidy (snd x))). apply to_map_Forall, Forall_map. exact IH.
Qed.

Lemma max_Forall (f : json → nat) {A} (g : A → json) l k : foldr (λ x h, Nat.max (S (f (g x))) h) 0 l ≤ k ↔ Forall (λ x, S (f (g x)) ≤ k) l.
Proof. induction l as [|x l IH]; cbn [foldr]; [split; [constructor | lia] |]. rewrite Forall_cons, <- IH. lia. Qed.

Lemma canon_height j k : height j ≤ k → height (canon j) ≤ k.
Proof.
  revert k. induction j as [| | | | l IH | o IH] using json_induction; try done; intros k; cbn [canon height].
  - intros H%(max_Forall height (λ x, x)). apply (max_Forall height (λ x, x)), Forall_map.
    induction IH as [|j l Hj _ IHl]; [constructor |]. apply Forall_cons in H as [H1 H2]. constructor; [| by apply IHl].
    destruct k as [|k]; [cbn in H1; lia |]. apply le_n_S, Hj. cbn in H1. lia.
  - intros H%(max_Forall height snd). apply (max_Forall height snd), to_map_Forall, Forall_map.
    induction IH as [|x o Hx _ IHo]; [constructor |]. apply Forall_cons in H as [H1 H2]. constructor; [| by apply IHo].
    destruct k as [|k]; [cbn in H1; lia |]. apply le_n_S, Hx. cbn in H1. lia.
Qed.

Lemma find_canon o k : find_key (map (λ x, (fst x, canon (snd x))) o) k = canon <$> find_key o k.
Proof. induction o as [|[k1 j1] o IH]; [done |]. cbn. by destruct (decide (k1 = k)). Qed.

Lemma dump_parsed atof j : exact_numbers j → height j ≤ 200 → parse atof (dump j) = (canon j, []).
Proof.
  intros He Hh. pose proof (canon_height j 200 Hh) as Hc.
  destruct (value_read atof (canon j) 0 (canon_exact j He) (canon_tidy j) ltac:(cbn; lia) []) as [N HN]; [by split_and! |].
  rewrite app_nil_r in HN. fold (dump j) in HN. unfold parse.
  destruct (proj1 (total atof (enough (dump j))) 0 (dump j) (le_n _)) as (x & E & _).
  pose proof (more_fuel atof _ (Nat.max N (enough (dump j))) _ _ _ (Nat.le_max_r _ _) E) as E'. rewrite HN in E' by lia. injection E' as <-.
  by rewrite E.
Qed.

(** ** Properties *)

(** C22: printed JSON is read back.  A value of at most 200 levels, with numbers that
    a double holds, is printed to a text that parse reads, without a message,
    as the value with its objects ordered; strings may hold any bytes. *)
Theorem json_roundtrip (atof : str → json) (j : json) :
  exact_numbers j → height j ≤ 200 → parse atof (dump j) = (canon j, []).
Proof. apply dump_parsed. Qed.

(** C34: any text ends the parser.  Whatever the text holds, the calls of the parser
    end within twice its length, with a value or a message, and deeper calls
    change nothing. *)
Theorem parse_total (atof : str → json) (s : str) :
  ∃ o, ∀ n, enough s ≤ n → parse_json atof n 0 s = Some o.
Proof.
  destruct (proj1 (total atof (enough s)) 0 s (le_n _)) as (o & E & _). exists o. intros n Hn. by apply (more_fuel atof _ n _ _ _ Hn).
Qed.

(** requests carry their values.  What a request finds under a key of the body
    it parsed is what was put there before it was printed. *)
Theorem body_carries_values (atof : str → json) (o : object) (k : str) :
  exact_numbers (JObject o) → height (JObject o) ≤ 200 →
  RestJson.parse (parse atof (dump (JObject o))) = Ok (to_map (map (λ x, (fst x, canon (snd x))) o)) ∧
  find_key (object_items (fst (parse atof (dump (JObject o))))) k = canon <$> find_key o k.
Proof.
  intros He Hh. rewrite (dump_parsed atof _ He Hh). split; [done |]. cbn [fst canon object_items]. by rewrite find_to_map, find_canon.
Qed.

(** ** Samples *)

Definition some_object : object :=
  [(lit "b", JArray [JNumber (-12); JNull; JBool true; JNumber 4294967295]);
   (lit "a", JString [quote; ascii_of_N 1; ascii_of_N 0xe2; ascii_of_N 0x80; ascii_of_N 0xa8; backslash; nul])].

Fixpoint nested (n : nat) : json := match n with O => JNull | S n => JArray [nested n] end.

(** 200 levels are read, one more is not. *)
Example depth_bound : parse (λ _, JNull) (dump (nested 200)) = (nested 200, []) ∧
  parse (λ _, JNull) (dump (nested 201)) = (JNull, lit "exceeded maximum nesting depth").
Proof. split; vm_compute; reflexivity. Qed.

Lemma json_roundtrip_witness : parse (λ _, JNull) (dump (JObject some_object)) = (JObject (rev some_object), []).
Proof. apply (json_roundtrip (λ _, JNull) (JObject some_object)); cbn; [lia | lia]. Defined.

Lemma body_carries_values_witness :
  find_key (object_items (fst (parse (λ _, JNull) (dump (JObject some_object))))) (lit "b") =
    Some (JArray [JNumber (-12); JNull; JBool true; JNumber 4294967295]).
Proof. apply (body_carries_values (λ _, JNull) some_object (lit "b")); cbn; lia. Defined.
