(* ===== verification/RestFlowMod.v ===== *)
(** * RestFlowMod: flow entries over the REST interface, RestFlowMod.hh and .cc

    A request is a parsed JSON object; what is answered, sent and kept for later
    answers ([response_]) are results.  What the uninitialised variable of
    [string_cast] holds at each read ([junk]), what constructors of libfluid leave in fields that are not set
    ([fresh], [new_flow_mod]), the number of tables and the switches of the
    switch manager are parameters.  The fields of a match are the list of calls
    of [add_oxm_field].

    A match without masks that RestMultipart reports is built again by the
    request that sends it back ([reported_match_reinstalls]), but one with masks
    or of IPv6 is not ([masks_lost], [ipv6_match_conflicts]), and a field never lacks its
    prerequisites ([match_prerequisites]); flows are added below the last table
    only ([adds_below_last_table]), one of them for each request, if the table
    is given as text (else [number_table_unchecked]); after
    clearing, the tables are those of a new switch but for the bytes that come
    to the controller ([clear_restores_pipeline]). *)

From S2P Require Import Prelude Bits Regex RestJson Controller.
From stdpp Require Import list.

Inductive flow_command : Type := OFPFC_ADD | OFPFC_DELETE | OFPFC_DELETE_STRICT.

Definition OFPP_ANY : N := 0xffffffff.
Definition OFPG_ANY : N := 0xffffffff.
Definition OFP_NO_BUFFER : N := 0xffffffff.

Definition tcp : N := 6.
Definition udp : N := 17.
Definition ipv4 : N := 0x800.
Definition arp : N := 0x806.

(** Up to the first zero. *)
Fixpoint c_str (s : str) : str :=
  match s with c :: s => if (code c =? 0)%N then [] else c :: c_str s | [] => [] end.

Section FlowMod.
Context {eth ip : Type} `{AD : Addresses eth ip} (junk : reading → N).

Record flow_mod : Type := FlowMod {
  command : flow_command; table_id : N; cookie : N; cookie_mask : N; idle_timeout : N; hard_timeout : N; priority : N; buffer_id : N;
  out_port : N; out_group : N; flags : N; oxm_fields : list (oxm eth ip); instructions : list (instruction eth ip) }.

(** The setters cut numbers of 64 bits to the width of the field. *)
Definition processInfoAdd (fm : flow_mod) (req : object) : res flow_mod :=
  let chVal (field : str) (alternative : N) := chooseValue (junk (InInfo field)) 64 req field alternative in
  table ← at_key req (lit "table_id") ≫= json_cast (junk (InInfo (lit "table_id"))) 8;
  ck ← chVal (lit "cookie") 0%N;
  mask ← chVal (lit "cookie_mask") 0%N;
  idle ← chVal (lit "idle_timeout") 10%N;
  hard ← chVal (lit "hard_timeout") 10%N;
  prio ← chVal (lit "priority") 0%N;
  buffer ← chVal (lit "buffer_id") 0xffffffff%N;
  fl ← chVal (lit "flags") 0%N;
  Ok (FlowMod (command fm) table ck mask (wrap 16 idle) (wrap 16 hard) (wrap 16 prio) (wrap 32 buffer) (out_port fm) (out_group fm)
        (wrap 16 fl) (oxm_fields fm) (instructions fm)).

Definition processInfoDelete (fm : flow_mod) (req : object) : res flow_mod :=
  let chVal (field : str) (alternative : N) := chooseValue (junk (InInfo field)) 64 req field alternative in
  ck ← chVal (lit "cookie") 0%N;
  mask ← chVal (lit "cookie_mask") 0%N;
  table ← chVal (lit "table_id") 0%N;
  idle ← chVal (lit "idle_timeout") 0%N;
  hard ← chVal (lit "hard_timeout") 0%N;
  prio ← chVal (lit "priority") 0%N;
  buffer ← chVal (lit "buffer_id") OFP_NO_BUFFER;
  port ← chVal (lit "out_port") OFPP_ANY;
  group ← chVal (lit "out_group") OFPG_ANY;
  fl ← chVal (lit "flags") 0%N;
  Ok (FlowMod (command fm) (wrap 8 table) ck mask (wrap 16 idle) (wrap 16 hard) (wrap 16 prio) (wrap 32 buffer) (wrap 32 port)
        (wrap 32 group) (wrap 16 fl) (oxm_fields fm) (instructions fm)).

(** ** Matches *)

(** The fields added so far, whether one was since the last prerequisites, and
    [ether_type] where it is filled. *)
Record match_state : Type := MatchState { fields : list (oxm eth ip); added : bool; ether_type : option N }.

Definition add_field (f : match_field) (v : field_value eth ip) (s : match_state) : match_state :=
  MatchState (fields s ++ [Oxm f v]) true (ether_type s).

Definition HANDLE_UINT (ms : object) (f : match_field) (w : N) (s : match_state) : res match_state :=
  match at_key ms (field_name f) ≫= json_cast (junk (InMatch f)) w with
  | Ok v => Ok (add_field f (VNum v) s)
  | Throw OverflowError => Throw OverflowError
  | Throw _ => Ok s
  end.

(** The field of an address, from text. *)
Definition address (f : match_field) (t : str) : res (field_value eth ip) :=
  match f with
  | eth_dst | eth_src | arp_sha | arp_tha => Ok (VEth (eth_of_string t))
  | _ => match ip_of_string t with Some a => Ok (VIp a) | None => Throw RuntimeError end
  end.

Definition HANDLE_STRING (ms : object) (f : match_field) (s : match_state) : match_state :=
  match j ← at_key ms (field_name f); address f (string_value j) with
  | Ok v => add_field f v s
  | Throw _ => s
  end.

Definition num (f : match_field) (v : N) : oxm eth ip := Oxm f (VNum v).

(** [if (added) { ... }]: the prerequisites follow the fields. *)
Definition prerequisites (l : list (oxm eth ip)) (type : N) (s : match_state) : match_state :=
  if added s then MatchState (fields s ++ l) false (Some type) else s.

Definition process_L4 (ms : object) (src dst : match_field) (proto : N) (s : match_state) : res match_state :=
  s ← HANDLE_UINT ms src 16 s;
  s ← HANDLE_UINT ms dst 16 s;
  Ok (prerequisites [num eth_type ipv4; num ip_proto proto] ipv4 s).

(** The handlings of addresses do not change [ether_type]. *)
Definition process_ip (ms : object) (s : match_state) : match_state :=
  if bool_decide (ether_type s = None ∨ ether_type s = Some ipv4) then
    prerequisites [num eth_type ipv4] ipv4 (HANDLE_STRING ms ipv4_dst (HANDLE_STRING ms ipv4_src s))
  else s.

Definition process_arp (ms : object) (s : match_state) : res match_state :=
  if bool_decide (ether_type s = None) then
    s ← HANDLE_UINT ms arp_op 16 s;
    Ok (prerequisites [num eth_type arp] arp
          (HANDLE_STRING ms arp_tha (HANDLE_STRING ms arp_sha (HANDLE_STRING ms arp_tpa (HANDLE_STRING ms arp_spa s)))))
  else Ok s.

Definition process_L2 (ms : object) (s : match_state) : res match_state :=
  s ← HANDLE_UINT ms vlan_vid 16 s;
  s ← HANDLE_UINT ms vlan_pcp 8 s;
  s ← HANDLE_UINT ms in_port 32 s;
  s ← HANDLE_UINT ms in_phy_port 32 s;
  s ← HANDLE_UINT ms metadata 64 s;
  HANDLE_UINT ms eth_type 16 (HANDLE_STRING ms eth_src (HANDLE_STRING ms eth_dst s)).

Definition match_steps (ms : object) : res match_state :=
  s ← process_L4 ms tcp_src tcp_dst tcp (MatchState [] false None);
  s ← process_L4 ms udp_src udp_dst udp s;
  s ← HANDLE_UINT ms ip_proto 8 s;
  s ← process_arp ms (process_ip ms s);
  process_L2 ms s.

Definition processMatches (fm : flow_mod) (ms : object) : res flow_mod :=
  s ← match_steps ms;
  Ok (FlowMod (command fm) (table_id fm) (cookie fm) (cookie_mask fm) (idle_timeout fm) (hard_timeout fm) (priority fm) (buffer_id fm)
        (out_port fm) (out_group fm) (flags fm) (oxm_fields fm ++ fields s) (instructions fm)).

(** ** Actions *)

Context (fresh : str → str → N).

(** Of the action at [i]. *)
Definition doSwitch (i : nat) (f : str) (value : str) : res (oxm eth ip) :=
  let named (g : match_field) := bool_decide (f = field_name g) in
  let number (g : match_field) (w : N) := (λ v, Oxm g (VNum v)) <$> string_cast (junk (InAction i (lit "value"))) w value in
  let addr (g : match_field) := (λ v, Oxm g v) <$> address g value in
  if named metadata then number metadata 64%N
  else if named eth_src then addr eth_src
  else if named eth_dst then addr eth_dst
  else if named eth_type then number eth_type 16%N
  else if named vlan_vid then number vlan_vid 16%N
  else if named ip_dscp then number ip_dscp 8%N
  else if named ip_ecn then number ip_ecn 8%N
  else if named ip_proto then number ip_proto 8%N
  else if named ipv4_src then addr ipv4_src
  else if named ipv4_dst then addr ipv4_dst
  else if named tcp_src then number tcp_src 16%N
  else if named tcp_dst then number tcp_dst 16%N
  else if named udp_src then number udp_src 16%N
  else if named udp_dst then number udp_dst 16%N
  else if named arp_spa then addr arp_spa
  else if named arp_tpa then addr arp_tpa
  else if named arp_sha then addr arp_sha
  else if named arp_tha then addr arp_tha
  else if named arp_op then number arp_op 16%N
  else Throw (CharsThrown (lit "unsupported field name")).

Definition SET_ACT (i : nat) (type field : str) (w : N) (a : object) : N :=
  match at_key a field ≫= json_cast (junk (InAction i field)) w with Ok v => v | Throw _ => fresh type field end.

(** The try block of [processAction]; an unknown type adds nothing. *)
Definition make_action (i : nat) (a : object) : res (option (action eth ip)) :=
  j ← at_key a (lit "type");
  let type := string_value j in
  let named (t : str) := bool_decide (type = t) in
  let act (field : str) (w : N) := SET_ACT i type field w a in
  if named (lit "SET_FIELD") then
    f ← at_key a (lit "field");
    v ← at_key a (lit "value");
    x ← doSwitch i (string_value f) (string_value v);
    Ok (Some (SET_FIELD x))
  else Ok (
    if named (lit "OUTPUT") then Some (OUTPUT (act (lit "port") 32%N) (act (lit "max_len") 16%N))
    else if named (lit "COPY_TTL_OUT") then Some COPY_TTL_OUT
    else if named (lit "COPY_TTL_IN") then Some COPY_TTL_IN
    else if named (lit "SET_MPLS_TTL") then Some (SET_MPLS_TTL (act (lit "mpls_ttl") 8%N))
    else if named (lit "DEC_MPLS_TTL") then Some DEC_MPLS_TTL
    else if named (lit "PUSH_VLAN") then Some (PUSH_VLAN (act (lit "ethertype") 16%N))
    else if named (lit "POP_VLAN") then Some POP_VLAN
    else if named (lit "PUSH_MPLS") then Some (PUSH_MPLS (act (lit "ethertype") 16%N))
    else if named (lit "POP_MPLS") then Some (POP_MPLS (act (lit "ethertype") 16%N))
    else if named (lit "SET_QUEUE") then Some (SET_QUEUE (act (lit "queue_id") 32%N))
    else if named (lit "GROUP") then Some (GROUP (act (lit "group_id") 32%N))
    else if named (lit "SET_NW_TTL") then Some (SET_NW_TTL (act (lit "nw_ttl") 8%N))
    else if named (lit "DEC_NW_TTL") then Some DEC_NW_TTL
    else if named (lit "PUSH_PBB") then Some (PUSH_PBB (act (lit "ethertype") 16%N))
    else if named (lit "POP_PBB") then Some POP_PBB
    else if named (lit "EXPERIMENTER") then Some (EXPERIMENTER (act (lit "experimenter") 32%N))
    else None).

(** With [response_]; what is written to it is evaluated before. *)
Definition processAction (i : nat) (a : object) (response : str) : res (list (action eth ip)) * str :=
  match make_action i a with
  | Ok x => (Ok (option_list x), response)
  | Throw _ =>
      match at_key a (lit "type") with
      | Ok j => (Ok [], response ++ lit " Incorrect input in an action " ++ string_value j ++ lit ". This action is ignored.")
      | Throw e => (Throw e, response)
      end
  end.

(** From the action at [i] on. *)
Fixpoint processActions (i : nat) (l : list json) (response : str) : res (list (action eth ip)) * str :=
  match l with
  | [] => (Ok [], response)
  | j :: l =>
      match processAction i (object_items j) response with
      | (Throw e, response) => (Throw e, response)
      | (Ok acts, response) => let '(r, response) := processActions (S i) l response in (app acts <$> r, response)
      end
  end.

Definition with_actions (fm : flow_mod) (acts : list (action eth ip)) : flow_mod :=
  FlowMod (command fm) (table_id fm) (cookie fm) (cookie_mask fm) (idle_timeout fm) (hard_timeout fm) (priority fm) (buffer_id fm)
    (out_port fm) (out_group fm) (flags fm) (oxm_fields fm) (instructions fm ++ [APPLY_ACTIONS acts]).

Definition with_command (fm : flow_mod) (c : flow_command) : flow_mod :=
  FlowMod c (table_id fm) (cookie fm) (cookie_mask fm) (idle_timeout fm) (hard_timeout fm) (priority fm) (buffer_id fm)
    (out_port fm) (out_group fm) (flags fm) (oxm_fields fm) (instructions fm).

(** ** Requests *)

Context (max_table : N) (known : N → bool) (new_flow_mod : flow_mod).

(** [j] are the actions of the request, if there are any. *)
Definition with_json_actions (fm : flow_mod) (j : option json) (response : str) : res flow_mod * str :=
  match j with
  | None => (Ok fm, response)
  | Some j => let '(r, response) := processActions 0 (array_items j) response in (with_actions fm <$> r, response)
  end.

Definition addressed (req : object) (fm : flow_mod) : res (N * flow_mod) :=
  dpid ← at_key req (lit "dpid") ≫= json_cast (junk OfSwitch) 64;
  _ ← require (known dpid) (CharsThrown (lit "switch not found"));
  Ok (dpid, fm).

(** A new flow: the switch and the message, or what is thrown. *)
Definition post_add (req : object) (response : str) : res (N * flow_mod) * str :=
  match (_ ← validateRequest (junk ∘ InValidation) req true max_table known;
         matches ← at_key req (lit "match");
         actions ← at_key req (lit "actions");
         fm ← processInfoAdd (with_command new_flow_mod OFPFC_ADD) req;
         fm ← processMatches fm (object_items matches);
         Ok (fm, actions)) with
  | Throw e => (Throw e, response)
  | Ok (fm, actions) => let '(r, response) := with_json_actions fm (Some actions) response in (r ≫= addressed req, response)
  end.

Definition post_delete (strict : bool) (req : object) (response : str) : res (N * flow_mod) * str :=
  match (_ ← validateRequest (junk ∘ InValidation) req false max_table known;
         fm ← processInfoDelete (with_command new_flow_mod (if strict then OFPFC_DELETE_STRICT else OFPFC_DELETE)) req;
         match find_key req (lit "match") with Some m => processMatches fm (object_items m) | None => Ok fm end) with
  | Throw e => (Throw e, response)
  | Ok fm => let '(r, response) := with_json_actions fm (find_key req (lit "actions")) response in (r ≫= addressed req, response)
  end.

Definition answer (t : str) : json := JObject [(lit "RestFlowMod", JString t)].

(** The catch clauses of both handlers. *)
Definition caught (e : exn) : json :=
  match e with StringThrown t => answer (c_str t) | _ => answer (lit "Some error on request handling") end.

(** What a handler leaves: the answer, the messages, and [response_]. *)
Record handled : Type := Handled { answered : json; sent : list (N * flow_mod); response_ : str }.

Definition finish (done_text : str) (r : res (N * flow_mod) * str) : handled :=
  match r with
  | (Ok m, response) => Handled (answer (c_str (done_text ++ response))) [m] []
  | (Throw e, response) => Handled (caught e) [] response
  end.

(** [parsed] is json11's result for the body. *)
Definition handlePOST (params : list str) (parsed : json * str) (response : str) : handled :=
  match params with
  | p :: more =>
      if negb (bool_decide (p = lit "flowentry")) then Handled (answer (lit "Unsupported parameter")) [] response
      else
        match parse parsed, more with
        | Throw e, _ => Handled (caught e) [] response
        | Ok req, [] => finish (lit "new flow added") (post_add req response)
        | Ok req, q :: _ =>
            if bool_decide (q = lit "delete_strict") || bool_decide (q = lit "delete") then
              finish (lit "have sent flow_mod with DELETE command") (post_delete (bool_decide (q = lit "delete_strict")) req response)
            else Handled (JObject []) [] response
        end
  | [] => Handled (JObject []) [] response
  end.

(** [installTableMissRule], [installGoto], [clearTables]: there is no barrier. *)
Definition installTableMissRule (table : N) : setup_msg :=
  AddMiss table 0 (N.lor OFPFF_CHECK_OVERLAP OFPFF_SEND_FLOW_REM) (ToController OFPP_CONTROLLER 0).

Definition install_goto (table : N) : setup_msg :=
  AddMiss table 0 (N.lor OFPFF_CHECK_OVERLAP OFPFF_SEND_FLOW_REM) (GoToTable (wrap 8 (table + 1))).

Definition clear_messages : list setup_msg :=
  DeleteAll :: map install_goto (map N.of_nat (seq 0 (N.to_nat max_table))) ++ [installTableMissRule max_table].

(** The answer with what the switch gets; [at] is outside of the try block. *)
Definition handleDELETE (params : list str) (response : str) : res (json * list (N * setup_msg) * str) :=
  match params with
  | a :: b :: rest =>
      if negb (bool_decide (a = lit "flowentry")) || negb (bool_decide (b = lit "clear")) then
        Ok (answer (lit "Unsupported parameter"), [], response)
      else
        Ok (match (dpid ← match rest with c :: _ => string_cast (junk OfSwitch) 64 c | [] => Throw StdOutOfRange end;
                   _ ← require (known dpid) (CharsThrown (lit "switch not found"));
                   Ok dpid) with
            | Ok dpid => (answer (c_str (lit "all tables have been initialized" ++ response)), map (pair dpid) clear_messages, [])
            | Throw e => (caught e, [], response)
            end)
  | [a] => if bool_decide (a = lit "flowentry") then Throw StdOutOfRange else Ok (answer (lit "Unsupported parameter"), [], response)
  | [] => Throw StdOutOfRange
  end.

(** ** What is read of a match, and what is made of it *)

Definition width_of (f : match_field) : option N :=
  match f with
  | in_port | in_phy_port => Some 32%N
  | metadata => Some 64%N
  | eth_type | vlan_vid | tcp_src | tcp_dst | udp_src | udp_dst | arp_op => Some 16%N
  | vlan_pcp | ip_dscp | ip_ecn | ip_proto => Some 8%N
  | _ => None
  end.

Definition read_field (ms : object) (f : match_field) : res (field_value eth ip) :=
  j ← at_key ms (field_name f);
  match width_of f with Some w => VNum <$> json_cast (junk (InMatch f)) w j | None => address f (string_value j) end.

(** The values that are there and can be read. *)
Definition read_match (ms : object) : of13_match eth ip :=
  Of13Match (λ f, match read_field ms f with Ok v => Some v | Throw _ => None end) (λ _, None).

Definition take_field (m : of13_match eth ip) (f : match_field) (s : match_state) : match_state :=
  match m f with Some v => add_field f v s | None => s end.

Definition take_fields (m : of13_match eth ip) (fs : list match_field) (s : match_state) : match_state :=
  fold_left (λ s f, take_field m f s) fs s.

Definition ip_fields : list match_field := [ip_proto; ipv4_src; ipv4_dst].
Definition arp_fields : list match_field := [arp_op; arp_spa; arp_tpa; arp_sha; arp_tha].
Definition l2_fields : list match_field := [vlan_vid; vlan_pcp; in_port; in_phy_port; metadata; eth_dst; eth_src; eth_type].

(** [match_steps] on the values. *)
Definition steps (m : of13_match eth ip) : match_state :=
  let s := take_fields m [tcp_src; tcp_dst] (MatchState [] false None) in
  let s := prerequisites [num eth_type ipv4; num ip_proto tcp] ipv4 s in
  let s := prerequisites [num eth_type ipv4; num ip_proto udp] ipv4 (take_fields m [udp_src; udp_dst] s) in
  let s := prerequisites [num eth_type ipv4] ipv4 (take_fields m ip_fields s) in
  let s := if bool_decide (ether_type s = None) then prerequisites [num eth_type arp] arp (take_fields m arp_fields s) else s in
  take_fields m l2_fields s.

Lemma handle_uint_take ms f w s s' : width_of f = Some w → HANDLE_UINT ms f w s = Ok s' → s' = take_field (read_match ms) f s.
Proof.
  intros Hw. unfold HANDLE_UINT, take_field, read_match, read_field. cbn [value_at]. destruct (at_key ms (field_name f)) as [j | e]; cbn.
  - rewrite Hw. destruct (json_cast _ w j) as [v | []]; cbn; congruence.
  - destruct e; congruence.
Qed.

Lemma handle_string_take ms f s : width_of f = None → HANDLE_STRING ms f s = take_field (read_match ms) f s.
Proof.
  intros Hw. unfold HANDLE_STRING, take_field, read_match, read_field. cbn [value_at]. destruct (at_key ms (field_name f)) as [j | e]; cbn; [| done].
  rewrite Hw. by destruct (address f (string_value j)).
Qed.

(** No number of the request is too large for its field. *)
Definition in_range (ms : object) : Prop := ∀ f w, width_of f = Some w → read_field ms f ≠ Throw OverflowError.

Lemma handle_uint_in_range ms f w s : in_range ms → width_of f = Some w → HANDLE_UINT ms f w s = Ok (take_field (read_match ms) f s).
Proof.
  intros Hr Hw. specialize (Hr f w Hw). unfold HANDLE_UINT, take_field, read_match, read_field in *. cbn [value_at].
  destruct (at_key ms (field_name f)) as [j | e]; cbn in *.
  - rewrite Hw in *. destruct (json_cast _ w j) as [v | []]; cbn in *; congruence.
  - destruct e; congruence.
Qed.

Lemma ether_take m fs s : ether_type (take_fields m fs s) = ether_type s.
Proof.
  revert s. induction fs as [|f fs IH]; intros s; [done |]. cbn [take_fields fold_left]. unfold take_fields in IH. rewrite IH.
  unfold take_field. by destruct (m f).
Qed.

(** The type that is filled in before the addresses of ARP. *)
Definition maybe_ipv4 (s : match_state) : Prop := ether_type s = None ∨ ether_type s = Some ipv4.

Lemma maybe_ipv4_take m fs s : maybe_ipv4 s → maybe_ipv4 (take_fields m fs s).
Proof. unfold maybe_ipv4. by rewrite ether_take. Qed.

Lemma maybe_ipv4_prerequisites l s : maybe_ipv4 s → maybe_ipv4 (prerequisites l ipv4 s).
Proof. unfold maybe_ipv4, prerequisites. destruct (added s); [by right | done]. Qed.

(** [reads H] replaces a handling of a number that succeeded by what it took. *)
Ltac reads :=
  repeat match goal with
  | H : HANDLE_UINT _ _ _ _ = Ok ?s |- _ => apply handle_uint_take in H; [subst s | reflexivity]
  | |- context [HANDLE_STRING ?ms ?f ?s] => rewrite (handle_string_take ms f s eq_refl)
  end.

Lemma L4_take ms src dst proto s s' : width_of src = Some 16%N → width_of dst = Some 16%N → process_L4 ms src dst proto s = Ok s' →
  s' = prerequisites [num eth_type ipv4; num ip_proto proto] ipv4 (take_fields (read_match ms) [src; dst] s).
Proof.
  intros H1 H2 H. unfold process_L4 in H. inv_res.
  repeat match goal with Hu : HANDLE_UINT _ _ _ _ = Ok _ |- _ => apply handle_uint_take in Hu; [subst | done] end. done.
Qed.

Lemma ip_take ms s : maybe_ipv4 s →
  process_ip ms s = prerequisites [num eth_type ipv4] ipv4 (take_fields (read_match ms) [ipv4_src; ipv4_dst] s).
Proof. intros H. unfold process_ip. rewrite bool_decide_eq_true_2 by done. by reads. Qed.

Lemma arp_take ms s s' : process_arp ms s = Ok s' →
  s' = if bool_decide (ether_type s = None) then prerequisites [num eth_type arp] arp (take_fields (read_match ms) arp_fields s) else s.
Proof. unfold process_arp. case_bool_decide; intros Ha; inv_res; [by reads | done]. Qed.

Lemma L2_take ms s s' : process_L2 ms s = Ok s' → s' = take_fields (read_match ms) l2_fields s.
Proof. unfold process_L2. intros H. inv_res. by reads. Qed.

Lemma match_steps_take ms s : match_steps ms = Ok s → s = steps (read_match ms).
Proof.
  unfold match_steps. intros H. inv_res.
  repeat match goal with Hl : process_L4 _ _ _ _ _ = Ok _ |- _ => apply L4_take in Hl; [subst | done..] end. reads.
  rewrite ip_take in * by (apply (maybe_ipv4_take _ [ip_proto]), maybe_ipv4_prerequisites, maybe_ipv4_take, maybe_ipv4_prerequisites, maybe_ipv4_take; by left).
  repeat match goal with Ha : process_arp _ _ = Ok _ |- _ => apply arp_take in Ha; subst end.
  match goal with Hl : process_L2 _ _ = Ok _ |- _ => apply L2_take in Hl; exact Hl end.
Qed.

Lemma match_steps_in_range ms : in_range ms → match_steps ms = Ok (steps (read_match ms)).
Proof.
  intros Hr. assert (Hex : ∃ s, match_steps ms = Ok s).
  { unfold match_steps, process_L4, process_L2, process_arp. repeat (rewrite handle_uint_in_range by done; cbn [mbind res_bind]).
    case_bool_decide; repeat (cbn [mbind res_bind]; rewrite handle_uint_in_range by done); by eexists. }
  destruct Hex as [s Hs]. rewrite Hs. f_equal. by apply match_steps_take.
Qed.

(** ** Stages *)

(** From [s] to [s'] some fields of [m] were taken, all of [fs] that there are. *)
Record takes (m : of13_match eth ip) (fs : list match_field) (s s' : match_state) : Prop := {
  tk_new : ∃ l, fields s' = fields s ++ l ∧ (∀ x, x ∈ l ↔ field x ∈ fs ∧ m (field x) = Some (value x)) ∧
             added s' = added s || negb (bool_decide (l = []));
  tk_type : ether_type s' = ether_type s
}.

Lemma take_takes m fs : ∀ s, takes m fs s (take_fields m fs s).
Proof.
  induction fs as [|f fs IH]; intros s.
  - split; [| done]. exists []. cbn. rewrite app_nil_r, orb_false_r. split_and!; [done | | done].
    intros x. split; [by intros ?%not_elem_of_nil | by intros [?%not_elem_of_nil _]].
  - destruct (IH (take_field m f s)) as [(l & E1 & E2 & E3) E4]. unfold take_field in *. change (take_fields m (f :: fs) s) with (take_fields m fs (take_field m f s)).
    unfold take_field. destruct (m f) as [v|] eqn:Ef.
    + split; [| by rewrite E4]. exists (Oxm f v :: l). cbn [add_field fields added] in E1, E3. rewrite E1, E3, <- app_assoc. split_and!; [done | | by rewrite orb_true_r].
      intros x. rewrite elem_of_cons, E2, elem_of_cons. split.
      * intros [-> | [? ?]]; [split; [by left | done] | split; [by right | done]].
      * intros [[Ex | ?] Hm]; [left | by right]. destruct x as [g u]. cbn in *. congruence.
    + split; [| done]. exists l. split_and!; [done | | done]. intros x. rewrite E2, elem_of_cons. split.
      * intros [? ?]; split; [by right | done].
      * intros [[Ex | ?] Hm]; [| done]. cbn in *. congruence.
Qed.

(** The fields a field needs, with their values. *)
Definition needs (f : match_field) : list (match_field * N) :=
  match f with
  | tcp_src | tcp_dst => [(eth_type, ipv4); (ip_proto, tcp)]
  | udp_src | udp_dst => [(eth_type, ipv4); (ip_proto, udp)]
  | ip_proto | ipv4_src | ipv4_dst => [(eth_type, ipv4)]
  | arp_op | arp_spa | arp_tpa | arp_sha | arp_tha => [(eth_type, arp)]
  | _ => []
  end.

Definition has_needs (l : list (oxm eth ip)) : Prop := ∀ x g n, x ∈ l → (g, n) ∈ needs (field x) → num g n ∈ l.

Lemma has_needs_app l l' : has_needs l → has_needs l' → has_needs (l ++ l').
Proof. intros H H' x g n [Hx | Hx]%elem_of_app Hg; apply elem_of_app; [left | right]; eauto. Qed.

(** A stage that takes fields and then adds their prerequisites. *)
Lemma stage_needs m fs pre t s : has_needs (fields s) → added s = false → has_needs pre →
  (∀ f g n, f ∈ fs → (g, n) ∈ needs f → num g n ∈ pre) →
  let s' := prerequisites pre t (take_fields m fs s) in has_needs (fields s') ∧ added s' = false.
Proof.
  intros Hs Ha Hp Hfs. destruct (take_takes m fs s) as [(l & E1 & E2 & E3) _]. unfold prerequisites.
  rewrite Ha in E3. cbn [orb] in E3. destruct (added (take_fields m fs s)) eqn:E.
  - cbn [fields added]. split; [| done]. rewrite E1, <- app_assoc. apply has_needs_app; [done |].
    intros x g n [Hx | Hx]%elem_of_app Hg; apply elem_of_app; right; [| by eapply Hp].
    apply E2 in Hx as [Hx _]. by eapply Hfs.
  - case_bool_decide; [subst l | done]. cbn zeta. by rewrite E1, app_nil_r.
Qed.

(** By cases on an explicit list of fields, or of what one needs. *)
Ltac each_field :=
  repeat match goal with
  | H : _ ∈ _ :: _ |- _ => apply elem_of_cons in H as [H | H]
  | H : _ ∈ [] |- _ => by apply not_elem_of_nil in H
  end; subst.

Ltac closed_stage := unfold has_needs, ip_fields, arp_fields; intros; repeat (progress (each_field; unfold num in *; cbn [needs field] in *; simplify_eq)); rewrite ?elem_of_cons; auto.

Lemma steps_needs m : has_needs (fields (steps m)).
Proof.
  unfold steps. cbn zeta.
  destruct (stage_needs m [tcp_src; tcp_dst] [num eth_type ipv4; num ip_proto tcp] ipv4 (MatchState [] false None)) as [H1 A1];
    [by intros ? ? ? ?%not_elem_of_nil | done | closed_stage.. |].
  match type of A1 with added ?s = _ => set (s1 := s) in *; clearbody s1 end.
  destruct (stage_needs m [udp_src; udp_dst] [num eth_type ipv4; num ip_proto udp] ipv4 s1) as [H2 A2]; [done | done | closed_stage.. |].
  match type of A2 with added ?s = _ => set (s2 := s) in *; clearbody s2 end.
  destruct (stage_needs m ip_fields [num eth_type ipv4] ipv4 s2) as [H3 A3]; [done | done | closed_stage.. |].
  match type of A3 with added ?s = _ => set (s3 := s) in *; clearbody s3 end.
  assert (H4 : has_needs (fields (if bool_decide (ether_type s3 = None) then prerequisites [num eth_type arp] arp (take_fields m arp_fields s3) else s3))).
  { case_bool_decide; [| done]. apply stage_needs; [done | done | closed_stage..]. }
  match type of H4 with has_needs (fields ?s) => set (s4 := s) in *; clearbody s4 end.
  destruct (take_takes m l2_fields s4) as [(l & E1 & E2 & _) _]. rewrite E1. apply has_needs_app; [done |].
  intros [f v] g n [Hx _]%E2 Hg. unfold l2_fields in Hx. cbn [field] in *. closed_stage.
Qed.

(** ** A match of IPv4, ARP or layer 2, without masks *)

Definition typed (f : match_field) (v : field_value eth ip) : Prop :=
  match width_of f, v with
  | Some w, VNum n => (n < 2 ^ w)%N
  | None, VEth _ => f ∈ [eth_dst; eth_src; arp_sha; arp_tha]
  | None, VIp _ => f ∈ [ipv4_src; ipv4_dst; arp_spa; arp_tpa]
  | _, _ => False
  end.

Record match_ok (m : of13_match eth ip) : Prop := {
  mo_typed f v : m f = Some v → typed f v;
  mo_needs f g n : is_Some (m f) → (g, n) ∈ needs f → m g = Some (VNum n);
  mo_exact f : mask_at m f = None
}.

(** Of the fields [F], exactly those of the match are there. *)
Record exact (m : of13_match eth ip) (F : list match_field) (s : match_state) : Prop := {
  ex_in x : x ∈ fields s → m (field x) = Some (value x);
  ex_all f v : f ∈ F → m f = Some v → Oxm f v ∈ fields s;
  ex_added : added s = false
}.

Definition needs_only (m : of13_match eth ip) (fs : list match_field) (pre : list (oxm eth ip)) : Prop :=
  ∀ f x, f ∈ fs → is_Some (m f) → x ∈ pre → m (field x) = Some (value x).

Lemma taken_some m (fs : list match_field) (l : list (oxm eth ip)) : (∀ x, x ∈ l ↔ field x ∈ fs ∧ m (field x) = Some (value x)) →
  l ≠ [] → ∃ f, f ∈ fs ∧ is_Some (m f).
Proof.
  intros H. destruct l as [|x l]; [done |]. intros _. destruct (proj1 (H x)) as [Hf Hm]; [by left |]. by exists (field x).
Qed.

Lemma stage_exact m F fs pre t s : exact m F s → needs_only m fs pre → exact m (F ++ fs) (prerequisites pre t (take_fields m fs s)).
Proof.
  intros [H1 H2 H3] Hp. destruct (take_takes m fs s) as [(l & E1 & E2 & E3) _]. rewrite H3 in E3. cbn [orb] in E3.
  assert (Hin : ∀ x, x ∈ fields s ++ l → m (field x) = Some (value x)) by (intros x [Hx | Hx]%elem_of_app; [by apply H1 | by apply E2]).
  assert (Hall : ∀ f v, f ∈ F ++ fs → m f = Some v → Oxm f v ∈ fields s ++ l).
  { intros f v [Hf | Hf]%elem_of_app Hv; apply elem_of_app; [left; by apply H2 | right; by apply E2]. }
  unfold prerequisites. destruct (added (take_fields m fs s)) eqn:E.
  - case_bool_decide as Hl; [done |]. destruct (taken_some m fs l E2 Hl) as (f & Hf & Hs). split; cbn [fields added]; [| | done].
    + rewrite E1. intros x [Hx | Hx]%elem_of_app; [by apply Hin | by eapply Hp].
    + intros g v Hg Hv. rewrite E1. apply elem_of_app. left. by apply Hall.
  - split; [by rewrite E1 | by rewrite E1 | done].
Qed.

Lemma needed m fs pre : match_ok m → (∀ f x, f ∈ fs → x ∈ pre → ∃ n, value x = VNum n ∧ (field x, n) ∈ needs f) → needs_only m fs pre.
Proof.
  intros [_ Hn _] H f x Hf Hs Hx. destruct (H f x Hf Hx) as (n & -> & Hin). by eapply Hn.
Qed.

Definition ipv4_typed (m : of13_match eth ip) (s : match_state) : Prop := ether_type s = None ∨ m eth_type = Some (VNum ipv4).

Lemma stage_ipv4 m F fs pre s : match_ok m → exact m F s ∧ ipv4_typed m s → (∀ f, f ∈ fs → (eth_type, ipv4) ∈ needs f) →
  needs_only m fs pre → let s' := prerequisites pre ipv4 (take_fields m fs s) in exact m (F ++ fs) s' ∧ ipv4_typed m s'.
Proof.
  intros Hm [He Ht] Hfs Hp s'. split; [by apply stage_exact |]. unfold s', ipv4_typed in *.
  destruct (take_takes m fs s) as [(l & _ & E2 & E3) E4]. rewrite (ex_added _ _ _ He) in E3. cbn [orb] in E3.
  unfold prerequisites. destruct (added (take_fields m fs s)); [| by rewrite E4].
  case_bool_decide as Hl; [done |]. destruct (taken_some m fs l E2 Hl) as (f & Hf & Hs). right.
  apply (mo_needs m Hm f); [done | by apply Hfs].
Qed.

Definition supported : list match_field := [tcp_src; tcp_dst] ++ [udp_src; udp_dst] ++ ip_fields ++ arp_fields ++ l2_fields.

Ltac type_stage := unfold ip_fields; intros; each_field; cbn; rewrite ?elem_of_cons; auto.

Ltac needs_stage := apply needed; [done |]; unfold ip_fields, arp_fields; intros; each_field; (eexists; split; [reflexivity |]); cbn; rewrite ?elem_of_cons; auto.

(** Where the type is filled in, the match has no field of ARP. *)
Lemma no_arp m f : match_ok m → m eth_type = Some (VNum ipv4) → f ∈ arp_fields → m f = None.
Proof.
  intros [_ Hn _] He Hf. destruct (m f) as [v|] eqn:Ef; [| done].
  assert (Ha : m eth_type = Some (VNum arp)).
  { apply (Hn f); [by eexists |]. unfold arp_fields in Hf. each_field; cbn; by left. }
  rewrite He in Ha. discriminate Ha.
Qed.

Lemma steps_exact m : match_ok m → ∀ x, field x ∈ supported → x ∈ fields (steps m) ↔ m (field x) = Some (value x).
Proof.
  intros Hm. unfold steps. cbn zeta.
  assert (X0 : exact m [] (MatchState [] false None) ∧ ipv4_typed m (MatchState [] false None))
    by (split; [split; [by intros ? ?%not_elem_of_nil | by intros ? ? ?%not_elem_of_nil | done] | by left]).
  apply (stage_ipv4 _ _ [tcp_src; tcp_dst] [num eth_type ipv4; num ip_proto tcp]) in X0; [| done | type_stage | needs_stage].
  match type of X0 with exact _ _ ?s ∧ _ => set (s1 := s) in *; clearbody s1 end.
  apply (stage_ipv4 _ _ [udp_src; udp_dst] [num eth_type ipv4; num ip_proto udp]) in X0; [| done | type_stage | needs_stage].
  match type of X0 with exact _ _ ?s ∧ _ => set (s2 := s) in *; clearbody s2 end.
  apply (stage_ipv4 _ _ ip_fields [num eth_type ipv4]) in X0; [| done | type_stage | needs_stage].
  match type of X0 with exact _ _ ?s ∧ _ => set (s3 := s) in *; clearbody s3 end.
  destruct X0 as [X3 T3].
  assert (X4 : exact m (([] ++ [tcp_src; tcp_dst]) ++ [udp_src; udp_dst] ++ ip_fields ++ arp_fields)
    (if bool_decide (ether_type s3 = None) then prerequisites [num eth_type arp] arp (take_fields m arp_fields s3) else s3)).
  { case_bool_decide as Hn.
    - rewrite <- !app_assoc in X3. rewrite !app_assoc. rewrite !app_assoc in X3. apply stage_exact; [done | needs_stage].
    - destruct T3 as [? | T3]; [done |]. destruct X3 as [H1 H2 H3]. split; [done | | done].
      intros f v Hf Hv. apply H2; [| done]. rewrite !app_assoc in Hf. apply elem_of_app in Hf as [Hf | Hf]; [done |].
      by rewrite (no_arp m f Hm T3 Hf) in Hv. }
  match type of X4 with exact _ _ ?s => set (s4 := s) in *; clearbody s4 end. destruct X4 as [H1 H2 H3].
  destruct (take_takes m l2_fields s4) as [(l & E1 & E2 & _) _]. intros x Hx. rewrite E1. split.
  - intros [Hin | Hin]%elem_of_app; [by apply H1 | by apply E2].
  - intros Hv. apply elem_of_app. unfold supported in Hx. rewrite !app_assoc in Hx. apply elem_of_app in Hx as [Hx | Hx]; [left | right; by apply E2].
    destruct x as [f v]. apply H2; [by rewrite !app_assoc | done].
Qed.

(** ** Matches that were reported *)

(** The fields that are reported, as they are printed. *)
Definition reported : list (match_field * N * bool) :=
  [(in_port, 32, false); (in_phy_port, 32, false); (eth_type, 16, true); (ip_proto, 8, true); (tcp_dst, 16, false);
   (tcp_src, 16, false); (udp_dst, 16, false); (udp_src, 16, false); (metadata, 64, false); (ipv4_src, 0, false); (ipv4_dst, 0, false);
   (eth_src, 0, false); (eth_dst, 0, false); (arp_op, 16, true); (arp_spa, 0, false); (arp_tpa, 0, false); (arp_sha, 0, false);
   (arp_tha, 0, false); (vlan_vid, 16, false); (vlan_pcp, 8, false)]%N.

Lemma field_name_inj f g : field_name f = field_name g → f = g.
Proof. destruct f, g; done || discriminate. Qed.

Lemma find_emplaced m l f : NoDup (map (λ x, fst (fst x)) l) →
  find_key (concat (map (λ '(g, w, h), EMPLACE_IF_EXIST g w h m) l)) (field_name f) =
    match List.find (λ x, bool_decide (fst (fst x) = f)) l with
    | Some (_, w, h) => (λ v, JString (value_text w h v)) <$> m f
    | None => None
    end.
Proof.
  induction l as [|[[g w] h] l IH]; [done |]. cbn [map fst concat List.find]. intros [Hg Hnd]%NoDup_cons. rewrite find_key_app, IH by done.
  unfold EMPLACE_IF_EXIST. case_bool_decide as Hgf.
  - subst g. destruct (m f) as [v|]; cbn; [by rewrite decide_True |].
    destruct (List.find _ l) as [[[g' w'] h']|]; done.
  - destruct (m g) as [v|]; cbn; [| done]. rewrite decide_False; [done |]. intros E. by apply Hgf, field_name_inj.
Qed.

(** What is printed of an address is read as the address. *)
Class AddressLaws : Prop := {
  eth_read a : eth_of_string (eth_to_string a) = a;
  ip_read a : ip_of_string (uint32_t_ip_to_string (getIPv4 a)) = Some a
}.
Context `{AL : !AddressLaws}.

Lemma process_match_concat m : processMatch m = concat (map (λ '(g, w, h), EMPLACE_IF_EXIST g w h m) reported).
Proof. unfold processMatch. cbn [map concat reported]. by rewrite app_nil_r. Qed.

Lemma reported_as f : f ∈ supported → ∃ w h,
  List.find (λ x, bool_decide (fst (fst x) = f)) reported = Some (f, w, h) ∧ ∀ w', width_of f = Some w' → w' = w ∧ (w ≤ 64)%N.
Proof.
  intros Hf. assert (Hd : f ≠ ip_dscp ∧ f ≠ ip_ecn) by (split; intros ->; revert Hf; apply (bool_decide_unpack _); vm_compute; exact I).
  destruct f; try (by destruct Hd); (do 2 eexists; split; [reflexivity |]); intros w' [= <-]; by split.
Qed.

Lemma read_reported m f : match_ok m → f ∈ supported →
  read_field (processMatch m) f = match m f with Some v => Ok v | None => Throw StdOutOfRange end.
Proof.
  intros [Ht _ _] Hf. destruct (reported_as f Hf) as (w & h & Ef & Hw). unfold read_field, at_key.
  rewrite process_match_concat, find_emplaced, Ef by (apply (bool_decide_unpack _); vm_compute; exact I).
  destruct (m f) as [v|] eqn:Em; cbn -[uint32_t_ip_to_string]; [| done]. specialize (Ht f v Em). unfold typed in Ht.
  destruct (width_of f) as [w'|] eqn:Ew; [destruct v as [n | |]; [| done..] | destruct v as [| a | a]; [done | |]].
  - destruct (Hw w' eq_refl) as [-> Hle]. cbn. unfold json_cast. cbn [string_value]. by rewrite cast_printed.
  - each_field; cbn; by rewrite eth_read.
  - each_field; cbn -[uint32_t_ip_to_string]; by rewrite ip_read.
Qed.

Lemma match_ok_reported m : match_ok m → match_ok (read_match (processMatch m)).
Proof.
  intros Hm. assert (R : ∀ f, f ∈ supported → read_match (processMatch m) f = m f).
  { intros f Hf. unfold read_match. cbn [value_at]. rewrite read_reported by done. by destruct (m f). }
  assert (U : ∀ f, f ∉ supported → read_match (processMatch m) f = None).
  { intros f Hf. unfold read_match, read_field, at_key. cbn [value_at]. rewrite process_match_concat, find_emplaced by (apply (bool_decide_unpack _); vm_compute; exact I).
    destruct f; try (destruct Hf; apply (bool_decide_unpack _); vm_compute; exact I); reflexivity. }
  split.
  - intros f v Hv. destruct (decide (f ∈ supported)) as [Hf | Hf]; [rewrite R in Hv by done; by apply Hm | by rewrite U in Hv].
  - intros f g n Hs Hg. destruct (decide (f ∈ supported)) as [Hf | Hf]; [| rewrite U in Hs by done; by destruct Hs].
    rewrite R in Hs by done. rewrite R; [by apply (mo_needs m Hm f) |].
    destruct f; cbn in Hg; each_field; simplify_eq; apply (bool_decide_unpack _); vm_compute; exact I.
  - done.
Qed.

Lemma revalidate_Ok {A} (m : res A) a : revalidate m = Ok a → m = Ok a.
Proof. by destruct m as [|[]]. Qed.

Lemma validate_full req u : validateRequest (junk ∘ InValidation) req true max_table known = Ok u →
  ∃ t, at_key req (lit "table_id") ≫= json_cast (junk (InValidation (lit "table_id"))) 8 = Ok t ∧ (t < max_table)%N.
Proof.
  intros H%revalidate_Ok. inv_res. eexists. split; [cbn; eassumption || (apply res_bind_Ok; eauto) |]. by apply N.ltb_lt.
Qed.

Lemma info_add_kept fm req fm' : processInfoAdd fm req = Ok fm' →
  at_key req (lit "table_id") ≫= json_cast (junk (InInfo (lit "table_id"))) 8 = Ok (table_id fm') ∧ command fm' = command fm.
Proof.
  unfold processInfoAdd. intros H. apply res_bind_Ok in H as (t & Et & H). rewrite Et. by inv_res.
Qed.

Lemma matches_kept fm ms fm' : processMatches fm ms = Ok fm' → table_id fm' = table_id fm ∧ command fm' = command fm.
Proof. unfold processMatches. intros H. by inv_res. Qed.

Lemma addressed_kept req fm d fm' : addressed req fm = Ok (d, fm') → known d = true ∧ fm' = fm.
Proof.
  unfold addressed. intros H. apply res_bind_Ok in H as (d' & _ & H). inv_res. by simplify_eq.
Qed.

Lemma actions_kept fm j response r response' fm' : with_json_actions fm j response = (r, response') → r = Ok fm' →
  table_id fm' = table_id fm ∧ command fm' = command fm.
Proof.
  unfold with_json_actions. destruct j as [j|]; [| by intros [= <- _] [= ->]].
  destruct (processActions _ _) as [l resp]. intros [= <- _] H. apply res_fmap_Ok in H as (acts & _ & ->). done.
Qed.

(** ** Properties *)

(** C29: matches that come back.  A match of IPv4, of ARP or of layer 2
    without masks, whose fields have what they need, is built again by the
    request that contains its report: no exception, and of the supported fields
    exactly those of the match with their values. *)
Theorem reported_match_reinstalls (m : of13_match eth ip) (fm : flow_mod) :
  match_ok m →
  ∃ l, oxm_fields <$> processMatches fm (processMatch m) = Ok (oxm_fields fm ++ l) ∧
    ∀ f v, f ∈ supported → Oxm f v ∈ l ↔ m f = Some v.
Proof.
  intros Hm. exists (fields (steps (read_match (processMatch m)))). split.
  - unfold processMatches. rewrite match_steps_in_range; [done |].
    intros f w Hw. destruct (decide (f ∈ supported)) as [Hf | Hf].
    + rewrite read_reported by done. by destruct (m f).
    + unfold read_field, at_key. rewrite process_match_concat, find_emplaced by (apply (bool_decide_unpack _); vm_compute; exact I).
      destruct f; try (destruct Hf; apply (bool_decide_unpack _); vm_compute; exact I); discriminate.
  - intros f v Hf. rewrite (steps_exact _ (match_ok_reported m Hm) (Oxm f v)) by done. cbn [field value].
    unfold read_match. cbn [value_at]. rewrite read_reported by done. by destruct (m f).
Qed.

(** prerequisites.  Whatever a request asks for, if its match is accepted
    then every field in it has the fields it needs, with the values it needs. *)
Theorem match_prerequisites (ms : object) (s : match_state) : match_steps ms = Ok s → has_needs (fields s).
Proof. intros ->%match_steps_take. apply steps_needs. Qed.

(** The table of a request is text with something to read in it. *)
Definition table_given (req : object) : Prop :=
  ∀ j, at_key req (lit "table_id") = Ok j → skip_space (string_value j) ≠ [].

(** A number that is there does not depend on what the variable held. *)
Lemma cast_given w j old old' : skip_space (string_value j) ≠ [] → json_cast old w j = json_cast old' w j.
Proof. intros H. unfold json_cast, string_cast, read_ull. by destruct (skip_space (string_value j)). Qed.

(** C30: new flows.  A request for a new flow sends at most one message: to a
    switch that is known, to add a flow; and it sends none if it is answered
    with an error.  The flow is in a table below the last one if the request
    gives its table as text with something to read. *)
Theorem adds_below_last_table (parsed : json * str) (response : str) :
  match sent (handlePOST [lit "flowentry"] parsed response) with
  | [] => ∃ e, answered (handlePOST [lit "flowentry"] parsed response) = caught e
  | [(d, fm)] => known d = true ∧ command fm = OFPFC_ADD ∧
      (table_given (object_items (fst parsed)) → (table_id fm < max_table)%N) ∧
      ∃ text, answered (handlePOST [lit "flowentry"] parsed response) = answer (c_str (lit "new flow added" ++ text))
  | _ => False
  end.
Proof.
  cbn [handlePOST]. rewrite bool_decide_eq_true_2 by done. cbn [negb].
  destruct (parse parsed) as [req | e] eqn:Ep; [| by exists e]. unfold post_add.
  assert (object_items (fst parsed) = req) as -> by (unfold parse in Ep; destruct (snd parsed); congruence).
  destruct (_ ≫= _) as [[fm j] | e] eqn:E; [| by exists e].
  destruct (with_json_actions fm (Some j) response) as [r response'] eqn:Ej. cbn [finish].
  destruct (r ≫= addressed req) as [[d fm'] | e] eqn:Er; [| by exists e]. cbn [finish sent answered].
  apply res_bind_Ok in Er as (fm1 & Hr & [Hd ->]%addressed_kept). destruct (actions_kept _ _ _ _ _ _ Ej Hr) as [T1 C1].
  apply res_bind_Ok in E as (u & (t & Ht & Hlt)%validate_full & E).
  apply res_bind_Ok in E as (ms & _ & E). apply res_bind_Ok in E as (acts & _ & E).
  apply res_bind_Ok in E as (fm2 & Hi & E). apply res_bind_Ok in E as (fm3 & Hm & [= -> ->]).
  apply info_add_kept in Hi as [Htab C2]. apply matches_kept in Hm as [T3 C3].
  split_and!; [done | by rewrite C1, C3, C2 | | by eexists]. intros Hg. rewrite T1, T3.
  apply res_bind_Ok in Ht as (jt & Hj & Ht). rewrite Hj in Htab. cbn [mbind res_bind] in Htab.
  rewrite (cast_given _ _ _ (junk (InInfo (lit "table_id"))) (Hg _ Hj)), Htab in Ht. congruence.
Qed.

(** ** Clearing *)

Lemma goto_no_barrier l : ∀ t, fold_left table_step (map install_goto l) t = fold_left table_step (concat (map installGoto l)) t.
Proof.
  induction l as [|i l IH]; intros t; [done |]. cbn [map concat]. rewrite fold_left_app. cbn [fold_left installGoto].
  rewrite IH. done.
Qed.

Lemma cleared_table t : (max_table < 256)%N → fold_left table_step clear_messages t = pipeline 0 (N.to_nat max_table).
Proof.
  intros Hmax. unfold clear_messages. cbn [fold_left table_step]. rewrite fold_left_app, goto_no_barrier.
  assert (E : fold_left table_step (concat (map installGoto (map N.of_nat (seq 0 (N.to_nat max_table))))) [] =
              map goto_entry (seq 0 (N.to_nat max_table))) by (apply (setup_gotos (N.to_nat max_table) 0); lia).
  pose proof (no_entry_yet (N.to_nat max_table) (N.to_nat max_table) (Nat.le_refl _)) as Hn. rewrite N2Nat.id in Hn.
  rewrite E. cbn [fold_left table_step installTableMissRule]. rewrite Hn, andb_false_r. unfold pipeline. by rewrite N2Nat.id.
Qed.

(** C31: clearing a switch.  When the messages are carried out in their order,
    its tables are those that the controller installs on a new switch, and
    packets that nothing else matches go through all of them to the
    controller, but with no byte of the packet. *)
Theorem clear_restores_pipeline (dpid response : str) (d : N) (t : list miss_entry) :
  string_cast (junk OfSwitch) 64 dpid = Ok d → known d = true → (max_table < 256)%N →
  ∃ j ms, handleDELETE [lit "flowentry"; lit "clear"; dpid] response = Ok (j, map (pair d) ms, []) ∧
    fold_left table_step ms t = pipeline 0 (N.to_nat max_table) ∧
    unmatched (S (N.to_nat max_table)) (fold_left table_step ms t) 0 =
      Some (map N.of_nat (seq 0 (S (N.to_nat max_table))), (OFPP_CONTROLLER, 0%N)).
Proof.
  intros Hd Hk Hmax. eexists _, clear_messages. unfold handleDELETE. rewrite !bool_decide_eq_true_2 by done. cbn [negb orb].
  rewrite Hd. cbn [mbind res_bind]. rewrite Hk. cbn [require mbind res_bind]. split; [reflexivity |]. rewrite cleared_table by done. split; [done |].
  by apply (walk_pipeline 0 (N.to_nat max_table) (N.to_nat max_table) 0).
Qed.

(** clearing a switch that changes the order.  There is no barrier between
    the messages: carried out in another order they leave no entry at all, and
    packets are dropped. *)
Theorem clear_without_barriers (t : list miss_entry) :
  ∃ ms, ms ≡ₚ clear_messages ∧ fold_left table_step ms t = [] ∧ unmatched 1 (fold_left table_step ms t) 0 = None.
Proof.
  exists (drop 1 clear_messages ++ [DeleteAll]). rewrite fold_left_app. split; [| done].
  unfold clear_messages. cbn [drop]. rewrite Permutation_app_comm. done.
Qed.

(** [throw "switch not found"] is no std::string: the text is lost. *)
Theorem clear_unknown_switch (dpid response : str) (d : N) :
  string_cast (junk OfSwitch) 64 dpid = Ok d → known d = false →
  handleDELETE [lit "flowentry"; lit "clear"; dpid] response = Ok (answer (lit "Some error on request handling"), [], response).
Proof.
  intros Hd Hk. unfold handleDELETE. rewrite !bool_decide_eq_true_2 by done. cbn [negb orb]. rewrite Hd. cbn. by rewrite Hk.
Qed.
End FlowMod.

(** ** Two addresses, two tables and a switch *)

Definition sample_ip (b : bool) : N := if b then 0x0100000a%N else 0x0200000a%N.

#[export] Instance sample_addresses : Addresses str bool := {|
  eth_of_string := id;
  eth_to_string := id;
  ip_of_string s := if decide (s = lit "10.0.0.1") then Some true else if decide (s = lit "10.0.0.2") then Some false else None;
  getIPv4 := sample_ip
|}.

#[export] Instance sample_laws : AddressLaws.
Proof. split; [done | by intros []]. Qed.

Definition sample_flow_mod : flow_mod (eth := str) (ip := bool) := FlowMod OFPFC_ADD 0 0 0 0 0 0 0 0 0 0 [] [].

Definition post (params : list str) (req : object) (response : str) : handled (eth := str) (ip := bool) :=
  handlePOST (λ _, 7%N) (λ _ _, 0%N) 2 (N.eqb 1) sample_flow_mod params (JObject req, []) response.

Definition set_field_action (f v : String.string) : json :=
  JObject [(lit "type", JString (lit "SET_FIELD")); (lit "field", JString (lit f)); (lit "value", JString (lit v))].
Arguments set_field_action (f v)%_string_scope.

Definition flow_request (table idle : str) (match_ : object) (actions : list json) : object :=
  [(lit "dpid", JString (lit "1")); (lit "table_id", JString table); (lit "idle_timeout", JString idle);
   (lit "match", JObject match_); (lit "actions", JArray actions)].

Definition bad_field_text : str := lit " Incorrect input in an action SET_FIELD. This action is ignored.".

(** text of another request.  A request that fails after an action was
    ignored leaves the text about the action for the next one that succeeds. *)
Theorem stale_response_text :
  let h := post [lit "flowentry"] (flow_request (lit "0") (lit "5") [] [set_field_action "nothing" "1"; JObject []]) [] in
  answered h = answer (lit "Some error on request handling") ∧ sent h = [] ∧
  answered (post [lit "flowentry"] (flow_request (lit "0") (lit "5") [] []) (response_ h)) =
    answer (lit "new flow added" ++ bad_field_text).
Proof. by vm_compute. Qed.

(** a timeout that does not fit.  It is cut to 16 bits: 65536 seconds become
    0, which means for ever, although numbers that are too large for a field of
    the match end the request. *)
Theorem idle_timeout_cut :
  let h := post [lit "flowentry"] (flow_request (lit "0") (lit "65536") [] []) [] in
  let h' := post [lit "flowentry"] (flow_request (lit "0") (lit "5") [(lit "tcp_dst", JString (lit "65536"))] []) [] in
  map (λ x, idle_timeout (snd x)) (sent h) = [0%N] ∧ sent h' = [].
Proof. by vm_compute. Qed.

(** deletions.  Their table is not checked: flows of the table that new flows
    are refused in can be deleted. *)
Theorem delete_in_any_table :
  let req table := flow_request table (lit "5") [] [] in
  sent (post [lit "flowentry"] (req (lit "2")) []) = [] ∧
  map (λ x, (command (snd x), table_id (snd x))) (sent (post [lit "flowentry"; lit "delete"] (req (lit "2")) [])) = [(OFPFC_DELETE, 2%N)] ∧
  map (λ x, table_id (snd x)) (sent (post [lit "flowentry"; lit "delete"] (req (lit "255")) [])) = [255%N].
Proof. by vm_compute. Qed.

(** the field "ip_src" of a report is none that a request may set, but
    "ipv4_src" is. *)
Theorem reported_set_field_refused (junk : reading → N) (i : nat) (a : bool) :
  let x : oxm str bool := Oxm ipv4_src (VIp a) in
  at_key (processSetField x) (lit "field") = Ok (JString (lit "ip_src")) ∧
  doSwitch (eth := str) junk i (lit "ip_src") (uint32_t_ip_to_string (getIPv4 a)) = Throw (CharsThrown (lit "unsupported field name")) ∧
  doSwitch (eth := str) junk i (lit "ipv4_src") (uint32_t_ip_to_string (getIPv4 a)) = Ok x.
Proof. destruct a; split_and!; reflexivity. Qed.

(** a number that is not a string, as JSON has them, is read as what the
    variable held before. *)
Example number_of_json : map fst (sent (post [lit "flowentry"; lit "delete"] [(lit "dpid", JNumber 1)] [])) = [] ∧
  map fst (sent (handlePOST (λ _, 1%N) (λ _ _, 0%N) 2 (N.eqb 1) sample_flow_mod [lit "flowentry"; lit "delete"]
    (JObject [(lit "dpid", JNumber 5)], []) [])) = [1%N].
Proof. by vm_compute. Qed.

(** a number that is not a string is read twice: what is checked is not what
    is used, and a flow may be added in a table that is not below the last. *)
Theorem number_table_unchecked (z : Z) :
  let junk (r : reading) := match r with InValidation _ => 0%N | InInfo _ => 200%N | _ => 1%N end in
  let req := [(lit "dpid", JString (lit "1")); (lit "table_id", JNumber z); (lit "idle_timeout", JString (lit "5"));
              (lit "match", JObject []); (lit "actions", JArray [])] in
  map (λ x, (command (snd x), table_id (snd x)))
    (sent (handlePOST junk (λ _ _, 0%N) 2 (N.eqb 1) sample_flow_mod [lit "flowentry"] (JObject req, []) [])) = [(OFPFC_ADD, 200%N)].
Proof. by vm_compute. Qed.

Definition sample_match : of13_match str bool := Of13Match (λ f,
  match f with
  | eth_type => Some (VNum ipv4) | ip_proto => Some (VNum tcp) | tcp_dst => Some (VNum 80) | ipv4_src => Some (VIp true)
  | in_port => Some (VNum 3) | _ => None
  end) (λ _, None).

Lemma sample_match_ok : match_ok sample_match.
Proof.
  split.
  - intros [] v; cbn; intros [=]; subst; cbn; try lia; apply (bool_decide_unpack _); vm_compute; exact I.
  - intros f g n [v Hv] Hg. destruct f; try discriminate Hv; cbn in Hg;
      repeat (apply elem_of_cons in Hg as [Hg | Hg]; [by simplify_eq |]); by apply not_elem_of_nil in Hg.
  - done.
Qed.

Lemma reported_match_reinstalls_witness :
  ∃ l, oxm_fields <$> processMatches (λ _, 7%N) sample_flow_mod (processMatch sample_match) = Ok l ∧
    Oxm ipv4_src (VIp true) ∈ l ∧ Oxm tcp_dst (VNum 80) ∈ l.
Proof.
  destruct (reported_match_reinstalls (λ _, 7%N) sample_match sample_flow_mod sample_match_ok) as (l & E & H).
  exists l. split; [exact E |]. split; apply H; first [reflexivity | apply (bool_decide_unpack _); vm_compute; exact I].
Defined.

(** masks.  A match of all addresses that agree with one under a mask is
    reported as the match of that address, and comes back as that. *)
Theorem masks_lost :
  let m := Of13Match sample_match (λ f, if decide (f = ipv4_src) then Some (VIp false) else None) in
  mask_at m ipv4_src = Some (VIp false) ∧ processMatch m = processMatch sample_match ∧
  oxm_fields <$> processMatches (λ _, 7%N) sample_flow_mod (processMatch m) =
    Ok [num tcp_dst 80; num eth_type ipv4; num ip_proto tcp; num ip_proto tcp; Oxm ipv4_src (VIp true); num eth_type ipv4;
        num in_port 3; num eth_type ipv4].
Proof. by vm_compute. Qed.

Definition ipv6_match : of13_match str bool := Of13Match (λ f,
  match f with eth_type => Some (VNum 0x86dd) | ip_proto => Some (VNum tcp) | tcp_dst => Some (VNum 80) | _ => None end) (λ _, None).

(** a match of TCP over IPv6 comes back with the type of IPv4 before that of
    IPv6: of two values of one field. *)
Theorem ipv6_match_conflicts :
  oxm_fields <$> processMatches (λ _, 7%N) sample_flow_mod (processMatch ipv6_match) =
    Ok [num tcp_dst 80; num eth_type ipv4; num ip_proto tcp; num ip_proto tcp; num eth_type ipv4; num eth_type 0x86dd].
Proof. by vm_compute. Qed.

Lemma adds_below_last_table_witness : ∃ d fm,
  sent (post [lit "flowentry"] (flow_request (lit "1") (lit "5") [] []) []) = [(d, fm)] ∧ (table_id fm < 2)%N.
Proof.
  pose proof (adds_below_last_table (λ _, 7%N) (λ _ _, 0%N) 2 (N.eqb 1) sample_flow_mod
    (JObject (flow_request (lit "1") (lit "5") [] []), []) []) as H.
  eexists _, _. split; [reflexivity |]. apply H. intros j [= <-]. discriminate.
Defined.

Lemma clear_restores_pipeline_witness :
  ∃ j ms, handleDELETE (λ _, 7%N) 2 (N.eqb 1) [lit "flowentry"; lit "clear"; lit "1"] [] = Ok (j, map (pair 1%N) ms, []) ∧
    unmatched 3 (fold_left table_step ms []) 0 = Some ([0; 1; 2]%N, (OFPP_CONTROLLER, 0%N)).
Proof.
  destruct (clear_restores_pipeline (λ _, 7%N) 2 (N.eqb 1) (lit "1") [] 1 []) as (j & ms & E & _ & H); [reflexivity.. |].
  exists j, ms. split; [exact E | exact H].
Defined.
