(* ===== verification/RestMultipart.v ===== *)
(** * RestMultipart: statistics of switches over the REST interface,
    RestMultipart.hh and .cc

    A request is sent to a switch as a multipart request, and the one thread of
    the HTTP server waits in an event loop for the signal that a reply was
    handled; meanwhile other requests wait for it.  A reply is kept in a
    variable of its kind.  [rest_step] is one event: a request arrives, or a
    message for the transaction does.

    If every request gets one reply, its answer is the reply
    ([answers_are_replies]).  It is not if a reply comes in two parts
    ([second_part_answers_next]), and after a message that is no reply, or none
    at all, no request is answered any more ([no_reply_blocks]). *)

From S2P Require Import Prelude Bits Regex RestJson RestFlowMod.
From stdpp Require Import list.

Definition OFPTT_ALL : N := 0xff.
Definition OFPQ_ALL : N := 0xffffffff.

(** [boost::lexical_cast] to [w] bits; paths have digits only. *)
Definition lexical_cast (w : N) (s : str) : res N :=
  if negb (bool_decide (s = [])) && forallb is_digit s && (stoi 10 s <? 2 ^ w)%N then Ok (stoi 10 s) else Throw BadLexicalCast.

Section Multipart.
Context {eth ip : Type} `{AD : Addresses eth ip}.

(** ** Requests *)

Record flow_filter : Type := FlowFilter {
  ff_table : N; ff_out_port : N; ff_out_group : N; ff_cookie : N; ff_cookie_mask : N; ff_match : list (oxm eth ip) }.

Inductive mp_request : Type :=
| MultipartRequestFlow (f : flow_filter)
| MultipartRequestAggregate (f : flow_filter)
| MultipartRequestPortStats (port : N)
| MultipartRequestDesc
| MultipartRequestTable
| MultipartRequestPortDescription
| MultipartRequestQueue (port queue : N).

Definition all_flows : flow_filter := FlowFilter OFPTT_ALL OFPP_ANY OFPG_ANY 0 0 [].

(** The number of a port or a queue, or all of them if it is none. *)
Definition number_or (any : N) (s : str) : N := match lexical_cast 32 s with Ok n => n | Throw _ => any end.

(** [processInfo] of a request for flows; [junk] is what its reads find. *)
Definition processInfo (junk : reading → N) (req : object) : res flow_filter :=
  let chValue (field : str) (alternative : N) := chooseValue (junk (InInfo field)) 64 req field alternative in
  table ← chValue (lit "table_id") OFPTT_ALL;
  port ← chValue (lit "out_port") OFPP_ANY;
  group ← chValue (lit "out_group") OFPG_ANY;
  ck ← chValue (lit "cookie") 0%N;
  mask ← chValue (lit "cookie_mask") 0%N;
  Ok (FlowFilter (wrap 8 table) (wrap 32 port) (wrap 32 group) ck mask []).

(** [HANDLE_UINT] of this file. *)
Definition handle_uint (junk : reading → N) (ms : object) (f : match_field) (w : N) (l : list (oxm eth ip)) : res (list (oxm eth ip)) :=
  match at_key ms (field_name f) ≫= json_cast (junk (InMatch f)) w with
  | Ok v => Ok (l ++ [Oxm f (VNum v)])
  | Throw OverflowError => Throw OverflowError
  | Throw _ => Ok l
  end.

Definition handle_address (ms : object) (f : match_field) (l : list (oxm eth ip)) : res (list (oxm eth ip)) :=
  match find_key ms (field_name f) with
  | Some j => v ← address f (string_value j); Ok (l ++ [Oxm f v])
  | None => Ok l
  end.

(** [processMatches] of a request for flows. *)
Definition process_matches (junk : reading → N) (ms : object) : res (list (oxm eth ip)) :=
  l ← handle_uint junk ms tcp_src 16 [];
  l ← handle_uint junk ms tcp_dst 16 l;
  l ← handle_uint junk ms udp_src 16 l;
  l ← handle_uint junk ms udp_dst 16 l;
  l ← handle_uint junk ms in_port 32 l;
  l ← handle_uint junk ms in_phy_port 32 l;
  l ← handle_uint junk ms metadata 64 l;
  l ← handle_uint junk ms eth_type 16 l;
  l ← handle_uint junk ms ip_proto 8 l;
  l ← handle_address ms eth_src l;
  l ← handle_address ms eth_dst l;
  l ← handle_address ms ipv4_src l;
  handle_address ms ipv4_dst l.

(** Those of a request for aggregates are copies. *)
Definition aggregate_info (junk : reading → N) (req : object) : res flow_filter := processInfo junk req.
Definition aggregate_matches (junk : reading → N) (ms : object) : res (list (oxm eth ip)) := process_matches junk ms.

(** [sendPostRequest], up to where the request is sent. *)
Definition post_filter (info : object → res flow_filter) (matches : object → res (list (oxm eth ip))) (req : object) : res flow_filter :=
  f ← info req;
  l ← match find_key req (lit "match") with Some m => matches (object_items m) | None => Ok [] end;
  Ok (FlowFilter (ff_table f) (ff_out_port f) (ff_out_group f) (ff_cookie f) (ff_cookie_mask f) l).

(** ** Replies *)

Inductive kind : Type := KFlow | KPort | KDesc | KAggregate | KTable | KPortDesc | KQueue.

(** What the member of the union for a message holds; that for aggregates was
    read by the class for tables (OFMsgUnion). *)
Inductive mp_message : Type :=
| ReplyFlow (l : list (mp_flow (eth := eth) (ip := ip)))
| ReplyPort (l : list port_stats)
| ReplyDesc (d : switch_desc)
| ReplyAggregate (a : aggregate)
| ReplyTable (l : list table_stats)
| ReplyPortDesc (l : list (port_desc (eth := eth)))
| ReplyQueue (l : list queue_stats)
| ReplyUnknown (mpart_type : N)
| NotMultipart (type : N).

Record responses : Type := Responses {
  responseFlow_ : list (mp_flow (eth := eth) (ip := ip)); responsePort_ : list port_stats; responseSwitchDesc_ : switch_desc;
  responseAggregate_ : aggregate; responseTable_ : list table_stats; responsePortDesc_ : list (port_desc (eth := eth));
  responseQueue_ : list queue_stats }.

Definition reply_kind (m : mp_message) : option kind :=
  match m with
  | ReplyFlow _ => Some KFlow | ReplyPort _ => Some KPort | ReplyDesc _ => Some KDesc | ReplyAggregate _ => Some KAggregate
  | ReplyTable _ => Some KTable | ReplyPortDesc _ => Some KPortDesc | ReplyQueue _ => Some KQueue
  | ReplyUnknown _ | NotMultipart _ => None
  end.

(** [onResponse]: the variables, and whether [ResponseHandlingFinished] is emitted. *)
Definition onResponse (r : responses) (m : mp_message) : responses * bool :=
  let '(Responses f p d a t pd q) := r in
  match m with
  | ReplyFlow l => (Responses l p d a t pd q, true)
  | ReplyPort l => (Responses f l d a t pd q, true)
  | ReplyDesc x => (Responses f p x a t pd q, true)
  | ReplyAggregate x => (Responses f p d x t pd q, true)
  | ReplyTable l => (Responses f p d a l pd q, true)
  | ReplyPortDesc l => (Responses f p d a t l q, true)
  | ReplyQueue l => (Responses f p d a t pd l, true)
  | ReplyUnknown _ | NotMultipart _ => (r, false)
  end.

(** [toJson] of the variable of a kind. *)
Definition response_json (r : responses) (k : kind) : json :=
  match k with
  | KFlow => toJson flow_json (responseFlow_ r)
  | KPort => toJson (show_all port_numbers) (responsePort_ r)
  | KDesc => JObject (desc_json (responseSwitchDesc_ r))
  | KAggregate => JObject (show_all aggregate_numbers (responseAggregate_ r))
  | KTable => toJson (show_all table_numbers) (responseTable_ r)
  | KPortDesc => toJson port_desc_json (responsePortDesc_ r)
  | KQueue => toJson (show_all queue_numbers) (responseQueue_ r)
  end.

(** The same of a reply itself. *)
Definition reply_json (m : mp_message) : json :=
  match m with
  | ReplyFlow l => toJson flow_json l
  | ReplyPort l => toJson (show_all port_numbers) l
  | ReplyDesc d => JObject (desc_json d)
  | ReplyAggregate a => JObject (show_all aggregate_numbers a)
  | ReplyTable l => toJson (show_all table_numbers) l
  | ReplyPortDesc l => toJson port_desc_json l
  | ReplyQueue l => toJson (show_all queue_numbers) l
  | ReplyUnknown _ | NotMultipart _ => JNull
  end.

(** ** Handlers, up to where they wait *)

Context (switches : list N).

(** What a handler does first: it answers, or sends a request to a switch and
    waits, for its answer under a key. *)
Inductive begun : Type :=
| Answered (j : json)
| Waits (d : N) (req : mp_request) (k : kind) (key : str).

Definition rest_text (t : str) : json := JObject [(lit "RestMultipart", JString t)].
Definition incorrect : json := rest_text (lit "incorrect request").

(** [sendGetRequest], [sendPostRequest]: the switch must be there. *)
Definition send_request (dpid : str) (req : res mp_request) (k : kind) : res begun :=
  d ← lexical_cast 64 dpid;
  _ ← require (bool_decide (d ∈ switches)) (CharsThrown (lit "switch not found"));
  q ← req;
  Ok (Waits d q k dpid).

(** The parameter at a position; paths have them. *)
Definition param (l : list str) (i : nat) : str := nth i l [].

Definition start_get (params : list str) : res begun :=
  let p0 := param params 0 in
  let p1 := param params 1 in
  let named (t : str) := bool_decide (p0 = t) in
  if named (lit "flow") then send_request p1 (Ok (MultipartRequestFlow all_flows)) KFlow
  else if named (lit "port") then send_request p1 (Ok (MultipartRequestPortStats (number_or OFPP_ANY (param params 2)))) KPort
  else if named (lit "switch") then
    if bool_decide (p1 = lit "all") then Ok (Answered (JArray (map (λ d, JString (number_text 10 d)) switches)))
    else send_request p1 (Ok MultipartRequestDesc) KDesc
  else if named (lit "aggregate-flow") then send_request p1 (Ok (MultipartRequestAggregate all_flows)) KAggregate
  else if named (lit "table") then send_request p1 (Ok MultipartRequestTable) KTable
  else if named (lit "port-desc") then send_request p1 (Ok MultipartRequestPortDescription) KPortDesc
  else if named (lit "queue") then
    send_request p1 (Ok (MultipartRequestQueue (number_or OFPP_ANY (param params 2)) (number_or OFPQ_ALL (param params 3)))) KQueue
  else Ok (Answered incorrect).

Definition handleGET (params : list str) : begun :=
  match start_get params with Ok b => b | Throw _ => Answered incorrect end.

Definition start_post (junk : reading → N) (params : list str) (parsed : json * str) : res begun :=
  req ← parse parsed;
  let named (t : str) := bool_decide (param params 0 = t) in
  if named (lit "flow") then send_request (param params 1) (MultipartRequestFlow <$> post_filter (processInfo junk) (process_matches junk) req) KFlow
  else if named (lit "aggregate-flow") then send_request (param params 1) (MultipartRequestAggregate <$> post_filter (aggregate_info junk) (aggregate_matches junk) req) KAggregate
  else Ok (Answered incorrect).

Definition handle_post (junk : reading → N) (params : list str) (parsed : json * str) : begun :=
  match start_post junk params parsed with
  | Ok b => b
  | Throw (StringThrown t) => Answered (rest_text (c_str t))
  | Throw _ => Answered (rest_text (lit "Some error on request handling"))
  end.

(** ** The thread of the server *)

(** The reads of each request find values of their own. *)
Inductive http_request : Type := Get (params : list str) | Post (junk : reading → N) (params : list str) (parsed : json * str).

Definition begin_request (r : http_request) : begun :=
  match r with Get params => handleGET params | Post junk params parsed => handle_post junk params parsed end.

Record server : Type := Server {
  vars : responses;
  waiting : option (kind * str);
  queued : list http_request
}.

Inductive output : Type := Sent (d : N) (req : mp_request) | Answer (j : json).

(** Requests are taken from the queue until one waits. *)
Fixpoint take_requests (v : responses) (q : list http_request) : server * list output :=
  match q with
  | [] => (Server v None [], [])
  | r :: q =>
      match begin_request r with
      | Answered j => let '(s, out) := take_requests v q in (s, Answer j :: out)
      | Waits d req k key => (Server v (Some (k, key)) q, [Sent d req])
      end
  end.

Inductive rest_event : Type := Arrives (r : http_request) | Receives (m : mp_message).

Definition rest_step (s : server) (e : rest_event) : server * list output :=
  match e with
  | Arrives r =>
      match waiting s with
      | None => take_requests (vars s) [r]
      | Some w => (Server (vars s) (Some w) (queued s ++ [r]), [])
      end
  | Receives m =>
      let '(v, finished) := onResponse (vars s) m in
      match waiting s, finished with
      | Some (k, key), true =>
          let '(s', out) := take_requests v (queued s) in (s', Answer (JObject [(key, response_json v k)]) :: out)
      | w, _ => (Server v w (queued s), [])
      end
  end.

Fixpoint rest_run (s : server) (es : list rest_event) : server * list output :=
  match es with
  | [] => (s, [])
  | e :: es => let '(s1, o1) := rest_step s e in let '(s2, o2) := rest_run s1 es in (s2, o1 ++ o2)
  end.

(** ** Without variables *)

Definition spec_state : Type := option (kind * str) * list http_request.

Fixpoint spec_take (q : list http_request) : spec_state * list output :=
  match q with
  | [] => ((None, []), [])
  | r :: q =>
      match begin_request r with
      | Answered j => let '(s, out) := spec_take q in (s, Answer j :: out)
      | Waits d req k key => ((Some (k, key), q), [Sent d req])
      end
  end.

(** A reply answers the request that waits. *)
Definition spec_step (s : spec_state) (e : rest_event) : spec_state * list output :=
  match e, s with
  | Arrives r, (None, _) => spec_take [r]
  | Arrives r, (Some w, q) => ((Some w, q ++ [r]), [])
  | Receives m, (Some (k, key), q) => let '(s', out) := spec_take q in (s', Answer (JObject [(key, reply_json m)]) :: out)
  | Receives _, (None, q) => ((None, q), [])
  end.

Fixpoint spec_run (s : spec_state) (es : list rest_event) : spec_state * list output :=
  match es with
  | [] => (s, [])
  | e :: es => let '(s1, o1) := spec_step s e in let '(s2, o2) := spec_run s1 es in (s2, o1 ++ o2)
  end.

(** Each reply comes while a request for it waits. *)
Fixpoint expected (s : spec_state) (es : list rest_event) : Prop :=
  match es with
  | [] => True
  | e :: es => match e with Receives m => ∃ k key, fst s = Some (k, key) ∧ reply_kind m = Some k | Arrives _ => True end ∧
      expected (fst (spec_step s e)) es
  end.

Definition forget (s : server) : spec_state := (waiting s, queued s).

Lemma take_refines v q : forget (fst (take_requests v q)) = fst (spec_take q) ∧ snd (take_requests v q) = snd (spec_take q) ∧
  vars (fst (take_requests v q)) = v.
Proof.
  induction q as [|r q IH]; [done |]. cbn [take_requests spec_take]. destruct (begin_request r) as [j | d req k key]; [| done].
  destruct (take_requests v q) as [s out], (spec_take q) as [s' out']. cbn in *. destruct IH as (-> & -> & ->). done.
Qed.

Lemma response_of_reply r m k : reply_kind m = Some k →
  snd (onResponse r m) = true ∧ response_json (fst (onResponse r m)) k = reply_json m.
Proof. destruct r, m; intros [= <-]; done. Qed.

Lemma step_refines s e : match e with Receives m => ∃ k key, waiting s = Some (k, key) ∧ reply_kind m = Some k | Arrives _ => True end →
  forget (fst (rest_step s e)) = fst (spec_step (forget s) e) ∧ snd (rest_step s e) = snd (spec_step (forget s) e).
Proof.
  destruct s as [v w q], e as [r | m]; cbn [waiting vars queued forget fst snd].
  - intros _. destruct w as [w|]; [done |]. cbn [rest_step spec_step waiting vars]. by destruct (take_refines v [r]) as (? & ? & _).
  - intros (k & key & -> & Hk). destruct (response_of_reply v m k Hk) as [Hf Hj]. cbn [rest_step spec_step waiting vars queued forget].
    destruct (onResponse v m) as [v' f]. cbn in Hf, Hj. subst f. destruct (take_refines v' q) as (E1 & E2 & _).
    destruct (take_requests v' q) as [s' out], (spec_take q) as [t out']. cbn in *. by rewrite Hj, E2.
Qed.

Lemma run_refines es : ∀ s, expected (forget s) es →
  forget (fst (rest_run s es)) = fst (spec_run (forget s) es) ∧ snd (rest_run s es) = snd (spec_run (forget s) es).
Proof.
  induction es as [|e es IH]; intros s; [done |]. cbn [expected rest_run spec_run]. intros [He Hes].
  destruct (step_refines s e He) as [E1 E2]. destruct (rest_step s e) as [s1 o1], (spec_step (forget s) e) as [t1 p1]. cbn in *. subst.
  destruct (IH s1 Hes) as [E3 E4]. destruct (rest_run s1 es) as [s2 o2], (spec_run (forget s1) es) as [t2 p2]. cbn in *. by subst.
Qed.

(** The answers given, and the requests not answered yet. *)
Definition answers_in (out : list output) : nat := length (List.filter (λ o, match o with Answer _ => true | Sent _ _ => false end) out).
Definition pending (s : spec_state) : nat := (match fst s with Some _ => 1 | None => 0 end + length (snd s))%nat.
Definition arrivals (es : list rest_event) : nat := length (List.filter (λ e, match e with Arrives _ => true | Receives _ => false end) es).

Lemma answers_app l l' : answers_in (l ++ l') = (answers_in l + answers_in l')%nat.
Proof. unfold answers_in. by rewrite List.filter_app, length_app. Qed.

Lemma take_counts q : (answers_in (snd (spec_take q)) + pending (fst (spec_take q)) = length q)%nat.
Proof.
  induction q as [|r q IH]; [done |]. cbn [spec_take]. destruct (begin_request r); [| done].
  destruct (spec_take q) as [s out]. cbn in *. unfold answers_in in *. cbn. lia.
Qed.

(** While nobody waits the queue is empty. *)
Definition idle_empty (s : spec_state) : Prop := fst s = None → snd s = [].

Lemma take_idle q : idle_empty (fst (spec_take q)).
Proof. induction q as [|r q IH]; [done |]. cbn [spec_take]. destruct (begin_request r); [| done]. by destruct (spec_take q). Qed.

Lemma step_counts s e : idle_empty s → idle_empty (fst (spec_step s e)) ∧
  (answers_in (snd (spec_step s e)) + pending (fst (spec_step s e)) = pending s + arrivals [e])%nat.
Proof.
  intros Hi. destruct s as [[[k key]|] q], e as [r | m]; cbn [spec_step].
  - split; [done |]. cbn. rewrite length_app. cbn. lia.
  - pose proof (take_counts q) as Hc. pose proof (take_idle q) as Ht. destruct (spec_take q) as [s out]. cbn in *. split; [done |].
    unfold answers_in in *. cbn. lia.
  - pose proof (take_counts [r]) as Hc. split; [apply take_idle |]. rewrite Hc. specialize (Hi eq_refl). cbn in Hi. by subst q.
  - split; [done |]. specialize (Hi eq_refl). cbn in Hi. by subst q.
Qed.

Lemma run_counts es : ∀ s, idle_empty s →
  (answers_in (snd (spec_run s es)) + pending (fst (spec_run s es)) = pending s + arrivals es)%nat.
Proof.
  induction es as [|e es IH]; intros s Hi; [cbn; lia |]. cbn [spec_run]. destruct (step_counts s e Hi) as [Hi1 Hc].
  destruct (spec_step s e) as [s1 o1]. specialize (IH s1 Hi1). destruct (spec_run s1 es) as [s2 o2]. cbn [fst snd] in *.
  rewrite answers_app. assert (arrivals (e :: es) = arrivals [e] + arrivals es)%nat by (unfold arrivals; cbn; destruct e; cbn; lia). lia.
Qed.

(** ** Properties *)

(** C28: answers are replies.  When each reply comes while a request for it
    waits, the requests are answered as if there were no variables: each with
    the reply to it, in the order they came, and none is lost or answered twice. *)
Theorem answers_are_replies (v : responses) (es : list rest_event) :
  expected (None, []) es →
  let s := Server v None [] in
  snd (rest_run s es) = snd (spec_run (None, []) es) ∧
  (answers_in (snd (rest_run s es)) + pending (forget (fst (rest_run s es))) = arrivals es)%nat.
Proof.
  intros He s. destruct (run_refines es s He) as [E1 E2]. rewrite E1, E2. split; [done |]. by apply (run_counts es (None, [])).
Qed.

(** a message that is no reply, or none.  While a request waits and nothing
    comes but other requests and such messages, nothing is sent or answered. *)
Theorem no_reply_blocks (s : server) (w : kind * str) (es : list rest_event) :
  waiting s = Some w → Forall (λ e, match e with Receives m => reply_kind m = None | Arrives _ => True end) es →
  snd (rest_run s es) = [] ∧ waiting (fst (rest_run s es)) = Some w.
Proof.
  intros Hw H. revert s Hw. induction H as [|e es He _ IH]; intros s Hw; [done |]. cbn [rest_run].
  assert (E : snd (rest_step s e) = [] ∧ waiting (fst (rest_step s e)) = Some w).
  { destruct e as [r | m]; cbn [rest_step]; [by rewrite Hw |]. destruct s as [[] w' q], m; cbn in *; try discriminate; subst; by destruct w. }
  destruct (rest_step s e) as [s1 o1]. cbn in E. destruct E as [-> Hw1]. destruct (IH s1 Hw1) as [E2 E3].
  destruct (rest_run s1 es) as [s2 o2]. cbn in *. by subst.
Qed.

(** a reply in two parts.  The second part, which comes while a later request
    waits, ends its wait: it is answered with what the variable held before. *)
Theorem second_part_answers_next (v : responses) (dpid : str) (d : N) (part1 part2 : list (mp_flow (eth := eth) (ip := ip))) :
  lexical_cast 64 dpid = Ok d → d ∈ switches →
  snd (rest_run (Server v None [])
    [Arrives (Get [lit "flow"; dpid]); Receives (ReplyFlow part1);
     Arrives (Get [lit "port"; dpid; lit "all"]); Receives (ReplyFlow part2)]) =
  [Sent d (MultipartRequestFlow all_flows); Answer (JObject [(dpid, toJson flow_json part1)]);
   Sent d (MultipartRequestPortStats OFPP_ANY); Answer (JObject [(dpid, toJson (show_all port_numbers) (responsePort_ v))])].
Proof.
  intros Hd Hs. assert (E : ∀ q k, send_request dpid (Ok q) k = Ok (Waits d q k dpid)).
  { intros q k. unfold send_request. rewrite Hd. cbn [mbind res_bind]. by rewrite bool_decide_eq_true_2. }
  cbn [rest_run rest_step waiting take_requests begin_request]. unfold handleGET, start_get. cbn [param nth].
  rewrite !bool_decide_eq_true_2 by done. rewrite !E. destruct v. reflexivity.
Qed.
End Multipart.

(** A port above 32 bits is no number, so it stands for all of them. *)
Example large_port_is_any : number_or OFPP_ANY (lit "4294967295") = OFPP_ANY ∧ number_or OFPP_ANY (lit "4294967296") = OFPP_ANY ∧
  number_or OFPP_ANY (lit "7") = 7%N.
Proof. by vm_compute. Qed.

(** ** A switch that is asked twice *)

Definition sample_responses : responses (eth := str) (ip := bool) := Responses [] [] (SwitchDesc [] [] [] [] []) (Aggregate 0 0 0) [] [] [].

Definition sample_events : list (rest_event (eth := str) (ip := bool)) :=
  [Arrives (Get [lit "table"; lit "1"]); Arrives (Get [lit "switch"; lit "all"]); Arrives (Get [lit "table"; lit "9"]);
   Receives (ReplyTable [TableStats 1 0 20 10])].

Lemma answers_are_replies_witness :
  snd (rest_run [1%N] (Server sample_responses None []) sample_events) =
    [Sent 1 MultipartRequestTable;
     Answer (JObject [(lit "1", JArray [JObject [(lit "active_count", JString (lit "1")); (lit "table_id", JString (lit "0"));
       (lit "lookup_count", JString (lit "20")); (lit "matched_count", JString (lit "10"))]])]);
     Answer (JArray [JString (lit "1")]); Answer (JObject [(lit "RestMultipart", JString (lit "incorrect request"))])].
Proof.
  destruct (answers_are_replies [1%N] sample_responses sample_events) as [E _].
  - cbn [expected sample_events]. split; [exact I |]. split; [exact I |]. split; [exact I |]. split; [| exact I].
    exists KTable, (lit "1"). split; [vm_compute; reflexivity | reflexivity].
  - rewrite E. vm_compute. reflexivity.
Defined.

Lemma second_part_answers_next_witness :
  let flow1 := MpFlow 1 0 0 0 0 0 0 0 0 0 0 (Of13Match (λ _, None) (λ _, None)) [] in
  snd (rest_run [1%N] (Server sample_responses None [])
    [Arrives (Get [lit "flow"; lit "1"]); Receives (ReplyFlow [flow1]);
     Arrives (Get [lit "port"; lit "1"; lit "all"]); Receives (ReplyFlow [])]) =
  [Sent 1 (MultipartRequestFlow all_flows); Answer (JObject [(lit "1", toJson flow_json [flow1])]);
   Sent 1 (MultipartRequestPortStats OFPP_ANY); Answer (JObject [(lit "1", JArray [])])].
Proof.
  apply (second_part_answers_next [1%N] sample_responses (lit "1") 1); [reflexivity |].
  apply (bool_decide_unpack _). vm_compute. exact I.
Defined.
