(* ===== verification/StaticFlowPusher.v ===== *)
(** * StaticFlowPusher: flows of the configuration, StaticFlowPusher.hh and .cc

    The flows that network-settings.json has for a switch, or for all, are sent
    to it when it comes up; a deprecated request sends one more.  Integers of
    JSON are those of an int.  Of libfluid, addresses, the value of one that is
    not set and the number of "0.0.0.0" are parameters, and what a constructor
    leaves in a message ([new_flow_mod]).

    The flows are sent in their order, each with the priority it asks for or
    the next free one ([static_flows_sent]), with the prerequisites of their
    matches ([static_match_needs]).  The free priorities go round at 16 bits
    ([free_priority_wraps]). *)

From S2P Require Import Prelude Bits Regex RestJson RestFlowMod.
From stdpp Require Import list.

(** int to [w] bits *)
Definition int_to (w : N) (z : Z) : N := Z.to_N (z mod 2 ^ Z.of_N w).

Definition int_value (j : json) : Z := match j with JNumber z => z | _ => 0%Z end.
Definition number_value (j : json) : Z := match j with JNumber z => z | _ => 0%Z end.

(** [config_get] *)
Definition config_string (c : object) (key defval : str) : str :=
  match find_key c key with Some j => string_value j | None => defval end.
Definition config_int (c : object) (key : str) (defval : Z) : Z :=
  match find_key c key with Some j => int_value j | None => defval end.

Definition OFPP_CONTROLLER : N := 0xfffffffd.

Section Pusher.
Context {eth ip : Type} `{AD : Addresses eth ip}.
Context (no_eth : eth) (no_ip : ip) (ip_zero : N) (new_flow_mod : flow_mod (eth := eth) (ip := ip)).

Record flow_desc : Type := FlowDesc {
  fd_in_port : N; fd_out_port : N; fd_eth_type : N; fd_eth_src : eth; fd_eth_dst : eth; fd_ip_src : ip; fd_ip_dst : ip;
  fd_idle : Z; fd_hard : Z; fd_priority : N; fd_modify : list (oxm eth ip) }.

Definition new_flow_desc : flow_desc := FlowDesc 0 0 0 no_eth no_eth no_ip no_ip 0 0 0 [].

(** [formFlowMod], to the fields of the match: the address at which libfluid
    prints zeros, and the number of "0.0.0.0", stand for none. *)
Definition has_eth (a : eth) : bool := negb (bool_decide (eth_to_string a = lit "00:00:00:00:00:00")).
Definition has_ip (a : ip) : bool := negb (getIPv4 a =? ip_zero)%N.

Definition sets_ip (x : oxm eth ip) : bool := bool_decide (field x = ipv4_src) || bool_decide (field x = ipv4_dst).

(** The type after the addresses and the modifications. *)
Definition final_eth_type (fd : flow_desc) : N :=
  if has_ip (fd_ip_src fd) || has_ip (fd_ip_dst fd) || existsb sets_ip (fd_modify fd) then ipv4 else fd_eth_type fd.

Definition when (b : bool) (x : oxm eth ip) : list (oxm eth ip) := if b then [x] else [].

Definition match_of (fd : flow_desc) : list (oxm eth ip) :=
  when (0 <? fd_in_port fd)%N (Oxm in_port (VNum (fd_in_port fd))) ++
  when (has_eth (fd_eth_src fd)) (Oxm eth_src (VEth (fd_eth_src fd))) ++
  when (has_eth (fd_eth_dst fd)) (Oxm eth_dst (VEth (fd_eth_dst fd))) ++
  when (has_ip (fd_ip_src fd)) (Oxm ipv4_src (VIp (fd_ip_src fd))) ++
  when (has_ip (fd_ip_dst fd)) (Oxm ipv4_dst (VIp (fd_ip_dst fd))) ++
  when (0 <? final_eth_type fd)%N (Oxm eth_type (VNum (final_eth_type fd))).

Definition actions_of (fd : flow_desc) : list (action eth ip) :=
  map (λ x, SET_FIELD x) (fd_modify fd) ++ if (0 <? fd_out_port fd)%N then [OUTPUT (fd_out_port fd) 128] else [].

(** The application: [flows_map], [start_prio], [table_no]. *)
Record pusher : Type := Pusher { flows_map : object; start_prio : N; table_no : N }.

Definition with_prio (s : pusher) (p : N) : pusher := Pusher (flows_map s) p (table_no s).

(** [formFlowMod] *)
Definition formFlowMod (s : pusher) (fd : flow_desc) : flow_mod (eth := eth) (ip := ip) * pusher :=
  let '(prio, s') :=
    if (fd_priority fd =? 0)%N then (wrap 16 (start_prio s), with_prio s (wrap 32 (start_prio s + 1))) else (fd_priority fd, s) in
  let fm := new_flow_mod in
  (FlowMod OFPFC_ADD (table_no s) (cookie fm) (cookie_mask fm) (int_to 16 (fd_idle fd)) (int_to 16 (fd_hard fd)) prio OFP_NO_BUFFER
     (out_port fm) (out_group fm) (flags fm) (oxm_fields fm ++ match_of fd) (instructions fm ++ [APPLY_ACTIONS (actions_of fd)]), s').

(** An IPAddress of text. *)
Definition ip_address (t : str) : res ip := match ip_of_string t with Some a => Ok a | None => Throw RuntimeError end.

Definition readFlowFromConfig (c : object) : res flow_desc :=
  let port := int_to 32 (config_int c (lit "out_port") 0) in
  let port := if (port =? 0)%N && bool_decide (config_string c (lit "out_port") (lit "null") = lit "to-controller")
              then OFPP_CONTROLLER else port in
  src ← ip_address (config_string c (lit "ip_src") (lit "0.0.0.0"));
  dst ← ip_address (config_string c (lit "ip_dst") (lit "0.0.0.0"));
  Ok (FlowDesc (int_to 32 (config_int c (lit "in_port") 0)) port 0
        (eth_of_string (config_string c (lit "eth_src") (lit "00:00:00:00:00:00")))
        (eth_of_string (config_string c (lit "eth_dst") (lit "00:00:00:00:00:00"))) src dst
        (config_int c (lit "idle") 0) (config_int c (lit "hard") 0) (int_to 16 (config_int c (lit "priority") 0)) []).

(** [sendToSwitch] of each flow of a list: what is sent, and what is thrown at
    the first flow that can't be read. *)
Fixpoint send_flows (s : pusher) (flows : list json) : list (flow_mod (eth := eth) (ip := ip)) * pusher * option exn :=
  match flows with
  | [] => ([], s, None)
  | j :: flows =>
      match readFlowFromConfig (object_items j) with
      | Throw e => ([], s, Some e)
      | Ok fd =>
          let '(fm, s) := formFlowMod s fd in
          let '(fms, s, e) := send_flows s flows in
          (fm :: fms, s, e)
      end
  end.

Definition flows_for (s : pusher) (key : str) : list json :=
  match find_key (flows_map s) key with Some j => array_items j | None => [] end.

(** [Switch::idstr]: 16 hexadecimal digits. *)
Definition idstr (d : N) : str := map (λ i, hexc (N.land (N.shiftr d (4 * N.of_nat (15 - i))) 15)) (seq 0 16).

(** What a switch is sent when it comes up. *)
Definition onSwitchUp (s : pusher) (d : N) : list (flow_mod (eth := eth) (ip := ip)) * pusher * option exn :=
  let '(fms, s, e) := send_flows s (flows_for s (lit "all")) in
  match e with
  | Some e => (fms, s, Some e)
  | None => let '(fms', s, e) := send_flows s (flows_for s (idstr d)) in (fms ++ fms', s, e)
  end.

(** [flows_map] of the configuration. *)
Fixpoint read_flows_map (l : list json) (m : object) : res object :=
  match l with
  | [] => Ok m
  | j :: l =>
      let cc := object_items j in
      let dpid := config_string cc (lit "dpid") (lit "none") in
      if bool_decide (dpid = lit "none") then read_flows_map l m
      else f ← at_key cc (lit "flows"); read_flows_map l (put dpid f m)
  end.

Definition init (config : object) (table : N) : res pusher :=
  m ← match find_key config (lit "flows") with Some j => read_flows_map (array_items j) [] | None => Ok [] end;
  Ok (Pusher m 1 table).

(** [cleanFlowTable] *)
Definition cleanFlowTable (s : pusher) : flow_mod (eth := eth) (ip := ip) :=
  let fm := new_flow_mod in
  FlowMod OFPFC_DELETE (table_no s) (cookie fm) (cookie_mask fm) (idle_timeout fm) (hard_timeout fm) (priority fm) (buffer_id fm)
    OFPP_ANY OFPG_ANY (flags fm) (oxm_fields fm) (instructions fm).

(** ** The deprecated request *)

Definition handle_int (o : object) (key : str) (old : N) : N :=
  match find_key o key with Some j => if (0 <? number_value j)%Z then int_to 32 (number_value j) else old | None => old end.

(** The text of a key that is there and not empty. *)
Definition handle_string (o : object) (key : str) : option str :=
  match find_key o key with Some j => match string_value j with [] => None | t => Some t end | None => None end.

Definition handle_eth (o : object) (key : str) (old : eth) : eth :=
  match handle_string o key with Some t => eth_of_string t | None => old end.

Definition handle_ip (o : object) (key : str) (old : ip) : res ip :=
  match handle_string o key with Some t => ip_address t | None => Ok old end.

Definition handle_modify_eth (o : object) (key : str) (f : match_field) : list (oxm eth ip) :=
  match handle_string o key with Some t => [Oxm f (VEth (eth_of_string t))] | None => [] end.

Definition handle_modify_ip (o : object) (key : str) (f : match_field) : res (list (oxm eth ip)) :=
  match handle_string o key with Some t => a ← ip_address t; Ok [Oxm f (VIp a)] | None => Ok [] end.

Definition requested_flow (o : object) : res flow_desc :=
  src ← handle_ip o (lit "ip_src") no_ip;
  dst ← handle_ip o (lit "ip_dst") no_ip;
  msrc ← handle_modify_ip o (lit "modify_ip_src") ipv4_src;
  mdst ← handle_modify_ip o (lit "modify_ip_dst") ipv4_dst;
  Ok (FlowDesc (handle_int o (lit "in_port") 0) (handle_int o (lit "out_port") 0) 0 (handle_eth o (lit "eth_src") no_eth)
        (handle_eth o (lit "eth_dst") no_eth) src dst 0 0 0
        (handle_modify_eth o (lit "modify_eth_src") eth_src ++ handle_modify_eth o (lit "modify_eth_dst") eth_dst ++ msrc ++ mdst)).

Inductive pushed : Type := NotFound | Unparsed | Ignored | NewFlow (fm : flow_mod (eth := eth) (ip := ip)).

(** [id]: what stoull reads of the second parameter. *)
Definition handlePOST (s : pusher) (known : N → bool) (newflow : bool) (id : N) (parsed : json * str) : res (pushed * pusher) :=
  if negb newflow then Ok (Ignored, s)
  else if negb (known id) then Ok (NotFound, s)
  else
    match snd parsed with
    | [] => fd ← requested_flow (object_items (fst parsed)); let '(fm, s) := formFlowMod s fd in Ok (NewFlow fm, s)
    | _ => Ok (Unparsed, s)
    end.

(** ** Lists of flows *)

(** The priorities of flows that ask for some, 0 for the next free one. *)
Fixpoint priorities (next : N) (asked : list N) : list N :=
  match asked with
  | [] => []
  | 0%N :: asked => wrap 16 next :: priorities (wrap 32 (next + 1)) asked
  | p :: asked => p :: priorities next asked
  end.

Definition next_free (asked : list N) (next : N) : N := fold_left (λ n p, if (p =? 0)%N then wrap 32 (n + 1) else n) asked next.

Definition asks (j : json) : N := int_to 16 (config_int (object_items j) (lit "priority") 0).

(** The message of a flow, but for the priority. *)
Definition flow_sent (s : pusher) (j : json) (fm : flow_mod (eth := eth) (ip := ip)) : Prop :=
  ∃ fd, readFlowFromConfig (object_items j) = Ok fd ∧ command fm = OFPFC_ADD ∧ table_id fm = table_no s ∧
    oxm_fields fm = oxm_fields new_flow_mod ++ match_of fd ∧ instructions fm = instructions new_flow_mod ++ [APPLY_ACTIONS (actions_of fd)].

Lemma read_asks c fd : readFlowFromConfig c = Ok fd → fd_priority fd = int_to 16 (config_int c (lit "priority") 0).
Proof. unfold readFlowFromConfig. intros H. by inv_res. Qed.

Lemma form_spec s j fd : readFlowFromConfig (object_items j) = Ok fd →
  flow_sent s j (fst (formFlowMod s fd)) ∧
  priority (fst (formFlowMod s fd)) = (if (asks j =? 0)%N then wrap 16 (start_prio s) else asks j) ∧
  snd (formFlowMod s fd) = with_prio s (next_free [asks j] (start_prio s)).
Proof.
  intros E. pose proof (read_asks _ _ E) as Ep. fold (asks j) in Ep. unfold formFlowMod. rewrite Ep. cbn [next_free fold_left].
  destruct (asks j =? 0)%N; (split_and!; [by exists fd | done |]); [done | by destruct s].
Qed.

Lemma priorities_cons p l n : priorities n (p :: l) = (if (p =? 0)%N then wrap 16 n else p) :: priorities (next_free [p] n) l.
Proof. by destruct p. Qed.

Lemma next_free_app l l' n : next_free (l ++ l') n = next_free l' (next_free l n).
Proof. apply fold_left_app. Qed.

Lemma send_flows_spec flows : ∀ s, Forall (λ j, ∃ fd, readFlowFromConfig (object_items j) = Ok fd) flows →
  ∃ fms, send_flows s flows = (fms, with_prio s (next_free (map asks flows) (start_prio s)), None) ∧
    map priority fms = priorities (start_prio s) (map asks flows) ∧ Forall2 (flow_sent s) flows fms.
Proof.
  induction flows as [|j flows IH]; intros s H; [exists []; split_and!; [by destruct s | done | constructor] |].
  inversion H as [|? ? [fd Efd] Hf]; subst. destruct (form_spec s j fd Efd) as (H1 & H2 & H3). cbn [send_flows]. rewrite Efd.
  destruct (formFlowMod s fd) as [fm s1]. cbn [fst snd] in *. subst s1.
  destruct (IH (with_prio s (next_free [asks j] (start_prio s))) Hf) as (fms & E & Hp & Hs). rewrite E. cbn [start_prio with_prio] in *.
  exists (fm :: fms). cbn [map]. rewrite priorities_cons, Hp, H2. split_and!; [done | done | constructor; [done |]].
  eapply Forall2_impl; [exact Hs |]. done.
Qed.

Lemma priorities_app l l' : ∀ n, priorities n (l ++ l') = priorities n l ++ priorities (next_free l n) l'.
Proof. induction l as [|p l IH]; intros n; [done |]. cbn [app]. by rewrite !priorities_cons, IH. Qed.

(** The flows of the configuration for a switch. *)
Definition configured (s : pusher) (d : N) : list json := flows_for s (lit "all") ++ flows_for s (idstr d).

(** ** Properties *)

(** flows of the configuration.  When a switch comes up and its flows can be
    read, it is sent exactly those for all switches and then its own, each as
    an addition to the table with the match and the actions it says; each has
    the priority it asks for, and those that ask for none one after the other
    the next free ones. *)
Theorem static_flows_sent (s : pusher) (d : N) :
  Forall (λ j, ∃ fd, readFlowFromConfig (object_items j) = Ok fd) (configured s d) →
  ∃ fms, onSwitchUp s d = (fms, with_prio s (next_free (map asks (configured s d)) (start_prio s)), None) ∧
    Forall2 (flow_sent s) (configured s d) fms ∧ map priority fms = priorities (start_prio s) (map asks (configured s d)).
Proof.
  unfold configured. intros [H1 H2]%Forall_app. unfold onSwitchUp. destruct (send_flows_spec _ s H1) as (fms & E & Hp & Hs).
  rewrite E. set (s1 := with_prio s _). destruct (send_flows_spec (flows_for s (idstr d)) s1 H2) as (fms' & E' & Hp' & Hs').
  change (flows_for s1 (idstr d)) with (flows_for s (idstr d)). rewrite E'. exists (fms ++ fms').
  rewrite !map_app, next_free_app, priorities_app, Hp, Hp'. split_and!; [done | by apply Forall2_app | done].
Qed.

(** prerequisites.  A match on an IPv4 address comes with the type of IPv4. *)
Theorem static_match_needs (fd : flow_desc) : has_needs (match_of fd).
Proof.
  intros x g n Hx Hg.
  assert (Hip : has_ip (fd_ip_src fd) || has_ip (fd_ip_dst fd) = true → num eth_type ipv4 ∈ match_of fd).
  { intros Hip. unfold match_of. rewrite !elem_of_app. do 5 right. unfold final_eth_type. rewrite Hip. cbn. by left. }
  unfold match_of in Hx. rewrite !elem_of_app in Hx. unfold when in Hx.
  repeat (match type of Hx with _ ∨ _ => destruct Hx as [Hx | Hx] end);
    match type of Hx with x ∈ (if ?b then _ else _) => destruct b eqn:Eb; [| by apply not_elem_of_nil in Hx] end;
    apply list_elem_of_singleton in Hx as ->; cbn in Hg; try (by apply not_elem_of_nil in Hg);
    apply list_elem_of_singleton in Hg as [= -> ->]; apply Hip; by rewrite ?Eb, ?orb_true_r.
Qed.

(** the free priorities are 16 bits of a counter that is never set back, not
    even when a switch comes up again: after 65535 of them a flow gets 0, below
    all others. *)
Theorem free_priority_wraps (s : pusher) (fd : flow_desc) :
  start_prio s = 65536%N → fd_priority fd = 0%N → priority (fst (formFlowMod s fd)) = 0%N.
Proof. intros Hs Hp. unfold formFlowMod. by rewrite Hp, Hs. Qed.
End Pusher.

(** ** A configuration with flows for all switches and for one *)

Definition static_flow (port out : Z) (l : object) : json :=
  JObject ([(lit "in_port", JNumber port); (lit "out_port", JNumber out)] ++ l).

Definition static_config : object :=
  [(lit "flows", JArray
     [JObject [(lit "dpid", JString (lit "all")); (lit "flows", JArray [static_flow 1 2 [(lit "ip_dst", JString (lit "10.0.0.1"))]])];
      JObject [(lit "dpid", JString (lit "000000000000000a"));
               (lit "flows", JArray [static_flow 3 4 [(lit "priority", JNumber 7)]; static_flow 5 6 []])]])].

(** An address that is no zero is the one without text. *)
#[local] Instance zero_addresses : Addresses str N := {|
  eth_of_string := id;
  eth_to_string := id;
  ip_of_string s := if decide (s = lit "10.0.0.1") then Some 1%N else if decide (s = lit "0.0.0.0") then Some 0%N else None;
  getIPv4 := id
|}.

Definition blank_flow_mod : flow_mod (eth := str) (ip := N) := FlowMod OFPFC_ADD 0 0 0 0 0 0 0 0 0 0 [] [].

Definition sample_pusher : pusher := match init static_config 1 with Ok s => s | Throw _ => Pusher [] 0 0 end.

Lemma static_flows_sent_witness : ∃ fms s', onSwitchUp 0 blank_flow_mod sample_pusher 10 = (fms, s', None) ∧
  map (λ fm, (priority fm, map field (oxm_fields fm))) fms = [(1, [in_port; ipv4_dst; eth_type]); (7, [in_port]); (2, [in_port])]%N.
Proof.
  destruct (static_flows_sent 0 blank_flow_mod sample_pusher 10) as (fms & E & _).
  - let l := eval vm_compute in (configured sample_pusher 10) in change (configured sample_pusher 10) with l.
    repeat apply Forall_cons_2; [eexists; vm_compute; reflexivity .. | apply Forall_nil_2].
  - exists fms. eexists. split; [exact E |]. vm_compute in E. injection E as <-. vm_compute. reflexivity.
Defined.
