(* ===== verification/Stats.v ===== *)
(** * Stats: the statistics of ports, Stats.hh and .cc

    The application asks every switch for its port statistics now and then,
    keeps the last of each port, and answers for them over the REST interface.
    A map for every switch is indexed by the number of the port as an int; an
    answer looks it up with [operator[]], which makes what is not there.

    What is kept is what was last reported ([stats_latest]), with ports of
    zeros where somebody asked for others ([phantom_port]); the switches that
    are polled are known, and their replies are kept ([polled_are_known]). *)

From stdpp Require Import list.
From S2P Require Import Prelude Regex RestJson SwitchManager.

(** The number of a port as an int. *)
Definition int_of (n : N) : Z := if (n <? 2 ^ 31)%N then Z.of_N n else (Z.of_N n - 2 ^ 32)%Z.

(** [to_json] of a port, and of several. *)
Definition port_json (x : port_stats) : json := JObject (map (λ y, (fst y, JString (number_text 10 (snd y x)))) port_numbers).

(** The statistics of a switch; of all. *)
Abbreviation switch_ports := (gmap Z port_stats).
Abbreviation all_stats := (gmap N switch_ports).

(** [newSwitch] *)
Definition newSwitch (s : all_stats) (d : N) : all_stats :=
  match s !! d with Some _ => s | None => <[d := ∅]> s end.

(** A reply of switch [d], or a message that is none. *)
Inductive stats_reply : Type := PortStatsReply (l : list port_stats) | NoReply.

(** The loop of [portStatsArrived]: what is there of a port is written over. *)
Fixpoint store (s : all_stats) (d : N) (l : list port_stats) : res all_stats :=
  match l with
  | [] => Ok s
  | i :: l =>
      match s !! d with
      | None => Throw StdOutOfRange
      | Some ps => store (<[d := <[int_of (ps_port_no i) := i]> ps]> s) d l
      end
  end.

Definition portStatsArrived (s : all_stats) (d : N) (r : stats_reply) : res all_stats :=
  match r with PortStatsReply l => store s d l | NoReply => Ok s end.

(** The switches [pollTimeout] sends a request to, for all their ports. *)
Definition pollTimeout (s : all_stats) (alive : N → bool) (m : switch_manager) : list N :=
  filter (λ d, is_Some (s !! d)) (switches alive m).

(** [params[2]]: all, or what [atoi] reads. *)
Inductive ports_asked : Type := AllPorts | OnePort (n : Z).

(** [no_port]: the PortStats of libfluid that nobody has set. *)
Definition handleGET (no_port : port_stats) (s : all_stats) (d : N) (q : ports_asked) : object * all_stats :=
  let ps := default ∅ (s !! d) in
  let answer l := [(number_text 10 d, JArray (map port_json l))] in
  match q with
  | AllPorts => (answer (map snd (map_to_list ps)), <[d := ps]> s)
  | OnePort n => let x := default no_port (ps !! n) in (answer [x], <[d := <[n := x]> ps]> s)
  end.

(** ** What happens to the application *)

Inductive stats_event : Type :=
| Discovered (d : N)
| Arrived (d : N) (r : stats_reply)
| Asked (d : N) (q : ports_asked).

Section Stats.
Context (no_port : port_stats).

Definition stats_step (s : all_stats) (e : stats_event) : res all_stats :=
  match e with
  | Discovered d => Ok (newSwitch s d)
  | Arrived d r => portStatsArrived s d r
  | Asked d q => Ok (snd (handleGET no_port s d q))
  end.

Fixpoint stats_run (s : all_stats) (es : list stats_event) : res all_stats :=
  match es with [] => Ok s | e :: es => s' ← stats_step s e; stats_run s' es end.

(** The statistics of a port of a switch. *)
Definition kept (s : all_stats) (d : N) (n : Z) : option port_stats := ps ← s !! d; ps !! n.

(** The last that was reported of a port: of a list, of an event, of all. *)
Definition later (old : option port_stats) (n : Z) (i : port_stats) : option port_stats :=
  if decide (int_of (ps_port_no i) = n) then Some i else old.

Definition reported (d : N) (n : Z) (old : option port_stats) (e : stats_event) : option port_stats :=
  match e with
  | Arrived d' (PortStatsReply l) => if decide (d' = d) then fold_left (λ o i, later o n i) l old else old
  | _ => old
  end.

(** A port that nobody has reported and somebody has asked for. *)
Definition asked_for (d : N) (n : Z) (e : stats_event) : Prop := e = Asked d (OnePort n).

(** Replies come from switches that were discovered. *)
Fixpoint in_time (known : gset N) (es : list stats_event) : Prop :=
  match es with
  | [] => True
  | Discovered d :: es => in_time ({[d]} ∪ known) es
  | Arrived d (PortStatsReply _) :: es => d ∈ known ∧ in_time known es
  | _ :: es => in_time known es
  end.

(** What is kept of a port, when [old] was last reported and [asked] says that
    somebody asked for it. *)
Definition entry_ok (old : option port_stats) (asked : Prop) (x : option port_stats) : Prop :=
  x = old ∨ old = None ∧ asked ∧ x = Some no_port.

Lemma kept_insert s d ps d' n : kept (<[d := ps]> s) d' n = if decide (d = d') then ps !! n else kept s d' n.
Proof. unfold kept. destruct (decide (d = d')) as [-> | Hne]; [by rewrite lookup_insert_eq | by rewrite lookup_insert_ne]. Qed.

Lemma kept_new s d d' n : kept (newSwitch s d) d' n = kept s d' n.
Proof.
  unfold newSwitch. destruct (s !! d) eqn:E; [done |]. rewrite kept_insert. destruct (decide (d = d')) as [<- |]; [| done].
  unfold kept. by rewrite E, lookup_empty.
Qed.

Lemma store_ok l d : ∀ s, is_Some (s !! d) →
  ∃ s', store s d l = Ok s' ∧ dom s' = dom s ∧
    ∀ d' n, kept s' d' n = if decide (d = d') then fold_left (λ o i, later o n i) l (kept s d' n) else kept s d' n.
Proof.
  induction l as [|i l IH]; intros s Hs; [exists s; split_and!; [done | done |]; intros; by destruct (decide _) |].
  destruct Hs as [ps Hs]. cbn [store]. rewrite Hs.
  destruct (IH (<[d := <[int_of (ps_port_no i) := i]> ps]> s)) as (s' & E & Hd & Hk); [by rewrite lookup_insert_eq |].
  exists s'. split_and!; [done | |].
  - rewrite Hd, dom_insert_L. apply elem_of_dom_2 in Hs. set_solver.
  - intros d' n. rewrite Hk, kept_insert. destruct (decide (d = d')) as [<- |]; [| done]. cbn [fold_left]. f_equal.
    unfold later, kept. rewrite Hs. cbn. destruct (decide (int_of _ = n)) as [<- |]; [by rewrite lookup_insert_eq | by rewrite lookup_insert_ne].
Qed.

(** A list of reports says the same of a port whatever was reported before, or nothing. *)
Lemma later_fold l n :
  (∀ o, fold_left (λ o i, later o n i) l o = o) ∨ ∃ i, ∀ o, fold_left (λ o i, later o n i) l o = Some i.
Proof.
  induction l as [|x l [IH | [i IH]]]; [by left | | right; exists i; intros o; apply IH]. cbn [fold_left]. unfold later at 2 4.
  destruct (decide (int_of (ps_port_no x) = n)); [right; exists x | left]; intros o; apply IH.
Qed.

(** One event: the entries, and the switches there are. *)
Lemma step_ok s e (known : gset N) (old : N → Z → option port_stats) (asked : N → Z → Prop) :
  known ⊆ dom s → in_time known [e] → (∀ d n, entry_ok (old d n) (asked d n) (kept s d n)) →
  ∃ s', stats_step s e = Ok s' ∧ (match e with Discovered d => {[d]} ∪ known | _ => known end) ⊆ dom s' ∧
    ∀ d n, entry_ok (reported d n (old d n) e) (asked d n ∨ asked_for d n e) (kept s' d n).
Proof.
  intros Hd Ht Hk. destruct e as [d | d [l |] | d q]; cbn [stats_step portStatsArrived reported in_time] in *.
  - exists (newSwitch s d). split_and!; [done | |].
    + unfold newSwitch. destruct (s !! d) eqn:E; [apply elem_of_dom_2 in E; set_solver | rewrite dom_insert_L; set_solver].
    + intros d' n. rewrite kept_new. destruct (Hk d' n) as [-> | (H1 & H2 & H3)]; [by left | right; auto].
  - destruct Ht as [Ht _]. destruct (store_ok l d s) as (s' & E & Hs' & Hk'); [apply elem_of_dom; set_solver |].
    exists s'. split_and!; [done | by rewrite Hs' |]. intros d' n. rewrite Hk'. destruct (Hk d' n) as [-> | (H1 & H2 & H3)].
    + left. by destruct (decide (d = d')).
    + destruct (decide (d = d')); [| right; auto]. rewrite H1, H3. unfold entry_ok.
      destruct (later_fold l n) as [E' | [i E']]; rewrite !E'; [right; auto | by left].
  - exists s. split_and!; [done | done |]. intros d' n. destruct (Hk d' n) as [-> | (H1 & H2 & H3)]; [by left | right; auto].
  - unfold handleGET. destruct q as [| p]; cbn [snd]; eexists; (split_and!; [done | rewrite dom_insert_L; set_solver |]); intros d' n; rewrite kept_insert.
    + assert (E : (if decide (d = d') then default ∅ (s !! d) !! n else kept s d' n) = kept s d' n).
      { destruct (decide (d = d')) as [<- |]; [| done]. unfold kept. by destruct (s !! d). }
      rewrite E. destruct (Hk d' n) as [-> | (H1 & H2 & H3)]; [by left | right; auto].
    + destruct (decide (d = d')) as [<- |].
      2: destruct (Hk d' n) as [-> | (H1 & H2 & H3)]; [by left | right; auto].
      assert (E : default ∅ (s !! d) !! n = kept s d n) by (unfold kept; by destruct (s !! d)).
      assert (E' : default ∅ (s !! d) !! p = kept s d p) by (unfold kept; by destruct (s !! d)). rewrite E'.
      destruct (decide (p = n)) as [-> |]; [rewrite lookup_insert_eq | rewrite lookup_insert_ne, E by done].
      * destruct (Hk d n) as [H1 | (H1 & H2 & H3)]; [| right; rewrite H3; auto].
        rewrite H1. destruct (old d n); [by left | right; unfold asked_for; auto].
      * destruct (Hk d n) as [-> | (H1 & H2 & H3)]; [by left | right; auto].
Qed.

Lemma stats_run_ok es : ∀ s (known : gset N) (old : N → Z → option port_stats) (asked : N → Z → Prop),
  known ⊆ dom s → in_time known es → (∀ d n, entry_ok (old d n) (asked d n) (kept s d n)) →
  ∃ s', stats_run s es = Ok s' ∧
    ∀ d n, entry_ok (fold_left (reported d n) es (old d n)) (asked d n ∨ Exists (asked_for d n) es) (kept s' d n).
Proof.
  induction es as [|e es IH]; intros s known old asked Hd Ht Hk.
  - exists s. split; [done |]. intros d n. destruct (Hk d n) as [-> | (H1 & H2 & H3)]; [by left | right; auto].
  - destruct (step_ok s e known old asked) as (s1 & E1 & Hd1 & Hk1); [done | by destruct e as [| ? [] |]; cbn in *; intuition | done |].
    destruct (IH s1 _ (λ d n, reported d n (old d n) e) (λ d n, asked d n ∨ asked_for d n e) Hd1) as (s' & E' & Hk'); [| done |].
    { by destruct e as [| ? [] |]; cbn in *; intuition. }
    exists s'. cbn [stats_run]. rewrite E1. split; [done |]. intros d n. cbn [fold_left].
    destruct (Hk' d n) as [-> | (H1 & H2 & H3)]; [by left | right; split_and!; [done | | done]].
    rewrite Exists_cons. intuition.
Qed.

(** ** Properties *)

(** the last statistics.  When replies come from switches that were discovered
    there is no exception, and of each port what its switch last reported is
    kept; nothing else is, but zeros for a port that nobody has reported and
    somebody has asked for. *)
Theorem stats_latest (es : list stats_event) :
  in_time ∅ es →
  ∃ s, stats_run ∅ es = Ok s ∧
    ∀ d n, let last := fold_left (reported d n) es None in
      kept s d n = last ∨ last = None ∧ Exists (asked_for d n) es ∧ kept s d n = Some no_port.
Proof.
  intros Ht. destruct (stats_run_ok es ∅ ∅ (λ _ _, None) (λ _ _, False)) as (s & E & Hk); [done | done | by left |].
  exists s. split; [done |]. intros d n. destruct (Hk d n) as [-> | (H1 & [[] | H2] & H3)]; [by left | right; auto].
Qed.

(** a port that is asked for.  The answer for a port that the switch has not is
    one of zeros, and from then on it is listed among the ports of the switch. *)
Theorem phantom_port (s : all_stats) (d : N) (n : Z) :
  kept s d n = None →
  let '(answer, s') := handleGET no_port s d (OnePort n) in
  answer = [(number_text 10 d, JArray [port_json no_port])] ∧
  ∃ ports, fst (handleGET no_port s' d AllPorts) = [(number_text 10 d, JArray (map port_json ports))] ∧ no_port ∈ ports.
Proof.
  intros Hn. unfold handleGET. assert (E : default ∅ (s !! d) !! n = None) by (unfold kept in Hn; by destruct (s !! d)).
  rewrite E. cbn [default from_option]. split; [done |]. eexists. split; [done |]. rewrite lookup_insert_eq. cbn.
  apply list_elem_of_fmap. exists (n, no_port). split; [done |]. apply elem_of_map_to_list. apply lookup_insert_eq.
Qed.
End Stats.

(** ** With the switch manager *)

Definition hear_discovered (s : all_stats) (n : notice) : all_stats :=
  match n with SwitchDiscovered d => newSwitch s d | _ => s end.

Lemma newSwitch_dom s d : dom (newSwitch s d) = {[d]} ∪ dom s.
Proof. unfold newSwitch. destruct (s !! d) eqn:E; [apply elem_of_dom_2 in E; set_solver | apply dom_insert_L]. Qed.

Lemma hear_known ns : ∀ s, dom (fold_left hear_discovered ns s) = dom s ∪ list_to_set (discovered ns).
Proof.
  induction ns as [|n ns IH]; intros s; [cbn; set_solver |]. cbn [fold_left]. rewrite IH.
  destruct n; cbn [hear_discovered discovered]; try done. rewrite newSwitch_dom. cbn. set_solver.
Qed.

(** switches that are polled are known.  A manager whose signals the
    application hears has no switch that it does not know: each switch whose
    connection is alive is asked, and its reply is kept. *)
Theorem polled_are_known (es : list manager_event) (m : switch_manager) (ns : list notice) (alive : N → bool) :
  manage_all ∅ es = Ok (m, ns) →
  let s := fold_left hear_discovered ns ∅ in
  pollTimeout s alive m = switches alive m ∧
  ∀ d l, d ∈ switches alive m → ∃ s', portStatsArrived s d (PortStatsReply l) = Ok s'.
Proof.
  intros E s. assert (Hd : dom m ⊆ dom s).
  { destruct (manage_all_discovers es _ _ _ E) as (D & _). subst s. by rewrite hear_known, D, !dom_empty_L. }
  assert (Hk : ∀ d, d ∈ switches alive m → is_Some (s !! d)).
  { intros d H. apply elem_of_dom, Hd. by eapply switches_in. }
  split.
  - unfold pollTimeout. revert Hk. clear. generalize (switches alive m). induction l as [|d l IH]; intros Hk; [done |].
    rewrite filter_cons_True by (apply Hk; by left). f_equal. apply IH. intros d' H. apply Hk. by right.
  - intros d l H. destruct (store_ok l d s (Hk d H)) as (s' & E' & _). by exists s'.
Qed.
