(* ===== verification/WebUIManager.v ===== *)
(** * WebUIManager: the objects of the web interface, WebUIManager.hh and .cc

    Switches and hosts that are discovered become objects with a place and a
    name, which requests may change.  Objects are pointers that only the
    manager has, and are never removed: a list of records.  Integers of JSON
    are those of an int.

    There is one object for every switch that ever came up ([web_switches]);
    what is put is what is got ([web_put_get]); a request for an object there
    is not follows a null pointer ([web_put_unknown]). *)

From stdpp Require Import list.
From S2P Require Import Prelude Regex RestJson SwitchManager HostManager.

Record web_object : Type := WebObject { web_id : N; x_coord : Z; y_coord : Z; icon : str; display_name : str }.

(** [lexical_cast] of an id *)
Definition new_object (id : N) (is_router : bool) : web_object :=
  WebObject id (-1) (-1) (if is_router then lit "router" else lit "aimac") (number_text 10 id).

Definition newSwitch (objects : list web_object) (d : N) : list web_object := objects ++ [new_object d true].

Definition named (name : str) (o : web_object) : web_object := WebObject (web_id o) (x_coord o) (y_coord o) (icon o) name.
Definition placed (x y : Z) (o : web_object) : web_object := WebObject (web_id o) x y (icon o) (display_name o).

Definition newHost (objects : list web_object) (h : host) : list web_object :=
  objects ++ [named (h_mac h) (new_object (host_id h) false)].

(** The first object with an id. *)
Fixpoint getObject (objects : list web_object) (id : N) : option web_object :=
  match objects with [] => None | o :: l => if (web_id o =? id)%N then Some o else getObject l id end.

(** What its setters change. *)
Fixpoint update_object (objects : list web_object) (id : N) (f : web_object → web_object) : list web_object :=
  match objects with [] => [] | o :: l => if (web_id o =? id)%N then f o :: l else o :: update_object l id f end.

Definition object_json (o : web_object) : json :=
  JObject [(lit "ID", JString (number_text 10 (web_id o))); (lit "x_coord", JNumber (x_coord o)); (lit "y_coord", JNumber (y_coord o));
           (lit "icon", JString (icon o)); (lit "display_name", JString (display_name o))].

(** [params[1]]: all, or what [stoull] reads. *)
Inductive web_query : Type := AllObjects | OneObject (id : N).

(** What is answered: objects, or one of its texts. *)
Inductive web_answer : Type := Shown (j : json) | Empty | ObjectNotFound | Changed | Nothing.

Definition handleGET (objects : list web_object) (q : web_query) : web_answer :=
  match q with
  | AllObjects => match objects with [] => Empty | _ => Shown (JArray (map object_json objects)) end
  | OneObject id => match getObject objects id with Some o => Shown (object_json o) | None => ObjectNotFound end
  end.

(** [coords[key].number_value()], [jname["name"].string_value()] *)
Definition number_of (o : object) (key : str) : Z := match find_key o key with Some (JNumber z) => z | _ => 0%Z end.
Definition string_of (o : object) (key : str) : str := from_option string_value [] (find_key o key).

(** [params[0]] *)
Inductive web_put_kind : Type := Coord | Name | OtherPut.

(** [handlePUT]: the answer and the objects after it; a setter of a null
    pointer ends the process. *)
Definition handlePUT (objects : list web_object) (k : web_put_kind) (id : N) (parsed : json * str) : res (web_answer * list web_object) :=
  let change f :=
    match snd parsed with
    | [] =>
        match getObject objects id with
        | Some _ => Ok (Changed, update_object objects id (f (object_items (fst parsed))))
        | None => Throw Terminate
        end
    | _ => Ok (Nothing, objects)
    end in
  match k with
  | Coord => change (λ o, placed (number_of o (lit "x_coord")) (number_of o (lit "y_coord")))
  | Name => change (λ o, named (string_of o (lit "name")))
  | OtherPut => Ok (Nothing, objects)
  end.

(** ** Lemmas *)

Lemma update_ids objects id f : (∀ o, web_id (f o) = web_id o) → map web_id (update_object objects id f) = map web_id objects.
Proof.
  intros Hf. induction objects as [|o l IH]; [done |]. cbn. destruct (web_id o =? id)%N; cbn; [by rewrite Hf | by rewrite IH].
Qed.

Lemma get_update objects id id' f :
  (∀ o, web_id (f o) = web_id o) →
  getObject (update_object objects id f) id' = (if decide (id = id') then f <$> getObject objects id' else getObject objects id').
Proof.
  intros Hf. induction objects as [|o l IH]; cbn [update_object getObject]; [by destruct (decide _) |].
  destruct (N.eqb_spec (web_id o) id) as [<- | Hne]; cbn [getObject].
  - rewrite Hf. destruct (N.eqb_spec (web_id o) id') as [<- | Hne']; [by rewrite decide_True by done | by rewrite decide_False].
  - destruct (N.eqb_spec (web_id o) id') as [<- | Hne']; [by rewrite decide_False by congruence | apply IH].
Qed.

(** The objects after signals of the switch manager. *)
Definition web_hears (objects : list web_object) (n : notice) : list web_object :=
  match n with SwitchDiscovered d => newSwitch objects d | _ => objects end.

Lemma web_heard ns : ∀ objects, fold_left web_hears ns objects = objects ++ map (λ d, new_object d true) (discovered ns).
Proof.
  induction ns as [|n ns IH]; intros objects; [by rewrite app_nil_r |]. cbn [fold_left]. rewrite IH.
  destruct n; cbn [web_hears discovered]; try done. unfold newSwitch. by rewrite <- app_assoc.
Qed.

(** ** Properties *)

(** one object per switch.  After any events of the switch manager there is
    exactly one object for every switch that it knows, found by its number,
    however often the switch went and came. *)
Theorem web_switches (es : list manager_event) (m : switch_manager) (ns : list notice) :
  manage_all ∅ es = Ok (m, ns) →
  let objects := fold_left web_hears ns [] in
  NoDup (map web_id objects) ∧ (∀ d, d ∈ map web_id objects ↔ d ∈ dom m) ∧
  ∀ d, d ∈ dom m → handleGET objects (OneObject d) = Shown (object_json (new_object d true)).
Proof.
  intros E objects. destruct (manage_all_discovers es _ _ _ E) as (D & Hnd & _). rewrite dom_empty_L, union_empty_l_L in D.
  subst objects. rewrite web_heard, app_nil_l.
  assert (Ei : map web_id (map (λ d, new_object d true) (discovered ns)) = discovered ns) by (rewrite map_map; apply map_id).
  rewrite Ei. split_and!; [done | |].
  - intros d. rewrite D. by rewrite elem_of_list_to_set.
  - intros d Hd. cbn [handleGET]. rewrite D, elem_of_list_to_set in Hd. clear -Hd. induction (discovered ns) as [|d' l IH]; [by apply not_elem_of_nil in Hd |].
    cbn. destruct (N.eqb_spec d' d) as [-> |]; [done |]. apply elem_of_cons in Hd as [-> | Hd]; [done | by apply IH].
Qed.

(** what is put is what is got.  A request that names an object changes it and
    no other. *)
Theorem web_put_get (objects : list web_object) (id : N) (x y : Z) (o : web_object) (body : object) :
  getObject objects id = Some o → number_of body (lit "x_coord") = x → number_of body (lit "y_coord") = y →
  ∃ objects', handlePUT objects Coord id (JObject body, []) = Ok (Changed, objects') ∧
    handleGET objects' (OneObject id) = Shown (object_json (placed x y o)) ∧
    map web_id objects' = map web_id objects ∧
    ∀ id', id' ≠ id → handleGET objects' (OneObject id') = handleGET objects (OneObject id').
Proof.
  intros Ho <- <-. unfold handlePUT. cbn [snd fst object_items]. rewrite Ho. eexists. split; [done |]. cbn [handleGET].
  split_and!; [| by apply update_ids |].
  - by rewrite get_update, decide_True, Ho by done.
  - intros id' Hne. by rewrite get_update, decide_False by congruence || done.
Qed.

(** an object there is not.  A place for one ends the process. *)
Theorem web_put_unknown (objects : list web_object) (id : N) (body : json) :
  getObject objects id = None → handlePUT objects Coord id (body, []) = Throw Terminate.
Proof. intros Ho. unfold handlePUT. cbn. by rewrite Ho. Qed.
