(* ===== verification/MapleHandlers.v ===== *)
(** * MapleHandlers: the small applications of maple, SimpleLearningSwitch.cc,
      CBench.cc, DropAll.cc and NoMapleRules.cc

    Each registers a handler of packets that miss.  The one of
    SimpleLearningSwitch keeps the port where a switch last saw an address; it
    changes before the decision may throw, so the result is the state and the
    outcome.  An unknown address is flooded by the group of STP.

    The switch forwards to where an address was last seen
    ([simple_switch_forwards]), but as it only watches the port it sees no host
    that moved ([moved_source_unseen]); after [no_maple_rules] no rule is
    installed, whatever other handlers do ([no_maple_rules_holds]). *)

From S2P Require Import Prelude Bits EthAddr Oxm FieldSet Packet Policy Valuation Tracer Decision MapleFlow LearningSwitch.

(** [STP::Decision]: the group for floods, the same on all switches. *)
Definition stp_decision : custom_body := CustomBody (λ _, [OtherAction 0xf100d]) [] [].

(** [seen_port]: a map for every switch. *)
Abbreviation ports_seen := (gmap N (gmap N N)).

Section Handlers.
Context {H P : Type} `{PacketOps P}.
(** [TraceablePacket::watch] *)
Context (watch : P → mask → res (field * P)).

Definition drop_all (d : decision H custom_body) : decision H custom_body := drop d.

Definition no_maple_rules (d : decision H custom_body) : decision H custom_body := set_hard_timeout d 0.

Definition cbench (pkt : P) (d : decision H custom_body) : res (decision H custom_body * P) :=
  '(dst, pkt) ← typed pkt_load pkt eth_dst;
  octets ← to_octets (Bits EthAddr.nbits dst);
  d ← unicast d (nth 5 octets 0 mod 3)%N;
  Ok (set_return d, pkt).

Definition port_of (s : ports_seen) (sw mac : N) : option N := m ← s !! sw; m !! mac.

(** [seen_port[dpid][src_mac] = in_port] *)
Definition see (s : ports_seen) (sw mac port : N) : ports_seen := <[sw := <[mac := port]> (default ∅ (s !! sw))]> s.

(** What it reads at first. *)
Definition addresses (pkt : P) : res (N * N * N * P) :=
  '(sw, pkt) ← typed pkt_load pkt switch_id;
  '(src, pkt) ← typed pkt_load pkt eth_src;
  '(dst, pkt) ← typed pkt_load pkt eth_dst;
  Ok (sw, src, dst, pkt).

(** The decision for a packet to [dst], 30 minutes being 1800 seconds. *)
Definition towards (s : ports_seen) (sw dst : N) (d : decision H custom_body) : res (decision H custom_body) :=
  match port_of s sw dst with
  | Some port => d ← unicast d port; Ok (set_hard_timeout (set_idle_timeout d 60) 1800)
  | None => d ← custom d stp_decision; Ok (if is_broadcast (Bits EthAddr.nbits dst) then d else set_idle_timeout d 0)
  end.

Definition simple_switch (s : ports_seen) (pkt : P) (d : decision H custom_body) : ports_seen * res (decision H custom_body * P) :=
  match addresses pkt with
  | Throw e => (s, Throw e)
  | Ok (sw, src, dst, pkt) =>
      if is_broadcast (Bits EthAddr.nbits src) then (s, Ok (set_return (drop d), pkt))
      else
        match typed watch pkt Oxm.in_port with
        | Throw e => (s, Throw e)
        | Ok (port, pkt) => let s := see s sw src port in (s, d ← towards s sw dst d; Ok (d, pkt))
        end
  end.
End Handlers.

(** ** The ports that are seen *)

Lemma port_of_see s sw mac port sw' mac' :
  port_of (see s sw mac port) sw' mac' = if (sw =? sw')%N && (mac =? mac')%N then Some port else port_of s sw' mac'.
Proof.
  unfold port_of, see. destruct (N.eqb_spec sw sw') as [-> | Hs]; cbn [andb]; [| by rewrite lookup_insert_ne].
  rewrite lookup_insert_eq. cbn. destruct (N.eqb_spec mac mac') as [-> | Hm]; [by rewrite lookup_insert_eq |].
  rewrite lookup_insert_ne by done. by destruct (s !! sw').
Qed.

(** A packet the handler can read. *)
Definition readable (v : vpacket) : Prop :=
  full v ∧ Forall (λ t, (vview v t < 2 ^ Oxm.nbits t)%N) [switch_id; eth_src; eth_dst; Oxm.in_port].

Section OnPackets.
Context {H : Type}.

Definition handled (s : ports_seen) (v : vpacket) (d : decision H custom_body) : ports_seen * res (decision H custom_body * vpacket) :=
  simple_switch pkt_load s v d.

Lemma addresses_ok v : readable v → addresses v = Ok (vview v switch_id, vview v eth_src, vview v eth_dst, v).
Proof.
  intros [Hv Hw]. rewrite !Forall_cons_iff in Hw. destruct Hw as (H1 & H2 & H3 & _). unfold addresses.
  rewrite (typed_ok v switch_id) by done. cbn [mbind res_bind]. rewrite (typed_ok v eth_src) by done. cbn [mbind res_bind].
  by rewrite (typed_ok v eth_dst) by done.
Qed.

Definition from_broadcast (v : vpacket) : bool := is_broadcast (Bits EthAddr.nbits (vview v eth_src)).

Lemma handled_eq s v d : readable v →
  handled s v d =
  if from_broadcast v then (s, Ok (set_return (drop d), v))
  else let s := see s (vview v switch_id) (vview v eth_src) (vview v Oxm.in_port) in
       (s, d ← towards s (vview v switch_id) (vview v eth_dst) d; Ok (d, v)).
Proof.
  intros Hv. unfold handled, simple_switch, from_broadcast. rewrite (addresses_ok v Hv). destruct (is_broadcast _); [done |].
  destruct Hv as [Hf Hw]. rewrite !Forall_cons_iff in Hw. by rewrite (typed_ok v Oxm.in_port) by apply Hw || done.
Qed.

(** The packets of a run, each with the decision of the handlers before. *)
Definition run_packets (l : list (vpacket * decision H custom_body)) : ports_seen := fold_left (λ s x, fst (handled s (fst x) (snd x))) l ∅.

(** Where a switch last had a packet from an address. *)
Definition sent_by (sw mac : N) (v : vpacket) : bool :=
  (vview v switch_id =? sw)%N && (vview v eth_src =? mac)%N && negb (from_broadcast v).

Definition last_seen (l : list vpacket) (sw mac : N) : option N :=
  fold_left (λ o v, if sent_by sw mac v then Some (vview v Oxm.in_port) else o) l None.

Lemma last_seen_snoc l v sw mac :
  last_seen (l ++ [v]) sw mac = if sent_by sw mac v then Some (vview v Oxm.in_port) else last_seen l sw mac.
Proof. unfold last_seen. by rewrite fold_left_app. Qed.

Lemma run_packets_snoc l x : run_packets (l ++ [x]) = fst (handled (run_packets l) (fst x) (snd x)).
Proof. unfold run_packets. by rewrite fold_left_app. Qed.

Lemma remembers l sw mac :
  Forall (λ x, readable (fst x)) l → port_of (run_packets l) sw mac = last_seen (map fst l) sw mac.
Proof.
  induction l as [|[v d] l IH] using rev_ind; intros Hl; [done |].
  apply Forall_app in Hl as [Hl Hv]. rewrite Forall_singleton in Hv. cbn in Hv. specialize (IH Hl).
  rewrite map_app, run_packets_snoc. cbn [map fst snd]. rewrite last_seen_snoc, (handled_eq _ _ _ Hv). unfold sent_by.
  destruct (from_broadcast v); cbn [fst negb]; [by rewrite andb_false_r |]. by rewrite port_of_see, andb_true_r, IH.
Qed.

(** The decision of a switch that knows where everyone was last seen: for an
    address it knows the port, for a minute without packets and half an hour
    at most, else a flood, which is not kept for an address nobody has. *)
Definition reference_decision (b : base) (known : option N) (dst : N) : decision H custom_body :=
  match known with
  | Some port => Unicast (Base (return_ b) (N.min 1800 (N.min 60 (idle_timeout b))) (N.min 1800 (hard_timeout b))) port
  | None =>
      if is_broadcast (Bits EthAddr.nbits dst) then Custom b stp_decision
      else Custom (Base (return_ b) 0 (hard_timeout b)) stp_decision
  end.

(** ** Properties *)

(** the simple learning switch.  After any packets, and whatever was decided
    about them, exceptions included, the handler answers a packet nobody has
    decided about with the port where the switch last had a packet from its
    destination, this one included, else with a flood. *)
Theorem simple_switch_forwards (l : list (vpacket * decision H custom_body)) (v : vpacket) (b : base) :
  Forall (λ x, readable (fst x)) l → readable v → from_broadcast v = false →
  snd (handled (run_packets l) v (Undefined b)) =
    Ok (reference_decision b (last_seen (map fst l ++ [v]) (vview v switch_id) (vview v eth_dst)) (vview v eth_dst), v).
Proof.
  intros Hl Hv Hb. rewrite (handled_eq _ _ _ Hv), Hb. cbn [snd]. unfold towards.
  rewrite port_of_see, (remembers l _ _ Hl), last_seen_snoc. unfold sent_by. rewrite Hb, andb_true_r.
  destruct (if _ && _ then _ else _) as [port|]; [done |]. cbn. by destruct (is_broadcast _), (idle_timeout b).
Qed.
End OnPackets.

(** ** The trace of the handler *)

Lemma mask_exact_ok t : mask_exact t = Ok (Mask t (N.ones (Oxm.nbits t))).
Proof.
  unfold mask_exact, mk_mask, mask_holder. rewrite Stp.set_all_zero. cbn [bsize bval].
  rewrite N.eqb_refl. cbn [negb]. unfold all. cbn [bsize bval]. rewrite N.eqb_refl. cbn [orb negb]. by rewrite andb_false_r.
Qed.

Section Traced.
Context {H T : Type} `{TracerOps T}.

(** The same read of two packets through the proxy. *)
Lemma load_alike (v v' : vpacket) (tr : T) cache m :
  full v → full v' → fs_wf cache → rmask_wf m → vview v (m_type m) = vview v' (m_type m) →
  (∃ f tr' cache', tp_load (Traceable v tr cache) m = Ok (f, Traceable v tr' cache') ∧
     tp_load (Traceable v' tr cache) m = Ok (f, Traceable v' tr' cache') ∧ fs_wf cache') ∨
  ∃ e, tp_load (Traceable v tr cache) m = Throw e ∧ tp_load (Traceable v' tr cache) m = Throw e.
Proof.
  intros Hv Hv' Hc Hm E. rewrite !tp_load_eq by done. rewrite (full_same_bound v v' Hv Hv') by apply Hm.
  change (pview v (m_type m)) with (vview v (m_type m)). change (pview v' (m_type m)) with (vview v' (m_type m)). rewrite E.
  destruct (pbound v' (m_type m)); [| right; by eexists]. cbv zeta.
  set (u := unexp _ _ _). destruct (f_wildcard u); [left; by eexists _, _, _ |].
  destruct (tracer_load tr u) as [tr' | e]; [left; eexists _, tr', _ | right; by eexists].
  split_and!; [done | done |]. destruct (entry_facts cache (m_type m) Hc (proj1 Hm)) as (Et & Hw & _).
  apply pmodify_wf; [done | by apply unexp_wf].
Qed.

(** Two outcomes that differ in the packet alone. *)
Definition alike (v v' : vpacket) {A} (r r' : res (A * traceable vpacket T)) : Prop :=
  (∃ a tr cache, r = Ok (a, Traceable v tr cache) ∧ r' = Ok (a, Traceable v' tr cache) ∧ fs_wf cache) ∨
  ∃ e, r = Throw e ∧ r' = Throw e.

Lemma typed_alike (v v' : vpacket) (tr : T) cache t :
  full v → full v' → fs_wf cache → registered t = true → vview v t = vview v' t →
  alike v v' (typed pkt_load (Traceable v tr cache) t) (typed pkt_load (Traceable v' tr cache) t).
Proof.
  intros Hv Hv' Hc Ht E. unfold typed. rewrite mask_exact_ok. cbn [mbind res_bind].
  destruct (load_alike v v' tr cache (Mask t (N.ones (Oxm.nbits t)))) as [(f & tr' & c' & E1 & E2 & Hc') | (e & E1 & E2)];
    [done | done | done | split; [done | apply msk_ok_ones] | done | |];
    cbn [pkt_load traceable_ops]; rewrite E1, E2; cbn [mbind res_bind].
  - destruct (f_exact f); cbn; [left; by eexists _, _, _ | right; by eexists].
  - right. by eexists.
Qed.

Lemma alike_bind (v v' : vpacket) {A B : Type} (r r' : res (A * traceable vpacket T)) (k k' : A * traceable vpacket T → res (B * traceable vpacket T)) :
  alike v v' r r' → (∀ a tr cache, fs_wf cache → alike v v' (k (a, Traceable v tr cache)) (k' (a, Traceable v' tr cache))) →
  alike v v' (r ≫= k) (r' ≫= k').
Proof. intros [(a & tr & c & -> & -> & Hc) | (e & -> & ->)] Hk; [by apply Hk | right; by eexists]. Qed.

Lemma addresses_alike (v v' : vpacket) (tr : T) cache :
  full v → full v' → fs_wf cache → Forall (λ t, vview v t = vview v' t) [switch_id; eth_src; eth_dst] →
  alike v v' (addresses (Traceable v tr cache)) (addresses (Traceable v' tr cache)).
Proof.
  intros Hv Hv' Hc E. rewrite !Forall_cons_iff in E. destruct E as (E1 & E2 & E3 & _). unfold addresses.
  apply alike_bind; [by apply typed_alike | intros sw tr1 c1 H1].
  apply alike_bind; [by apply typed_alike | intros src tr2 c2 H2].
  apply alike_bind; [by apply typed_alike | intros dst tr3 c3 H3]. left. by eexists _, _, _.
Qed.

Lemma watch_trace (v : vpacket) (tr : T) cache t p' n :
  typed tp_watch (Traceable v tr cache) t = Ok (n, p') → tp_tracer p' = tr.
Proof.
  unfold typed, tp_watch. rewrite mask_exact_ok. intros E. cbn [mbind res_bind] in E.
  apply res_bind_Ok in E as ([f q] & E1 & E). apply res_bind_Ok in E1 as ([g w] & _ & E1). injection E1 as <- <-. by inv_res.
Qed.

Definition traced_switch (s : ports_seen) (v : vpacket) (tr : T) (d : decision H custom_body) :=
  simple_switch tp_watch s (Traceable v tr ∅) d.

(** What the handler reports, if it returns. *)
Definition trace_of {A P} (r : ports_seen * res (A * traceable P T)) : option T :=
  match snd r with Ok (_, p) => Some (tp_tracer p) | Throw _ => None end.

Lemma trace_of_forward {A P} (s : ports_seen) (r : res A) (q : traceable P T) t :
  trace_of (s, d ← r; Ok (d, q)) = Some t → t = tp_tracer q.
Proof. unfold trace_of. destruct r; cbn; congruence. Qed.

(** a host that moved is not seen.  Two packets that differ in the port they
    came from leave the same trace, whatever tracer there is: the tree answers
    the second as the first, and the handler, which would learn the new port,
    does not run. *)
Theorem moved_source_unseen (s s' : ports_seen) (v v' : vpacket) (tr t t' : T) (d d' : decision H custom_body) :
  full v → full v' → Forall (λ t, vview v t = vview v' t) [switch_id; eth_src; eth_dst] →
  trace_of (traced_switch s v tr d) = Some t → trace_of (traced_switch s' v' tr d') = Some t' → t = t'.
Proof.
  intros Hv Hv' E. unfold traced_switch, simple_switch.
  destruct (addresses_alike v v' tr ∅ Hv Hv' fs_wf_empty E) as [([[sw src] dst] & tr1 & c & E1 & E2 & _) | (e & E1 & E2)];
    rewrite E1, E2; [| done].
  destruct (is_broadcast _); [unfold trace_of; cbn; congruence |].
  destruct (typed tp_watch (Traceable v tr1 c) Oxm.in_port) as [[port q] | e] eqn:Ew; [| done].
  destruct (typed tp_watch (Traceable v' tr1 c) Oxm.in_port) as [[port' q'] | e'] eqn:Ew'; [| done].
  apply watch_trace in Ew, Ew'. intros ->%trace_of_forward ->%trace_of_forward. congruence.
Qed.
End Traced.

(** ** Packets without rules *)

Section NoRules.
Context {handler : Type}.

Lemma packet_out_no_rule (f f' : flow handler) dpid ms : packet_out f dpid = Ok (f', ms) → omap added ms = [].
Proof.
  unfold packet_out. intros E. apply res_bind_Ok in E as (s & _ & E). destruct (waiting s); [| by inv_res].
  apply res_bind_Ok in E as (acts & _ & E). by inv_res.
Qed.

Lemma disposable_adds (f f' : flow handler) prio m dpid ms :
  disposable f = true → send_flow f prio m dpid = Ok (f', ms) → omap added ms = [].
Proof. unfold send_flow. intros Hd E. apply res_bind_Ok in E as (s & _ & E). rewrite Hd in E. by eapply packet_out_no_rule. Qed.

(** after [no_maple_rules] packets are decided one by one.  Whatever handlers
    decide after it, installing the flow sends no rule to a switch. *)
Theorem no_maple_rules_holds (d d' : decision handler custom_body) (l : list (step handler custom_body)) (f f' : flow handler) fresh prio m dpid ms :
  run_steps l (no_maple_rules d) = Ok d' → m_decision f = d' →
  install fresh f prio m dpid = Ok (f', ms) → omap added ms = [].
Proof.
  intros E <- Ei.
  assert (Hr : refines (m_decision f) (no_maple_rules d)).
  { clear Ei. revert E. generalize (no_maple_rules d). induction l as [|s l IH]; intros x E; cbn [run_steps] in E; [by inv_res |].
    apply res_bind_Ok in E as (y & Ey & E). etrans; [by apply IH | by apply (run_step_refines s x y)]. }
  assert (Hz : idle_timeout (base_of (m_decision f)) = 0%N).
  { destruct Hr as (_ & Hi & _). unfold no_maple_rules, set_hard_timeout in Hi. rewrite base_with_base in Hi. cbn in Hi. lia. }
  unfold install, install_on in Ei. apply res_bind_Ok in Ei as (? & _ & Ei). apply res_bind_Ok in Ei as (s & _ & Ei).
  assert (Hdisp : disposable (made_known fresh f dpid) = true).
  { unfold disposable, made_known. destruct (m_switches f !! dpid); cbn; by rewrite Hz. }
  destruct (m_state (made_known fresh f dpid)), (waiting s); try (by inv_res);
    apply res_bind_Ok in Ei as ([f1 ms1] & Es & Ei); apply res_bind_Ok in Ei as (? & _ & Ei); inv_res; by eapply disposable_adds.
Qed.
End NoRules.

(** ** Hosts *)

(** the ports of cbench are those below three. *)
Theorem cbench_port (v : vpacket) (b : base) {H} :
  full v → (vview v eth_dst < 2 ^ 48)%N →
  @cbench H vpacket _ v (Undefined b) =
    Ok (Unicast (Base true (idle_timeout b) (hard_timeout b)) (vview v eth_dst mod 256 mod 3)%N, v).
Proof.
  intros Hv Hw. unfold cbench. rewrite (typed_ok v eth_dst) by done. cbn [mbind res_bind]. unfold to_octets.
  rewrite eth_to_number by (split; [done | by apply sub_ones_lt]). cbn [fmap res_fmap mbind res_bind]. rewrite eth_octets_of_div. done.
Qed.

(** A, behind port 1, and B behind port 2; then A behind port 3. *)
Definition from_to (port src dst : N) : vpacket := with_values [(switch_id, 1); (Oxm.in_port, port); (eth_src, src); (eth_dst, dst)]%N.

Definition nothing : decision unit custom_body := Undefined default_base.

Lemma readable_sample : readable (from_to 1 0xA 0xB) ∧ readable (from_to 2 0xB 0xA) ∧ readable (from_to 3 0xA 0xB).
Proof. unfold readable. split_and!; (apply full_with_values || (repeat constructor)). Qed.

Lemma simple_switch_forwards_witness :
  snd (handled (run_packets [(from_to 1 0xA 0xB, nothing)]) (from_to 2 0xB 0xA) nothing) =
    Ok (Unicast (Base false 60 1800) 1, from_to 2 0xB 0xA).
Proof.
  apply (simple_switch_forwards [(from_to 1 0xA 0xB, nothing)] (from_to 2 0xB 0xA) default_base).
  - repeat constructor; apply readable_sample.
  - apply readable_sample.
  - by vm_compute.
Defined.

Lemma moved_source_unseen_witness :
  ∃ t, trace_of (traced_switch ∅ (from_to 1 0xA 0xB) empty_trace nothing) = Some t ∧
       trace_of (traced_switch ∅ (from_to 3 0xA 0xB) empty_trace nothing) = Some t ∧ length (tr_values t) = 3%nat.
Proof.
  destruct (trace_of (traced_switch ∅ (from_to 1 0xA 0xB) empty_trace nothing)) as [t |] eqn:E; [| by vm_compute in E].
  destruct (trace_of (traced_switch ∅ (from_to 3 0xA 0xB) empty_trace nothing)) as [t' |] eqn:E'; [| by vm_compute in E'].
  exists t. assert (t = t') as ->.
  { apply (moved_source_unseen ∅ ∅ (from_to 1 0xA 0xB) (from_to 3 0xA 0xB) empty_trace t t' nothing nothing); [| | | done | done].
    - apply full_with_values.
    - apply full_with_values.
    - by repeat constructor. }
  split_and!; [done | done |]. vm_compute in E'. injection E' as <-. reflexivity.
Defined.
