(* ===== verification/CommandLine.v ===== *)
(** * CommandLine: commands of the terminal, CommandLine.cc and SwitchCli.cc

    A line is split into words; the first names a command, the others are its
    options, which boost::program_options parses.  A command is a function of
    the options and the state of the applications, what it prints and what it
    throws.  Parsing, and the text of a description of options, are parameters.

    A line of words is split into them ([split_words]) and the command that
    was first registered under a name gets its options ([first_registered],
    [command_called]).  A command that throws std::out_of_range is reported as
    unknown, under the name of its first option ([out_of_range_misreported]). *)

From S2P Require Import Prelude Regex RestJson LinkDiscovery SwitchManager.
From stdpp Require Import list.

(** ** Words *)

(** The first word, and what is behind it. *)
Fixpoint take_word (s : str) : str * str :=
  match s with
  | [] => ([], [])
  | c :: s' => if is_space c then ([], s) else let '(w, r) := take_word s' in (c :: w, r)
  end.

(** The words of a stream, at most [n]. *)
Fixpoint words (n : nat) (s : str) : list str :=
  match n with
  | O => []
  | S n => match skip_space s with [] => [] | s => let '(w, r) := take_word s in w :: words n r end
  end.

Definition split (line : str) : list str := words (length line) line.

(** ** Commands *)

(** What a command may throw: std::out_of_range, [Outside::error], another
    exception with its text, or anything else. *)
Inductive cli_exn : Type := OutOfRange | CliError (msg : str) | OtherError (what : str) | Unknown.

(** What is said about a line that failed. *)
Inductive complaint : Type := UnknownCommand (name : str) | Failed (msg : str) | UnknownError (what : option str).

Section Commands.
Context {W Opts Pos Vm : Type}.
(** [command_line_parser], [store] and [notify]; the text of options; the
    option "command-name". *)
Context (parse_args : Opts → Pos → list str → cli_exn + Vm) (opts_text : Opts → str) (command_name : Vm → option str).

Definition command : Type := Vm → W → W * list str * option cli_exn.

Record command_holder : Type := Holder { fn : command; opts : Opts; pos_opts : Pos; help : str }.

Abbreviation commands := (gmap str command_holder).

(** [emplace] *)
Definition registerCommand (cs : commands) (spec : str) (h : command_holder) : commands :=
  match cs !! spec with Some _ => cs | None => <[spec := h]> cs end.

(** The catch clauses; without words [argv[0]] is behind the vector's end. *)
Definition caught (argv : list str) (e : cli_exn) : res complaint :=
  match e with
  | OutOfRange => match argv with [] => Throw Terminate | a :: _ => Ok (UnknownCommand a) end
  | CliError msg => Ok (Failed msg)
  | OtherError what => Ok (UnknownError (Some what))
  | Unknown => Ok (UnknownError None)
  end.

(** [handle]: the state, what is printed, and the complaint if it is false. *)
Definition handle (cs : commands) (w : W) (line : str) : res (W * list str * option complaint) :=
  match split line with
  | [] => Ok (w, [], None)
  | name :: argv =>
      match cs !! name with
      | None => c ← caught (name :: argv) OutOfRange; Ok (w, [], Some c)
      | Some cmd =>
          match parse_args (opts cmd) (pos_opts cmd) argv with
          | inl e => c ← caught argv e; Ok (w, [], Some c)
          | inr vm =>
              let '(w, out, e) := fn cmd vm w in
              match e with
              | None => Ok (w, out, None)
              | Some e => c ← caught argv e; Ok (w, out, Some c)
              end
          end
      end
  end.

(** [run] on the lines that [el_gets] gives, and the history. *)
Fixpoint run (cs : commands) (w : W) (lines : list str) : res (W * list str) :=
  match lines with
  | [] => Ok (w, [])
  | line :: lines =>
      '(w, _, c) ← handle cs w line;
      '(w, hist) ← run cs w lines;
      let blank := match line with a :: _ => is_space a | [] => false end in
      Ok (w, match c with None => if blank then hist else line :: hist | Some _ => hist end)
  end.

Definition quote : ascii := ascii_of_N 34.

(** The built-in "help": the title, then the help and the options. *)
Definition help_command (cs : commands) (vm : Vm) (w : W) : W * list str * option cli_exn :=
  let name := default (lit "help") (command_name vm) in
  (w, [name ++ lit ":"; []] ++
      match cs !! name with
      | Some cmd => [help cmd; opts_text (opts cmd)]
      | None => [lit "Unknown command : " ++ name;
                 lit "Type " ++ [quote] ++ lit "commands" ++ [quote] ++ lit " for show existing commands"]
      end, None).

(** ** Lemmas *)

Lemma take_word_app w c r : forallb (λ a, negb (is_space a)) w = true → is_space c = true → take_word (w ++ c :: r) = (w, c :: r).
Proof.
  intros Hw Hc. induction w as [|a w IH]; cbn; [by rewrite Hc |]. cbn in Hw. apply andb_prop in Hw as [Ha Hw].
  destruct (is_space a); [done |]. by rewrite IH.
Qed.

Definition word (w : str) : Prop := w ≠ [] ∧ forallb (λ a, negb (is_space a)) w = true.

Lemma skip_word w r : word w → skip_space (w ++ r) = w ++ r.
Proof. intros [Hn Hw]. destruct w as [|a w]; [done |]. cbn in *. by destruct (is_space a). Qed.

(** A line: each word ended by a space. *)
Definition line_of (ws : list str) : str := concat (map (λ w, w ++ [" "%char]) ws).

Lemma words_line ws : ∀ n s, Forall word ws → length ws ≤ n → skip_space s = line_of ws → words n s = ws.
Proof.
  induction ws as [|w ws IH]; intros n s Hw Hn Hs.
  - destruct n; [done |]. cbn. by rewrite Hs.
  - inversion Hw as [|? ? H1 H2]; subst. destruct n as [|n]; [cbn in Hn; lia |]. cbn [words]. rewrite Hs.
    unfold line_of. cbn [map concat]. fold (line_of ws). rewrite <- app_assoc. cbn [app].
    destruct (w ++ " "%char :: line_of ws) eqn:E; [by destruct w |]. rewrite <- E. rewrite take_word_app by (done || apply H1).
    f_equal. apply IH; [done | cbn in Hn; lia |]. cbn. destruct ws as [|w' ws']; [done |].
    unfold line_of. cbn [map concat]. rewrite <- app_assoc. apply skip_word. by inversion H2.
Qed.

Lemma line_length ws : length ws ≤ length (line_of ws).
Proof. induction ws as [|w ws IH]; [done |]. unfold line_of in *. cbn. rewrite !length_app. cbn. lia. Qed.

(** ** Properties *)

(** words are split.  A line of words, each ended by a space, is split into
    them. *)
Theorem split_words (ws : list str) : Forall word ws → split (line_of ws) = ws.
Proof.
  intros Hw. apply words_line; [done | apply line_length |]. destruct ws as [|w ws]; [done |].
  unfold line_of. cbn [map concat]. rewrite <- app_assoc. apply skip_word. by inversion Hw.
Qed.

(** a command is called with its options.  The line of its name and some words
    runs the function that is registered under the name once, on what the
    words are parsed to, and goes into the history. *)
Theorem command_called (cs : commands) (w w' : W) (name : str) (argv out : list str) (cmd : command_holder) (vm : Vm) :
  Forall word (name :: argv) → cs !! name = Some cmd → parse_args (opts cmd) (pos_opts cmd) argv = inr vm →
  fn cmd vm w = (w', out, None) →
  handle cs w (line_of (name :: argv)) = Ok (w', out, None) ∧
  run cs w [line_of (name :: argv)] = Ok (w', [line_of (name :: argv)]).
Proof.
  intros Hw Hn Hp Hf. assert (E : handle cs w (line_of (name :: argv)) = Ok (w', out, None)).
  { unfold handle. rewrite (split_words (name :: argv) Hw), Hn, Hp, Hf. done. }
  split; [done |]. cbn [run]. rewrite E. cbn [mbind res_bind]. inversion Hw as [|? ? [Hne Hns] _]; subst.
  destruct name as [|a name]; [done |]. cbn in Hns |- *. by destruct (is_space a).
Qed.

(** the first command of a name stays. *)
Theorem first_registered (cs : commands) (spec spec' : str) (h h' : command_holder) :
  cs !! spec = Some h → registerCommand cs spec' h' !! spec = Some h.
Proof.
  intros H. unfold registerCommand. destruct (cs !! spec') eqn:E; [done |]. rewrite lookup_insert_ne; [done | congruence].
Qed.

(** a command out of range.  A command that is registered and throws
    std::out_of_range, having done what it did, is reported as unknown under
    the name of its first option; without one, a string that is no more is
    read. *)
Theorem out_of_range_misreported (cs : commands) (w w' : W) (name : str) (argv out : list str) (cmd : command_holder) (vm : Vm) :
  Forall word (name :: argv) → cs !! name = Some cmd → parse_args (opts cmd) (pos_opts cmd) argv = inr vm →
  fn cmd vm w = (w', out, Some OutOfRange) →
  handle cs w (line_of (name :: argv)) =
    match argv with [] => Throw Terminate | a :: _ => Ok (w', out, Some (UnknownCommand a)) end.
Proof.
  intros Hw Hn Hp Hf. unfold handle. rewrite (split_words (name :: argv) Hw), Hn, Hp, Hf. by destruct argv.
Qed.
End Commands.

(** ** The command "switches" *)

Record switch_options : Type := SwitchOptions { o_dpid : option N; o_name : option str; o_ports : bool }.

(** What is printed: a switch, with its ports or not, or a warning. *)
Inductive switch_line : Type :=
| SwitchInfo (d : N) (with_ports : option (list N))
| NoSuchName (name : str)
| Unreadable.

Definition print_switch_info (s : switch) (ports_needed : bool) : switch_line :=
  SwitchInfo (id s) (if ports_needed then Some (map port_no (all_ports s)) else None).

Section Switches.
(** [dp_desc] of a switch as text. *)
Context (dp_text : switch → str) (alive : N → bool).

Definition alive_switches (m : switch_manager) : list switch := omap (λ d, m !! d) (switches alive m).

(** [ShowSwitches]; a null pointer is warned about and followed. *)
Definition show_switches (m : switch_manager) (vm : switch_options) : list switch_line * res unit :=
  match o_dpid vm with
  | Some d =>
      match getSwitch m d with
      | Some s => ([print_switch_info s (o_ports vm)], Ok tt)
      | None => ([Unreadable], Throw Terminate)
      end
  | None =>
      match o_name vm with
      | Some name =>
          match List.find (λ s, bool_decide (dp_text s = name)) (alive_switches m) with
          | Some s => ([print_switch_info s (o_ports vm)], Ok tt)
          | None => ([NoSuchName name], Ok tt)
          end
      | None => (map (λ s, print_switch_info s (o_ports vm)) (alive_switches m), Ok tt)
      end
  end.

(** all switches are shown.  Without options the command shows the switches
    whose connections are alive, each once. *)
Theorem all_switches_shown (m : switch_manager) :
  own_ids m →
  snd (show_switches m (SwitchOptions None None false)) = Ok tt ∧
  fst (show_switches m (SwitchOptions None None false)) = map (λ d, SwitchInfo d None) (switches alive m).
Proof.
  intros Hid. split; [done |]. cbn [show_switches o_dpid o_name fst o_ports]. unfold alive_switches.
  assert (H : Forall (λ d, is_Some (m !! d)) (switches alive m)).
  { apply Forall_forall. intros d Hd. apply elem_of_dom. by eapply switches_in. }
  induction H as [|d l [s Hs] _ IH]; [done |]. cbn. rewrite Hs. cbn. unfold print_switch_info at 1. by rewrite IH, (Hid d s Hs).
Qed.

(** a switch there is not.  The warning about it is not all: its null pointer
    is followed. *)
Theorem unknown_switch_ends (m : switch_manager) (d : N) (ports_needed : bool) :
  m !! d = None → snd (show_switches m (SwitchOptions (Some d) None ports_needed)) = Throw Terminate.
Proof. intros H. unfold show_switches, getSwitch. cbn. by rewrite H. Qed.
End Switches.
