(* ===== verification/RestObjects.v ===== *)
(** * RestObjects: events and objects as JSON; to_json of Event.cc,
    FlowManager.cc, Topology.cc and HostManager.cc, and the answers of
    RestListener

    What a client is sent is the text of a value: the events it polls for, with
    the objects they are about.  The event manager tells objects apart by their
    addresses; the text has the number that the object gives for itself
    ([obj_number]) and its own JSON ([obj_info]), which are parameters of
    events.  Where the numbers of the objects differ, a client that reads the
    text knows what one knows that has the events themselves
    ([texts_carry_events]); links and hosts take random numbers, and two that
    share one are confused ([same_number_confused]).  What is said of links,
    hosts and rules can be read from it ([links_read], [hosts_read],
    [rule_read]).  An int is printed where the
    program has an unsigned number. *)

From S2P Require Import Prelude Bits Regex RestEvents RestJson Json11 Topology Ipv4Addr HostManager FlowManager.
From stdpp Require Import list strings.

(** A number of 32 bits as an int, and back. *)
Definition int_of (n : N) : Z := if (n <? 2 ^ 31)%N then Z.of_N n else (Z.of_N n - 2 ^ 32)%Z.
Definition unsigned (z : Z) : N := Z.to_N (z mod 2 ^ 32).

(** [lexical_cast] of a number *)
Definition id_str (n : N) : json := JString (number_text 10 n).

(** ** Events *)

Definition type_text (t : event_type) : str :=
  match t with RestEvents.Add => lit "Add" | RestEvents.Delete => lit "Delete" | RestEvents.Change => lit "Change" end.

Section Events.
(** The JSON of an object, and what [AppObject::id] gives: an object itself is
    known by its address. *)
Context (obj_info : N → json) (obj_number : N → N).

Definition event_json (e : event) : json :=
  JObject [(lit "time", id_str (ev_time e)); (lit "event_id", JNumber (int_of (ev_id e))); (lit "type", JString (type_text (ev_type e)));
           (lit "obj_id", id_str (obj_number (obj e))); (lit "obj_info", obj_info (obj e)); (lit "app", JString (ev_app e))].

Definition events_json (result : gmap str (list event)) : json :=
  JObject (map (λ x, (fst x, JArray (map event_json (snd x)))) (map_to_list result)).

Definition answer_json (r : N * gmap str (list event)) : json :=
  JObject [(lit "events", events_json (snd r)); (lit "last_event", JNumber (int_of (fst r)))].

(** The answer to a request for events. *)
Definition timeout_text (l : rest_listener) (param1 : str) (last_event : N) : res str :=
  r ← handle_timeout l param1 last_event; Ok (dump (answer_json r)).
End Events.

(** ** Rules *)

Section Rules.
Context {eth ip : Type} `{AD : Addresses eth ip}.

Abbreviation rule_of := (rule (M := of13_match eth ip) (I := list (instruction eth ip))).

(** [SetField] *)
Definition SetField (x : oxm eth ip) : object :=
  match field x, value x with
  | in_port, VNum n => [(lit "in_port", JNumber (int_of n))]
  | eth_src, VEth a => [(lit "eth_src", JString (eth_to_string a))]
  | eth_dst, VEth a => [(lit "eth_dst", JString (eth_to_string a))]
  | eth_type, VNum n => [(lit "eth_type", JNumber (Z.of_N n))]
  | vlan_vid, VNum n => [(lit "vlan_vid", JNumber (Z.of_N n))]
  | ipv4_src, VIp a => [(lit "ip_src", JString (uint32_t_ip_to_string (getIPv4 a)))]
  | ipv4_dst, VIp a => [(lit "ip_dst", JString (uint32_t_ip_to_string (getIPv4 a)))]
  | ip_proto, VNum n => [(lit "ip_proto", JNumber (Z.of_N n))]
  | _, _ => [(lit "unhandled field", JString (lit "error"))]
  end.

(** [action_list]: the ports and the fields that are set. *)
Definition action_list (acts : list (action eth ip)) (r : list Z * list json) : list Z * list json :=
  fold_left (λ r a, match a with
                    | OUTPUT port _ => (fst r ++ [int_of port], snd r)
                    | SET_FIELD x => (fst r, snd r ++ [JObject (SetField x)])
                    | _ => r
                    end) acts r.

(** A field of the match under a key. *)
Definition match_entry (m : of13_match eth ip) (f : match_field) (key : str) (ret : object) : object :=
  match m f with
  | Some (VNum n) => put key (JNumber (int_of n)) ret
  | Some (VEth a) => put key (JString (eth_to_string a)) ret
  | Some (VIp a) => put key (JString (uint32_t_ip_to_string (getIPv4 a))) ret
  | None => ret
  end.

Definition instruction_entry (s : object * (list Z * list json)) (i : instruction eth ip) : object * (list Z * list json) :=
  match i with
  | GOTO_TABLE t => (put (lit "goto_table") (id_str t) (fst s), snd s)
  | WRITE_METADATA v m =>
      (put (lit "metadata") (JObject [(lit "metadata", id_str v); (lit "metadata_mask", id_str m)]) (fst s), snd s)
  | APPLY_ACTIONS l => (fst s, action_list l (snd s))
  | _ => s
  end.

Definition rule_json (active : bool) (r : rule_of) : object :=
  let m := fs_match (flow r) in
  let ret := [(lit "acitive", JString (if active then lit "yes" else lit "no")); (lit "switch_id", id_str (r_switch r))] in
  let ret := match_entry m in_port (lit "in_port") ret in
  let ret := match_entry m eth_src (lit "eth_src") ret in
  let ret := match_entry m eth_dst (lit "eth_dst") ret in
  let ret := match_entry m eth_type (lit "eth_type") ret in
  let ret := match_entry m ipv4_src (lit "ip_src") ret in
  let ret := match_entry m ipv4_dst (lit "ip_dst") ret in
  let '(ret, (out_port, set)) := fold_left instruction_entry (fs_instructions (flow r)) (ret, ([], [])) in
  put (lit "set_field") (JArray set) (put (lit "out_port") (JArray (map JNumber out_port)) ret).

(** [Json] of the answers of the flow manager's handlers. *)
Definition flow_answer (inactive : gset N) (a : rest_answer (M := of13_match eth ip) (I := list (instruction eth ip))) : json :=
  let message key s := JObject [(lit key, JString (lit s))] in
  match a with
  | SwitchNotFound => message "error" "switch not found"
  | NoFlows => message "error" "switch has not flows"
  | FlowDeleted => message "flow-manager" "flow deleted"
  | FlowNotFound => message "error" "flow not found"
  | ActiveRules rs => JArray (map (λ r, JObject (rule_json (bool_decide (rule_id r ∉ inactive)) r)) rs)
  end.

(** The text of the answer to a request for rules. *)
Definition rules_text (fm : flow_manager (M := of13_match eth ip) (I := list (instruction eth ip))) (known : N → bool) (param : option N) : str :=
  dump match param with
       | None => JString (lit "{}")
       | Some d => flow_answer (inactive fm) (handleGET fm (known d) d)
       end.
End Rules.

(** ** Links and hosts *)

Definition end_json (key_id key_port : str) (x : switch_and_port) : json :=
  JObject [(key_id, id_str (dpid x)); (key_port, JNumber (int_of (port x)))].

Definition link_json (l : link_object) : json :=
  JObject [(lit "ID", id_str (obj_id l));
           (lit "connect", JArray [end_json (lit "src_id") (lit "src_port") (lo_source l); end_json (lit "dst_id") (lit "dst_port") (lo_target l)]);
           (lit "bandwidth", JNumber (lo_weight l))].

Definition link_floodlight (l : link_object) : json :=
  JObject [(lit "src-switch", id_str (dpid (lo_source l))); (lit "src-port", JNumber (int_of (port (lo_source l))));
           (lit "dst-switch", id_str (dpid (lo_target l))); (lit "dst-port", JNumber (int_of (port (lo_target l))));
           (lit "type", JString (lit "internal")); (lit "direction", JString (lit "bidirectional"))].

(** [d], [n]: the switch and the port of a host that is not attached are not
    initialised. *)
Definition host_json (d n : N) (h : host) : json :=
  JObject [(lit "ID", id_str (host_id h)); (lit "mac", JString (h_mac h));
           (lit "switch_id", id_str (default d (switchID h))); (lit "switch_port", JNumber (int_of (default n (switchPort h))))].

Definition host_floodlight (d n since : N) (h : host) : json :=
  JObject [(lit "entityClass", JString (lit "DefaultEntityClass")); (lit "mac", JString (h_mac h));
           (lit "ipv4", JString (lit "[]")); (lit "vlan", JString (lit "[]"));
           (lit "attachmentPoint", JObject [(lit "switchDPID", id_str (default d (switchID h))); (lit "port", JNumber (int_of (default n (switchPort h))));
                                            (lit "errorStatus", JString (lit "null"))]);
           (lit "lastSeen", id_str since)].

(** The answers for links and hosts are JSON texts as JSON strings. *)
Definition links_text (s : topology) : str := dump (JString (dump (JArray (map link_json (topo s))))).

Definition hosts_text (d n : N) (hm : host_manager) : str :=
  dump (JString (dump (JObject (map (λ x, (fst x, host_json d n (snd x))) (map_to_list (hosts hm)))))).

(** ** A client that reads text *)

Definition key (k : String.string) (j : json) : json := default JNull (find_key (object_items j) (lit k)).

Definition number_at (k : String.string) (j : json) : Z := match key k j with JNumber z => z | _ => 0%Z end.
Definition text_number (k : String.string) (j : json) : N := stoi 10 (string_value (key k j)).

Definition read_end (k_id k_port : String.string) (j : json) : switch_and_port :=
  SwitchPort (text_number k_id j) (unsigned (number_at k_port j)).

Definition type_of_text (t : str) : event_type :=
  if bool_decide (t = lit "Add") then RestEvents.Add else if bool_decide (t = lit "Delete") then RestEvents.Delete else RestEvents.Change.

Section Clients.
Context (atof : str → json).

Definition read_text (t : str) : json := fst (parse atof t).

(** What it does with an answer to a request for events. *)
Definition take_text (t : str) (c : client) : client :=
  let j := read_text t in
  Client (λ a, fold_left (λ X e, tell_object (type_of_text (string_value (key "type" e))) (text_number "obj_id" e) X)
                 (array_items (default JNull (find_key (object_items (key "events" j)) a))) (known c a))
         (unsigned (number_at "last_event" j)).

(** The exchange, in texts. *)
Definition text_step (obj_info : N → json) (obj_number : N → N) (param : str) (l : rest_listener) (c : client) (op : rest_op) : res (rest_listener * client) :=
  match op with
  | Report t ty o a => l' ← report l t ty o a; Ok (l', c)
  | Poll => t ← timeout_text obj_info obj_number l param (last_seen c); Ok (l, take_text t c)
  end.

Fixpoint text_run (obj_info : N → json) (obj_number : N → N) (param : str) (l : rest_listener) (c : client) (ops : list rest_op) : res (rest_listener * client) :=
  match ops with
  | [] => Ok (l, c)
  | op :: ops => '(l', c') ← text_step obj_info obj_number param l c op; text_run obj_info obj_number param l' c' ops
  end.
End Clients.

(** A client that knows the numbers of the objects that another knows. *)
Definition same_client (obj_number : N → N) (c c' : client) : Prop :=
  last_seen c' = last_seen c ∧ ∀ a, known c' a = set_map obj_number (known c a).

Definition same_result (obj_number : N → N) (x y : res (rest_listener * client)) : Prop :=
  match x, y with
  | Ok (l, c), Ok (l', c') => l = l' ∧ same_client obj_number c c'
  | Throw e, Throw e' => e = e'
  | _, _ => False
  end.

(** The objects that an application reports have numbers of their own. *)
Definition reported (ops : list rest_op) (a : str) (o : N) : Prop := ∃ t ty, Report t ty o a ∈ ops.

Definition numbers_apart (obj_number : N → N) (ops : list rest_op) : Prop :=
  ∀ a o o', reported ops a o → reported ops a o' → obj_number o = obj_number o' → o = o'.

(** ** Lemmas *)

Lemma key_canon k j : key k (canon j) = canon (key k j).
Proof.
  unfold key. destruct j as [| | | | | o]; try done. cbn [canon object_items]. rewrite find_to_map, find_canon. by destruct (find_key o _).
Qed.

Lemma string_canon j : string_value (canon j) = string_value j.
Proof. by destruct j. Qed.

Lemma array_canon j : array_items (canon j) = map canon (array_items j).
Proof. by destruct j. Qed.

Lemma number_canon k j : number_at k (canon j) = number_at k j.
Proof. unfold number_at. rewrite key_canon. by destruct (key k j). Qed.

Lemma text_canon k j : text_number k (canon j) = text_number k j.
Proof. unfold text_number. by rewrite key_canon, string_canon. Qed.

Lemma stoi_text n : stoi 10 (number_text 10 n) = n.
Proof. apply number_text_read. by left. Qed.

Lemma unsigned_int n : (n < 2 ^ 32)%N → unsigned (int_of n) = n.
Proof.
  intros Hn. unfold unsigned, int_of. destruct (N.ltb_spec n (2 ^ 31)) as [H | H].
  - rewrite Z.mod_small by lia. lia.
  - rewrite <- (Z.mod_unique (Z.of_N n - 2 ^ 32) (2 ^ 32) (-1) (Z.of_N n)) by lia. lia.
Qed.

Lemma int_exact n : (n < 2 ^ 32)%N → (Z.abs (int_of n) ≤ 2 ^ 53)%Z.
Proof. intros Hn. unfold int_of. destruct (N.ltb_spec n (2 ^ 31)); lia. Qed.

Lemma find_map_to_list {A} (F : A → json) (m : gmap str A) k :
  find_key (map (λ x, (fst x, F (snd x))) (map_to_list m)) k = F <$> m !! k.
Proof.
  rewrite <- (list_to_map_to_list m) at 2. induction (map_to_list m) as [|[k' x] l IH]; [done |]. cbn [map find_key fst snd].
  destruct (decide (k' = k)) as [-> | Hne]; [by rewrite list_to_map_cons, lookup_insert_eq | rewrite list_to_map_cons, lookup_insert_ne by done; apply IH].
Qed.

Lemma read_printed atof j : exact_numbers j → height j ≤ 200 → read_text atof (dump j) = canon j.
Proof. intros He Hh. unfold read_text. by rewrite dump_parsed. Qed.

(** The information on objects is printed. *)
Definition printable (k : nat) (j : json) : Prop := exact_numbers j ∧ height j ≤ k.

Section Printed.
Context (obj_info : N → json) (obj_number : N → N).
Hypothesis info_ok : ∀ o, printable 196 (obj_info o).

Lemma event_printable e : (ev_id e < 2 ^ 32)%N → printable 197 (event_json obj_info obj_number e).
Proof.
  intros Hid. destruct (info_ok (obj e)) as [He Hh]. split; cbn; [| lia]. split_and!; try done. by apply int_exact.
Qed.

Lemma answer_printable r : (fst r < 2 ^ 32)%N → (∀ a es e, snd r !! a = Some es → e ∈ es → (ev_id e < 2 ^ 32)%N) →
  printable 200 (answer_json obj_info obj_number r).
Proof.
  intros Hn Hids.
  assert (H : Forall (λ x, Forall (λ e, printable 197 (event_json obj_info obj_number e)) (snd x)) (map_to_list (snd r))).
  { apply Forall_forall. intros [a es] Hin%elem_of_map_to_list. apply Forall_forall. intros e He. apply event_printable. by eapply Hids. }
  assert (He : exact_numbers (events_json obj_info obj_number (snd r))).
  { unfold events_json. cbn [exact_numbers]. apply (foldr_Forall (λ x, exact_numbers (snd x))), Forall_map. eapply Forall_impl; [exact H |].
    intros [a es] Hes. cbn [snd]. cbn [exact_numbers]. apply foldr_Forall, Forall_map. eapply Forall_impl; [exact Hes |]. by intros e [? _]. }
  assert (Hh : height (events_json obj_info obj_number (snd r)) ≤ 199).
  { unfold events_json. cbn [height]. apply (max_Forall height snd), Forall_map. eapply Forall_impl; [exact H |].
    intros [a es] Hes. cbn [snd]. apply le_n_S. cbn [height]. apply (max_Forall height (λ x, x)), Forall_map. eapply Forall_impl; [exact Hes |].
    intros e [_ ?]. cbn beta. lia. }
  split; [split; [exact He | split; [by apply int_exact | done]] |].
  change (height (answer_json obj_info obj_number r)) with (Nat.max (S (height (events_json obj_info obj_number (snd r)))) (Nat.max 1 0)). lia.
Qed.

Lemma type_read t : type_of_text (type_text t) = t.
Proof. by destruct t. Qed.

(** Objects of which no two have the same number. *)
Context (R : N → Prop) (Happart : ∀ o o', R o → R o' → obj_number o = obj_number o' → o = o').

Definition within (X : gset N) : Prop := ∀ o, o ∈ X → R o.

Lemma tell_within ty o X : R o → within X → within (tell_object ty o X).
Proof. intros Ho HX x. destruct ty; cbn [tell_object]; [intros [->%elem_of_singleton | Hx]%elem_of_union | intros [Hx _]%elem_of_difference |]; auto. Qed.

Lemma tell_number ty o X : R o → within X →
  tell_object ty (obj_number o) (set_map obj_number X) = set_map obj_number (tell_object ty o X).
Proof.
  intros Ho HX. destruct ty; cbn [tell_object]; [by rewrite set_map_union_L, set_map_singleton_L | | done].
  apply set_eq. intros n. rewrite elem_of_difference, elem_of_singleton, !elem_of_map. split.
  - intros [(x & -> & Hx) Hne]. exists x. split; [done |]. apply elem_of_difference. rewrite elem_of_singleton. split; [done |]. by intros ->.
  - intros (x & -> & [Hx Hn%not_elem_of_singleton]%elem_of_difference). split; [by exists x |]. intros E. apply Hn. apply Happart; auto.
Qed.

Lemma take_events X es : (∀ e, e ∈ es → R (obj e)) → within X →
  fold_left (λ X e, tell_object (type_of_text (string_value (key "type" e))) (text_number "obj_id" e) X)
    (map canon (map (event_json obj_info obj_number) es)) (set_map obj_number X) =
  set_map obj_number (fold_left (λ X e, tell_object (ev_type e) (obj e) X) es X).
Proof.
  revert X. induction es as [|e es IH]; intros X Hes HX; [done |]. cbn [map fold_left]. rewrite key_canon, string_canon, text_canon.
  change (key "type" (event_json obj_info obj_number e)) with (JString (type_text (ev_type e))). cbn [string_value].
  change (text_number "obj_id" (event_json obj_info obj_number e)) with (stoi 10 (number_text 10 (obj_number (obj e)))).
  rewrite type_read, stoi_text, tell_number by (done || (apply Hes; by left)). apply IH; [intros x Hx; apply Hes; by right |].
  apply tell_within; [apply Hes; by left | done].
Qed.

Lemma told_within X es : (∀ e, e ∈ es → R (obj e)) → within X → within (fold_left (λ X e, tell_object (ev_type e) (obj e) X) es X).
Proof.
  revert X. induction es as [|e es IH]; intros X Hes HX; [done |]. cbn [fold_left]. apply IH; [intros x Hx; apply Hes; by right |].
  apply tell_within; [apply Hes; by left | done].
Qed.
End Printed.

(** ** The events there are *)

Section Narrow.
Context (R : str → N → Prop).

(** Numbers have 32 bits, and the objects of an application are those of [R]. *)
Definition narrow (es : list event) : Prop := ∀ e, e ∈ es → (ev_id e < 2 ^ 32)%N ∧ R (ev_app e) (obj e).

Lemma wrap_narrow n : (wrap 32 n < 2 ^ 32)%N.
Proof. unfold wrap. rewrite N.land_ones. by apply N.mod_lt. Qed.

Lemma narrow_nil : narrow [].
Proof. intros e He. by apply not_elem_of_nil in He. Qed.

Lemma narrow_snoc es e : narrow es → (ev_id e < 2 ^ 32)%N → R (ev_app e) (obj e) → narrow (es ++ [e]).
Proof. intros H He Ho x [Hx | ->%list_elem_of_singleton]%elem_of_app; [by apply H | done]. Qed.

Lemma narrow_alter j i es : narrow es → narrow (alter (set_brother j) i es).
Proof.
  intros H x (k & Hk)%list_elem_of_lookup. destruct (decide (i = k)) as [-> | Hne].
  - rewrite list_lookup_alter_eq in Hk. destruct (es !! k) as [y|] eqn:E; [| done]. injection Hk as <-. cbn. eapply H, list_elem_of_lookup_2, E.
  - rewrite list_lookup_alter_ne in Hk by done. eapply H, list_elem_of_lookup_2, Hk.
Qed.

(** Handlers are registered under their names. *)
Definition named (l : rest_listener) : Prop := ∀ a h, rest_handlers l !! a = Some h → restName h = a.

Lemma report_narrow l t ty o a l' : narrow (events (em l)) → named l → R a o → report l t ty o a = Ok l' → narrow (events (em l')) ∧ named l'.
Proof.
  intros H Hl Ho E. split; revert E; unfold report; destruct (rest_handlers l !! a) as [h|] eqn:Eh; try by intros [= <-].
  2: { destruct (addEvent _ _ _ _ _); [by intros [= <-] | done]. }
  apply Hl in Eh. rewrite <- Eh in Ho.
  destruct (addEvent (em l) t ty o h) as [m|] eqn:E; [| done]. intros [= <-]. cbn [em]. revert E. unfold addEvent, addToEventList.
  destruct (_ && _); [| by intros [= <-]]. destruct (_ =? _)%N; [by intros [= <-] |].
  destruct ty; [| destruct (findBrother _ o) as [i|]; [| done] |]; intros [= <-]; cbn [events];
    (apply narrow_snoc; [try apply narrow_alter; done | apply wrap_narrow | done]).
Qed.

(** What is collected for an application are events of its own. *)
Definition collected (r : gmap str (list event)) : Prop := ∀ a l e, r !! a = Some l → e ∈ l → (ev_id e < 2 ^ 32)%N ∧ R a (obj e).

Lemma collect_narrow m hash last es : ∀ result n r,
  narrow es → (last < 2 ^ 32)%N → ∀ le, (le < 2 ^ 32)%N → collected result →
  collect m hash last es result le = Ok (n, r) → (n < 2 ^ 32)%N ∧ collected r.
Proof.
  induction es as [|e es IH]; intros result n r Hes Hl le Hle Hr; cbn [collect].
  - intros [= <- <-]. split; [by destruct (_ =? _)%N | done].
  - assert (He : (ev_id e < 2 ^ 32)%N ∧ R (ev_app e) (obj e)) by (apply Hes; by constructor).
    assert (Hes' : narrow es) by (intros x Hx; apply Hes; by constructor).
    destruct (_ && _); [| by apply IH]. destruct (checkOverlap m e last) as [[|]|]; cbn [mbind res_bind]; [by apply IH | | done].
    apply IH; [done | done | destruct (_ <? _)%N; [apply He | done] |]. intros a l x [[<- <-] | [_ Ha]]%lookup_insert_Some Hx; [| by eapply Hr].
    apply elem_of_app in Hx as [Hx | ->%list_elem_of_singleton]; [| done].
    destruct (result !! ev_app e) as [l'|] eqn:E; [by eapply Hr | by apply not_elem_of_nil in Hx].
Qed.
End Narrow.

(** A text gives the numbers of what the events give. *)
Lemma take_text_same (atof : str → json) (obj_info : N → json) (obj_number : N → N) (R : str → N → Prop) r c c' :
  (∀ a o o', R a o → R a o' → obj_number o = obj_number o' → o = o') →
  (∀ o, printable 196 (obj_info o)) → (fst r < 2 ^ 32)%N → collected R (snd r) →
  (∀ a, within (R a) (known c a)) → same_client obj_number c c' →
  same_client obj_number (take_answer r c) (take_text atof (dump (answer_json obj_info obj_number r)) c') ∧
  ∀ a, within (R a) (known (take_answer r c) a).
Proof.
  intros Hap Hi Hn Hids Hw [Hls Hkn].
  destruct (answer_printable obj_info obj_number Hi r Hn) as [He Hh]; [intros a es e Ha Hin; by apply (Hids a es e Ha) |].
  unfold take_text. rewrite read_printed by done. split; [split |]; cbn [last_seen known take_answer].
  - rewrite number_canon. change (number_at "last_event" (answer_json obj_info obj_number r)) with (int_of (fst r)). by apply unsigned_int.
  - intros a. rewrite key_canon. change (key "events" (answer_json obj_info obj_number r)) with (events_json obj_info obj_number (snd r)).
    unfold events_json. cbn [canon object_items].
    rewrite find_to_map, find_canon, (find_map_to_list (λ es, JArray (map (event_json obj_info obj_number) es))), Hkn.
    destruct (snd r !! a) as [es|] eqn:E; [| done]. cbn [fmap option_fmap option_map default from_option canon array_items].
    apply (take_events _ _ (R a) (Hap a)); [| done]. intros e Hin. by apply (Hids a es e E).
  - intros a. apply told_within; [| done]. intros e Hin. destruct (snd r !! a) as [es|] eqn:E; [by apply (Hids a es e E) | by apply not_elem_of_nil in Hin].
Qed.

Lemma text_run_same (atof : str → json) (obj_info : N → json) (obj_number : N → N) (R : str → N → Prop) param ops :
  (∀ o, printable 196 (obj_info o)) → (∀ a o o', R a o → R a o' → obj_number o = obj_number o' → o = o') → (∀ a o, reported ops a o → R a o) →
  ∀ l c c', narrow R (events (em l)) → named l → same_client obj_number c c' → (last_seen c < 2 ^ 32)%N → (∀ a, within (R a) (known c a)) →
  same_result obj_number (run param l c ops) (text_run atof obj_info obj_number param l c' ops).
Proof.
  intros Hi Hap. induction ops as [|op ops IH]; intros HR l c c' H0 Hl Hs Hc Hw; [done |].
  assert (HR' : ∀ a o, reported ops a o → R a o) by (intros a o (t & ty & Hin); apply HR; exists t, ty; by right).
  cbn [run text_run]. destruct op as [t ty o a |]; cbn [step text_step].
  - assert (Ho : R a o) by (apply HR; exists t, ty; by left).
    destruct (report l t ty o a) as [l'|] eqn:E; [| done]. cbn [mbind res_bind].
    destruct (report_narrow R l t ty o a l' H0 Hl Ho E). by apply IH.
  - unfold timeout_text. rewrite (proj1 Hs). destruct (handle_timeout l param (last_seen c)) as [r|] eqn:E; [| done]. cbn [mbind res_bind].
    destruct r as [n r].
    assert (Hnr : (n < 2 ^ 32)%N ∧ collected R r) by (by eapply (collect_narrow R _ _ _ _ ∅ n r H0 Hc 0%N)).
    destruct (take_text_same atof obj_info obj_number R (n, r) c c' Hap Hi) as [Hs' Hw']; [by apply Hnr .. | done | done |].
    apply IH; [done | done | done | done | by apply Hnr | done].
Qed.

Lemma register_all_named apps : ∀ l, named l → named (register_all apps l).
Proof.
  induction apps as [|[a ev] apps IH]; intros l Hl; [done |]. apply IH. intros b h. cbn [fst snd]. unfold registerRestHandler.
  destruct ev; cbn [rest_handlers]; intros [[<- <-] | [_ Hb]]%lookup_insert_Some; auto.
Qed.

Lemma register_all_em apps : ∀ l, em (register_all apps l) = em l.
Proof. induction apps as [|[a ev] apps IH]; intros l; [done |]. cbn [register_all fold_left fst snd]. etrans; [apply IH |]. by destruct ev. Qed.

(** ** Links, hosts and rules *)

Definition read_link (j : json) : N * switch_and_port * switch_and_port :=
  let ends := array_items (key "connect" j) in
  (text_number "ID" j, read_end "src_id" "src_port" (nth 0 ends JNull), read_end "dst_id" "dst_port" (nth 1 ends JNull)).

Lemma lit_inj s s' : lit s = lit s' → s = s'.
Proof. intros E. rewrite <- (String.string_of_list_ascii_of_string s), <- (String.string_of_list_ascii_of_string s'). by f_equal. Qed.

Lemma end_read k_id k_port (x : switch_and_port) : k_id ≠ k_port → (port x < 2 ^ 32)%N →
  read_end k_id k_port (canon (end_json (lit k_id) (lit k_port) x)) = x.
Proof.
  intros Hk Hp. unfold read_end. rewrite text_canon, number_canon. unfold text_number, number_at, key, end_json. cbn [object_items find_key fst snd].
  rewrite decide_True by done. rewrite decide_False by (by intros E%lit_inj). rewrite decide_True by done. cbn [default from_option]. unfold id_str, Datatypes.id. cbn [string_value]. rewrite stoi_text, unsigned_int by done. by destruct x.
Qed.

Lemma link_read (l : link_object) : (port (lo_source l) < 2 ^ 32)%N → (port (lo_target l) < 2 ^ 32)%N →
  read_link (canon (link_json l)) = (obj_id l, lo_source l, lo_target l).
Proof.
  intros H1 H2. unfold read_link. rewrite text_canon.
  change (text_number "ID" (link_json l)) with (stoi 10 (number_text 10 (obj_id l))). rewrite stoi_text.
  assert (Hc : array_items (key "connect" (canon (link_json l))) =
    [canon (end_json (lit "src_id") (lit "src_port") (lo_source l)); canon (end_json (lit "dst_id") (lit "dst_port") (lo_target l))])
    by (by rewrite key_canon).
  rewrite Hc. cbn [nth]. by rewrite !end_read.
Qed.

Lemma links_exact ls :
  Forall (λ l, (Z.abs (lo_weight l) ≤ 2 ^ 53)%Z ∧ (port (lo_source l) < 2 ^ 32)%N ∧ (port (lo_target l) < 2 ^ 32)%N) ls →
  exact_numbers (JArray (map link_json ls)).
Proof.
  intros H. cbn [exact_numbers]. apply foldr_Forall, Forall_map. eapply Forall_impl; [exact H |]. intros l (H1 & H2 & H3).
  repeat split; try done; by apply int_exact.
Qed.

Lemma links_height ls : height (JArray (map link_json ls)) ≤ 200.
Proof. cbn [height]. apply (max_Forall height (λ x, x)), Forall_map, Forall_forall. intros l _. cbn. lia. Qed.

Lemma host_read (d n d' n' : N) h : switchID h = Some d' → switchPort h = Some n' → (n' < 2 ^ 32)%N →
  read_end "switch_id" "switch_port" (canon (host_json d n h)) = SwitchPort d' n'.
Proof.
  intros Hd Hp Hn. unfold read_end, host_json. rewrite Hd, Hp. cbn [default from_option]. set (j := JObject _). rewrite text_canon, number_canon.
  change (text_number "switch_id" j) with (stoi 10 (number_text 10 d')). change (number_at "switch_port" j) with (int_of n').
  by rewrite stoi_text, unsigned_int.
Qed.

Lemma hosts_exact (d n : N) (m : gmap str host) :
  (∀ a h, m !! a = Some h → ∃ d' n', switchID h = Some d' ∧ switchPort h = Some n' ∧ (n' < 2 ^ 32)%N) →
  exact_numbers (JObject (map (λ x, (fst x, host_json d n (snd x))) (map_to_list m))).
Proof.
  intros H. cbn [exact_numbers]. apply (foldr_Forall (λ x, exact_numbers (snd x))), Forall_map, Forall_forall. intros [a h] Hin%elem_of_map_to_list.
  destruct (H a h Hin) as (d' & n' & Hd & Hn & Hlt). cbn. rewrite Hn. repeat split; try done; by apply int_exact.
Qed.

Lemma hosts_height (d n : N) (m : gmap str host) : height (JObject (map (λ x, (fst x, host_json d n (snd x))) (map_to_list m))) ≤ 200.
Proof. cbn [height]. apply (max_Forall height snd), Forall_map, Forall_forall. intros [a h] _. cbn. lia. Qed.

Lemma find_put k j o k' : find_key (put k j o) k' = if decide (k = k') then Some j else find_key o k'.
Proof.
  unfold put. induction o as [|[k1 j1] o IH].
  - cbn. by destruct (decide _).
  - destruct (decide (k1 = k)) as [-> | Hne].
    + rewrite filter_cons_False by (by intros H; apply H). rewrite IH. cbn [find_key fst snd]. by repeat destruct (decide _).
    + rewrite filter_cons_True by done. cbn [app find_key fst snd]. rewrite IH. repeat destruct (decide _); congruence.
Qed.

Section RuleLemmas.
Context {eth ip : Type} `{AD : Addresses eth ip}.

(** The keys of the fields of a match, and what they hold. *)
Definition entry_keys : list (match_field * String.string) :=
  [(in_port, "in_port"); (eth_src, "eth_src"); (eth_dst, "eth_dst"); (eth_type, "eth_type"); (ipv4_src, "ip_src"); (ipv4_dst, "ip_dst")]%string.

Definition entry_json (v : field_value eth ip) : json :=
  match v with
  | VNum n => JNumber (int_of n)
  | VEth a => JString (eth_to_string a)
  | VIp a => JString (uint32_t_ip_to_string (getIPv4 a))
  end.

Definition applied (ins : list (instruction eth ip)) : list (action eth ip) :=
  flat_map (λ i, match i with APPLY_ACTIONS l => l | _ => [] end) ins.
Definition outputs (acts : list (action eth ip)) : list Z := flat_map (λ a, match a with OUTPUT p _ => [int_of p] | _ => [] end) acts.
Definition sets (acts : list (action eth ip)) : list json := flat_map (λ a, match a with SET_FIELD x => [JObject (SetField x)] | _ => [] end) acts.

Lemma find_match_entry (m : of13_match eth ip) f k o k' :
  find_key (match_entry m f k o) k' = if decide (k = k') then match m f with Some v => Some (entry_json v) | None => find_key o k' end else find_key o k'.
Proof. unfold match_entry. destruct (m f) as [[]|]; rewrite ?find_put; by destruct (decide _). Qed.

Lemma action_list_adds acts : ∀ r, action_list acts r = (fst r ++ outputs acts, snd r ++ sets acts).
Proof.
  unfold action_list. induction acts as [|a acts IH]; intros [o s]; cbn [fold_left]; [by rewrite !app_nil_r |].
  rewrite IH. destruct a; cbn [fst snd outputs sets flat_map app]; by rewrite <- ?app_assoc.
Qed.

Lemma instructions_listed ins : ∀ s, snd (fold_left instruction_entry ins s) = (fst (snd s) ++ outputs (applied ins), snd (snd s) ++ sets (applied ins)).
Proof.
  induction ins as [|i ins IH]; intros [o [p q]]; cbn [fold_left]; [by rewrite !app_nil_r |]. rewrite IH. unfold applied, outputs, sets.
  destruct i; cbn [instruction_entry fst snd flat_map app]; try done. rewrite action_list_adds. cbn [fst snd]. by rewrite !flat_map_app, !app_assoc.
Qed.

Lemma instructions_keep ins k : k ≠ lit "goto_table" → k ≠ lit "metadata" → ∀ s, find_key (fst (fold_left instruction_entry ins s)) k = find_key (fst s) k.
Proof.
  intros H1 H2. induction ins as [|i ins IH]; intros s; cbn [fold_left]; [done |]. rewrite IH.
  destruct i; cbn [instruction_entry fst]; try done; by rewrite find_put, decide_False.
Qed.
End RuleLemmas.

Ltac compare_keys := repeat first [rewrite decide_False by (by vm_compute) | rewrite decide_True by done].

(** ** Properties *)

(** C27: a client of the texts.  When the objects that one application reports
    have numbers of their own, then whatever is reported and polled, a client that parses
    the texts it is sent knows exactly the numbers of the objects that one
    knows that is given the events themselves, whatever JSON of at most 196
    levels the objects have; requests fail together. *)
Theorem texts_carry_events (atof : str → json) (obj_info : N → json) (obj_number : N → N) (apps : list (str * bool)) (param : str)
    (ops : list rest_op) :
  (∀ o, printable 196 (obj_info o)) → numbers_apart obj_number ops →
  same_result obj_number (run param (register_all apps init_listener) (Client (λ _, ∅) 0) ops)
    (text_run atof obj_info obj_number param (register_all apps init_listener) (Client (λ _, ∅) 0) ops).
Proof.
  intros Hi Hap. apply (text_run_same atof obj_info obj_number (reported ops)); try done.
  - rewrite register_all_em. apply narrow_nil.
  - by apply register_all_named.
Qed.

(** the links.  Read twice, the answer for links gives the links of the
    topology in their order, with their ids and both ends. *)
Theorem links_read (atof : str → json) (s : topology) :
  Forall (λ l, (Z.abs (lo_weight l) ≤ 2 ^ 53)%Z ∧ (port (lo_source l) < 2 ^ 32)%N ∧ (port (lo_target l) < 2 ^ 32)%N) (topo s) →
  map read_link (array_items (read_text atof (string_value (read_text atof (links_text s))))) =
  map (λ l, (obj_id l, lo_source l, lo_target l)) (topo s).
Proof.
  intros H. unfold links_text. rewrite (read_printed atof (JString _)) by (try done; cbn; lia). cbn [canon string_value].
  rewrite read_printed; [| by apply links_exact | by apply links_height]. cbn [canon array_items]. rewrite !map_map.
  apply map_ext_in. intros l Hl%list_elem_of_In. rewrite Forall_forall in H. destruct (H l Hl) as (_ & H1 & H2). by apply link_read.
Qed.

(** the hosts.  Read twice, the answer for hosts gives at the address of a
    host that is attached its id and its place, and nothing where there is no
    host. *)
Theorem hosts_read (atof : str → json) (d n : N) (hm : host_manager) (mac : str) :
  (∀ a h, hosts hm !! a = Some h → ∃ d' n', switchID h = Some d' ∧ switchPort h = Some n' ∧ (n' < 2 ^ 32)%N) →
  let found := find_key (object_items (read_text atof (string_value (read_text atof (hosts_text d n hm))))) mac in
  match hosts hm !! mac with
  | Some h => ∃ j, found = Some j ∧ text_number "ID" j = host_id h ∧ string_value (key "mac" j) = h_mac h ∧
      switchID h = Some (dpid (read_end "switch_id" "switch_port" j)) ∧ switchPort h = Some (port (read_end "switch_id" "switch_port" j))
  | None => found = None
  end.
Proof.
  intros H found. subst found. unfold hosts_text. rewrite (read_printed atof (JString _)) by (try done; cbn; lia). cbn [canon string_value].
  rewrite read_printed; [| by apply hosts_exact | by apply hosts_height]. cbn [canon object_items].
  rewrite find_to_map, find_canon, (find_map_to_list (host_json d n)). destruct (hosts hm !! mac) as [h|] eqn:E; [| done].
  destruct (H mac h E) as (d' & n' & Hd & Hn & Hlt). exists (canon (host_json d n h)). split; [done |].
  rewrite (host_read d n d' n' h Hd Hn Hlt). rewrite text_canon, key_canon, string_canon. split_and!; [apply stoi_text | done | done | done].
Qed.

(** rules.  The JSON of a rule holds the fields of its match under their
    keys, the ports of all output actions it applies and the fields these set,
    in order. *)
Theorem rule_read {eth ip : Type} `{Addresses eth ip} (active : bool) (r : rule (M := of13_match eth ip) (I := list (instruction eth ip))) :
  Forall (λ x, find_key (rule_json active r) (lit (snd x)) = entry_json <$> fs_match (flow r) (fst x)) entry_keys ∧
  find_key (rule_json active r) (lit "out_port") = Some (JArray (map JNumber (outputs (applied (fs_instructions (flow r)))))) ∧
  find_key (rule_json active r) (lit "set_field") = Some (JArray (sets (applied (fs_instructions (flow r))))).
Proof.
  unfold rule_json. rewrite (surjective_pairing (fold_left _ _ _)), (surjective_pairing (snd (fold_left _ _ _))), instructions_listed. cbn [fst snd app].
  split; [| by rewrite !find_put].
  unfold entry_keys. repeat apply Forall_cons_2; [.. | by apply Forall_nil_2]; cbn [fst snd];
    rewrite !find_put; compare_keys; rewrite instructions_keep by (by vm_compute); cbn [fst]; rewrite !find_match_entry; compare_keys;
    by destruct (fs_match (flow r) _).
Qed.

(** ** Events with objects *)

Definition sample_info (o : N) : json := JObject [(lit "ID", id_str o); (lit "tags", JArray [JNumber (-1); JNull])].

Lemma texts_carry_events_witness :
  same_result (λ o, o + 2000)%N (run (lit "switch-manager") (register_all sample_apps init_listener) (Client (λ _, ∅) 0) (sample_ops ++ [Poll]))
    (text_run (λ _, JNull) sample_info (λ o, o + 2000)%N (lit "switch-manager") (register_all sample_apps init_listener) (Client (λ _, ∅) 0)
       (sample_ops ++ [Poll])).
Proof. apply texts_carry_events; [intros o; split; cbn; [repeat split; lia | lia] | intros a o o' _ _ E; lia]. Defined.

(** two links of one number.  Links take random numbers from 2000 to 2999.
    When one of two links that took the same number is lost, a client of the texts
    knows of no link, while there is one. *)
Theorem same_number_confused :
  let ops := [Report 1 RestEvents.Add 7 (lit "topology"); Report 2 RestEvents.Add 8 (lit "topology"); Poll; Report 3 RestEvents.Delete 7 (lit "topology"); Poll] in
  let l := register_all sample_apps init_listener in
  (λ x, base.elements (known (snd x) (lit "topology"))) <$> run (lit "topology") l (Client (λ _, ∅) 0) ops = Ok [8%N] ∧
  (λ x, base.elements (known (snd x) (lit "topology"))) <$>
    text_run (λ _, JNull) sample_info (λ _, 2345%N) (lit "topology") l (Client (λ _, ∅) 0) ops = Ok [].
Proof. by vm_compute. Qed.
